(* ===== verification/_CoqProject ===== *)
-Q . S2P
Prelude.v
Codec.v
Decimal.v
Fs.v
Stream.v
Crc32.v
Wal.v
Memtable.v
SSTable.v
Engine.v
EngineDir.v
Store.v
EngineSpec.v
EngineOpen.v
EngineCrash.v
RaftTypes.v
RaftSpec.v
Txn.v
ConfChange.v
Message.v
Participant.v
RaftLog.v
LogView.v
PeerSpec.v
HardState.v
Routing.v
Transport.v
Sockets.v
Client.v
ClientSpec.v
RaftNode.v
RaftVote.v
RaftCommit.v
RaftMembership.v
RaftApply.v
NodeLog.v
NodeSteps.v
Cluster.v
Network.v
NetworkSafe.v
LogSafety.v
CatchUp.v
Replicas.v
Transfers.v
Reconfig.v
Lexer.v
Ast.v
Parser.v
ParserSpec.v
Schema.v
StoreSim.v
Executor.v
Database.v
SqlSpec.v
Server.v
ServerSpec.v
ServerCluster.v
Coordinator.v
CoordinatorSpec.v
Scatter.v
Repl.v
ReplSpec.v
Shell.v
Ui.v
UiApp.v
UiSpec.v
UiAppSpec.v
