(* ===== verification/Prelude.v ===== *)
(** * distdb: a verification library for the distributed SQL store

    The repository is a small distributed SQL database in C++: a storage engine (log-structured,
    with a write-ahead log), a SQL layer on top of it, Raft replication of the SQL commands
    within a shard, a table that routes row keys to shards, two-phase commit across shards, a
    node program with a REPL, a single-node shell and a desktop client.  This library is a
    shallow embedding of that code, with the theorems that make it correct.  File names below are
    relative to [src/]; definitions keep the names of the source.

    ** Conventions

    Strings are [bytes], lists of 8-bit [ascii].  Unsigned integers are [N], and every operation
    that can wrap is followed by [u16], [u32] or [u64]; signed 64-bit comparisons are on [Z] with
    the range checked as [std::stoll] does.  [std::map] is a [gmap] with its entries taken in key
    order ([map_entries]).  Code that may throw returns an [outcome]: [Ret], [Throw] with the
    exception, or [Undef] for undefined behaviour, which the theorems exclude.  Code with state is
    in the monad [ST S A := S -> outcome A * S]; a throw keeps the changes made so far, as in C++.
    The tactics [st_steps], [keeps], [moves] and [sim] of this library go through such programs.

    ** Storage: Codec, Stream, Decimal, Fs, Crc32, Wal, Memtable, SSTable, Engine*

    Codec has the fixed-width and length-prefixed encodings; a reader that takes bytes which are
    not there is [Undef], so that only the length checks of the code make it safe.
    [storage/crc32.cpp], [wal.cpp], [memtable.cpp], [sstable.cpp] and [engine.cpp] are Crc32, Wal,
    Memtable, SSTable and Engine; Fs and EngineDir model the directory as a journal of effects,
    and a crash ([crash_states]) keeps any prefix of the journal, the last append cut anywhere;
    renames and removals are atomic.  EngineSpec, EngineOpen and EngineCrash show that the engine
    is a map under writes, flushes and compactions, that a restart finds the same map, and that an
    interrupted write happens entirely or not at all; and they exhibit the two crash patterns in
    which it does not keep that promise (a torn log tail followed by later writes, a crash between
    the removals of a compaction).  Store is the interface between layers: the class [KVStore] of
    operations and the class [KVStoreLaws] of their laws, with instances for the engine and for a
    plain map; [kv_ok b s] says that a store has room for [b] more bytes, since lengths on disk
    have 32 bits.

    ** SQL: Lexer, Ast, Parser, Schema, Executor, Database

    [sql/lexer.cpp], [ast.h], [parser.cpp], [schema.cpp] and [executor.cpp] are Lexer, Ast, Parser,
    Schema and Executor.  ParserSpec shows that the parser never reads past its tokens and inverts
    a printer.  Database is the abstract specification, relational databases with the meaning of
    every statement, and the proof of agreement; StoreSim moves programs from one store to
    another; SqlSpec concludes that a session of SQL texts on any store, in particular on the
    engine, answers as the database does, errors included.  The fuel of [lex] is the length of the
    text plus one and that of the parser's loops is the number of tokens; both are proved enough
    ([lex_defined], [Parse_good]).

    ** Raft: RaftTypes, Message, ConfChange, RaftLog, HardState, PeerSpec, RaftNode

    [raft/message.cpp], [conf_change.cpp], [log.cpp], [persistent_state.cpp] and
    [membership_state.cpp] are Message, ConfChange, RaftLog and HardState (PeerSpec holds the text
    formats).  [raft/node.cpp] is RaftNode: its state is one record and every critical section
    under [mutex_] is one operation, so that the threads are interleavings of operations; the
    two sections of [ReplicateTo] are the operations [BeginReplicate] and [SendInstallSnapshot],
    and their sequence is one too; the ticker's sleeping and the condition variables are left
    out.  The callbacks are the interface
    [StateMachine].  RaftVote, RaftCommit, RaftMembership and RaftApply are about one node under
    any interleaving ([node_step]) and any restart.

    ** The cluster: RaftSpec, LogView, NodeLog, NodeSteps, Cluster, Network, NetworkSafe, LogSafety,
    CatchUp, Replicas, Transfers, Reconfig

    RaftSpec is Raft as a protocol on full logs: participants, leaders, candidacies, votes and
    acknowledgements, eight kinds of steps ([raft_step]) and the invariant ([sound]) from which
    committed logs never disagree and later leaders have them.  LogView reads the compacted log of
    [raft/log.cpp] as a full log.  NodeLog and NodeSteps relate a node to the protocol
    ([node_rel]) and show, operation by operation, that what the code does is some steps of the
    protocol.  Cluster is several nodes with their vote messages, and shows that elections are
    safe; Network adds the requests and answers of replication and of snapshots, in any order,
    delayed, repeated or lost, crashes between critical sections, and restarts; NetworkSafe is the
    simulation ([net_step_follows]: every step of the cluster is steps of the protocol), and
    LogSafety has its consequences for the logs of the running code.  CatchUp shows that a leader
    brings a follower its whole log in a bounded number of rounds, from any reachable state in
    which their logs agree somewhere above what the leader has compacted away, if the apply
    callback keeps its contract to return ([follower_catches_up]).  Replicas carries them to the
    state machines: each is a replay of one log ([replicas_replay_one_log]), and an acknowledged
    command is in it at its place.  These theorems are about runs in which the membership stays
    fixed ([settled_members]: the code's changes of one server at a time are modelled at the node,
    but not carried through the cluster's proof), no apply callback throws, and indices and terms
    do not reach 2^64; a node that restarts has a log whose fields fit the file format
    ([log_fits]).  Replicas leaves out the installation of snapshots and asks that a node that
    restarts finds its state machine as it was ([calm_step]).  Transfers has both: a state machine
    is specified by what may have become of it along a log, whether it executed the log, was
    restored from a snapshot or came back from a restart ([ReplicaSpec]), and every node is as
    specified, for one log ([snapshots_replay_one_log]), which has the acknowledged commands at
    their places ([acknowledged_command_transferred]).  The three parts of an installation are
    separate steps there, with anything between them at other nodes; the node itself applies
    nothing, sends no snapshot and does not restart until it is done, and a snapshot takes it
    forward ([transfer_step]), because the code goes wrong otherwise
    ([stale_snapshot_rolls_back]).  The fixed membership is not a matter
    of proof only: Reconfig is a run in which two leaders change the members, one at a time as
    the code allows, and an acknowledged command is lost ([membership_changes_lose_commands]).

    ** Shards and transactions: Routing, Transport, Sockets, Client, Txn, Participant, Server, ServerCluster, Coordinator, Repl

    [shard/routing.cpp] is Routing: the binary search returns the only shard that covers a key.
    [raft/transport.cpp] is Transport, framing over a stream that arrives in arbitrary pieces and
    the exchange of a request and its answer, and Sockets: descriptors, connecting within a
    timeout, listening and the threads of connections, with the answers of the operating system
    as inputs; a request closes what it opens and waits in no call for longer than it may
    ([SendRequest_spec]).  [raft/client.cpp] is Client, against the interface [Network]; ClientSpec
    bounds its calls and shows when it finds the leader: on networks whose answers do not change
    meanwhile, where at most one node is silent and the others name the leader.  [txn/txn.cpp] and [participant.cpp] are Txn and Participant.  [raft_main.cpp] is
    Server (the callbacks of a node), Coordinator (broadcast, scattered SELECT, two-phase commit,
    against the interface [Shards]) and Repl (arguments, identity and the command loop, with
    [NodeStatus] for what a status line shows).  ServerSpec shows that the callbacks refine a
    database with transactions, that replicas agree, that a node's store is the result of its
    committed log (which puts the Raft node, the state machine, the SQL layer and any store
    together), and that snapshots carry the store.  ServerCluster puts it on top of Transfers: a
    shard of nodes, each with a store such as the storage engine, which a restart opens again
    ([KVRecovery]) and a snapshot may replace, serves one database, and an acknowledged write is
    executed in it for good ([cluster_serves_one_database], [acknowledged_write_served]); room is
    counted for the commands and for a snapshot at each entry ([room_used]).  CoordinatorSpec shows that no COMMIT is sent
    unless every shard concerned was sent its PREPARE, at its own group, and agreed, on any network, and that a transaction is atomic when the shards
    answer ([reliable]); ReplSpec puts this together with the REPL, from [begin] to [commit];
    Scatter shows that a scattered SELECT is a SELECT on all rows.

    ** Front ends: Shell, Ui, UiApp

    [main.cpp] is Shell.  [ui/main.cpp] is Ui, the functions on texts, and UiApp, the window loop
    with its state; what the widgets of Dear ImGui report in a turn is an input, and what is drawn
    is a list.  UiSpec shows that the database the client adds to a bare table name gives the
    intended statement and that its grid shows a SELECT cell by cell; UiAppSpec that no exception
    leaves the window loop, that nothing is lost from the history, and that Discover fills in the
    peers and the databases, together with the peer lists it cuts short.

    ** Not modelled

    Thread creation and joining, sleeping and condition variables, Winsock (the POSIX branches are
    modelled), progress output, and the Win32 and Direct3D set-up of the desktop client: operating-system
    glue without state of the program.  Memory is unbounded ([std::bad_alloc] does not occur), I/O
    errors other than a crash do not occur, and [unsigned long] has 64 bits.  Dear ImGui is
    third-party code. *)

From Stdlib Require Import String NArith ZArith Lia.
From Stdlib Require Export Ascii.
From stdpp Require Export base tactics sorting countable numbers gmap option list.
From stdpp Require Import strings.
Export String.StringSyntax.

#[export] Set Default Goal Selector "!".
#[export] Set Warnings "-clear-no-such-hyp".

(** ** Byte strings

    [std::string] is a sequence of bytes; [ascii] is the type of 8-bit bytes of
    the Standard Library. *)

Abbreviation bytes := (list ascii).

(** A C++ string literal. *)
Definition str (s : string) : bytes := String.list_ascii_of_string s.

(** [std::string::compare] is [char_traits<char>::compare]: lexicographic on
    the characters taken as unsigned bytes, a proper prefix being smaller. *)
Definition byte_ltb (a b : ascii) : bool := (N_of_ascii a <? N_of_ascii b)%N.

Fixpoint bytes_ltb (x y : bytes) : bool :=
  match x, y with
  | [], [] => false
  | [], _ :: _ => true
  | _ :: _, [] => false
  | a :: x', b :: y' => byte_ltb a b || (Ascii.eqb a b && bytes_ltb x' y')
  end.

(** [s.size() >= prefix.size() && s.compare(0, prefix.size(), prefix) == 0]. *)
Fixpoint starts_with (s prefix : bytes) : bool :=
  match prefix, s with
  | [], _ => true
  | _ :: _, [] => false
  | b :: p', a :: s' => Ascii.eqb a b && starts_with s' p'
  end.

(** ** Machine integers *)

Definition two16 : N := 65536.
Definition two32 : N := 4294967296.
Definition two64 : N := 18446744073709551616.

Definition u8 (n : N) : N := (n mod 256)%N.
Definition u16 (n : N) : N := (n mod two16)%N.
Definition u32 (n : N) : N := (n mod two32)%N.
Definition u64 (n : N) : N := (n mod two64)%N.

(** Unsigned 64-bit addition and subtraction, with wrap-around. *)
Definition u64_add (a b : N) : N := u64 (a + b).
Definition u64_sub (a b : N) : N := u64 (a + two64 - b).

(** ** Outcomes: a C++ evaluation returns, throws, or is undefined *)

Inductive exn :=
| RuntimeError (what : bytes)
| InvalidArgument (what : bytes)
| OutOfRange (what : bytes).

(** [std::exception::what()]. *)
Definition what (e : exn) : bytes :=
  match e with RuntimeError w | InvalidArgument w | OutOfRange w => w end.

Inductive outcome (A : Type) :=
| Ret (a : A)
| Throw (e : exn)
| Undef.
Arguments Ret {A} a.
Arguments Throw {A} e.
Arguments Undef {A}.

#[export] Instance outcome_ret : MRet outcome := fun A => Ret.
#[export] Instance outcome_bind : MBind outcome := fun A B f m =>
  match m with Ret a => f a | Throw e => Throw e | Undef => Undef end.

(** [throw std::runtime_error(msg)]. *)
Definition throw_rt {A} (msg : bytes) : outcome A := Throw (RuntimeError msg).

(** Code with mutable state that may throw: the state changes made before the
    throw remain. *)
Definition ST (S A : Type) : Type := S -> outcome A * S.

#[export] Instance ST_ret S : MRet (ST S) := fun A a s => (Ret a, s).
#[export] Instance ST_bind S : MBind (ST S) := fun A B f m s =>
  match m s with
  | (Ret a, s') => f a s'
  | (Throw e, s') => (Throw e, s')
  | (Undef, s') => (Undef, s')
  end.

Definition st_get {S} : ST S S := fun s => (Ret s, s).
Definition st_gets {S A} (f : S -> A) : ST S A := fun s => (Ret (f s), s).
Definition st_modify {S} (f : S -> S) : ST S unit := fun s => (Ret tt, f s).
Definition st_throw {S A} (e : exn) : ST S A := fun s => (Throw e, s).
Definition st_lift {S A} (o : outcome A) : ST S A := fun s => (o, s).
(** [try { m } catch (const std::exception& e) { h(e) }]. *)
Definition st_catch {S A} (m : ST S A) (h : exn -> ST S A) : ST S A := fun s =>
  match m s with
  | (Throw e, s') => h e s'
  | r => r
  end.

(** [for (const auto& x : l) f(x);] *)
Fixpoint st_for {S A} (l : list A) (f : A -> ST S unit) : ST S unit :=
  match l with
  | [] => mret tt
  | x :: l' => f x ≫= fun _ => st_for l' f
  end.

(** Running a computation one statement at a time. *)
Section run.
Context {S A B : Type}.
Implicit Types (f : A -> ST S B) (s : S).

Lemma run_get (f : S -> ST S B) s : (st_get ≫= f) s = f s s.
Proof. reflexivity. Qed.
Lemma run_gets (g : S -> A) f s : (st_gets g ≫= f) s = f (g s) s.
Proof. reflexivity. Qed.
Lemma run_modify (g : S -> S) (f : unit -> ST S B) s : (st_modify g ≫= f) s = f tt (g s).
Proof. reflexivity. Qed.
Lemma run_ret (a : A) f s : ((mret a : ST S A) ≫= f) s = f a s.
Proof. reflexivity. Qed.
Lemma run_lift_ret (a : A) f s : (st_lift (Ret a) ≫= f) s = f a s.
Proof. reflexivity. Qed.
Lemma run_throw (e : exn) f s : (st_throw e ≫= f) s = (Throw e, s).
Proof. reflexivity. Qed.
Lemma run_bind (m : ST S A) f s a s' : m s = (Ret a, s') -> (m ≫= f) s = f a s'.
Proof. unfold mbind, ST_bind. by intros ->. Qed.
Lemma bind_returns (m : ST S A) f s y :
  ((m ≫= f) s).1 = Ret y -> exists x, (m s).1 = Ret x /\ (f x (m s).2).1 = Ret y /\ ((m ≫= f) s).2 = (f x (m s).2).2.
Proof. unfold mbind, ST_bind. destruct (m s) as [[x|e|] s']; [|done..]. intros Hy. by exists x. Qed.
Lemma run_bind_throw (m : ST S A) f s e s' : m s = (Throw e, s') -> (m ≫= f) s = (Throw e, s').
Proof. unfold mbind, ST_bind. by intros ->. Qed.
Lemma run_assoc {C} (m : ST S A) f (g : B -> ST S C) s :
  ((m ≫= f) ≫= g) s = (m ≫= fun a => f a ≫= g) s.
Proof. unfold mbind, ST_bind. by destruct (m s) as [[a|e|] s']. Qed.
End run.

Create Rewrite HintDb st.
#[export] Hint Rewrite @run_get @run_gets @run_modify @run_ret @run_lift_ret @run_throw
  @run_assoc : st.

(** Executes the statements at the head of the goal's computation that always succeed. *)
Ltac st_steps := repeat (autorewrite with st; cbn beta iota zeta).

(** The predicate transformer of [ST]: [Q] on return, [E] on a throw; undefined
    behaviour is never allowed. *)
Definition st_wp {S A} (m : ST S A) (Q : A -> S -> Prop) (E : exn -> S -> Prop) (s : S) : Prop :=
  match m s with
  | (Ret a, s') => Q a s'
  | (Throw e, s') => E e s'
  | (Undef, _) => False
  end.

Lemma st_wp_bind {S A B} (m : ST S A) (f : A -> ST S B) Q E s :
  st_wp (m ≫= f) Q E s <-> st_wp m (fun a s' => st_wp (f a) Q E s') E s.
Proof.
  unfold st_wp, mbind, ST_bind. destruct (m s) as [[a|e|] s']; reflexivity.
Qed.

Lemma st_wp_mono {S A} (m : ST S A) (Q Q' : A -> S -> Prop) (E E' : exn -> S -> Prop) s :
  (forall a s', Q a s' -> Q' a s') -> (forall e s', E e s' -> E' e s') ->
  st_wp m Q E s -> st_wp m Q' E' s.
Proof. unfold st_wp. destruct (m s) as [[a|e|] s']; auto. Qed.

(** A loop keeps an invariant its body keeps. *)
Lemma st_wp_for {S A} (l : list A) (f : A -> ST S unit) (I : S -> Prop) E s :
  (forall x s', x ∈ l -> I s' -> st_wp (f x) (fun _ => I) E s') ->
  I s -> st_wp (st_for l f) (fun _ => I) E s.
Proof.
  revert s. induction l as [|x l IH]; intros s Hf HI; [exact HI|].
  cbn [st_for]. apply st_wp_bind.
  eapply st_wp_mono; [| |apply Hf; [left|exact HI]]; [|auto].
  intros [] s' HI'. apply IH; [|exact HI'].
  intros y s'' Hy. apply Hf. by right.
Qed.

(** [m] leaves the part [f] of the state alone. *)
Definition keeps {S A B} (f : S -> B) (m : ST S A) : Prop := forall s, f (m s).2 = f s.

Section keeps.
Context {S B : Type} (f : S -> B).

Lemma keeps_bind {A C} (m : ST S A) (k : A -> ST S C) :
  keeps f m -> (forall a, keeps f (k a)) -> keeps f (m ≫= k).
Proof.
  intros Hm Hk s. unfold mbind, ST_bind. specialize (Hm s).
  destruct (m s) as [[a|e|] s']; cbn in *; [|done..]. by rewrite Hk.
Qed.
Lemma keeps_ret {A} (a : A) : keeps f (mret a : ST S A).
Proof. done. Qed.
Lemma keeps_get : keeps f st_get.
Proof. done. Qed.
Lemma keeps_gets {A} (g : S -> A) : keeps f (st_gets g).
Proof. done. Qed.
Lemma keeps_lift {A} (o : outcome A) : keeps f (st_lift o).
Proof. done. Qed.
Lemma keeps_throw {A} e : keeps f (st_throw e : ST S A).
Proof. done. Qed.
Lemma keeps_modify (g : S -> S) : (forall s, f (g s) = f s) -> keeps f (st_modify g).
Proof. intros H s. apply H. Qed.
Lemma keeps_for {A} (l : list A) (k : A -> ST S unit) :
  (forall a, keeps f (k a)) -> keeps f (st_for l k).
Proof. intros H. induction l as [|a l IH]; [done|]. by apply keeps_bind. Qed.
End keeps.

Create HintDb keeps.
#[export] Hint Resolve keeps_ret keeps_get keeps_gets keeps_lift keeps_throw : keeps.
#[export] Hint Extern 1 (keeps _ (_ ≫= _)) => apply keeps_bind; [|intros ?] : keeps.
#[export] Hint Extern 1 (keeps _ (st_modify _)) => apply keeps_modify; intros ? : keeps.
#[export] Hint Extern 1 (_ = _) => reflexivity : keeps.
#[export] Hint Extern 2 (keeps _ (if decide ?P then _ else _)) => destruct (decide P) : keeps.
#[export] Hint Extern 2 (keeps _ (match ?x with _ => _ end)) => destruct x : keeps.
#[export] Hint Extern 3 (keeps _ (let _ := _ in _)) => cbv zeta : keeps.
#[export] Hint Extern 2 (keeps _ (st_for _ _)) => apply keeps_for; intros ? : keeps.
Ltac keeps := solve [auto 100 with keeps nocore].

(** [m] only moves the state along the preorder [R], whether it returns or throws. *)
Definition moves {S A} (R : S -> S -> Prop) (m : ST S A) : Prop := forall s, R s (m s).2.

Section moves.
Context {S : Type} (R : S -> S -> Prop) `{!PreOrder R}.

Lemma moves_bind {A C} (m : ST S A) (k : A -> ST S C) :
  moves R m -> (forall a, moves R (k a)) -> moves R (m ≫= k).
Proof.
  intros Hm Hk s. unfold mbind, ST_bind. specialize (Hm s).
  destruct (m s) as [[a|e|] s']; cbn in *; [|done..]. etrans; [exact Hm|apply Hk].
Qed.
Lemma moves_stay {A} (m : ST S A) : (forall s, (m s).2 = s) -> moves R m.
Proof. intros H s. by rewrite H. Qed.
Lemma moves_modify (g : S -> S) : (forall s, R s (g s)) -> moves R (st_modify g).
Proof. intros H s. apply H. Qed.
Lemma moves_for {A} (l : list A) (k : A -> ST S unit) :
  (forall a, moves R (k a)) -> moves R (st_for l k).
Proof. intros H. induction l as [|a l IH]; [by apply moves_stay|]. by apply moves_bind. Qed.
(** A computation that reads the state may use what it read. *)
Lemma moves_get {A} (k : S -> ST S A) : (forall s, R s (k s s).2) -> moves R (st_get ≫= k).
Proof. intros H s. apply H. Qed.
End moves.

Section moves_reads.
Context {S : Type} (R : S -> S -> Prop) `{!Reflexive R}.

Lemma moves_ret {A} (a : A) : moves R (mret a : ST S A).
Proof. by intros s. Qed.
Lemma moves_read : moves R st_get.
Proof. by intros s. Qed.
Lemma moves_lift {A} (o : outcome A) : moves R (st_lift o).
Proof. by intros s. Qed.
End moves_reads.

(** Closes a goal [moves R m] by going through the statements of [m]; what a [st_modify] does is
    left to the hints for [R]. *)
Create HintDb moves.
#[export] Hint Resolve moves_ret moves_read moves_lift : moves.
#[export] Hint Extern 1 (moves _ (_ ≫= _)) => apply moves_bind; [apply _| |intros ?] : moves.
#[export] Hint Extern 1 (moves _ (st_modify _)) => apply moves_modify; intros ? : moves.
#[export] Hint Extern 2 (moves _ (match ?x with _ => _ end)) => destruct x : moves.
#[export] Hint Extern 3 (moves _ (let _ := _ in _)) => cbv zeta : moves.
#[export] Hint Extern 1 (Reflexive _) => apply _ : moves.
Ltac moves := solve [auto 100 with moves nocore].

(** ** Filters that keep all or nothing *)

Lemma filter_keep_all {A} (P : A -> Prop) `{!forall a, Decision (P a)} l : Forall P l -> filter P l = l.
Proof. induction 1 as [|a l Ha Hl IH]; [done|]. by rewrite filter_cons_True, IH. Qed.

Lemma filter_keep_none {A} (P : A -> Prop) `{!forall a, Decision (P a)} l :
  Forall (fun a => ~ P a) l -> filter P l = [].
Proof. induction 1 as [|a l Ha Hl IH]; [done|]. by rewrite filter_cons_False, IH. Qed.

(** ** Total orders on keys, and iteration over a [std::map] *)

Class OrdKey (K : Type) := {
  key_ltb : K -> K -> bool;
  key_ltb_irrefl x : key_ltb x x = false;
  key_ltb_trans x y z : key_ltb x y = true -> key_ltb y z = true -> key_ltb x z = true;
  key_ltb_total x y : x <> y -> key_ltb x y = true \/ key_ltb y x = true;
}.

#[export] Program Instance N_OrdKey : OrdKey N := {| key_ltb := N.ltb |}.
Next Obligation. apply N.ltb_irrefl. Qed.
Next Obligation. intros ???. rewrite !N.ltb_lt. lia. Qed.
Next Obligation. intros ??. rewrite !N.ltb_lt. lia. Qed.

Lemma byte_ltb_lt a b : byte_ltb a b = true <-> (N_of_ascii a < N_of_ascii b)%N.
Proof. apply N.ltb_lt. Qed.

Lemma N_of_ascii_inj a b : N_of_ascii a = N_of_ascii b -> a = b.
Proof. intros H. by rewrite <- (ascii_N_embedding a), H, ascii_N_embedding. Qed.

Lemma bytes_ltb_irrefl x : bytes_ltb x x = false.
Proof.
  induction x as [|a x IH]; [done|]. cbn. rewrite Ascii.eqb_refl, IH.
  unfold byte_ltb. rewrite N.ltb_irrefl. done.
Qed.

Lemma bytes_ltb_cons a x b y :
  bytes_ltb (a :: x) (b :: y) = true <->
  (N_of_ascii a < N_of_ascii b)%N \/ (a = b /\ bytes_ltb x y = true).
Proof. cbn. rewrite orb_true_iff, andb_true_iff, byte_ltb_lt, Ascii.eqb_eq. done. Qed.

Lemma bytes_ltb_trans x y z :
  bytes_ltb x y = true -> bytes_ltb y z = true -> bytes_ltb x z = true.
Proof.
  revert y z. induction x as [|a x IH]; intros [|b y] [|c z]; try done.
  rewrite !bytes_ltb_cons. intros [H1|[-> H1]] [H2|[-> H2]].
  - left; lia.
  - by left.
  - by left.
  - right; split; [done|]. by eapply IH.
Qed.

Lemma bytes_ltb_total x y : x <> y -> bytes_ltb x y = true \/ bytes_ltb y x = true.
Proof.
  revert y. induction x as [|a x IH]; intros [|b y] Hne; [done|by left|by right|].
  rewrite !bytes_ltb_cons.
  destruct (decide (a = b)) as [->|Hab].
  - destruct (IH y) as [H|H]; [congruence| |]; tauto.
  - assert (N_of_ascii a <> N_of_ascii b) by (intros ?%N_of_ascii_inj; done). lia.
Qed.

#[export] Instance bytes_OrdKey : OrdKey (list ascii) := {|
  key_ltb := bytes_ltb;
  key_ltb_irrefl := bytes_ltb_irrefl;
  key_ltb_trans := bytes_ltb_trans;
  key_ltb_total := bytes_ltb_total;
|}.

Section ordered_map.
Context {K : Type} `{Countable K, !OrdKey K} {V : Type}.
Implicit Types (m : gmap K V) (l : list (K * V)).

Definition entry_lt (p q : K * V) : Prop := key_ltb p.1 q.1 = true.
Definition entry_le (p q : K * V) : Prop := key_ltb q.1 p.1 = false.

#[export] Instance entry_le_dec p q : Decision (entry_le p q) := decide (_ = _).

#[export] Instance entry_le_total : Total entry_le.
Proof.
  intros p q. unfold entry_le.
  destruct (key_ltb q.1 p.1) eqn:E; [|by left]. right.
  apply not_true_is_false. intros E'.
  pose proof (key_ltb_trans _ _ _ E E') as E''. by rewrite key_ltb_irrefl in E''.
Qed.

Lemma key_ltb_false x y : key_ltb x y = false -> x = y \/ key_ltb y x = true.
Proof.
  intros E. destruct (decide (x = y)) as [|Hne]; [by left|right].
  destruct (key_ltb_total x y Hne); congruence.
Qed.

#[export] Instance entry_le_trans : Transitive entry_le.
Proof.
  intros p q r Hpq Hqr. unfold entry_le in *.
  destruct (key_ltb r.1 p.1) eqn:E; [|done].
  destruct (key_ltb_false _ _ Hpq) as [Eq|Eq]; [congruence|].
  pose proof (key_ltb_trans _ _ _ E Eq). congruence.
Qed.

(** The entries of a [std::map], in iteration (ascending key) order. *)
Definition map_entries (m : gmap K V) : list (K * V) :=
  merge_sort entry_le (map_to_list m).

Definition strictly_sorted (l : list (K * V)) : Prop := StronglySorted entry_lt l.

Lemma map_entries_perm m : map_entries m ≡ₚ map_to_list m.
Proof. apply merge_sort_Permutation. Qed.

Lemma elem_of_map_entries m k v : (k, v) ∈ map_entries m <-> m !! k = Some v.
Proof. rewrite map_entries_perm. apply elem_of_map_to_list. Qed.

Lemma NoDup_map_entries m : NoDup (map_entries m).*1.
Proof. rewrite map_entries_perm. apply NoDup_fst_map_to_list. Qed.

Lemma map_entries_to_map m : list_to_map (map_entries m) = m.
Proof.
  rewrite (list_to_map_proper (map_entries m) (map_to_list m)).
  - apply list_to_map_to_list.
  - apply NoDup_map_entries.
  - apply map_entries_perm.
Qed.

Lemma le_sorted_strict l :
  StronglySorted entry_le l -> NoDup l.*1 -> strictly_sorted l.
Proof.
  induction 1 as [|p l Hs IH Hall]; intros Hnd; [constructor|].
  cbn in Hnd. apply NoDup_cons in Hnd as [Hni Hnd]. constructor; [by apply IH|].
  rewrite Forall_forall in Hall |- *. intros q Hq.
  destruct (key_ltb_false _ _ (Hall q Hq)) as [E|E]; [|done].
  destruct Hni. apply list_elem_of_fmap. exists q. by split.
Qed.

Lemma map_entries_sorted m : strictly_sorted (map_entries m).
Proof.
  apply le_sorted_strict; [|apply NoDup_map_entries].
  apply Sorted_StronglySorted; [apply _|]. apply (Sorted_merge_sort entry_le).
Qed.

Lemma strictly_sorted_NoDup l : strictly_sorted l -> NoDup l.*1.
Proof.
  induction 1 as [|p l Hs IH Hall]; cbn; [constructor|]. constructor; [|done].
  rewrite list_elem_of_fmap. intros (q & E & Hq).
  rewrite Forall_forall in Hall. specialize (Hall q Hq).
  unfold entry_lt in Hall. by rewrite E, key_ltb_irrefl in Hall.
Qed.

(** A strictly sorted list is determined by its elements. *)
Lemma strictly_sorted_unique l1 l2 :
  strictly_sorted l1 -> strictly_sorted l2 ->
  (forall p, p ∈ l1 <-> p ∈ l2) -> l1 = l2.
Proof.
  intros H1 H2 Hel. eapply StronglySorted_unique_strong; [|exact H1|exact H2|].
  - unfold entry_lt. intros p q _ _ Hpq Hqp.
    pose proof (key_ltb_trans _ _ _ Hpq Hqp) as E. by rewrite key_ltb_irrefl in E.
  - apply NoDup_Permutation; [| |done];
      eapply NoDup_fmap_1; by apply strictly_sorted_NoDup.
Qed.

Lemma map_entries_unique m l :
  strictly_sorted l -> (forall k v, (k, v) ∈ l <-> m !! k = Some v) -> l = map_entries m.
Proof.
  intros Hs Hel. apply strictly_sorted_unique; [done|apply map_entries_sorted|].
  intros [k v]. by rewrite Hel, elem_of_map_entries.
Qed.

Lemma map_entries_list_to_map l :
  strictly_sorted l -> map_entries (list_to_map l) = l.
Proof.
  intros Hs. symmetry. apply map_entries_unique; [done|]. intros k v.
  apply elem_of_list_to_map. by apply strictly_sorted_NoDup.
Qed.

(** Inserting the entries of a map one by one gives the map back. *)
Lemma foldl_insert_entries l m :
  NoDup l.*1 -> (forall k, k ∈ l.*1 -> m !! k = None) ->
  foldl (fun m p => <[p.1 := p.2]> m) m l = list_to_map l ∪ m.
Proof.
  revert m. induction l as [|[k v] l IH]; intros m Hnd Hm; [symmetry; apply (left_id_L ∅ (∪))|].
  cbn in Hnd. apply NoDup_cons in Hnd as [Hni Hnd]. cbn [foldl fst snd list_to_map foldr uncurry].
  rewrite IH; [|done|].
  - rewrite <- insert_union_l, insert_union_r; [done|].
    by apply not_elem_of_list_to_map.
  - intros k' Hin. rewrite lookup_insert_ne by (intros ->; done). apply Hm. by right.
Qed.

Lemma insert_map_entries m : foldl (fun m p => <[p.1 := p.2]> m) ∅ (map_entries m) = m.
Proof.
  rewrite foldl_insert_entries, map_entries_to_map; [apply (right_id_L ∅ (∪))|apply NoDup_map_entries|].
  intros k _. apply lookup_empty.
Qed.
End ordered_map.

(** ** Range scans of ordered containers *)

Fixpoint take_while {A} (f : A -> bool) (l : list A) : list A :=
  match l with [] => [] | x :: l' => if f x then x :: take_while f l' else [] end.

Fixpoint drop_while {A} (f : A -> bool) (l : list A) : list A :=
  match l with [] => [] | x :: l' => if f x then drop_while f l' else l end.

(** [lower_bound(key)] on entries in ascending key order: the suffix starting at the first
    entry whose key is not less than [key]. *)
Definition lower_bound {V} (key : bytes) (l : list (bytes * V)) : list (bytes * V) :=
  drop_while (fun e => bytes_ltb e.1 key) l.

(** [for (it = lower_bound(prefix); it != end && StartsWith(it->first, prefix); ++it)]. *)
Definition prefix_range {V} (prefix : bytes) (l : list (bytes * V)) : list (bytes * V) :=
  take_while (fun e => starts_with e.1 prefix) (lower_bound prefix l).

Lemma starts_with_true s p : starts_with s p = true <-> exists r, s = p ++ r.
Proof.
  split.
  - revert s. induction p as [|b p IH]; intros s H; [by exists s|].
    destruct s as [|a s]; [done|]. cbn in H. apply andb_true_iff in H as [Hab H].
    apply Ascii.eqb_eq in Hab as ->. destruct (IH s H) as [r ->]. by exists r.
  - intros [r ->]. induction p as [|b p IH]; [by destruct r|]. cbn. by rewrite Ascii.eqb_refl.
Qed.

Lemma starts_with_refl p : starts_with p p = true.
Proof. apply starts_with_true. exists []. by rewrite app_nil_r. Qed.

Lemma starts_with_app p r : starts_with (p ++ r) p = true.
Proof. apply starts_with_true. by exists r. Qed.

Lemma starts_with_nil s : starts_with s [] = true.
Proof. by destruct s. Qed.

Lemma bytes_ltb_asym x y : bytes_ltb x y = true -> bytes_ltb y x = false.
Proof.
  intros H. apply not_true_is_false. intros H'.
  pose proof (bytes_ltb_trans _ _ _ H H') as E. by rewrite bytes_ltb_irrefl in E.
Qed.

(** A key below a prefix does not carry it ... *)
Lemma below_not_prefixed k p : bytes_ltb k p = true -> starts_with k p = false.
Proof.
  intros H. apply not_true_is_false. rewrite starts_with_true. intros [r ->].
  induction p as [|a p IH]; [by destruct r|].
  apply bytes_ltb_cons in H as [H|[_ H]]; [lia|]. by apply IH.
Qed.

(** ... and the keys that do are contiguous. *)
Lemma past_prefix k k' p :
  bytes_ltb k p = false -> starts_with k p = false -> bytes_ltb k k' = true ->
  starts_with k' p = false.
Proof.
  intros Hge Hns Hlt. apply not_true_is_false. rewrite starts_with_true. intros [r ->].
  revert k Hge Hns Hlt. induction p as [|a p IH]; intros k Hge Hns Hlt.
  - by rewrite starts_with_nil in Hns.
  - destruct k as [|b k]; [done|]. cbn in Hns. cbn [app] in Hlt.
    apply bytes_ltb_cons in Hlt as [Hlt|[-> Hlt]].
    + assert (E : bytes_ltb (b :: k) (a :: p) = true); [|congruence].
      apply bytes_ltb_cons. by left.
    + rewrite Ascii.eqb_refl in Hns. cbn in Hns. apply (IH k); try done.
      apply not_true_is_false. intros H. assert (E : bytes_ltb (a :: k) (a :: p) = true).
      { apply bytes_ltb_cons. by right. } congruence.
Qed.

Section prefix_scan.
Context {V : Type}.
Implicit Types l : list (bytes * V).

Definition with_prefix (p : bytes) (l : list (bytes * V)) : list (bytes * V) :=
  filter (fun e => starts_with e.1 p = true) l.

Lemma with_prefix_none p l :
  Forall (fun e => starts_with e.1 p = false) l -> with_prefix p l = [].
Proof.
  induction 1 as [|e l He Hl IH]; [done|]. unfold with_prefix.
  rewrite filter_cons_False by (rewrite He; done). exact IH.
Qed.

(** On sorted entries the range loop visits exactly the entries with the prefix. *)
Lemma prefix_range_filter p l : strictly_sorted l -> prefix_range p l = with_prefix p l.
Proof.
  induction 1 as [|e l Hs IH Hall]; [done|]. unfold prefix_range, lower_bound in *.
  cbn [drop_while]. destruct (bytes_ltb e.1 p) eqn:Hlt.
  - rewrite IH. unfold with_prefix. rewrite filter_cons_False; [done|].
    by rewrite below_not_prefixed.
  - clear IH. assert (Hrest : forall l', strictly_sorted l' ->
      Forall (fun e => bytes_ltb e.1 p = false) l' ->
      take_while (fun e => starts_with e.1 p) l' = with_prefix p l').
    { clear. intros l' Hs Hge. induction Hs as [|e l' Hs IH Hall]; [done|].
      apply Forall_cons_1 in Hge as [He Hge]. cbn [take_while].
      destruct (starts_with e.1 p) eqn:Hp.
      - unfold with_prefix. rewrite filter_cons_True by done. f_equal. by apply IH.
      - symmetry. apply with_prefix_none. constructor; [done|].
        eapply Forall_impl; [exact Hall|]. intros e' Hlt. by eapply past_prefix. }
    apply Hrest; [by constructor|]. constructor; [done|].
    eapply Forall_impl; [exact Hall|]. intros e' He'. cbn in *.
    destruct (bytes_ltb e'.1 p) eqn:E; [|done].
    pose proof (bytes_ltb_trans _ _ _ He' E). congruence.
Qed.

Lemma strictly_sorted_filter (P : bytes * V -> Prop) `{!forall e, Decision (P e)} l :
  strictly_sorted l -> strictly_sorted (filter P l).
Proof.
  induction 1 as [|e l Hs IH Hall]; [constructor|]. destruct (decide (P e)).
  - rewrite filter_cons_True by done. constructor; [done|].
    rewrite Forall_forall in Hall |- *. intros e' He'. apply Hall.
    by apply list_elem_of_filter in He' as [_ ?].
  - by rewrite filter_cons_False.
Qed.
End prefix_scan.
