(* ===== verification/Codec.v ===== *)
(** * Little-endian integers and cursor-based readers

    The byte-level encoding every module of the source copies privately
    ([AppendU8] .. [AppendString] and the class [Reader] of
    [src/raft/message.cpp], [src/txn/txn.cpp], [src/raft/conf_change.cpp], the
    [ReadString]/[ReadByte]/[ReadU32] helpers of [src/sql/schema.cpp],
    [src/sql/executor.cpp] and [src/raft_main.cpp]), and the round-trip calculus the modules
    that use it share.  Integers are stored in the byte order of the host, which
    is little-endian on every platform the build targets. *)

From Stdlib Require Import Ascii NArith Lia.
From S2P Require Export Prelude.

(** ** Integers as bytes *)

(** The object representation of an unsigned integer of [n] bytes. *)
Fixpoint le_bytes (n : nat) (v : N) : bytes :=
  match n with
  | O => []
  | S n' => ascii_of_N (v mod 256) :: le_bytes n' (v / 256)
  end.

Fixpoint le_val (bs : bytes) : N :=
  match bs with
  | [] => 0
  | b :: bs' => N_of_ascii b + 256 * le_val bs'
  end%N.

Lemma length_le_bytes n v : length (le_bytes n v) = n.
Proof. revert v. induction n as [|n IH]; intros v; cbn; [done|by rewrite IH]. Qed.

Lemma N_of_ascii_of_N_mod v : N_of_ascii (ascii_of_N (v mod 256)) = (v mod 256)%N.
Proof. apply N_ascii_embedding. apply N.mod_lt. lia. Qed.

Lemma N_of_ascii_bound a : (N_of_ascii a < 256)%N.
Proof. apply N_ascii_bounded. Qed.

Lemma le_val_le_bytes n v : le_val (le_bytes n v) = (v mod 256 ^ N.of_nat n)%N.
Proof.
  revert v. induction n as [|n IH]; intros v.
  { cbn. by rewrite N.mod_1_r. }
  cbn [le_bytes le_val]. rewrite IH, N_of_ascii_of_N_mod, Nat2N.inj_succ, N.pow_succ_r'.
  rewrite N.Div0.mod_mul_r. lia.
Qed.

Lemma le_val_small n v : (v < 256 ^ N.of_nat n)%N -> le_val (le_bytes n v) = v.
Proof. intros Hv. by rewrite le_val_le_bytes, N.mod_small. Qed.

Lemma le_val_bound bs : (le_val bs < 256 ^ N.of_nat (length bs))%N.
Proof.
  induction bs as [|b bs IH]; cbn [le_val length]; [done|].
  rewrite Nat2N.inj_succ, N.pow_succ_r'. pose proof (N_of_ascii_bound b). lia.
Qed.

#[global] Arguments le_bytes : simpl never.

(** ** Writing *)

Definition AppendU8 (out : bytes) (v : N) : bytes := out ++ le_bytes 1 v.
Definition AppendU16 (out : bytes) (v : N) : bytes := out ++ le_bytes 2 v.
Definition AppendU32 (out : bytes) (v : N) : bytes := out ++ le_bytes 4 v.
Definition AppendU64 (out : bytes) (v : N) : bytes := out ++ le_bytes 8 v.

(** [static_cast<uint32_t>(s.size())]. *)
Definition size32 {A} (l : list A) : N := u32 (N.of_nat (length l)).

Definition AppendString (out s : bytes) : bytes := AppendU32 out (size32 s) ++ s.

Definition AppendStringVector (out : bytes) (v : list bytes) : bytes :=
  foldl AppendString (AppendU32 out (size32 v)) v.

(** ** Reading

    A [Reader] keeps the buffer and a cursor; its state here is the unread
    suffix of the buffer. [Check(n)] throws when fewer than [n] bytes remain.  What is read after it
    is read without a look at the end of the buffer: [memcpy] of bytes that are not there is
    undefined behaviour. *)

Definition Reader (A : Type) : Type := bytes -> outcome (A * bytes).

#[export] Instance reader_ret : MRet Reader := fun A a s => Ret (a, s).
#[export] Instance reader_bind : MBind Reader := fun A B f r s =>
  match r s with Ret (a, s') => f a s' | Throw e => Throw e | Undef => Undef end.

(** The [n] bytes from the cursor, which moves past them: [Undef] when the buffer ends before.
    ([buf_[pos_]] at the very end would be the terminator and [substr] would return fewer bytes,
    but the cursor would then be past the end, which is as wrong.) *)
Definition fetch (n : nat) : Reader bytes := fun s =>
  if decide (length s < n)%nat then Undef else Ret (take n s, drop n s).

Section reader.
(** The message of the exception [Check] throws: each module has its own. *)
Context (corrupt : bytes).

Definition Check (n : nat) (s : bytes) : outcome unit :=
  if decide (length s < n)%nat then throw_rt corrupt else Ret tt.

Definition ReadInt (n : nat) : Reader N := fun s =>
  _ ← Check n s; '(bs, s') ← fetch n s; Ret (le_val bs, s').

Definition ReadU8 : Reader N := ReadInt 1.
Definition ReadU16 : Reader N := ReadInt 2.
Definition ReadU32 : Reader N := ReadInt 4.
Definition ReadU64 : Reader N := ReadInt 8.

(** [Check(len); s = buf_.substr(pos_, len); pos_ += len]. *)
Definition ReadBytes (n : nat) : Reader bytes := fun s => _ ← Check n s; fetch n s.

Definition ReadString : Reader bytes :=
  len ← ReadU32; ReadBytes (N.to_nat len).

(** [for (uint32_t i = 0; i < count; i++) v.push_back(r)]. *)
Fixpoint read_n {A} (n : nat) (r : Reader A) : Reader (list A) :=
  match n with
  | O => mret []
  | S n' => x ← r; xs ← read_n n' r; mret (x :: xs)
  end.

Definition ReadStringVector : Reader (list bytes) :=
  count ← ReadU32; read_n (N.to_nat count) ReadString.
End reader.

Lemma fetch_ok n s : (n <= length s)%nat -> fetch n s = Ret (take n s, drop n s).
Proof. intros H. unfold fetch. by rewrite decide_False by lia. Qed.

(** ** Round trips *)

(** The writers append; these are the bytes they append. *)
Definition string_bytes (s : bytes) : bytes := le_bytes 4 (size32 s) ++ s.
Definition vector_bytes {A} (f : A -> bytes) (v : list A) : bytes :=
  le_bytes 4 (size32 v) ++ concat (map f v).

Lemma AppendString_app out s : AppendString out s = out ++ string_bytes s.
Proof. unfold AppendString, AppendU32, string_bytes. by rewrite app_assoc. Qed.

(** A loop of appends writes the concatenation of what its body appends. *)
Lemma foldl_append {A} (step : bytes -> A -> bytes) (f : A -> bytes) out v :
  (forall o x, step o x = o ++ f x) -> foldl step out v = out ++ concat (map f v).
Proof.
  intros Hs. revert out. induction v as [|x v IH]; intros out; cbn.
  - by rewrite app_nil_r.
  - by rewrite IH, Hs, app_assoc.
Qed.

Lemma AppendStringVector_app out v :
  AppendStringVector out v = out ++ vector_bytes string_bytes v.
Proof.
  unfold AppendStringVector, vector_bytes, AppendU32.
  by rewrite (foldl_append _ string_bytes) by (intros; apply AppendString_app); rewrite app_assoc.
Qed.

(** [r] consumes exactly [bs] and returns [a], whatever follows, and throws on every proper
    prefix of [bs]. *)
Definition reads {A} (r : Reader A) (bs : bytes) (a : A) : Prop :=
  (forall rest, r (bs ++ rest) = Ret (a, rest)) /\
  (forall n, n < length bs -> exists e, r (take n bs) = Throw e)%nat.

Lemma reads_ret {A} (a : A) : reads (mret a) [] a.
Proof. split; [done|]. cbn. lia. Qed.

Lemma reads_bind {A B} (r : Reader A) (f : A -> Reader B) bs bs' a b :
  reads r bs a -> reads (f a) bs' b -> reads (r ≫= f) (bs ++ bs') b.
Proof.
  unfold mbind, reader_bind. intros [H1 H1'] [H2 H2']. split.
  - intros rest. by rewrite <- app_assoc, H1, H2.
  - intros n Hn. rewrite length_app in Hn. rewrite take_app.
    destruct (decide (n < length bs)%nat) as [Hl|Hl].
    + replace (n - length bs)%nat with 0%nat by lia. rewrite take_0, app_nil_r.
      destruct (H1' n Hl) as [e ->]. by eexists.
    + rewrite take_ge, H1 by lia. apply H2'. lia.
Qed.

Lemma reads_bind_last {A B} (r : Reader A) (f : A -> Reader B) bs a b :
  reads r bs a -> reads (f a) [] b -> reads (r ≫= f) bs b.
Proof. intros H1 H2. rewrite <- (app_nil_r bs). by eapply reads_bind. Qed.

Lemma reads_whole {A} (r : Reader A) bs a : reads r bs a -> r bs = Ret (a, []).
Proof. intros [H _]. specialize (H []). by rewrite app_nil_r in H. Qed.

Lemma reads_truncated {A} (r : Reader A) bs a n :
  reads r bs a -> (n < length bs)%nat -> exists e, r (take n bs) = Throw e.
Proof. intros [_ H]. apply H. Qed.

(** [r] either returns or throws, on any bytes. *)
Definition safe {A} (r : Reader A) : Prop := forall s, r s <> Undef.

Lemma safe_ret {A} (a : A) : safe (mret a).
Proof. done. Qed.

Lemma safe_bind {A B} (r : Reader A) (f : A -> Reader B) :
  safe r -> (forall a, safe (f a)) -> safe (r ≫= f).
Proof.
  intros Hr Hf s. unfold mbind, reader_bind. specialize (Hr s).
  destruct (r s) as [[a s']|e|]; [apply Hf|done|done].
Qed.

Lemma safe_int corrupt n : safe (ReadInt corrupt n).
Proof. intros s. unfold ReadInt, Check. case_decide; [done|]. cbn. by rewrite fetch_ok by lia. Qed.

Lemma safe_bytes corrupt n : safe (ReadBytes corrupt n).
Proof. intros s. unfold ReadBytes, Check. case_decide; [done|]. cbn. by rewrite fetch_ok by lia. Qed.

Lemma safe_string corrupt : safe (ReadString corrupt).
Proof. apply safe_bind; [apply safe_int|]. intros n. apply safe_bytes. Qed.

Lemma safe_n {A} (r : Reader A) n : safe r -> safe (read_n n r).
Proof.
  intros Hr. induction n as [|n IH]; [apply safe_ret|].
  apply safe_bind; [done|]. intros a. apply safe_bind; [done|]. intros l. apply safe_ret.
Qed.

Lemma Check_short corrupt n s : (length s < n)%nat -> Check corrupt n s = throw_rt corrupt.
Proof. intros H. unfold Check. by rewrite decide_True by lia. Qed.

Lemma Check_ok corrupt n s : (n <= length s)%nat -> Check corrupt n s = Ret tt.
Proof. intros H. unfold Check. rewrite decide_False by lia. done. Qed.

Lemma reads_int corrupt n v :
  (v < 256 ^ N.of_nat n)%N -> reads (ReadInt corrupt n) (le_bytes n v) v.
Proof.
  intros Hv. unfold ReadInt. pose proof (length_le_bytes n v) as Hl. split.
  - intros rest. rewrite Check_ok, fetch_ok by (rewrite length_app; lia). cbn.
    rewrite (take_app_le _ _ n), take_ge by lia.
    rewrite (drop_app_ge _ _ n), Hl, Nat.sub_diag by lia. cbn.
    by rewrite le_val_small.
  - intros k Hk. rewrite Check_short by (rewrite length_take; lia). by eexists.
Qed.

Lemma reads_u8 corrupt v : (v < 256)%N -> reads (ReadU8 corrupt) (le_bytes 1 v) v.
Proof. intros. by apply reads_int. Qed.
Lemma reads_u16 corrupt v : (v < two16)%N -> reads (ReadU16 corrupt) (le_bytes 2 v) v.
Proof. intros. by apply reads_int. Qed.
Lemma reads_u32 corrupt v : (v < two32)%N -> reads (ReadU32 corrupt) (le_bytes 4 v) v.
Proof. intros. by apply reads_int. Qed.
Lemma reads_u64 corrupt v : (v < two64)%N -> reads (ReadU64 corrupt) (le_bytes 8 v) v.
Proof. intros. by apply reads_int. Qed.

(** A list whose length a [uint32_t] can hold. *)
Definition fits32 {A} (l : list A) : Prop := (N.of_nat (length l) < two32)%N.

Lemma size32_small {A} (l : list A) : fits32 l -> size32 l = N.of_nat (length l).
Proof. intros H. unfold size32, u32. by apply N.mod_small. Qed.

Lemma size32_bound {A} (l : list A) : (size32 l < two32)%N.
Proof. unfold size32, u32. by apply N.mod_lt. Qed.

Lemma reads_string corrupt s : fits32 s -> reads (ReadString corrupt) (string_bytes s) s.
Proof.
  intros Hs. unfold ReadString, string_bytes.
  eapply reads_bind; [apply reads_u32, size32_bound|].
  rewrite size32_small, Nat2N.id by done. unfold ReadBytes. split.
  - intros rest. rewrite Check_ok by (rewrite length_app; lia). cbn. rewrite fetch_ok by (rewrite length_app; lia).
    by rewrite take_app_length, drop_app_length.
  - intros k Hk. rewrite Check_short by (rewrite length_take; lia). by eexists.
Qed.

Lemma reads_n {A} (r : Reader A) (f : A -> bytes) (v : list A) :
  Forall (fun x => reads r (f x) x) v -> reads (read_n (length v) r) (concat (map f v)) v.
Proof.
  induction 1 as [|x v Hx Hv IH]; cbn; [apply reads_ret|].
  eapply reads_bind; [done|]. eapply reads_bind_last; [done|]. apply reads_ret.
Qed.

Lemma reads_n32 {A} (r : Reader A) (f : A -> bytes) (v : list A) :
  fits32 v -> Forall (fun x => reads r (f x) x) v ->
  reads (read_n (N.to_nat (size32 v)) r) (concat (map f v)) v.
Proof. intros Hv Hall. rewrite size32_small, Nat2N.id by done. by apply reads_n. Qed.

Lemma reads_counted {A} corrupt (r : Reader A) (f : A -> bytes) (v : list A) :
  fits32 v -> Forall (fun x => reads r (f x) x) v ->
  reads (count ← ReadU32 corrupt; read_n (N.to_nat count) r) (vector_bytes f v) v.
Proof.
  intros Hv Hall. eapply reads_bind; [apply reads_u32, size32_bound|]. by apply reads_n32.
Qed.

Definition strings_fit (v : list bytes) : Prop := fits32 v /\ Forall fits32 v.

Lemma reads_strings corrupt v :
  strings_fit v -> reads (ReadStringVector corrupt) (vector_bytes string_bytes v) v.
Proof.
  intros [Hv Hall]. apply reads_counted; [done|].
  eapply Forall_impl; [exact Hall|]. intros s. apply reads_string.
Qed.

Create HintDb codec.
#[export] Hint Resolve reads_ret reads_u8 reads_u16 reads_u32 reads_u64 reads_string
  reads_strings : codec.
#[export] Hint Extern 5 (_ < _)%N => first [assumption | apply size32_bound | done | lia] : codec.

Create HintDb safe.
#[export] Hint Resolve safe_ret safe_int safe_string safe_n : safe.
#[export] Hint Extern 1 (safe (_ ≫= _)) => apply safe_bind; [|intros ?] : safe.
#[export] Hint Extern 2 (safe (match ?x with _ => _ end)) => destruct x : safe.

(** Rewrites a chain of appends to the bytes appended, associated to the right. *)
Ltac codec_norm :=
  unfold AppendU8, AppendU16, AppendU32, AppendU64;
  rewrite ?AppendString_app, ?AppendStringVector_app;
  rewrite ?app_nil_l, <- ?app_assoc.

(** Proves [reads r (b1 ++ .. ++ bk) a] for a chain of reads. *)
Ltac reads_tac :=
  repeat lazymatch goal with
  | |- reads (mret _) [] _ => apply reads_ret
  | |- reads (_ ≫= _) (_ ++ _) _ => eapply reads_bind; [solve [eauto with codec]|]
  | |- reads (_ ≫= _) _ _ => eapply reads_bind_last; [solve [eauto with codec]|]
  end.
