(* ===== verification/Decimal.v ===== *)
(** * Decimal text and character classes

    [std::to_string], [std::stoul]/[std::stoull]/[std::stoll] and the [<cctype>]
    predicates of the "C" locale, with the round trip between them.  [unsigned long] has 64
    bits here (LP64). *)

From Stdlib Require Import Ascii NArith ZArith Lia.
From S2P Require Export Codec.

#[local] Open Scope N_scope.

(** ** Character classes *)

Definition in_range (lo hi : N) (c : ascii) : bool :=
  (lo <=? N_of_ascii c) && (N_of_ascii c <=? hi).

Definition isdigit (c : ascii) : bool := in_range 48 57 c.
Definition isupper (c : ascii) : bool := in_range 65 90 c.
Definition islower (c : ascii) : bool := in_range 97 122 c.
Definition isalpha (c : ascii) : bool := isupper c || islower c.
Definition isalnum (c : ascii) : bool := isalpha c || isdigit c.
(** Space and the control characters [\t \n \v \f \r]. *)
Definition isspace (c : ascii) : bool := in_range 9 13 c || (N_of_ascii c =? 32).
Definition toupper (c : ascii) : ascii :=
  if islower c then ascii_of_N (N_of_ascii c - 32) else c.

(** ** Printing *)

Definition digit_char (d : N) : ascii := ascii_of_N (48 + d).

Fixpoint digits_aux (fuel : nat) (n : N) (acc : bytes) : bytes :=
  match fuel with
  | O => acc
  | S f =>
    let acc := digit_char (n mod 10) :: acc in
    if n / 10 =? 0 then acc else digits_aux f (n / 10) acc
  end.

(** [std::to_string] of an unsigned integer; the number of bits bounds the number of digits. *)
Definition to_string (n : N) : bytes := digits_aux (S (N.size_nat n)) n [].

#[global] Arguments to_string : simpl never.

(** ** Parsing *)

Definition digit_val (c : ascii) : N := N_of_ascii c - 48.

(** The value of the longest run of digits, and what follows it. *)
Fixpoint digits_val (acc : N) (s : bytes) : N * bytes :=
  match s with
  | c :: s' => if isdigit c then digits_val (10 * acc + digit_val c) s' else (acc, s)
  | [] => (acc, [])
  end.

Fixpoint skip_spaces (s : bytes) : bytes :=
  match s with
  | c :: s' => if isspace c then skip_spaces s' else s
  | [] => []
  end.

(** An optional sign: whether it is a minus, and what follows. *)
Definition read_sign (s : bytes) : bool * bytes :=
  match s with
  | c :: s' => if N_of_ascii c =? 45 then (true, s') else if N_of_ascii c =? 43 then (false, s') else (false, s)
  | [] => (false, [])
  end.

Definition starts_digit (s : bytes) : bool :=
  match s with c :: _ => isdigit c | [] => false end.

(** [std::stoul] and [std::stoull]: leading white space, an optional sign, digits; what
    follows is ignored. A minus sign negates modulo 2^64. *)
Definition stou (name s : bytes) : outcome N :=
  let '(neg, s1) := read_sign (skip_spaces s) in
  if starts_digit s1 then
    let v := (digits_val 0 s1).1 in
    if two64 <=? v then Throw (OutOfRange name)
    else Ret (if neg then u64_sub 0 v else v)
  else Throw (InvalidArgument name).

Definition stoul : bytes -> outcome N := stou (str "stoul").
Definition stoull : bytes -> outcome N := stou (str "stoull").

(** [std::stoll]. *)
Definition stoll (s : bytes) : outcome Z :=
  let '(neg, s1) := read_sign (skip_spaces s) in
  if starts_digit s1 then
    let v := Z.of_N (digits_val 0 s1).1 in
    let r := if neg then (- v)%Z else v in
    if ((r <? - 2 ^ 63) || (2 ^ 63 <=? r))%Z then Throw (OutOfRange (str "stoll")) else Ret r
  else Throw (InvalidArgument (str "stoll")).

(** ** Round trip *)

Lemma N_of_digit_char d : d < 10 -> N_of_ascii (digit_char d) = 48 + d.
Proof. intros Hd. apply N_ascii_embedding. lia. Qed.

Lemma isdigit_digit_char d : d < 10 -> isdigit (digit_char d) = true.
Proof.
  intros Hd. unfold isdigit, in_range. rewrite N_of_digit_char by done.
  apply andb_true_iff. rewrite !N.leb_le. lia.
Qed.

Lemma digit_val_char d : d < 10 -> digit_val (digit_char d) = d.
Proof. intros Hd. unfold digit_val. rewrite N_of_digit_char by done. lia. Qed.

Lemma mod10 n : n mod 10 < 10.
Proof. by apply N.mod_lt. Qed.

Definition all_digits (s : bytes) : Prop := Forall (fun c => isdigit c = true) s.

Lemma digits_val_app acc s rest :
  all_digits s -> starts_digit rest = false ->
  digits_val acc (s ++ rest) = ((digits_val acc s).1, rest).
Proof.
  intros Hs Hr. revert acc. induction Hs as [|c s Hc Hs IH]; intros acc.
  - destruct rest as [|c rest]; [done|]. cbn in *. by rewrite Hr.
  - cbn [app digits_val]. rewrite Hc. apply IH.
Qed.

(** [digits_aux] prepends the digits of [n]. *)
Lemma digits_aux_spec fuel n acc :
  n < 2 ^ N.of_nat fuel ->
  exists ds, digits_aux (S fuel) n acc = ds ++ acc /\ all_digits ds /\ ds <> [] /\
    forall a, (digits_val a ds).1 = a * 10 ^ N.of_nat (length ds) + n.
Proof.
  revert n acc. induction fuel as [|f IH]; intros n acc Hn.
  - cbn in Hn. assert (n = 0) as -> by lia.
    exists [digit_char 0]. split_and!; [done| |done|].
    { constructor; [by apply isdigit_digit_char|constructor]. }
    intros a. cbn [length digits_val]. rewrite isdigit_digit_char, digit_val_char by done. cbn. lia.
  - assert (Hdm := N.div_mod n 10). cbn [digits_aux]. destruct (N.eqb_spec (n / 10) 0) as [E|E].
    + exists [digit_char (n mod 10)]. pose proof (mod10 n). split_and!; [done| |done|].
      { constructor; [by apply isdigit_digit_char|constructor]. }
      intros a. cbn [length digits_val]. rewrite isdigit_digit_char, digit_val_char by done. cbn. lia.
    + destruct (IH (n / 10) (digit_char (n mod 10) :: acc)) as (ds & Eds & Hds & _ & Hv).
      { rewrite Nat2N.inj_succ, N.pow_succ_r' in Hn. apply N.Div0.div_lt_upper_bound. lia. }
      pose proof (mod10 n).
      exists (ds ++ [digit_char (n mod 10)]). split_and!.
      * cbn [digits_aux] in Eds. rewrite Eds. by rewrite <- app_assoc.
      * apply Forall_app. split; [done|]. constructor; [by apply isdigit_digit_char|constructor].
      * by destruct ds.
      * intros a. specialize (Hv a).
        assert (Hsnoc : forall b l c, all_digits l -> isdigit c = true ->
          (digits_val b (l ++ [c])).1 = 10 * (digits_val b l).1 + digit_val c).
        { clear. intros b l c Hl Hc. revert b. induction Hl as [|x l Hx Hl IH]; intros b.
          - cbn. by rewrite Hc.
          - cbn [app digits_val]. rewrite Hx. apply IH. }
        rewrite Hsnoc by (done || by apply isdigit_digit_char).
        rewrite Hv, digit_val_char, length_app, Nat2N.inj_add, N.pow_add_r by done. cbn [length].
        change (10 ^ N.of_nat 1) with 10. lia.
Qed.

Lemma size_nat_bound n : n < 2 ^ N.of_nat (N.size_nat n).
Proof.
  destruct n as [|p]; [done|]. cbn. induction p as [p IH|p IH|]; [| |done].
  - cbn [Pos.size_nat]. rewrite Nat2N.inj_succ, N.pow_succ_r'. lia.
  - cbn [Pos.size_nat]. rewrite Nat2N.inj_succ, N.pow_succ_r'. lia.
Qed.

Lemma to_string_digits n : all_digits (to_string n) /\ to_string n <> [].
Proof.
  destruct (digits_aux_spec _ n [] (size_nat_bound n)) as (ds & E & H1 & H2 & _).
  unfold to_string. rewrite E, app_nil_r. done.
Qed.

Lemma digits_val_to_string n : (digits_val 0 (to_string n)).1 = n.
Proof.
  destruct (digits_aux_spec _ n [] (size_nat_bound n)) as (ds & E & _ & _ & Hv).
  unfold to_string. rewrite E, app_nil_r, Hv. lia.
Qed.

Lemma to_string_inj m n : to_string m = to_string n -> m = n.
Proof. intros H. by rewrite <- (digits_val_to_string m), H, digits_val_to_string. Qed.

(** Leading zeros do not change the value. *)
Lemma digits_val_zeros k s : (digits_val 0 (replicate k "0"%char ++ s)).1 = (digits_val 0 s).1.
Proof. induction k as [|k IH]; [done|]. cbn [replicate app digits_val]. exact IH. Qed.

Lemma digit_not_special c :
  isdigit c = true -> isspace c = false /\ (N_of_ascii c =? 45) = false /\ (N_of_ascii c =? 43) = false.
Proof.
  unfold isdigit, isspace, in_range. rewrite andb_true_iff, !N.leb_le. intros [H1 H2].
  split_and!; [|apply N.eqb_neq; lia..].
  apply orb_false_iff. split; [|apply N.eqb_neq; lia]. apply andb_false_iff. right.
  apply N.leb_gt. lia.
Qed.

Lemma stou_digits name s rest :
  all_digits s -> s <> [] -> starts_digit rest = false -> (digits_val 0 s).1 < two64 ->
  stou name (s ++ rest) = Ret (digits_val 0 s).1.
Proof.
  intros Hs Hne Hr Hv. destruct s as [|c s]; [done|]. unfold stou.
  assert (Hc : isdigit c = true) by by inversion Hs.
  destruct (digit_not_special c Hc) as (H1 & H2 & H3).
  cbn [app skip_spaces]. rewrite H1. cbn [read_sign]. rewrite H2, H3. cbn [starts_digit]. rewrite Hc.
  change (c :: s ++ rest) with ((c :: s) ++ rest). rewrite digits_val_app by done. cbn [fst].
  destruct (N.leb_spec two64 (digits_val 0 (c :: s)).1); [lia|done].
Qed.

Lemma stou_to_string name n rest :
  n < two64 -> starts_digit rest = false -> stou name (to_string n ++ rest) = Ret n.
Proof.
  intros Hn Hr. destruct (to_string_digits n). 
  rewrite stou_digits by (done || by rewrite digits_val_to_string).
  by rewrite digits_val_to_string.
Qed.
