(* ===== verification/Fs.v ===== *)
(** * The file system the storage layer writes to

    Files are byte strings under their path.  Every durable effect is a [fs_op]; a
    [FileSystem] carries, besides the files, the journal of the effects performed so far, so
    that the states a crash may leave behind can be read off an operation.  The model is that
    of a process crash: effects that were performed survive, in the order they were
    performed, and an interrupted write leaves a prefix of its bytes.  Exhausted disks and
    other I/O errors are not modelled. *)

From Stdlib Require Import Ascii NArith Lia.
From stdpp Require Import strings.
From S2P Require Export Codec.

Inductive fs_op :=
| FsCreate (p : bytes)              (** open for writing, truncating *)
| FsAppend (p : bytes) (data : bytes)
| FsRename (p q : bytes)
| FsRemove (p : bytes).

Abbreviation files_t := (gmap (list ascii) (list ascii)).

Definition fs_apply (d : files_t) (op : fs_op) : files_t :=
  match op with
  | FsCreate p => <[p := []]> d
  | FsAppend p data => match d !! p with Some c => <[p := c ++ data]> d | None => d end
  | FsRename p q => match d !! p with Some c => <[q := c]> (delete p d) | None => d end
  | FsRemove p => delete p d
  end.

Record FileSystem := { files : files_t; journal : list fs_op }.

Definition fs_do (op : fs_op) (fs : FileSystem) : FileSystem :=
  {| files := fs_apply (files fs) op; journal := journal fs ++ [op] |}.

Definition fs_run (ops : list fs_op) (fs : FileSystem) : FileSystem :=
  foldl (fun fs op => fs_do op fs) fs ops.

(** [crash_states d ops d']: a process performing [ops] on [d] may leave [d'] when killed. *)
Inductive crash_states : files_t -> list fs_op -> files_t -> Prop :=
| crash_end d : crash_states d [] d
| crash_before d op ops : crash_states d (op :: ops) d
| crash_torn d p data n ops :
    crash_states d (FsAppend p data :: ops) (fs_apply d (FsAppend p (take n data)))
| crash_after d op ops d' :
    crash_states (fs_apply d op) ops d' -> crash_states d (op :: ops) d'.

Lemma fs_run_files ops fs : files (fs_run ops fs) = foldl fs_apply (files fs) ops.
Proof.
  unfold fs_run. revert fs. induction ops as [|op ops IH]; intros fs; [done|]. cbn. by rewrite IH.
Qed.

Lemma fs_run_journal ops fs : journal (fs_run ops fs) = journal fs ++ ops.
Proof.
  unfold fs_run. revert fs. induction ops as [|op ops IH]; intros fs; cbn; [by rewrite app_nil_r|].
  rewrite IH. cbn. by rewrite <- app_assoc.
Qed.

Lemma fs_run_app ops1 ops2 fs : fs_run (ops1 ++ ops2) fs = fs_run ops2 (fs_run ops1 fs).
Proof. apply foldl_app. Qed.

(** A crash during [ops1 ++ ops2] happens during [ops1] or, after it, during [ops2]. *)
Lemma crash_states_app d ops1 ops2 d' :
  crash_states d (ops1 ++ ops2) d' ->
  crash_states d ops1 d' \/ crash_states (foldl fs_apply d ops1) ops2 d'.
Proof.
  revert d. induction ops1 as [|op ops1 IH]; intros d H; [by right|].
  inversion H as [|?|?|??? ? Hr]; subst.
  - left. constructor.
  - left. constructor.
  - destruct (IH _ Hr) as [Hl|Hl]; [left; by constructor|by right].
Qed.

(** Completing all of [ops] is one of the states. *)
Lemma crash_states_complete d ops : crash_states d ops (foldl fs_apply d ops).
Proof. revert d. induction ops as [|op ops IH]; intros d; cbn; by constructor. Qed.

Lemma crash_states_take d ops n : crash_states d ops (foldl fs_apply d (take n ops)).
Proof.
  revert d ops. induction n as [|n IH]; intros d [|op ops]; cbn; constructor. apply IH.
Qed.

(** Replacing a file by writing a temporary one and renaming it over the old one, the way the
    Raft modules persist their state. *)
Definition replace_file (path content : bytes) : list fs_op :=
  let tmp_path := path ++ str ".tmp" in
  [FsCreate tmp_path; FsAppend tmp_path content; FsRename tmp_path path].

Lemma tmp_path_ne path : path ++ str ".tmp" <> path.
Proof. intros E. rewrite <- (app_nil_r path) in E at 2. by apply app_inv_head in E. Qed.

Lemma replace_file_run path content d :
  foldl fs_apply d (replace_file path content) = <[path := content]> (delete (path ++ str ".tmp") d).
Proof.
  unfold replace_file. cbn [foldl fs_apply].
  rewrite lookup_insert_eq, insert_insert_eq, lookup_insert_eq. cbn [app]. by rewrite delete_insert_eq.
Qed.

Lemma replace_file_other path content d p :
  p <> path -> p <> path ++ str ".tmp" -> foldl fs_apply d (replace_file path content) !! p = d !! p.
Proof. intros H1 H2. by rewrite replace_file_run, lookup_insert_ne, lookup_delete_ne. Qed.

(** A crash leaves the old contents or the new. *)
Lemma replace_file_crash path content d d' :
  crash_states d (replace_file path content) d' ->
  d' !! path = d !! path \/ d' !! path = Some content.
Proof.
  pose proof (tmp_path_ne path) as Hne. unfold replace_file. intros Hc.
  inversion Hc as [|?|?|? ? ? ? Hc1]; subst; [by left|]. cbn [fs_apply] in Hc1.
  inversion Hc1 as [|?|? ? ? k|? ? ? ? Hc2]; subst.
  - left. by rewrite lookup_insert_ne.
  - left. cbn [fs_apply]. by rewrite lookup_insert_eq, insert_insert_eq, lookup_insert_ne.
  - cbn [fs_apply] in Hc2. rewrite lookup_insert_eq, insert_insert_eq in Hc2. cbn [app] in Hc2.
    inversion Hc2 as [|?|?|? ? ? ? Hc3]; subst; [left; by rewrite lookup_insert_ne|].
    cbn [fs_apply] in Hc3. rewrite lookup_insert_eq in Hc3. inversion Hc3; subst.
    right. apply lookup_insert_eq.
Qed.

(** A sequence of appends to one open file is one append of the concatenation. *)
Lemma fs_appends d p c l :
  d !! p = Some c -> foldl fs_apply d (map (FsAppend p) l) = <[p := c ++ concat l]> d.
Proof.
  revert d c. induction l as [|x l IH]; intros d c Hc; cbn.
  - by rewrite app_nil_r, insert_id.
  - rewrite Hc. rewrite (IH _ (c ++ x)) by apply lookup_insert_eq.
    by rewrite insert_insert_eq, <- app_assoc.
Qed.

(** ** Paths ([std::filesystem::path]) *)

Fixpoint strip_prefix (prefix s : bytes) : option bytes :=
  match prefix, s with
  | [], _ => Some s
  | a :: p', b :: s' => if Ascii.eqb a b then strip_prefix p' s' else None
  | _ :: _, [] => None
  end.

Definition slash : ascii := "/"%char.
Definition dot : ascii := "."%char.

(** The file name of a path directly inside [dir]. *)
Definition file_name_in (dir path : bytes) : option bytes :=
  match strip_prefix (dir ++ [slash]) path with
  | Some name => if existsb (Ascii.eqb slash) name then None else Some name
  | None => None
  end.

(** Split a file name at its last dot: (stem, extension with the dot). A name without a dot,
    or whose only dot comes first, has no extension. *)
Fixpoint split_ext_aux (rev_name ext : bytes) : bytes * bytes :=
  match rev_name with
  | [] => (ext, [])
  | c :: r => if Ascii.eqb c dot then (if r is [] then ([dot] ++ ext, []) else (rev r, dot :: ext))
              else split_ext_aux r (c :: ext)
  end.

Definition stem (name : bytes) : bytes := (split_ext_aux (rev name) []).1.
Definition extension (name : bytes) : bytes := (split_ext_aux (rev name) []).2.

(** [directory_iterator(dir)]: the (name, contents) of the files of the directory. *)
Definition directory (d : files_t) (dir : bytes) : list (bytes * bytes) :=
  omap (fun pc => name ← file_name_in dir pc.1; Some (name, pc.2)) (map_to_list d).

Lemma strip_prefix_app p s : strip_prefix p (p ++ s) = Some s.
Proof. induction p as [|a p IH]; [by destruct s|]. cbn. by rewrite Ascii.eqb_refl. Qed.

Lemma strip_prefix_Some p s r : strip_prefix p s = Some r <-> s = p ++ r.
Proof.
  split; [|intros ->; apply strip_prefix_app].
  revert s. induction p as [|a p IH]; intros s; cbn; [by destruct s; intros [= ->]|].
  destruct s as [|b s]; [done|]. destruct (Ascii.eqb_spec a b) as [->|]; [|done].
  intros H. by rewrite (IH _ H).
Qed.

Lemma file_name_in_Some dir path name :
  file_name_in dir path = Some name <-> path = dir ++ [slash] ++ name /\ slash ∉ name.
Proof.
  unfold file_name_in. destruct (strip_prefix (dir ++ [slash]) path) as [r|] eqn:E.
  - apply strip_prefix_Some in E. subst. rewrite <- app_assoc.
    destruct (existsb (Ascii.eqb slash) r) eqn:Ex.
    + split; [done|]. intros [H Hni]. apply app_inv_head in H. injection H as <-.
      apply existsb_exists in Ex as (c & Hc & Hcs). apply Ascii.eqb_eq in Hcs. subst c.
      destruct Hni. by apply list_elem_of_In.
    + split; [|intros [H _]; apply app_inv_head in H; by injection H as <-].
      intros [= <-]. split; [done|]. intros Hin.
      assert (existsb (Ascii.eqb slash) r = true); [|congruence].
      apply existsb_exists. exists slash. rewrite Ascii.eqb_refl. split; [by apply list_elem_of_In|done].
  - split; [done|]. intros [-> _]. rewrite app_assoc, strip_prefix_app in E. done.
Qed.

Lemma elem_of_directory d dir name c :
  (name, c) ∈ directory d dir <-> d !! (dir ++ [slash] ++ name) = Some c /\ slash ∉ name.
Proof.
  unfold directory. rewrite list_elem_of_omap. split.
  - intros ([p c'] & Hin & H). apply elem_of_map_to_list in Hin. cbn in H.
    destruct (file_name_in dir p) as [n|] eqn:E; [|done]. injection H as -> ->.
    apply file_name_in_Some in E as [-> Hn]. done.
  - intros [Hd Hn]. exists (dir ++ [slash] ++ name, c). split; [by apply elem_of_map_to_list|].
    cbn [fst snd]. assert (file_name_in dir (dir ++ [slash] ++ name) = Some name) as ->;
      [by apply file_name_in_Some|done].
Qed.
