(* ===== verification/Stream.v ===== *)
(** * Binary input streams

    [std::ifstream] on a file whose bytes are known: the position and the fail bit, and the
    unformatted reads that [src/storage/sstable.cpp] and [src/raft/log.cpp] make. *)

From Stdlib Require Import NArith Lia.
From S2P Require Export Codec.

(** ** The input stream *)

Record istream := { s_buf : bytes; s_pos : nat; s_fail : bool }.

Definition open_stream (file : bytes) : istream := {| s_buf := file; s_pos := 0; s_fail := false |}.

(** [in.read(p, n)]: the bytes obtained. *)
Definition stream_read (n : nat) (s : istream) : bytes * istream :=
  if s_fail s then ([], s)
  else
    let got := take n (drop (s_pos s) (s_buf s)) in
    (got, {| s_buf := s_buf s; s_pos := s_pos s + length got;
             s_fail := bool_decide (length got < n)%nat |}).

Definition seekg (pos : nat) (s : istream) : istream :=
  if s_fail s then s else {| s_buf := s_buf s; s_pos := pos; s_fail := false |}.

Definition seek_cur (n : nat) (s : istream) : istream := seekg (s_pos s + n) s.

(** [-1] converted to [uint64_t] after a failure. *)
Definition tellg (s : istream) : N :=
  if s_fail s then (two64 - 1)%N else N.of_nat (s_pos s).

(** [T v = 0; ReadRaw(in, v);] *)
Definition ReadRaw (n : nat) (s : istream) : N * istream :=
  let '(got, s') := stream_read n s in (le_val got, s').

(** [std::string v(len, '\0'); in.read(v.data(), len);] *)
Definition read_string (len : N) (s : istream) : bytes * istream :=
  let '(got, s') := stream_read (N.to_nat len) s in
  (got ++ replicate (N.to_nat len - length got) zero, s').

(** ** Reading what is there *)

(** [s] is good and its unread bytes are [bs]. *)
Definition at_bytes (s : istream) (bs : bytes) : Prop :=
  s_fail s = false /\ drop (s_pos s) (s_buf s) = bs.

Definition advance (n : nat) (s : istream) : istream :=
  {| s_buf := s_buf s; s_pos := s_pos s + n; s_fail := false |}.

Lemma at_advance s bs rest : at_bytes s (bs ++ rest) -> at_bytes (advance (length bs) s) rest.
Proof.
  intros [_ H]. split; [done|]. cbn. rewrite <- drop_drop, H. apply drop_app_length.
Qed.

Lemma stream_read_at s bs rest :
  at_bytes s (bs ++ rest) -> stream_read (length bs) s = (bs, advance (length bs) s).
Proof.
  intros [Hf H]. unfold stream_read. rewrite Hf, H, take_app_length.
  rewrite bool_decide_eq_false_2 by lia. done.
Qed.

Lemma ReadRaw_at n s v rest :
  at_bytes s (le_bytes n v ++ rest) -> (v < 256 ^ N.of_nat n)%N ->
  ReadRaw n s = (v, advance n s) /\ at_bytes (advance n s) rest.
Proof.
  intros H Hv. pose proof (length_le_bytes n v) as Hl.
  pose proof (stream_read_at _ _ _ H) as E. pose proof (at_advance _ _ _ H) as H'.
  rewrite Hl in E, H'. split; [|done]. unfold ReadRaw. rewrite E. by rewrite le_val_small.
Qed.

Lemma ReadRaw4_at s v rest :
  at_bytes s (le_bytes 4 v ++ rest) -> (v < two32)%N ->
  ReadRaw 4 s = (v, advance 4 s) /\ at_bytes (advance 4 s) rest.
Proof. intros. by apply ReadRaw_at. Qed.

Lemma ReadRaw8_at s v rest :
  at_bytes s (le_bytes 8 v ++ rest) -> (v < two64)%N ->
  ReadRaw 8 s = (v, advance 8 s) /\ at_bytes (advance 8 s) rest.
Proof. intros. by apply ReadRaw_at. Qed.

Lemma read_string_at s str rest :
  at_bytes s (str ++ rest) ->
  read_string (N.of_nat (length str)) s = (str, advance (length str) s) /\
  at_bytes (advance (length str) s) rest.
Proof.
  intros H. split; [|by eapply at_advance]. unfold read_string. rewrite Nat2N.id.
  rewrite (stream_read_at _ _ _ H), Nat.sub_diag. by rewrite app_nil_r.
Qed.

Lemma seek_at s pos bs :
  s_fail s = false -> drop pos (s_buf s) = bs -> at_bytes (seekg pos s) bs.
Proof. intros Hf H. unfold seekg. rewrite Hf. by split. Qed.
