(* ===== verification/Crc32.v ===== *)
(** * CRC-32 ([src/storage/crc32.cpp])

    The table-driven checksum of WAL records, its bit-by-bit reference
    definition, and the error-detection guarantee the log relies on. *)

From Stdlib Require Import Ascii NArith Lia.
From S2P Require Export Codec.

#[local] Open Scope N_scope.

(** ** The code *)

(** One iteration of the loop of [ComputeTableEntry]. *)
Definition crc_shift (c : N) : N :=
  if N.land c 1 =? 0 then N.shiftr c 1 else N.lxor 0xEDB88320 (N.shiftr c 1).

Definition ComputeTableEntry (n : N) : N := Nat.iter 8 crc_shift n.

(** [CrcTable::entries], filled by the constructor for [n = 0 .. 255]. *)
Definition kCrcTable : list N := map (fun n => ComputeTableEntry (N.of_nat n)) (seq 0 256).

(** The body of the loop of [Crc32]; the index is below 256. *)
Definition crc_byte (crc : N) (b : ascii) : N :=
  N.lxor (nth (N.to_nat (N.land (N.lxor crc (N_of_ascii b)) 0xFF)) kCrcTable 0)
    (N.shiftr crc 8).

Definition Crc32 (data : bytes) : N := N.lxor (foldl crc_byte 0xFFFFFFFF data) 0xFFFFFFFF.

(** The check value of the CRC-32 catalogue: the checksum of "123456789". *)
Example Crc32_check : Crc32 (str "123456789") = 0xCBF43926.
Proof. vm_compute. reflexivity. Qed.

(** ** The reference: one shift per message bit, no table *)

Definition crc_bits (n : nat) (c : N) : N := Nat.iter n crc_shift c.

Definition crc_byte_ref (crc : N) (b : ascii) : N := crc_bits 8 (N.lxor crc (N_of_ascii b)).

Definition Crc32_ref (data : bytes) : N :=
  N.lxor (foldl crc_byte_ref 0xFFFFFFFF data) 0xFFFFFFFF.

(** ** [crc_shift] is linear over xor *)

Lemma land_1_odd c : (N.land c 1 =? 0) = negb (N.odd c).
Proof.
  rewrite <- N.bit0_odd. destruct (N.testbit c 0) eqn:E; cbn.
  - apply N.eqb_neq. intros H. apply (f_equal (fun x => N.testbit x 0)) in H.
    rewrite N.land_spec, E in H. done.
  - apply N.eqb_eq, N.bits_inj. intros [|p]; rewrite N.land_spec, N.bits_0.
    + by rewrite E.
    + by rewrite andb_comm.
Qed.

Lemma crc_shift_odd c :
  crc_shift c = N.lxor (if N.odd c then 0xEDB88320 else 0) (N.shiftr c 1).
Proof. unfold crc_shift. rewrite land_1_odd. by destruct (N.odd c). Qed.

Lemma odd_lxor x y : N.odd (N.lxor x y) = xorb (N.odd x) (N.odd y).
Proof. by rewrite <- !N.bit0_odd, N.lxor_spec. Qed.

Lemma crc_shift_lxor x y : crc_shift (N.lxor x y) = N.lxor (crc_shift x) (crc_shift y).
Proof.
  rewrite !crc_shift_odd, odd_lxor, N.shiftr_lxor.
  apply N.bits_inj. intros i. rewrite !N.lxor_spec.
  destruct (N.odd x), (N.odd y); cbn [xorb]; rewrite ?N.bits_0;
    repeat match goal with |- context [N.testbit ?a i] => destruct (N.testbit a i) end; done.
Qed.

Lemma crc_bits_lxor n x y : crc_bits n (N.lxor x y) = N.lxor (crc_bits n x) (crc_bits n y).
Proof.
  unfold crc_bits. induction n as [|n IH]; [done|].
  by rewrite !Nat.iter_succ, IH, crc_shift_lxor.
Qed.

Lemma crc_shift_double y : crc_shift (N.shiftl y 1) = y.
Proof.
  rewrite crc_shift_odd, N.shiftr_shiftl_l, N.shiftl_0_r by lia.
  by rewrite <- N.bit0_odd, N.shiftl_spec_low by lia.
Qed.

Lemma crc_bits_S n x : crc_bits (S n) x = crc_bits n (crc_shift x).
Proof. unfold crc_bits. apply Nat.iter_succ_r. Qed.

Lemma crc_bits_add n m x : crc_bits (n + m) x = crc_bits n (crc_bits m x).
Proof. unfold crc_bits. apply Nat.iter_add. Qed.

(** Zeros shift out unchanged. *)
Lemma crc_bits_shiftl n y : crc_bits n (N.shiftl y (N.of_nat n)) = y.
Proof.
  revert y. induction n as [|n IH]; intros y; [by rewrite N.shiftl_0_r|].
  rewrite crc_bits_S, Nat2N.inj_succ, <- N.add_1_r, <- N.shiftl_shiftl.
  by rewrite crc_shift_double.
Qed.

Lemma byte_split x : x = N.lxor (N.land x 0xFF) (N.shiftl (N.shiftr x 8) 8).
Proof.
  change 0xFF with (N.ones 8). apply N.bits_inj. intros i.
  rewrite N.lxor_spec, N.land_spec. destruct (N.lt_ge_cases i 8) as [H|H].
  - rewrite N.shiftl_spec_low, N.ones_spec_low by done. by rewrite andb_true_r, xorb_false_r.
  - rewrite N.shiftl_spec_high, N.shiftr_spec, N.ones_spec_high by lia.
    rewrite andb_false_r, N.sub_add by done. by rewrite xorb_false_l.
Qed.

Lemma crc_bits_8 x : crc_bits 8 x = N.lxor (crc_bits 8 (N.land x 0xFF)) (N.shiftr x 8).
Proof.
  rewrite (byte_split x) at 1. rewrite crc_bits_lxor. f_equal. apply (crc_bits_shiftl 8).
Qed.

Lemma kCrcTable_nth i : i < 256 -> nth (N.to_nat i) kCrcTable 0 = crc_bits 8 i.
Proof.
  intros Hi. unfold kCrcTable.
  rewrite (nth_indep _ 0 (ComputeTableEntry (N.of_nat 0))) by (rewrite length_map, length_seq; lia).
  rewrite (map_nth (fun n => ComputeTableEntry (N.of_nat n))), seq_nth by lia.
  by rewrite Nat.add_0_l, N2Nat.id.
Qed.

Lemma shiftr_byte b : N.shiftr (N_of_ascii b) 8 = 0.
Proof. rewrite N.shiftr_div_pow2. apply N.div_small, N_of_ascii_bound. Qed.

Lemma crc_byte_correct crc b : crc_byte crc b = crc_byte_ref crc b.
Proof.
  unfold crc_byte, crc_byte_ref. rewrite crc_bits_8, kCrcTable_nth.
  - by rewrite N.shiftr_lxor, shiftr_byte, N.lxor_0_r.
  - change 0xFF with (N.ones 8). rewrite N.land_ones. by apply N.mod_lt.
Qed.

Lemma crc_fold_correct c data : foldl crc_byte c data = foldl crc_byte_ref c data.
Proof.
  revert c. induction data as [|b data IH]; intros c; [done|]. cbn [foldl]. by rewrite crc_byte_correct, IH.
Qed.

(** ** Error detection *)

Lemma lxor_bound x y n : x < 2 ^ n -> y < 2 ^ n -> N.lxor x y < 2 ^ n.
Proof.
  intros Hx Hy. destruct (N.eq_dec (N.lxor x y) 0) as [->|H]; [lia|].
  destruct (N.eq_dec x 0) as [->|Hx0]; [by rewrite N.lxor_0_l|].
  destruct (N.eq_dec y 0) as [->|Hy0]; [by rewrite N.lxor_0_r|].
  apply N.log2_lt_pow2; [lia|]. eapply N.le_lt_trans; [apply N.log2_lxor|].
  apply N.max_lub_lt; (apply N.log2_lt_pow2; [lia|done]).
Qed.

Lemma crc_shift_bound x : x < two32 -> crc_shift x < two32.
Proof.
  intros Hx. rewrite crc_shift_odd. apply (lxor_bound _ _ 32).
  - by destruct (N.odd x).
  - rewrite N.shiftr_div_pow2. eapply N.le_lt_trans; [|exact Hx].
    apply N.Div0.div_le_upper_bound. lia.
Qed.

Lemma crc_bits_bound n x : x < two32 -> crc_bits n x < two32.
Proof.
  revert x. induction n as [|n IH]; intros x Hx; [done|].
  rewrite crc_bits_S. by apply IH, crc_shift_bound.
Qed.

(** The polynomial's top bit makes the shift reversible: the bit shifted out can be read off
    bit 31 of the result. *)
Lemma crc_shift_top x : x < two32 -> N.testbit (crc_shift x) 31 = N.odd x.
Proof.
  intros Hx. rewrite crc_shift_odd, N.lxor_spec, N.shiftr_spec by lia.
  replace (N.testbit x (31 + 1)) with false.
  - by destruct (N.odd x).
  - symmetry. destruct (N.eq_dec x 0) as [->|H0]; [done|].
    apply N.bits_above_log2, N.log2_lt_pow2; [lia|done].
Qed.

Lemma lxor_cancel_l a x y : N.lxor a x = N.lxor a y -> x = y.
Proof.
  intros H. apply (f_equal (N.lxor a)) in H.
  by rewrite <- !N.lxor_assoc, N.lxor_nilpotent, !N.lxor_0_l in H.
Qed.

Lemma crc_shift_inj x y : x < two32 -> y < two32 -> crc_shift x = crc_shift y -> x = y.
Proof.
  intros Hx Hy H. assert (Ho : N.odd x = N.odd y).
  { by rewrite <- (crc_shift_top x), <- (crc_shift_top y), H. }
  rewrite !crc_shift_odd, Ho in H. apply lxor_cancel_l in H.
  rewrite <- !N.div2_spec in H.
  rewrite (N.div2_odd x), (N.div2_odd y). by rewrite H, Ho.
Qed.

Lemma crc_bits_inj n x y : x < two32 -> y < two32 -> crc_bits n x = crc_bits n y -> x = y.
Proof.
  revert x y. induction n as [|n IH]; intros x y Hx Hy; [done|]. rewrite !crc_bits_S.
  intros H%IH; [|by apply crc_shift_bound..]. by apply crc_shift_inj.
Qed.

Lemma byte_below_two32 b : N_of_ascii b < two32.
Proof. eapply N.lt_trans; [apply N_of_ascii_bound|done]. Qed.

Lemma crc_byte_ref_bound c b : c < two32 -> crc_byte_ref c b < two32.
Proof. intros Hc. apply crc_bits_bound, (lxor_bound _ _ 32); [done|apply byte_below_two32]. Qed.

Lemma crc_fold_bound c data : c < two32 -> foldl crc_byte_ref c data < two32.
Proof.
  revert c. induction data as [|b data IH]; intros c Hc; [done|]. cbn [foldl].
  by apply IH, crc_byte_ref_bound.
Qed.

(** Processing a message from two different states keeps the states different. *)
Lemma crc_fold_inj c c' data :
  c < two32 -> c' < two32 ->
  foldl crc_byte_ref c data = foldl crc_byte_ref c' data -> c = c'.
Proof.
  revert c c'. induction data as [|b data IH]; intros c c' Hc Hc' H; [done|]. cbn [foldl] in H.
  apply IH in H; [|by apply crc_byte_ref_bound..].
  apply crc_bits_inj in H; [|apply (lxor_bound _ _ 32); [done|apply byte_below_two32]..].
  rewrite !(N.lxor_comm _ (N_of_ascii b)) in H. by apply lxor_cancel_l in H.
Qed.

Lemma le_val_cons_lxor b m :
  le_val (b :: m) = N.lxor (N_of_ascii b) (N.shiftl (le_val m) 8).
Proof.
  cbn [le_val]. rewrite N.lxor_comm, N.shiftl_mul_pow2, (N.mul_comm (le_val m)).
  change (2 ^ 8) with 256. symmetry. rewrite N.add_comm.
  rewrite <- N.add_nocarry_lxor; [done|].
  apply N.bits_inj. intros i. rewrite N.bits_0, N.land_spec.
  destruct (N.lt_ge_cases i 8) as [H|H].
  - change 256 with (2 ^ 8). rewrite N.mul_comm, N.mul_pow2_bits_low; done.
  - rewrite (N.bits_above_log2 (N_of_ascii b)); [by rewrite andb_false_r|].
    pose proof (N_of_ascii_bound b) as Hb.
    destruct (N.eq_dec (N_of_ascii b) 0) as [->|H0]; [cbn; lia|].
    eapply N.lt_le_trans; [|exact H]. apply N.log2_lt_pow2; [lia|done].
Qed.

(** A run of bytes acts as one shift of the run xor-ed into the state. *)
Lemma crc_fold_run c m :
  foldl crc_byte_ref c m = crc_bits (8 * length m) (N.lxor c (le_val m)).
Proof.
  revert c. induction m as [|b m IH]; intros c.
  { cbn [le_val length foldl]. rewrite N.lxor_0_r. done. }
  rewrite le_val_cons_lxor. cbn [foldl length]. rewrite IH.
  replace (8 * S (length m))%nat with (8 * length m + 8)%nat by lia.
  rewrite crc_bits_add. f_equal.
  rewrite <- N.lxor_assoc, crc_bits_lxor. f_equal. symmetry. apply (crc_bits_shiftl 8).
Qed.

Lemma le_val_inj m1 m2 : length m1 = length m2 -> le_val m1 = le_val m2 -> m1 = m2.
Proof.
  revert m2. induction m1 as [|a m1 IH]; intros [|b m2] Hl; try done. cbn.
  pose proof (N_of_ascii_bound a). pose proof (N_of_ascii_bound b). intros H1.
  f_equal; [apply N_of_ascii_inj; lia|]. apply IH; [by injection Hl|lia].
Qed.

(** ** Properties *)

(** C40: the table-driven [Crc32] computes the bit-by-bit CRC-32 of its input. *)
Theorem Crc32_bitwise data : Crc32 data = Crc32_ref data.
Proof. unfold Crc32, Crc32_ref. by rewrite crc_fold_correct. Qed.

(** Two messages that differ only inside a window of at most four consecutive bytes
    have different checksums, so such a corruption of a record is always detected. *)
Theorem Crc32_detects_burst p m1 m2 s :
  length m1 = length m2 -> (length m1 <= 4)%nat -> m1 <> m2 ->
  Crc32 (p ++ m1 ++ s) <> Crc32 (p ++ m2 ++ s).
Proof.
  intros Hl Hle Hne H. apply Hne. unfold Crc32 in H. rewrite !crc_fold_correct in H.
  rewrite !(N.lxor_comm _ 0xFFFFFFFF) in H. apply lxor_cancel_l in H.
  rewrite !foldl_app in H. set (c := foldl crc_byte_ref 0xFFFFFFFF p) in H.
  assert (Hc : c < two32) by by apply crc_fold_bound.
  apply crc_fold_inj in H; [|by apply crc_fold_bound..].
  rewrite !crc_fold_run, <- Hl in H.
  assert (Hb : forall m, length m = length m1 -> le_val m < 2 ^ 32).
  { intros m Hm. eapply N.lt_le_trans; [apply le_val_bound|].
    change (2 ^ 32) with (256 ^ 4). apply N.pow_le_mono_r; lia. }
  apply crc_bits_inj in H; [|apply (lxor_bound _ _ 32); [done|by apply Hb]..].
  apply lxor_cancel_l in H. by apply le_val_inj.
Qed.

Lemma Crc32_detects_burst_witness :
  Crc32 (str "ab" ++ str "cdef" ++ str "g") <> Crc32 (str "ab" ++ str "cxyf" ++ str "g").
Proof.
  apply Crc32_detects_burst; [reflexivity|cbn; lia|intros H; vm_compute in H; discriminate H].
Defined.
