(* ===== verification/Wal.v ===== *)
(** * The write-ahead log ([src/storage/wal.h], [src/storage/wal.cpp])

    The log is a sequence of records, each a 16-byte [RecordHeader] followed by the key and,
    for a put, the value.  [Replay] is modelled as the list of the records it hands to its
    callback, in order; it is a function of the bytes of the file. *)

From Stdlib Require Import Ascii NArith Lia.
From S2P Require Export Fs Crc32.

(** ** Data *)

(** [enum class RecordType : uint8_t]; a byte read back may be neither enumerator. *)
Inductive RecordType := kPut | kDelete | kOtherRecord (b : N).

Definition type_u8 (t : RecordType) : N :=
  match t with kPut => 0 | kDelete => 1 | kOtherRecord b => b end.

Definition type_of_u8 (b : N) : RecordType :=
  if (b =? 0)%N then kPut else if (b =? 1)%N then kDelete else kOtherRecord b.

Definition is_put (t : RecordType) : bool := if t is kPut then true else false.

Record RecordHeader := { h_crc : N; h_key_len : N; h_value_len : N; h_type : RecordType }.

(** What the replay callback receives. *)
Record wal_record := { rec_type : RecordType; rec_key : bytes; rec_value : bytes }.

(** The object representation of a header: three 32-bit fields, the type byte and three
    bytes of padding (zero, since headers are created by [RecordHeader header{}]). *)
Definition kHeaderSize : nat := 16.

Definition header_bytes (h : RecordHeader) : bytes :=
  le_bytes 4 (h_crc h) ++ le_bytes 4 (h_key_len h) ++ le_bytes 4 (h_value_len h) ++
  le_bytes 1 (type_u8 (h_type h)) ++ le_bytes 3 0.

Definition header_of_bytes (b : bytes) : RecordHeader :=
  {| h_crc := le_val (take 4 b);
     h_key_len := le_val (take 4 (drop 4 b));
     h_value_len := le_val (take 4 (drop 8 b));
     h_type := type_of_u8 (le_val (take 1 (drop 12 b))) |}.

(** ** Operations *)

Definition ChecksumRecord (type : RecordType) (key value : bytes) : N :=
  Crc32 (le_bytes 1 (type_u8 type) ++ key ++ value).

(** The bytes [AppendRecord] writes. *)
Definition record_bytes (type : RecordType) (key value : bytes) : bytes :=
  header_bytes {| h_crc := ChecksumRecord type key value; h_key_len := size32 key;
                  h_value_len := size32 value; h_type := type |} ++
  key ++ (if is_put type then value else []).

Definition AppendRecord (path : bytes) (type : RecordType) (key value : bytes) : list fs_op :=
  [FsAppend path (record_bytes type key value)].

Definition AppendPut (path key value : bytes) : list fs_op := AppendRecord path kPut key value.
Definition AppendDelete (path key : bytes) : list fs_op := AppendRecord path kDelete key [].

(** [Open] creates the file when it does not exist. *)
Definition Open (path : bytes) (d : files_t) : list fs_op :=
  match d !! path with Some _ => [] | None => [FsCreate path] end.

Definition Reset (path : bytes) : list fs_op := [FsCreate path].

(** One iteration of the loop of [Replay] on the unread bytes: the record read and what
    follows it, or [None] when the loop stops. *)
Definition read_record (s : bytes) : option (wal_record * bytes) :=
  if decide (length s < kHeaderSize)%nat then None
  else
    let header := header_of_bytes (take kHeaderSize s) in
    let s1 := drop kHeaderSize s in
    let klen := N.to_nat (h_key_len header) in
    if decide (length s1 < klen)%nat then None
    else
      let key := take klen s1 in
      let s2 := drop klen s1 in
      let vlen := if is_put (h_type header) then N.to_nat (h_value_len header) else 0%nat in
      if decide (length s2 < vlen)%nat then None
      else
        let value := take vlen s2 in
        if (ChecksumRecord (h_type header) key value =? h_crc header)%N
        then Some ({| rec_type := h_type header; rec_key := key; rec_value := value |}, drop vlen s2)
        else None.

(** Every record read consumes at least a header, so [length s] iterations are enough
    ([replay_fuel]). *)
Fixpoint replay_aux (fuel : nat) (s : bytes) : list wal_record :=
  match fuel with
  | O => []
  | S f => match read_record s with Some (r, s') => r :: replay_aux f s' | None => [] end
  end.

Definition Replay (content : bytes) : list wal_record := replay_aux (length content) content.

(** ** Reading back what was written *)

Definition wal_rec_bytes (r : wal_record) : bytes :=
  record_bytes (rec_type r) (rec_key r) (rec_value r).

Definition wal_bytes (rs : list wal_record) : bytes := concat (map wal_rec_bytes rs).

(** The records [AppendPut] and [AppendDelete] write, with lengths a [uint32_t] can hold. *)
Definition record_ok (r : wal_record) : Prop :=
  fits32 (rec_key r) /\ fits32 (rec_value r) /\
  match rec_type r with kPut => True | kDelete => rec_value r = [] | kOtherRecord _ => False end.

Lemma type_round_trip t : match t with kOtherRecord _ => False | _ => True end ->
  type_of_u8 (type_u8 t) = t.
Proof. by destruct t. Qed.

Lemma length_header_bytes h : length (header_bytes h) = kHeaderSize.
Proof. done. Qed.

Lemma ChecksumRecord_bound t k v : (ChecksumRecord t k v < two32)%N.
Proof.
  unfold ChecksumRecord, Crc32. apply (lxor_bound _ _ 32); [|done].
  rewrite crc_fold_correct. by apply crc_fold_bound.
Qed.

Lemma header_round_trip h :
  (h_crc h < two32)%N -> (h_key_len h < two32)%N -> (h_value_len h < two32)%N ->
  match h_type h with kOtherRecord _ => False | _ => True end ->
  header_of_bytes (header_bytes h) = h.
Proof.
  intros H1 H2 H3 H4. destruct h as [c k v t]. cbn in *.
  unfold header_of_bytes, header_bytes. cbn [h_crc h_key_len h_value_len h_type].
  assert (E : forall x, (x < two32)%N -> le_val (le_bytes 4 x) = x) by (intros; by apply le_val_small).
  f_equal; [exact (E c H1)|exact (E k H2)|exact (E v H3)|].
  by destruct t.
Qed.

Lemma drop_app_exact {A} n (l k : list A) : length l = n -> drop n (l ++ k) = k.
Proof. intros <-. apply drop_app_length. Qed.
Lemma take_app_exact {A} n (l k : list A) : length l = n -> take n (l ++ k) = l.
Proof. intros <-. apply take_app_length. Qed.

Lemma length_record_bytes t k v :
  length (record_bytes t k v) = (kHeaderSize + length k + (if is_put t then length v else 0))%nat.
Proof.
  unfold record_bytes. rewrite !length_app, length_header_bytes. by destruct t; cbn; lia.
Qed.

(** A header followed by a payload of the announced lengths is read as announced, if the
    checksum agrees with the payload. *)
Lemma read_record_payload t k v c rest :
  fits32 k -> fits32 v -> match t with kPut => True | kDelete => v = [] | _ => False end ->
  (c < two32)%N ->
  read_record (header_bytes {| h_crc := c; h_key_len := size32 k; h_value_len := size32 v;
                               h_type := t |} ++ k ++ v ++ rest) =
  if (ChecksumRecord t k v =? c)%N
  then Some ({| rec_type := t; rec_key := k; rec_value := v |}, rest) else None.
Proof.
  intros Hk Hv Ht Hc. unfold read_record.
  rewrite decide_False by (rewrite length_app, length_header_bytes; lia).
  rewrite (take_app_exact kHeaderSize), (drop_app_exact kHeaderSize) by apply length_header_bytes.
  rewrite header_round_trip by (cbn; try apply size32_bound; try done; by destruct t).
  cbn [h_crc h_key_len h_value_len h_type].
  rewrite !size32_small, !Nat2N.id by done.
  rewrite decide_False by (rewrite length_app; lia).
  rewrite (take_app_exact (length k)), (drop_app_exact (length k)) by done.
  assert (E : (if is_put t then length v else 0%nat) = length v) by by destruct t; subst.
  rewrite E. rewrite decide_False by (rewrite length_app; lia).
  by rewrite (take_app_exact (length v)), (drop_app_exact (length v)).
Qed.

Lemma record_bytes_ok r rest : record_ok r ->
  wal_rec_bytes r ++ rest =
  header_bytes {| h_crc := ChecksumRecord (rec_type r) (rec_key r) (rec_value r);
                  h_key_len := size32 (rec_key r); h_value_len := size32 (rec_value r);
                  h_type := rec_type r |} ++ rec_key r ++ rec_value r ++ rest.
Proof.
  intros (_ & _ & Ht). unfold wal_rec_bytes, record_bytes.
  rewrite <- !app_assoc. do 2 f_equal. by destruct (rec_type r); rewrite ?Ht.
Qed.

Lemma read_record_round_trip r rest :
  record_ok r -> read_record (wal_rec_bytes r ++ rest) = Some (r, rest).
Proof.
  intros Hr. rewrite record_bytes_ok by done. destruct Hr as (Hk & Hv & Ht).
  rewrite read_record_payload by (done || apply ChecksumRecord_bound).
  rewrite N.eqb_refl. by destruct r.
Qed.

(** A proper prefix of a record is never read as a record. *)
Lemma read_record_torn r n :
  record_ok r -> (n < length (wal_rec_bytes r))%nat -> read_record (take n (wal_rec_bytes r)) = None.
Proof.
  intros Hr Hn. unfold read_record. case_decide as Hd; [done|].
  rewrite length_take in Hd. rewrite take_take, Nat.min_l by lia.
  pose proof (record_bytes_ok r [] Hr) as E. rewrite !app_nil_r in E.
  destruct Hr as (Hk & Hv & Ht). rewrite E in Hn |- *.
  rewrite (take_app_exact kHeaderSize) by apply length_header_bytes.
  rewrite header_round_trip
    by (cbn; try apply size32_bound; try apply ChecksumRecord_bound; by destruct (rec_type r)).
  cbn [h_crc h_key_len h_value_len h_type]. rewrite !size32_small, !Nat2N.id by done.
  rewrite skipn_firstn_comm, (drop_app_exact kHeaderSize) by apply length_header_bytes.
  rewrite length_app, length_header_bytes in Hn.
  case_decide as Hd1; [done|]. rewrite length_take in Hd1.
  rewrite skipn_firstn_comm, (drop_app_exact (length (rec_key r))) by done.
  rewrite decide_True; [done|]. rewrite length_take. rewrite length_app in *.
  assert (Hlen : (if is_put (rec_type r) then length (rec_value r) else 0%nat) = length (rec_value r)).
  { destruct (rec_type r); [done| |done]. by rewrite Ht. }
  rewrite Hlen. unfold kHeaderSize in *. lia.
Qed.

Lemma read_record_shorter s r s' : read_record s = Some (r, s') -> (length s' < length s)%nat.
Proof.
  unfold read_record. intros H. repeat case_decide; try done.
  case_match; [|done]. injection H as <- <-. rewrite !length_drop. unfold kHeaderSize in *. lia.
Qed.

(** More fuel than bytes changes nothing. *)
Lemma replay_fuel f s : (length s <= f)%nat -> replay_aux f s = Replay s.
Proof.
  unfold Replay. remember (length s) as n eqn:Hn. assert (Hle : (length s <= n)%nat) by lia.
  clear Hn. revert s f Hle. induction n as [|n IH]; intros s f Hle Hf.
  - destruct s; [|cbn in Hle; lia]. by destruct f.
  - destruct f as [|f]; [lia|]. cbn [replay_aux].
    destruct (read_record s) as [[r s']|] eqn:E; [|done].
    apply read_record_shorter in E. f_equal. apply IH; lia.
Qed.

Lemma Replay_step s :
  Replay s = match read_record s with Some (r, s') => r :: Replay s' | None => [] end.
Proof.
  rewrite <- (replay_fuel (S (length s)) s) by lia. cbn [replay_aux].
  destruct (read_record s) as [[r s']|] eqn:E; [|done].
  apply read_record_shorter in E. by rewrite replay_fuel by lia.
Qed.

Lemma Replay_app rs tail :
  Forall record_ok rs -> Replay (wal_bytes rs ++ tail) = rs ++ Replay tail.
Proof.
  induction 1 as [|r rs Hr Hrs IH]; [done|].
  unfold wal_bytes. cbn [map concat]. rewrite <- app_assoc, Replay_step.
  rewrite read_record_round_trip by done. cbn. by rewrite <- IH.
Qed.

Lemma Replay_nil : Replay [] = [].
Proof. done. Qed.

Lemma Replay_complete rs : Forall record_ok rs -> Replay (wal_bytes rs) = rs.
Proof.
  intros H. rewrite <- (app_nil_r (wal_bytes rs)), Replay_app by done. by rewrite Replay_nil, app_nil_r.
Qed.

Lemma wal_bytes_app rs1 rs2 : wal_bytes (rs1 ++ rs2) = wal_bytes rs1 ++ wal_bytes rs2.
Proof. unfold wal_bytes. by rewrite map_app, concat_app. Qed.

Lemma wal_bytes_one r : wal_bytes [r] = wal_rec_bytes r.
Proof. apply app_nil_r. Qed.

(** An append interrupted after [n] bytes leaves either nothing or the whole record. *)
Lemma Replay_torn_append rs r n :
  Forall record_ok rs -> record_ok r ->
  Replay (wal_bytes rs ++ take n (wal_rec_bytes r)) =
  if decide (n < length (wal_rec_bytes r))%nat then rs else rs ++ [r].
Proof.
  intros Hrs Hr. rewrite Replay_app by done. case_decide as Hd.
  - by rewrite Replay_step, read_record_torn, app_nil_r.
  - rewrite take_ge by lia. by rewrite <- (wal_bytes_one r), Replay_complete by by constructor.
Qed.

(** ** Properties *)

(** C37: cutting a log off after any number of bytes, as a crash in the middle of an append
    does, makes [Replay] deliver exactly the records that were written completely: the first
    [k] records fit into the [n] bytes that survive and the next one does not. *)
Theorem Replay_truncated rs n :
  Forall record_ok rs ->
  exists k, Replay (take n (wal_bytes rs)) = take k rs /\
    (length (wal_bytes (take k rs)) <= n)%nat /\
    (k < length rs -> n < length (wal_bytes (take (S k) rs)))%nat /\ (k <= length rs)%nat.
Proof.
  intros Hrs. revert n. induction Hrs as [|r rs Hr Hrs IH]; intros n.
  { exists 0%nat. change (wal_bytes []) with (@nil ascii). rewrite take_nil.
    split_and!; [done|cbn; lia|cbn; lia|cbn; lia]. }
  change (r :: rs) with ([r] ++ rs). rewrite wal_bytes_app, wal_bytes_one.
  destruct (decide (n < length (wal_rec_bytes r))%nat) as [Hn|Hn].
  - exists 0%nat. rewrite take_app_le by lia.
    rewrite Replay_step, read_record_torn by done.
    split_and!; [done|rewrite take_0; cbn; lia| |lia]. intros _. cbn [app take]. by rewrite take_0, wal_bytes_one.
  - destruct (IH (n - length (wal_rec_bytes r))%nat) as (k & E & H1 & H2 & H3). exists (S k).
    rewrite take_app, take_ge by lia. rewrite Replay_step, read_record_round_trip, E by done.
    rewrite length_app in *. cbn [length] in *.
    split_and!; [done| |intros Hk|lia].
    + cbn [app take]. unfold wal_bytes in *. cbn [map concat]. rewrite length_app. lia.
    + specialize (H2 ltac:(lia)). unfold wal_bytes in *. cbn [app] in *.
      cbn [take map concat] in *. rewrite length_app. lia.
Qed.

Definition demo_records : list wal_record :=
  [ {| rec_type := kPut; rec_key := str "k1"; rec_value := str "v1" |};
    {| rec_type := kDelete; rec_key := str "k2"; rec_value := [] |} ].

Lemma demo_records_ok : Forall record_ok demo_records.
Proof. repeat constructor. Qed.

Lemma Replay_truncated_witness :
  exists k, Replay (take 30 (wal_bytes demo_records)) = take k demo_records /\
    (length (wal_bytes (take k demo_records)) <= 30)%nat /\
    (k < 2 -> 30 < length (wal_bytes (take (S k) demo_records)))%nat /\ (k <= 2)%nat.
Proof. apply (Replay_truncated demo_records 30). exact demo_records_ok. Defined.

(** When at most four consecutive bytes of the payload of a record are damaged, [Replay]
    delivers the records before it and nothing of the damaged record or after it. *)
Theorem Replay_stops_at_damage rs t k v k' v' p m1 m2 s tail :
  Forall record_ok rs ->
  record_ok {| rec_type := t; rec_key := k; rec_value := v |} ->
  k ++ v = p ++ m1 ++ s -> k' ++ v' = p ++ m2 ++ s ->
  length k' = length k -> length v' = length v ->
  length m1 = length m2 -> (length m1 <= 4)%nat -> m1 <> m2 ->
  Replay (wal_bytes rs ++
    header_bytes {| h_crc := ChecksumRecord t k v; h_key_len := size32 k;
                    h_value_len := size32 v; h_type := t |} ++ k' ++ v' ++ tail) = rs.
Proof.
  intros Hrs (Hk & Hv & Ht) E E' Hlk Hlv Hm Hle Hne.
  cbn [rec_type rec_key rec_value] in Hk, Hv, Ht.
  rewrite Replay_app, Replay_step by done.
  assert (Ek : size32 k = size32 k') by (unfold size32; by rewrite Hlk).
  assert (Ev : size32 v = size32 v') by (unfold size32; by rewrite Hlv).
  rewrite Ek, Ev. rewrite read_record_payload.
  - destruct (N.eqb_spec (ChecksumRecord t k' v') (ChecksumRecord t k v)) as [Hc|Hc];
      [|by rewrite app_nil_r].
    exfalso. unfold ChecksumRecord in Hc. rewrite E, E' in Hc. rewrite !(app_assoc _ p) in Hc.
    exact (Crc32_detects_burst _ _ _ _ Hm Hle Hne (eq_sym Hc)).
  - unfold fits32 in *. by rewrite Hlk.
  - unfold fits32 in *. by rewrite Hlv.
  - destruct t; [done| |done]. subst v. by destruct v'.
  - apply ChecksumRecord_bound.
Qed.

Lemma Replay_stops_at_damage_witness :
  Replay (wal_bytes demo_records ++
    header_bytes {| h_crc := ChecksumRecord kPut (str "key") (str "value");
                    h_key_len := size32 (str "key"); h_value_len := size32 (str "value");
                    h_type := kPut |} ++ str "kez" ++ str "walue" ++ wal_bytes demo_records)
  = demo_records.
Proof.
  apply (Replay_stops_at_damage _ kPut (str "key") (str "value") _ _
           (str "ke") (str "yv") (str "zw") (str "alue"));
    first [exact demo_records_ok | reflexivity | (vm_compute; lia) | done].
Defined.
