(* ===== verification/Memtable.v ===== *)
(** * The memtable ([src/storage/memtable.h], [memtable.cpp], [lookup.h]) *)

From S2P Require Export Prelude.

(** ** Lookup results *)

Inductive LookupStatus := kNotFound | kFound | kDeleted.

Record LookupResult := { status : LookupStatus; value : bytes }.

(** What a lookup says about a key: [None] to look in an older layer, [Some None] for a
    tombstone, [Some (Some v)] for a live value. *)
Definition lookup_view (r : LookupResult) : option (option bytes) :=
  match status r with
  | kNotFound => None
  | kDeleted => Some None
  | kFound => Some (Some (value r))
  end.

(** ** The table: [std::map<std::string, std::optional<std::string>>] *)

Abbreviation memtable := (gmap (list ascii) (option (list ascii))).

Definition Put (key v : bytes) (m : memtable) : memtable := <[key := Some v]> m.
Definition Delete (key : bytes) (m : memtable) : memtable := <[key := None]> m.

Definition Lookup (key : bytes) (m : memtable) : LookupResult :=
  match m !! key with
  | None => {| status := kNotFound; value := [] |}
  | Some None => {| status := kDeleted; value := [] |}
  | Some (Some v) => {| status := kFound; value := v |}
  end.

Definition Entries (m : memtable) : list (bytes * option bytes) := map_entries m.
Definition Clear (m : memtable) : memtable := ∅.
Definition size (m : memtable) : nat := base.size m.

Definition Scan (prefix : bytes) (m : memtable) : list (bytes * option bytes) :=
  prefix_range prefix (map_entries m).

(** ** Facts *)

Lemma Lookup_view key m : lookup_view (Lookup key m) = m !! key.
Proof. unfold Lookup. by destruct (m !! key) as [[v|]|]. Qed.

Lemma Scan_filter prefix m : Scan prefix m = with_prefix prefix (Entries m).
Proof. apply prefix_range_filter, map_entries_sorted. Qed.
