(* ===== verification/SSTable.v ===== *)
(** * Sorted tables on disk ([src/storage/sstable.h], [src/storage/sstable.cpp])

    [SSTableWriter] produces the bytes of a table and publishes the file by a rename;
    [SSTableReader] opens such a file and answers lookups and scans from its bytes.  The
    reader's [std::ifstream] is modelled with its position and fail bit.  Every operation of
    an opened table starts with an absolute seek; on a well-formed table no read ever fails
    ([Lookup], [Scan] and [ReadAll] stay inside the file), so the stream each operation
    starts from is a fresh good one. *)

From Stdlib Require Import NArith Lia.
From S2P Require Export Fs Stream Memtable.

(** ** Constants *)

Definition kTombstone : N := 0xFFFFFFFF.
Definition kMagic : N := 0x53535444.
Definition kFooterSize : nat := 16.

(** ** Writing *)

Abbreviation table_entry := (list ascii * option (list ascii))%type.

Record SSTableWriter := {
  w_path : bytes;
  w_tmp_path : bytes;
  w_data : bytes;                (** what has been written to the temporary file *)
  w_index : list (bytes * N);
}.

Definition new_writer (path : bytes) : SSTableWriter :=
  {| w_path := path; w_tmp_path := path ++ str ".tmp"; w_data := []; w_index := [] |}.

Definition value_bytes (value : option bytes) : bytes :=
  match value with
  | Some v => le_bytes 4 (size32 v) ++ v
  | None => le_bytes 4 kTombstone
  end.

Definition key_bytes (key : bytes) : bytes := le_bytes 4 (size32 key) ++ key.

(** [tellp] is the number of bytes written so far. *)
Definition Add (key : bytes) (value : option bytes) (w : SSTableWriter) : SSTableWriter :=
  let offset := N.of_nat (length (w_data w)) in
  {| w_path := w_path w; w_tmp_path := w_tmp_path w;
     w_data := w_data w ++ key_bytes key ++ value_bytes value;
     w_index := w_index w ++ [(key, offset)] |}.

Definition index_bytes (index : list (bytes * N)) : bytes :=
  concat (map (fun e => key_bytes e.1 ++ le_bytes 8 e.2) index).

Definition footer_bytes (index_offset : N) (count : N) : bytes :=
  le_bytes 8 index_offset ++ le_bytes 4 count ++ le_bytes 4 kMagic.

(** The contents of the finished file. *)
Definition finished (w : SSTableWriter) : bytes :=
  w_data w ++ index_bytes (w_index w) ++
  footer_bytes (N.of_nat (length (w_data w))) (size32 (w_index w)).

(** The durable effects of a writer's life: the constructor creates the temporary file, the
    writes go to it, and [Finish] publishes it. *)
Definition Finish (w : SSTableWriter) : list fs_op :=
  [FsCreate (w_tmp_path w); FsAppend (w_tmp_path w) (finished w);
   FsRename (w_tmp_path w) (w_path w)].

(** [for (const auto& [key, value] : entries) writer.Add(key, value);] *)
Definition add_all (entries : list table_entry) (w : SSTableWriter) : SSTableWriter :=
  foldl (fun w e => Add e.1 e.2 w) w entries.

(** ** Reading *)

Record SSTableReader := {
  r_path : bytes;
  r_file : bytes;
  r_index : list (bytes * N);
  r_data_end : N;
}.

Fixpoint read_index (count : nat) (s : istream) : list (bytes * N) * istream :=
  match count with
  | O => ([], s)
  | S c =>
    let '(key_len, s) := ReadRaw 4 s in
    let '(key, s) := read_string key_len s in
    let '(offset, s) := ReadRaw 8 s in
    let '(rest, s) := read_index c s in
    ((key, offset) :: rest, s)
  end.

(** [SSTableReader reader(path); reader.Open();] *)
Definition Open (path : bytes) (d : files_t) : outcome SSTableReader :=
  match d !! path with
  | None => throw_rt (str "failed to open SSTable: " ++ path)
  | Some file =>
    if decide (length file < kFooterSize)%nat
    then throw_rt (str "SSTable too small to contain a footer: " ++ path)
    else
      let s := seekg (length file - kFooterSize) (open_stream file) in
      let '(index_offset, s) := ReadRaw 8 s in
      let '(entry_count, s) := ReadRaw 4 s in
      let '(magic, s) := ReadRaw 4 s in
      if negb (magic =? kMagic)%N
      then throw_rt (str "SSTable footer magic mismatch (truncated/corrupt file): " ++ path)
      else
        let s := seekg (N.to_nat index_offset) s in
        let '(index, _) := read_index (N.to_nat entry_count) s in
        Ret {| r_path := path; r_file := file; r_index := index; r_data_end := index_offset |}
  end.

(** The value part of an entry, common to [Lookup], [Scan] and [ReadAll]. *)
Definition read_value (s : istream) : option bytes * istream :=
  let '(value_len, s) := ReadRaw 4 s in
  if (value_len =? kTombstone)%N then (None, s)
  else let '(v, s) := read_string value_len s in (Some v, s).

(** Seek to an entry, skip its key, read its value. *)
Definition value_at (offset : N) (s : istream) : option bytes * istream :=
  let s := seekg (N.to_nat offset) s in
  let '(key_len, s) := ReadRaw 4 s in
  read_value (seek_cur (N.to_nat key_len) s).

Definition Lookup (key : bytes) (r : SSTableReader) : LookupResult :=
  match lower_bound key (r_index r) with
  | [] => {| status := kNotFound; value := [] |}
  | (k, offset) :: _ =>
    if decide (k = key) then
      match (value_at offset (open_stream (r_file r))).1 with
      | None => {| status := kDeleted; value := [] |}
      | Some v => {| status := kFound; value := v |}
      end
    else {| status := kNotFound; value := [] |}
  end.

Definition Scan (prefix : bytes) (r : SSTableReader) : list table_entry :=
  map (fun e => (e.1, (value_at e.2 (open_stream (r_file r))).1)) (prefix_range prefix (r_index r)).

(** The loop of [ReadAll]; every iteration consumes at least four bytes or sets the fail bit,
    so as many iterations as the file has bytes are enough. *)
Fixpoint read_all_aux (fuel : nat) (data_end : N) (s : istream) : list table_entry :=
  match fuel with
  | O => []
  | S f =>
    if (tellg s <? data_end)%N then
      let '(key_len, s) := ReadRaw 4 s in
      let '(key, s) := read_string key_len s in
      let '(v, s) := read_value s in
      (key, v) :: read_all_aux f data_end s
    else []
  end.

Definition ReadAll (r : SSTableReader) : list table_entry :=
  read_all_aux (S (length (r_file r))) (r_data_end r) (seekg 0 (open_stream (r_file r))).

(** ** The layout of a written table *)

Definition entry_bytes (e : table_entry) : bytes := key_bytes e.1 ++ value_bytes e.2.
Definition data_of (entries : list table_entry) : bytes := concat (map entry_bytes entries).

Fixpoint index_of (start : nat) (entries : list table_entry) : list (bytes * N) :=
  match entries with
  | [] => []
  | e :: es => (e.1, N.of_nat start) :: index_of (start + length (entry_bytes e)) es
  end.

(** The file of a table holding [entries]. *)
Definition table_file (entries : list table_entry) : bytes :=
  data_of entries ++ index_bytes (index_of 0 entries) ++
  footer_bytes (N.of_nat (length (data_of entries))) (size32 entries).

(** Lengths a 32-bit field can hold; a live value must not be as long as the tombstone mark. *)
Definition entry_ok (e : table_entry) : Prop :=
  fits32 e.1 /\ match e.2 with Some v => (N.of_nat (length v) < kTombstone)%N | None => True end.

Definition table_ok (entries : list table_entry) : Prop :=
  Forall entry_ok entries /\ fits32 entries /\ (N.of_nat (length (data_of entries)) < two64)%N.

Lemma length_index_of start es : length (index_of start es) = length es.
Proof. revert start. induction es as [|e es IH]; intros start; cbn; [done|by rewrite IH]. Qed.

Lemma index_of_keys start es : (index_of start es).*1 = es.*1.
Proof. revert start. induction es as [|e es IH]; intros start; cbn; [done|by rewrite IH]. Qed.

Lemma add_all_spec es w :
  add_all es w = {| w_path := w_path w; w_tmp_path := w_tmp_path w;
                    w_data := w_data w ++ data_of es;
                    w_index := w_index w ++ index_of (length (w_data w)) es |}.
Proof.
  revert w. induction es as [|e es IH]; intros w.
  - destruct w; cbn. by rewrite !app_nil_r.
  - unfold add_all in *. cbn [foldl]. rewrite IH. unfold Add. cbn [w_path w_tmp_path w_data w_index].
    f_equal.
    + unfold data_of, entry_bytes. cbn [map concat]. by rewrite <- !app_assoc.
    + rewrite <- app_assoc. cbn [app index_of]. unfold entry_bytes. by rewrite length_app.
Qed.

Lemma finished_add_all path es : finished (add_all es (new_writer path)) = table_file es.
Proof.
  rewrite add_all_spec. unfold finished, table_file. cbn [new_writer w_data w_index app length].
  do 3 f_equal. unfold size32. by rewrite length_index_of.
Qed.

Lemma Finish_add_all path es :
  Finish (add_all es (new_writer path)) =
  [FsCreate (path ++ str ".tmp"); FsAppend (path ++ str ".tmp") (table_file es);
   FsRename (path ++ str ".tmp") path].
Proof. unfold Finish. rewrite finished_add_all, add_all_spec. done. Qed.

(** ** Reading what is there *)

(** Reading the key part: by reading or by skipping it. *)
Lemma read_key_at s key rest :
  fits32 key -> at_bytes s (key_bytes key ++ rest) ->
  exists s', ReadRaw 4 s = (N.of_nat (length key), s') /\
    read_string (N.of_nat (length key)) s' = (key, advance (length key) s') /\
    at_bytes (advance (length key) s') rest /\
    seek_cur (N.to_nat (N.of_nat (length key))) s' = advance (length key) s' /\
    advance (length key) s' = advance (length (key_bytes key)) s.
Proof.
  intros Hk H. unfold key_bytes in H. rewrite size32_small, <- app_assoc in H by done.
  apply ReadRaw4_at in H as [E H]; [|done].
  destruct (read_string_at _ _ _ H) as [Es Ha].
  exists (advance 4 s). split_and!; [done..| |].
  - unfold seek_cur, seekg, advance. cbn. by rewrite Nat2N.id.
  - unfold key_bytes, advance. cbn [s_buf s_pos]. rewrite length_app, length_le_bytes.
    f_equal. lia.
Qed.

Lemma read_value_at s v rest :
  match v with Some v => (N.of_nat (length v) < kTombstone)%N | None => True end ->
  at_bytes s (value_bytes v ++ rest) ->
  read_value s = (v, advance (length (value_bytes v)) s) /\
  at_bytes (advance (length (value_bytes v)) s) rest.
Proof.
  intros Hv H. split; [|by eapply at_advance]. unfold read_value. destruct v as [v|]; cbn [value_bytes] in *.
  - assert (Hv' : fits32 v) by (unfold fits32, kTombstone, two32 in *; lia).
    rewrite size32_small, <- app_assoc in * by done.
    apply ReadRaw4_at in H as [E H]; [|done]. rewrite E.
    destruct (N.eqb_spec (N.of_nat (length v)) kTombstone); [lia|].
    apply read_string_at in H as [Es _]. rewrite Es. f_equal. unfold advance. cbn [s_buf s_pos].
    rewrite length_app, length_le_bytes. f_equal. lia.
  - apply ReadRaw4_at in H as [E H]; [|done]. by rewrite E.
Qed.

Lemma value_at_entry file start e rest :
  entry_ok e -> drop start file = entry_bytes e ++ rest -> (N.of_nat start < two64)%N ->
  (value_at (N.of_nat start) (open_stream file)).1 = e.2.
Proof.
  intros [Hk Hv] Hd _. unfold value_at. rewrite Nat2N.id.
  unfold entry_bytes in Hd. rewrite <- app_assoc in Hd.
  apply (seek_at (open_stream file)) in Hd; [|done].
  destruct (read_key_at _ _ _ Hk Hd) as (s' & E & _ & Ha & Es & _). rewrite E, Es.
  by destruct (read_value_at _ _ _ Hv Ha) as [-> _].
Qed.

(** The value at an index entry is the value of the entry it was written for. *)
Lemma index_values file start es rest :
  Forall entry_ok es -> drop start file = data_of es ++ rest ->
  (N.of_nat (start + length (data_of es)) < two64)%N ->
  map (fun e => (e.1, (value_at e.2 (open_stream file)).1)) (index_of start es) = es.
Proof.
  intros Hes. revert start. induction Hes as [|e es He Hes IH]; intros start Hd Hb; [done|].
  unfold data_of in *. cbn [map concat] in Hd, Hb. rewrite length_app in Hb. rewrite <- app_assoc in Hd.
  cbn [index_of map fst snd]. erewrite value_at_entry by (done || lia).
  rewrite IH; [by destruct e| |lia].
  by rewrite <- drop_drop, Hd, drop_app_length.
Qed.

Lemma read_index_at s index rest :
  Forall (fun e => fits32 e.1 /\ (e.2 < two64)%N) index ->
  at_bytes s (index_bytes index ++ rest) ->
  (read_index (length index) s).1 = index.
Proof.
  intros Hall. revert s. induction Hall as [|[k o] index [Hk Ho] Hall IH]; intros s H; [done|].
  unfold index_bytes in *. cbn [map concat fst snd length read_index] in *.
  rewrite <- !app_assoc in H. destruct (read_key_at _ _ _ Hk H) as (s' & E & Er & Ha & _).
  rewrite E, Er. apply ReadRaw8_at in Ha as [E8 H8]; [|done]. rewrite E8.
  specialize (IH _ H8). destruct (read_index _ _) as [l s'']. cbn in *. by subst.
Qed.

Lemma index_of_ok start es :
  Forall entry_ok es -> (N.of_nat (start + length (data_of es)) < two64)%N ->
  Forall (fun e => fits32 e.1 /\ (e.2 < two64)%N) (index_of start es).
Proof.
  intros Hes. revert start. induction Hes as [|e es [He _] Hes IH]; intros start Hb; [constructor|].
  unfold data_of in *. cbn [map concat] in Hb. rewrite length_app in Hb.
  cbn [index_of]. constructor; [cbn; split; [done|lia]|]. apply IH. lia.
Qed.

Lemma read_all_at fuel de s es rest :
  Forall entry_ok es -> at_bytes s (data_of es ++ rest) ->
  de = N.of_nat (s_pos s + length (data_of es)) -> (length es < fuel)%nat ->
  read_all_aux fuel de s = es.
Proof.
  intros Hes. revert fuel s.
  induction Hes as [|e es [Hk Hv] Hes IH]; intros fuel s Ha Hde Hf;
    (destruct fuel as [|fuel]; [cbn in Hf; lia|]); cbn [read_all_aux].
  - unfold tellg. destruct Ha as [-> _]. cbn in Hde.
    destruct (N.ltb_spec (N.of_nat (s_pos s)) de); [lia|done].
  - unfold tellg. destruct Ha as [Hsf Ha]. rewrite Hsf. unfold data_of in *.
    cbn [map concat] in Ha, Hde. rewrite length_app in Hde.
    assert (Hpos : (0 < length (entry_bytes e))%nat).
    { unfold entry_bytes, key_bytes. rewrite !length_app, length_le_bytes. lia. }
    destruct (N.ltb_spec (N.of_nat (s_pos s)) de); [|lia].
    unfold entry_bytes in Ha at 1. rewrite <- !app_assoc in Ha.
    destruct (read_key_at _ _ _ Hk (conj Hsf Ha)) as (s' & E & Er & Ha' & _ & Eadv).
    rewrite E, Er. destruct (read_value_at _ _ _ Hv Ha') as [-> Ha''].
    rewrite (IH fuel); [by destruct e|done| |cbn in Hf; lia].
    rewrite Hde, Eadv. unfold advance, entry_bytes. cbn [s_pos]. rewrite length_app. lia.
Qed.

(** ** Opening and querying a written table *)

(** The reader [Open] builds on the file of [entries]. *)
Definition table_reader (path : bytes) (es : list table_entry) : SSTableReader :=
  {| r_path := path; r_file := table_file es; r_index := index_of 0 es;
     r_data_end := N.of_nat (length (data_of es)) |}.

Lemma length_footer o c : length (footer_bytes o c) = kFooterSize.
Proof. done. Qed.

Lemma drop_table_footer es :
  drop (length (table_file es) - kFooterSize) (table_file es) =
  footer_bytes (N.of_nat (length (data_of es))) (size32 es).
Proof.
  unfold table_file. rewrite app_assoc, length_app, length_footer, Nat.add_sub.
  apply drop_app_length.
Qed.

Lemma open_table path es d :
  table_ok es -> d !! path = Some (table_file es) -> Open path d = Ret (table_reader path es).
Proof.
  intros (Hes & Hn & Hd) Hf. unfold Open. rewrite Hf.
  assert (Hlen : (kFooterSize <= length (table_file es))%nat).
  { unfold table_file. rewrite !length_app, length_footer. lia. }
  rewrite decide_False by lia.
  assert (H := seek_at (open_stream (table_file es)) _ _ eq_refl (drop_table_footer es)).
  unfold footer_bytes in H. apply ReadRaw8_at in H as [-> H]; [|done].
  apply ReadRaw4_at in H as [-> H]; [|apply size32_bound].
  rewrite <- (app_nil_r (le_bytes 4 kMagic)) in H.
  apply ReadRaw4_at in H as [-> H]; [|done]. rewrite N.eqb_refl. cbn [negb].
  rewrite size32_small, !Nat2N.id by done.
  set (si := seekg (length (data_of es)) _).
  assert (Hi : at_bytes si (index_bytes (index_of 0 es) ++
            footer_bytes (N.of_nat (length (data_of es))) (size32 es))).
  { split; [done|]. change (drop (length (data_of es)) (table_file es) = index_bytes (index_of 0 es) ++
      footer_bytes (N.of_nat (length (data_of es))) (size32 es)).
    apply drop_app_length. }
  apply read_index_at in Hi; [|by apply index_of_ok].
  rewrite length_index_of in Hi. destruct (read_index _ _) as [index s'].
  cbn in Hi. by subst.
Qed.

(** The first entry at or past a key is the key's own, if it has one. *)
Lemma lower_bound_lookup {V} key (l : list (bytes * V)) :
  strictly_sorted l ->
  match lower_bound key l with
  | (k, v) :: _ => if decide (k = key) then (list_to_map l : gmap _ _) !! key = Some v
                   else (list_to_map l : gmap _ _) !! key = None
  | [] => (list_to_map l : gmap _ _) !! key = None
  end.
Proof.
  induction 1 as [|[k v] l Hs IH Hall]; [done|]. unfold lower_bound in *. cbn [drop_while fst].
  destruct (bytes_ltb k key) eqn:E.
  - assert (k <> key) by (intros ->; by rewrite bytes_ltb_irrefl in E).
    cbn [list_to_map foldr uncurry fst snd]. rewrite lookup_insert_ne by done. exact IH.
  - cbn [list_to_map foldr uncurry fst snd]. case_decide as Hk.
    + subst. by rewrite lookup_insert_eq.
    + rewrite lookup_insert_ne by done. apply not_elem_of_list_to_map.
      rewrite list_elem_of_fmap. intros ([k' v'] & Ek & Hin). cbn in Ek. subst k'.
      rewrite Forall_forall in Hall. specialize (Hall _ Hin). unfold entry_lt in Hall. cbn in Hall.
      destruct (bytes_ltb_total k key Hk) as [H|H]; [congruence|].
      pose proof (bytes_ltb_trans _ _ _ H Hall) as E'. by rewrite bytes_ltb_irrefl in E'.
Qed.

Lemma strictly_sorted_keys {V W} (l : list (bytes * V)) (k : list (bytes * W)) :
  l.*1 = k.*1 -> strictly_sorted l -> strictly_sorted k.
Proof.
  intros E Hs. revert k E. induction Hs as [|e l Hs IH Hall]; intros [|e' k] E; try done; [constructor|].
  injection E as E1 E2. constructor; [by apply IH|].
  rewrite Forall_forall in Hall. apply Forall_forall. intros x Hx. unfold entry_lt in *. rewrite <- E1.
  assert (Hin : x.1 ∈ l.*1) by (change (l.*1 = k.*1) in E2; rewrite E2; by apply list_elem_of_fmap_2).
  apply list_elem_of_fmap in Hin as (y & -> & Hy). by apply Hall.
Qed.

Lemma list_to_map_fmap_snd {V W} (f : V -> W) (l : list (bytes * V)) key :
  (list_to_map (map (fun e => (e.1, f e.2)) l) : gmap _ _) !! key =
  f <$> (list_to_map l : gmap _ _) !! key.
Proof.
  induction l as [|[k v] l IH]; [done|]. cbn. destruct (decide (k = key)) as [->|Hne].
  - by rewrite !lookup_insert_eq.
  - by rewrite !lookup_insert_ne by done.
Qed.

Lemma prefix_range_map {V W} (f : bytes * V -> W) p (l : list (bytes * V)) :
  map (fun e => (e.1, f e)) (prefix_range p l) = prefix_range p (map (fun e => (e.1, f e)) l).
Proof.
  unfold prefix_range, lower_bound.
  assert (Ht : forall l : list (bytes * V),
    map (fun e => (e.1, f e)) (take_while (fun e => starts_with e.1 p) l) =
    take_while (fun e => starts_with e.1 p) (map (fun e => (e.1, f e)) l)).
  { clear l. intros l. induction l as [|e l IH]; [done|]. cbn [take_while map fst].
    destruct (starts_with e.1 p); [|done]. cbn [map]. by rewrite IH. }
  induction l as [|e l IH]; [done|]. cbn [drop_while map fst].
  destruct (bytes_ltb e.1 p); [done|]. apply (Ht (e :: l)).
Qed.

Section reader.
Context (path : bytes) (es : list table_entry).
Context (Hok : table_ok es) (Hs : strictly_sorted es).

Lemma drop_0_table : exists rest, drop 0 (table_file es) = data_of es ++ rest.
Proof. rewrite drop_0. by eexists. Qed.

Lemma index_values_table :
  map (fun e => (e.1, (value_at e.2 (open_stream (table_file es))).1)) (index_of 0 es) = es.
Proof.
  destruct drop_0_table as [rest H]. destruct Hok as (? & _ & ?). by eapply index_values.
Qed.

Lemma reader_Lookup key :
  lookup_view (Lookup key (table_reader path es)) = (list_to_map es : gmap _ _) !! key.
Proof.
  assert (Hi : strictly_sorted (index_of 0 es))
    by (eapply strictly_sorted_keys; [|exact Hs]; by rewrite index_of_keys).
  pose proof (f_equal (fun l => (list_to_map l : gmap _ _) !! key) index_values_table) as E.
  cbn beta in E. rewrite <- E.
  rewrite (list_to_map_fmap_snd (fun o => (value_at o (open_stream (table_file es))).1)).
  unfold Lookup. cbn [table_reader r_index r_file].
  pose proof (lower_bound_lookup key _ Hi) as Hl.
  destruct (lower_bound key (index_of 0 es)) as [|[k o] l]; [by rewrite Hl|].
  case_decide; rewrite Hl; cbn [fmap option_fmap option_map]; [|done].
  by destruct (value_at o _).1.
Qed.

Lemma reader_Scan prefix : Scan prefix (table_reader path es) = with_prefix prefix es.
Proof.
  unfold Scan. cbn [table_reader r_index r_file].
  rewrite (prefix_range_map (fun e => (value_at e.2 (open_stream (table_file es))).1)).
  rewrite index_values_table. by apply prefix_range_filter.
Qed.

Lemma reader_ReadAll : ReadAll (table_reader path es) = es.
Proof.
  unfold ReadAll. destruct Hok as (He & _ & _). destruct drop_0_table as [rest H].
  eapply read_all_at; [done|apply seek_at; [done|exact H]|done|].
  cbn [table_reader r_file]. unfold table_file. rewrite length_app.
  assert (Hlen : forall l, (length l <= length (data_of l))%nat).
  { clear. intros l. induction l as [|e l IH]; [done|]. unfold data_of in *.
    cbn [map concat length]. unfold entry_bytes at 1, key_bytes.
    rewrite !length_app, length_le_bytes. lia. }
  specialize (Hlen es). lia.
Qed.
End reader.

(** ** Properties *)

(** C38: a table written from entries in ascending key order and published by [Finish] is
    opened without error, and the opened table answers [Lookup], [Scan] and [ReadAll] exactly
    as the entries say: a live value, a tombstone or absence per key, the entries with a
    prefix in key order, and all entries. *)
Theorem sstable_round_trip path es d :
  table_ok es -> strictly_sorted es ->
  exists r,
    Open path (foldl fs_apply d (Finish (add_all es (new_writer path)))) = Ret r /\
    (forall key, lookup_view (Lookup key r) = (list_to_map es : gmap _ _) !! key) /\
    (forall prefix, Scan prefix r = with_prefix prefix es) /\
    ReadAll r = es.
Proof.
  intros Hok Hs. exists (table_reader path es). rewrite Finish_add_all. cbn [foldl fs_apply].
  rewrite lookup_insert_eq. cbn [app]. rewrite insert_insert_eq, lookup_insert_eq.
  split_and!.
  - apply open_table; [done|]. apply lookup_insert_eq.
  - intros key. by apply reader_Lookup.
  - intros prefix. by apply reader_Scan.
  - by apply reader_ReadAll.
Qed.

Definition demo_entries : list table_entry :=
  [(str "a", Some (str "1")); (str "b", None); (str "ba", Some [])].

Lemma demo_entries_sorted : strictly_sorted demo_entries.
Proof. repeat constructor. Qed.

Lemma demo_entries_ok : table_ok demo_entries.
Proof. split_and!; [repeat constructor|done|done]. Qed.

Lemma sstable_round_trip_witness :
  exists r,
    Open (str "t.sst") (foldl fs_apply ∅ (Finish (add_all demo_entries (new_writer (str "t.sst")))))
      = Ret r /\
    (forall key, lookup_view (Lookup key r) = (list_to_map demo_entries : gmap _ _) !! key) /\
    (forall prefix, Scan prefix r = with_prefix prefix demo_entries) /\
    ReadAll r = demo_entries.
Proof.
  apply (sstable_round_trip (str "t.sst") demo_entries ∅);
    [exact demo_entries_ok|exact demo_entries_sorted].
Defined.
