(* ===== verification/Engine.v ===== *)
(** * The storage engine ([src/storage/engine.h], [src/storage/engine.cpp])

    The operations are functions on the engine's state, which holds the memtable, the opened
    tables (newest first), the next sequence number and the file system below.  They run in
    the monad [ST] because [SSTableReader::Open] can throw.  [db_path_] is a directory whose
    files are [wal.log], the tables and temporary files; the write-ahead log writes at the
    end of its file (every open and every replay seeks there). *)

From Stdlib Require Import NArith Lia.
From S2P Require Export Wal Memtable SSTable Decimal.

Definition kMemtableFlushThreshold : nat := 4.
Definition kCompactionTriggerCount : nat := 4.

Record StorageEngine := {
  db_path : bytes;
  mem : memtable;
  sstables : list SSTableReader;    (** newest first *)
  next_sstable_seq : N;
  fs : FileSystem;
}.

(** The constructor. *)
Definition new_engine (path : bytes) (f : FileSystem) : StorageEngine :=
  {| db_path := path; mem := ∅; sstables := []; next_sstable_seq := 1; fs := f |}.

Definition set_mem (m : memtable) (e : StorageEngine) : StorageEngine :=
  {| db_path := db_path e; mem := m; sstables := sstables e;
     next_sstable_seq := next_sstable_seq e; fs := fs e |}.
Definition set_sstables (ts : list SSTableReader) (e : StorageEngine) : StorageEngine :=
  {| db_path := db_path e; mem := mem e; sstables := ts;
     next_sstable_seq := next_sstable_seq e; fs := fs e |}.
Definition set_next_seq (n : N) (e : StorageEngine) : StorageEngine :=
  {| db_path := db_path e; mem := mem e; sstables := sstables e;
     next_sstable_seq := n; fs := fs e |}.
Definition emit (ops : list fs_op) (e : StorageEngine) : StorageEngine :=
  {| db_path := db_path e; mem := mem e; sstables := sstables e;
     next_sstable_seq := next_sstable_seq e; fs := fs_run ops (fs e) |}.

(** ** Paths *)

(** [std::setfill('0') << std::setw(6) << seq]. *)
Definition pad6 (s : bytes) : bytes := replicate (6 - length s) "0"%char ++ s.

Definition in_dir (dir name : bytes) : bytes := dir ++ [slash] ++ name.
Definition sst_name (seq : N) : bytes := pad6 (to_string seq) ++ str ".sst".
Definition wal_name : bytes := str "wal.log".

Definition SSTablePath (dir : bytes) (seq : N) : bytes := in_dir dir (sst_name seq).
Definition wal_path (dir : bytes) : bytes := in_dir dir wal_name.

(** ** Reads *)

(** The loop of [Get] over the tables, newest to oldest. *)
Fixpoint get_tables (key : bytes) (ts : list SSTableReader) : option bytes :=
  match ts with
  | [] => None
  | t :: ts' =>
    let r := SSTable.Lookup key t in
    match status r with
    | kFound => Some (value r)
    | kDeleted => None
    | kNotFound => get_tables key ts'
    end
  end.

Definition Get (key : bytes) (e : StorageEngine) : option bytes :=
  let r := Memtable.Lookup key (mem e) in
  match status r with
  | kFound => Some (value r)
  | kDeleted => None
  | kNotFound => get_tables key (sstables e)
  end.

(** [merged.emplace(key, value)]: a no-op when the key is present. *)
Definition emplace (m : memtable) (kv : table_entry) : memtable :=
  match m !! kv.1 with Some _ => m | None => <[kv.1 := kv.2]> m end.

(** [if (value.has_value()) result.emplace_back(key, *value);] over a map in key order. *)
Definition live_entries (m : memtable) : list (bytes * bytes) :=
  omap (fun kv => v ← kv.2; Some (kv.1, v)) (map_entries m).

Definition Scan (prefix : bytes) (e : StorageEngine) : list (bytes * bytes) :=
  let merged := foldl emplace ∅ (Memtable.Scan prefix (mem e)) in
  let merged := foldl (fun m t => foldl emplace m (SSTable.Scan prefix t)) merged (sstables e) in
  live_entries merged.

(** ** Writes *)

Definition MaybeCompact : ST StorageEngine unit :=
  e ← st_get;
  if decide (length (sstables e) < kCompactionTriggerCount)%nat then mret tt
  else
    let merged := foldl (fun m t => foldl emplace m (ReadAll t)) ∅ (sstables e) in
    let old_paths := map r_path (sstables e) in
    let path := SSTablePath (db_path e) (next_sstable_seq e) in
    _ ← st_modify (set_next_seq (u64_add (next_sstable_seq e) 1));
    (* tombstones are not written: [if (!value.has_value()) continue;] *)
    let live := map (fun kv => (kv.1, Some kv.2)) (live_entries merged) in
    _ ← st_modify (emit (Finish (add_all live (new_writer path))));
    e ← st_get;
    reader ← st_lift (SSTable.Open path (files (fs e)));
    _ ← st_modify (set_sstables [reader]);
    st_modify (emit (map FsRemove old_paths)).

Definition FlushMemtable : ST StorageEngine unit :=
  e ← st_get;
  if decide (Memtable.size (mem e) = 0%nat) then mret tt
  else
    let path := SSTablePath (db_path e) (next_sstable_seq e) in
    _ ← st_modify (set_next_seq (u64_add (next_sstable_seq e) 1));
    _ ← st_modify (emit (Finish (add_all (Entries (mem e)) (new_writer path))));
    e ← st_get;
    reader ← st_lift (SSTable.Open path (files (fs e)));
    _ ← st_modify (set_sstables (reader :: sstables e));
    _ ← st_modify (set_mem (Clear (mem e)));
    _ ← st_modify (emit (Wal.Reset (wal_path (db_path e))));
    MaybeCompact.

(** [if (memtable_.size() >= kMemtableFlushThreshold) FlushMemtable();] *)
Definition flush_if_full : ST StorageEngine unit :=
  e ← st_get;
  if decide (kMemtableFlushThreshold <= Memtable.size (mem e))%nat then FlushMemtable else mret tt.

Definition Put (key value : bytes) : ST StorageEngine unit :=
  e ← st_get;
  _ ← st_modify (emit (AppendPut (wal_path (db_path e)) key value));
  _ ← st_modify (set_mem (Memtable.Put key value (mem e)));
  flush_if_full.

Definition Delete (key : bytes) : ST StorageEngine unit :=
  e ← st_get;
  _ ← st_modify (emit (AppendDelete (wal_path (db_path e)) key));
  _ ← st_modify (set_mem (Memtable.Delete key (mem e)));
  flush_if_full.

Definition Reset : ST StorageEngine unit :=
  e ← st_get;
  _ ← st_modify (set_mem (Clear (mem e)));
  let paths := map r_path (sstables e) in
  _ ← st_modify (set_sstables []);
  _ ← st_modify (emit (map FsRemove paths));
  _ ← st_modify (set_next_seq 1);
  st_modify (emit (Wal.Reset (wal_path (db_path e)))).

(** ** Opening *)

(** The directory loop of [Open]: stray temporary files are removed, tables collected. *)
Fixpoint discover (dir : bytes) (names : list bytes) : ST StorageEngine (list (N * bytes)) :=
  match names with
  | [] => mret []
  | name :: rest =>
    if decide (extension name = str ".tmp") then
      _ ← st_modify (emit [FsRemove (in_dir dir name)]); discover dir rest
    else if decide (extension name = str ".sst") then
      seq ← st_lift (stoull (stem name));
      found ← discover dir rest;
      mret ((seq, in_dir dir name) :: found)
    else discover dir rest
  end.

Definition newer (a b : N * bytes) : Prop := (b.1 <= a.1)%N.

#[export] Instance newer_dec a b : Decision (newer a b) := decide (_ <= _)%N.

Definition open_table_step (sp : N * bytes) : ST StorageEngine unit :=
  e ← st_get;
  reader ← st_lift (SSTable.Open sp.2 (files (fs e)));
  _ ← st_modify (set_sstables (sstables e ++ [reader]));
  st_modify (set_next_seq (N.max (next_sstable_seq e) (u64_add sp.1 1))).

(** The replay callback. *)
Definition replay_record (m : memtable) (r : wal_record) : memtable :=
  if is_put (rec_type r) then Memtable.Put (rec_key r) (rec_value r) m
  else Memtable.Delete (rec_key r) m.

Definition Open : ST StorageEngine unit :=
  e ← st_get;
  found ← discover (db_path e) (map fst (directory (files (fs e)) (db_path e)));
  _ ← st_for (merge_sort newer found) open_table_step;
  e ← st_get;
  _ ← st_modify (emit (Wal.Open (wal_path (db_path e)) (files (fs e))));
  e ← st_get;
  let content := default [] (files (fs e) !! wal_path (db_path e)) in
  st_modify (set_mem (foldl replay_record (mem e) (Replay content))).

(** A process starting on the files [d] of a previous run. *)
Definition start (path : bytes) (d : files_t) : outcome unit * StorageEngine :=
  Open (new_engine path {| files := d; journal := [] |}).

(** ** Smoke tests *)

Definition run {A} (m : ST StorageEngine A) : outcome A * StorageEngine :=
  m (start (str "db") ∅).2.

Example put_get_flush_compact :
  let e := (run (_ ← Put (str "a") (str "1"); _ ← Put (str "b") (str "2");
                 _ ← Put (str "c") (str "3"); _ ← Delete (str "a"); Put (str "d") [])).2 in
  (Get (str "a") e, Get (str "b") e, Get (str "d") e, length (sstables e)) =
  (None, Some (str "2"), Some [], 1%nat) /\
  Scan [] e = [(str "b", str "2"); (str "c", str "3"); (str "d", [])].
Proof. vm_compute. done. Qed.
