(* ===== verification/EngineDir.v ===== *)
(** * The files of the engine's directory

    What the engine's file names look like, and the engine's directory as a map from names to
    contents: the effects of an operation on the file system are effects on that map. *)

From Stdlib Require Import NArith Lia.
From S2P Require Export Engine.

(** ** File names *)

Lemma split_ext_snoc s ext rest :
  dot ∉ ext -> s <> [] -> split_ext_aux (rev ext ++ dot :: rev s) rest = (s, dot :: ext ++ rest).
Proof.
  intros Hd Hs. revert rest. induction ext as [|c ext IH] using rev_ind; intros rest.
  - cbn. destruct (rev s) eqn:E; [|by rewrite <- E, rev_involutive].
    destruct Hs. by rewrite <- (rev_involutive s), E.
  - rewrite rev_app_distr. cbn [rev app split_ext_aux].
    apply not_elem_of_app in Hd as [Hd Hc]. rewrite list_elem_of_singleton in Hc.
    destruct (Ascii.eqb_spec c dot) as [->|]; [done|]. rewrite IH by done. by rewrite <- app_assoc.
Qed.

(** A non-empty name with a dot-free extension splits there. *)
Lemma stem_extension s ext :
  dot ∉ ext -> s <> [] -> stem (s ++ dot :: ext) = s /\ extension (s ++ dot :: ext) = dot :: ext.
Proof.
  intros Hd Hs. unfold stem, extension.
  rewrite rev_app_distr. cbn [rev]. rewrite <- app_assoc. cbn [app].
  rewrite split_ext_snoc by done. by rewrite app_nil_r.
Qed.

Lemma digits_not_in c s : all_digits s -> isdigit c = false -> c ∉ s.
Proof.
  intros Hs Hc Hin. unfold all_digits in Hs. rewrite Forall_forall in Hs.
  specialize (Hs c Hin). congruence.
Qed.

Lemma pad6_digits n : all_digits (pad6 (to_string n)) /\ pad6 (to_string n) <> [].
Proof.
  destruct (to_string_digits n) as [Hd Hne]. unfold pad6. split.
  - apply Forall_app. split; [|done]. by apply Forall_replicate.
  - intros E. by apply app_eq_nil in E as [_ E].
Qed.

Lemma sst_name_split n :
  stem (sst_name n) = pad6 (to_string n) /\ extension (sst_name n) = str ".sst".
Proof.
  destruct (pad6_digits n) as [_ Hne]. apply (stem_extension _ (str "sst")); [|done].
  by apply (bool_decide_unpack _).
Qed.

Lemma sst_name_seq n : (n < two64)%N -> stoull (stem (sst_name n)) = Ret n.
Proof.
  intros Hn. rewrite (proj1 (sst_name_split n)). destruct (pad6_digits n) as [Hd Hne].
  assert (Hv : (digits_val 0 (pad6 (to_string n))).1 = n)
    by (unfold pad6; by rewrite digits_val_zeros, digits_val_to_string).
  unfold stoull. rewrite <- (app_nil_r (pad6 _)), stou_digits; rewrite ?Hv; done.
Qed.

Lemma sst_name_inj m n : sst_name m = sst_name n -> m = n.
Proof.
  intros E. assert (Ep : pad6 (to_string m) = pad6 (to_string n)).
  { rewrite <- (proj1 (sst_name_split m)), <- (proj1 (sst_name_split n)). by rewrite E. }
  rewrite <- (digits_val_to_string m), <- (digits_val_to_string n).
  apply (f_equal (fun s => (digits_val 0 s).1)) in Ep. unfold pad6 in Ep.
  by rewrite !digits_val_zeros in Ep.
Qed.

Lemma sst_name_no_slash n : slash ∉ sst_name n.
Proof.
  unfold sst_name. rewrite not_elem_of_app. split.
  - apply digits_not_in; [apply pad6_digits|done].
  - by apply (bool_decide_unpack _).
Qed.

Definition tmp_name (name : bytes) : bytes := name ++ str ".tmp".

Lemma tmp_name_ext name : name <> [] -> extension (tmp_name name) = str ".tmp".
Proof. intros H. apply (stem_extension name (str "tmp")); [|done]. by apply (bool_decide_unpack _). Qed.

Lemma sst_name_nonempty n : sst_name n <> [].
Proof. unfold sst_name. intros E. by apply app_eq_nil in E as [_ E]. Qed.

Lemma sst_name_not_wal n : sst_name n <> wal_name.
Proof. intros E. pose proof (proj2 (sst_name_split n)) as H. by rewrite E in H. Qed.

Lemma sst_name_not_tmp n name : name <> [] -> sst_name n <> tmp_name name.
Proof.
  intros Hn E. pose proof (proj2 (sst_name_split n)) as H. rewrite E, tmp_name_ext in H; done.
Qed.

Lemma wal_name_not_tmp name : name <> [] -> wal_name <> tmp_name name.
Proof. intros Hn E. pose proof (tmp_name_ext name Hn) as H. by rewrite <- E in H. Qed.

Lemma wal_name_no_slash : slash ∉ wal_name.
Proof. by apply (bool_decide_unpack _). Qed.

Lemma tmp_name_no_slash name : slash ∉ name -> slash ∉ tmp_name name.
Proof.
  intros H. unfold tmp_name. rewrite not_elem_of_app. split; [done|].
  by apply (bool_decide_unpack _).
Qed.

Lemma in_dir_inj dir m n : in_dir dir m = in_dir dir n -> m = n.
Proof. unfold in_dir. intros H. apply app_inv_head in H. by injection H. Qed.

Lemma in_dir_tmp dir name : in_dir dir name ++ str ".tmp" = in_dir dir (tmp_name name).
Proof. unfold in_dir, tmp_name. by rewrite <- !app_assoc. Qed.

(** ** The directory as a map *)

Definition dir_of (dir : bytes) (d : files_t) : files_t := list_to_map (directory d dir).

Lemma NoDup_directory dir d : NoDup (directory d dir).*1.
Proof.
  unfold directory. pose proof (NoDup_fst_map_to_list d) as Hnd.
  induction (map_to_list d) as [|[p c] l IH]; cbn in *; [constructor|].
  apply NoDup_cons in Hnd as [Hni Hnd]. specialize (IH Hnd).
  destruct (file_name_in dir p) as [n|] eqn:E; [|exact IH]. cbn. constructor; [|exact IH].
  rewrite list_elem_of_fmap. intros ([n' c'] & En & Hin). cbn in En. subst n'.
  apply list_elem_of_omap in Hin as ([p' c''] & Hin & Eo). cbn in Eo.
  destruct (file_name_in dir p') as [n'|] eqn:E'; [|done]. injection Eo as <- <-.
  apply file_name_in_Some in E as [-> _], E' as [-> _].
  destruct Hni. apply list_elem_of_fmap. by exists (dir ++ [slash] ++ n', c'').
Qed.

Lemma dir_of_lookup dir d name :
  dir_of dir d !! name = (if decide (slash ∈ name) then None else d !! in_dir dir name).
Proof.
  unfold dir_of. apply option_eq. intros c.
  rewrite <- elem_of_list_to_map by apply NoDup_directory. rewrite elem_of_directory.
  unfold in_dir. case_decide; [|by split; [intros [? _]|]]. by split; [intros [_ ?]|].
Qed.

Definition relocate (dir : bytes) (op : fs_op) : fs_op :=
  match op with
  | FsCreate p => FsCreate (in_dir dir p)
  | FsAppend p data => FsAppend (in_dir dir p) data
  | FsRename p q => FsRename (in_dir dir p) (in_dir dir q)
  | FsRemove p => FsRemove (in_dir dir p)
  end.

Definition op_local (op : fs_op) : Prop :=
  match op with
  | FsCreate p | FsAppend p _ | FsRemove p => slash ∉ p
  | FsRename p q => (slash ∉ p) /\ (slash ∉ q)
  end.

Lemma dir_of_insert dir d n c :
  slash ∉ n -> dir_of dir (<[in_dir dir n := c]> d) = <[n := c]> (dir_of dir d).
Proof.
  intros Hn. apply map_eq. intros k. rewrite dir_of_lookup. destruct (decide (k = n)) as [->|Hne].
  - by rewrite decide_False, !lookup_insert_eq.
  - rewrite (lookup_insert_ne _ n) by done. rewrite dir_of_lookup. case_decide; [done|].
    rewrite lookup_insert_ne; [done|]. by intros E%in_dir_inj.
Qed.

Lemma dir_of_delete dir d n : dir_of dir (delete (in_dir dir n) d) = delete n (dir_of dir d).
Proof.
  apply map_eq. intros k. rewrite dir_of_lookup. destruct (decide (k = n)) as [->|Hne].
  - rewrite !lookup_delete_eq. by case_decide.
  - rewrite (lookup_delete_ne _ n) by done. rewrite dir_of_lookup. case_decide; [done|].
    rewrite lookup_delete_ne; [done|]. by intros E%in_dir_inj.
Qed.

Lemma dir_of_lookup_local dir d n : slash ∉ n -> dir_of dir d !! n = d !! in_dir dir n.
Proof. intros H. rewrite dir_of_lookup. by rewrite decide_False. Qed.

Lemma dir_of_apply dir d op :
  op_local op -> dir_of dir (fs_apply d (relocate dir op)) = fs_apply (dir_of dir d) op.
Proof.
  intros Hop. destruct op as [p|p data|p q|p]; cbn [relocate fs_apply op_local] in *.
  - by apply dir_of_insert.
  - rewrite dir_of_lookup_local by done. destruct (d !! in_dir dir p); [|done]. by apply dir_of_insert.
  - destruct Hop as [Hp Hq]. rewrite dir_of_lookup_local by done.
    destruct (d !! in_dir dir p); [|done]. by rewrite dir_of_insert, dir_of_delete.
  - apply dir_of_delete.
Qed.

Lemma dir_of_run dir d ops :
  Forall op_local ops ->
  dir_of dir (foldl fs_apply d (map (relocate dir) ops)) = foldl fs_apply (dir_of dir d) ops.
Proof.
  intros H. revert d. induction H as [|op ops Hop Hops IH]; intros d; [done|].
  cbn [map foldl]. by rewrite IH, dir_of_apply.
Qed.

(** What a crash leaves of the directory is what it would leave of the map. *)
Lemma dir_of_crash dir d ops d' :
  Forall op_local ops -> crash_states d (map (relocate dir) ops) d' ->
  crash_states (dir_of dir d) ops (dir_of dir d').
Proof.
  intros H. revert d. induction H as [|op ops Hop Hops IH]; intros d Hc; cbn [map] in Hc.
  - inversion Hc; subst. constructor.
  - inversion Hc as [|?|? p data n ? |? ? ? ? Hr]; subst.
    + constructor.
    + destruct op as [?|q data'|? ?|?]; try done. cbn [relocate] in *. simplify_eq.
      pose proof (dir_of_apply dir d (FsAppend q (take n data')) Hop) as E. cbn [relocate] in E.
      rewrite E. constructor.
    + apply crash_after. rewrite <- dir_of_apply by done. by apply IH.
Qed.
