(* ===== verification/Store.v ===== *)
(** * The interface of a key-value store

    What the storage engine promises to the layers above it: the operations, and the laws
    that relate them to an abstract map from keys to values.  A store has finite room (lengths
    are 32-bit fields on disk): [kv_ok b s] says that [s] is in a good state and has room for
    [b] more bytes of entries. *)

From Stdlib Require Import NArith Lia.
From S2P Require Export Prelude.

Class KVStore (S : Type) := {
  kv_get : bytes -> S -> option bytes;
  kv_scan : bytes -> S -> list (bytes * bytes);
  kv_put : bytes -> bytes -> ST S unit;
  kv_delete : bytes -> ST S unit;
  kv_reset : ST S unit;
}.

(** The bytes an entry takes on disk. *)
Definition entry_cost (key : bytes) (value : option bytes) : N :=
  N.of_nat (8 + length key + length (default [] value)).

Class KVStoreLaws (S : Type) `{KVStore S} := {
  kv_contents : S -> gmap (list ascii) (list ascii);
  kv_ok : N -> S -> Prop;
  kv_ok_less b b' s : kv_ok b s -> (b' <= b)%N -> kv_ok b' s;
  kv_get_spec b s key : kv_ok b s -> kv_get key s = kv_contents s !! key;
  kv_scan_spec b s prefix :
    kv_ok b s -> kv_scan prefix s = with_prefix prefix (map_entries (kv_contents s));
  kv_put_spec b s key value :
    kv_ok (b + entry_cost key (Some value)) s ->
    exists s', kv_put key value s = (Ret tt, s') /\ kv_ok b s' /\
      kv_contents s' = <[key := value]> (kv_contents s);
  kv_delete_spec b s key :
    kv_ok (b + entry_cost key None) s ->
    exists s', kv_delete key s = (Ret tt, s') /\ kv_ok b s' /\
      kv_contents s' = delete key (kv_contents s);
  kv_reset_spec b s :
    kv_ok b s ->
    exists s', kv_reset s = (Ret tt, s') /\ kv_ok b s' /\ kv_contents s' = ∅;
}.

(** A store on files: what a new process makes of those that [s] has written holds the same data. *)
Class KVRecovery (S : Type) `{KVStoreLaws S} := {
  kv_recovers : relation S;
  kv_recovers_spec b s s' : kv_recovers s s' -> kv_ok b s -> kv_ok b s' /\ kv_contents s' = kv_contents s;
}.

(** ** The reference implementation: the map itself *)

Section map_store.
Abbreviation map_t := (gmap (list ascii) (list ascii)).

#[export] Instance map_KVStore : KVStore map_t := {|
  kv_get key m := m !! key;
  kv_scan prefix m := with_prefix prefix (map_entries m);
  kv_put key value := st_modify (<[key := value]>);
  kv_delete key := st_modify (delete key);
  kv_reset := st_modify (fun _ => ∅);
|}.

#[export] Program Instance map_KVStoreLaws : KVStoreLaws map_t := {|
  kv_contents m := m;
  kv_ok _ _ := True;
|}.
Next Obligation. done. Qed.
Next Obligation. done. Qed.
Next Obligation. done. Qed.
Next Obligation. intros ? m key value _. by eexists. Qed.
Next Obligation. intros ? m key _. by eexists. Qed.
Next Obligation. intros ? m _. by eexists. Qed.

#[export] Program Instance map_KVRecovery : KVRecovery map_t := {| kv_recovers := eq |}.
Next Obligation. by intros b m m' <-. Qed.
End map_store.

(** ** Sequences of writes *)

Inductive kv_op :=
| OpPut (key value : bytes)
| OpDelete (key : bytes)
| OpReset.

Definition op_cost (op : kv_op) : N :=
  match op with
  | OpPut key value => entry_cost key (Some value)
  | OpDelete key => entry_cost key None
  | OpReset => 0
  end.

Definition ops_cost (ops : list kv_op) : N := foldr (fun op n => op_cost op + n)%N 0%N ops.

Definition model_op (m : gmap (list ascii) (list ascii)) (op : kv_op) :=
  match op with
  | OpPut key value => <[key := value]> m
  | OpDelete key => delete key m
  | OpReset => ∅
  end.

Section ops.
Context {S : Type} `{KVStoreLaws S}.

Definition run_op (op : kv_op) : ST S unit :=
  match op with
  | OpPut key value => kv_put key value
  | OpDelete key => kv_delete key
  | OpReset => kv_reset
  end.

Lemma run_op_spec b s op :
  kv_ok (b + op_cost op) s ->
  exists s', run_op op s = (Ret tt, s') /\ kv_ok b s' /\
    kv_contents s' = model_op (kv_contents s) op.
Proof.
  destruct op as [k v|k|]; cbn [run_op op_cost model_op]; intros Hok.
  - by apply kv_put_spec.
  - by apply kv_delete_spec.
  - rewrite N.add_0_r in Hok. by apply kv_reset_spec.
Qed.

(** A store with room for all of a sequence of writes does what a map does. *)
Lemma run_ops_spec b s ops :
  kv_ok (b + ops_cost ops) s ->
  exists s', st_for ops run_op s = (Ret tt, s') /\ kv_ok b s' /\
    kv_contents s' = foldl model_op (kv_contents s) ops.
Proof.
  revert s. induction ops as [|op ops IH]; intros s Hok; cbn [ops_cost foldr] in Hok.
  - rewrite N.add_0_r in Hok. by exists s.
  - destruct (run_op_spec (b + ops_cost ops) s op) as (s1 & E & Hok1 & Hc).
    { eapply kv_ok_less; [exact Hok|]. unfold ops_cost. lia. }
    destruct (IH s1 Hok1) as (s2 & E2 & Hok2 & Hc2). exists s2. cbn [st_for foldl].
    rewrite (run_bind _ _ _ _ _ E), <- Hc. done.
Qed.
End ops.
