(* ===== verification/EngineSpec.v ===== *)
(** * The engine refines a map

    The abstract state of an engine is the map [contents] of its live keys.  [engine_rep]
    relates an engine to its tables and to the records of its log, on disk and in memory; the
    operations preserve it and act on [contents] as the operations of a map. *)

From Stdlib Require Import NArith Lia.
From S2P Require Export EngineDir Store.

(** ** What the layers say *)

Definition table_view (r : SSTableReader) : memtable := list_to_map (ReadAll r).

(** Newest layer first: the first layer with an entry for a key decides. *)
Definition tables_view (ts : list SSTableReader) : memtable :=
  foldr (fun r m => table_view r ∪ m) ∅ ts.

Definition view (e : StorageEngine) : memtable := mem e ∪ tables_view (sstables e).

Definition live (m : memtable) : gmap bytes bytes := omap id m.
Definition contents (e : StorageEngine) : gmap bytes bytes := live (view e).

Lemma live_lookup m k : live m !! k = m !! k ≫= id.
Proof. apply lookup_omap. Qed.

Lemma live_insert m k v : live (<[k := Some v]> m) = <[k := v]> (live m).
Proof. apply map_eq. intros i. rewrite live_lookup, !lookup_insert, live_lookup. by case_decide. Qed.

Lemma live_insert_None m k : live (<[k := None]> m) = delete k (live m).
Proof.
  apply map_eq. intros i. rewrite live_lookup, lookup_insert, lookup_delete, live_lookup.
  by case_decide.
Qed.

Lemma live_entries_map m : live_entries m = map_entries (live m).
Proof.
  apply map_entries_unique.
  - unfold live_entries. pose proof (map_entries_sorted m) as Hs.
    induction Hs as [|[k v] l Hs IH Hall]; cbn; [constructor|].
    destruct v as [v|]; cbn; [|exact IH]. constructor; [exact IH|].
    apply Forall_forall. intros [k' v'] Hin.
    apply list_elem_of_omap in Hin as ([k2 [v2|]] & Hin & Eo); [|done]. injection Eo as -> ->.
    rewrite Forall_forall in Hall. exact (Hall _ Hin).
  - intros k v. unfold live_entries. rewrite list_elem_of_omap, live_lookup. split.
    + intros ([k2 [v2|]] & Hin & Eo); [|done]. injection Eo as -> ->.
      apply elem_of_map_entries in Hin. by rewrite Hin.
    + intros H. destruct (m !! k) as [[w|]|] eqn:E; [|done..]. injection H as ->.
      exists (k, Some v). by rewrite elem_of_map_entries.
Qed.

(** ** Merging with [emplace] *)

Lemma emplace_union m l : foldl emplace m l = m ∪ list_to_map l.
Proof.
  revert m. induction l as [|[k v] l IH]; intros m; cbn; [by rewrite (right_id_L ∅ (∪))|].
  rewrite IH. apply map_eq. intros i. rewrite !lookup_union, lookup_insert. unfold emplace; cbn.
  destruct (m !! k) as [w|] eqn:E.
  - case_decide as Hd; [subst; by rewrite E; destruct (list_to_map l !! i)|done].
  - rewrite lookup_insert. case_decide as Hd; [|done]. subst. rewrite E.
    by destruct (list_to_map l !! i).
Qed.

Lemma merge_tables m ts :
  foldl (fun m t => foldl emplace m (ReadAll t)) m ts = m ∪ tables_view ts.
Proof.
  revert m. induction ts as [|t ts IH]; intros m; cbn; [by rewrite (right_id_L ∅ (∪))|].
  rewrite IH, emplace_union. by rewrite (assoc_L (∪)).
Qed.

(** The entries of a map whose keys have a prefix. *)
Definition keys_with {V} (p : bytes) (m : gmap bytes V) : gmap bytes V :=
  filter (fun kv => starts_with kv.1 p = true) m.

Lemma keys_with_lookup {V} (p : bytes) (m : gmap bytes V) (k : bytes) :
  keys_with p m !! k = if starts_with k p then m !! k else None.
Proof.
  unfold keys_with. rewrite map_lookup_filter. destruct (m !! k); cbn; [|by case_match].
  destruct (starts_with k p) eqn:E; [by rewrite option_guard_True|by rewrite option_guard_False].
Qed.

Lemma keys_with_union {V} (p : bytes) (m1 m2 : gmap bytes V) :
  keys_with p (m1 ∪ m2) = keys_with p m1 ∪ keys_with p m2.
Proof.
  apply map_eq. intros k. rewrite lookup_union, !keys_with_lookup, lookup_union. by case_match.
Qed.

Lemma with_prefix_to_map {V} (p : bytes) (l : list (bytes * V)) :
  (list_to_map (with_prefix p l) : gmap _ _) = keys_with p (list_to_map l).
Proof.
  apply map_eq. intros k. rewrite keys_with_lookup. induction l as [|[i v] l IH].
  - cbn. rewrite lookup_empty. by case_match.
  - unfold with_prefix in *. destruct (starts_with i p) eqn:E.
    + rewrite filter_cons_True by done. cbn. rewrite !lookup_insert.
      case_decide; [subst; by rewrite E|done].
    + rewrite filter_cons_False by (cbn; congruence). cbn. rewrite lookup_insert.
      case_decide; [subst; by rewrite E in *|done].
Qed.

Lemma with_prefix_entries {V} (p : bytes) (m : gmap bytes V) :
  with_prefix p (map_entries m) = map_entries (keys_with p m).
Proof.
  apply map_entries_unique; [apply strictly_sorted_filter, map_entries_sorted|].
  intros k v. unfold with_prefix. rewrite list_elem_of_filter, elem_of_map_entries, keys_with_lookup.
  cbn. destruct (starts_with k p); split; [by intros [_ ?]|done|by intros [? _]|done].
Qed.

Lemma live_keys_with (p : bytes) (m : memtable) : live (keys_with p m) = keys_with p (live m).
Proof.
  apply map_eq. intros k. rewrite live_lookup, !keys_with_lookup, live_lookup. by case_match.
Qed.

(** ** Room *)

(** The bytes a table holding all of a map takes. *)
Definition used (m : memtable) : N := N.of_nat (length (data_of (map_entries m))).

Lemma length_data_of l : length (data_of l) = sum_list_with (fun e => length (entry_bytes e)) l.
Proof.
  unfold data_of. induction l as [|e l IH]; cbn; [done|]. by rewrite length_app, IH.
Qed.

Lemma used_to_list m :
  used m = N.of_nat (sum_list_with (fun e => length (entry_bytes e)) (map_to_list m)).
Proof. unfold used. rewrite length_data_of. f_equal. by rewrite map_entries_perm. Qed.

Lemma length_entry_bytes e : N.of_nat (length (entry_bytes e)) = entry_cost e.1 e.2.
Proof.
  unfold entry_bytes, key_bytes, value_bytes, entry_cost.
  destruct e as [k [v|]]; cbn [fst snd default]; rewrite !length_app, !length_le_bytes; cbn; lia.
Qed.

Lemma sum_list_with_submseteq {A} (f : A -> nat) l k :
  l ⊆+ k -> (sum_list_with f l <= sum_list_with f k)%nat.
Proof. intros [l' ->]%submseteq_Permutation. rewrite sum_list_with_app. lia. Qed.

Lemma used_mono m1 m2 : m1 ⊆ m2 -> (used m1 <= used m2)%N.
Proof.
  intros H. rewrite !used_to_list.
  pose proof (sum_list_with_submseteq (fun e => length (entry_bytes e)) _ _
    (map_to_list_submseteq _ _ H)). lia.
Qed.

Lemma used_insert k v m : (used (<[k := v]> m) <= used m + entry_cost k v)%N.
Proof.
  rewrite <- insert_delete_eq, used_to_list, map_to_list_insert by apply lookup_delete_eq.
  pose proof (used_mono _ _ (delete_subseteq m k)) as H. rewrite !used_to_list in *. cbn [sum_list_with].
  pose proof (length_entry_bytes (k, v)) as E. cbn [fst snd] in E. lia.
Qed.

Lemma used_table_ok m : (used m < kTombstone)%N -> table_ok (map_entries m).
Proof.
  unfold used. set (l := map_entries m). clearbody l. clear m. intros Hu.
  assert (Hlen : (length l <= length (data_of l))%nat).
  { clear. rewrite length_data_of. induction l as [|e l IH]; cbn [sum_list_with length]; [done|].
    pose proof (length_entry_bytes e) as E. unfold entry_cost in E. lia. }
  unfold kTombstone in *. split_and!; [|unfold fits32, two32; lia|unfold two64; lia].
  clear Hlen. induction l as [|e l IH]; [constructor|].
  unfold data_of in *. cbn [map concat] in Hu. rewrite length_app in Hu.
  pose proof (length_entry_bytes e) as E. unfold entry_cost in E. constructor; [|apply IH; lia].
  unfold entry_ok, fits32, two32, kTombstone.
  destruct e as [k [v|]]; cbn [fst snd from_option id] in E |- *; (split; [lia|first [done|lia]]).
Qed.

(** ** The representation *)

(** A table of the ghost state: its sequence number and its entries. *)
Definition gtable : Type := N * list table_entry.

Definition reader_of (dir : bytes) (t : gtable) : SSTableReader :=
  table_reader (SSTablePath dir t.1) t.2.

Definition table_wf (t : gtable) : Prop := table_ok t.2 /\ strictly_sorted t.2.

(** The directory of an engine with tables [ts] and log contents [wal]. *)
Definition table_files (ts : list gtable) : files_t :=
  list_to_map (map (fun t => (sst_name t.1, table_file t.2)) ts).
Definition engine_files (ts : list gtable) (wal : bytes) : files_t :=
  <[wal_name := wal]> (table_files ts).

Definition newest_first (ts : list gtable) : Prop := StronglySorted (fun a b => b.1 < a.1)%N ts.

Record engine_rep (e : StorageEngine) (ts : list gtable) (recs : list wal_record) : Prop := {
  rep_readers : sstables e = map (reader_of (db_path e)) ts;
  rep_tables : Forall table_wf ts;
  rep_order : newest_first ts;
  rep_seq : Forall (fun t => t.1 < next_sstable_seq e)%N ts;
  rep_seq64 : (1 <= next_sstable_seq e < two64)%N;
  rep_dir : dir_of (db_path e) (files (fs e)) = engine_files ts (wal_bytes recs);
  rep_recs : Forall record_ok recs;
  rep_mem : mem e = foldl replay_record ∅ recs;
}.

Definition layers (ts : list gtable) : memtable := foldr (fun t m => list_to_map t.2 ∪ m) ∅ ts.

Lemma tables_view_layers dir ts :
  Forall table_wf ts -> tables_view (map (reader_of dir) ts) = layers ts.
Proof.
  induction 1 as [|t ts [Hok Hs] Hts IH]; [done|]. unfold tables_view, layers in *.
  cbn [map foldr]. rewrite IH. unfold table_view. unfold reader_of at 1. by rewrite reader_ReadAll.
Qed.

Lemma rep_view e ts recs : engine_rep e ts recs -> view e = mem e ∪ layers ts.
Proof.
  intros H. unfold view. rewrite (rep_readers _ _ _ H).
  by rewrite tables_view_layers by apply H.
Qed.

Lemma table_files_None ts name :
  (forall t, t ∈ ts -> sst_name t.1 <> name) -> table_files ts !! name = None.
Proof.
  intros H. unfold table_files. apply not_elem_of_list_to_map. rewrite list_elem_of_fmap.
  intros ([n c] & En & Hin). apply list_elem_of_fmap in Hin as (t & Et & Hin). injection Et as -> ->.
  by eapply H.
Qed.

Lemma sst_in_dir dir n : SSTablePath dir n = in_dir dir (sst_name n).
Proof. done. Qed.

(** Writing a new table under a fresh sequence number. *)
Lemma finish_files n es ts wal :
  (forall t, t ∈ ts -> t.1 <> n) ->
  foldl fs_apply (engine_files ts wal)
    [FsCreate (tmp_name (sst_name n)); FsAppend (tmp_name (sst_name n)) (table_file es);
     FsRename (tmp_name (sst_name n)) (sst_name n)] = engine_files ((n, es) :: ts) wal.
Proof.
  intros Hn. cbn [foldl fs_apply].
  rewrite lookup_insert_eq. cbn [app]. rewrite insert_insert_eq, lookup_insert_eq, delete_insert_eq.
  pose proof (sst_name_nonempty n) as Hne.
  rewrite delete_id.
  - unfold engine_files, table_files. cbn [map list_to_map foldr uncurry fst snd].
    rewrite insert_insert_ne; [done|]. intros E. by destruct (sst_name_not_wal n).
  - unfold engine_files. rewrite lookup_insert_ne by (apply wal_name_not_tmp; done).
    apply table_files_None. intros t _ E. by eapply sst_name_not_tmp.
Qed.

(** Removing the files of all tables but the first [ts1]. *)
Lemma remove_files ts1 ts2 wal :
  newest_first (ts1 ++ ts2) ->
  foldl fs_apply (engine_files (ts1 ++ ts2) wal) (map (fun t => FsRemove (sst_name t.1)) ts2) =
  engine_files ts1 wal.
Proof.
  revert ts1. induction ts2 as [|t ts2 IH]; intros ts1 Ho; [by rewrite app_nil_r|].
  cbn [map foldl fs_apply].
  assert (Ho' : newest_first (ts1 ++ ts2)).
  { unfold newest_first in *. rewrite StronglySorted_app in *. destruct Ho as (H1 & H2 & H3).
    apply StronglySorted_cons in H3 as [? ?]. split_and!; [|done|done].
    intros a b Ha Hb. apply H1; [done|]. by right. }
  rewrite <- (IH ts1 Ho'). f_equal. unfold engine_files.
  rewrite delete_insert_ne by apply sst_name_not_wal. f_equal.
  apply map_eq. intros name. destruct (decide (name = sst_name t.1)) as [->|Hne].
  - rewrite lookup_delete_eq. symmetry. apply table_files_None. intros t' Ht' E%sst_name_inj.
    unfold newest_first in Ho. rewrite StronglySorted_app in Ho. destruct Ho as (H1 & _ & H3).
    apply StronglySorted_cons in H3 as [H3 _]. rewrite Forall_forall in H3.
    apply elem_of_app in Ht' as [Ht'|Ht'].
    + specialize (H1 t' t Ht' ltac:(left)). lia.
    + specialize (H3 t' Ht'). lia.
  - rewrite lookup_delete_ne by done. unfold table_files. clear - Hne. induction ts1 as [|t1 ts1 IH]; cbn.
    + by rewrite lookup_insert_ne.
    + rewrite !lookup_insert. by case_decide.
Qed.

(** ** Steps of the operations *)

(** The effects of publishing a table, relative to the directory. *)
Definition publish_ops (n : N) (es : list table_entry) : list fs_op :=
  [FsCreate (tmp_name (sst_name n)); FsAppend (tmp_name (sst_name n)) (table_file es);
   FsRename (tmp_name (sst_name n)) (sst_name n)].

Lemma Finish_publish dir n es :
  Finish (add_all es (new_writer (SSTablePath dir n))) = map (relocate dir) (publish_ops n es).
Proof. rewrite Finish_add_all. by rewrite sst_in_dir, in_dir_tmp. Qed.

Lemma publish_local n es : Forall op_local (publish_ops n es).
Proof.
  pose proof (sst_name_no_slash n) as H. pose proof (tmp_name_no_slash _ H).
  repeat constructor; done.
Qed.

Lemma emit_dir e ops :
  Forall op_local ops ->
  dir_of (db_path e) (files (fs (emit (map (relocate (db_path e)) ops) e))) =
  foldl fs_apply (dir_of (db_path e) (files (fs e))) ops.
Proof. intros H. cbn [emit fs]. rewrite fs_run_files. by apply dir_of_run. Qed.

(** A published table opens as the reader of its entries. *)
Lemma open_published dir n es d ts wal :
  table_ok es -> dir_of dir d = engine_files ((n, es) :: ts) wal ->
  SSTable.Open (SSTablePath dir n) d = Ret (reader_of dir (n, es)).
Proof.
  intros Hok Hd. apply open_table; [done|].
  rewrite sst_in_dir, <- dir_of_lookup_local, Hd by apply sst_name_no_slash.
  unfold engine_files, table_files. rewrite lookup_insert_ne by apply not_eq_sym, sst_name_not_wal.
  cbn. apply lookup_insert_eq.
Qed.

(** Publishing a table and opening it, the common part of a flush and a compaction. *)
Lemma publish_open e ts wal es e1 :
  dir_of (db_path e) (files (fs e)) = engine_files ts wal ->
  Forall (fun t => t.1 < next_sstable_seq e)%N ts -> table_ok es ->
  e1 = emit (Finish (add_all es (new_writer (SSTablePath (db_path e) (next_sstable_seq e)))))
         (set_next_seq (u64_add (next_sstable_seq e) 1) e) ->
  dir_of (db_path e) (files (fs e1)) = engine_files ((next_sstable_seq e, es) :: ts) wal /\
  SSTable.Open (SSTablePath (db_path e) (next_sstable_seq e)) (files (fs e1)) =
    Ret (reader_of (db_path e) (next_sstable_seq e, es)).
Proof.
  intros Hd Hseq Hok ->. set (n := next_sstable_seq e) in *.
  assert (E : dir_of (db_path e) (files (fs (emit (Finish (add_all es (new_writer
    (SSTablePath (db_path e) n)))) (set_next_seq (u64_add n 1) e)))) = engine_files ((n, es) :: ts) wal).
  { rewrite Finish_publish. pose proof (emit_dir (set_next_seq (u64_add n 1) e) _ (publish_local n es)) as Ee.
    cbn [db_path set_next_seq fs] in Ee. rewrite Ee, Hd. apply finish_files.
    intros t Ht. rewrite Forall_forall in Hseq. specialize (Hseq t Ht). lia. }
  split; [exact E|]. by eapply open_published.
Qed.

Lemma u64_add_small a b : (a + b < two64)%N -> u64_add a b = (a + b)%N.
Proof. intros H. unfold u64_add, u64. by apply N.mod_small. Qed.

Lemma newest_first_cons n es ts :
  Forall (fun t => t.1 < n)%N ts -> newest_first ts -> newest_first ((n, es) :: ts).
Proof. intros H Ho. by constructor. Qed.

Lemma seq_weaken n ts : Forall (fun t : gtable => t.1 < n)%N ts -> Forall (fun t => t.1 < n + 1)%N ts.
Proof. intros H. eapply Forall_impl; [exact H|]. cbn. intros. lia. Qed.

Lemma live_entries_table m :
  map (fun kv => (kv.1, Some kv.2)) (live_entries m) = map_entries (Some <$> live m).
Proof.
  rewrite live_entries_map. apply map_entries_unique.
  - eapply strictly_sorted_keys; [|apply (map_entries_sorted (live m))].
    rewrite <- list_fmap_compose. done.
  - intros k v. rewrite lookup_fmap, list_elem_of_fmap. split.
    + intros ([k' v'] & E & Hin). apply elem_of_map_entries in Hin. cbn in E. simplify_eq. by rewrite Hin.
    + intros H. apply fmap_Some in H as (w & Hw & ->). exists (k, w). by rewrite elem_of_map_entries.
Qed.

Lemma live_again m : live (Some <$> live m) = live m.
Proof.
  apply map_eq. intros k. rewrite live_lookup, lookup_fmap. by destruct (live m !! k).
Qed.

Lemma live_submap m : Some <$> live m ⊆ m.
Proof.
  apply map_subseteq_spec. intros k v. rewrite lookup_fmap, live_lookup.
  destruct (m !! k) as [[w|]|]; by intros [= <-].
Qed.

(** ** Compaction and flush *)

(** What an operation that only reorganises the layers does. *)
Definition reorganised (e e' : StorageEngine) : Prop :=
  db_path e' = db_path e /\ contents e' = contents e /\ view e' ⊆ view e /\
  (next_sstable_seq e' <= next_sstable_seq e + 2)%N.

(** The durable effects of a compaction, relative to the directory: what publishes the
    compacted table, and the removal of the tables it replaces. *)
Inductive compacts (n : N) (ts : list gtable) : list fs_op -> list fs_op -> Prop :=
| compacts_no : compacts n ts [] []
| compacts_yes es :
    table_wf (n, es) -> live (list_to_map es ∪ layers ts) = live (layers ts) ->
    compacts n ts (publish_ops n es) (map (fun t => FsRemove (sst_name t.1)) ts).

(** The durable effects of a flush: everything up to the removals of a compaction, and
    these. *)
Inductive flushes (n : N) (ts : list gtable) (m : memtable) : list fs_op -> list fs_op -> Prop :=
| flushes_no : flushes n ts m [] []
| flushes_yes es pub rm :
    table_wf (n, es) -> list_to_map es = m -> compacts (n + 1) ((n, es) :: ts) pub rm ->
    flushes n ts m (publish_ops n es ++ [FsCreate wal_name] ++ pub) rm.

Definition performed (e e' : StorageEngine) (ops : list fs_op) : Prop :=
  journal (fs e') = journal (fs e) ++ map (relocate (db_path e)) ops.

Lemma live_fill m : live ((Some <$> live m) ∪ m) = live m.
Proof.
  apply map_eq. intros k. rewrite live_lookup, lookup_union, lookup_fmap, !live_lookup.
  by destruct (m !! k) as [[v|]|].
Qed.

Lemma remove_ops dir ts :
  map FsRemove (map r_path (map (reader_of dir) ts)) =
  map (relocate dir) (map (fun t => FsRemove (sst_name t.1)) ts).
Proof. by rewrite !map_map. Qed.

Lemma remove_local ts : Forall op_local (map (fun t : gtable => FsRemove (sst_name t.1)) ts).
Proof.
  apply Forall_forall. intros op Hop. apply list_elem_of_fmap in Hop as (t & -> & _).
  apply sst_name_no_slash.
Qed.

(** What publishing a table does: the state right after it, and its effect on the directory. *)
Definition published es e : StorageEngine :=
  emit (Finish (add_all es (new_writer (SSTablePath (db_path e) (next_sstable_seq e))))) (set_next_seq (u64_add (next_sstable_seq e) 1) e).

Lemma published_frame es e : (next_sstable_seq e + 1 < two64)%N ->
  db_path (published es e) = db_path e /\ mem (published es e) = mem e /\ sstables (published es e) = sstables e /\
  next_sstable_seq (published es e) = (next_sstable_seq e + 1)%N /\
  performed e (published es e) (publish_ops (next_sstable_seq e) es).
Proof.
  intros Hseq. split_and!; [done..|by apply u64_add_small|]. unfold performed, published. cbn [emit set_next_seq fs db_path].
  by rewrite fs_run_journal, Finish_publish.
Qed.

Lemma table_view_reader dir n es : table_ok es -> table_view (reader_of dir (n, es)) = list_to_map es.
Proof. intros Hok. unfold table_view, reader_of. by rewrite reader_ReadAll by done. Qed.

(** The state after a compaction into the table [es], the old tables removed. *)
Definition compacted_to n es e (e1 : StorageEngine) : StorageEngine :=
  emit (map FsRemove (map r_path (sstables e))) (set_sstables [reader_of (db_path e) (n, es)] e1).

Lemma compacted_rep e ts es (n := next_sstable_seq e) (e' := compacted_to n es e (published es e)) :
  engine_rep e ts [] -> table_wf (n, es) -> (n + 1 < two64)%N ->
  engine_rep e' [(n, es)] [] /\ performed e e' (publish_ops n es ++ map (fun t => FsRemove (sst_name t.1)) ts).
Proof.
  intros Hrep Hwf Hseq. destruct (published_frame es e Hseq) as (Hp1 & Hm1 & _ & Hn1 & Hj1).
  destruct (publish_open e ts (wal_bytes []) es _ (rep_dir _ _ _ Hrep) (rep_seq _ _ _ Hrep) (proj1 Hwf) eq_refl) as [Hdir _].
  change (emit _ _) with (published es e) in Hdir. unfold e', compacted_to. split; [constructor|].
  all: cbn [emit set_sstables sstables db_path next_sstable_seq set_next_seq fs mem]; rewrite ?Hp1, ?Hm1, ?Hn1.
  - done.
  - by constructor.
  - repeat constructor.
  - repeat constructor. cbn. lia.
  - lia.
  - rewrite (rep_readers _ _ _ Hrep), remove_ops, fs_run_files, dir_of_run, Hdir by apply remove_local.
    apply (remove_files [(n, es)] ts). cbn [app]. apply newest_first_cons; apply Hrep.
  - constructor.
  - apply Hrep.
  - unfold performed. cbn [emit set_sstables fs].
    by rewrite fs_run_journal, Hj1, (rep_readers _ _ _ Hrep), remove_ops, map_app, app_assoc.
Qed.

Lemma MaybeCompact_spec e ts :
  engine_rep e ts [] -> (used (view e) < kTombstone)%N ->
  (next_sstable_seq e + 1 < two64)%N ->
  exists e' ts' pub rm, MaybeCompact e = (Ret tt, e') /\ engine_rep e' ts' [] /\
    db_path e' = db_path e /\ contents e' = contents e /\ view e' ⊆ view e /\
    (next_sstable_seq e' <= next_sstable_seq e + 1)%N /\
    compacts (next_sstable_seq e) ts pub rm /\ performed e e' (pub ++ rm).
Proof.
  intros Hrep Hused Hseq. unfold MaybeCompact. st_steps.
  case_decide as Hc.
  { exists e, ts, [], []. unfold performed. cbn [map app]. rewrite app_nil_r.
    split_and!; try done; [lia|constructor]. }
  assert (Hmem : mem e = ∅) by apply Hrep.
  set (es := map (fun kv => (kv.1, Some kv.2)) _).
  assert (Ees : es = map_entries (Some <$> live (view e))).
  { unfold es. rewrite live_entries_table, merge_tables. unfold view. by rewrite Hmem. }
  assert (Hwf : table_wf (next_sstable_seq e, es)).
  { split; cbn [snd]; rewrite Ees; [|apply map_entries_sorted]. apply used_table_ok. pose proof (used_mono _ _ (live_submap (view e))). lia. }
  st_steps.
  destruct (publish_open e ts (wal_bytes []) es _ (rep_dir _ _ _ Hrep) (rep_seq _ _ _ Hrep) (proj1 Hwf) eq_refl) as [_ Hopen].
  rewrite Hopen. st_steps. destruct (compacted_rep e ts es Hrep Hwf Hseq) as [Hrep' Hj].
  destruct (published_frame es e Hseq) as (_ & _ & _ & Hn1 & _).
  eexists (compacted_to _ es e (published es e)), _, _, _. split; [reflexivity|].
  assert (Hv : view (compacted_to (next_sstable_seq e) es e (published es e)) = Some <$> live (view e)).
  { unfold view at 1, tables_view. rewrite (rep_mem _ _ _ Hrep'). cbn [compacted_to emit set_sstables sstables foldr foldl].
    rewrite table_view_reader by apply Hwf. rewrite Ees, map_entries_to_map. by rewrite (left_id_L ∅ (∪)), (right_id_L ∅ (∪)). }
  split_and!; [exact Hrep'|done|unfold contents; by rewrite Hv, live_again|rewrite Hv; apply live_submap| | |exact Hj].
  - change (next_sstable_seq (compacted_to _ _ _ ?x)) with (next_sstable_seq x). lia.
  - constructor; [exact Hwf|]. rewrite Ees, map_entries_to_map, (rep_view _ _ _ Hrep), Hmem.
    rewrite (left_id_L ∅ (∪)). apply live_fill.
Qed.

Lemma used_view_split e m : m ⊆ view e -> (used (view e) < kTombstone)%N -> table_ok (map_entries m).
Proof. intros Hm Hu. apply used_table_ok. pose proof (used_mono _ _ Hm). lia. Qed.

(** The state after the memtable [e] has is written out and before the compaction. *)
Definition flushed_to e : StorageEngine :=
  let e1 := published (Entries (mem e)) e in
  emit (Wal.Reset (wal_path (db_path e)))
    (set_mem (Clear (mem e)) (set_sstables (reader_of (db_path e) (next_sstable_seq e, Entries (mem e)) :: sstables e1) e1)).

Lemma flushed_rep e ts recs (t := (next_sstable_seq e, map_entries (mem e))) :
  engine_rep e ts recs -> table_wf t -> (next_sstable_seq e + 1 < two64)%N ->
  engine_rep (flushed_to e) (t :: ts) [] /\ view (flushed_to e) = view e /\
  performed e (flushed_to e) (publish_ops (next_sstable_seq e) (map_entries (mem e)) ++ [FsCreate wal_name]).
Proof.
  intros Hrep Hwf Hseq. destruct (published_frame (map_entries (mem e)) e Hseq) as (Hp1 & _ & Ht1 & Hn1 & Hj1).
  destruct (publish_open e ts (wal_bytes recs) _ _ (rep_dir _ _ _ Hrep) (rep_seq _ _ _ Hrep) (proj1 Hwf) eq_refl) as [Hdir _].
  change (emit _ _) with (published (map_entries (mem e)) e) in Hdir. unfold flushed_to, Entries. cbv zeta.
  set (e1 := published _ e) in *. clearbody e1.
  assert (Er : Wal.Reset (wal_path (db_path e)) = map (relocate (db_path e)) [FsCreate wal_name]) by done. rewrite Er.
  split_and!; [constructor| |].
  all: cbn [emit set_mem set_sstables sstables db_path next_sstable_seq fs mem]; rewrite ?Hp1, ?Hn1, ?Ht1.
  - cbn [map]. by rewrite (rep_readers _ _ _ Hrep).
  - constructor; [done|apply Hrep].
  - apply newest_first_cons; apply Hrep.
  - constructor; [cbn; lia|]. apply seq_weaken, Hrep.
  - lia.
  - rewrite fs_run_files, dir_of_run, Hdir; [|by constructor; [apply wal_name_no_slash|]].
    cbn [foldl fs_apply]. unfold engine_files. by rewrite insert_insert_eq.
  - constructor.
  - done.
  - unfold view, tables_view. cbn [emit set_mem set_sstables mem sstables foldr].
    unfold Clear, Entries. rewrite table_view_reader by apply Hwf. rewrite map_entries_to_map. apply (left_id_L ∅ (∪)).
  - unfold performed in *. cbn [emit set_mem set_sstables fs]. by rewrite fs_run_journal, Hj1, map_app, <- app_assoc.
Qed.

Lemma FlushMemtable_spec e ts recs :
  engine_rep e ts recs -> (used (view e) < kTombstone)%N ->
  (next_sstable_seq e + 2 < two64)%N ->
  exists e' ts' recs' ops rm, FlushMemtable e = (Ret tt, e') /\
    engine_rep e' ts' recs' /\ reorganised e e' /\
    flushes (next_sstable_seq e) ts (mem e) ops rm /\ performed e e' (ops ++ rm).
Proof.
  intros Hrep Hused Hseq. unfold FlushMemtable. st_steps. unfold Memtable.size.
  case_decide as Hc.
  { exists e, ts, recs, [], []. unfold reorganised, performed. cbn [map app]. rewrite app_nil_r.
    split_and!; try done; [lia|constructor]. }
  assert (Hwf : table_wf (next_sstable_seq e, map_entries (mem e))).
  { split; [|apply map_entries_sorted]. eapply used_view_split; [|exact Hused]. apply map_union_subseteq_l. }
  destruct (publish_open e ts (wal_bytes recs) (map_entries (mem e)) _ (rep_dir _ _ _ Hrep) (rep_seq _ _ _ Hrep) (proj1 Hwf) eq_refl) as [_ Hopen].
  st_steps. unfold Entries. rewrite Hopen. st_steps.
  match goal with |- context [MaybeCompact ?s] => change s with (flushed_to e) end.
  destruct (flushed_rep e ts recs Hrep Hwf) as (Hrep2 & Hview & Hj2); [lia|].
  assert (Hn2 : next_sstable_seq (flushed_to e) = (next_sstable_seq e + 1)%N) by (apply u64_add_small; lia).
  assert (Hp2 : db_path (flushed_to e) = db_path e) by done. set (e2 := flushed_to e) in *. clearbody e2.
  destruct (MaybeCompact_spec e2 _ Hrep2) as (e' & ts' & pub & rm & Em & Hr & Hp & Hco & Hsub & Hs & Hf & Hj);
    [by rewrite Hview|lia|].
  eexists e', ts', [], _, rm. rewrite Em. unfold reorganised, contents in *. rewrite Hview in *.
  split_and!; [done|done|congruence|done|done|lia| |].
  - eapply flushes_yes; [exact Hwf|apply map_entries_to_map|]. by rewrite <- Hn2.
  - unfold performed in *. rewrite Hj, Hj2, Hp2, !map_app. by rewrite <- !app_assoc.
Qed.

(** ** Writes *)

(** Logging a record and applying it to the memtable. *)
Definition log_record (r : wal_record) (e : StorageEngine) : StorageEngine :=
  set_mem (replay_record (mem e) r)
    (emit (AppendRecord (wal_path (db_path e)) (rec_type r) (rec_key r) (rec_value r)) e).

Lemma log_record_rep r e ts recs :
  engine_rep e ts recs -> record_ok r -> engine_rep (log_record r e) ts (recs ++ [r]).
Proof.
  intros Hrep Hr. unfold log_record.
  constructor; cbn [set_mem emit sstables db_path next_sstable_seq fs mem]; try apply Hrep.
  - unfold AppendRecord.
    change [FsAppend (wal_path (db_path e)) ?b] with
      (map (relocate (db_path e)) [FsAppend wal_name b]).
    rewrite fs_run_files, dir_of_run, (rep_dir _ _ _ Hrep);
      [|by constructor; [apply wal_name_no_slash|]].
    cbn [foldl fs_apply]. unfold engine_files. rewrite lookup_insert_eq, insert_insert_eq.
    by rewrite wal_bytes_app, wal_bytes_one.
  - apply Forall_app. split; [apply Hrep|by constructor].
  - by rewrite foldl_app, (rep_mem _ _ _ Hrep).
Qed.

Definition record_value (r : wal_record) : option bytes :=
  if is_put (rec_type r) then Some (rec_value r) else None.

Lemma replay_record_insert m r : replay_record m r = <[rec_key r := record_value r]> m.
Proof. unfold replay_record, record_value. by destruct (is_put _). Qed.

Lemma log_record_view r e : view (log_record r e) = <[rec_key r := record_value r]> (view e).
Proof.
  unfold view, log_record. cbn [set_mem emit mem sstables]. rewrite replay_record_insert.
  apply map_eq. intros k. rewrite lookup_union, !lookup_insert, lookup_union.
  case_decide; [|done]. by destruct (tables_view _ !! k).
Qed.

(** [engine_ok b e]: the engine is in a good state, and [b] more bytes of entries fit. *)
Definition engine_ok (b : N) (e : StorageEngine) : Prop :=
  (exists ts recs, engine_rep e ts recs) /\
  (used (view e) + b < kTombstone)%N /\ (next_sstable_seq e + b < two64)%N.

Lemma record_fits r e b :
  (used (view e) + (b + entry_cost (rec_key r) (record_value r)) < kTombstone)%N ->
  match rec_type r with kPut => True | kDelete => rec_value r = [] | kOtherRecord _ => False end ->
  record_ok r.
Proof.
  unfold entry_cost, record_value, kTombstone, record_ok, fits32, two32. intros Hu Ht.
  destruct r as [[| |] k v]; cbn in *; [|subst v|done]; cbn in *; split_and!; try done; lia.
Qed.

(** The common part of [Put] and [Delete]. *)
Lemma write_spec b r e :
  engine_ok (b + entry_cost (rec_key r) (record_value r)) e ->
  match rec_type r with kPut => True | kDelete => rec_value r = [] | kOtherRecord _ => False end ->
  exists e', flush_if_full (log_record r e) = (Ret tt, e') /\ engine_ok b e' /\
    contents e' = live (<[rec_key r := record_value r]> (view e)) /\ db_path e' = db_path e /\
    exists ts recs ops rm, engine_rep e ts recs /\ record_ok r /\
      flushes (next_sstable_seq e) ts (mem (log_record r e)) ops rm /\
      performed e e' (FsAppend wal_name (wal_rec_bytes r) :: ops ++ rm).
Proof.
  intros ((ts & recs & Hrep) & Hu & Hs) Ht.
  pose proof (record_fits _ _ _ Hu Ht) as Hr.
  pose proof (log_record_rep r e ts recs Hrep Hr) as Hrep1.
  assert (Hj : performed e (log_record r e) [FsAppend wal_name (wal_rec_bytes r)]).
  { unfold performed. cbn [log_record set_mem emit fs]. by rewrite fs_run_journal. }
  pose proof (used_insert (rec_key r) (record_value r) (view e)) as Hi.
  rewrite <- log_record_view in *. set (e1 := log_record r e) in *.
  assert (Hn : next_sstable_seq e1 = next_sstable_seq e) by done.
  assert (Hp : db_path e1 = db_path e) by done. clearbody e1.
  assert (Hcost : (8 <= entry_cost (rec_key r) (record_value r))%N) by (unfold entry_cost; lia).
  unfold flush_if_full. st_steps. case_decide as Hfull.
  - destruct (FlushMemtable_spec e1 _ _ Hrep1)
      as (e' & ts' & recs' & ops & rm & -> & Hrep' & (Hp' & Hc & Hsub & Hs') & Hf & Hj');
      [lia|lia|].
    exists e'. pose proof (used_mono _ _ Hsub). split_and!; [done| |done|congruence|].
    + unfold engine_ok. split_and!; [by eauto|lia|lia].
    + exists ts, recs, ops, rm. rewrite <- Hn. split_and!; [done..|].
      unfold performed in *. by rewrite Hj', Hj, Hp, <- app_assoc.
  - exists e1. unfold engine_ok. split_and!; [done|by eauto|lia|lia|done|done|].
    exists ts, recs, [], []. split_and!; [done|done|constructor|done].
Qed.

Lemma engine_Put b key v e :
  engine_ok (b + entry_cost key (Some v)) e ->
  exists e', Engine.Put key v e = (Ret tt, e') /\ engine_ok b e' /\
    contents e' = <[key := v]> (contents e) /\ db_path e' = db_path e.
Proof.
  intros H. pose (r := {| rec_type := kPut; rec_key := key; rec_value := v |}).
  destruct (write_spec b r e H I) as (e' & E & Hok & Hc & Hp & _).
  exists e'. split_and!; [exact E|done| |done]. rewrite Hc. exact (live_insert _ _ _).
Qed.

Lemma engine_Delete b key e :
  engine_ok (b + entry_cost key None) e ->
  exists e', Engine.Delete key e = (Ret tt, e') /\ engine_ok b e' /\
    contents e' = delete key (contents e) /\ db_path e' = db_path e.
Proof.
  intros H. pose (r := {| rec_type := kDelete; rec_key := key; rec_value := [] |}).
  destruct (write_spec b r e H eq_refl) as (e' & E & Hok & Hc & Hp & _).
  exists e'. split_and!; [exact E|done| |done]. rewrite Hc. exact (live_insert_None _ _).
Qed.

Lemma engine_Reset b e :
  engine_ok b e ->
  exists e', Engine.Reset e = (Ret tt, e') /\ engine_ok b e' /\ contents e' = ∅ /\
    db_path e' = db_path e.
Proof.
  intros ((ts & recs & Hrep) & Hu & Hs). unfold Engine.Reset. st_steps.
  eexists. split_and!; [reflexivity| |done|done]. unfold engine_ok.
  cbn [emit set_next_seq set_sstables set_mem next_sstable_seq mem sstables db_path fs].
  pose proof (rep_seq64 _ _ _ Hrep).
  split_and!.
  - exists [], []. constructor; cbn [emit set_next_seq set_sstables set_mem next_sstable_seq mem sstables db_path fs];
      try by constructor.
    change (Wal.Reset (wal_path (db_path e))) with (map (relocate (db_path e)) [FsCreate wal_name]).
    rewrite (rep_readers _ _ _ Hrep), remove_ops, !fs_run_files, !dir_of_run, (rep_dir _ _ _ Hrep).
    + pose proof (remove_files [] ts (wal_bytes recs) (rep_order _ _ _ Hrep)) as E.
      cbn [app] in E. rewrite E. cbn [foldl fs_apply].
      unfold engine_files. by rewrite insert_insert_eq.
    + apply remove_local.
    + by constructor; [apply wal_name_no_slash|].
  - assert (E : used (view (set_sstables [] (set_mem (Clear (mem e)) e))) = 0%N) by done.
    unfold view in E. cbn in E. unfold view. cbn. rewrite E. lia.
  - unfold kTombstone, two64 in *; lia.
Qed.

(** ** Reads *)

Lemma get_tables_view dir key ts :
  Forall table_wf ts ->
  get_tables key (map (reader_of dir) ts) = layers ts !! key ≫= id.
Proof.
  induction 1 as [|t ts [Hok Hs] Hts IH]; [done|]. cbn [map get_tables].
  pose proof (reader_Lookup (SSTablePath dir t.1) t.2 Hok Hs key) as E.
  change (layers (t :: ts)) with (list_to_map t.2 ∪ layers ts). rewrite lookup_union, <- E, IH.
  unfold reader_of. destruct (SSTable.Lookup key _) as [[| |] v]; cbn [status value];
    unfold lookup_view; cbn [status value].
  - by rewrite (left_id_L None (∪)).
  - by destruct (layers ts !! key).
  - by destruct (layers ts !! key).
Qed.

(** [Get] needs no more than well-formed tables. *)
Lemma Get_layers dir ts e key :
  sstables e = map (reader_of dir) ts -> Forall table_wf ts -> Engine.Get key e = contents e !! key.
Proof.
  intros Hr Hw. unfold contents, view. rewrite live_lookup, Hr, tables_view_layers by done.
  unfold Engine.Get. rewrite Hr, get_tables_view by done.
  rewrite lookup_union, <- (Lookup_view key (mem e)).
  destruct (Memtable.Lookup key (mem e)) as [[| |] v]; cbn; unfold lookup_view; cbn [status value].
  - by rewrite (left_id_L None (∪)).
  - by destruct (layers ts !! key).
  - by destruct (layers ts !! key).
Qed.

Lemma engine_Get b e key : engine_ok b e -> Engine.Get key e = contents e !! key.
Proof. intros ((ts & recs & Hrep) & _). by eapply Get_layers; apply Hrep. Qed.

Lemma scan_tables dir p m ts :
  Forall table_wf ts ->
  foldl (fun m t => foldl emplace m (SSTable.Scan p t)) m (map (reader_of dir) ts) =
  m ∪ keys_with p (layers ts).
Proof.
  intros H. revert m. induction H as [|t ts [Hok Hs] Hts IH]; intros m.
  - cbn. unfold keys_with. by rewrite map_filter_empty, (right_id_L ∅ (∪)).
  - cbn [map foldl]. rewrite IH. unfold reader_of. rewrite reader_Scan by done.
    rewrite emplace_union, with_prefix_to_map. unfold layers. cbn [foldr].
    by rewrite keys_with_union, (assoc_L (∪)).
Qed.

Lemma engine_Scan b e prefix :
  engine_ok b e -> Engine.Scan prefix e = with_prefix prefix (map_entries (contents e)).
Proof.
  intros ((ts & recs & Hrep) & _). unfold Engine.Scan.
  rewrite (rep_readers _ _ _ Hrep), scan_tables by apply Hrep.
  rewrite Scan_filter, emplace_union, with_prefix_to_map, (left_id_L ∅ (∪)).
  unfold Entries. rewrite map_entries_to_map, <- keys_with_union, <- (rep_view _ _ _ Hrep).
  by rewrite live_entries_map, live_keys_with, with_prefix_entries.
Qed.

(** ** No operation moves the database *)

Lemma MaybeCompact_path : keeps db_path MaybeCompact.
Proof. unfold MaybeCompact. auto 20 with keeps. Qed.
#[export] Hint Resolve MaybeCompact_path : keeps.

Lemma FlushMemtable_path : keeps db_path FlushMemtable.
Proof. unfold FlushMemtable. auto 20 with keeps. Qed.
#[export] Hint Resolve FlushMemtable_path : keeps.

Lemma flush_if_full_path : keeps db_path flush_if_full.
Proof. unfold flush_if_full. auto 20 with keeps. Qed.
#[export] Hint Resolve flush_if_full_path : keeps.

Lemma Put_path key value : keeps db_path (Engine.Put key value).
Proof. unfold Engine.Put. auto 20 with keeps. Qed.
Lemma Delete_path key : keeps db_path (Engine.Delete key).
Proof. unfold Engine.Delete. auto 20 with keeps. Qed.
Lemma Reset_path : keeps db_path Engine.Reset.
Proof. unfold Engine.Reset. auto 20 with keeps. Qed.
#[export] Hint Resolve Put_path Delete_path Reset_path : keeps.

(** ** The engine as a key-value store *)

#[export] Instance engine_KVStore : KVStore StorageEngine := {|
  kv_get := Engine.Get;
  kv_scan := Engine.Scan;
  kv_put := Engine.Put;
  kv_delete := Engine.Delete;
  kv_reset := Engine.Reset;
|}.

#[export] Program Instance engine_KVStoreLaws : KVStoreLaws StorageEngine := {|
  kv_contents := contents;
  kv_ok := engine_ok;
|}.
Next Obligation. unfold engine_ok. intros b b' e (? & ? & ?) ?. split_and!; [done|lia|lia]. Qed.
Next Obligation. exact engine_Get. Qed.
Next Obligation. exact engine_Scan. Qed.
Next Obligation.
  intros b e k v H. destruct (engine_Put _ _ _ _ H) as (e' & ? & ? & ? & _). eauto.
Qed.
Next Obligation.
  intros b e k H. destruct (engine_Delete _ _ _ H) as (e' & ? & ? & ? & _). eauto.
Qed.
Next Obligation.
  intros b e H. destruct (engine_Reset _ _ H) as (e' & ? & ? & ? & _). eauto.
Qed.

Lemma engine_ops b e ops :
  engine_ok (b + ops_cost ops) e ->
  exists e', st_for ops run_op e = (Ret tt, e') /\ engine_ok b e' /\
    contents e' = foldl model_op (contents e) ops.
Proof. exact (run_ops_spec b e ops). Qed.
