(* ===== verification/EngineOpen.v ===== *)
(** * Opening and recovering the engine

    What [StorageEngine::Open] makes of the files a previous process left behind: which states
    of the directory are recoverable, and what a crash may leave.  The model of a crash is the
    one of [Fs]. *)

From Stdlib Require Import NArith Lia.
From S2P Require Export EngineSpec.

(** ** The directory scan *)

Definition is_tmp (name : bytes) : Prop := extension name = str ".tmp".
#[export] Instance is_tmp_dec name : Decision (is_tmp name) := decide (_ = _).

Definition found_entry (dir name : bytes) : option (N * bytes) :=
  if decide (is_tmp name) then None
  else if decide (extension name = str ".sst") then
    match stoull (stem name) with Ret n => Some (n, in_dir dir name) | _ => None end
  else None.

Lemma emit_emit ops1 ops2 e : emit ops2 (emit ops1 e) = emit (ops1 ++ ops2) e.
Proof. unfold emit. cbn. by rewrite fs_run_app. Qed.

Lemma emit_nil e : emit [] e = e.
Proof. by destruct e. Qed.

Lemma discover_spec dir names e :
  (forall name, name ∈ names -> extension name = str ".sst" -> exists n, stoull (stem name) = Ret n) ->
  discover dir names e =
  (Ret (omap (found_entry dir) names),
   emit (map (fun n => FsRemove (in_dir dir n)) (filter is_tmp names)) e).
Proof.
  revert e. induction names as [|name names IH]; intros e Hsst; [by rewrite emit_nil|].
  assert (IH' : forall e, discover dir names e = (Ret (omap (found_entry dir) names),
    emit (map (fun n => FsRemove (in_dir dir n)) (filter is_tmp names)) e)).
  { intros e'. apply IH. intros n Hn. apply Hsst. by right. }
  cbn [discover omap list_omap]. unfold found_entry at 1. unfold is_tmp at 1.
  destruct (decide (extension name = str ".tmp")) as [Ht|Ht].
  - st_steps. rewrite IH', emit_emit. by rewrite filter_cons_True.
  - rewrite filter_cons_False by done. case_decide as Hs.
    + destruct (Hsst name) as [n En]; [left|done|]. rewrite En. st_steps.
      by rewrite (run_bind _ _ _ _ _ (IH' e)).
    + apply IH'.
Qed.

(** ** Opening the tables found *)

Definition found_table (dir : bytes) (t : gtable) : N * bytes := (t.1, SSTablePath dir t.1).

Definition seq_after (n : N) (ts : list gtable) : N := foldl (fun n t => N.max n (t.1 + 1)) n ts.

Lemma open_table_step_ok dir t e :
  (t.1 + 1 < two64)%N ->
  SSTable.Open (SSTablePath dir t.1) (files (fs e)) = Ret (reader_of dir t) ->
  open_table_step (found_table dir t) e =
  (Ret tt, set_next_seq (N.max (next_sstable_seq e) (t.1 + 1))
             (set_sstables (sstables e ++ [reader_of dir t]) e)).
Proof.
  intros Ht Ho. unfold open_table_step. st_steps. unfold found_table. cbn [fst snd].
  rewrite Ho. st_steps. by rewrite u64_add_small.
Qed.

Lemma open_tables dir ts e :
  Forall (fun t => t.1 + 1 < two64)%N ts ->
  (forall t, t ∈ ts -> SSTable.Open (SSTablePath dir t.1) (files (fs e)) = Ret (reader_of dir t)) ->
  st_for (map (found_table dir) ts) open_table_step e =
  (Ret tt, set_next_seq (seq_after (next_sstable_seq e) ts)
             (set_sstables (sstables e ++ map (reader_of dir) ts) e)).
Proof.
  intros Hseq. revert e. induction Hseq as [|t ts Ht Hts IH]; intros e Hopen.
  - cbn. rewrite app_nil_r. by destruct e.
  - cbn [map st_for].
    rewrite (run_bind _ _ _ _ _ (open_table_step_ok dir t e Ht (Hopen t ltac:(left)))), IH.
    + cbn [set_next_seq set_sstables sstables next_sstable_seq fs mem db_path].
      by rewrite <- app_assoc.
    + intros t' Ht'. apply Hopen. by right.
Qed.

#[export] Instance newer_total : Total newer.
Proof. intros x y. unfold newer. lia. Qed.

(** Sorting what was found, newest first, gives the tables in their order. *)
Lemma sort_found dir ts found :
  newest_first ts -> NoDup found ->
  (forall sp, sp ∈ found <-> sp ∈ map (found_table dir) ts) ->
  merge_sort newer found = map (found_table dir) ts.
Proof.
  intros Ho Hnd Hel.
  assert (Hs2 : StronglySorted newer (map (found_table dir) ts)).
  { clear Hel. induction Ho as [|t ts Ho IH Hall]; cbn; constructor; [done|].
    apply Forall_forall. intros sp Hsp. apply list_elem_of_fmap in Hsp as (t' & -> & Ht').
    rewrite Forall_forall in Hall. specialize (Hall t' Ht'). unfold newer. cbn. lia. }
  assert (Hnd2 : NoDup (map (found_table dir) ts)).
  { clear - Ho. induction Ho as [|t ts Ho IH Hall]; cbn; constructor; [|done].
    rewrite list_elem_of_fmap. intros (t' & E & Ht'). rewrite Forall_forall in Hall.
    specialize (Hall t' Ht'). injection E as E _. lia. }
  eapply StronglySorted_unique_strong; [| |exact Hs2|].
  - intros sp1 sp2 H1 H2 H3 H4. rewrite merge_sort_Permutation in H1.
    apply Hel in H1. apply list_elem_of_fmap in H1 as (t1 & -> & Ht1), H2 as (t2 & -> & Ht2).
    unfold newer in *. cbn in *. assert (t1.1 = t2.1) by lia. unfold found_table. congruence.
  - apply Sorted_StronglySorted; [intros x y z; unfold newer; lia|].
    apply (Sorted_merge_sort newer).
  - rewrite merge_sort_Permutation. by apply NoDup_Permutation.
Qed.

(** ** Recovery *)

(** A directory (its map [m]) from which the engine with tables [ts] and log records [recs]
    can be recovered: the tables are complete, stray files are temporary, and the log may have
    a torn tail. *)
Record recoverable (m : files_t) (ts : list gtable) (recs : list wal_record) : Prop := {
  rec_tables : Forall table_wf ts;
  rec_order : newest_first ts;
  rec_seq : Forall (fun t => t.1 + 1 < two64)%N ts;
  rec_present t : t ∈ ts -> m !! sst_name t.1 = Some (table_file t.2);
  rec_only name c : m !! name = Some c ->
    name = wal_name \/ is_tmp name \/ exists t, t ∈ ts /\ name = sst_name t.1;
  rec_wal : Replay (default [] (m !! wal_name)) = recs;
}.

(** The directory after [Open]. *)
Definition cleaned (m : files_t) : files_t :=
  <[wal_name := default [] (m !! wal_name)]> (filter (fun nc => ~ is_tmp nc.1) m).

Lemma sst_not_tmp n : ~ is_tmp (sst_name n).
Proof. unfold is_tmp. by rewrite (proj2 (sst_name_split n)). Qed.

Lemma found_entry_sst dir n :
  (n < two64)%N -> found_entry dir (sst_name n) = Some (n, SSTablePath dir n).
Proof.
  intros Hn. unfold found_entry. rewrite decide_False by apply sst_not_tmp.
  rewrite decide_True by apply sst_name_split. by rewrite sst_name_seq.
Qed.

Lemma wal_not_tmp : ~ is_tmp wal_name.
Proof. by apply (bool_decide_unpack _). Qed.

Section recovery.
Context (dir : bytes) (d : files_t) (ts : list gtable) (recs : list wal_record).
Context (Hrec : recoverable (dir_of dir d) ts recs).

Lemma name_in_dir name : name ∈ map fst (directory d dir) <-> is_Some (dir_of dir d !! name).
Proof.
  rewrite dir_of_lookup, list_elem_of_fmap. split.
  - intros ([n c] & -> & H). apply elem_of_directory in H as [H Hs]. cbn.
    rewrite decide_False by done. by exists c.
  - case_decide; [by intros []|]. intros [c Hc]. exists (name, c).
    by rewrite elem_of_directory.
Qed.

Lemma name_cases name : name ∈ map fst (directory d dir) ->
  name = wal_name \/ is_tmp name \/ exists t, t ∈ ts /\ name = sst_name t.1.
Proof. intros [c Hc]%name_in_dir. by eapply rec_only. Qed.

Lemma seq_bound t : t ∈ ts -> (t.1 + 1 < two64)%N.
Proof. pose proof (rec_seq _ _ _ Hrec) as H. rewrite Forall_forall in H. apply H. Qed.

Lemma discover_ok name :
  name ∈ map fst (directory d dir) -> extension name = str ".sst" ->
  exists n, stoull (stem name) = Ret n.
Proof.
  intros [->|[Ht|(t & Ht & ->)]]%name_cases He; [done| |].
  - unfold is_tmp in Ht. by rewrite Ht in He.
  - exists t.1. apply sst_name_seq. pose proof (seq_bound t Ht). lia.
Qed.

Lemma found_elem sp :
  sp ∈ omap (found_entry dir) (map fst (directory d dir)) <-> sp ∈ map (found_table dir) ts.
Proof.
  rewrite list_elem_of_omap, list_elem_of_fmap. split.
  - intros (name & Hin & Hf). apply name_cases in Hin as [->|[Ht|(t & Ht & ->)]].
    + by vm_compute in Hf.
    + unfold found_entry in Hf. by rewrite decide_True in Hf.
    + pose proof (seq_bound t Ht). rewrite found_entry_sst in Hf by lia.
      injection Hf as <-. by exists t.
  - intros (t & -> & Ht). pose proof (seq_bound t Ht). exists (sst_name t.1).
    rewrite found_entry_sst by lia. split; [|done]. apply name_in_dir.
    rewrite (rec_present _ _ _ Hrec) by done. by eexists.
Qed.

Lemma found_NoDup : NoDup (omap (found_entry dir) (map fst (directory d dir))).
Proof.
  assert (Hn : NoDup (map fst (directory d dir))) by apply NoDup_directory.
  assert (Hp : forall name sp, found_entry dir name = Some sp -> sp.2 = in_dir dir name).
  { intros name sp. unfold found_entry. repeat case_decide; try done.
    destruct (stoull _); try done. by intros [= <-]. }
  induction Hn as [|name names Hni Hn IH]; cbn; [constructor|].
  destruct (found_entry dir name) as [sp|] eqn:E; [|done]. constructor; [|done].
  rewrite list_elem_of_omap. intros (name' & Hin & E'). destruct Hni.
  apply Hp in E, E'. rewrite E in E'. apply in_dir_inj in E' as ->. done.
Qed.

(** The directory after the temporary files are removed. *)
Lemma dir_without_tmp names f :
  (forall n, n ∈ names <-> is_Some (dir_of dir f !! n)) ->
  dir_of dir (foldl fs_apply f (map (fun n => FsRemove (in_dir dir n)) (filter is_tmp names))) =
  filter (fun nc => ~ is_tmp nc.1) (dir_of dir f).
Proof.
  intros Hn. assert (Hd : forall l g, dir_of dir (foldl fs_apply g (map (fun n => FsRemove (in_dir dir n)) l))
    = foldr delete (dir_of dir g) (rev l)).
  { clear. intros l. induction l as [|n l IH]; intros g; [done|]. cbn [map foldl rev fs_apply].
    by rewrite IH, foldr_app, dir_of_delete. }
  rewrite Hd. apply map_eq. intros k. rewrite map_lookup_filter.
  set (l := rev _). assert (Hl : k ∈ l <-> is_tmp k /\ is_Some (dir_of dir f !! k)).
  { unfold l. rewrite <- Hn, <- list_elem_of_filter. rewrite !list_elem_of_In. symmetry. apply in_rev. }
  clearbody l.
  destruct (decide (k ∈ l)) as [Hk|Hk].
  - rewrite lookup_foldr_delete by done. apply Hl in Hk as [Hk [c ->]]. cbn.
    rewrite option_guard_False; [done|]. by intros [].
  - rewrite lookup_foldr_delete_not_elem_of by done.
    destruct (dir_of dir f !! k) as [c|] eqn:E; [|done]. cbn.
    rewrite option_guard_True; [done|]. intros Ht. apply Hk, Hl. by split.
Qed.

Abbreviation kept_files := (filter (fun nc : list ascii * list ascii => ~ is_tmp nc.1) (dir_of dir d)).

Lemma tables_open t f :
  dir_of dir f = kept_files -> t ∈ ts ->
  SSTable.Open (SSTablePath dir t.1) f = Ret (reader_of dir t).
Proof.
  intros Hf Ht. pose proof (rec_tables _ _ _ Hrec) as Hw. rewrite Forall_forall in Hw.
  destruct (Hw t Ht) as [Hok _]. apply open_table; [done|].
  rewrite sst_in_dir, <- dir_of_lookup_local, Hf by apply sst_name_no_slash.
  rewrite map_lookup_filter, (rec_present _ _ _ Hrec) by done. cbn.
  rewrite option_guard_True; [done|]. apply sst_not_tmp.
Qed.

Lemma kept_wal : kept_files !! wal_name = dir_of dir d !! wal_name.
Proof.
  rewrite map_lookup_filter. destruct (dir_of dir d !! wal_name); [|done]. cbn.
  rewrite option_guard_True; [done|]. apply wal_not_tmp.
Qed.

Lemma wal_opened f :
  dir_of dir f = kept_files ->
  dir_of dir (foldl fs_apply f (Wal.Open (wal_path dir) f)) = cleaned (dir_of dir d).
Proof.
  intros Hf. pose proof kept_wal as Hk. rewrite <- Hf in Hk.
  rewrite dir_of_lookup_local in Hk by apply wal_name_no_slash.
  unfold Wal.Open, wal_path, cleaned. rewrite Hk.
  destruct (dir_of dir d !! wal_name) as [w|] eqn:E; cbn [foldl fs_apply default from_option].
  - rewrite Hf, insert_id; [done|]. by rewrite kept_wal.
  - rewrite dir_of_insert by apply wal_name_no_slash. by rewrite Hf.
Qed.

(** [Open] recovers the tables and the log records. *)
Lemma start_recovers :
  exists e, start dir d = (Ret tt, e) /\ db_path e = dir /\
    sstables e = map (reader_of dir) ts /\ mem e = foldl replay_record ∅ recs /\
    next_sstable_seq e = seq_after 1 ts /\ dir_of dir (files (fs e)) = cleaned (dir_of dir d).
Proof.
  unfold start, Open. st_steps. cbn [new_engine db_path fs files].
  rewrite (run_bind _ _ _ _ _ (discover_spec _ _ _ discover_ok)).
  rewrite (sort_found dir ts) by first [apply Hrec|apply found_NoDup|apply found_elem].
  set (e1 := emit _ _).
  assert (Hd1 : dir_of dir (files (fs e1)) = filter (fun nc => ~ is_tmp nc.1) (dir_of dir d)).
  { unfold e1. cbn [emit fs new_engine]. rewrite fs_run_files. apply dir_without_tmp, name_in_dir. }
  assert (He1 : db_path e1 = dir /\ sstables e1 = [] /\ mem e1 = ∅ /\ next_sstable_seq e1 = 1%N) by done.
  clearbody e1. destruct He1 as (Hp1 & Ht1 & Hm1 & Hn1).
  rewrite (run_bind _ _ _ _ _ (open_tables dir ts e1 (rec_seq _ _ _ Hrec) ltac:(intros t Ht;
    exact (tables_open t (files (fs e1)) Hd1 Ht)))). st_steps.
  rewrite Hn1, Ht1. eexists. split; [reflexivity|].
  cbn [set_mem emit set_next_seq set_sstables db_path sstables mem next_sstable_seq fs].
  rewrite Hp1, Hm1. rewrite fs_run_files.
  split_and!; [done|done| |done|].
  - rewrite <- (rec_wal _ _ _ Hrec). do 2 f_equal.
    pose proof (f_equal (lookup wal_name) (wal_opened (files (fs e1)) Hd1)) as E.
    rewrite dir_of_lookup_local in E by apply wal_name_no_slash.
    unfold cleaned in E. rewrite lookup_insert_eq in E.
    change (wal_path dir) with (in_dir dir wal_name) in *. rewrite E. done.
  - exact (wal_opened (files (fs e1)) Hd1).
Qed.
End recovery.

(** ** Restarting *)

Lemma seq_after_bound n ts k :
  Forall (fun t => t.1 < k)%N ts -> (n <= k)%N -> (seq_after n ts <= k)%N.
Proof.
  intros H. revert n. induction H as [|t ts Ht Hts IH]; intros n Hn; [done|].
  unfold seq_after in *. cbn [foldl]. apply IH. lia.
Qed.

Lemma seq_after_above n ts :
  (n <= seq_after n ts)%N /\ Forall (fun t => t.1 < seq_after n ts)%N ts.
Proof.
  revert n. induction ts as [|t ts IH]; intros n; [split; [unfold seq_after; cbn; lia|constructor]|].
  unfold seq_after in *. cbn [foldl]. destruct (IH (N.max n (t.1 + 1))) as [H1 H2].
  split; [lia|]. constructor; [lia|done].
Qed.

(** The names of an engine's directory. *)
Lemma engine_files_only ts wal name c :
  engine_files ts wal !! name = Some c -> name = wal_name \/ exists t, t ∈ ts /\ name = sst_name t.1.
Proof.
  unfold engine_files. rewrite lookup_insert_Some. intros [[<- _]|[_ H]]; [by left|right].
  apply elem_of_list_to_map_2, list_elem_of_fmap in H as (t & E & Ht).
  injection E as -> _. by exists t.
Qed.

Lemma engine_files_table ts wal t :
  newest_first ts -> t ∈ ts -> engine_files ts wal !! sst_name t.1 = Some (table_file t.2).
Proof.
  intros Ho Ht. unfold engine_files. rewrite lookup_insert_ne by apply not_eq_sym, sst_name_not_wal.
  unfold table_files. apply elem_of_list_to_map_1.
  - clear Ht. induction Ho as [|t' ts Ho IH Hall]; cbn; constructor; [|done].
    rewrite list_elem_of_fmap. intros ([n c] & E & Hin).
    apply list_elem_of_fmap in Hin as (t2 & E2 & Ht2). cbn in E. injection E2 as -> ->.
    apply sst_name_inj in E. rewrite Forall_forall in Hall. specialize (Hall t2 Ht2). lia.
  - apply list_elem_of_fmap. by exists t.
Qed.

Lemma cleaned_engine_files ts wal : cleaned (engine_files ts wal) = engine_files ts wal.
Proof.
  unfold cleaned. assert (E : engine_files ts wal !! wal_name = Some wal) by apply lookup_insert_eq.
  rewrite map_filter_id.
  - rewrite E. by rewrite insert_id.
  - intros name c H. apply engine_files_only in H as [->|(t & _ & ->)]; cbn;
      [apply wal_not_tmp|apply sst_not_tmp].
Qed.

Lemma recoverable_engine_files ts recs :
  Forall table_wf ts -> newest_first ts -> Forall (fun t => t.1 + 1 < two64)%N ts ->
  Forall record_ok recs -> recoverable (engine_files ts (wal_bytes recs)) ts recs.
Proof.
  intros Hw Ho Hs Hr. constructor; try done.
  - intros t Ht. by apply engine_files_table.
  - intros name c H. apply engine_files_only in H as [->|H]; [by left|by right; right].
  - unfold engine_files. rewrite lookup_insert_eq. by apply Replay_complete.
Qed.

Lemma rep_recoverable e ts recs :
  engine_rep e ts recs -> recoverable (dir_of (db_path e) (files (fs e))) ts recs.
Proof.
  intros H. rewrite (rep_dir _ _ _ H). apply recoverable_engine_files; try apply H.
  pose proof (rep_seq64 _ _ _ H). eapply Forall_impl; [apply (rep_seq _ _ _ H)|].
  cbn. intros t Ht. lia.
Qed.

(** What a directory says. *)
Definition recorded (ts : list gtable) (recs : list wal_record) : memtable :=
  foldl replay_record ∅ recs ∪ layers ts.

Lemma rep_recorded e ts recs : engine_rep e ts recs -> view e = recorded ts recs.
Proof. intros H. rewrite (rep_view _ _ _ H), (rep_mem _ _ _ H). done. Qed.

Lemma start_view dir d ts recs :
  recoverable (dir_of dir d) ts recs ->
  exists e, start dir d = (Ret tt, e) /\ contents e = live (recorded ts recs) /\
    forall key, Engine.Get key e = contents e !! key.
Proof.
  intros H. destruct (start_recovers dir d ts recs H) as (e & E & _ & Ht & Hm & _).
  exists e. split_and!; [done| |].
  - unfold contents, view. rewrite Hm, Ht, tables_view_layers; [done|apply H].
  - intros key. eapply Get_layers; [exact Ht|apply H].
Qed.

(** With an intact log the engine is again in a good state. *)
Lemma start_rep dir d ts recs :
  Forall table_wf ts -> newest_first ts -> Forall (fun t => t.1 + 1 < two64)%N ts ->
  Forall record_ok recs -> dir_of dir d = engine_files ts (wal_bytes recs) ->
  exists e, start dir d = (Ret tt, e) /\ engine_rep e ts recs /\ db_path e = dir /\
    next_sstable_seq e = seq_after 1 ts.
Proof.
  intros Hw Ho Hs Hr Hd.
  assert (H : recoverable (dir_of dir d) ts recs) by (rewrite Hd; by apply recoverable_engine_files).
  destruct (start_recovers dir d ts recs H) as (e & E & Hp & Ht & Hm & Hn & Hd').
  rewrite Hd, cleaned_engine_files in Hd'.
  destruct (seq_after_above 1 ts) as [Hge Hlt].
  exists e. split_and!; [done| |done|done]. constructor; rewrite ?Hp, ?Hn; try done.
  split; [done|].
  assert (seq_after 1 ts <= two64 - 1)%N; [|unfold two64 in *; lia].
  apply seq_after_bound; [|unfold two64; lia]. eapply Forall_impl; [exact Hs|]. cbn. intros t' Ht'. lia.
Qed.

Lemma start_empty dir d :
  dir_of dir d = ∅ ->
  exists e, start dir d = (Ret tt, e) /\ engine_rep e [] [] /\ db_path e = dir /\
    next_sstable_seq e = 1%N.
Proof.
  intros Hd. assert (H : recoverable (dir_of dir d) [] []).
  { rewrite Hd. split; [by apply Forall_nil|by apply SSorted_nil|by apply Forall_nil| | |done].
    - intros t Ht. by apply not_elem_of_nil in Ht.
    - intros name c. by rewrite lookup_empty. }
  destruct (start_recovers dir d [] [] H) as (e & E & Hp & Ht & Hm & Hn & Hd').
  exists e. split_and!; [done| |done|done]. constructor; rewrite ?Hp, ?Hn; try done; [constructor..|].
  rewrite Hd', Hd. unfold cleaned. by rewrite map_filter_empty, lookup_empty.
Qed.

Lemma start_empty_ok dir d b :
  dir_of dir d = ∅ -> (b < kTombstone)%N ->
  exists e, start dir d = (Ret tt, e) /\ engine_ok b e /\ contents e = ∅ /\ db_path e = dir.
Proof.
  intros Hd Hb. destruct (start_empty dir d Hd) as (e & E & Hrep & Hp & Hn).
  assert (Hv : view e = ∅).
  { rewrite (rep_view _ _ _ Hrep), (rep_mem _ _ _ Hrep). apply (left_id_L ∅ (∪)). }
  exists e. split_and!; [done| |unfold contents; by rewrite Hv|done].
  unfold engine_ok. split_and!; [by eauto| |].
  - rewrite Hv. change (used ∅) with 0%N. lia.
  - rewrite Hn. unfold kTombstone, two64 in *. lia.
Qed.

Lemma restart_ok b e :
  engine_ok b e ->
  exists e', start (db_path e) (files (fs e)) = (Ret tt, e') /\ engine_ok b e' /\
    contents e' = contents e /\ db_path e' = db_path e.
Proof.
  intros ((ts & recs & Hrep) & Hu & Hs).
  destruct (start_rep (db_path e) (files (fs e)) ts recs) as (e' & E & Hrep' & Hp & Hn);
    [apply Hrep|apply Hrep|apply (rec_seq _ _ _ (rep_recoverable _ _ _ Hrep))|apply Hrep|apply Hrep|].
  assert (Hv : view e' = view e) by by rewrite (rep_recorded _ _ _ Hrep), (rep_recorded _ _ _ Hrep').
  exists e'. split_and!; [done| |unfold contents; by rewrite Hv|done].
  unfold engine_ok. rewrite Hv. split_and!; [by eauto|done|].
  pose proof (seq_after_bound 1 ts (next_sstable_seq e) (rep_seq _ _ _ Hrep)).
  pose proof (rep_seq64 _ _ _ Hrep). lia.
Qed.

(** A new process opens the directory of the database. *)
#[export] Program Instance engine_KVRecovery : KVRecovery StorageEngine :=
  {| kv_recovers e e' := start (db_path e) (files (fs e)) = (Ret tt, e') |}.
Next Obligation.
  intros b e e' E Hok. destruct (restart_ok b e Hok) as (e1 & E1 & Hok1 & Hc & _).
  rewrite E in E1. by injection E1 as <-.
Qed.
