(* ===== verification/EngineCrash.v ===== *)
(** * The storage engine's guarantees

    The properties of the engine as a whole: it implements a map, a restart loses nothing, and
    a write interrupted by a crash happens entirely or not at all -- up to the removal of the
    tables a compaction replaced, where the order of removal matters. *)

From Stdlib Require Import NArith Lia.
From S2P Require Export EngineOpen.

(** ** Crashes, on the map of the directory *)

(** Whatever a crash during [ops] leaves of [m] can be recovered, with live keys in [P]. *)
Definition crash_safe (P : gmap (list ascii) (list ascii) -> Prop) (m : files_t) (ops : list fs_op) : Prop :=
  forall m', crash_states m ops m' ->
  exists ts recs, recoverable m' ts recs /\ P (live (recorded ts recs)).

Lemma crash_safe_app P m ops1 ops2 :
  crash_safe P m ops1 -> crash_safe P (foldl fs_apply m ops1) ops2 -> crash_safe P m (ops1 ++ ops2).
Proof. intros H1 H2 m' Hc. apply crash_states_app in Hc as [Hc|Hc]; auto. Qed.

Lemma crash_safe_nil P m ts recs :
  recoverable m ts recs -> P (live (recorded ts recs)) -> crash_safe P m [].
Proof. intros H HP m' Hc. inversion Hc; subst. eauto. Qed.

Lemma crash_safe_mono P Q m ops :
  (forall c, P c -> Q c) -> crash_safe P m ops -> crash_safe Q m ops.
Proof. intros H Hs m' Hc. destruct (Hs m' Hc) as (ts & recs & ? & ?). eauto. Qed.

(** A temporary file does not matter. *)
Lemma recoverable_tmp m ts recs name c :
  recoverable m ts recs -> is_tmp name -> recoverable (<[name := c]> m) ts recs.
Proof.
  intros [H1 H2 H3 H4 H5 H6] Ht. constructor; try done.
  - intros t Hin. rewrite lookup_insert_ne; [by apply H4|].
    intros ->. by destruct (sst_not_tmp t.1).
  - intros name' c'. rewrite lookup_insert_Some. intros [[<- _]|[_ H]]; [by right; left|by eapply H5].
  - rewrite lookup_insert_ne; [done|]. intros ->. by destruct wal_not_tmp.
Qed.

Lemma recoverable_delete_tmp m ts recs name :
  recoverable m ts recs -> is_tmp name -> recoverable (delete name m) ts recs.
Proof.
  intros [H1 H2 H3 H4 H5 H6] Ht. constructor; try done.
  - intros t Hin. rewrite lookup_delete_ne; [by apply H4|].
    intros ->. by destruct (sst_not_tmp t.1).
  - intros name' c'. rewrite lookup_delete_Some. intros [_ H]. by eapply H5.
  - rewrite lookup_delete_ne; [done|]. intros ->. by destruct wal_not_tmp.
Qed.

Lemma recoverable_table m ts recs n es :
  recoverable m ts recs -> table_wf (n, es) -> Forall (fun t => t.1 < n)%N ts -> (n + 1 < two64)%N ->
  recoverable (<[sst_name n := table_file es]> m) ((n, es) :: ts) recs.
Proof.
  intros [H1 H2 H3 H4 H5 H6] Hw Hn Hn64. constructor.
  - by constructor.
  - by apply newest_first_cons.
  - by constructor.
  - intros t [->|Hin]%elem_of_cons; [apply lookup_insert_eq|].
    rewrite lookup_insert_ne; [by apply H4|]. intros E%sst_name_inj.
    rewrite Forall_forall in Hn. specialize (Hn t Hin). lia.
  - intros name c. rewrite lookup_insert_Some. intros [[<- _]|[_ H]].
    + right; right. exists (n, es). split; [left|done].
    + destruct (H5 _ _ H) as [?|[?|(t & ? & ?)]]; [by left|by right; left|].
      right; right. exists t. split; [by right|done].
  - rewrite lookup_insert_ne; [done|apply sst_name_not_wal].
Qed.

Lemma tmp_is_tmp n : is_tmp (tmp_name (sst_name n)).
Proof. apply tmp_name_ext, sst_name_nonempty. Qed.

(** Publishing a table is atomic. *)
Lemma publish_crash m ts recs n es m' :
  recoverable m ts recs -> table_wf (n, es) -> Forall (fun t => t.1 < n)%N ts -> (n + 1 < two64)%N ->
  crash_states m (publish_ops n es) m' ->
  recoverable m' ts recs \/ recoverable m' ((n, es) :: ts) recs.
Proof.
  intros H Hw Hn Hn64 Hc. pose proof (tmp_is_tmp n) as Ht.
  unfold publish_ops in Hc.
  inversion Hc as [|?|?|? ? ? ? Hc1]; subst; [by left|].
  pose proof (recoverable_tmp _ _ _ _ [] H Ht) as H1. cbn [fs_apply] in Hc1.
  inversion Hc1 as [|?|? ? ? k|? ? ? ? Hc2]; subst; [by left| |].
  { left. cbn [fs_apply]. rewrite lookup_insert_eq. by apply recoverable_tmp. }
  cbn [fs_apply] in Hc2. rewrite lookup_insert_eq, insert_insert_eq in Hc2. cbn [app] in Hc2.
  pose proof (recoverable_tmp _ _ _ _ (table_file es) H Ht) as H2.
  inversion Hc2 as [|?|?|? ? ? ? Hc3]; subst; [by left|].
  cbn [fs_apply] in Hc3. rewrite lookup_insert_eq, delete_insert_eq in Hc3.
  inversion Hc3; subst. right. apply recoverable_table; [|done..]. by apply recoverable_delete_tmp.
Qed.

Lemma publish_done m ts recs n es :
  recoverable m ts recs -> table_wf (n, es) -> Forall (fun t => t.1 < n)%N ts -> (n + 1 < two64)%N ->
  recoverable (foldl fs_apply m (publish_ops n es)) ((n, es) :: ts) recs.
Proof.
  intros H Hw Hn Hn64. unfold publish_ops. cbn [foldl fs_apply].
  rewrite lookup_insert_eq, insert_insert_eq, lookup_insert_eq, delete_insert_eq. cbn [app].
  apply recoverable_table; [|done..]. apply recoverable_delete_tmp; [done|apply tmp_is_tmp].
Qed.

(** Publishing a table that does not change what the layers say is invisible. *)
Lemma publish_safe P m ts recs n es :
  recoverable m ts recs -> table_wf (n, es) -> Forall (fun t => t.1 < n)%N ts -> (n + 1 < two64)%N ->
  P (live (recorded ts recs)) -> P (live (recorded ((n, es) :: ts) recs)) ->
  crash_safe P m (publish_ops n es).
Proof.
  intros H Hw Hn Hn64 H1 H2 m' Hc.
  destruct (publish_crash _ _ _ _ _ _ H Hw Hn Hn64 Hc); eauto.
Qed.

(** Replaying what a table already holds changes nothing. *)
Lemma recorded_flushed ts recs n es :
  list_to_map es = foldl replay_record ∅ recs ->
  recorded ((n, es) :: ts) recs = recorded ts recs /\ recorded ((n, es) :: ts) [] = recorded ts recs.
Proof.
  intros E. unfold recorded. cbn [layers foldr fst snd foldl].
  change (foldr _ ∅ ts) with (layers ts). rewrite E. split.
  - by rewrite (assoc_L (∪)), (idemp_L (∪)).
  - apply (left_id_L ∅ (∪)).
Qed.

Lemma recoverable_wal m ts recs w recs' :
  recoverable m ts recs -> Replay w = recs' -> recoverable (<[wal_name := w]> m) ts recs'.
Proof.
  intros [H1 H2 H3 H4 H5 H6] Hw. constructor; try done.
  - intros t Hin. rewrite lookup_insert_ne; [by apply H4|apply not_eq_sym, sst_name_not_wal].
  - intros name c. rewrite lookup_insert_Some. intros [[<- _]|[_ H]]; [by left|by eapply H5].
  - by rewrite lookup_insert_eq.
Qed.

Section flush.
Context (P : gmap (list ascii) (list ascii) -> Prop).

Lemma compacts_safe m n ts pub rm :
  recoverable m ts [] -> compacts n ts pub rm -> Forall (fun t => t.1 < n)%N ts ->
  (n + 1 < two64)%N -> P (live (layers ts)) -> crash_safe P m pub.
Proof.
  intros H Hc Hn Hn64 HP. destruct Hc as [|es Hw El].
  - apply (crash_safe_nil P m ts []); [done|]. unfold recorded. cbn [foldl].
    by rewrite (left_id_L ∅ (∪)).
  - apply (publish_safe P m ts [] n es); [done..| |]; unfold recorded; cbn [foldl];
      rewrite (left_id_L ∅ (∪)); [done|].
    change (layers ((n, es) :: ts)) with (list_to_map es ∪ layers ts). by rewrite El.
Qed.

Lemma flushes_safe m n ts recs ops rm :
  recoverable m ts recs -> flushes n ts (foldl replay_record ∅ recs) ops rm ->
  Forall (fun t => t.1 < n)%N ts -> (n + 2 < two64)%N ->
  P (live (recorded ts recs)) -> crash_safe P m ops.
Proof.
  intros H Hf Hn Hn64 HP. destruct Hf as [|es pub rm Hw El Hc]; [by eapply crash_safe_nil|].
  destruct (recorded_flushed ts recs n es El) as [E1 E2].
  assert (H1 : recoverable (foldl fs_apply m (publish_ops n es)) ((n, es) :: ts) recs)
    by (apply publish_done; [done..|lia]).
  apply crash_safe_app; [apply (publish_safe P m ts recs n es); try done; [lia|by rewrite E1]|].
  assert (H2 := recoverable_wal _ _ _ [] [] H1 eq_refl).
  apply crash_safe_app.
  - intros m' Hcr. inversion Hcr as [|?|?|? ? ? ? Hcr']; subst.
    + exists ((n, es) :: ts), recs. by rewrite E1.
    + inversion Hcr'; subst. exists ((n, es) :: ts), []. by rewrite E2.
  - eapply (compacts_safe _ (n + 1)); [exact H2|exact Hc| |lia|].
    + constructor; [cbn; lia|by apply seq_weaken].
    + unfold recorded in E2. cbn [foldl] in E2. rewrite (left_id_L ∅ (∪)) in E2. by rewrite E2.
Qed.

(** A logged record, then possibly a flush. *)
Lemma write_safe n ts recs r ops rm :
  Forall table_wf ts -> newest_first ts -> Forall record_ok recs -> record_ok r ->
  flushes n ts (foldl replay_record ∅ (recs ++ [r])) ops rm ->
  Forall (fun t => t.1 < n)%N ts -> (n + 2 < two64)%N ->
  P (live (recorded ts recs)) -> P (live (recorded ts (recs ++ [r]))) ->
  crash_safe P (engine_files ts (wal_bytes recs)) (FsAppend wal_name (wal_rec_bytes r) :: ops).
Proof.
  intros Hw Ho Hr Hr1 Hf Hn Hn64 HP1 HP2.
  assert (H : recoverable (engine_files ts (wal_bytes recs)) ts recs).
  { apply recoverable_engine_files; try done. eapply Forall_impl; [exact Hn|]. cbn. intros; lia. }
  assert (Ew : engine_files ts (wal_bytes recs) !! wal_name = Some (wal_bytes recs)) by apply lookup_insert_eq.
  intros m' Hc. inversion Hc as [|?|? ? ? k|? ? ? ? Hc']; subst.
  - eauto.
  - cbn [fs_apply]. rewrite Ew.
    assert (Hrep := Replay_torn_append recs r k Hr Hr1). case_decide.
    + exists ts, recs. split; [|done]. by eapply recoverable_wal.
    + exists ts, (recs ++ [r]). split; [|done]. by eapply recoverable_wal.
  - cbn [fs_apply] in Hc'. rewrite Ew in Hc'.
    eapply (flushes_safe _ n ts (recs ++ [r])); [|exact Hf|done|done|done|exact Hc'].
    eapply recoverable_wal; [exact H|].
    rewrite <- (wal_bytes_one r), <- wal_bytes_app. apply Replay_complete.
    apply Forall_app. split; [done|by constructor].
Qed.
End flush.

Lemma flushes_local n ts m ops rm : flushes n ts m ops rm -> Forall op_local ops.
Proof.
  destruct 1 as [|es pub rm _ _ Hc]; [constructor|].
  apply Forall_app. split; [apply publish_local|]. constructor; [apply wal_name_no_slash|].
  destruct Hc; [constructor|apply publish_local].
Qed.

Lemma flushes_removals n ts m ops rm op :
  flushes n ts m ops rm -> op ∈ rm -> exists p, op = FsRemove p.
Proof.
  destruct 1 as [|es pub rm _ _ Hc]; [by intros ?%not_elem_of_nil|].
  destruct Hc; [by intros ?%not_elem_of_nil|]. intros (t & -> & _)%list_elem_of_fmap. by eexists.
Qed.

(** ** Properties *)

(** A process starting on the files [d] and performing the writes [ops]. *)
Definition boot (dir : bytes) (d : files_t) (ops : list kv_op) : outcome unit * StorageEngine :=
  match start dir d with
  | (Ret _, e) => st_for ops run_op e
  | r => r
  end.

Lemma run_ops_path ops : keeps db_path (st_for ops (run_op (S := StorageEngine))).
Proof. apply keeps_for. intros [k v|k|]; cbn [run_op kv_put kv_delete kv_reset engine_KVStore]; auto with keeps. Qed.

(** C3: an engine started on an empty directory implements a map: after any sequence of
    writes, with all the flushes and compactions they trigger, every [Get] returns what the
    map has for the key and every [Scan] returns the entries with the prefix in key order;
    no write throws. The only bound is that the entries written fit the 32-bit length fields. *)
Theorem engine_refines_map dir d ops :
  dir_of dir d = ∅ -> (ops_cost ops < kTombstone)%N ->
  exists e, boot dir d ops = (Ret tt, e) /\
    (forall key, Engine.Get key e = foldl model_op ∅ ops !! key) /\
    (forall prefix, Engine.Scan prefix e = with_prefix prefix (map_entries (foldl model_op ∅ ops))).
Proof.
  intros Hd Hc. destruct (start_empty_ok dir d (0 + ops_cost ops) Hd ltac:(lia)) as (e0 & E0 & Hok & Hc0 & _).
  destruct (engine_ops 0 e0 ops Hok) as (e & E & Hok' & Hce).
  exists e. unfold boot. rewrite E0. rewrite Hc0 in Hce. split_and!; [done|intros..].
  - by rewrite (engine_Get _ _ _ Hok'), Hce.
  - by rewrite (engine_Scan _ _ _ Hok'), Hce.
Qed.

Definition demo_ops : list kv_op :=
  [OpPut (str "k") (str "v"); OpPut (str "a") (str "1"); OpPut (str "b") (str "2");
   OpDelete (str "a"); OpPut (str "c") (str "3"); OpPut (str "b") (str "4")].

Lemma engine_refines_map_witness :
  exists e, boot (str "db") ∅ demo_ops = (Ret tt, e) /\
    (forall key, Engine.Get key e = foldl model_op ∅ demo_ops !! key) /\
    (forall prefix, Engine.Scan prefix e = with_prefix prefix (map_entries (foldl model_op ∅ demo_ops))).
Proof. apply (engine_refines_map (str "db") ∅ demo_ops); reflexivity. Defined.

(** C18: restarting loses nothing: a second process that opens the files the first one left
    behind continues from exactly the map the first one had. *)
Theorem engine_restart dir d ops1 ops2 :
  dir_of dir d = ∅ -> (ops_cost ops1 + ops_cost ops2 < kTombstone)%N ->
  exists e1 e2, boot dir d ops1 = (Ret tt, e1) /\ boot dir (files (fs e1)) ops2 = (Ret tt, e2) /\
    (forall key, Engine.Get key e2 = foldl model_op ∅ (ops1 ++ ops2) !! key).
Proof.
  intros Hd Hc.
  destruct (start_empty_ok dir d (ops_cost ops2 + ops_cost ops1) Hd ltac:(lia)) as (e0 & E0 & Hok & Hc0 & Hp0).
  destruct (engine_ops _ e0 ops1 Hok) as (e1 & E1 & Hok1 & Hc1).
  pose proof (run_ops_path ops1 e0) as Hp1. rewrite E1 in Hp1. cbn in Hp1.
  destruct (restart_ok _ _ Hok1) as (e1' & Er & Hokr & Hcr & _).
  rewrite <- (N.add_0_l (ops_cost ops2)) in Hokr.
  destruct (engine_ops 0 e1' ops2 Hokr) as (e2 & E2 & Hok2 & Hc2).
  exists e1, e2. unfold boot. rewrite E0. rewrite Hp1, Hp0 in Er. rewrite Er. split_and!; [done..|].
  intros key. rewrite (engine_Get _ _ _ Hok2).
  by rewrite Hc2, Hcr, Hc1, Hc0, foldl_app.
Qed.

Lemma engine_restart_witness :
  exists e1 e2, boot (str "db") ∅ demo_ops = (Ret tt, e1) /\
    boot (str "db") (files (fs e1)) [OpDelete (str "k")] = (Ret tt, e2) /\
    (forall key, Engine.Get key e2 = foldl model_op ∅ (demo_ops ++ [OpDelete (str "k")]) !! key).
Proof. apply (engine_restart (str "db") ∅ demo_ops [OpDelete (str "k")]); reflexivity. Defined.

Definition is_remove (op : fs_op) : Prop := exists p, op = FsRemove p.

(** The writes that add one record. *)
Definition op_record (op : kv_op) : option wal_record :=
  match op with
  | OpPut key value => Some {| rec_type := kPut; rec_key := key; rec_value := value |}
  | OpDelete key => Some {| rec_type := kDelete; rec_key := key; rec_value := [] |}
  | OpReset => None
  end.

Lemma run_op_record op r e :
  op_record op = Some r -> run_op op e = flush_if_full (log_record r e) /\
  match rec_type r with kPut => True | kDelete => rec_value r = [] | kOtherRecord _ => False end /\
  op_cost op = entry_cost (rec_key r) (record_value r) /\
  forall m, live (<[rec_key r := record_value r]> m) = model_op (live m) op.
Proof.
  destruct op as [k v|k|]; cbn [op_record]; intros E; [injection E as <-..|done]; split_and!; try done.
  - intros m. exact (live_insert m k v).
  - intros m. exact (live_insert_None m k).
Qed.

(** C11: from any good state of the engine with room for it, a [Put] or [Delete] interrupted by a crash
    before its final removals happens entirely or not at all: whatever prefix of its durable effects
    up to there took place -- a torn log record, a half-written table, a
    table published but the log not yet reset, a compaction not yet published -- the next
    start succeeds and reads either the old map or the new one. The effects not covered are
    the removals of compacted tables that end the operation, between which a crash can bring a
    deleted value back ([compaction_crash_resurrects]). *)
Theorem write_crash_atomic b op e :
  op <> OpReset -> engine_ok (b + op_cost op) e ->
  exists e' safe removals,
    run_op op e = (Ret tt, e') /\ Forall is_remove removals /\
    journal (fs e') = journal (fs e) ++ safe ++ removals /\
    forall d', crash_states (files (fs e)) safe d' ->
    exists e2, start (db_path e) d' = (Ret tt, e2) /\
      ((forall key, Engine.Get key e2 = contents e !! key) \/
       (forall key, Engine.Get key e2 = model_op (contents e) op !! key)).
Proof.
  intros Hop Hok. destruct (op_record op) as [r|] eqn:Er; [|by destruct op].
  destruct (run_op_record op r e Er) as (Erun & Ht & Hcost & Hmodel). rewrite Hcost in Hok.
  destruct (write_spec b r e Hok Ht)
    as (e' & E & _ & _ & _ & ts & recs & ops & rm & Hrep & Hr & Hf & Hj).
  destruct Hok as (_ & _ & Hseq).
  assert (Hcost8 : (8 <= entry_cost (rec_key r) (record_value r))%N) by (unfold entry_cost; lia).
  exists e', (map (relocate (db_path e)) (FsAppend wal_name (wal_rec_bytes r) :: ops)),
    (map (relocate (db_path e)) rm).
  split_and!; [by rewrite Erun| |by rewrite Hj, app_comm_cons, map_app|].
  { apply Forall_fmap, Forall_forall. intros x Hx. eapply flushes_removals in Hx as [p ->]; [|exact Hf].
    by eexists. }
  intros d' Hc. pose proof (flushes_local _ _ _ _ _ Hf) as Hl.
  apply dir_of_crash in Hc; [|constructor; [apply wal_name_no_slash|done]].
  rewrite (rep_dir _ _ _ Hrep) in Hc.
  pose (P c := c = contents e \/ c = model_op (contents e) op).
  assert (Hs : crash_safe P (engine_files ts (wal_bytes recs)) (FsAppend wal_name (wal_rec_bytes r) :: ops)).
  { eapply write_safe; try apply Hrep; [done| |lia| |].
    - cbn [log_record set_mem mem] in Hf. rewrite (rep_mem _ _ _ Hrep) in Hf. by rewrite foldl_app.
    - left. unfold contents. by rewrite (rep_recorded _ _ _ Hrep).
    - right. unfold contents. rewrite <- Hmodel, <- log_record_view.
      rewrite (rep_recorded _ _ _ (log_record_rep r e ts recs Hrep Hr)). done. }
  destruct (Hs _ Hc) as (ts' & recs' & Hrec & HP).
  destruct (start_view _ _ _ _ Hrec) as (e2 & E2 & Hc2 & Hget).
  exists e2. split; [done|]. rewrite <- Hc2 in HP.
  destruct HP as [HP|HP]; [left|right]; intros key; by rewrite Hget, HP.
Qed.

Lemma boot_ok dir d ops b :
  dir_of dir d = ∅ -> (b + ops_cost ops < kTombstone)%N -> engine_ok b (boot dir d ops).2.
Proof.
  intros Hd Hc. destruct (start_empty_ok dir d (b + ops_cost ops) Hd Hc) as (e0 & E0 & Hok & _).
  destruct (engine_ops _ e0 ops Hok) as (e & E & Hok' & _). unfold boot. by rewrite E0, E.
Qed.

Definition three_writes : list kv_op :=
  [OpPut (str "a") (str "1"); OpPut (str "b") (str "2"); OpDelete (str "c")].

(** The fourth distinct key fills the memtable: the write flushes. *)
Lemma write_crash_atomic_witness :
  let e := (boot (str "db") ∅ three_writes).2 in
  let op := OpPut (str "d") (str "4") in
  exists e' safe removals,
    run_op op e = (Ret tt, e') /\ Forall is_remove removals /\
    journal (fs e') = journal (fs e) ++ safe ++ removals /\
    forall d', crash_states (files (fs e)) safe d' ->
    exists e2, start (db_path e) d' = (Ret tt, e2) /\
      ((forall key, Engine.Get key e2 = contents e !! key) \/
       (forall key, Engine.Get key e2 = model_op (contents e) op !! key)).
Proof.
  apply (write_crash_atomic 0 (OpPut (str "d") (str "4")) (boot (str "db") ∅ three_writes).2).
  - discriminate.
  - apply boot_ok; reflexivity.
Defined.

(** ** What a crash can break *)

Lemma returns {S} (r : outcome unit * S) : r.1 = Ret tt -> r = (Ret tt, r.2).
Proof. destruct r. by intros [= ->]. Qed.

(** The engine that runs on what a crash left, after more writes. *)
Definition after_crash (d : files_t) (ops : list fs_op) (n : nat) : files_t :=
  foldl fs_apply d (take n ops).

Definition sixteen_keys : list kv_op :=
  OpPut (str "k") (str "old") ::
  map (fun c => OpPut [c] (str "x")) (str "abcdefghijl") ++
  [OpDelete (str "k")] ++ map (fun c => OpPut [c] (str "x")) (str "mno").

(** The removals that end a compaction are not crash-safe. The compacted table holds no
    tombstones, and the replaced tables are removed newest first: a crash after the first
    removal leaves an old table whose value for a deleted key nothing shadows any more. Here
    [k] is deleted, its deletion is flushed and compacted, and a crash between two removals
    brings the old value back. *)
Theorem compaction_crash_resurrects :
  let e := (boot (str "db") ∅ sixteen_keys).2 in
  Engine.Get (str "k") e = None /\
  exists d', crash_states ∅ (journal (fs e)) d' /\
    last (take 1 (drop (length (journal (fs e)) - 4) (journal (fs e)))) =
      Some (FsRemove (str "db/000004.sst")) /\
    d' = after_crash ∅ (journal (fs e)) (length (journal (fs e)) - 3) /\
    exists e2, start (str "db") d' = (Ret tt, e2) /\ Engine.Get (str "k") e2 = Some (str "old").
Proof.
  split; [by vm_compute|].
  set (d' := after_crash _ _ _). exists d'. split_and!; [apply crash_states_take|by vm_compute|done|].
  exists (start (str "db") d').2. split; [apply returns|]; by vm_compute.
Qed.

(** Recovery leaves a torn log record in place and later records are appended after it, so
    a write acknowledged after a recovery is lost by the next one. Here the process dies while
    logging [b], restarts, accepts the write of [c], and restarts again. *)
Theorem torn_tail_loses_later_writes :
  let e := (boot (str "db") ∅ [OpPut (str "a") (str "1")]).2 in
  exists d' e1 e2 e3,
    crash_states (files (fs e)) (AppendPut (wal_path (str "db")) (str "b") (str "2")) d' /\
    start (str "db") d' = (Ret tt, e1) /\
    Engine.Put (str "c") (str "3") e1 = (Ret tt, e2) /\ Engine.Get (str "c") e2 = Some (str "3") /\
    start (str "db") (files (fs e2)) = (Ret tt, e3) /\
    Engine.Get (str "a") e3 = Some (str "1") /\ Engine.Get (str "c") e3 = None.
Proof.
  set (e := (boot _ _ _).2).
  set (d' := fs_apply (files (fs e)) (FsAppend (wal_path (str "db"))
    (take 12 (record_bytes kPut (str "b") (str "2"))))).
  set (e1 := (start (str "db") d').2). set (e2 := (Engine.Put (str "c") (str "3") e1).2).
  exists d', e1, e2, (start (str "db") (files (fs e2))).2.
  split_and!; [apply crash_torn|apply returns|apply returns| |apply returns| |]; by vm_compute.
Qed.
