(* ===== verification/RaftTypes.v ===== *)
(** * Types shared by the Raft modules ([src/raft/types.h], [LogEntry] of [src/raft/message.h])

    [NodeId] is a 32-bit, [Term] and [LogIndex] are 64-bit unsigned integers; a port has 16
    bits.  The ranges are stated where they matter ([peer_ok], [entry_ok]). *)

From Stdlib Require Import NArith Lia.
From S2P Require Export Codec Decimal.

Abbreviation NodeId := N.
Abbreviation Term := N.
Abbreviation LogIndex := N.

Record PeerAddress := { host : bytes; port : N }.

#[export] Instance PeerAddress_eq_dec : EqDecision PeerAddress.
Proof. solve_decision. Defined.

(** [PeerAddress{}]: the port of a default-initialised address is never read before it is
    assigned; it is taken to be 0. *)
Definition no_address : PeerAddress := {| host := []; port := 0 |}.

Abbreviation peer_map := (gmap N PeerAddress).

Record LogEntry := { index : LogIndex; term : Term; command : bytes }.

#[export] Instance LogEntry_eq_dec : EqDecision LogEntry.
Proof. solve_decision. Defined.

(** ** Ranges *)

Definition address_ok (a : PeerAddress) : Prop := fits32 (host a) /\ (port a < two16)%N.
Definition peer_ok (p : NodeId * PeerAddress) : Prop := (p.1 < two32)%N /\ address_ok p.2.

Definition entry_ok (e : LogEntry) : Prop :=
  (index e < two64)%N /\ (term e < two64)%N /\ fits32 (command e).

(** ** Tags *)

Definition bool_u8 (b : bool) : N := if b then 1 else 0.

Lemma bool_u8_bound b : (bool_u8 b < 256)%N.
Proof. by destruct b. Qed.

Lemma bool_u8_round_trip b : negb (bool_u8 b =? 0)%N = b.
Proof. by destruct b. Qed.

#[export] Hint Resolve bool_u8_bound : codec.
