(* ===== verification/RaftSpec.v ===== *)
(** * The protocol the nodes follow

    Raft as a transition system: every node has a term and a log, and the history
    records who led which term with which log, the logs the candidates stood with, the votes, and
    which prefix of a leader's log each node has acknowledged.  What a majority has acknowledged,
    up to an entry of the leader's own term, is committed.  Committed logs never disagree
    ([committed_comparable]) and every later leader has them ([committed_in_lead]); the cluster of
    nodes is shown to follow this protocol in the files that build on this one. *)

From Stdlib Require Import NArith Lia.
From stdpp Require Import fin_sets.
From S2P Require Export RaftTypes.

(** Two majorities share a member. *)
Lemma majorities_meet (M Q1 Q2 : gset N) : Q1 ⊆ M -> Q2 ⊆ M -> (size M < 2 * size Q1)%nat -> (size M < 2 * size Q2)%nat ->
  exists p, p ∈ Q1 /\ p ∈ Q2.
Proof.
  intros H1 H2 L1 L2. destruct (decide (Q1 ∩ Q2 = ∅)) as [E|Hne]; [|apply set_choose_L in Hne as [p Hp]; set_solver].
  assert (Hs : size (Q1 ∪ Q2) <= size M) by (apply subseteq_size; set_solver).
  rewrite size_union in Hs by set_solver. lia.
Qed.

(** ** States *)

(** A log from its first entry on, compacted or not. *)
Abbreviation full_log := (list LogEntry).

Record participant := Participant { a_term : N; a_log : full_log }.

Record raft := Raft {
  a_nodes : gmap N participant;
  a_lead : gmap N (N * full_log);        (** term: its leader, and the log it has as such *)
  a_cand : gmap (N * N) full_log;        (** term and candidate: the log it stood with *)
  a_votes : gset (N * N * N);            (** voter, term, candidate *)
  a_acks : gset (N * N * nat);           (** node, term, and how much of that leader's log it has *)
}.

Definition with_node (p : N) (x : participant) (a : raft) : raft :=
  Raft (<[p := x]> (a_nodes a)) (a_lead a) (a_cand a) (a_votes a) (a_acks a).
Definition with_lead (t p : N) (L : full_log) (a : raft) : raft :=
  Raft (a_nodes a) (<[t := (p, L)]> (a_lead a)) (a_cand a) (a_votes a) (a_acks a).
Definition with_cand (t p : N) (K : full_log) (a : raft) : raft :=
  Raft (a_nodes a) (a_lead a) (<[(t, p) := K]> (a_cand a)) (a_votes a) (a_acks a).
Definition with_vote (p t k : N) (a : raft) : raft :=
  Raft (a_nodes a) (a_lead a) (a_cand a) ({[(p, t, k)]} ∪ a_votes a) (a_acks a).
Definition with_ack (p t : N) (j : nat) (a : raft) : raft :=
  Raft (a_nodes a) (a_lead a) (a_cand a) (a_votes a) ({[(p, t, j)]} ∪ a_acks a).

Definition last_term (f : full_log) : N := match last f with Some e => term e | None => 0 end.

(** [K] is at least as up to date as [f]. *)
Definition at_least (K f : full_log) : Prop :=
  (last_term f < last_term K)%N \/ last_term K = last_term f /\ (length f <= length K)%nat.

(** Adopting a log replaces the one there is unless it goes on from it. *)
Definition adopt (C f : full_log) : full_log := if decide (C `prefix_of` f) then f else C.

Section protocol.
Context (M : gset N).
Implicit Types (a : raft) (f C D K L : full_log) (p q k t T : N).

Definition quorum (Q : gset N) : Prop := Q ⊆ M /\ (size M < 2 * size Q)%nat.

(** The log [D] ends with an entry of term [t] and a majority has acknowledged it to its leader. *)
Definition decided a t D : Prop :=
  exists q L i e Q, a_lead a !! t = Some (q, L) /\ L !! i = Some e /\ term e = t /\ D = take (S i) L /\
    quorum Q /\ forall p, p ∈ Q -> exists j, (S i <= j)%nat /\ (p, t, j) ∈ a_acks a.

Definition committed a t C : Prop := exists D, decided a t D /\ C `prefix_of` D.

(** The steps of node [p]. *)
Inductive raft_step p a : raft -> Prop :=
| raft_term x t :
    a_nodes a !! p = Some x -> (a_term x <= t)%N -> raft_step p a (with_node p (Participant t (a_log x)) a)
| raft_stand x (t := (a_term x + 1)%N) :
    a_nodes a !! p = Some x ->
    raft_step p a (with_vote p t p (with_cand t p (a_log x) (with_node p (Participant t (a_log x)) a)))
| raft_vote x k K :
    a_nodes a !! p = Some x -> a_cand a !! (a_term x, k) = Some K -> at_least K (a_log x) ->
    (forall k', (p, a_term x, k') ∈ a_votes a -> k' = k) -> raft_step p a (with_vote p (a_term x) k a)
| raft_lead x E :
    a_nodes a !! p = Some x -> a_lead a !! a_term x = None -> quorum E ->
    (forall q, q ∈ E -> (q, a_term x, p) ∈ a_votes a) -> raft_step p a (with_lead (a_term x) p (a_log x) a)
| raft_propose x L e :
    a_nodes a !! p = Some x -> a_lead a !! a_term x = Some (p, L) -> term e = a_term x ->
    raft_step p a (with_lead (a_term x) p (L ++ [e]) (with_node p (Participant (a_term x) (L ++ [e])) a))
| raft_accept x q L m :
    a_nodes a !! p = Some x -> a_lead a !! a_term x = Some (q, L) -> q <> p -> (m <= length L)%nat ->
    raft_step p a (with_node p (Participant (a_term x) (adopt (take m L) (a_log x))) a)
| raft_install x t C :
    a_nodes a !! p = Some x -> committed a t C -> (t <= a_term x)%N ->
    raft_step p a (with_node p (Participant (a_term x) (adopt C (a_log x))) a)
| raft_ack x q L j :
    a_nodes a !! p = Some x -> a_lead a !! a_term x = Some (q, L) -> (j <= length L)%nat ->
    take j L `prefix_of` a_log x -> raft_step p a (with_ack p (a_term x) j a).

(** Empty logs, nobody has stood, voted, led or acknowledged. *)
Definition raft_initial a : Prop :=
  a_lead a = ∅ /\ a_cand a = ∅ /\ a_votes a = ∅ /\ a_acks a = ∅ /\ map_Forall (fun _ x => a_log x = []) (a_nodes a).

(** ** The invariant *)

(** Every prefix of the log is one of the log of the leader of its last term. *)
Definition matching a f : Prop :=
  forall i e, f !! i = Some e -> exists q L, a_lead a !! term e = Some (q, L) /\ take (S i) f `prefix_of` L.

Definition upto t f : Prop := Forall (fun e => (term e <= t)%N) f.

(** The leader of [T] does not have [C]. *)
Definition overruled a T C : Prop := exists q L, a_lead a !! T = Some (q, L) /\ ~ C `prefix_of` L.

(** What the vote of [p] for a candidate that stood in term [T] with [K] says: what [p] had
    acknowledged is in [K], or an earlier leader than [T] lacks it. *)
Definition vouched a p T K : Prop :=
  forall t j q L i e, (p, t, j) ∈ a_acks a -> (t < T)%N -> a_lead a !! t = Some (q, L) -> L !! i = Some e ->
    term e = t -> (S i <= j)%nat ->
    take (S i) L `prefix_of` K \/ exists T', (t < T' < T)%N /\ overruled a T' (take (S i) L).

Definition reached a p t : Prop := exists x, a_nodes a !! p = Some x /\ (t <= a_term x)%N.

Record sound a : Prop := {
  s_node p x : a_nodes a !! p = Some x -> matching a (a_log x) /\ upto (a_term x) (a_log x);
  s_lead t q L : a_lead a !! t = Some (q, L) -> matching a L /\ upto t L /\ reached a q t;
  s_cand t k K : a_cand a !! (t, k) = Some K ->
    matching a K /\ Forall (fun e => (term e < t)%N) K /\ reached a k t;
  s_owner p x L : a_nodes a !! p = Some x -> a_lead a !! a_term x = Some (p, L) -> a_log x = L;
  s_vote p t k : (p, t, k) ∈ a_votes a -> reached a p t /\ exists K, a_cand a !! (t, k) = Some K;
  s_once p t k k' : (p, t, k) ∈ a_votes a -> (p, t, k') ∈ a_votes a -> k = k';
  s_ack p t j : (p, t, j) ∈ a_acks a -> exists q L x,
    a_lead a !! t = Some (q, L) /\ (j <= length L)%nat /\ a_nodes a !! p = Some x /\ (t <= a_term x)%N /\
    forall i, (i <= j)%nat -> take i L `prefix_of` a_log x \/
      exists T, (t < T <= a_term x)%N /\ overruled a T (take i L);
  s_vouched p T k K : (p, T, k) ∈ a_votes a -> a_cand a !! (T, k) = Some K -> a_lead a !! T = None -> vouched a p T K;
  s_elected T k L : a_lead a !! T = Some (k, L) -> exists E K, quorum E /\ a_cand a !! (T, k) = Some K /\
    K `prefix_of` L /\ forall p, p ∈ E -> (p, T, k) ∈ a_votes a /\ vouched a p T K;
  s_standing p x K : a_nodes a !! p = Some x -> a_lead a !! a_term x = None -> a_cand a !! (a_term x, p) = Some K ->
    a_log x = K \/ exists t C, (t < a_term x)%N /\ committed a t C /\ ~ C `prefix_of` K;
  s_nonzero t k K : a_cand a !! (t, k) = Some K -> t <> 0%N;
}.

(** ** Logs *)

Lemma prefix_take_same (f L : full_log) i : f `prefix_of` L -> (i <= length f)%nat -> take i f = take i L.
Proof. intros [k ->] Hi. by rewrite take_app_le. Qed.

Lemma take_prefix_mono (L : full_log) i j : (i <= j)%nat -> take i L `prefix_of` take j L.
Proof. intros Hij. rewrite <- (take_drop i (take j L)), take_take. replace (i `min` j)%nat with i by lia. by apply prefix_app_r. Qed.

Lemma prefix_is_take (f L : full_log) : f `prefix_of` L -> f = take (length f) L.
Proof. intros [k ->]. by rewrite take_app_length. Qed.

Lemma matching_prefix a f g : matching a f -> g `prefix_of` f -> matching a g.
Proof.
  intros Hm Hp i e Hi. destruct (Hm i e) as (q & L & HL & Hf); [by eapply prefix_lookup_Some|].
  exists q, L. split; [done|]. rewrite (prefix_take_same g f) by (done || apply lookup_lt_Some in Hi; lia). done.
Qed.

Lemma upto_prefix t f g : upto t f -> g `prefix_of` f -> upto t g.
Proof. intros Hu [k ->]. by apply Forall_app in Hu as [? _]. Qed.

Lemma adopt_has C f : C `prefix_of` adopt C f.
Proof. unfold adopt. by case_decide. Qed.

(** A common prefix of both survives. *)
Lemma adopt_keeps C D f : D `prefix_of` f -> D `prefix_of` C \/ C `prefix_of` D -> D `prefix_of` adopt C f.
Proof. intros Hf Hc. unfold adopt. case_decide as Hd; [done|]. destruct Hc as [?|?]; [done|]. destruct Hd. by etrans. Qed.

Lemma prefix_of_snoc (C f : full_log) e : C `prefix_of` f ++ [e] -> C `prefix_of` f \/ C = f ++ [e].
Proof.
  intros [k Hk]. destruct k as [|e' k _] using rev_ind; [right; by rewrite app_nil_r in Hk|left].
  rewrite app_assoc in Hk. apply app_inj_tail in Hk as [-> _]. by apply prefix_app_r.
Qed.

(** ** What the invariant says about committed logs *)

Section facts.
Context (a : raft) (Hs : sound a).

(** Two logs that end in the same term are prefixes of one another's extension. *)
Lemma matching_comparable f g i j e e' :
  matching a f -> matching a g -> f !! i = Some e -> g !! j = Some e' -> term e = term e' -> (i <= j)%nat ->
  take (S i) f `prefix_of` take (S j) g.
Proof.
  intros Hf Hg Hi Hj Et Hij. destruct (Hf i e Hi) as (q & L & HL & H1). destruct (Hg j e' Hj) as (q' & L' & HL' & H2).
  rewrite Et in HL. simplify_eq.
  destruct (prefix_weak_total _ _ _ H1 H2) as [?|H3]; [done|].
  assert (E : take (S j) g = take (S i) f); [|by rewrite E].
  apply prefix_length_eq; [done|]. apply lookup_lt_Some in Hi, Hj. rewrite !length_take. lia.
Qed.

Lemma decided_prefix t D q L : decided a t D -> a_lead a !! t = Some (q, L) -> D `prefix_of` L.
Proof. intros (q' & L' & i & e & Q & HL' & _ & _ & -> & _) HL. simplify_eq. apply prefix_take. Qed.

(** A candidate a majority has voted for has what was decided before. *)
Lemma vouched_has t D T K E :
  quorum E -> (forall p, p ∈ E -> vouched a p T K) -> decided a t D -> (t < T)%N ->
  (forall T' q L, (t < T' < T)%N -> a_lead a !! T' = Some (q, L) -> D `prefix_of` L) -> D `prefix_of` K.
Proof.
  intros [HE1 HE2] Hv (q & L & i & e & Q & HL & Hi & He & -> & [HQ1 HQ2] & Hacks) Ht IH.
  destruct (majorities_meet M E Q) as (p & PE & PQ); [done..|].
  destruct (Hacks p PQ) as (j & Hj & Hack).
  destruct (Hv p PE t j q L i e) as [?|(T' & HT' & q' & L' & HL' & Hn)]; [done..|].
  destruct Hn. by eapply IH.
Qed.

(** Every later leader has what was decided before. *)
Lemma decided_in_lead t D T q L : decided a t D -> (t < T)%N -> a_lead a !! T = Some (q, L) -> D `prefix_of` L.
Proof.
  intros Hd. revert q L. induction T as [T IH] using (well_founded_induction N.lt_wf_0). intros q L Ht HL.
  destruct (s_elected a Hs T q L HL) as (E & K & HE & HK & HKL & Hall).
  trans K; [|done]. eapply (vouched_has t D T K E); [done|by intros p Hp; apply Hall|done|done|].
  intros T' q' L' [H1 H2] HL'. by eapply IH.
Qed.

Lemma committed_in_lead t C T q L : committed a t C -> (t <= T)%N -> a_lead a !! T = Some (q, L) -> C `prefix_of` L.
Proof.
  intros (D & Hd & HC) Ht HL. trans D; [done|]. destruct (decide (t = T)) as [->|Hne].
  - by eapply decided_prefix.
  - apply (decided_in_lead t D T q L); [done|lia|done].
Qed.

Lemma committed_lead t C : committed a t C -> exists q L, a_lead a !! t = Some (q, L).
Proof. intros (D & (q & L & i & e & Q & HL & _) & _). eauto. Qed.

(** Committed logs never disagree. *)
Lemma committed_comparable t1 t2 C1 C2 : committed a t1 C1 -> committed a t2 C2 -> C1 `prefix_of` C2 \/ C2 `prefix_of` C1.
Proof.
  intros H1 H2. destruct (committed_lead _ _ H1) as (q1 & L1 & HL1), (committed_lead _ _ H2) as (q2 & L2 & HL2).
  destruct (decide (t1 <= t2)%N).
  - eapply prefix_weak_total; [apply (committed_in_lead t1 C1 t2 q2 L2)|apply (committed_in_lead t2 C2 t2 q2 L2)]; done.
  - eapply prefix_weak_total; [apply (committed_in_lead t1 C1 t1 q1 L1)|apply (committed_in_lead t2 C2 t1 q1 L1)]; (done || lia).
Qed.

Lemma committed_matching t C : committed a t C -> matching a C /\ upto t C.
Proof.
  intros Hc. destruct (committed_lead _ _ Hc) as (q & L & HL). destruct (s_lead a Hs t q L HL) as (Hm & Hu & _).
  pose proof (committed_in_lead t C t q L Hc (N.le_refl t) HL) as Hp. split; [by eapply matching_prefix|by eapply upto_prefix].
Qed.

(** The log a candidate with a majority stood with is the one it still has. *)
Lemma elected_log p x E K :
  a_nodes a !! p = Some x -> a_lead a !! a_term x = None -> quorum E ->
  (forall q, q ∈ E -> (q, a_term x, p) ∈ a_votes a) -> a_cand a !! (a_term x, p) = Some K ->
  a_log x = K /\ forall q, q ∈ E -> vouched a q (a_term x) K.
Proof.
  intros Hx HL HE Hv HK.
  assert (Hall : forall q, q ∈ E -> vouched a q (a_term x) K) by (intros q Hq; by eapply (s_vouched a Hs); [apply Hv|..]).
  split; [|done]. destruct (s_standing a Hs p x K Hx HL HK) as [?|(t & C & Ht & (D & Hd & HC) & Hn)]; [done|].
  destruct Hn. trans D; [done|]. eapply vouched_has; [done..|]. intros T' q L HT' HL'. apply (decided_in_lead t D T' q L); [done|lia|done].
Qed.

(** What a node may adopt keeps what is committed of its log. *)
Lemma accept_keeps t C T q L m f :
  committed a t C -> (t <= T)%N -> a_lead a !! T = Some (q, L) -> C `prefix_of` f -> C `prefix_of` adopt (take m L) f.
Proof.
  intros Hc Ht HL Hf. apply adopt_keeps; [done|]. eapply prefix_weak_total; [by eapply committed_in_lead|apply prefix_take].
Qed.

Lemma install_keeps t C t' C' f : committed a t C -> committed a t' C' -> C `prefix_of` f -> C `prefix_of` adopt C' f.
Proof. intros Hc Hc' Hf. apply adopt_keeps; [done|]. by eapply committed_comparable. Qed.
End facts.

(** ** The steps keep the invariant *)

(** Leaders' logs only get entries of their terms at the end. *)
Record grows a a' : Prop := {
  g_lead t q L : a_lead a !! t = Some (q, L) -> exists L', a_lead a' !! t = Some (q, L') /\ L `prefix_of` L' /\
    forall C, Forall (fun e => (term e < t)%N) C -> C `prefix_of` L' -> C `prefix_of` L;
  g_acks : a_acks a ⊆ a_acks a';
}.

Lemma grows_refl a a' : a_lead a' = a_lead a -> a_acks a ⊆ a_acks a' -> grows a a'.
Proof. intros E Ha. split; [|done]. intros t q L HL. exists L. rewrite E. by split_and!. Qed.

Lemma matching_mono a a' f : grows a a' -> matching a f -> matching a' f.
Proof.
  intros Hg Hm i e Hi. destruct (Hm i e Hi) as (q & L & HL & Hp). destruct (g_lead _ _ Hg _ _ _ HL) as (L' & HL' & HLL & _).
  exists q, L'. split; [done|by etrans].
Qed.

Lemma overruled_mono a a' T C : grows a a' -> Forall (fun e => (term e < T)%N) C -> overruled a T C -> overruled a' T C.
Proof.
  intros Hg Hu (q & L & HL & Hn). destruct (g_lead _ _ Hg _ _ _ HL) as (L' & HL' & _ & Hold).
  exists q, L'. split; [done|]. intros Hp. by apply Hn, Hold.
Qed.

Lemma decided_mono a a' t D : grows a a' -> decided a t D -> decided a' t D.
Proof.
  intros Hg (q & L & i & e & Q & HL & Hi & He & -> & HQ & Hacks). destruct (g_lead _ _ Hg _ _ _ HL) as (L' & HL' & HLL & _).
  exists q, L', i, e, Q. split_and!; try done.
  - by eapply prefix_lookup_Some.
  - apply prefix_take_same; [done|]. apply lookup_lt_Some in Hi. lia.
  - intros p Hp. destruct (Hacks p Hp) as (j & Hj & Ha). exists j. split; [done|]. by apply (g_acks _ _ Hg).
Qed.

Lemma committed_mono a a' t C : grows a a' -> committed a t C -> committed a' t C.
Proof. intros Hg (D & Hd & HC). exists D. split; [by eapply decided_mono|done]. Qed.

Lemma upto_take_lt t T L i : upto t L -> (t < T)%N -> Forall (fun e => (term e < T)%N) (take i L).
Proof. intros Hu Ht. apply Forall_take. eapply Forall_impl; [exact Hu|]. cbn. lia. Qed.

Lemma vouched_mono a a' p T K : sound a -> grows a a' -> a_acks a' = a_acks a -> vouched a p T K -> vouched a' p T K.
Proof.
  intros Hs Hg Ea Hv t j q L' i e Hack Ht HL' Hi He Hj. rewrite Ea in Hack.
  destruct (s_ack a Hs p t j Hack) as (q0 & L & x & HL & Hjl & _). destruct (s_lead a Hs _ _ _ HL) as (_ & Hu & _).
  destruct (g_lead _ _ Hg _ _ _ HL) as (L'' & HL'' & HLL & _). simplify_eq.
  assert (Et : take (S i) L = take (S i) L') by (apply prefix_take_same; [done|lia]).
  assert (Hi' : L !! i = Some e) by (by rewrite (prefix_lookup_lt L L' i) by (done || lia)).
  rewrite <- Et. destruct (Hv (term e) j q L i e) as [?|(T' & HT' & Ho)]; [done..|by left|right].
  exists T'. split; [done|]. eapply overruled_mono; [done|eapply upto_take_lt; [exact Hu|lia]|done].
Qed.

Lemma reached_node a p x y q t : a_nodes a !! p = Some x -> (a_term x <= a_term y)%N -> reached a q t -> reached (with_node p y a) q t.
Proof.
  intros Hx Hle (z & Hz & Ht). unfold reached, with_node. cbn. destruct (decide (p = q)) as [<-|Hne].
  - simplify_eq. rewrite lookup_insert_eq. exists y. split; [done|lia].
  - rewrite lookup_insert_ne by done. eauto.
Qed.

(** A change of one node's term and log. *)
Lemma sound_node a p x t f :
  sound a -> a_nodes a !! p = Some x -> (a_term x <= t)%N -> matching a f -> upto t f ->
  (forall L, a_lead a !! t = Some (p, L) -> f = L) ->
  (forall t' j q L i, (p, t', j) ∈ a_acks a -> a_lead a !! t' = Some (q, L) -> (t' <= a_term x)%N -> (i <= j <= length L)%nat ->
     take i L `prefix_of` a_log x -> take i L `prefix_of` f \/ exists T, (t' < T <= t)%N /\ overruled a T (take i L)) ->
  (forall K, a_lead a !! t = None -> a_cand a !! (t, p) = Some K ->
     f = K \/ exists t' C, (t' < t)%N /\ committed a t' C /\ ~ C `prefix_of` K) ->
  sound (with_node p (Participant t f) a).
Proof.
  intros Hs Hx Hle Hm Hu Ho Ha Hst.
  assert (Hr : forall q u, reached a q u -> reached (with_node p (Participant t f) a) q u) by (intros q u; by eapply reached_node).
  assert (Hcase : forall q y, a_nodes (with_node p (Participant t f) a) !! q = Some y ->
    q = p /\ y = Participant t f \/ q <> p /\ a_nodes a !! q = Some y).
  { intros q y. cbn. destruct (decide (p = q)) as [<-|Hne]; [rewrite lookup_insert_eq; intros [= <-]; by left|].
    rewrite lookup_insert_ne by done. by right. }
  split; cbn [with_node a_lead a_cand a_votes a_acks].
  - intros q y [[-> ->]|[_ Hy]]%Hcase; [done|by apply (s_node a Hs q)].
  - intros u q L HL. destruct (s_lead a Hs u q L HL) as (?&?&?). auto.
  - intros u k K HK. destruct (s_cand a Hs u k K HK) as (?&?&?). auto.
  - intros q y L [[-> ->]|[_ Hy]]%Hcase; [by apply Ho|by apply (s_owner a Hs)].
  - intros q u k Hv. destruct (s_vote a Hs q u k Hv) as [? ?]. auto.
  - apply (s_once a Hs).
  - intros q u j Hj. destruct (s_ack a Hs q u j Hj) as (k & L & y & HL & Hjl & Hy & Hu' & Hi). exists k, L. cbn [a_nodes with_node].
    destruct (decide (p = q)) as [<-|Hne]; [|exists y; by rewrite lookup_insert_ne].
    simplify_eq. exists (Participant t f). rewrite lookup_insert_eq. cbn [a_term a_log].
    split_and!; [done|done|done|lia|]. intros i Hij.
    destruct (Hi i Hij) as [Hp|(T & HT & Hov)]; [by eapply Ha; [..|exact Hp]|right; exists T; split; [lia|done]].
  - apply (s_vouched a Hs).
  - apply (s_elected a Hs).
  - intros q y K [[-> ->]|[_ Hy]]%Hcase; [by apply Hst|by apply (s_standing a Hs)].
  - apply (s_nonzero a Hs).
Qed.

Lemma sound_term a p x t : sound a -> a_nodes a !! p = Some x -> (a_term x <= t)%N -> sound (with_node p (Participant t (a_log x)) a).
Proof.
  intros Hs Hx Hle. destruct (s_node a Hs p x Hx) as [Hm Hu]. eapply sound_node; try done.
  - eapply Forall_impl; [exact Hu|]. cbn. lia.
  - intros L HL. destruct (s_lead a Hs t p L HL) as (_ & _ & (y & Hy & Ht)). simplify_eq.
    assert (t = a_term x) as -> by lia. by apply (s_owner a Hs p).
  - by left.
  - intros K HL HK. destruct (s_cand a Hs t p K HK) as (_ & _ & (y & Hy & Ht)). simplify_eq.
    assert (t = a_term x) as -> by lia. by apply (s_standing a Hs p).
Qed.

Lemma sound_cand a p x :
  sound a -> a_nodes a !! p = Some x -> a_cand a !! (a_term x, p) = None ->
  a_term x <> 0%N -> Forall (fun e => (term e < a_term x)%N) (a_log x) -> sound (with_cand (a_term x) p (a_log x) a).
Proof.
  intros Hs Hx Hn Hz Hlt. assert (Hold : forall t k K, a_cand (with_cand (a_term x) p (a_log x) a) !! (t, k) = Some K ->
    (t, k) = (a_term x, p) /\ K = a_log x \/ (t, k) <> (a_term x, p) /\ a_cand a !! (t, k) = Some K).
  { intros t k K. cbn. destruct (decide ((a_term x, p) = (t, k))) as [<-|Hne]; [rewrite lookup_insert_eq; intros [= <-]; by left|].
    rewrite lookup_insert_ne by done. right. auto. }
  assert (Hnew : forall t k K, a_cand a !! (t, k) = Some K -> a_cand (with_cand (a_term x) p (a_log x) a) !! (t, k) = Some K).
  { intros t k K HK. cbn. rewrite lookup_insert_ne; [done|]. intros [= <- <-]. congruence. }
  split; cbn [with_cand a_lead a_nodes a_votes a_acks].
  - apply (s_node a Hs).
  - apply (s_lead a Hs).
  - intros t k K [[[= -> ->] ->]|[_ HK]]%Hold; [|by apply (s_cand a Hs)].
    split_and!; [by apply (s_node a Hs p x)|done|]. by exists x.
  - apply (s_owner a Hs).
  - intros q t k Hv. destruct (s_vote a Hs q t k Hv) as [? [K HK]]. split; [done|]. exists K. by apply Hnew.
  - apply (s_once a Hs).
  - apply (s_ack a Hs).
  - intros q T k K Hv [[[= -> ->] ->]|[_ HK]]%Hold HL; [|by apply (s_vouched a Hs q T k)].
    destruct (s_vote a Hs _ _ _ Hv) as [_ [K HK]]. congruence.
  - intros T k L HL. destruct (s_elected a Hs T k L HL) as (E & K & HE & HK & ?). exists E, K. eauto.
  - intros q y K Hy HL [[[= Et ->] ->]|[_ HK]]%Hold; [left; congruence|by apply (s_standing a Hs q)].
  - intros t k K [[[= -> ->] ->]|[_ HK]]%Hold; [done|by eapply (s_nonzero a Hs)].
Qed.

Lemma sound_vote a p t k K :
  sound a -> reached a p t -> a_cand a !! (t, k) = Some K -> (forall k', (p, t, k') ∈ a_votes a -> k' = k) ->
  (a_lead a !! t = None -> vouched a p t K) -> sound (with_vote p t k a).
Proof.
  intros Hs Hr HK Hu Hv.
  assert (Hcase : forall q u l, (q, u, l) ∈ a_votes (with_vote p t k a) -> (q, u, l) = (p, t, k) \/ (q, u, l) ∈ a_votes a)
    by (intros q u l; cbn; set_solver).
  split; cbn [with_vote a_lead a_nodes a_cand a_acks].
  - apply (s_node a Hs).
  - apply (s_lead a Hs).
  - apply (s_cand a Hs).
  - apply (s_owner a Hs).
  - intros q u l [[= -> -> ->]|Hq]%Hcase; [eauto|by apply (s_vote a Hs)].
  - intros q u l l' [[= -> -> ->]|Hq]%Hcase [[= ->]|Hq']%Hcase; [done|symmetry; by apply Hu|subst; by apply Hu|by eapply (s_once a Hs)].
  - apply (s_ack a Hs).
  - intros q u l K' [[= -> -> ->]|Hq]%Hcase HK' HL; [|by eapply (s_vouched a Hs)].
    simplify_eq. by apply Hv.
  - intros u l L HL. destruct (s_elected a Hs u l L HL) as (E & K' & HE & HK' & HKL & Hall). exists E, K'.
    split_and!; [done..|]. intros q Hq. destruct (Hall q Hq) as [? ?]. split; [|done]. cbn. set_solver.
  - apply (s_standing a Hs).
  - apply (s_nonzero a Hs).
Qed.

(** A voter vouches for a candidate whose log is at least as up to date as its own. *)
Lemma up_to_date_vouches a p x k K :
  sound a -> a_nodes a !! p = Some x -> a_cand a !! (a_term x, k) = Some K -> at_least K (a_log x) ->
  a_lead a !! a_term x = None -> vouched a p (a_term x) K.
Proof.
  intros Hs Hx HK Hup HL0 t j q L i e Hack Ht HL Hi He Hj.
  destruct (s_ack a Hs p t j Hack) as (q' & L' & y & HL' & Hjl & Hy & _ & Hall). simplify_eq.
  destruct (Hall (S i) Hj) as [Hp|(T & [H1 H2] & Ho)].
  2:{ right. exists T. split; [|done]. destruct Ho as (q1 & L1 & HL1 & _). assert (T <> a_term x) by congruence. lia. }
  assert (Hix : a_log x !! i = Some e).
  { eapply prefix_lookup_Some; [|exact Hp]. rewrite lookup_take. by rewrite decide_True by lia. }
  destruct (s_node a Hs p x Hx) as [Hm _]. destruct (s_cand a Hs _ _ _ HK) as (HmK & HuK & _).
  assert (Hlast : exists l, last (a_log x) = Some l) by (apply last_is_Some; intros E; by rewrite E in Hix).
  destruct Hlast as [l Hl]. assert (Hl' := Hl). rewrite last_lookup in Hl'.
  assert (Hlen : (i <= pred (length (a_log x)))%nat) by (apply lookup_lt_Some in Hix; lia).
  assert (Hle : (term e <= term l)%N).
  { destruct (Hm _ _ Hl') as (q1 & L1 & HL1 & Hp1). destruct (s_lead a Hs _ _ _ HL1) as (_ & Hu1 & _).
    unfold upto in Hu1. rewrite Forall_lookup in Hu1. apply (Hu1 i). eapply prefix_lookup_Some; [|exact Hp1].
    rewrite lookup_take. by rewrite decide_True by lia. }
  assert (Elt : last_term (a_log x) = term l) by (unfold last_term; by rewrite Hl). unfold at_least in Hup. rewrite Elt in Hup.
  assert (HlK : exists lK, last K = Some lK /\ term lK = last_term K).
  { unfold last_term in *. destruct (last K) as [lK|] eqn:EK; [eauto|]. exfalso.
    destruct Hup as [?|[Hz Hlen']]; [lia|]. apply last_None in EK. rewrite EK in Hlen'. cbn in Hlen'.
    apply lookup_lt_Some in Hix. lia. }
  destruct HlK as (lK & HlK & ElK). rewrite <- ElK in Hup. rewrite last_lookup in HlK.
  assert (HtK : (term lK < a_term x)%N) by (rewrite Forall_lookup in HuK; by eapply HuK).
  destruct Hup as [Hlt|[Eq Hlen']].
  - (* a later leader's entry ends [K] *)
    destruct (HmK _ _ HlK) as (q1 & L1 & HL1 & Hp1).
    destruct (decide (take (S i) L `prefix_of` L1)) as [Hin|Hout]; [left|right; exists (term lK); split; [lia|by exists q1, L1]].
    assert (EK : take (S (pred (length K))) K = K) by (apply take_ge; lia). rewrite EK in Hp1.
    destruct (prefix_weak_total _ _ _ Hin Hp1) as [?|HK1]; [done|]. exfalso.
    assert (He' : take (S i) L !! pred (length K) = Some lK) by (by eapply prefix_lookup_Some).
    apply lookup_take_Some in He' as [He' _]. destruct (s_lead a Hs _ _ _ HL) as (_ & Hu & _).
    unfold upto in Hu. rewrite Forall_lookup in Hu. specialize (Hu _ _ He'). lia.
  - left. etrans; [exact Hp|].
    pose proof (matching_comparable a (a_log x) K _ _ _ _ Hm HmK Hl' HlK (eq_sym Eq)) as Hc.
    rewrite !take_ge in Hc by lia. apply Hc. lia.
Qed.

(** The leader's log is the one of its term's history: when it is elected, and when it proposes. *)
Definition leading a p x L : Prop :=
  a_lead a !! a_term x = None /\ L = a_log x \/
  a_lead a !! a_term x = Some (p, a_log x) /\ exists e, L = a_log x ++ [e] /\ term e = a_term x.

Definition now_leads p x L a : raft := with_lead (a_term x) p L (with_node p (Participant (a_term x) L) a).

Lemma leading_grows a p x L : leading a p x L -> grows a (now_leads p x L a).
Proof.
  intros Hl. split; [|done]. intros t q L0 HL0. cbn. destruct (decide (a_term x = t)) as [<-|Hne].
  - rewrite lookup_insert_eq. destruct Hl as [[? _]|[HL (e & -> & Et)]]; simplify_eq. exists (a_log x ++ [e]).
    split_and!; [done|by apply prefix_app_r|]. intros C HC [?| ->]%prefix_of_snoc; [done|].
    apply Forall_app in HC as [_ HC]. apply Forall_cons in HC as [HC _]. lia.
  - rewrite lookup_insert_ne by done. exists L0. by split_and!.
Qed.

Definition acked a p t j : Prop := exists q L x,
  a_lead a !! t = Some (q, L) /\ (j <= length L)%nat /\ a_nodes a !! p = Some x /\ (t <= a_term x)%N /\
  forall i, (i <= j)%nat -> take i L `prefix_of` a_log x \/
    exists T, (t < T <= a_term x)%N /\ overruled a T (take i L).

Lemma acked_mono a a' p t j :
  sound a -> grows a a' ->
  (forall q y, a_nodes a !! q = Some y -> exists y', a_nodes a' !! q = Some y' /\ a_term y' = a_term y /\ a_log y `prefix_of` a_log y') ->
  acked a p t j -> acked a' p t j.
Proof.
  intros Hs Hg Hn (q & L & x & HL & Hj & Hx & Ht & Hall). destruct (Hn p x Hx) as (x' & Hx' & Et & Hlog).
  destruct (g_lead _ _ Hg _ _ _ HL) as (L' & HL' & HLL & _). destruct (s_lead a Hs _ _ _ HL) as (_ & Hu & _).
  exists q, L', x'. rewrite Et. split_and!; [done|apply prefix_length in HLL; lia|done|done|]. intros i Hi.
  rewrite <- (prefix_take_same L L') by (done || lia). destruct (Hall i Hi) as [?|(T & HT & Ho)]; [left; by etrans|right].
  exists T. split; [done|]. eapply overruled_mono; [done|eapply upto_take_lt; [done|lia]|done].
Qed.

Lemma now_leads_nodes a p x L q y : a_nodes (now_leads p x L a) !! q = Some y ->
  q = p /\ y = Participant (a_term x) L \/ q <> p /\ a_nodes a !! q = Some y.
Proof.
  cbn. destruct (decide (p = q)) as [<-|Hne]; [rewrite lookup_insert_eq; intros [= <-]; by left|].
  rewrite lookup_insert_ne by done. by right.
Qed.

Lemma now_leads_lead a p x L t q L' : a_lead (now_leads p x L a) !! t = Some (q, L') ->
  t = a_term x /\ q = p /\ L' = L \/ t <> a_term x /\ a_lead a !! t = Some (q, L').
Proof.
  cbn. destruct (decide (a_term x = t)) as [<-|Hne]; [rewrite lookup_insert_eq; intros [= <- <-]; by left|].
  rewrite lookup_insert_ne by done. by right.
Qed.

(** The log it leads with is in order. *)
Lemma leading_log a p x L : sound a -> a_nodes a !! p = Some x -> leading a p x L -> matching (now_leads p x L a) L /\ upto (a_term x) L.
Proof.
  intros Hs Hx Hl. pose proof (leading_grows a p x L Hl) as Hg. destruct (s_node a Hs p x Hx) as [Hm Hu]. split.
  - intros i e Hi. destruct Hl as [[_ ->]|[_ (e' & -> & Et)]]; [by eapply matching_mono|].
    apply lookup_snoc_Some in Hi as [[Hlt Hi]|[-> ->]].
    + rewrite take_app_le by lia. by eapply (matching_mono a).
    + exists p, (a_log x ++ [e]). cbn. rewrite Et, lookup_insert_eq. split; [done|apply prefix_take].
  - destruct Hl as [[_ ->]|[_ (e' & -> & Et)]]; [done|]. apply Forall_app. split; [done|]. constructor; [lia|done].
Qed.

Lemma sound_lead a p x L :
  sound a -> a_nodes a !! p = Some x -> leading a p x L ->
  (exists E K, quorum E /\ a_cand a !! (a_term x, p) = Some K /\ K `prefix_of` L /\
    forall q, q ∈ E -> (q, a_term x, p) ∈ a_votes a /\ vouched a q (a_term x) K) -> sound (now_leads p x L a).
Proof.
  intros Hs Hx Hl Hel. pose proof (leading_grows a p x L Hl) as Hg. destruct (s_node a Hs p x Hx) as [Hm Hu].
  assert (HL : a_log x `prefix_of` L) by (destruct Hl as [[_ ->]|[_ (e & -> & _)]]; [done|by apply prefix_app_r]).
  destruct (leading_log a p x L Hs Hx Hl) as [HmL HuL].
  assert (Hr : forall q t, reached a q t -> reached (now_leads p x L a) q t)
    by (intros q t; by apply (reached_node a p x (Participant (a_term x) L))).
  assert (Hnone : forall t, a_lead (now_leads p x L a) !! t = None -> t <> a_term x /\ a_lead a !! t = None).
  { intros t. cbn. rewrite lookup_insert_None. intros [? ?]. auto. }
  split.
  - intros q y [[-> ->]|[_ Hy]]%now_leads_nodes; [done|]. destruct (s_node a Hs q y Hy). split; [by eapply matching_mono|done].
  - intros t q L' [(-> & -> & ->)|[_ HL']]%now_leads_lead; [split_and!; [done|done|apply Hr; by exists x]|].
    destruct (s_lead a Hs _ _ _ HL') as (? & ? & ?). split_and!; [by eapply matching_mono|done|by apply Hr].
  - intros t k K HK. destruct (s_cand a Hs t k K HK) as (? & ? & ?). split_and!; [by eapply matching_mono|done|by apply Hr].
  - intros q y L' [[-> ->]|[Hne Hy]]%now_leads_nodes [(Et & Eq & ->)|[Hne' HL']]%now_leads_lead; try done. by apply (s_owner a Hs q).
  - intros q t k Hv. destruct (s_vote a Hs q t k Hv). split; [by apply Hr|done].
  - apply (s_once a Hs).
  - intros q t j Hj. eapply acked_mono; [done|done| |by apply (s_ack a Hs)]. intros r y Hy. cbn.
    destruct (decide (p = r)) as [<-|Hne]; [|exists y; by rewrite lookup_insert_ne].
    simplify_eq. exists (Participant (a_term x) L). by rewrite lookup_insert_eq.
  - intros q T k K Hv HK [_ HT]%Hnone. eapply vouched_mono; [done..|]. by apply (s_vouched a Hs q T k).
  - intros T k L' HL'.
    assert (Hex : exists E K, quorum E /\ a_cand a !! (T, k) = Some K /\ K `prefix_of` L' /\
      forall q, q ∈ E -> (q, T, k) ∈ a_votes a /\ vouched a q T K).
    { apply now_leads_lead in HL' as [(-> & -> & ->)|[_ HL']]; [done|by apply (s_elected a Hs)]. }
    destruct Hex as (E & K & HE & HK & Hp & Hall). exists E, K. split_and!; [done..|]. intros q Hq.
    destruct (Hall q Hq). split; [done|]. by eapply vouched_mono.
  - intros q y K [[-> ->]|[_ Hy]]%now_leads_nodes [Hne HT]%Hnone HK; [done|].
    destruct (s_standing a Hs q y K Hy HT HK) as [?|(t & C & Ht & HC & Hnp)]; [by left|right].
    exists t, C. split_and!; [done|by eapply committed_mono|done].
  - apply (s_nonzero a Hs).
Qed.

Lemma sound_elect a p x E :
  sound a -> a_nodes a !! p = Some x -> a_lead a !! a_term x = None -> quorum E ->
  (forall q, q ∈ E -> (q, a_term x, p) ∈ a_votes a) -> sound (with_lead (a_term x) p (a_log x) a).
Proof.
  intros Hs Hx HL HE Hv. assert (Ea : now_leads p x (a_log x) a = with_lead (a_term x) p (a_log x) a).
  { unfold now_leads, with_lead, with_node. cbn. f_equal. apply insert_id. rewrite Hx. by destruct x. }
  rewrite <- Ea. apply sound_lead; [done|done|by left|].
  destruct (majorities_meet M E E) as (q & Hq & _); [apply HE..|].
  destruct (s_vote a Hs q _ _ (Hv q Hq)) as [_ [K HK]].
  destruct (elected_log a Hs p x E K Hx HL HE Hv HK) as [-> Hall]. exists E, K. split_and!; [done..|]. auto.
Qed.

Lemma sound_propose a p x L e :
  sound a -> a_nodes a !! p = Some x -> a_lead a !! a_term x = Some (p, L) -> term e = a_term x ->
  sound (now_leads p x (L ++ [e]) a).
Proof.
  intros Hs Hx HL He. pose proof (s_owner a Hs p x L Hx HL) as El. apply sound_lead; [done|done| |].
  - right. rewrite El. eauto.
  - destruct (s_elected a Hs _ _ _ HL) as (E & K & HE & HK & Hp & Hall). exists E, K.
    split_and!; [done|done|by apply prefix_app_r|done].
Qed.

Lemma sound_ack a p x q L j :
  sound a -> a_nodes a !! p = Some x -> a_lead a !! a_term x = Some (q, L) -> (j <= length L)%nat ->
  take j L `prefix_of` a_log x -> sound (with_ack p (a_term x) j a).
Proof.
  intros Hs Hx HL Hj Hp.
  assert (Hg : grows a (with_ack p (a_term x) j a)) by (apply grows_refl; [done|cbn; set_solver]).
  assert (Hv : forall r T k K, (r, T, k) ∈ a_votes a -> vouched a r T K -> vouched (with_ack p (a_term x) j a) r T K).
  { intros r T k K Hr Hv t j' q' L' i e Hack Ht. apply Hv; [|done]. cbn in Hack.
    apply elem_of_union in Hack as [[= -> -> ->]%elem_of_singleton|?]; [|done].
    destruct (s_vote a Hs _ _ _ Hr) as [(y & Hy & HT) _]. simplify_eq. lia. }
  split; cbn [with_ack a_lead a_nodes a_cand a_votes].
  - apply (s_node a Hs).
  - apply (s_lead a Hs).
  - apply (s_cand a Hs).
  - apply (s_owner a Hs).
  - apply (s_vote a Hs).
  - apply (s_once a Hs).
  - intros r t j'. cbn [a_acks with_ack]. rewrite elem_of_union, elem_of_singleton. intros [[= -> -> ->]|Hr]; [|by apply (s_ack a Hs)].
    exists q, L, x. split_and!; [done..|]. intros i Hi. left. trans (take j L); [by apply take_prefix_mono|done].
  - intros r T k K Hr HK HT. eapply Hv; [done|]. by apply (s_vouched a Hs r T k).
  - intros T k L' HL'. destruct (s_elected a Hs T k L' HL') as (E & K & HE & HK & HKL & Hall). exists E, K.
    split_and!; [done..|]. intros r Hr. destruct (Hall r Hr). split; [done|]. by eapply Hv.
  - intros r y K Hy HT HK. destruct (s_standing a Hs r y K Hy HT HK) as [?|(t & C & Ht & HC & Hn)]; [by left|right].
    exists t, C. split_and!; [done|by eapply committed_mono|done].
  - apply (s_nonzero a Hs).
Qed.

Lemma adopt_cases C f (P : full_log -> Prop) : P f -> P C -> P (adopt C f).
Proof. unfold adopt. by case_decide. Qed.

Lemma sound_accept a p x q L m :
  sound a -> a_nodes a !! p = Some x -> a_lead a !! a_term x = Some (q, L) -> q <> p -> (m <= length L)%nat ->
  sound (with_node p (Participant (a_term x) (adopt (take m L) (a_log x))) a).
Proof.
  intros Hs Hx HL Hne Hm. destruct (s_node a Hs p x Hx) as [Hma Hu]. destruct (s_lead a Hs _ _ _ HL) as (HmL & HuL & _).
  pose proof (prefix_take L m) as Hp. apply (sound_node a p x); [done|done|lia| | | | |].
  - apply (adopt_cases _ _ (matching a)); [done|by eapply matching_prefix].
  - apply (adopt_cases _ _ (upto (a_term x))); [done|by eapply upto_prefix].
  - intros L' HL'. congruence.
  - intros t' j q' L' i _ HL' Ht' _ Hi. destruct (decide (take i L' `prefix_of` L)) as [Hin|Hout].
    + left. apply adopt_keeps; [done|]. by eapply prefix_weak_total.
    + right. destruct (decide (t' = a_term x)) as [->|].
      * simplify_eq. destruct Hout. apply prefix_take.
      * exists (a_term x). split; [lia|by exists q, L].
  - intros K HN. congruence.
Qed.

Lemma sound_install a p x t C :
  sound a -> a_nodes a !! p = Some x -> committed a t C -> (t <= a_term x)%N ->
  sound (with_node p (Participant (a_term x) (adopt C (a_log x))) a).
Proof.
  intros Hs Hx HC Ht. destruct (s_node a Hs p x Hx) as [Hma Hu]. destruct (committed_matching a Hs t C HC) as [HmC HuC].
  destruct (committed_lead a t C HC) as (q & L & HL). pose proof (committed_in_lead a Hs t C t q L HC (N.le_refl t) HL) as HCL.
  apply (sound_node a p x); [done|done|lia| | | | |].
  - by apply (adopt_cases _ _ (matching a)).
  - apply (adopt_cases _ _ (upto (a_term x))); [done|]. eapply Forall_impl; [exact HuC|]. cbn. lia.
  - intros L' HL'. rewrite <- (s_owner a Hs p x L' Hx HL').
    unfold adopt. rewrite decide_True; [done|]. rewrite (s_owner a Hs p x L' Hx HL'). by eapply committed_in_lead.
  - intros t' j q' L' i _ HL' Ht' _ Hi. destruct (decide (t <= t')%N) as [Hle|Hgt].
    + left. apply adopt_keeps; [done|]. eapply prefix_weak_total; [apply prefix_take|].
      by apply (committed_in_lead a Hs t C t' q' L').
    + destruct (decide (take i L' `prefix_of` L)) as [Hin|Hout].
      * left. apply adopt_keeps; [done|]. by eapply prefix_weak_total.
      * right. exists t. split; [lia|by exists q, L].
  - intros K HN HK. unfold adopt. destruct (decide (C `prefix_of` a_log x)) as [|Hn]; [by apply (s_standing a Hs p)|].
    right. destruct (s_standing a Hs p x K Hx HN HK) as [<-|?]; [|done]. exists t, C.
    assert (t <> a_term x) by congruence. split_and!; [lia|done|done].
Qed.

Lemma sound_stand a p x (t := (a_term x + 1)%N) :
  sound a -> a_nodes a !! p = Some x ->
  sound (with_vote p t p (with_cand t p (a_log x) (with_node p (Participant t (a_log x)) a))).
Proof.
  intros Hs Hx. assert (Hs1 : sound (with_node p (Participant t (a_log x)) a)) by (apply (sound_term a p x t Hs Hx); lia).
  set (x1 := Participant t (a_log x)) in *. set (a1 := with_node p x1 a) in *.
  assert (Hx1 : a_nodes a1 !! p = Some x1) by apply lookup_insert_eq.
  destruct (s_node a Hs p x Hx) as [_ Hu].
  assert (Hnone : a_cand a !! (t, p) = None).
  { destruct (a_cand a !! (t, p)) as [K|] eqn:HK; [|done]. destruct (s_cand a Hs t p K HK) as (_ & _ & (y & Hy & Hle)).
    simplify_eq. lia. }
  assert (Hs2 : sound (with_cand t p (a_log x) a1)).
  { apply (sound_cand a1 p x1 Hs1 Hx1 Hnone); [cbn; unfold t; lia|]. eapply Forall_impl; [exact Hu|]. cbn. lia. }
  apply (sound_vote _ p t p (a_log x)); [done|by exists x1|cbn; apply lookup_insert_eq| |].
  - intros k' Hv. destruct (s_vote a Hs p t k' Hv) as [(y & Hy & Hle) _]. simplify_eq. lia.
  - intros _ t' j q L i e Hack Ht HL Hi He Hj. cbn in Hack, HL.
    destruct (s_ack a Hs p t' j Hack) as (q' & L' & y & HL' & _ & Hy & _ & Hall). simplify_eq.
    destruct (Hall (S i) Hj) as [?|(T & HT & Ho)]; [by left|right]. exists T. split; [lia|done].
Qed.

Lemma step_sound p a a' : sound a -> raft_step p a a' -> sound a'.
Proof.
  intros Hs [x t Hx Ht|x t Hx|x k K Hx HK Hup Hu|x E Hx HL HE Hv|x L e Hx HL He|x q L m Hx HL Hne Hm|x t C Hx HC Ht|x q L j Hx HL Hj Hp].
  - by apply (sound_term a p x).
  - by apply sound_stand.
  - apply (sound_vote a p (a_term x) k K); [done|by exists x|done|done|]. by apply (up_to_date_vouches a p x k).
  - by apply (sound_elect a p x E).
  - by apply sound_propose.
  - by apply (sound_accept a p x q L m).
  - by apply (sound_install a p x t C).
  - by apply (sound_ack a p x q L j).
Qed.

Lemma initial_sound a : raft_initial a -> sound a.
Proof.
  intros (EL & EC & EV & EA & Hn). split; rewrite ?EL, ?EC, ?EV, ?EA.
  - intros p x Hx. rewrite (Hn p x Hx). split; [by intros i e|by constructor].
  - by intros t q L.
  - by intros t k K.
  - by intros p x L.
  - intros p t k Hv. by apply not_elem_of_empty in Hv.
  - intros p t k k' Hv. by apply not_elem_of_empty in Hv.
  - intros p t j Hv. by apply not_elem_of_empty in Hv.
  - intros p T k K Hv. by apply not_elem_of_empty in Hv.
  - by intros T k L.
  - by intros p x K.
  - by intros t k K.
Qed.

Lemma step_grows p a a' : sound a -> raft_step p a a' -> grows a a'.
Proof.
  intros Hs [x t Hx Ht|x t Hx|x k K Hx HK Hup Hu|x E Hx HL HE Hv|x L e Hx HL He|x q L m Hx HL Hne Hm|x t C Hx HC Ht|x q L j Hx HL Hj Hp];
    try (apply grows_refl; [done|cbn; set_solver]).
  - assert (Hg : grows a (now_leads p x (a_log x) a)) by (apply leading_grows; by left).
    destruct Hg as [Hg _]. by split.
  - apply leading_grows. right. rewrite (s_owner a Hs p x L Hx HL). eauto.
Qed.

(** What node [p] does is no step of the others: their terms, logs and leaderships stay. *)
Record others_stay p a a' : Prop := {
  os_nodes q : q <> p -> a_nodes a' !! q = a_nodes a !! q;
  os_lead t q L : q <> p -> a_lead a' !! t = Some (q, L) <-> a_lead a !! t = Some (q, L);
  os_cand t k K : a_cand a !! (t, k) = Some K -> a_cand a' !! (t, k) = Some K;
}.

#[export] Instance others_stay_preorder p : PreOrder (others_stay p).
Proof.
  split; [intros a; by split|]. intros a1 a2 a3 [N1 L1 C1] [N2 L2 C2]. split.
  - intros q Hq. by rewrite N2, N1.
  - intros t q L Hq. by rewrite L2, L1.
  - intros t k K HK. by apply C2, C1.
Qed.

Lemma step_others p a a' : sound a -> raft_step p a a' -> others_stay p a a'.
Proof.
  intros Hs Hst.
  assert (Hn : forall q y, q <> p -> <[p := y]> (a_nodes a) !! q = a_nodes a !! q) by (intros q y Hq; by rewrite lookup_insert_ne).
  assert (Hl : forall u L0, (forall q L, q <> p -> a_lead a !! u <> Some (q, L)) -> forall t q L, q <> p ->
    <[u := (p, L0)]> (a_lead a) !! t = Some (q, L) <-> a_lead a !! t = Some (q, L)).
  { intros u L0 Hu t q L Hq. destruct (decide (u = t)) as [<-|Hne]; [|by rewrite lookup_insert_ne].
    rewrite lookup_insert_eq. split; [intros [= <- _]; done|]. intros HL. by destruct (Hu q L Hq). }
  destruct Hst as [x t Hx Ht|x t Hx|x k K Hx HK Hup Hu|x E Hx HL HE Hv|x L e Hx HL He|x q L m Hx HL Hne Hm|x t C Hx HC Ht|x q L j Hx HL Hj Hp];
    split; cbn; try done; try (by intros; apply Hn).
  - intros u k K HK. rewrite lookup_insert_ne; [done|]. intros [= Et <-].
    destruct (s_cand a Hs u p K HK) as (_ & _ & (y & Hy & Hle)). simplify_eq. lia.
  - apply Hl. intros q L _. congruence.
  - apply Hl. intros q L' Hq. congruence.
Qed.

Lemma steps_sound p a a' : sound a -> rtc (raft_step p) a a' ->
  sound a' /\ (forall t C, committed a t C -> committed a' t C) /\ others_stay p a a' /\ a_acks a ⊆ a_acks a' /\
  (forall t q L, a_lead a !! t = Some (q, L) -> exists L', a_lead a' !! t = Some (q, L') /\ L `prefix_of` L').
Proof.
  intros Hs Hr. induction Hr as [a|a1 a2 a3 H12 _ IH]; [split_and!; eauto; done|].
  pose proof (step_grows p a1 a2 Hs H12) as Hg. destruct IH as (Hs3 & Hc & Ho & Ha & Hl); [by eapply step_sound|].
  split_and!; [done| | | |].
  - intros t C HC. by eapply Hc, committed_mono.
  - etrans; [by apply step_others|done].
  - etrans; [apply Hg|done].
  - intros t q L HL. destruct (g_lead _ _ Hg _ _ _ HL) as (L2 & HL2 & H1 & _).
    destruct (Hl _ _ _ HL2) as (L3 & HL3 & H2). exists L3. split; [done|by etrans].
Qed.
End protocol.
