(* ===== verification/Txn.v ===== *)
(** * Transaction control commands ([src/txn/txn.h], [src/txn/txn.cpp]) *)

From Stdlib Require Import NArith Lia.
From S2P Require Export RaftTypes.

Abbreviation TxnId := N.

(** [enum class TxnControlType : uint8_t]; a decoded byte may be no enumerator. *)
Inductive TxnControlType := kPrepare | kCommit | kAbort | kOtherControl (b : N).

Definition control_u8 (t : TxnControlType) : N :=
  match t with kPrepare => 1 | kCommit => 2 | kAbort => 3 | kOtherControl b => b end.

Definition control_of_u8 (b : N) : TxnControlType :=
  if (b =? 1)%N then kPrepare else if (b =? 2)%N then kCommit
  else if (b =? 3)%N then kAbort else kOtherControl b.

Record TxnPrepare := { p_txn_id : TxnId; p_keys : list bytes; p_commands : list bytes }.

Record TxnControlCommand := {
  c_type : TxnControlType;
  c_txn_id : TxnId;
  c_keys : list bytes;
  c_commands : list bytes;
}.

Definition corrupt_txn : bytes := str "corrupt or truncated txn control command".

Definition EncodeTxnPrepare (p : TxnPrepare) : bytes :=
  let out := AppendU8 [] 0 in
  let out := AppendU8 out (control_u8 kPrepare) in
  let out := AppendU64 out (p_txn_id p) in
  let out := AppendStringVector out (p_keys p) in
  AppendStringVector out (p_commands p).

Definition EncodeTxnCommit (txn_id : TxnId) : bytes :=
  let out := AppendU8 [] 0 in
  let out := AppendU8 out (control_u8 kCommit) in
  AppendU64 out txn_id.

Definition EncodeTxnAbort (txn_id : TxnId) : bytes :=
  let out := AppendU8 [] 0 in
  let out := AppendU8 out (control_u8 kAbort) in
  AppendU64 out txn_id.

Definition read_control : Reader TxnControlCommand :=
  _ ← ReadU8 corrupt_txn;
  b ← ReadU8 corrupt_txn;
  txn_id ← ReadU64 corrupt_txn;
  match control_of_u8 b with
  | kPrepare =>
    keys ← ReadStringVector corrupt_txn;
    commands ← ReadStringVector corrupt_txn;
    mret {| c_type := kPrepare; c_txn_id := txn_id; c_keys := keys; c_commands := commands |}
  | t => mret {| c_type := t; c_txn_id := txn_id; c_keys := []; c_commands := [] |}
  end.

(** [None] stands for [std::nullopt]. *)
Definition TryDecodeTxnControl (command : bytes) : outcome (option TxnControlCommand) :=
  match command with
  | c :: _ => if (N_of_ascii c =? 0)%N then r ← read_control command; Ret (Some r.1) else Ret None
  | [] => Ret None
  end.

(** ** Round trips *)

Definition prepare_ok (p : TxnPrepare) : Prop :=
  (p_txn_id p < two64)%N /\ strings_fit (p_keys p) /\ strings_fit (p_commands p).

Lemma reads_prepare p : prepare_ok p ->
  reads read_control (EncodeTxnPrepare p)
    {| c_type := kPrepare; c_txn_id := p_txn_id p; c_keys := p_keys p; c_commands := p_commands p |}.
Proof.
  intros (? & ? & ?). unfold EncodeTxnPrepare. codec_norm. unfold read_control.
  do 3 (eapply reads_bind; [eauto with codec|]).
  cbn [control_of_u8 control_u8 N.eqb Pos.eqb]. reads_tac.
Qed.

Lemma reads_simple_control t txn_id :
  match t with kCommit | kAbort => True | _ => False end -> (txn_id < two64)%N ->
  reads read_control (le_bytes 1 0 ++ le_bytes 1 (control_u8 t) ++ le_bytes 8 txn_id)
    {| c_type := t; c_txn_id := txn_id; c_keys := []; c_commands := [] |}.
Proof.
  intros Ht Hid. unfold read_control.
  eapply reads_bind; [eauto with codec|].
  eapply reads_bind; [apply reads_u8; by destruct t|].
  eapply reads_bind_last; [eauto with codec|]. destruct t; try done; apply reads_ret.
Qed.

(** The control commands the code encodes, as the decoder returns them. *)
Inductive txn_control :=
| TPrepare (p : TxnPrepare)
| TCommit (txn_id : TxnId)
| TAbort (txn_id : TxnId).

Definition encode_control (c : txn_control) : bytes :=
  match c with
  | TPrepare p => EncodeTxnPrepare p
  | TCommit txn_id => EncodeTxnCommit txn_id
  | TAbort txn_id => EncodeTxnAbort txn_id
  end.

Definition control_command (c : txn_control) : TxnControlCommand :=
  match c with
  | TPrepare p => {| c_type := kPrepare; c_txn_id := p_txn_id p; c_keys := p_keys p;
                     c_commands := p_commands p |}
  | TCommit txn_id => {| c_type := kCommit; c_txn_id := txn_id; c_keys := []; c_commands := [] |}
  | TAbort txn_id => {| c_type := kAbort; c_txn_id := txn_id; c_keys := []; c_commands := [] |}
  end.

Definition control_ok (c : txn_control) : Prop :=
  match c with TPrepare p => prepare_ok p | TCommit n | TAbort n => (n < two64)%N end.

Lemma reads_control c : control_ok c -> reads read_control (encode_control c) (control_command c).
Proof.
  destruct c as [p|n|n]; cbn [control_ok encode_control control_command]; intros Hok.
  - by apply reads_prepare.
  - unfold EncodeTxnCommit. codec_norm. by apply (reads_simple_control kCommit).
  - unfold EncodeTxnAbort. codec_norm. by apply (reads_simple_control kAbort).
Qed.

Lemma encode_control_tag c : exists rest, encode_control c = zero :: rest.
Proof.
  destruct c; cbn [encode_control]; unfold EncodeTxnPrepare, EncodeTxnCommit, EncodeTxnAbort;
    codec_norm; by eexists.
Qed.

(** Text that starts with no NUL byte is not a control command. *)
Lemma TryDecodeTxnControl_text c rest :
  N_of_ascii c <> 0%N -> TryDecodeTxnControl (c :: rest) = Ret None.
Proof. intros H. cbn. destruct (N.eqb_spec (N_of_ascii c) 0); done. Qed.

Lemma TryDecodeTxnControl_encode c :
  control_ok c -> TryDecodeTxnControl (encode_control c) = Ret (Some (control_command c)).
Proof.
  intros Hok. destruct (encode_control_tag c) as [rest E].
  pose proof (reads_whole _ _ _ (reads_control c Hok)) as Hw. rewrite E in *. cbn. by rewrite Hw.
Qed.

(** A transaction control command survives the log: what [EncodeTxnPrepare],
    [EncodeTxnCommit] or [EncodeTxnAbort] produced is recognised by [TryDecodeTxnControl] and
    decoded to the same command, and no proper prefix of it decodes to a control command (it
    throws). *)
Theorem txn_control_round_trip c n :
  control_ok c ->
  TryDecodeTxnControl (encode_control c) = Ret (Some (control_command c)) /\
  (0 < n < length (encode_control c) ->
   exists e, TryDecodeTxnControl (take n (encode_control c)) = Throw e)%nat.
Proof.
  intros Hok. split; [by apply TryDecodeTxnControl_encode|].
  intros Hn. destruct (encode_control_tag c) as [rest E].
  destruct (reads_truncated _ _ _ n (reads_control c Hok) ltac:(lia)) as [e He].
  exists e. rewrite E in *. destruct n as [|n]; [lia|]. cbn in *. by rewrite He.
Qed.

Lemma txn_control_round_trip_witness :
  let c := TPrepare {| p_txn_id := 7; p_keys := [str "t/1"]; p_commands := [str "DELETE"] |} in
  TryDecodeTxnControl (encode_control c) = Ret (Some (control_command c)) /\
  (0 < 5 < length (encode_control c) ->
   exists e, TryDecodeTxnControl (take 5 (encode_control c)) = Throw e)%nat.
Proof.
  apply (txn_control_round_trip
    (TPrepare {| p_txn_id := 7; p_keys := [str "t/1"]; p_commands := [str "DELETE"] |}) 5).
  repeat constructor.
Defined.
