(* ===== verification/ConfChange.v ===== *)
(** * Membership changes ([src/raft/conf_change.h], [src/raft/conf_change.cpp]) *)

From Stdlib Require Import NArith Lia.
From S2P Require Export RaftTypes.

(** [enum class ConfChangeType : uint8_t]; a decoded byte may be no enumerator. *)
Inductive ConfChangeType := kAddServer | kRemoveServer | kOtherChange (b : N).

Definition change_u8 (t : ConfChangeType) : N :=
  match t with kAddServer => 1 | kRemoveServer => 2 | kOtherChange b => b end.

Definition change_of_u8 (b : N) : ConfChangeType :=
  if (b =? 1)%N then kAddServer else if (b =? 2)%N then kRemoveServer else kOtherChange b.

Record ConfChangeCommand := {
  cc_type : ConfChangeType;
  cc_server_id : NodeId;
  cc_host : bytes;
  cc_port : N;
}.

Definition corrupt_conf : bytes := str "corrupt or truncated conf-change command".

Definition EncodeConfChange (c : ConfChangeCommand) : bytes :=
  let out := AppendU8 [] 1 in
  let out := AppendU8 out (change_u8 (cc_type c)) in
  let out := AppendU32 out (cc_server_id c) in
  let out := AppendString out (cc_host c) in
  AppendU16 out (cc_port c).

Definition read_conf : Reader ConfChangeCommand :=
  _ ← ReadU8 corrupt_conf;
  b ← ReadU8 corrupt_conf;
  server_id ← ReadU32 corrupt_conf;
  h ← ReadString corrupt_conf;
  p ← ReadU16 corrupt_conf;
  mret {| cc_type := change_of_u8 b; cc_server_id := server_id; cc_host := h; cc_port := p |}.

Definition TryDecodeConfChange (command : bytes) : outcome (option ConfChangeCommand) :=
  match command with
  | c :: _ => if (N_of_ascii c =? 1)%N then r ← read_conf command; Ret (Some r.1) else Ret None
  | [] => Ret None
  end.

(** ** Round trip *)

Definition change_ok (c : ConfChangeCommand) : Prop :=
  match cc_type c with kOtherChange _ => False | _ => True end /\
  (cc_server_id c < two32)%N /\ fits32 (cc_host c) /\ (cc_port c < two16)%N.

Lemma change_round_trip t :
  match t with kOtherChange _ => False | _ => True end -> change_of_u8 (change_u8 t) = t.
Proof. by destruct t. Qed.

Lemma reads_conf c : change_ok c -> reads read_conf (EncodeConfChange c) c.
Proof.
  intros (Ht & ? & ? & ?). unfold EncodeConfChange. codec_norm. unfold read_conf.
  eapply reads_bind; [eauto with codec|].
  eapply reads_bind; [apply reads_u8; by destruct (cc_type c)|].
  reads_tac. rewrite change_round_trip by done. destruct c; apply reads_ret.
Qed.

(** A membership change survives the log: [TryDecodeConfChange] recognises what
    [EncodeConfChange] produced and decodes it to the same change; and no SQL statement or
    transaction command (whose first byte is not 1) is taken for one. *)
Theorem conf_change_round_trip c :
  change_ok c ->
  TryDecodeConfChange (EncodeConfChange c) = Ret (Some c) /\
  forall b rest, N_of_ascii b <> 1%N -> TryDecodeConfChange (b :: rest) = Ret None.
Proof.
  intros Hok. split.
  - pose proof (reads_whole _ _ _ (reads_conf c Hok)) as Hw.
    assert (exists rest, EncodeConfChange c = one :: rest) as [rest E]
      by (unfold EncodeConfChange; codec_norm; by eexists).
    rewrite E in *. cbn. by rewrite Hw.
  - intros b rest Hb. cbn. by destruct (N.eqb_spec (N_of_ascii b) 1).
Qed.

Lemma conf_change_round_trip_witness :
  let c := {| cc_type := kAddServer; cc_server_id := 4; cc_host := str "10.0.0.4"; cc_port := 7004 |} in
  TryDecodeConfChange (EncodeConfChange c) = Ret (Some c) /\
  forall b rest, N_of_ascii b <> 1%N -> TryDecodeConfChange (b :: rest) = Ret None.
Proof.
  apply (conf_change_round_trip
    {| cc_type := kAddServer; cc_server_id := 4; cc_host := str "10.0.0.4"; cc_port := 7004 |}).
  repeat constructor.
Defined.
