(* ===== verification/Message.v ===== *)
(** * RPC messages ([src/raft/message.h], [src/raft/message.cpp])

    One record, one encoder and one decoder per message; the decoders are [Reader]s run on the
    whole body.  Field names carry a prefix for their message, since Rocq's records share one
    name space.  [std::vector::reserve] of a decoded count, which may exhaust memory on a
    corrupt message before the length checks see it, has no counterpart. *)

From Stdlib Require Import NArith Lia.
From S2P Require Export RaftTypes.

(** ** Messages *)

Record RequestVoteRequest := {
  rv_term : Term;
  rv_candidate_id : NodeId;
  rv_last_log_index : LogIndex;
  rv_last_log_term : Term;
}.

Record RequestVoteResponse := { rvr_term : Term; rvr_vote_granted : bool }.

Record AppendEntriesRequest := {
  ae_term : Term;
  ae_leader_id : NodeId;
  ae_prev_log_index : LogIndex;
  ae_prev_log_term : Term;
  ae_entries : list LogEntry;
  ae_leader_commit : LogIndex;
}.

Record AppendEntriesResponse := { aer_term : Term; aer_success : bool; aer_match_index : LogIndex }.

Record ClientRequest := { cl_command : bytes }.

Record ClientResponse := {
  clr_success : bool;
  clr_index : LogIndex;
  clr_not_leader : bool;
  clr_leader_hint : NodeId;
  clr_error : bytes;
}.

Record InstallSnapshotRequest := {
  is_term : Term;
  is_leader_id : NodeId;
  is_last_included_index : LogIndex;
  is_last_included_term : Term;
  is_data : bytes;
  is_membership : peer_map;
}.

Record InstallSnapshotResponse := { isr_term : Term }.

Record ReadRequest := { rd_query : bytes }.

Record ReadResponse := { rdr_error : bool; rdr_result : bytes }.

Inductive DescribeClusterRequest := describe_cluster.

Record DescribeClusterResponse := {
  dc_id : NodeId;
  dc_own_address : PeerAddress;
  dc_peers : peer_map;
}.

(** [enum class MessageType : uint8_t]; a received byte may be no enumerator. *)
Inductive MessageType :=
| kRequestVoteRequest
| kRequestVoteResponse
| kAppendEntriesRequest
| kAppendEntriesResponse
| kClientRequest
| kClientResponse
| kInstallSnapshotRequest
| kInstallSnapshotResponse
| kReadRequest
| kReadResponse
| kDescribeClusterRequest
| kDescribeClusterResponse
| kOtherMessage (b : N).

Definition message_u8 (t : MessageType) : N :=
  match t with
  | kRequestVoteRequest => 1
  | kRequestVoteResponse => 2
  | kAppendEntriesRequest => 3
  | kAppendEntriesResponse => 4
  | kClientRequest => 5
  | kClientResponse => 6
  | kInstallSnapshotRequest => 7
  | kInstallSnapshotResponse => 8
  | kReadRequest => 9
  | kReadResponse => 10
  | kDescribeClusterRequest => 11
  | kDescribeClusterResponse => 12
  | kOtherMessage b => b
  end.

Definition message_of_u8 (b : N) : MessageType :=
  match b with
  | 1 => kRequestVoteRequest
  | 2 => kRequestVoteResponse
  | 3 => kAppendEntriesRequest
  | 4 => kAppendEntriesResponse
  | 5 => kClientRequest
  | 6 => kClientResponse
  | 7 => kInstallSnapshotRequest
  | 8 => kInstallSnapshotResponse
  | 9 => kReadRequest
  | 10 => kReadResponse
  | 11 => kDescribeClusterRequest
  | 12 => kDescribeClusterResponse
  | b => kOtherMessage b
  end%N.

Definition PeekMessageType (body : bytes) : outcome MessageType :=
  match body with
  | [] => throw_rt (str "empty raft message")
  | c :: _ => Ret (message_of_u8 (N_of_ascii c))
  end.

(** ** Encoders and decoders *)

Definition corrupt_message : bytes := str "corrupt or truncated raft message".

Abbreviation RdU8 := (ReadU8 corrupt_message).
Abbreviation RdU16 := (ReadU16 corrupt_message).
Abbreviation RdU32 := (ReadU32 corrupt_message).
Abbreviation RdU64 := (ReadU64 corrupt_message).
Abbreviation RdString := (ReadString corrupt_message).

(** A decoder looks at the whole body; bytes past the last field are ignored. *)
Definition decode {A} (r : Reader A) (body : bytes) : outcome A :=
  p ← r body; Ret p.1.

Definition AppendBool (out : bytes) (b : bool) : bytes := AppendU8 out (bool_u8 b).
Definition RdBool : Reader bool := b ← RdU8; mret (negb (b =? 0)%N).

Definition AppendEntry (out : bytes) (e : LogEntry) : bytes :=
  AppendString (AppendU64 (AppendU64 out (index e)) (term e)) (command e).

Definition RdEntry : Reader LogEntry :=
  i ← RdU64; t ← RdU64; c ← RdString; mret {| index := i; term := t; command := c |}.

(** [for (const auto& [id, addr] : peers)], after the number of peers. *)
Definition AppendPeer (out : bytes) (p : NodeId * PeerAddress) : bytes :=
  AppendU16 (AppendString (AppendU32 out p.1) (host p.2)) (port p.2).

Definition AppendPeers (out : bytes) (peers : peer_map) : bytes :=
  foldl AppendPeer (AppendU32 out (u32 (N.of_nat (size peers)))) (map_entries peers).

Definition RdPeer : Reader (NodeId * PeerAddress) :=
  id ← RdU32; h ← RdString; p ← RdU16; mret (id, {| host := h; port := p |}).

(** [peers[id] = {host, port}] for each peer read. *)
Definition RdPeers : Reader peer_map :=
  count ← RdU32;
  l ← read_n (N.to_nat count) RdPeer;
  mret (foldl (fun m p => <[p.1 := p.2]> m) ∅ l).

Definition EncodeRequestVoteRequest (req : RequestVoteRequest) : bytes :=
  let out := AppendU8 [] (message_u8 kRequestVoteRequest) in
  let out := AppendU64 out (rv_term req) in
  let out := AppendU32 out (rv_candidate_id req) in
  let out := AppendU64 out (rv_last_log_index req) in
  let out := AppendU64 out (rv_last_log_term req) in
  out.

Definition read_RequestVoteRequest : Reader RequestVoteRequest :=
  _ ← RdU8;
  term_ ← RdU64;
  candidate_id_ ← RdU32;
  last_log_index_ ← RdU64;
  last_log_term_ ← RdU64;
  mret {| rv_term := term_; rv_candidate_id := candidate_id_;
          rv_last_log_index := last_log_index_; rv_last_log_term := last_log_term_ |}.

Definition DecodeRequestVoteRequest : bytes -> outcome RequestVoteRequest :=
  decode read_RequestVoteRequest.

Definition EncodeRequestVoteResponse (resp : RequestVoteResponse) : bytes :=
  let out := AppendU8 [] (message_u8 kRequestVoteResponse) in
  let out := AppendU64 out (rvr_term resp) in
  let out := AppendBool out (rvr_vote_granted resp) in
  out.

Definition read_RequestVoteResponse : Reader RequestVoteResponse :=
  _ ← RdU8;
  term_ ← RdU64;
  vote_granted_ ← RdBool;
  mret {| rvr_term := term_; rvr_vote_granted := vote_granted_ |}.

Definition DecodeRequestVoteResponse : bytes -> outcome RequestVoteResponse :=
  decode read_RequestVoteResponse.

Definition EncodeAppendEntriesRequest (req : AppendEntriesRequest) : bytes :=
  let out := AppendU8 [] (message_u8 kAppendEntriesRequest) in
  let out := AppendU64 out (ae_term req) in
  let out := AppendU32 out (ae_leader_id req) in
  let out := AppendU64 out (ae_prev_log_index req) in
  let out := AppendU64 out (ae_prev_log_term req) in
  let out := AppendU32 out (size32 (ae_entries req)) in
  let out := foldl AppendEntry out (ae_entries req) in
  let out := AppendU64 out (ae_leader_commit req) in
  out.

Definition read_AppendEntriesRequest : Reader AppendEntriesRequest :=
  _ ← RdU8;
  term_ ← RdU64;
  leader_id_ ← RdU32;
  prev_log_index_ ← RdU64;
  prev_log_term_ ← RdU64;
  count ← RdU32;
  entries_ ← read_n (N.to_nat count) RdEntry;
  leader_commit_ ← RdU64;
  mret {| ae_term := term_; ae_leader_id := leader_id_; ae_prev_log_index := prev_log_index_;
          ae_prev_log_term := prev_log_term_; ae_entries := entries_;
          ae_leader_commit := leader_commit_ |}.

Definition DecodeAppendEntriesRequest : bytes -> outcome AppendEntriesRequest :=
  decode read_AppendEntriesRequest.

Definition EncodeAppendEntriesResponse (resp : AppendEntriesResponse) : bytes :=
  let out := AppendU8 [] (message_u8 kAppendEntriesResponse) in
  let out := AppendU64 out (aer_term resp) in
  let out := AppendBool out (aer_success resp) in
  let out := AppendU64 out (aer_match_index resp) in
  out.

Definition read_AppendEntriesResponse : Reader AppendEntriesResponse :=
  _ ← RdU8;
  term_ ← RdU64;
  success_ ← RdBool;
  match_index_ ← RdU64;
  mret {| aer_term := term_; aer_success := success_; aer_match_index := match_index_ |}.

Definition DecodeAppendEntriesResponse : bytes -> outcome AppendEntriesResponse :=
  decode read_AppendEntriesResponse.

Definition EncodeClientRequest (req : ClientRequest) : bytes :=
  let out := AppendU8 [] (message_u8 kClientRequest) in
  let out := AppendString out (cl_command req) in
  out.

Definition read_ClientRequest : Reader ClientRequest :=
  _ ← RdU8;
  command_ ← RdString;
  mret {| cl_command := command_ |}.

Definition DecodeClientRequest : bytes -> outcome ClientRequest := decode read_ClientRequest.

Definition EncodeClientResponse (resp : ClientResponse) : bytes :=
  let out := AppendU8 [] (message_u8 kClientResponse) in
  let out := AppendBool out (clr_success resp) in
  let out := AppendU64 out (clr_index resp) in
  let out := AppendBool out (clr_not_leader resp) in
  let out := AppendU32 out (clr_leader_hint resp) in
  let out := AppendString out (clr_error resp) in
  out.

Definition read_ClientResponse : Reader ClientResponse :=
  _ ← RdU8;
  success_ ← RdBool;
  index_ ← RdU64;
  not_leader_ ← RdBool;
  leader_hint_ ← RdU32;
  error_ ← RdString;
  mret {| clr_success := success_; clr_index := index_; clr_not_leader := not_leader_;
          clr_leader_hint := leader_hint_; clr_error := error_ |}.

Definition DecodeClientResponse : bytes -> outcome ClientResponse := decode read_ClientResponse.

Definition EncodeInstallSnapshotRequest (req : InstallSnapshotRequest) : bytes :=
  let out := AppendU8 [] (message_u8 kInstallSnapshotRequest) in
  let out := AppendU64 out (is_term req) in
  let out := AppendU32 out (is_leader_id req) in
  let out := AppendU64 out (is_last_included_index req) in
  let out := AppendU64 out (is_last_included_term req) in
  let out := AppendString out (is_data req) in
  let out := AppendPeers out (is_membership req) in
  out.

Definition read_InstallSnapshotRequest : Reader InstallSnapshotRequest :=
  _ ← RdU8;
  term_ ← RdU64;
  leader_id_ ← RdU32;
  last_included_index_ ← RdU64;
  last_included_term_ ← RdU64;
  data_ ← RdString;
  membership_ ← RdPeers;
  mret {| is_term := term_; is_leader_id := leader_id_;
          is_last_included_index := last_included_index_;
          is_last_included_term := last_included_term_; is_data := data_;
          is_membership := membership_ |}.

Definition DecodeInstallSnapshotRequest : bytes -> outcome InstallSnapshotRequest :=
  decode read_InstallSnapshotRequest.

Definition EncodeInstallSnapshotResponse (resp : InstallSnapshotResponse) : bytes :=
  let out := AppendU8 [] (message_u8 kInstallSnapshotResponse) in
  let out := AppendU64 out (isr_term resp) in
  out.

Definition read_InstallSnapshotResponse : Reader InstallSnapshotResponse :=
  _ ← RdU8;
  term_ ← RdU64;
  mret {| isr_term := term_ |}.

Definition DecodeInstallSnapshotResponse : bytes -> outcome InstallSnapshotResponse :=
  decode read_InstallSnapshotResponse.

Definition EncodeReadRequest (req : ReadRequest) : bytes :=
  let out := AppendU8 [] (message_u8 kReadRequest) in
  let out := AppendString out (rd_query req) in
  out.

Definition read_ReadRequest : Reader ReadRequest :=
  _ ← RdU8;
  query_ ← RdString;
  mret {| rd_query := query_ |}.

Definition DecodeReadRequest : bytes -> outcome ReadRequest := decode read_ReadRequest.

Definition EncodeReadResponse (resp : ReadResponse) : bytes :=
  let out := AppendU8 [] (message_u8 kReadResponse) in
  let out := AppendBool out (rdr_error resp) in
  let out := AppendString out (rdr_result resp) in
  out.

Definition read_ReadResponse : Reader ReadResponse :=
  _ ← RdU8;
  error_ ← RdBool;
  result_ ← RdString;
  mret {| rdr_error := error_; rdr_result := result_ |}.

Definition DecodeReadResponse : bytes -> outcome ReadResponse := decode read_ReadResponse.

Definition EncodeDescribeClusterRequest (req : DescribeClusterRequest) : bytes :=
  AppendU8 [] (message_u8 kDescribeClusterRequest).

Definition read_DescribeClusterRequest : Reader DescribeClusterRequest :=
  _ ← RdU8; mret describe_cluster.

Definition DecodeDescribeClusterRequest : bytes -> outcome DescribeClusterRequest :=
  decode read_DescribeClusterRequest.

Definition EncodeDescribeClusterResponse (resp : DescribeClusterResponse) : bytes :=
  let out := AppendU8 [] (message_u8 kDescribeClusterResponse) in
  let out := AppendU32 out (dc_id resp) in
  let out := AppendString out (host (dc_own_address resp)) in
  let out := AppendU16 out (port (dc_own_address resp)) in
  let out := AppendPeers out (dc_peers resp) in
  out.

Definition read_DescribeClusterResponse : Reader DescribeClusterResponse :=
  _ ← RdU8;
  id_ ← RdU32;
  h ← RdString;
  p ← RdU16;
  peers_ ← RdPeers;
  mret {| dc_id := id_; dc_own_address := {| host := h; port := p |}; dc_peers := peers_ |}.

Definition DecodeDescribeClusterResponse : bytes -> outcome DescribeClusterResponse :=
  decode read_DescribeClusterResponse.

(** ** Round trips *)

Definition log_entry_bytes (e : LogEntry) : bytes :=
  le_bytes 8 (index e) ++ le_bytes 8 (term e) ++ string_bytes (command e).

Definition peer_bytes (p : NodeId * PeerAddress) : bytes :=
  le_bytes 4 p.1 ++ string_bytes (host p.2) ++ le_bytes 2 (port p.2).

Definition peers_bytes (peers : peer_map) : bytes :=
  le_bytes 4 (size32 (map_entries peers)) ++ concat (map peer_bytes (map_entries peers)).

Lemma AppendEntries_app out es : foldl AppendEntry out es = out ++ concat (map log_entry_bytes es).
Proof.
  apply foldl_append. intros o e. unfold AppendEntry, log_entry_bytes. by codec_norm.
Qed.

Lemma length_map_entries (m : peer_map) : length (map_entries m) = size m.
Proof. by rewrite map_entries_perm, length_map_to_list. Qed.

Lemma AppendPeers_app out peers : AppendPeers out peers = out ++ peers_bytes peers.
Proof.
  unfold AppendPeers, peers_bytes. rewrite (foldl_append _ peer_bytes).
  - unfold AppendU32, size32. by rewrite length_map_entries, <- app_assoc.
  - intros o [id a]. unfold AppendPeer, peer_bytes. by codec_norm.
Qed.

Lemma AppendBool_app out b : AppendBool out b = out ++ le_bytes 1 (bool_u8 b).
Proof. done. Qed.

Ltac message_norm :=
  repeat rewrite ?AppendEntries_app, ?AppendPeers_app, ?AppendBool_app, ?AppendString_app;
  codec_norm.

Lemma reads_bool b : reads RdBool (le_bytes 1 (bool_u8 b)) b.
Proof.
  unfold RdBool. eapply reads_bind_last; [eauto with codec|].
  rewrite bool_u8_round_trip. apply reads_ret.
Qed.

Lemma reads_entry e : entry_ok e -> reads RdEntry (log_entry_bytes e) e.
Proof.
  intros (? & ? & ?). unfold RdEntry, log_entry_bytes. reads_tac. destruct e; apply reads_ret.
Qed.

Lemma reads_entries es :
  fits32 es -> Forall entry_ok es ->
  reads (read_n (N.to_nat (size32 es)) RdEntry) (concat (map log_entry_bytes es)) es.
Proof.
  intros He Hall. apply reads_n32; [done|].
  eapply Forall_impl; [exact Hall|]. intros e. apply reads_entry.
Qed.

Lemma reads_peer p : peer_ok p -> reads RdPeer (peer_bytes p) p.
Proof.
  destruct p as [id [h po]]. intros (? & ? & ?). cbn in *. unfold RdPeer, peer_bytes. cbn [fst snd host port].
  reads_tac.
Qed.

Definition peers_ok (peers : peer_map) : Prop :=
  fits32 (map_entries peers) /\ forall id a, peers !! id = Some a -> peer_ok (id, a).

Lemma reads_peers peers : peers_ok peers -> reads RdPeers (peers_bytes peers) peers.
Proof.
  intros [Hn Hall]. unfold RdPeers, peers_bytes.
  eapply reads_bind; [eauto with codec|].
  eapply reads_bind_last; [apply reads_n32; [done|]|].
  - apply Forall_forall. intros [id a] Hin. apply elem_of_map_entries in Hin. by apply reads_peer, Hall.
  - rewrite insert_map_entries. apply reads_ret.
Qed.

#[export] Hint Resolve reads_bool reads_entries reads_peers : codec.

(** ** One statement for all messages *)

Inductive Message :=
| MRequestVoteRequest (m : RequestVoteRequest)
| MRequestVoteResponse (m : RequestVoteResponse)
| MAppendEntriesRequest (m : AppendEntriesRequest)
| MAppendEntriesResponse (m : AppendEntriesResponse)
| MClientRequest (m : ClientRequest)
| MClientResponse (m : ClientResponse)
| MInstallSnapshotRequest (m : InstallSnapshotRequest)
| MInstallSnapshotResponse (m : InstallSnapshotResponse)
| MReadRequest (m : ReadRequest)
| MReadResponse (m : ReadResponse)
| MDescribeClusterRequest (m : DescribeClusterRequest)
| MDescribeClusterResponse (m : DescribeClusterResponse).

Definition message_type (m : Message) : MessageType :=
  match m with
  | MRequestVoteRequest _ => kRequestVoteRequest
  | MRequestVoteResponse _ => kRequestVoteResponse
  | MAppendEntriesRequest _ => kAppendEntriesRequest
  | MAppendEntriesResponse _ => kAppendEntriesResponse
  | MClientRequest _ => kClientRequest
  | MClientResponse _ => kClientResponse
  | MInstallSnapshotRequest _ => kInstallSnapshotRequest
  | MInstallSnapshotResponse _ => kInstallSnapshotResponse
  | MReadRequest _ => kReadRequest
  | MReadResponse _ => kReadResponse
  | MDescribeClusterRequest _ => kDescribeClusterRequest
  | MDescribeClusterResponse _ => kDescribeClusterResponse
  end.

Definition Encode (m : Message) : bytes :=
  match m with
  | MRequestVoteRequest m => EncodeRequestVoteRequest m
  | MRequestVoteResponse m => EncodeRequestVoteResponse m
  | MAppendEntriesRequest m => EncodeAppendEntriesRequest m
  | MAppendEntriesResponse m => EncodeAppendEntriesResponse m
  | MClientRequest m => EncodeClientRequest m
  | MClientResponse m => EncodeClientResponse m
  | MInstallSnapshotRequest m => EncodeInstallSnapshotRequest m
  | MInstallSnapshotResponse m => EncodeInstallSnapshotResponse m
  | MReadRequest m => EncodeReadRequest m
  | MReadResponse m => EncodeReadResponse m
  | MDescribeClusterRequest m => EncodeDescribeClusterRequest m
  | MDescribeClusterResponse m => EncodeDescribeClusterResponse m
  end.

(** What the decoder for the type of [m] makes of [body]. *)
Definition DecodeAs (m : Message) (body : bytes) : outcome Message :=
  match m with
  | MRequestVoteRequest _ => x ← DecodeRequestVoteRequest body; Ret (MRequestVoteRequest x)
  | MRequestVoteResponse _ => x ← DecodeRequestVoteResponse body; Ret (MRequestVoteResponse x)
  | MAppendEntriesRequest _ => x ← DecodeAppendEntriesRequest body; Ret (MAppendEntriesRequest x)
  | MAppendEntriesResponse _ => x ← DecodeAppendEntriesResponse body; Ret (MAppendEntriesResponse x)
  | MClientRequest _ => x ← DecodeClientRequest body; Ret (MClientRequest x)
  | MClientResponse _ => x ← DecodeClientResponse body; Ret (MClientResponse x)
  | MInstallSnapshotRequest _ => x ← DecodeInstallSnapshotRequest body; Ret (MInstallSnapshotRequest x)
  | MInstallSnapshotResponse _ => x ← DecodeInstallSnapshotResponse body; Ret (MInstallSnapshotResponse x)
  | MReadRequest _ => x ← DecodeReadRequest body; Ret (MReadRequest x)
  | MReadResponse _ => x ← DecodeReadResponse body; Ret (MReadResponse x)
  | MDescribeClusterRequest _ => x ← DecodeDescribeClusterRequest body; Ret (MDescribeClusterRequest x)
  | MDescribeClusterResponse _ => x ← DecodeDescribeClusterResponse body; Ret (MDescribeClusterResponse x)
  end.

(** The fields are in the range of their C++ types and lengths fit 32 bits. *)
Definition message_ok (m : Message) : Prop :=
  match m with
  | MRequestVoteRequest m =>
    rv_term m < two64 /\ rv_candidate_id m < two32 /\ rv_last_log_index m < two64 /\
    rv_last_log_term m < two64
  | MRequestVoteResponse m => rvr_term m < two64
  | MAppendEntriesRequest m =>
    ae_term m < two64 /\ ae_leader_id m < two32 /\ ae_prev_log_index m < two64 /\
    ae_prev_log_term m < two64 /\ ae_leader_commit m < two64 /\
    fits32 (ae_entries m) /\ Forall entry_ok (ae_entries m)
  | MAppendEntriesResponse m => aer_term m < two64 /\ aer_match_index m < two64
  | MClientRequest m => fits32 (cl_command m)
  | MClientResponse m =>
    clr_index m < two64 /\ clr_leader_hint m < two32 /\ fits32 (clr_error m)
  | MInstallSnapshotRequest m =>
    is_term m < two64 /\ is_leader_id m < two32 /\ is_last_included_index m < two64 /\
    is_last_included_term m < two64 /\ fits32 (is_data m) /\ peers_ok (is_membership m)
  | MInstallSnapshotResponse m => isr_term m < two64
  | MReadRequest m => fits32 (rd_query m)
  | MReadResponse m => fits32 (rdr_result m)
  | MDescribeClusterRequest _ => True
  | MDescribeClusterResponse m =>
    dc_id m < two32 /\ address_ok (dc_own_address m) /\ peers_ok (dc_peers m)
  end%N.

(** The reader behind [DecodeAs]. *)
Definition read_as (m : Message) : Reader Message :=
  match m with
  | MRequestVoteRequest _ => x ← read_RequestVoteRequest; mret (MRequestVoteRequest x)
  | MRequestVoteResponse _ => x ← read_RequestVoteResponse; mret (MRequestVoteResponse x)
  | MAppendEntriesRequest _ => x ← read_AppendEntriesRequest; mret (MAppendEntriesRequest x)
  | MAppendEntriesResponse _ => x ← read_AppendEntriesResponse; mret (MAppendEntriesResponse x)
  | MClientRequest _ => x ← read_ClientRequest; mret (MClientRequest x)
  | MClientResponse _ => x ← read_ClientResponse; mret (MClientResponse x)
  | MInstallSnapshotRequest _ => x ← read_InstallSnapshotRequest; mret (MInstallSnapshotRequest x)
  | MInstallSnapshotResponse _ => x ← read_InstallSnapshotResponse; mret (MInstallSnapshotResponse x)
  | MReadRequest _ => x ← read_ReadRequest; mret (MReadRequest x)
  | MReadResponse _ => x ← read_ReadResponse; mret (MReadResponse x)
  | MDescribeClusterRequest _ => x ← read_DescribeClusterRequest; mret (MDescribeClusterRequest x)
  | MDescribeClusterResponse _ => x ← read_DescribeClusterResponse; mret (MDescribeClusterResponse x)
  end.

Lemma DecodeAs_read m body : DecodeAs m body = decode (read_as m) body.
Proof.
  destruct m; cbn [DecodeAs read_as];
    match goal with |- context [mbind (M := outcome) _ (?D body)] => unfold D end;
    unfold decode, mbind, outcome_bind, reader_bind;
    by match goal with |- context [match ?r body with _ => _ end] => destruct (r body) as [[? ?]| |] end.
Qed.

#[local] Opaque corrupt_message.

Lemma reads_message m : message_ok m -> reads (read_as m) (Encode m) m.
Proof.
  destruct m as [m|m|m|m|m|m|m|m|m|m|m|m]; destruct m; unfold message_ok; cbn [read_as Encode]; intros Hok; cbn in Hok;
    repeat match goal with
      | H : _ /\ _ |- _ => destruct H
      | H : address_ok ?a |- _ => destruct a, H
      end;
    (eapply reads_bind_last; [|apply reads_ret]);
    unfold EncodeRequestVoteRequest, read_RequestVoteRequest, EncodeRequestVoteResponse, read_RequestVoteResponse, EncodeAppendEntriesRequest, read_AppendEntriesRequest, EncodeAppendEntriesResponse, read_AppendEntriesResponse, EncodeClientRequest, read_ClientRequest, EncodeClientResponse, read_ClientResponse, EncodeInstallSnapshotRequest, read_InstallSnapshotRequest, EncodeInstallSnapshotResponse, read_InstallSnapshotResponse, EncodeReadRequest, read_ReadRequest, EncodeReadResponse, read_ReadResponse, EncodeDescribeClusterRequest, read_DescribeClusterRequest, EncodeDescribeClusterResponse, read_DescribeClusterResponse;
    cbv zeta; message_norm; (eapply reads_bind || eapply reads_bind_last);
    try (apply reads_u8; done); cbn in *; reads_tac.
Qed.

#[local] Transparent corrupt_message.

Lemma Encode_tag m : exists rest, Encode m = le_bytes 1 (message_u8 (message_type m)) ++ rest.
Proof.
  destruct m; cbn [Encode message_type];
    match goal with |- context [?E _ = _] => unfold E end; cbv zeta; message_norm; by eexists.
Qed.

Lemma PeekMessageType_Encode m : PeekMessageType (Encode m) = Ret (message_type m).
Proof. destruct (Encode_tag m) as [rest ->]. by destruct m. Qed.

Lemma DecodeAs_Encode m : message_ok m -> DecodeAs m (Encode m) = Ret m.
Proof. intros Hok. rewrite DecodeAs_read. unfold decode. by rewrite (reads_whole _ _ _ (reads_message m Hok)). Qed.

(** The decoders of single messages, as a client calls them. *)
Lemma DecodeClientResponse_Encode r :
  message_ok (MClientResponse r) -> DecodeClientResponse (EncodeClientResponse r) = Ret r.
Proof.
  intros Hok. pose proof (DecodeAs_Encode _ Hok) as E. cbn [DecodeAs Encode] in E.
  destruct (DecodeClientResponse _) as [x|e|]; [|done..]. by injection E as ->.
Qed.

Lemma DecodeReadResponse_Encode r :
  message_ok (MReadResponse r) -> DecodeReadResponse (EncodeReadResponse r) = Ret r.
Proof.
  intros Hok. pose proof (DecodeAs_Encode _ Hok) as E. cbn [DecodeAs Encode] in E.
  destruct (DecodeReadResponse _) as [x|e|]; [|done..]. by injection E as ->.
Qed.

Lemma safe_read_as m : safe (read_as m).
Proof.
  destruct m; cbn [read_as]; (apply safe_bind; [|intros ?; apply safe_ret]);
    match goal with |- safe ?r => unfold r end;
    unfold RdPeers, RdPeer, RdBool, RdEntry, ReadU8, ReadU16, ReadU32, ReadU64; auto 20 with safe nocore.
Qed.

Lemma decode_safe {A} (r : Reader A) body : safe r -> decode r body <> Undef.
Proof.
  intros H. unfold decode. specialize (H body). by destruct (r body) as [[a s]|e|].
Qed.

(** C33: on any bytes at all the decoder of every message type returns a message or throws; it never
    reads past the end of the body ([fetch] would be undefined), whatever lengths and counts the
    bytes claim. *)
Theorem decoders_never_read_past m body : DecodeAs m body <> Undef.
Proof. rewrite DecodeAs_read. apply decode_safe, safe_read_as. Qed.

(** C32: every RPC message survives the wire: a receiver that peeks at the type of an encoded
    message finds the type of the message and the decoder for that type returns it, field by
    field, membership maps and log entries included; and a body that was cut short anywhere is
    rejected with an exception, never decoded to something else. *)
Theorem message_round_trip m n :
  message_ok m ->
  PeekMessageType (Encode m) = Ret (message_type m) /\
  DecodeAs m (Encode m) = Ret m /\
  (n < length (Encode m) -> exists e, DecodeAs m (take n (Encode m)) = Throw e)%nat.
Proof.
  intros Hok. pose proof (reads_message m Hok) as Hr. rewrite !DecodeAs_read. unfold decode.
  split_and!.
  - apply PeekMessageType_Encode.
  - by rewrite (reads_whole _ _ _ Hr).
  - intros Hn. destruct (reads_truncated _ _ _ n Hr Hn) as [e ->]. by exists e.
Qed.

Definition demo_append : Message :=
  MAppendEntriesRequest
    {| ae_term := 3; ae_leader_id := 1; ae_prev_log_index := 4; ae_prev_log_term := 2;
       ae_entries := [{| index := 5; term := 3; command := str "INSERT" |}]; ae_leader_commit := 4 |}.

Lemma message_round_trip_witness :
  PeekMessageType (Encode demo_append) = Ret (message_type demo_append) /\
  DecodeAs demo_append (Encode demo_append) = Ret demo_append /\
  (20 < length (Encode demo_append) -> exists e, DecodeAs demo_append (take 20 (Encode demo_append)) = Throw e)%nat.
Proof. apply (message_round_trip demo_append 20). repeat constructor. Defined.
