(* ===== verification/Participant.v ===== *)
(** * Two-phase commit, the participant ([src/txn/participant.h], [src/txn/participant.cpp])

    The state is the map of pending transactions and the set of locked keys.  [Commit] calls
    back into the SQL layer; the callback is a parameter that acts on a state of its own and
    may throw, so [Commit] runs on the pair of states. *)

From Stdlib Require Import NArith Lia.
From S2P Require Export Txn.

Record Pending := { keys : list bytes; commands : list bytes }.

Record TxnParticipant := {
  pending : gmap N Pending;
  locked_keys : gset (list ascii);
}.

Definition new_participant : TxnParticipant := {| pending := ∅; locked_keys := ∅ |}.

(** [for (const auto& key : pending.keys) locked_keys_.erase(key);] *)
Definition ReleaseLocks (p : Pending) (t : TxnParticipant) : TxnParticipant :=
  {| pending := pending t; locked_keys := foldl (fun l k => l ∖ {[k]}) (locked_keys t) (keys p) |}.

Definition erase_pending (txn_id : TxnId) (t : TxnParticipant) : TxnParticipant :=
  {| pending := delete txn_id (pending t); locked_keys := locked_keys t |}.

Definition locked_message (key : bytes) : bytes :=
  str "key '" ++ key ++ str "' is locked by another in-flight transaction".

Definition unknown_message (txn_id : TxnId) : bytes :=
  str "commit of unknown or already-resolved transaction " ++ to_string txn_id.

(** The first requested key that is locked. *)
Definition first_locked (t : TxnParticipant) (ks : list bytes) : option bytes :=
  snd <$> list_find (fun k => k ∈ locked_keys t) ks.

Definition Prepare (txn_id : TxnId) (ks cmds : list bytes) (t : TxnParticipant) : bytes * TxnParticipant :=
  match pending t !! txn_id with
  | Some _ => ([], t)
  | None =>
    match first_locked t ks with
    | Some key => (locked_message key, t)
    | None =>
      ([], {| pending := <[txn_id := {| keys := ks; commands := cmds |}]> (pending t);
              locked_keys := foldl (fun l k => l ∪ {[k]}) (locked_keys t) ks |})
    end
  end.

Definition Abort (txn_id : TxnId) (t : TxnParticipant) : bytes * TxnParticipant :=
  match pending t !! txn_id with
  | None => ([], t)
  | Some p => ([], erase_pending txn_id (ReleaseLocks p t))
  end.

Section commit.
Context {S : Type} (run : bytes -> ST S unit).

(** The callback, on the pair of states. *)
Definition run_on (command : bytes) : ST (TxnParticipant * S) unit := fun ts =>
  let '(r, s') := run command ts.2 in (r, (ts.1, s')).

Definition Commit (txn_id : TxnId) : ST (TxnParticipant * S) bytes :=
  ts ← st_get;
  match pending ts.1 !! txn_id with
  | None => mret (unknown_message txn_id)
  | Some p =>
    _ ← st_modify (fun ts => (ReleaseLocks p (erase_pending txn_id ts.1), ts.2));
    _ ← st_for (commands p) run_on;
    mret []
  end.
End commit.

(** ** Locks *)

Definition keys_of (p : Pending) : gset (list ascii) := list_to_set (keys p).

Lemma lock_all l ks : foldl (fun (l : gset (list ascii)) k => l ∪ {[k]}) l ks = l ∪ list_to_set ks.
Proof.
  revert l. induction ks as [|k ks IH]; intros l; cbn; [set_solver|]. rewrite IH. set_solver.
Qed.

Lemma release_all l ks : foldl (fun (l : gset (list ascii)) k => l ∖ {[k]}) l ks = l ∖ list_to_set ks.
Proof.
  revert l. induction ks as [|k ks IH]; intros l; cbn; [set_solver|]. rewrite IH. set_solver.
Qed.

(** The lock table is exactly the keys of the pending transactions, and no key belongs to two
    of them. *)
Record participant_ok (t : TxnParticipant) : Prop := {
  locked_iff k : k ∈ locked_keys t <-> exists id p, pending t !! id = Some p /\ k ∈ keys p;
  locked_once id1 id2 p1 p2 k :
    pending t !! id1 = Some p1 -> pending t !! id2 = Some p2 -> k ∈ keys p1 -> k ∈ keys p2 -> id1 = id2;
}.

Lemma new_participant_ok : participant_ok new_participant.
Proof. split; cbn; [|by intros; simplify_map_eq]. intros k. split; [set_solver|]. by intros (?&?&?&_); simplify_map_eq. Qed.

Lemma first_locked_None t ks : first_locked t ks = None <-> forall k, k ∈ ks -> k ∉ locked_keys t.
Proof.
  unfold first_locked. rewrite fmap_None, list_find_None, Forall_forall. done.
Qed.

Lemma first_locked_Some t ks k : first_locked t ks = Some k -> k ∈ ks /\ k ∈ locked_keys t.
Proof.
  unfold first_locked. rewrite fmap_Some. intros ([i x] & H & ->).
  apply list_find_Some in H as (Hx & Hl & _). cbn. split; [by eapply list_elem_of_lookup_2|done].
Qed.

(** Resolving a transaction, as [Commit] and [Abort] do. *)
Definition resolve (txn_id : TxnId) (p : Pending) (t : TxnParticipant) : TxnParticipant :=
  {| pending := delete txn_id (pending t); locked_keys := locked_keys t ∖ keys_of p |}.

Lemma resolve_commit txn_id p t : ReleaseLocks p (erase_pending txn_id t) = resolve txn_id p t.
Proof. unfold ReleaseLocks, resolve. by rewrite release_all. Qed.
Lemma resolve_abort txn_id p t : erase_pending txn_id (ReleaseLocks p t) = resolve txn_id p t.
Proof. unfold ReleaseLocks, resolve, erase_pending. by rewrite release_all. Qed.

Lemma resolve_ok txn_id p t :
  participant_ok t -> pending t !! txn_id = Some p -> participant_ok (resolve txn_id p t).
Proof.
  intros [Hl Ho] Hp. split; cbn.
  - intros k. unfold keys_of. rewrite elem_of_difference, elem_of_list_to_set, Hl. split.
    + intros [(id & q & Hq & Hk) Hni]. exists id, q. split; [|done].
      rewrite lookup_delete_ne; [done|]. intros ->. simplify_eq. done.
    + intros (id & q & Hq & Hk). apply lookup_delete_Some in Hq as [Hne Hq].
      split; [by exists id, q|]. intros Hk'. by destruct Hne; eapply Ho.
  - intros id1 id2 p1 p2 k H1 H2. apply lookup_delete_Some in H1 as [_ H1], H2 as [_ H2]. by eapply Ho.
Qed.

Lemma Prepare_ok txn_id ks cmds t :
  participant_ok t -> participant_ok (Prepare txn_id ks cmds t).2.
Proof.
  intros [Hl Ho]. unfold Prepare. destruct (pending t !! txn_id) as [p|] eqn:Hp; [by split|].
  destruct (first_locked t ks) as [key|] eqn:Hf; [by split|]. rewrite first_locked_None in Hf.
  split; cbn [snd pending locked_keys].
  - intros k. rewrite lock_all, elem_of_union, elem_of_list_to_set, Hl. split.
    + intros [(id & q & Hq & Hk)|Hk].
      * exists id, q. rewrite lookup_insert_ne; [done|]. by intros ->; rewrite Hp in Hq.
      * exists txn_id, {| keys := ks; commands := cmds |}. by rewrite lookup_insert_eq.
    + intros (id & q & Hq & Hk). apply lookup_insert_Some in Hq as [[<- <-]|[_ Hq]]; [by right|].
      left. by exists id, q.
  - intros id1 id2 p1 p2 k H1 H2 Hk1 Hk2.
    assert (Hnew : forall id p, pending t !! id = Some p -> k ∈ keys p -> k ∉ ks).
    { intros id p Hq Hk Hin. eapply Hf; [exact Hin|]. apply Hl. by exists id, p. }
    apply lookup_insert_Some in H1 as [[<- <-]|[_ H1]], H2 as [[<- <-]|[_ H2]]; cbn in *; try done.
    + by destruct (Hnew _ _ H2 Hk2).
    + by destruct (Hnew _ _ H1 Hk1).
    + by eapply Ho.
Qed.

(** ** Operations as steps *)

Section steps.
Context {S : Type} (run : bytes -> ST S unit).

Inductive participant_step : TxnParticipant * S -> TxnParticipant * S -> Prop :=
| step_prepare t s txn_id ks cmds :
    participant_step (t, s) ((Prepare txn_id ks cmds t).2, s)
| step_commit ts txn_id : participant_step ts (Commit run txn_id ts).2
| step_abort t s txn_id : participant_step (t, s) ((Abort txn_id t).2, s).

Lemma run_on_all cmds t s :
  st_for cmds (run_on run) (t, s) = let '(r, s') := st_for cmds run s in (r, (t, s')).
Proof.
  revert s. induction cmds as [|c cmds IH]; intros s; [done|]. cbn [st_for].
  unfold mbind, ST_bind, run_on at 1. cbn [fst snd].
  destruct (run c s) as [[[]|e|] s']; [apply IH|done|done].
Qed.

Lemma Commit_pending txn_id p t s :
  pending t !! txn_id = Some p ->
  Commit run txn_id (t, s) =
  let '(r, s') := st_for (commands p) run s in
  (match r with Ret _ => Ret [] | Throw e => Throw e | Undef => Undef end, (resolve txn_id p t, s')).
Proof.
  intros Hp. unfold Commit. st_steps. cbn [fst]. rewrite Hp. st_steps. cbn [fst snd].
  rewrite resolve_commit. pose proof (run_on_all (commands p) (resolve txn_id p t) s) as E.
  destruct (st_for (commands p) run s) as [[[]|e|] s']; unfold mbind, ST_bind; by rewrite E.
Qed.

Lemma Commit_unknown txn_id t s :
  pending t !! txn_id = None -> Commit run txn_id (t, s) = (Ret (unknown_message txn_id), (t, s)).
Proof. intros Hp. unfold Commit. st_steps. cbn [fst]. by rewrite Hp. Qed.

Lemma step_ok ts ts' : participant_step ts ts' -> participant_ok ts.1 -> participant_ok ts'.1.
Proof.
  destruct 1 as [t s txn_id ks cmds|[t s] txn_id|t s txn_id]; cbn [fst]; intros Hok.
  - by apply Prepare_ok.
  - destruct (pending t !! txn_id) as [p|] eqn:Hp.
    + rewrite (Commit_pending _ _ _ _ Hp). destruct (st_for _ _ _). by apply resolve_ok.
    + by rewrite Commit_unknown.
  - unfold Abort. destruct (pending t !! txn_id) as [p|] eqn:Hp; [|done].
    cbn [snd]. rewrite resolve_abort. by apply resolve_ok.
Qed.

Lemma reachable_ok s ts : rtc participant_step (new_participant, s) ts -> participant_ok ts.1.
Proof.
  intros H. assert (H0 : participant_ok (new_participant, s).1) by apply new_participant_ok.
  induction H as [ts|ts1 ts2 ts3 H12 H23 IH]; [exact H0|]. apply IH. by eapply step_ok.
Qed.
End steps.

(** ** Properties *)

(** C20: isolation of prepared transactions. In every state a participant can reach by any
    sequence of prepares, commits (whatever the staged commands do, throwing included) and
    aborts, no key is held by two pending transactions, and the lock table is exactly the
    keys of the pending transactions: no lock leaks and none is lost. *)
Theorem participant_isolation {S} (run : bytes -> ST S unit) s ts :
  rtc (participant_step run) (new_participant, s) ts ->
  (forall id1 id2 p1 p2 k, pending ts.1 !! id1 = Some p1 -> pending ts.1 !! id2 = Some p2 ->
     k ∈ keys p1 -> k ∈ keys p2 -> id1 = id2) /\
  (forall k, k ∈ locked_keys ts.1 <-> exists id p, pending ts.1 !! id = Some p /\ k ∈ keys p).
Proof. intros H. apply reachable_ok in H as [Hl Ho]. split; [exact Ho|exact Hl]. Qed.

Definition demo_run (c : bytes) : ST (list bytes) unit := st_modify (fun log => log ++ [c]).

Definition demo_prepared : TxnParticipant := (Prepare 7 [str "t/1"; str "t/2"] [str "c1"; str "c2"] new_participant).2.

Lemma participant_isolation_witness :
  let t := (Prepare 8 [str "t/2"] [] demo_prepared).2 in
  (forall id1 id2 p1 p2 k, pending t !! id1 = Some p1 -> pending t !! id2 = Some p2 ->
     k ∈ keys p1 -> k ∈ keys p2 -> id1 = id2) /\
  (forall k, k ∈ locked_keys t <-> exists id p, pending t !! id = Some p /\ k ∈ keys p).
Proof.
  apply (participant_isolation demo_run [] ((Prepare 8 [str "t/2"] [] demo_prepared).2, [])).
  eapply rtc_l; [apply step_prepare|]. eapply rtc_l; [apply step_prepare|]. apply rtc_refl.
Defined.

(** [Prepare] votes yes exactly when the transaction is already prepared or all its keys
    are free, locks all of them and stages the commands only in the second case, and on a no
    vote changes nothing. *)
Theorem Prepare_votes txn_id ks cmds t :
  let '(vote, t') := Prepare txn_id ks cmds t in
  match pending t !! txn_id with
  | Some _ => vote = [] /\ t' = t
  | None =>
    (vote = [] <-> forall k, k ∈ ks -> k ∉ locked_keys t) /\
    (vote <> [] -> t' = t) /\
    (vote = [] -> pending t' = <[txn_id := {| keys := ks; commands := cmds |}]> (pending t) /\
                  locked_keys t' = locked_keys t ∪ list_to_set ks)
  end.
Proof.
  unfold Prepare. destruct (pending t !! txn_id) as [p|] eqn:Hp; [done|].
  destruct (first_locked t ks) as [key|] eqn:Hf.
  - apply first_locked_Some in Hf as [Hin Hl]. split_and!; [|done|done].
    split; [done|]. intros H. by destruct (H key).
  - split_and!; [|done|].
    + split; [|done]. intros _. by apply first_locked_None.
    + intros _. cbn. by rewrite lock_all.
Qed.

(** Committing a prepared transaction runs its staged commands, in order, exactly once:
    [Commit] ends as the loop over the commands ends -- also when one throws, and then the
    commands before it have run -- and in every case the transaction is resolved and its
    locks are released; a second commit runs nothing and reports an unknown transaction, and
    a late abort is a no-op. *)
Theorem Commit_runs_once {S} (run : bytes -> ST S unit) txn_id p t s :
  participant_ok t -> pending t !! txn_id = Some p ->
  exists r t' s',
    Commit run txn_id (t, s) = (r, (t', s')) /\
    st_for (commands p) run s =
      (match r with Ret _ => Ret tt | Throw e => Throw e | Undef => Undef end, s') /\
    (forall v, r = Ret v -> v = []) /\
    pending t' = delete txn_id (pending t) /\
    (forall k, k ∈ keys p -> k ∉ locked_keys t') /\
    (forall k, k ∉ keys p -> k ∈ locked_keys t' <-> k ∈ locked_keys t) /\
    (forall s2, Commit run txn_id (t', s2) = (Ret (unknown_message txn_id), (t', s2))) /\
    Abort txn_id t' = ([], t').
Proof.
  intros Hok Hp. pose proof (Commit_pending run txn_id p t s Hp) as E.
  destruct (st_for (commands p) run s) as [r s'].
  assert (Hgone : pending (resolve txn_id p t) !! txn_id = None) by apply lookup_delete_eq.
  do 3 eexists. split; [exact E|]. split_and!.
  - by destruct r as [[]| |].
  - intros v. destruct r; by intros [= <-].
  - done.
  - cbn. unfold keys_of. intros k Hk. rewrite elem_of_difference, elem_of_list_to_set. by intros [_ []].
  - cbn. unfold keys_of. intros k Hk. rewrite elem_of_difference, elem_of_list_to_set. naive_solver.
  - intros s2. by apply Commit_unknown.
  - unfold Abort. by rewrite Hgone.
Qed.

Lemma Commit_runs_once_witness :
  exists r t' s',
    Commit demo_run 7 (demo_prepared, []) = (r, (t', s')) /\
    st_for [str "c1"; str "c2"] demo_run [] =
      (match r with Ret _ => Ret tt | Throw e => Throw e | Undef => Undef end, s') /\
    (forall v, r = Ret v -> v = []) /\
    pending t' = delete 7%N (pending demo_prepared) /\
    (forall k, k ∈ [str "t/1"; str "t/2"] -> k ∉ locked_keys t') /\
    (forall k, k ∉ [str "t/1"; str "t/2"] -> k ∈ locked_keys t' <-> k ∈ locked_keys demo_prepared) /\
    (forall s2, Commit demo_run 7 (t', s2) = (Ret (unknown_message 7), (t', s2))) /\
    Abort 7 t' = ([], t').
Proof.
  apply (Commit_runs_once demo_run 7
    {| keys := [str "t/1"; str "t/2"]; commands := [str "c1"; str "c2"] |} demo_prepared []).
  - apply Prepare_ok, new_participant_ok.
  - reflexivity.
Defined.
