(* ===== verification/RaftLog.v ===== *)
(** * The replicated log ([src/raft/log.h], [src/raft/log.cpp])

    The log in memory is a record; every mutation also says what it writes to disk: [Save]
    rewrites the whole file through a temporary one.  Positions in [entries_] are computed by
    subtraction from indices, as in the code; [log_ok] is the invariant that makes them the
    right ones, and under it every access is in range ([TermAt_in_range], [At_in_range]). *)

From Stdlib Require Import NArith Lia.
From S2P Require Export RaftTypes Fs Stream.

Record RaftLog := {
  snapshot_index : LogIndex;
  snapshot_term : Term;
  entries : list LogEntry;   (** [entries[i]] holds log index [snapshot_index + 1 + i] *)
  applied_index : LogIndex;
}.

Definition empty_log : RaftLog :=
  {| snapshot_index := 0; snapshot_term := 0; entries := []; applied_index := 0 |}.

Definition with_entries (es : list LogEntry) (l : RaftLog) : RaftLog :=
  {| snapshot_index := snapshot_index l; snapshot_term := snapshot_term l; entries := es;
     applied_index := applied_index l |}.

(** ** The file *)

Definition entry_record (e : LogEntry) : bytes :=
  le_bytes 8 (index e) ++ le_bytes 8 (term e) ++ le_bytes 4 (size32 (command e)) ++ command e.

Definition log_file (l : RaftLog) : bytes :=
  le_bytes 8 (snapshot_index l) ++ le_bytes 8 (snapshot_term l) ++
  le_bytes 4 (size32 (entries l)) ++ concat (map entry_record (entries l)) ++
  le_bytes 8 (applied_index l).

Definition Save (path : bytes) (l : RaftLog) : list fs_op := replace_file path (log_file l).

Fixpoint load_entries (count : nat) (s : istream) : list LogEntry * istream :=
  match count with
  | O => ([], s)
  | S c =>
    let '(i, s) := ReadRaw 8 s in
    let '(t, s) := ReadRaw 8 s in
    let '(len, s) := ReadRaw 4 s in
    let '(cmd, s) := if (0 <? len)%N then read_string len s else ([], s) in
    let '(rest, s) := load_entries c s in
    ({| index := i; term := t; command := cmd |} :: rest, s)
  end.

(** [Load] of a new log object: empty when there is no file; a file without the trailing
    field falls back to the snapshot boundary. *)
Definition Load (path : bytes) (d : files_t) : RaftLog :=
  match d !! path with
  | None => empty_log
  | Some file =>
    let s := open_stream file in
    let '(snap_i, s) := ReadRaw 8 s in
    let '(snap_t, s) := ReadRaw 8 s in
    let '(count, s) := ReadRaw 4 s in
    let '(es, s) := load_entries (N.to_nat count) s in
    let '(applied, s) := ReadRaw 8 s in
    {| snapshot_index := snap_i; snapshot_term := snap_t; entries := es;
       applied_index := if s_fail s then snap_i else applied |}
  end.

(** ** Reading the log *)

Definition LastIndex (l : RaftLog) : LogIndex :=
  match last (entries l) with Some e => index e | None => snapshot_index l end.

Definition LastTerm (l : RaftLog) : Term :=
  match last (entries l) with Some e => term e | None => snapshot_term l end.

(** [entries_[index - snapshot_index_ - 1]]. *)
Definition slot (l : RaftLog) (i : LogIndex) : option LogEntry :=
  entries l !! N.to_nat (i - snapshot_index l - 1).

Definition TermAt (i : LogIndex) (l : RaftLog) : Term :=
  if (i =? snapshot_index l)%N then snapshot_term l
  else if ((i <? snapshot_index l) || (LastIndex l <? i))%N then 0
  else match slot l i with Some e => term e | None => 0 end.

Definition At (i : LogIndex) (l : RaftLog) : option LogEntry :=
  if ((i <=? snapshot_index l) || (LastIndex l <? i))%N then None else slot l i.

(** ** Changing the log *)

Definition SetAppliedIndex (i : LogIndex) (l : RaftLog) : RaftLog :=
  {| snapshot_index := snapshot_index l; snapshot_term := snapshot_term l; entries := entries l;
     applied_index := i |}.

Definition Append (t : Term) (cmd : bytes) (l : RaftLog) : LogIndex * RaftLog :=
  let e := {| index := u64_add (LastIndex l) 1; term := t; command := cmd |} in
  (index e, with_entries (entries l ++ [e]) l).

Definition set_index (i : LogIndex) (e : LogEntry) : LogEntry :=
  {| index := i; term := term e; command := command e |}.

(** The loop of [AppendEntriesFrom] from the [i]-th entry on: the new [entries_], and whether
    anything changed. *)
Fixpoint append_loop (snap prev : N) (i : nat) (new es : list LogEntry) (changed : bool)
    : list LogEntry * bool :=
  match new with
  | [] => (es, changed)
  | e :: new' =>
    let idx := u64_add (u64_add prev 1) (N.of_nat i) in
    if (idx <=? snap)%N then append_loop snap prev (S i) new' es changed
    else
      let pos := N.to_nat (idx - snap - 1) in
      match es !! pos with
      | Some x =>
        if (term x =? term e)%N then append_loop snap prev (S i) new' es changed
        else append_loop snap prev (S i) new' (take pos es ++ [set_index idx e]) true
      | None => append_loop snap prev (S i) new' (es ++ [set_index idx e]) true
      end
  end.

(** Whether the entries were accepted, whether the log was saved, and the log. *)
Definition AppendEntriesFrom (prev_log_index : LogIndex) (prev_log_term : Term)
    (new : list LogEntry) (l : RaftLog) : bool * bool * RaftLog :=
  if ((0 <? prev_log_index) && negb (TermAt prev_log_index l =? prev_log_term))%N
  then (false, false, l)
  else
    let '(es, changed) := append_loop (snapshot_index l) prev_log_index 0 new (entries l) false in
    (true, changed, with_entries es l).

(** Whether the log was saved, and the log. *)
Definition CompactTo (i : LogIndex) (t : Term) (l : RaftLog) : bool * RaftLog :=
  if (i <=? snapshot_index l)%N then (false, l)
  else
    let es :=
      if ((i <=? LastIndex l) && (TermAt i l =? t))%N
      then drop (N.to_nat (i - snapshot_index l)) (entries l) else [] in
    (true, {| snapshot_index := i; snapshot_term := t; entries := es;
              applied_index := applied_index l |}).

(** ** The invariant *)

(** Indices are consecutive from the snapshot boundary on, and fit 64 bits. *)
Record log_ok (l : RaftLog) : Prop := {
  log_index i e : entries l !! i = Some e -> index e = (snapshot_index l + 1 + N.of_nat i)%N;
  log_bound : (snapshot_index l + N.of_nat (length (entries l)) < two64)%N;
}.

Definition last_index (l : RaftLog) : N := (snapshot_index l + N.of_nat (length (entries l)))%N.

Lemma LastIndex_ok l : log_ok l -> LastIndex l = last_index l.
Proof.
  intros [Hi _]. unfold LastIndex, last_index. destruct (last (entries l)) as [e|] eqn:E.
  - rewrite last_lookup in E. rewrite (Hi _ _ E).
    assert (0 < length (entries l))%nat by (destruct (entries l); cbn in *; [done|lia]). lia.
  - apply last_None in E. rewrite E. cbn. lia.
Qed.

Lemma slot_in_range l i :
  log_ok l -> (snapshot_index l < i <= LastIndex l)%N -> exists e, slot l i = Some e /\ index e = i.
Proof.
  intros Hok Hi. rewrite LastIndex_ok in Hi by done. unfold last_index in Hi.
  destruct (lookup_lt_is_Some_2 (entries l) (N.to_nat (i - snapshot_index l - 1))) as [e He]; [lia|].
  exists e. split; [exact He|]. rewrite (log_index l Hok _ _ He). lia.
Qed.

Lemma At_in_range l i :
  log_ok l -> (snapshot_index l < i <= LastIndex l)%N ->
  exists e, At i l = Some e /\ slot l i = Some e /\ index e = i.
Proof.
  intros Hok Hi. destruct (slot_in_range l i Hok Hi) as (e & He & Hx). exists e.
  unfold At. destruct (N.leb_spec i (snapshot_index l)); [lia|].
  destruct (N.ltb_spec (LastIndex l) i); [lia|done].
Qed.

Lemma TermAt_in_range l i :
  log_ok l -> (snapshot_index l < i <= LastIndex l)%N ->
  exists e, At i l = Some e /\ TermAt i l = term e.
Proof.
  intros Hok Hi. destruct (At_in_range l i Hok Hi) as (e & He & Hs & _). exists e. split; [done|].
  unfold TermAt. destruct (N.eqb_spec i (snapshot_index l)); [lia|].
  destruct (N.ltb_spec i (snapshot_index l)); [lia|].
  destruct (N.ltb_spec (LastIndex l) i); [lia|]. cbn. by rewrite Hs.
Qed.

(** [At], as a lookup by position. *)
Lemma At_lookup l i : log_ok l -> (snapshot_index l < i)%N ->
  At i l = entries l !! N.to_nat (i - snapshot_index l - 1).
Proof.
  intros Hok Hi. unfold At, slot. destruct (N.leb_spec i (snapshot_index l)); [lia|].
  destruct (N.ltb_spec (LastIndex l) i) as [Hgt|]; [|done].
  rewrite LastIndex_ok in Hgt by done. unfold last_index in Hgt.
  symmetry. apply lookup_ge_None_2. lia.
Qed.

Lemma At_below l i : (i <= snapshot_index l)%N -> At i l = None.
Proof. intros H. unfold At. by destruct (N.leb_spec i (snapshot_index l)); [|lia]. Qed.

Lemma At_index l i e : log_ok l -> At i l = Some e -> index e = i.
Proof.
  intros Hok H. destruct (decide (i <= snapshot_index l)%N) as [Hle|Hgt].
  - by rewrite At_below in H.
  - rewrite At_lookup in H by (done || lia). apply (log_index l Hok) in H. lia.
Qed.

Lemma TermAt_past l i : (LastIndex l < i)%N -> log_ok l -> TermAt i l = 0%N.
Proof.
  intros H Hok. assert (snapshot_index l <= LastIndex l)%N
    by (rewrite LastIndex_ok by done; unfold last_index; lia).
  unfold TermAt. destruct (N.eqb_spec i (snapshot_index l)); [lia|].
  destruct (N.ltb_spec (LastIndex l) i); [|lia]. by rewrite orb_true_r.
Qed.

Lemma TermAt_before l i : (i < snapshot_index l)%N -> TermAt i l = 0%N.
Proof.
  intros H. unfold TermAt. destruct (N.eqb_spec i (snapshot_index l)); [lia|].
  by destruct (N.ltb_spec i (snapshot_index l)); [|lia].
Qed.

Lemma empty_log_ok : log_ok empty_log.
Proof. by split. Qed.

(** ** What the operations do *)

Lemma Append_ok t cmd l :
  log_ok l -> (LastIndex l + 1 < two64)%N ->
  let '(i, l') := Append t cmd l in
  log_ok l' /\ i = (LastIndex l + 1)%N /\ LastIndex l' = i /\
  At i l' = Some {| index := i; term := t; command := cmd |} /\
  (forall j, (j <= LastIndex l)%N -> At j l' = At j l) /\
  snapshot_index l' = snapshot_index l /\ snapshot_term l' = snapshot_term l /\
  applied_index l' = applied_index l.
Proof.
  intros Hok Hb. unfold Append. rewrite (LastIndex_ok l Hok) in *.
  assert (Hi : u64_add (last_index l) 1 = (last_index l + 1)%N) by (unfold u64_add, u64; by apply N.mod_small).
  rewrite Hi. set (e := {| index := _ |}). cbn [index].
  assert (Hok' : log_ok (with_entries (entries l ++ [e]) l)).
  { split; cbn [with_entries entries snapshot_index].
    - intros k x Hx. apply lookup_app_Some in Hx as [Hx|[Hk Hx]]; [by apply (log_index l Hok)|].
      destruct (k - length (entries l))%nat as [|n] eqn:En; [|done]. injection Hx as <-.
      cbn. unfold last_index. lia.
    - rewrite length_app. cbn. unfold last_index in *. lia. }
  assert (Hlast : last_index (with_entries (entries l ++ [e]) l) = (last_index l + 1)%N).
  { unfold last_index. cbn. rewrite length_app. cbn. lia. }
  change (index e) with (last_index l + 1)%N. split_and!; try done.
  - rewrite LastIndex_ok by done. exact Hlast.
  - rewrite At_lookup; [|done|unfold last_index; cbn; lia]. cbn [with_entries entries snapshot_index].
    rewrite lookup_app_r by (unfold last_index; lia).
    rewrite (proj2 (Nat.sub_0_le _ _)) by (unfold last_index; lia). done.
  - intros j Hj. destruct (decide (j <= snapshot_index l)%N); [by rewrite !At_below|].
    rewrite !At_lookup by (done || cbn; lia). cbn. apply lookup_app_l. unfold last_index in Hj. lia.
Qed.

(** *** [AppendEntriesFrom] *)

Definition at_pos (snap : N) (es : list LogEntry) (idx : LogIndex) : option LogEntry :=
  es !! N.to_nat (idx - snap - 1).

Definition consecutive (snap : N) (es : list LogEntry) : Prop :=
  forall i e, es !! i = Some e -> index e = (snap + 1 + N.of_nat i)%N.

(** Entry [x] of the request and entry [y] of the log at the same index, of different terms. *)
Definition conflict (snap first : N) (new es : list LogEntry) (upto : LogIndex) : Prop :=
  exists k x y, (first + N.of_nat k <= upto)%N /\ (snap < first + N.of_nat k)%N /\
    new !! k = Some x /\ at_pos snap es (first + N.of_nat k) = Some y /\ term x <> term y.

Record appended (snap first : N) (new es es' : list LogEntry) : Prop := {
  app_index : consecutive snap es';
  app_before idx : (snap < idx < first)%N -> at_pos snap es' idx = at_pos snap es idx;
  app_new k e : new !! k = Some e -> (snap < first + N.of_nat k)%N ->
    exists e', at_pos snap es' (first + N.of_nat k) = Some e' /\ term e' = term e /\
      (at_pos snap es (first + N.of_nat k) = Some e' \/ command e' = command e);
  app_kept idx e : (snap < idx)%N -> at_pos snap es idx = Some e ->
    at_pos snap es' idx = Some e \/ conflict snap first new es idx;
  app_length : (N.of_nat (length es') <= N.max (N.of_nat (length es)) (first - 1 + N.of_nat (length new) - snap))%N;
}.

Lemma consecutive_snoc snap es e :
  consecutive snap es -> consecutive snap (es ++ [set_index (snap + 1 + N.of_nat (length es)) e]).
Proof.
  intros H i x Hx. apply lookup_app_Some in Hx as [Hx|[Hi Hx]]; [by apply H|].
  destruct (i - length es)%nat as [|n] eqn:En; [|done]. injection Hx as <-. cbn. lia.
Qed.

Lemma consecutive_take snap es n : consecutive snap es -> consecutive snap (take n es).
Proof. intros H i e Hi. apply lookup_take_Some in Hi as [Hi _]. by apply H. Qed.

(** One step of the loop, seen from the rest of it. *)
Lemma appended_skip snap first e new es es' :
  (first <= snap)%N -> appended snap (first + 1) new es es' -> appended snap first (e :: new) es es'.
Proof.
  intros Hs [H1 H2 H3 H4 H5]. split; [done| | | |cbn; lia].
  - intros idx Hidx. apply H2. lia.
  - intros [|k] x Hx Hk; [lia|]. cbn in Hx.
    replace (first + N.of_nat (S k))%N with (first + 1 + N.of_nat k)%N in * by lia. by apply H3.
  - intros idx x Hidx Hx. destruct (H4 idx x Hidx Hx) as [?|(k & a & b & ? & ? & ? & ? & ?)]; [by left|right].
    exists (S k), a, b. replace (first + N.of_nat (S k))%N with (first + 1 + N.of_nat k)%N by lia. done.
Qed.

Lemma appended_same snap first e x new es es' :
  (snap < first)%N -> at_pos snap es first = Some x -> term x = term e ->
  appended snap (first + 1) new es es' -> appended snap first (e :: new) es es'.
Proof.
  intros Hs Hx Ht [H1 H2 H3 H4 H5]. split; [done| | | |].
  - intros idx Hidx. apply H2. lia.
  - intros [|k] y Hy Hk.
    + injection Hy as <-. rewrite N.add_0_r. exists x. rewrite H2 by lia. auto.
    + cbn in Hy. replace (first + N.of_nat (S k))%N with (first + 1 + N.of_nat k)%N in * by lia. by apply H3.
  - intros idx y Hidx Hy. destruct (H4 idx y Hidx Hy) as [?|(k & a & b & ? & ? & ? & ? & ?)]; [by left|right].
    exists (S k), a, b. replace (first + N.of_nat (S k))%N with (first + 1 + N.of_nat k)%N by lia. done.
  - cbn. apply lookup_lt_Some in Hx. lia.
Qed.

Lemma appended_new snap first e new es es' :
  (snap < first)%N -> (N.to_nat (first - snap - 1) <= length es)%nat ->
  (match at_pos snap es first with Some x => term x <> term e | None => True end) ->
  appended snap (first + 1) new (take (N.to_nat (first - snap - 1)) es ++ [set_index first e]) es' ->
  appended snap first (e :: new) es es'.
Proof.
  set (p := N.to_nat (first - snap - 1)). set (es1 := take p es ++ _).
  intros Hs Hp Hc [H1 H2 H3 H4 H5].
  assert (Hlen : length es1 = S p) by (unfold es1; rewrite length_app, length_take; cbn; lia).
  assert (Hlow : forall idx, (snap < idx < first)%N -> at_pos snap es1 idx = at_pos snap es idx).
  { intros idx Hidx. unfold at_pos, es1. rewrite lookup_app_l by (rewrite length_take; lia).
    apply lookup_take_lt. lia. }
  assert (Hmid : at_pos snap es1 first = Some (set_index first e)).
  { unfold at_pos, es1. rewrite lookup_app_r by (rewrite length_take; lia).
    rewrite length_take, (proj2 (Nat.sub_0_le _ _)) by lia. done. }
  assert (Hhigh : forall idx, (first < idx)%N -> at_pos snap es1 idx = None).
  { intros idx Hidx. unfold at_pos. apply lookup_ge_None_2. lia. }
  split; [done| | | |].
  - intros idx Hidx. by rewrite H2, Hlow by lia.
  - intros [|k] y Hy Hk.
    + injection Hy as <-. rewrite N.add_0_r. exists (set_index first e). rewrite H2 by lia. auto.
    + cbn in Hy. replace (first + N.of_nat (S k))%N with (first + 1 + N.of_nat k)%N in * by lia.
      destruct (H3 k y Hy Hk) as (e' & ? & ? & [Ho|?]); [|by exists e'; auto].
      rewrite Hhigh in Ho by lia. done.
  - intros idx y Hidx Hy. destruct (decide (idx < first)%N) as [Hlt|Hge].
    + rewrite <- Hlow in Hy by lia. destruct (H4 idx y Hidx Hy) as [?|(k & a & b & Hk & _)]; [by left|lia].
    + right. destruct (at_pos snap es first) as [x|] eqn:Ex.
      * exists 0%nat, e, x. rewrite N.add_0_r. split_and!; [lia|lia|done|done|congruence].
      * unfold at_pos in *. apply lookup_ge_None_1 in Ex. apply lookup_lt_Some in Hy. lia.
  - cbn. lia.
Qed.

Lemma append_loop_spec snap prev i new es changed :
  consecutive snap es -> (prev + N.of_nat i <= snap + N.of_nat (length es))%N ->
  (prev + 1 + N.of_nat (i + length new) < two64)%N ->
  let '(es', changed') := append_loop snap prev i new es changed in
  appended snap (prev + 1 + N.of_nat i) new es es' /\
  (changed' = false -> es' = es /\ changed = false).
Proof.
  revert i es changed. induction new as [|e new IH]; intros i es changed Hc Hp Hb; cbn [append_loop].
  { split; [|done]. split; [done|done|done|by left|cbn; lia]. }
  cbn [length] in Hb.
  assert (Eidx : u64_add (u64_add prev 1) (N.of_nat i) = (prev + 1 + N.of_nat i)%N).
  { unfold u64_add, u64. rewrite (N.mod_small (prev + 1)), N.mod_small; lia. }
  rewrite Eidx. set (idx := (prev + 1 + N.of_nat i)%N) in *.
  assert (En : (idx + 1)%N = (prev + 1 + N.of_nat (S i))%N) by lia.
  destruct (N.leb_spec idx snap) as [Hle|Hgt].
  - specialize (IH (S i) es changed Hc ltac:(lia) ltac:(lia)).
    destruct (append_loop _ _ _ _ _ _) as [es' ch']. destruct IH as [Ha Hch].
    split; [|done]. apply appended_skip; [done|]. by rewrite En.
  - change (es !! N.to_nat (idx - snap - 1)) with (at_pos snap es idx).
    assert (Hnew : forall es1, es1 = take (N.to_nat (idx - snap - 1)) es ++ [set_index idx e] ->
      (match at_pos snap es idx with Some x => term x <> term e | None => True end) ->
      let '(es', changed') := append_loop snap prev (S i) new es1 true in
      appended snap idx (e :: new) es es' /\ (changed' = false -> es' = es /\ changed = false)).
    { intros es1 -> Hcf.
      assert (Hlen : length (take (N.to_nat (idx - snap - 1)) es) = N.to_nat (idx - snap - 1))
        by (rewrite length_take; lia).
      specialize (IH (S i) (take (N.to_nat (idx - snap - 1)) es ++ [set_index idx e]) true).
      destruct (append_loop _ _ _ _ _ _) as [es' ch']. destruct IH as [Ha Hch].
      - replace idx with (snap + 1 + N.of_nat (length (take (N.to_nat (idx - snap - 1)) es)))%N at 2 by lia.
        by apply consecutive_snoc, consecutive_take.
      - rewrite length_app, Hlen. cbn. lia.
      - lia.
      - split; [|by intros [_ ?]%Hch].
        apply appended_new; [lia|lia|done|]. by rewrite En. }
    destruct (at_pos snap es idx) as [x|] eqn:Ex.
    + destruct (N.eqb_spec (term x) (term e)) as [Ht|Ht]; [|by apply Hnew].
      specialize (IH (S i) es changed Hc). destruct (append_loop _ _ _ _ _ _) as [es' ch'].
      destruct IH as [Ha Hch]; [apply lookup_lt_Some in Ex; lia|lia|]. split; [|done].
      eapply appended_same; [lia|exact Ex|done|]. by rewrite En.
    + apply Hnew; [|done]. f_equal. symmetry. apply take_ge. by apply lookup_ge_None_1 in Ex.
Qed.

Lemma consecutive_log l : log_ok l <-> consecutive (snapshot_index l) (entries l) /\
  (snapshot_index l + N.of_nat (length (entries l)) < two64)%N.
Proof. split; [by intros [??]|by intros [??]; split]. Qed.

Lemma At_at_pos l i : log_ok l -> (snapshot_index l < i)%N -> At i l = at_pos (snapshot_index l) (entries l) i.
Proof. apply At_lookup. Qed.

(** The entry that precedes accepted entries is in the log, or below it. *)
Lemma prev_in_range (prev : LogIndex) (t : Term) l :
  log_ok l -> (prev = 0 \/ t <> 0)%N ->
  ((0 <? prev) && negb (TermAt prev l =? t))%N = false -> (prev <= LastIndex l)%N.
Proof.
  intros Hok Ht Hc. destruct (decide (prev <= LastIndex l)%N) as [|Hgt]; [done|].
  apply andb_false_iff in Hc as [Hc|Hc].
  - apply N.ltb_ge in Hc. lia.
  - rewrite TermAt_past in Hc by (done || lia). apply negb_false_iff, N.eqb_eq in Hc. destruct Ht; lia.
Qed.

Lemma AppendEntriesFrom_rejected (prev : LogIndex) (t : Term) new l :
  (AppendEntriesFrom prev t new l).1.1 = false ->
  (0 < prev)%N /\ TermAt prev l <> t /\ AppendEntriesFrom prev t new l = (false, false, l).
Proof.
  unfold AppendEntriesFrom. destruct ((0 <? prev)%N && _) eqn:E.
  - apply andb_true_iff in E as [E1 E2]. apply N.ltb_lt in E1. apply negb_true_iff, N.eqb_neq in E2. done.
  - by destruct (append_loop _ _ _ _ _ _).
Qed.

Lemma AppendEntriesFrom_accepted (prev : LogIndex) (t : Term) new l :
  log_ok l -> (prev = 0 \/ t <> 0)%N -> (prev + 1 + N.of_nat (length new) < two64)%N ->
  (AppendEntriesFrom prev t new l).1.1 = true ->
  exists es' changed,
    AppendEntriesFrom prev t new l = (true, changed, with_entries es' l) /\
    appended (snapshot_index l) (prev + 1) new (entries l) es' /\
    (changed = false -> with_entries es' l = l) /\ log_ok (with_entries es' l) /\
    (prev = 0 \/ TermAt prev l = t)%N /\ (prev <= LastIndex l)%N.
Proof.
  intros Hok Ht Hb. unfold AppendEntriesFrom. destruct ((0 <? prev)%N && _) eqn:E; [done|]. intros _.
  pose proof (prev_in_range prev t l Hok Ht E) as Hp. rewrite LastIndex_ok in Hp by done. unfold last_index in Hp.
  destruct (proj1 (consecutive_log l) Hok) as [Hc Hlen].
  pose proof (append_loop_spec (snapshot_index l) prev 0 new (entries l) false Hc) as H.
  destruct (append_loop _ _ _ _ _ _) as [es' changed].
  destruct H as [Ha Hch]; [lia|cbn; lia|]. rewrite N.add_0_r in Ha.
  exists es', changed. split_and!; [done|done| | | |].
  - intros Hcf. destruct (Hch Hcf) as [-> _]. by destruct l.
  - apply consecutive_log. cbn. split; [apply Ha|]. pose proof (app_length _ _ _ _ _ Ha). lia.
  - apply andb_false_iff in E as [E|E]; [left; apply N.ltb_ge in E; lia|right].
    by apply negb_false_iff, N.eqb_eq in E.
  - rewrite LastIndex_ok by done. exact Hp.
Qed.

(** *** [CompactTo] *)

Lemma CompactTo_spec i t l :
  log_ok l -> (i < two64)%N ->
  let '(saved, l') := CompactTo i t l in
  log_ok l' /\ applied_index l' = applied_index l /\
  (if decide (i <= snapshot_index l)%N then saved = false /\ l' = l
   else snapshot_index l' = i /\ snapshot_term l' = t /\ TermAt i l' = t /\
     forall j, (i < j)%N ->
       At j l' = if decide (i <= LastIndex l /\ TermAt i l = t)%N then At j l else None).
Proof.
  intros Hok Hi. unfold CompactTo. destruct (N.leb_spec i (snapshot_index l)) as [Hle|Hgt].
  { rewrite decide_True by done. done. }
  rewrite decide_False by lia.
  set (es := if ((i <=? LastIndex l) && (TermAt i l =? t))%N
             then drop (N.to_nat (i - snapshot_index l)) (entries l) else []).
  set (l' := {| snapshot_index := i; snapshot_term := t; entries := es; applied_index := applied_index l |}).
  assert (Hes : es = if decide (i <= LastIndex l /\ TermAt i l = t)%N
                     then drop (N.to_nat (i - snapshot_index l)) (entries l) else []).
  { unfold es. destruct (N.leb_spec i (LastIndex l)), (N.eqb_spec (TermAt i l) t); cbn;
      case_decide; naive_solver lia. }
  destruct (proj1 (consecutive_log l) Hok) as [Hc Hb].
  assert (Hlast : LastIndex l = last_index l) by by apply LastIndex_ok.
  assert (Hok' : log_ok l').
  { apply consecutive_log. cbn [snapshot_index entries l']. rewrite Hes. case_decide as Hd.
    - rewrite Hlast in Hd. unfold last_index in Hd. split; [|rewrite length_drop; lia].
      intros k e Hk. rewrite lookup_drop in Hk. rewrite (Hc _ _ Hk). lia.
    - split; [by intros k e|cbn; lia]. }
  split_and!; try done.
  - unfold TermAt. cbn [snapshot_index l']. by rewrite N.eqb_refl.
  - intros j Hj. rewrite At_lookup by done. cbn [snapshot_index entries l']. rewrite Hes.
    case_decide as Hd; [|done]. rewrite At_lookup by (done || lia).
    rewrite lookup_drop. f_equal. lia.
Qed.

(** *** Saving and loading *)

Definition log_fits (l : RaftLog) : Prop :=
  (snapshot_index l < two64)%N /\ (snapshot_term l < two64)%N /\ (applied_index l < two64)%N /\
  fits32 (entries l) /\ Forall entry_ok (entries l).

Lemma load_entries_at s es rest :
  Forall entry_ok es -> at_bytes s (concat (map entry_record es) ++ rest) ->
  exists s', load_entries (length es) s = (es, s') /\ at_bytes s' rest.
Proof.
  intros Hall. revert s. induction Hall as [|e es (Hi & Ht & Hcmd) Hall IH]; intros s H; [by exists s|].
  cbn [map concat length load_entries] in *. unfold entry_record in H at 1. rewrite <- !app_assoc in H.
  apply ReadRaw8_at in H as [-> H]; [|done]. apply ReadRaw8_at in H as [-> H]; [|done].
  apply ReadRaw4_at in H as [-> H]; [|apply size32_bound]. rewrite size32_small by done.
  assert (Hs : exists s'', (if (0 <? N.of_nat (length (command e)))%N
      then read_string (N.of_nat (length (command e))) (advance 4 (advance 8 (advance 8 s)))
      else ([], advance 4 (advance 8 (advance 8 s)))) = (command e, s'') /\
      at_bytes s'' (concat (map entry_record es) ++ rest)).
  { destruct (command e) as [|c cmd] eqn:Ec; [by eexists|].
    destruct (N.ltb_spec 0 (N.of_nat (length (c :: cmd)))) as [_|Hz]; [|cbn in Hz; lia].
    apply read_string_at in H as [-> H]. by eexists. }
  destruct Hs as (s'' & -> & Hs''). destruct (IH _ Hs'') as (s' & -> & Hs').
  exists s'. split; [|done]. by destruct e.
Qed.

Lemma log_file_loads path l d :
  log_fits l -> d !! path = Some (log_file l) -> Load path d = l.
Proof.
  intros (H1 & H2 & H3 & H4 & H5) Hf. unfold Load. rewrite Hf.
  assert (H : at_bytes (open_stream (log_file l)) (log_file l)) by by split; [|apply drop_0].
  unfold log_file in H at 2. apply ReadRaw8_at in H as [-> H]; [|done].
  apply ReadRaw8_at in H as [-> H]; [|done]. apply ReadRaw4_at in H as [-> H]; [|apply size32_bound].
  rewrite size32_small, Nat2N.id by done.
  destruct (load_entries_at _ _ _ H5 H) as (s' & -> & Hs').
  rewrite <- (app_nil_r (le_bytes 8 (applied_index l))) in Hs'.
  apply ReadRaw8_at in Hs' as [-> Hs']; [|done]. cbn [advance s_fail]. by destruct l.
Qed.

(** ** Properties *)

(** C15: [AppendEntriesFrom] does what Raft asks of a follower. It refuses, changing nothing,
    exactly when the log has no entry of the leader's term before the new ones; otherwise the
    log keeps everything up to [prev_log_index], holds at every index of the request an entry
    of the request's term (the one it had, or the request's command), and loses an entry only
    at or after an index where its term conflicted with the request's, so a delayed or
    repeated request never truncates entries it agrees with. Indices stay consecutive, and an
    unsaved log is an unchanged one. *)
Theorem AppendEntriesFrom_spec (prev : LogIndex) (t : Term) new l :
  log_ok l -> (prev = 0 \/ t <> 0)%N -> (prev + 1 + N.of_nat (length new) < two64)%N ->
  let '(accepted, saved, l') := AppendEntriesFrom prev t new l in
  log_ok l' /\ (saved = false -> l' = l) /\
  (accepted = false <-> (0 < prev)%N /\ TermAt prev l <> t) /\ (accepted = false -> l' = l) /\
  (accepted = true ->
    (forall j, (j <= prev)%N -> At j l' = At j l) /\
    (forall k e, new !! k = Some e -> (snapshot_index l < prev + 1 + N.of_nat k)%N ->
      exists e', At (prev + 1 + N.of_nat k) l' = Some e' /\ term e' = term e /\
        (At (prev + 1 + N.of_nat k) l = Some e' \/ command e' = command e)) /\
    (forall j e, At j l = Some e ->
      At j l' = Some e \/
      exists k x y, (prev + 1 + N.of_nat k <= j)%N /\ new !! k = Some x /\
        At (prev + 1 + N.of_nat k) l = Some y /\ term x <> term y)).
Proof.
  intros Hok Ht Hb. destruct (AppendEntriesFrom prev t new l) as [[[|] saved] l'] eqn:E.
  - destruct (AppendEntriesFrom_accepted prev t new l Hok Ht Hb) as (es' & ch & E' & Ha & Hch & Hok' & Hp & _);
      [by rewrite E|]. rewrite E in E'. injection E' as -> ->.
    destruct Ha as [_ H2 H3 H4 _]. split_and!; [done|done| |done|intros _; split_and!].
    + split; [done|]. intros [Hpos Hne]. destruct Hp; [lia|done].
    + intros j Hj. destruct (decide (j <= snapshot_index l)%N); [by rewrite !At_below|].
      rewrite !At_at_pos by (done || cbn; lia). cbn. apply H2. lia.
    + intros k e Hk Hs. rewrite !At_at_pos by (done || cbn; lia). by apply H3.
    + intros j e He. destruct (decide (j <= snapshot_index l)%N); [by rewrite At_below in He|].
      rewrite At_at_pos in He by (done || lia). rewrite At_at_pos by (done || cbn; lia).
      destruct (H4 j e ltac:(lia) He) as [?|(k & x & y & ? & ? & ? & ? & ?)]; [by left|right].
      exists k, x, y. by rewrite At_at_pos by (done || lia).
  - pose proof (AppendEntriesFrom_rejected prev t new l) as Hr. rewrite E in Hr.
    destruct (Hr eq_refl) as (? & ? & [= -> ->]). done.
Qed.

Definition demo_log : RaftLog :=
  {| snapshot_index := 2; snapshot_term := 1;
     entries := [{| index := 3; term := 1; command := str "a" |}; {| index := 4; term := 2; command := str "b" |}];
     applied_index := 2 |}.

Lemma demo_log_ok : log_ok demo_log.
Proof. split; [|done]. intros [|[|i]] e H; cbn in H; try done; by injection H as <-. Qed.

Definition demo_new : list LogEntry :=
  [{| index := 4; term := 3; command := str "c" |}; {| index := 5; term := 3; command := str "d" |}].

Lemma AppendEntriesFrom_spec_witness :
  let '(accepted, saved, l') := AppendEntriesFrom 3 1 demo_new demo_log in
  log_ok l' /\ (saved = false -> l' = demo_log) /\
  (accepted = false <-> (0 < 3)%N /\ TermAt 3 demo_log <> 1%N) /\ (accepted = false -> l' = demo_log) /\
  (accepted = true ->
    (forall j, (j <= 3)%N -> At j l' = At j demo_log) /\
    (forall k e, demo_new !! k = Some e -> (snapshot_index demo_log < 3 + 1 + N.of_nat k)%N ->
      exists e', At (3 + 1 + N.of_nat k) l' = Some e' /\ term e' = term e /\
        (At (3 + 1 + N.of_nat k) demo_log = Some e' \/ command e' = command e)) /\
    (forall j e, At j demo_log = Some e ->
      At j l' = Some e \/
      exists k x y, (3 + 1 + N.of_nat k <= j)%N /\ demo_new !! k = Some x /\
        At (3 + 1 + N.of_nat k) demo_log = Some y /\ term x <> term y)).
Proof.
  apply (AppendEntriesFrom_spec 3 1 demo_new demo_log);
    [apply demo_log_ok|by right|by vm_compute].
Defined.

(** C36: the log survives crashes. A process killed anywhere while [Save] rewrites the file
    leaves a file from which [Load] returns either the old log or the new one, completely,
    snapshot boundary, entries and applied index included; after [Save] it is the new one. *)
Theorem log_save_atomic path l l' d d' :
  log_fits l -> log_fits l' -> d !! path = Some (log_file l) ->
  crash_states d (Save path l') d' ->
  (Load path d' = l \/ Load path d' = l') /\ Load path (foldl fs_apply d (Save path l')) = l'.
Proof.
  intros Hf Hf' Hd Hc. split.
  - apply replace_file_crash in Hc as [Hc|Hc]; [left|right]; apply log_file_loads; congruence.
  - apply log_file_loads; [done|]. unfold Save. rewrite replace_file_run. apply lookup_insert_eq.
Qed.

Lemma log_save_atomic_witness :
  let d := {[ str "raft.log" := log_file empty_log ]} in
  (Load (str "raft.log") d = empty_log \/ Load (str "raft.log") d = demo_log) /\
  Load (str "raft.log") (foldl fs_apply d (Save (str "raft.log") demo_log)) = demo_log.
Proof.
  apply (log_save_atomic (str "raft.log") empty_log demo_log {[ str "raft.log" := log_file empty_log ]}
           {[ str "raft.log" := log_file empty_log ]}).
  - repeat constructor.
  - repeat constructor.
  - reflexivity.
  - apply crash_before.
Defined.

(** Compaction moves the boundary and nothing else: a boundary the log already passed is
    ignored; otherwise the boundary becomes the given index and term, entries after it are
    kept when the log agrees with the snapshot at that index and all discarded when it does
    not. *)
Theorem CompactTo_keeps_suffix i t l :
  log_ok l -> (i < two64)%N ->
  let '(saved, l') := CompactTo i t l in
  log_ok l' /\ applied_index l' = applied_index l /\
  (if decide (i <= snapshot_index l)%N then saved = false /\ l' = l
   else snapshot_index l' = i /\ snapshot_term l' = t /\ TermAt i l' = t /\
     forall j, (i < j)%N ->
       At j l' = if decide (i <= LastIndex l /\ TermAt i l = t)%N then At j l else None).
Proof. apply CompactTo_spec. Qed.

Lemma CompactTo_keeps_suffix_witness :
  let '(saved, l') := CompactTo 3 1 demo_log in
  log_ok l' /\ applied_index l' = applied_index demo_log /\
  (if decide (3 <= snapshot_index demo_log)%N then saved = false /\ l' = demo_log
   else snapshot_index l' = 3%N /\ snapshot_term l' = 1%N /\ TermAt 3 l' = 1%N /\
     forall j, (3 < j)%N ->
       At j l' = if decide (3 <= LastIndex demo_log /\ TermAt 3 demo_log = 1)%N then At j demo_log else None).
Proof. apply (CompactTo_keeps_suffix 3 1 demo_log); [apply demo_log_ok|reflexivity]. Defined.
