(* ===== verification/LogView.v ===== *)
(** * A log in memory as the part of a full log that is not compacted away

    The protocol of [RaftSpec] has full logs; a node keeps the entries after its snapshot.  The
    operations of [src/raft/log.cpp] are read as operations on the full log. *)

From Stdlib Require Import NArith Lia.
From S2P Require Export RaftSpec RaftLog.

Implicit Types (l : RaftLog) (f g L C : full_log).

(** The term of the entry with index [i]; index 0 is before the first entry. *)
Definition term_at f (i : N) : N :=
  if decide (i = 0)%N then 0 else match f !! N.to_nat (i - 1) with Some e => term e | None => 0 end.

(** The log keeps the entries of [f] after its snapshot. *)
Record compacted l f : Prop := {
  co_within : (snapshot_index l <= N.of_nat (length f))%N;
  co_term : snapshot_term l = term_at f (snapshot_index l);
  co_entries : entries l = drop (N.to_nat (snapshot_index l)) f;
  co_index : consecutive 0 f;
  co_bound : (N.of_nat (length f) < two64)%N;
}.

(** Logs that do not disagree about the term of an index agree up to it. *)
Definition agree f L : Prop :=
  forall i e e', f !! i = Some e -> L !! i = Some e' -> term e = term e' -> take (S i) f = take (S i) L.

Lemma term_at_take f C i : C `prefix_of` f -> (i <= N.of_nat (length C))%N -> term_at C i = term_at f i.
Proof.
  intros Hp Hi. unfold term_at. case_decide as H0; [done|]. by rewrite (prefix_lookup_lt C f (N.to_nat (i - 1)) ltac:(lia) Hp).
Qed.

Lemma last_term_at f : last_term f = term_at f (N.of_nat (length f)).
Proof.
  unfold last_term, term_at. rewrite last_lookup. destruct f as [|e f]; [done|].
  rewrite decide_False by (cbn; lia).
  by replace (N.to_nat (N.of_nat (length (e :: f)) - 1)) with (pred (length (e :: f))) by lia.
Qed.

Section view.
Context l f (Hc : compacted l f).

Lemma compacted_ok : log_ok l.
Proof.
  destruct Hc as [Hw _ He Hi Hb]. apply consecutive_log. rewrite He, length_drop. split; [|lia].
  intros k e Hk. rewrite lookup_drop in Hk. rewrite (Hi _ _ Hk). lia.
Qed.

Lemma view_LastIndex : LastIndex l = N.of_nat (length f).
Proof.
  rewrite LastIndex_ok by apply compacted_ok. unfold last_index. destruct Hc as [Hw _ He _ _].
  rewrite He, length_drop. lia.
Qed.

Lemma view_At i : (snapshot_index l < i)%N -> At i l = f !! N.to_nat (i - 1).
Proof.
  intros Hi. rewrite At_lookup by (done || apply compacted_ok). rewrite (co_entries l f Hc), lookup_drop. f_equal. lia.
Qed.

Lemma view_TermAt i : (snapshot_index l <= i)%N -> TermAt i l = term_at f i.
Proof.
  intros Hi. destruct (decide (i = snapshot_index l)) as [->|Hne].
  { unfold TermAt. rewrite N.eqb_refl. apply Hc. }
  destruct (decide (i <= LastIndex l)%N) as [Hle|Hgt].
  - destruct (TermAt_in_range l i) as (e & He & ->); [apply compacted_ok|lia|].
    rewrite view_At in He by lia. unfold term_at. rewrite decide_False by lia. by rewrite He.
  - rewrite TermAt_past by (lia || apply compacted_ok). rewrite view_LastIndex in Hgt. unfold term_at.
    case_decide; [done|]. by rewrite lookup_ge_None_2 by lia.
Qed.

Lemma view_LastTerm : LastTerm l = last_term f.
Proof.
  unfold LastTerm. pose proof view_LastIndex as Hi. destruct Hc as [Hw Ht He _ _].
  destruct (last (entries l)) as [e|] eqn:El.
  - unfold last_term. rewrite <- (take_drop (N.to_nat (snapshot_index l)) f), <- He, last_app, El. done.
  - unfold LastIndex in Hi. rewrite El in Hi. rewrite Ht, last_term_at. by rewrite <- Hi.
Qed.
End view.

Lemma compacted_applied l f i : compacted l f -> compacted (SetAppliedIndex i l) f.
Proof. by intros []. Qed.

Lemma compacted_empty i : compacted {| snapshot_index := 0; snapshot_term := 0; entries := []; applied_index := i |} [].
Proof. by split. Qed.

Lemma view_Append t cmd l f : compacted l f -> (LastIndex l + 1 < two64)%N ->
  compacted (Append t cmd l).2 (f ++ [{| index := N.of_nat (length f) + 1; term := t; command := cmd |}]).
Proof.
  intros Hc Hb. pose proof (view_LastIndex l f Hc) as Hl. rewrite Hl in Hb. destruct Hc as [Hw Ht He Hi Hb'].
  unfold Append. rewrite Hl. assert (Hu : u64_add (N.of_nat (length f)) 1 = (N.of_nat (length f) + 1)%N)
    by (unfold u64_add, u64; by apply N.mod_small). rewrite Hu. cbn [snd index].
  split; cbn [with_entries snapshot_index snapshot_term entries].
  - rewrite length_app. cbn. lia.
  - rewrite Ht. apply term_at_take; [by apply prefix_app_r|done].
  - by rewrite He, drop_app_le by lia.
  - intros k e. rewrite lookup_snoc_Some. intros [[_ Hk]|[-> <-]]; [by apply Hi|]. cbn. lia.
  - rewrite length_app. cbn. lia.
Qed.

(** Compacting at an index whose term is the given one drops nothing of the full log. *)
Lemma view_CompactTo l f i : compacted l f -> (i <= N.of_nat (length f))%N -> compacted (CompactTo i (term_at f i) l).2 f.
Proof.
  intros Hc Hi. unfold CompactTo. destruct (N.leb_spec i (snapshot_index l)); [done|].
  rewrite (view_LastIndex l f Hc), (view_TermAt l f Hc) by lia. rewrite (proj2 (N.leb_le _ _) Hi), N.eqb_refl. cbn [andb snd].
  destruct Hc as [Hw Ht He Hx Hb]. split; cbn [snapshot_index snapshot_term entries]; try done.
  rewrite He, drop_drop. f_equal. lia.
Qed.

(** Installing a snapshot that ends the log [C] is adopting [C]. *)
Lemma view_install l f C :
  compacted l f -> consecutive 0 C -> (snapshot_index l < N.of_nat (length C) < two64)%N -> agree f C ->
  compacted (CompactTo (N.of_nat (length C)) (last_term C) l).2 (adopt C f).
Proof.
  intros Hc HC Hlen Ha. assert (Hl : last_term C = term_at C (N.of_nat (length C))) by apply last_term_at.
  unfold adopt. case_decide as Hp.
  - rewrite Hl, (term_at_take f C) by done. apply view_CompactTo; [done|]. apply prefix_length in Hp. lia.
  - unfold CompactTo. destruct (N.leb_spec (N.of_nat (length C)) (snapshot_index l)); [lia|].
    rewrite (view_LastIndex l f Hc), (view_TermAt l f Hc) by lia.
    destruct (N.leb_spec (N.of_nat (length C)) (N.of_nat (length f))) as [Hle|Hgt]; cbn [andb].
    + destruct (N.eqb_spec (term_at f (N.of_nat (length C))) (last_term C)) as [Et|Et].
      * destruct Hp. rewrite Hl in Et. unfold term_at in Et. rewrite !decide_False in Et by lia.
        destruct (lookup_lt_is_Some_2 f (N.to_nat (N.of_nat (length C) - 1))) as [e He]; [lia|].
        destruct (lookup_lt_is_Some_2 C (N.to_nat (N.of_nat (length C) - 1))) as [e' He']; [lia|].
        rewrite He, He' in Et. pose proof (Ha _ _ _ He He' Et) as E. rewrite (take_ge C) in E by lia. rewrite <- E. apply prefix_take.
      * split; cbn [snd snapshot_index snapshot_term entries]; try done; [|lia]. by rewrite drop_ge by lia.
    + split; cbn [snd snapshot_index snapshot_term entries]; try done; [|lia]. by rewrite drop_ge by lia.
Qed.

(** ** Appending a leader's entries *)

(** The log [g] of the loop, when the first [n] entries of the leader's log are in place. *)
Definition in_place f L n g : Prop :=
  take n L `prefix_of` g /\ (g = f \/ g = take n L /\ ~ take n L `prefix_of` f).

Lemma in_place_adopt f L n g : in_place f L n g -> g = adopt (take n L) f.
Proof. intros [Hp [->|[-> Hn]]]; unfold adopt; [by rewrite decide_True|by rewrite decide_False]. Qed.

Lemma take_extends (L g : full_log) n e : L !! n = Some e -> take n L `prefix_of` g -> g !! n = Some e -> take (S n) L `prefix_of` g.
Proof.
  intros HL Hp Hg. rewrite (take_S_r L n e HL), <- (take_drop n g). rewrite (prefix_is_take _ _ Hp) at 1.
  rewrite length_take_le by (apply lookup_lt_Some in HL; lia). apply prefix_app.
  rewrite (drop_S _ _ _ Hg). apply (prefix_app_r [e] [e]). done.
Qed.

Lemma in_place_kept f L n g e : agree f L -> in_place f L n g -> L !! n = Some e ->
  (exists x, g !! n = Some x /\ term x = term e) -> in_place f L (S n) g.
Proof.
  intros Ha [Hp Hg] HL (x & Hx & Et). destruct Hg as [->|[-> _]].
  - split; [|by left]. rewrite <- (Ha n x e Hx HL Et). apply prefix_take.
  - apply lookup_take_Some in Hx as [_ ?]. lia.
Qed.

Lemma in_place_new f L n g e : in_place f L n g -> L !! n = Some e ->
  (forall x, g !! n = Some x -> term x <> term e) -> in_place f L (S n) (take n g ++ [e]).
Proof.
  intros [Hp Hg] HL Hx. assert (Hn : (n < length L)%nat) by by apply lookup_lt_Some in HL.
  assert (E : take n g ++ [e] = take (S n) L).
  { rewrite (take_S_r L n e HL). f_equal. rewrite (prefix_is_take _ _ Hp), length_take_le by lia. done. }
  split; [by rewrite E|right]. split; [done|]. intros Hf.
  assert (He : f !! n = Some e).
  { eapply prefix_lookup_Some; [|exact Hf]. rewrite lookup_take. by rewrite decide_True by lia. }
  destruct Hg as [->|[-> Hnf]]; [by apply (Hx e)|]. apply Hnf. etrans; [|exact Hf]. apply take_prefix_mono. lia.
Qed.

Lemma in_place_below f L n g s : (S n <= s <= length f)%nat -> (s <= length g)%nat -> (n < length L)%nat -> take s f `prefix_of` L ->
  in_place f L n g -> in_place f L (S n) g.
Proof.
  intros Hn Hs HL Hsn [Hp [->|[-> _]]].
  - split; [|by left]. rewrite <- (prefix_take_same (take s f) L (S n)) by (rewrite ?length_take; done || lia).
    rewrite take_take. apply prefix_take.
  - rewrite length_take in Hs. lia.
Qed.

(** One entry of the request, at position [n] of the leader's log. *)
Definition place (s : N) (n : nat) e (es : list LogEntry) : list LogEntry :=
  if decide (N.of_nat (S n) <= s)%N then es
  else
    match es !! (n - N.to_nat s)%nat with
    | Some x => if decide (term x = term e) then es else take (n - N.to_nat s) es ++ [e]
    | None => es ++ [e]
    end.

Lemma place_full s f L n e g :
  (s <= N.of_nat (length f))%N -> (s <= N.of_nat (length g))%N -> take (N.to_nat s) f `prefix_of` L -> agree f L -> L !! n = Some e ->
  in_place f L n g ->
  exists g', place s n e (drop (N.to_nat s) g) = drop (N.to_nat s) g' /\ (s <= N.of_nat (length g'))%N /\ in_place f L (S n) g'.
Proof.
  intros Hsf Hs Hsn Ha He Hg. assert (Hn := lookup_lt_Some _ _ _ He). unfold place. case_decide as Hle.
  { exists g. split_and!; [done|done|]. eapply (in_place_below _ _ _ _ (N.to_nat s)); (done || lia). }
  assert (Hlen : (n <= length g)%nat) by (destruct Hg as [Hp _]; apply prefix_length in Hp; rewrite length_take in Hp; lia).
  assert (Hnew : forall es, es = take (n - N.to_nat s) (drop (N.to_nat s) g) ++ [e] -> (forall x, g !! n = Some x -> term x <> term e) ->
    exists g', es = drop (N.to_nat s) g' /\ (s <= N.of_nat (length g'))%N /\ in_place f L (S n) g').
  { intros es -> Hx. exists (take n g ++ [e]). split_and!; [|rewrite length_app, length_take; cbn; lia|by apply in_place_new].
    rewrite drop_app_le by (rewrite length_take; lia). f_equal. rewrite take_drop_commute. do 2 f_equal. lia. }
  rewrite lookup_drop. replace (N.to_nat s + (n - N.to_nat s))%nat with n by lia. destruct (g !! n) as [x|] eqn:Ex.
  - case_decide as Et; [|by apply Hnew; [done|intros ? [= <-]]].
    exists g. split_and!; [done|done|]. apply (in_place_kept _ _ _ _ e); eauto.
  - apply Hnew; [|done]. rewrite take_ge; [done|]. rewrite length_drop. apply lookup_ge_None_1 in Ex. lia.
Qed.

Lemma append_loop_place s prev i e new es changed :
  (N.of_nat (N.to_nat prev + i) + 1 < two64)%N -> index e = N.of_nat (S (N.to_nat prev + i)) ->
  exists changed', append_loop s prev i (e :: new) es changed = append_loop s prev (S i) new (place s (N.to_nat prev + i) e es) changed'.
Proof.
  intros Hb Hi. assert (Hidx : u64_add (u64_add prev 1) (N.of_nat i) = N.of_nat (S (N.to_nat prev + i))).
  { unfold u64_add, u64. rewrite !N.mod_small by (rewrite ?N.mod_small; lia). lia. }
  assert (Hset : set_index (index e) e = e) by by destruct e.
  cbn [append_loop]. rewrite Hidx, <- Hi, Hset, Hi. unfold place.
  replace (N.to_nat (N.of_nat (S (N.to_nat prev + i)) - s - 1)) with (N.to_nat prev + i - N.to_nat s)%nat by lia.
  destruct (N.leb_spec (N.of_nat (S (N.to_nat prev + i))) s); [rewrite decide_True by lia; eauto|rewrite decide_False by lia].
  destruct (es !! _) as [x|]; [|eauto]. destruct (N.eqb_spec (term x) (term e)); case_decide; try done; eauto.
Qed.

Lemma append_loop_full s prev f L i new changed g :
  (s <= N.of_nat (length f))%N -> (s <= N.of_nat (length g))%N -> take (N.to_nat s) f `prefix_of` L -> agree f L ->
  consecutive 0 L -> (N.of_nat (length L) < two64)%N ->
  (forall k e, new !! k = Some e -> L !! (N.to_nat prev + i + k)%nat = Some e) -> in_place f L (N.to_nat prev + i) g ->
  exists g', (append_loop s prev i new (drop (N.to_nat s) g) changed).1 = drop (N.to_nat s) g' /\
    (s <= N.of_nat (length g'))%N /\ in_place f L (N.to_nat prev + i + length new) g'.
Proof.
  intros Hsf Hs Hsn Ha HL Hb. revert i changed g Hs. induction new as [|e new IH]; intros i changed g Hs Hnew Hg.
  { exists g. cbn. rewrite Nat.add_0_r. by split_and!. }
  assert (He : L !! (N.to_nat prev + i)%nat = Some e) by (rewrite <- (Nat.add_0_r (_ + i)); by apply Hnew).
  assert (Hn := lookup_lt_Some _ _ _ He).
  destruct (append_loop_place s prev i e new (drop (N.to_nat s) g) changed) as [ch ->]; [lia|rewrite (HL _ _ He); lia|].
  destruct (place_full s f L _ e g Hsf Hs Hsn Ha He Hg) as (g1 & -> & Hs1 & Hg1). rewrite <- Nat.add_succ_r in Hg1.
  destruct (IH (S i) ch g1 Hs1) as (g' & E & Hs' & Hg'); [|done|].
  - intros k x Hk. replace (N.to_nat prev + S i + k)%nat with (N.to_nat prev + i + S k)%nat by lia. by apply Hnew.
  - exists g'. split_and!; [done|done|]. cbn [length]. by replace (N.to_nat prev + i + S (length new))%nat with (N.to_nat prev + S i + length new)%nat by lia.
Qed.

(** A follower that accepts a leader's entries adopts the leader's log up to them. *)
Lemma view_AppendEntriesFrom l f L prev new :
  compacted l f -> take (N.to_nat (snapshot_index l)) f `prefix_of` L -> agree f L -> consecutive 0 L -> Forall (fun e => term e <> 0%N) L ->
  (N.of_nat (length L) < two64)%N -> (N.to_nat prev + length new <= length L)%nat ->
  new = take (length new) (drop (N.to_nat prev) L) ->
  let '(ok, _, l') := AppendEntriesFrom prev (term_at L prev) new l in
  snapshot_index l' = snapshot_index l /\ applied_index l' = applied_index l /\
  if ok : bool then compacted l' (adopt (take (N.to_nat prev + length new) L) f) else l' = l.
Proof.
  intros Hc Hsn Ha HL Hnz Hb Hlen Hnew. unfold AppendEntriesFrom. destruct ((0 <? prev)%N && _) eqn:E; [done|].
  assert (Hp : take (N.to_nat prev) L `prefix_of` f).
  { destruct (decide (prev = 0)%N) as [->|Hne]; [apply prefix_nil|].
    apply andb_false_iff in E as [E|E]; [apply N.ltb_ge in E; lia|]. apply negb_false_iff, N.eqb_eq in E.
    destruct (lookup_lt_is_Some_2 L (N.to_nat (prev - 1))) as [e' He']; [lia|].
    assert (Et : term_at L prev = term e') by (unfold term_at; rewrite decide_False by done; by rewrite He').
    assert (He0 : term e' <> 0%N) by (rewrite Forall_lookup in Hnz; by eapply Hnz).
    destruct (decide (snapshot_index l <= prev)%N) as [Hle|Hlt].
    - rewrite (view_TermAt l f Hc prev Hle) in E. unfold term_at in E at 1. rewrite decide_False in E by done.
      destruct (f !! N.to_nat (prev - 1)) as [e|] eqn:He; [|congruence].
      pose proof (Ha _ _ _ He He' ltac:(congruence)) as Ht. replace (S (N.to_nat (prev - 1))) with (N.to_nat prev) in Ht by lia.
      rewrite <- Ht. apply prefix_take.
    - rewrite TermAt_before in E by lia. congruence. }
  destruct (append_loop_full (snapshot_index l) prev f L 0 new false f) as (g & Eg & Hs' & Hg); try done.
  - apply Hc.
  - apply Hc.
  - intros k e Hk. rewrite Hnew in Hk. apply lookup_take_Some in Hk as [Hk _]. rewrite lookup_drop in Hk. by rewrite Nat.add_0_r.
  - rewrite Nat.add_0_r. split; [done|by left].
  - rewrite <- (co_entries l f Hc) in Eg. rewrite Nat.add_0_r in Hg. destruct (append_loop _ _ _ _ _ _) as [es ch]. cbn [fst] in Eg. subst es.
    rewrite <- (in_place_adopt _ _ _ _ Hg). split; [done|split; [done|]]. destruct Hc as [Hw Ht He Hi Hb2], Hg as [Hg1 Hg2].
    assert (Hgf : g = f \/ g `prefix_of` L) by (destruct Hg2 as [->|[-> _]]; [by left|right; apply prefix_take]).
    split; cbn [with_entries snapshot_index snapshot_term entries]; [done| |done| |].
    + rewrite Ht. destruct Hgf as [->|Hgf]; [done|]. pose proof (prefix_take f (N.to_nat (snapshot_index l))) as Hf.
      rewrite <- (term_at_take f _ _ Hf), (term_at_take L _ _ Hsn), (term_at_take L g) by (rewrite ?length_take; done || lia). done.
    + destruct Hgf as [->|[r ->]]; [done|]. intros k x Hk. apply HL. by apply lookup_app_l_Some.
    + destruct Hgf as [->|Hgf%prefix_length]; [done|lia].
Qed.
