(* ===== verification/PeerSpec.v ===== *)
(** * Text formats: lines, tokens, numbers and peer lists

    The formatted input the configuration and state files are read with ([std::getline],
    [operator>>]) and the "id=host:port,..." lists of [src/raft/membership_state.cpp],
    [src/shard/routing.cpp] and [src/raft_main.cpp]. *)

From Stdlib Require Import NArith ZArith Lia.
From S2P Require Export RaftTypes.

Definition newline : ascii := "010"%char.
Definition comma : ascii := ","%char.
Definition equals : ascii := "="%char.
Definition colon : ascii := ":"%char.

(** ** Splitting *)

(** The text before the first [c] and the text after it. *)
Fixpoint break_at (c : ascii) (s : bytes) : option (bytes * bytes) :=
  match s with
  | [] => None
  | a :: s' =>
    if Ascii.eqb a c then Some ([], s')
    else match break_at c s' with Some (l, r) => Some (a :: l, r) | None => None end
  end.

(** What a loop of [std::getline(stream, piece, c)] extracts. *)
Fixpoint pieces_aux (fuel : nat) (c : ascii) (s : bytes) : list bytes :=
  match fuel, s with
  | O, _ | _, [] => []
  | S f, _ => match break_at c s with Some (l, r) => l :: pieces_aux f c r | None => [s] end
  end.
Definition pieces (c : ascii) (s : bytes) : list bytes := pieces_aux (length s) c s.

(** One [std::getline]: the line and the unread text. *)
Definition getline (s : bytes) : bytes * bytes :=
  match break_at newline s with Some p => p | None => (s, []) end.

(** ** Numbers from a stream; [None] is a stream that has failed *)

(** [stream >> v] leaves [v] as it was when there is nothing left to read but white space, and stores
    zero, or the limit of the type, when what is there does not read as a number. *)
Definition get_u64 (old : N) (s : option bytes) : N * option bytes :=
  match s with
  | None => (old, None)
  | Some s =>
    let s0 := skip_spaces s in
    let '(neg, s1) := read_sign s0 in
    if starts_digit s1 then
      let '(v, rest) := digits_val 0 s1 in
      if (two64 <=? v)%N then ((two64 - 1)%N, None) else (if neg then u64_sub 0 v else v, Some rest)
    else (if decide (s0 = []) then old else 0%N, None)
  end.

Definition get_i64 (old : Z) (s : option bytes) : Z * option bytes :=
  match s with
  | None => (old, None)
  | Some s =>
    let s0 := skip_spaces s in
    let '(neg, s1) := read_sign s0 in
    if starts_digit s1 then
      let '(v, rest) := digits_val 0 s1 in
      let z := if neg then (- Z.of_N v)%Z else Z.of_N v in
      if (z <? - 2 ^ 63)%Z then ((- 2 ^ 63)%Z, None)
      else if (2 ^ 63 <=? z)%Z then ((2 ^ 63 - 1)%Z, None) else (z, Some rest)
    else (if decide (s0 = []) then old else 0%Z, None)
  end.

(** ** Peer lists *)

Definition ParsePeer (entry : bytes) : outcome (NodeId * PeerAddress) :=
  match break_at equals entry with
  | Some (ids, rest) =>
    match break_at colon rest with
    | Some (h, ports) =>
      id ← stoul ids;
      p ← stoul ports;
      Ret (u32 id, {| host := h; port := u16 p |})
    | None => throw_rt (str "bad peer spec: " ++ entry)
    end
  | None => throw_rt (str "bad peer spec: " ++ entry)
  end.

Fixpoint parse_peers (es : list bytes) (peers : peer_map) : outcome peer_map :=
  match es with
  | [] => Ret peers
  | e :: es' =>
    if decide (e = []) then parse_peers es' peers
    else p ← ParsePeer e; parse_peers es' (<[p.1 := p.2]> peers)
  end.

Definition ParsePeerSpec (spec : bytes) : outcome peer_map := parse_peers (pieces comma spec) ∅.

Definition peer_text (p : NodeId * PeerAddress) : bytes :=
  to_string p.1 ++ str "=" ++ host p.2 ++ str ":" ++ to_string (port p.2).

(** [out += ','] before every peer but the first. *)
Fixpoint FormatPeers (l : list (NodeId * PeerAddress)) : bytes :=
  match l with
  | [] => []
  | [p] => peer_text p
  | p :: l' => peer_text p ++ [comma] ++ FormatPeers l'
  end.

Definition FormatPeerSpec (peers : peer_map) : bytes := FormatPeers (map_entries peers).

(** ** Facts *)

Lemma break_at_app c l r : c ∉ l -> break_at c (l ++ c :: r) = Some (l, r).
Proof.
  induction l as [|a l IH]; cbn; intros Hc; [by rewrite Ascii.eqb_refl|].
  apply not_elem_of_cons in Hc as [Hne Hc].
  destruct (Ascii.eqb_spec a c) as [->|]; [done|]. by rewrite IH.
Qed.

Lemma break_at_None c s : c ∉ s -> break_at c s = None.
Proof.
  induction s as [|a s IH]; cbn; intros Hc; [done|]. apply not_elem_of_cons in Hc as [Hne Hc].
  destruct (Ascii.eqb_spec a c) as [->|]; [done|]. by rewrite IH.
Qed.

Lemma break_at_shorter c s l r : break_at c s = Some (l, r) -> (length r < length s)%nat.
Proof.
  revert l r. induction s as [|a s IH]; intros l r H; [done|]. cbn in *.
  destruct (Ascii.eqb a c); [injection H as _ ->; lia|].
  destruct (break_at c s) as [[l' r']|]; [|done]. injection H as _ ->. specialize (IH _ _ eq_refl). lia.
Qed.

Lemma pieces_fuel c f s : (length s <= f)%nat -> pieces_aux f c s = pieces c s.
Proof.
  unfold pieces. remember (length s) as n eqn:Hn. assert (Hle : (length s <= n)%nat) by lia. clear Hn.
  revert f s Hle. induction n as [|n IH]; intros f s Hle Hf.
  - destruct s; [|cbn in Hle; lia]. by destruct f.
  - destruct f as [|f]; [lia|]. destruct s as [|a s]; [done|].
    cbn [pieces_aux]. destruct (break_at c (a :: s)) as [[l r]|] eqn:E; [|done].
    apply break_at_shorter in E. cbn [length] in *. f_equal. apply IH; lia.
Qed.

Lemma pieces_step c l r : c ∉ l -> pieces c (l ++ c :: r) = l :: pieces c r.
Proof.
  intros Hc. unfold pieces at 1. rewrite length_app. cbn [length].
  replace (length l + S (length r))%nat with (S (length l + length r)) by lia.
  destruct (l ++ c :: r) as [|a s] eqn:E; [by destruct l|]. cbn [pieces_aux]. rewrite <- E, break_at_app by done.
  f_equal. apply pieces_fuel. lia.
Qed.

Lemma pieces_last c s : c ∉ s -> s <> [] -> pieces c s = [s].
Proof.
  intros Hc Hs. unfold pieces. destruct s as [|a s]; [done|]. cbn [length pieces_aux].
  by rewrite break_at_None.
Qed.

Definition host_ok (h : bytes) : Prop := (colon ∉ h) /\ (comma ∉ h) /\ (newline ∉ h).
Definition spec_ok (p : NodeId * PeerAddress) : Prop :=
  (p.1 < two32)%N /\ (port p.2 < two16)%N /\ host_ok (host p.2).

Lemma not_in_to_string c n : isdigit c = false -> c ∉ to_string n.
Proof.
  intros Hc Hin. destruct (to_string_digits n) as [Hd _]. unfold all_digits in Hd.
  rewrite Forall_forall in Hd. specialize (Hd c Hin). congruence.
Qed.

Lemma peer_text_chars c p :
  isdigit c = false -> c <> equals -> c <> colon -> c ∉ host p.2 -> c ∉ peer_text p.
Proof.
  intros Hd He Hc Hh. unfold peer_text. rewrite !not_elem_of_app.
  split_and!; [by apply not_in_to_string| |done| |by apply not_in_to_string].
  - change (str "=") with [equals]. by rewrite list_elem_of_singleton.
  - change (str ":") with [colon]. by rewrite list_elem_of_singleton.
Qed.

Lemma ParsePeer_text p : spec_ok p -> ParsePeer (peer_text p) = Ret p.
Proof.
  destruct p as [id [h po]]. intros (Hid & Hp & Hcol & _). cbn in *. unfold ParsePeer, peer_text. cbn [fst snd host port].
  change (str "=" ++ ?r) with (equals :: r). rewrite break_at_app by by apply not_in_to_string.
  change (str ":" ++ ?r) with (colon :: r). rewrite break_at_app by done.
  unfold stoul. rewrite <- (app_nil_r (to_string id)), <- (app_nil_r (to_string po)).
  rewrite !stou_to_string; try done; try (unfold two16, two32, two64 in *; lia). cbn [mbind outcome_bind].
  unfold u32, u16. by rewrite !N.mod_small.
Qed.

Lemma peer_text_nonempty p : peer_text p <> [].
Proof. unfold peer_text. destruct (to_string_digits p.1) as [_ H]. intros E. by apply app_eq_nil in E as [E _]. Qed.

Lemma parse_FormatPeers l peers :
  Forall spec_ok l ->
  parse_peers (pieces comma (FormatPeers l)) peers = Ret (foldl (fun m p => <[p.1 := p.2]> m) peers l).
Proof.
  intros Hl. revert peers. induction Hl as [|p l Hp Hl IH]; intros peers; [done|].
  assert (Hc : comma ∉ peer_text p).
  { destruct Hp as (_ & _ & _ & Hc & _). by apply peer_text_chars. }
  pose proof (peer_text_nonempty p) as Hne.
  destruct l as [|q l].
  - cbn [FormatPeers]. rewrite pieces_last by done. cbn [parse_peers].
    rewrite decide_False by done. by rewrite ParsePeer_text.
  - change (FormatPeers (p :: q :: l)) with (peer_text p ++ comma :: FormatPeers (q :: l)).
    rewrite pieces_step by done. cbn [parse_peers]. rewrite decide_False by done.
    rewrite ParsePeer_text by done. cbn [mbind outcome_bind]. apply IH.
Qed.

Lemma FormatPeers_chars c l :
  isdigit c = false -> c <> equals -> c <> colon -> c <> comma ->
  Forall (fun p : NodeId * PeerAddress => c ∉ host p.2) l -> c ∉ FormatPeers l.
Proof.
  intros H1 H2 H3 H4. induction 1 as [|p l Hp Hl IH]; [by intros ?%not_elem_of_nil|].
  destruct l as [|q l]; [by apply peer_text_chars|].
  change (FormatPeers (p :: q :: l)) with (peer_text p ++ [comma] ++ FormatPeers (q :: l)).
  rewrite !not_elem_of_app, list_elem_of_singleton. split_and!; [by apply peer_text_chars|done|done].
Qed.

Lemma peer_spec_parses peers :
  (forall id a, peers !! id = Some a -> spec_ok (id, a)) ->
  ParsePeerSpec (FormatPeerSpec peers) = Ret peers.
Proof.
  intros Hok. unfold ParsePeerSpec, FormatPeerSpec. rewrite parse_FormatPeers.
  - by rewrite insert_map_entries.
  - apply Forall_forall. intros [id a] Hin. apply elem_of_map_entries in Hin. by apply Hok.
Qed.

(** ** Property *)

(** A peer list survives its text form: [ParsePeerSpec] reads back exactly the map
    [FormatPeerSpec] wrote, for any number of peers, when the host names contain neither ':'
    nor ','. *)
Theorem peer_spec_round_trip peers :
  (forall id a, peers !! id = Some a -> spec_ok (id, a)) ->
  ParsePeerSpec (FormatPeerSpec peers) = Ret peers.
Proof. apply peer_spec_parses. Qed.

Definition demo_peers : peer_map :=
  {[ 1%N := {| host := str "127.0.0.1"; port := 7001 |}; 2%N := {| host := str "10.0.0.2"; port := 65535 |} ]}.

Lemma demo_peers_ok id a : demo_peers !! id = Some a -> spec_ok (id, a).
Proof.
  intros H. unfold demo_peers in H. apply lookup_insert_Some in H as [[<- <-]|[_ H]];
    [|apply lookup_singleton_Some in H as [<- <-]];
    (split_and!; [done|done|]; split_and!; by apply (bool_decide_unpack _)).
Qed.

Lemma peer_spec_round_trip_witness : ParsePeerSpec (FormatPeerSpec demo_peers) = Ret demo_peers.
Proof. apply peer_spec_round_trip. exact demo_peers_ok. Defined.
