(* ===== verification/HardState.v ===== *)
(** * Durable node state ([src/raft/persistent_state.*], [src/raft/membership_state.*])

    Two small text files, each rewritten through a temporary file: Raft's term and vote, and
    the cluster membership as of the snapshot boundary. *)

From Stdlib Require Import NArith ZArith Lia.
From S2P Require Export PeerSpec Fs.

(** ** Term and vote *)

Module PersistentState.

Record t := { current_term : Term; voted_for : option NodeId }.

Definition fresh : t := {| current_term := 0; voted_for := None |}.

(** [file << current_term_ << ' ' << (voted_for_ ? the id : -1)]. *)
Definition file_text (s : t) : bytes :=
to_string (current_term s) ++ str " " ++
match voted_for s with Some id => to_string id | None => str "-1" end.

Definition Set_ (path : bytes) (term : Term) (vote : option NodeId) : t * list fs_op :=
let s := {| current_term := term; voted_for := vote |} in
(s, replace_file path (file_text s)).

(** [static_cast<NodeId>] of a non-negative [int64_t]. *)
Definition Load (path : bytes) (d : files_t) : t :=
match d !! path with
| None => fresh
| Some text =>
  let '(term, s) := get_u64 0 (Some text) in
  let '(raw, _) := get_i64 (-1) s in
  {| current_term := term;
     voted_for := if (raw <? 0)%Z then None else Some (u32 (Z.to_N raw)) |}
end.

Definition ok (s : t) : Prop :=
(current_term s < two64)%N /\ match voted_for s with Some id => (id < two32)%N | None => True end.

Lemma to_string_head n rest :
exists c s, to_string n ++ rest = c :: s /\ isdigit c = true.
Proof.
destruct (to_string_digits n) as [Hd Hne]. destruct (to_string n) as [|c s]; [done|].
exists c, (s ++ rest). split; [done|]. by inversion Hd.
Qed.

(** A printed number is read back from a stream, leaving what follows. *)
Lemma get_digits n rest :
starts_digit rest = false ->
exists c s, to_string n ++ rest = c :: s /\ isspace c = false /\
  read_sign (c :: s) = (false, c :: s) /\ starts_digit (c :: s) = true /\
  digits_val 0 (c :: s) = (n, rest).
Proof.
intros Hr. destruct (to_string_head n rest) as (c & s & E & Hc). exists c, s.
destruct (digit_not_special c Hc) as (H1 & H2 & H3).
split_and!; [done|done| |done|].
- cbn. by rewrite H2, H3.
- rewrite <- E, digits_val_app by (done || apply to_string_digits). by rewrite digits_val_to_string.
Qed.

Lemma get_u64_to_string old n rest :
(n < two64)%N -> starts_digit rest = false ->
get_u64 old (Some (to_string n ++ rest)) = (n, Some rest).
Proof.
intros Hn Hr. destruct (get_digits n rest Hr) as (c & s & E & H1 & H2 & H3 & H4).
unfold get_u64. rewrite E. cbn [skip_spaces]. rewrite H1, H2, H3, H4.
destruct (N.leb_spec two64 n); [lia|done].
Qed.

Lemma get_i64_to_string old n rest :
(n < two32)%N -> starts_digit rest = false ->
get_i64 old (Some (" "%char :: to_string n ++ rest)) = (Z.of_N n, Some rest).
Proof.
intros Hn Hr. destruct (get_digits n rest Hr) as (c & s & E & H1 & H2 & H3 & H4).
unfold get_i64. rewrite E. change (skip_spaces (" "%char :: c :: s)) with (skip_spaces (c :: s)).
cbn [skip_spaces]. rewrite H1, H2, H3, H4. unfold two32 in Hn.
destruct (Z.ltb_spec (Z.of_N n) (- 2 ^ 63)); [lia|].
destruct (Z.leb_spec (2 ^ 63) (Z.of_N n)); [lia|done].
Qed.

Lemma vote_file_loads path s d : ok s -> d !! path = Some (file_text s) -> Load path d = s.
Proof.
intros [Ht Hv] Hf. unfold Load. rewrite Hf. unfold file_text.
rewrite get_u64_to_string by done. destruct s as [term [id|]]; cbn [voted_for current_term] in *.
- rewrite <- (app_nil_r (to_string id)).
  change (str " " ++ to_string id ++ []) with (" "%char :: to_string id ++ []).
  rewrite get_i64_to_string by done.
  destruct (Z.ltb_spec (Z.of_N id) 0); [lia|]. rewrite N2Z.id. unfold u32. by rewrite N.mod_small.
- done.
Qed.

End PersistentState.

(** ** Membership *)

Module MembershipState.

Record t := {
has_file : bool;
base_peers : peer_map;
self_is_member : bool;
own_address : PeerAddress;
}.

Definition fresh : t :=
{| has_file := false; base_peers := ∅; self_is_member := true; own_address := no_address |}.

Definition PathFor (state_dir : bytes) (id : NodeId) : bytes :=
state_dir ++ str "/raft_membership_" ++ to_string id ++ str ".txt".

Definition file_text (s : t) : bytes :=
str (if self_is_member s then "1" else "0") ++ [newline] ++
FormatPeerSpec (base_peers s) ++ [newline] ++
host (own_address s) ++ str ":" ++ to_string (port (own_address s)) ++ [newline].

Definition Set_ (path : bytes) (peers : peer_map) (member : bool) (own : PeerAddress) : t * list fs_op :=
let s := {| has_file := true; base_peers := peers; self_is_member := member; own_address := own |} in
(s, replace_file path (file_text s)).

(** [file >> self_flag] ([int], 32 bits: an overflow leaves a non-zero value either way), then
  [ignore()], two lines. A stream that has failed yields empty lines. *)
Definition Load (path : bytes) (d : files_t) : outcome t :=
match d !! path with
| None => Ret fresh
| Some text =>
  let '(flag, s) := get_i64 1 (Some text) in
  let '(spec, s) := match s with Some s => getline (tail s) | None => ([], []) end in
  peers ← ParsePeerSpec spec;
  let '(own_spec, _) := getline s in
  match break_at colon own_spec with
  | Some (h, p) =>
    n ← stoul p;
    Ret {| has_file := true; base_peers := peers; self_is_member := negb (flag =? 0)%Z;
           own_address := {| host := h; port := u16 n |} |}
  | None =>
    Ret {| has_file := true; base_peers := peers; self_is_member := negb (flag =? 0)%Z;
           own_address := no_address |}
  end
end.

Definition ok (s : t) : Prop :=
has_file s = true /\ (forall id a, base_peers s !! id = Some a -> spec_ok (id, a)) /\
host_ok (host (own_address s)) /\ (port (own_address s) < two16)%N.

Lemma getline_app l r : newline ∉ l -> getline (l ++ newline :: r) = (l, r).
Proof. intros H. unfold getline. by rewrite break_at_app. Qed.

Lemma members_file_loads path s d : ok s -> d !! path = Some (file_text s) -> Load path d = Ret s.
Proof.
intros (Hf & Hp & Ho & Hport) Hd. unfold Load. rewrite Hd.
assert (Hflag : exists v, get_i64 1 (Some (file_text s)) =
  (v, Some (newline :: FormatPeerSpec (base_peers s) ++ [newline] ++
     host (own_address s) ++ str ":" ++ to_string (port (own_address s)) ++ [newline])) /\
  negb (v =? 0)%Z = self_is_member s).
{ unfold file_text. destruct (self_is_member s); [exists 1%Z|exists 0%Z]; done. }
destruct Hflag as (v & -> & Hv). cbn [tail app].
rewrite getline_app.
- assert (Hpeers : ParsePeerSpec (FormatPeerSpec (base_peers s)) = Ret (base_peers s)).
  { unfold ParsePeerSpec, FormatPeerSpec. rewrite parse_FormatPeers.
    - by rewrite insert_map_entries.
    - apply Forall_forall. intros [id a] Hin. apply elem_of_map_entries in Hin. by apply Hp. }
  rewrite Hpeers. cbn [mbind outcome_bind].
  assert (E : host (own_address s) ++ str ":" ++ to_string (port (own_address s)) ++ [newline] =
    (host (own_address s) ++ colon :: to_string (port (own_address s))) ++ newline :: [])
    by (by rewrite <- app_assoc).
  rewrite E, getline_app.
  + rewrite break_at_app by apply Ho. unfold stoul. rewrite <- (app_nil_r (to_string _)), stou_to_string;
      [|unfold two16, two64 in *; lia|done].
    cbn [mbind outcome_bind]. rewrite Hv. unfold u16. rewrite N.mod_small by done.
    destruct s as [hf bp sm [h po]]. cbn in *. by subst.
  + rewrite not_elem_of_app, not_elem_of_cons. split_and!; [apply Ho|done|by apply not_in_to_string].
- apply FormatPeers_chars; try done. apply Forall_forall. intros [id a] Hin.
  apply elem_of_map_entries in Hin. apply (Hp _ _ Hin).
Qed.

End MembershipState.

(** ** Properties *)

(** A vote cannot be forgotten: when a node is killed at any point while it records a term
    and a vote, the next start reads either the previous pair or the new one -- never a
    half-written one, never a fresh state -- and after [Set] it reads the new one. *)
Theorem vote_is_durable path s term vote d d' :
  PersistentState.ok s -> d !! path = Some (PersistentState.file_text s) ->
  let '(s', ops) := PersistentState.Set_ path term vote in
  PersistentState.ok s' -> crash_states d ops d' ->
  (PersistentState.Load path d' = s \/ PersistentState.Load path d' = s') /\
  PersistentState.Load path (foldl fs_apply d ops) =
    {| PersistentState.current_term := term; PersistentState.voted_for := vote |}.
Proof.
  intros Hok Hd. unfold PersistentState.Set_. cbv beta iota zeta. intros Hok' Hc. split.
  - apply replace_file_crash in Hc as [Hc|Hc]; [left|right];
      apply PersistentState.vote_file_loads; congruence.
  - apply PersistentState.vote_file_loads; [done|]. rewrite replace_file_run. apply lookup_insert_eq.
Qed.

Lemma vote_is_durable_witness :
  let d := {[ str "state" := PersistentState.file_text PersistentState.fresh ]} in
  let '(s', ops) := PersistentState.Set_ (str "state") 5 (Some 2%N) in
  (PersistentState.Load (str "state") d = PersistentState.fresh \/ PersistentState.Load (str "state") d = s') /\
  PersistentState.Load (str "state") (foldl fs_apply d ops) =
    {| PersistentState.current_term := 5; PersistentState.voted_for := Some 2%N |}.
Proof.
  apply (vote_is_durable (str "state") PersistentState.fresh 5 (Some 2%N)
    {[ str "state" := PersistentState.file_text PersistentState.fresh ]}
    {[ str "state" := PersistentState.file_text PersistentState.fresh ]}).
  - done.
  - reflexivity.
  - done.
  - apply crash_before.
Defined.

(** The membership file survives crashes and is read back exactly: peers, own address and
    whether the node is still a member. *)
Theorem membership_is_durable path s peers member own d d' :
  MembershipState.ok s -> d !! path = Some (MembershipState.file_text s) ->
  let '(s', ops) := MembershipState.Set_ path peers member own in
  MembershipState.ok s' -> crash_states d ops d' ->
  (MembershipState.Load path d' = Ret s \/ MembershipState.Load path d' = Ret s') /\
  MembershipState.Load path (foldl fs_apply d ops) = Ret s'.
Proof.
  intros Hok Hd. unfold MembershipState.Set_. cbv beta iota zeta. intros Hok' Hc. split.
  - apply replace_file_crash in Hc as [Hc|Hc]; [left|right];
      apply MembershipState.members_file_loads; congruence.
  - apply MembershipState.members_file_loads; [done|]. rewrite replace_file_run. apply lookup_insert_eq.
Qed.

Definition demo_membership : MembershipState.t :=
  {| MembershipState.has_file := true; MembershipState.base_peers := demo_peers;
     MembershipState.self_is_member := true;
     MembershipState.own_address := {| host := str "127.0.0.1"; port := 7003 |} |}.

Lemma membership_is_durable_witness :
  let d := {[ str "m" := MembershipState.file_text demo_membership ]} in
  let '(s', ops) := MembershipState.Set_ (str "m") demo_peers false no_address in
  (MembershipState.Load (str "m") d = Ret demo_membership \/ MembershipState.Load (str "m") d = Ret s') /\
  MembershipState.Load (str "m") (foldl fs_apply d ops) = Ret s'.
Proof.
  apply (membership_is_durable (str "m") demo_membership demo_peers false no_address
    {[ str "m" := MembershipState.file_text demo_membership ]}
    {[ str "m" := MembershipState.file_text demo_membership ]}).
  - split_and!; [done|exact demo_peers_ok|split_and!; by apply (bool_decide_unpack _)|done].
  - reflexivity.
  - split_and!; [done|exact demo_peers_ok|split_and!; by apply (bool_decide_unpack _)|done].
  - apply crash_before.
Defined.
