(* ===== verification/Routing.v ===== *)
(** * The shard routing table ([src/shard/routing.h], [src/shard/routing.cpp])

    Loading the table from its text file, and the binary search that finds the shard of a key. *)

From Stdlib Require Import NArith ZArith Lia.
From S2P Require Export PeerSpec.

Abbreviation ShardId := N.

Record ShardRange := { sr_id : ShardId; start_key : bytes; end_key : bytes; sr_peers : peer_map }.

(** [std::vector<ShardRange> shards_]. *)
Abbreviation RoutingTable := (list ShardRange).

(** ** Reading the file *)

(** [iss >> x] for a [uint32_t] and for a [std::string]; [None] is a failed extraction. *)
Definition get_u32 (s : bytes) : option (N * bytes) :=
  let '(neg, s1) := read_sign (skip_spaces s) in
  if starts_digit s1 then
    let '(v, rest) := digits_val 0 s1 in
    if (two32 <=? v)%N then None else Some (if neg then u32 (two32 - v) else v, rest)
  else None.

Definition get_word (s : bytes) : option (bytes * bytes) :=
  let s1 := skip_spaces s in
  let w := take_while (fun c => negb (isspace c)) s1 in
  if decide (w = []) then None else Some (w, drop_while (fun c => negb (isspace c)) s1).

(** [iss >> shard.id >> start_token >> end_token >> peers_token]. *)
Definition read_shard (line : bytes) : option (N * bytes * bytes * bytes) :=
  '(id, s1) ← get_u32 line;
  '(st, s2) ← get_word s1;
  '(en, s3) ← get_word s2;
  '(pe, _) ← get_word s3;
  Some (id, st, en, pe).

Definition key_of_token (t : bytes) : bytes := if decide (t = str "*") then [] else t.

Definition skipped (line : bytes) : bool :=
  match line with [] => true | c :: _ => Ascii.eqb c "#"%char end.

(** The file's own copy of the parser of membership_state.cpp. *)
Definition ParseShardPeerSpec : bytes -> outcome peer_map := ParsePeerSpec.

(** The body of the loop over the lines. *)
Definition load_line (line : bytes) : ST RoutingTable unit :=
  if skipped line then mret tt
  else match read_shard line with
  | None => mret tt
  | Some (id, st, en, pe) =>
    peers ← st_lift (ParseShardPeerSpec pe);
    st_modify (fun shards => shards ++
      [{| sr_id := id; start_key := key_of_token st; end_key := key_of_token en; sr_peers := peers |}])
  end.

Definition start_le (a b : ShardRange) : Prop := bytes_ltb (start_key b) (start_key a) = false.
#[export] Instance start_le_dec a b : Decision (start_le a b) := decide (_ = _).

(** [RoutingTable::LoadFromFile]; [file] is the content of the file, [None] when it cannot be
    opened.  [std::sort] leaves the order of equal start keys open; a stable sort is one of its
    results, and the only one when the start keys differ. *)
Definition LoadFromFile (path : bytes) (file : option bytes) : ST RoutingTable unit :=
  match file with
  | None => st_throw (RuntimeError (str "failed to open routing table: " ++ path))
  | Some text =>
    st_modify (fun _ => []) ≫= fun _ =>
    st_for (pieces newline text) load_line ≫= fun _ =>
    st_get ≫= fun shards =>
    match shards with
    | [] => st_throw (RuntimeError (str "routing table is empty: " ++ path))
    | _ => st_modify (merge_sort start_le)
    end
  end.

(** ** Queries *)

(** [std::upper_bound] on the positions of a vector, with the predicate "[value < element]". *)
Fixpoint upper_bound_loop {A} (fuel : nat) (past : A -> bool) (v : list A) (first len : nat) : nat :=
  match fuel with
  | O => first
  | S f =>
    if (len =? 0)%nat then first else
    let half := (len / 2)%nat in
    match v !! (first + half)%nat with
    | Some m =>
      if past m then upper_bound_loop f past v first half
      else upper_bound_loop f past v (first + half + 1) (len - half - 1)
    | None => first
    end
  end.
Definition upper_bound {A} (past : A -> bool) (v : list A) : nat :=
  upper_bound_loop (length v) past v 0 (length v).

Definition no_shard (key : bytes) : exn := RuntimeError (str "no shard covers key: " ++ key).

Definition ShardFor (key : bytes) (shards : RoutingTable) : outcome ShardRange :=
  match upper_bound (fun s => bytes_ltb key (start_key s)) shards with
  | O => Throw (no_shard key)
  | S i => match shards !! i with Some s => Ret s | None => Undef end
  end.

Fixpoint Shard (id : ShardId) (shards : RoutingTable) : outcome ShardRange :=
  match shards with
  | [] => throw_rt (str "unknown shard id: " ++ to_string id)
  | s :: shards' => if (sr_id s =? id)%N then Ret s else Shard id shards'
  end.

Definition AllShardIds (shards : RoutingTable) : list ShardId := map sr_id shards.

(** ** Facts *)

(** [past] is false up to some position of [v] and true from there on. *)
Definition split_at {A} (past : A -> bool) (v : list A) (r : nat) : Prop :=
  (r <= length v)%nat /\
  (forall i a, (i < r)%nat -> v !! i = Some a -> past a = false) /\
  (forall i a, (r <= i)%nat -> v !! i = Some a -> past a = true).

Definition monotone {A} (past : A -> bool) (v : list A) : Prop :=
  forall i j a b, (i <= j)%nat -> v !! i = Some a -> v !! j = Some b -> past a = true -> past b = true.

Lemma upper_bound_loop_split {A} (past : A -> bool) v fuel first len :
  monotone past v -> (len <= fuel)%nat -> (first + len <= length v)%nat ->
  (forall i a, (i < first)%nat -> v !! i = Some a -> past a = false) ->
  (forall i a, (first + len <= i)%nat -> v !! i = Some a -> past a = true) ->
  split_at past v (upper_bound_loop fuel past v first len).
Proof.
  intros Hmono. revert first len. induction fuel as [|f IH]; intros first len Hf Hlen Hlo Hhi.
  - cbn. replace len with 0%nat in * by lia. rewrite Nat.add_0_r in *. by split_and!.
  - cbn [upper_bound_loop]. destruct (Nat.eqb_spec len 0) as [->|Hne].
    { rewrite Nat.add_0_r in *. by split_and!. }
    pose proof (Nat.div_lt len 2 ltac:(lia) ltac:(lia)) as Hhalf.
    set (half := (len / 2)%nat) in *. clearbody half.
    destruct (v !! (first + half)%nat) as [m|] eqn:Hm; [|apply lookup_ge_None in Hm; lia].
    destruct (past m) eqn:Hp.
    + apply IH; [lia|lia|done|]. intros i a Hi Ha. exact (Hmono _ _ _ _ Hi Hm Ha Hp).
    + apply IH; [lia|lia| |].
      * intros i a Hi Ha. apply not_true_is_false. intros Hpa.
        assert (Hle : (i <= first + half)%nat) by lia.
        pose proof (Hmono _ _ _ _ Hle Ha Hm Hpa). congruence.
      * intros i a Hi Ha. apply (Hhi i a); [lia|done].
Qed.

Lemma upper_bound_split {A} (past : A -> bool) v : monotone past v -> split_at past v (upper_bound past v).
Proof.
  intros H. apply upper_bound_loop_split; [done|lia|lia| |].
  - lia.
  - intros i a Hi Ha%lookup_lt_Some. lia.
Qed.

Lemma upper_bound_loop_le {A} (past : A -> bool) v fuel first len :
  (upper_bound_loop fuel past v first len <= first + len)%nat.
Proof.
  revert first len. induction fuel as [|f IH]; intros first len; cbn [upper_bound_loop]; [lia|].
  destruct (Nat.eqb_spec len 0) as [->|Hne]; [lia|].
  pose proof (Nat.div_lt len 2 ltac:(lia) ltac:(lia)) as Hhalf. set (half := (len / 2)%nat) in *. clearbody half.
  destruct (v !! (first + half)%nat) as [m|]; [|lia].
  destruct (past m); (etrans; [apply IH|lia]).
Qed.

(** The iterator before the upper bound can be dereferenced, on any table. *)
Lemma ShardFor_defined key shards : ShardFor key shards <> Undef.
Proof.
  unfold ShardFor. pose proof (upper_bound_loop_le (fun s => bytes_ltb key (start_key s)) shards (length shards) 0 (length shards)) as H.
  fold (upper_bound (fun s => bytes_ltb key (start_key s)) shards) in H.
  destruct (upper_bound _ shards) as [|i]; [done|]. destruct (shards !! i) eqn:E; [done|]. apply lookup_ge_None in E. lia.
Qed.

Definition sorted_table (shards : RoutingTable) : Prop := StronglySorted start_le shards.

Lemma bytes_ltb_false x y : bytes_ltb x y = false -> x = y \/ bytes_ltb y x = true.
Proof. exact (key_ltb_false (K := list ascii) x y). Qed.

Lemma bytes_le_trans x y z : bytes_ltb y x = false -> bytes_ltb z y = false -> bytes_ltb z x = false.
Proof.
  intros H1 H2. apply not_true_is_false. intros H3.
  destruct (bytes_ltb_false _ _ H1) as [->|Hxy]; [congruence|].
  pose proof (bytes_ltb_trans _ _ _ H3 Hxy). congruence.
Qed.

Lemma ltb_le_trans x y z : bytes_ltb x y = true -> bytes_ltb z y = false -> bytes_ltb x z = true.
Proof.
  intros H1 H2. destruct (bytes_ltb_false _ _ H2) as [->|Hyz]; [done|].
  by apply (bytes_ltb_trans _ y).
Qed.

#[export] Instance start_le_trans : Transitive start_le.
Proof. intros a b c. apply bytes_le_trans. Qed.
#[export] Instance start_le_total : Total start_le.
Proof.
  intros a b. unfold start_le. destruct (bytes_ltb (start_key b) (start_key a)) eqn:E; [|by left].
  right. by apply bytes_ltb_asym.
Qed.

Lemma sorted_lookup shards i j a b :
  sorted_table shards -> (i <= j)%nat -> shards !! i = Some a -> shards !! j = Some b -> start_le a b.
Proof.
  intros Hs. revert i j. induction Hs as [|x l Hs IH Hall]; intros [|i] [|j] Hij Ha Hb; [done..| | |lia|].
  - cbn in *. simplify_eq. apply bytes_ltb_irrefl.
  - cbn in *. simplify_eq. rewrite Forall_forall in Hall. apply Hall. by eapply list_elem_of_lookup_2.
  - apply (IH i j); [lia|done..].
Qed.

Lemma sorted_monotone key shards :
  sorted_table shards -> monotone (fun s => bytes_ltb key (start_key s)) shards.
Proof.
  intros Hs i j a b Hij Ha Hb Hp. eapply ltb_le_trans; [exact Hp|].
  exact (sorted_lookup _ _ _ _ _ Hs Hij Ha Hb).
Qed.

(** The reference for [ShardFor]: the last shard that starts at or before the key. *)
Definition last_start_le (key : bytes) (shards : RoutingTable) : option ShardRange :=
  last (filter (fun s => bytes_ltb key (start_key s) = false) shards).

Lemma filter_split {A} (past : A -> bool) v r :
  split_at past v r -> filter (fun a => past a = false) v = take r v.
Proof.
  intros (Hr & Hlo & Hhi). rewrite <- (take_drop r v) at 1. rewrite filter_app.
  rewrite filter_keep_all, (filter_keep_none _ (drop r v)), app_nil_r; [done| |].
  - apply Forall_lookup. intros i a Ha. rewrite lookup_drop in Ha.
    rewrite (Hhi (r + i)%nat a) by (done || lia). done.
  - apply Forall_lookup. intros i a Ha. apply lookup_take_Some in Ha as [Ha Hi]. by apply (Hlo i a).
Qed.

Lemma ShardFor_last key shards : sorted_table shards ->
  ShardFor key shards = match last_start_le key shards with
                        | Some s => Ret s
                        | None => Throw (no_shard key)
                        end.
Proof.
  intros Hs. unfold ShardFor, last_start_le.
  pose proof (upper_bound_split _ _ (sorted_monotone key _ Hs)) as Hsp.
  rewrite (filter_split _ _ _ Hsp). destruct Hsp as (Hr & _ & _).
  destruct (upper_bound _ shards) as [|i]; [done|].
  rewrite last_lookup, length_take, Nat.min_l by done. cbn [Nat.pred].
  rewrite lookup_take_lt by lia. destruct (shards !! i) eqn:E; [done|]. apply lookup_ge_None in E. lia.
Qed.

(** *** Tables that partition the key space *)

Fixpoint contiguous (from : bytes) (shards : RoutingTable) : Prop :=
  match shards with
  | [] => False
  | s :: shards' =>
    start_key s = from /\
    match shards' with
    | [] => end_key s = []
    | _ => bytes_ltb from (end_key s) = true /\ contiguous (end_key s) shards'
    end
  end.
(** "Ranges in a well-formed routing table are contiguous and non-overlapping, covering the
    entire key space." *)
Definition well_formed (shards : RoutingTable) : Prop := contiguous [] shards.

#[export] Instance contiguous_dec from shards : Decision (contiguous from shards).
Proof.
  revert from. induction shards as [|s shards IH]; intros from; [right; tauto|].
  cbn. destruct shards as [|s' shards]; [apply _|]. apply and_dec; [apply _|]. apply and_dec; [apply _|apply IH].
Defined.

Definition covers (s : ShardRange) (key : bytes) : Prop :=
  bytes_ltb key (start_key s) = false /\ (end_key s = [] \/ bytes_ltb key (end_key s) = true).

Lemma contiguous_next from shards i a :
  contiguous from shards -> shards !! i = Some a ->
  match shards !! S i with
  | None => end_key a = []
  | Some b => start_key b = end_key a /\ bytes_ltb (start_key a) (end_key a) = true
  end.
Proof.
  revert from i. induction shards as [|s [|s' shards] IH]; intros from i Hc Ha; [done| |].
  - destruct Hc as [_ He]. destruct i as [|i]; [|done]. cbn in *. by simplify_eq.
  - destruct Hc as (Hs & Hlt & Hc). destruct i as [|i]; [|exact (IH _ _ Hc Ha)].
    cbn in Ha |- *. simplify_eq. split; [by destruct Hc|done].
Qed.

Lemma contiguous_starts from shards : contiguous from shards ->
  sorted_table shards /\ Forall (fun s => bytes_ltb (start_key s) from = false) shards.
Proof.
  revert from. induction shards as [|s [|s' shards] IH]; intros from Hc; [done| |].
  - destruct Hc as [<- _]. split; [repeat constructor|]. repeat constructor. apply bytes_ltb_irrefl.
  - destruct Hc as (<- & Hlt & Hc). destruct (IH _ Hc) as [Hs Hall].
    assert (Hall' : Forall (fun t => bytes_ltb (start_key t) (start_key s) = false) (s' :: shards)).
    { eapply Forall_impl; [exact Hall|]. intros t Ht. eapply bytes_le_trans; [|exact Ht]. by apply bytes_ltb_asym. }
    split; constructor; [done|done|apply bytes_ltb_irrefl|done].
Qed.

Lemma well_formed_sorted shards : well_formed shards -> sorted_table shards.
Proof. intros H. by apply (contiguous_starts []). Qed.

(** Ranges at different positions do not overlap. *)
Lemma contiguous_disjoint from shards i j a b key :
  contiguous from shards -> (i < j)%nat -> shards !! i = Some a -> shards !! j = Some b ->
  covers a key -> ~ covers b key.
Proof.
  intros Hc Hij Ha Hb [_ Hend] [Hstart _].
  pose proof (contiguous_next _ _ _ _ Hc Ha) as Hn.
  destruct (shards !! S i) as [c|] eqn:Ec.
  - destruct Hn as [Hc1 Hc2].
    pose proof (sorted_lookup _ _ _ _ _ (proj1 (contiguous_starts _ _ Hc)) Hij Ec Hb) as Hle.
    unfold start_le in Hle. rewrite Hc1 in Hle.
    destruct Hend as [E|Hlt]; [rewrite E in Hc2; by destruct (start_key a)|].
    pose proof (ltb_le_trans _ _ _ Hlt Hle). congruence.
  - apply lookup_ge_None in Ec. apply lookup_lt_Some in Hb. lia.
Qed.

(** ** Properties of the queries *)

(** Binary search gives what a scan of the table gives: [ShardFor] returns the last shard that
    starts at or before the key and throws exactly when every shard starts after it, on every
    table that [LoadFromFile] can leave behind. *)
Theorem ShardFor_scan path file old key :
  let '(r, shards) := LoadFromFile path file old in
  r = Ret tt ->
  ShardFor key shards = match last_start_le key shards with
                        | Some s => Ret s
                        | None => Throw (no_shard key)
                        end.
Proof.
  destruct (LoadFromFile path file old) as [r shards] eqn:E. intros ->. apply ShardFor_last.
  destruct file as [text|]; [|done]. unfold LoadFromFile in E. st_steps.
  unfold mbind, ST_bind in E. cbn [st_modify] in E.
  destruct (st_for _ load_line []) as [[[]|e|] l]; [|done..].
  cbn in E. destruct l; [done|]. injection E as <-. apply StronglySorted_merge_sort; apply _.
Qed.

(** C17: in a well-formed table exactly one shard covers a key, and [ShardFor] returns it. *)
Theorem ShardFor_covers shards key : well_formed shards ->
  exists s, ShardFor key shards = Ret s /\ s ∈ shards /\ covers s key /\
    forall i j a b, shards !! i = Some a -> shards !! j = Some b -> covers a key -> covers b key -> i = j.
Proof.
  intros Hwf. pose proof (well_formed_sorted _ Hwf) as Hs.
  destruct (upper_bound_split _ _ (sorted_monotone key _ Hs)) as (Hr & Hlo & Hhi). unfold ShardFor.
  destruct (upper_bound _ shards) as [|i].
  { destruct shards as [|s shards]; [done|]. destruct Hwf as [Hst _].
    specialize (Hhi 0%nat s ltac:(lia) eq_refl). cbn in Hhi. rewrite Hst in Hhi. by destruct key. }
  destruct (shards !! i) as [s|] eqn:Hi; [|apply lookup_ge_None in Hi; lia].
  exists s. split; [done|]. split; [by eapply list_elem_of_lookup_2|]. split; [split; [exact (Hlo i s ltac:(lia) Hi)|]|].
  - pose proof (contiguous_next _ _ _ _ Hwf Hi) as Hn. destruct (shards !! S i) as [t|] eqn:Et; [|by left].
    destruct Hn as [<- _]. right. exact (Hhi (S i) t ltac:(lia) Et).
  - intros x y a b Hx Hy Ha Hb. destruct (Nat.lt_trichotomy x y) as [H|[H|H]]; [|done|]; exfalso.
    + exact (contiguous_disjoint _ _ _ _ _ _ _ Hwf H Hx Hy Ha Hb).
    + exact (contiguous_disjoint _ _ _ _ _ _ _ Hwf H Hy Hx Hb Ha).
Qed.

(** ** The file format *)

(** A line of the file: a comment or blank line, or a shard. *)
Inductive config_line := Note (text : bytes) | Row (s : ShardRange).

Definition token_of_key (k : bytes) : bytes := if decide (k = []) then str "*" else k.

Definition row_text (s : ShardRange) : bytes :=
  to_string (sr_id s) ++ str " " ++ token_of_key (start_key s) ++ str " " ++
  token_of_key (end_key s) ++ str " " ++ FormatPeerSpec (sr_peers s).

Definition line_text (l : config_line) : bytes :=
  match l with Note t => t | Row s => row_text s end.

Definition file_text (ls : list config_line) : bytes :=
  concat (map (fun l => line_text l ++ [newline]) ls).

Definition rows (ls : list config_line) : list ShardRange :=
  omap (fun l => match l with Note _ => None | Row s => Some s end) ls.

Definition no_space (s : bytes) : Prop := Forall (fun c => isspace c = false) s.

(** What the format can carry: keys without white space that are not "*", host names without
    separators or white space, and at least one peer. *)
Definition key_text_ok (k : bytes) : Prop := no_space k /\ k <> str "*".
Definition row_ok (s : ShardRange) : Prop :=
  (sr_id s < two32)%N /\ key_text_ok (start_key s) /\ key_text_ok (end_key s) /\
  sr_peers s <> ∅ /\ forall id a, sr_peers s !! id = Some a -> spec_ok (id, a) /\ no_space (host a).

Definition line_ok (l : config_line) : Prop :=
  match l with
  | Note t => (newline ∉ t) /\ skipped t = true
  | Row s => row_ok s
  end.

Lemma get_word_app w c rest : no_space w -> w <> [] -> isspace c = true ->
  get_word (c :: w ++ rest) = Some (w ++ take_while (fun c => negb (isspace c)) rest,
                                    drop_while (fun c => negb (isspace c)) rest).
Proof.
  intros Hw Hne Hc. unfold get_word. cbn [skip_spaces]. rewrite Hc.
  assert (E : skip_spaces (w ++ rest) = w ++ rest).
  { destruct Hw as [|a w Ha Hw]; [done|]. cbn. by rewrite Ha. }
  rewrite E. clear E.
  assert (Et : take_while (fun c => negb (isspace c)) (w ++ rest) =
    w ++ take_while (fun c => negb (isspace c)) rest).
  { clear Hne. induction Hw as [|a w Ha Hw IH]; [done|]. cbn. by rewrite Ha, IH. }
  assert (Ed : drop_while (fun c => negb (isspace c)) (w ++ rest) =
    drop_while (fun c => negb (isspace c)) rest).
  { clear Hne Et. induction Hw as [|a w Ha Hw IH]; [done|]. cbn. by rewrite Ha. }
  rewrite Et, Ed. rewrite decide_False; [done|]. by intros [? _]%app_eq_nil.
Qed.

Lemma get_word_mid w rest : no_space w -> w <> [] ->
  get_word (" "%char :: w ++ " "%char :: rest) = Some (w, " "%char :: rest).
Proof. intros Hw Hne. rewrite get_word_app by done. cbn. by rewrite app_nil_r. Qed.

Lemma get_word_end w : no_space w -> w <> [] -> get_word (" "%char :: w) = Some (w, []).
Proof.
  intros Hw Hne. rewrite <- (app_nil_r w) at 1. rewrite get_word_app by done. cbn. by rewrite app_nil_r.
Qed.

Lemma get_u32_text n rest : (n < two32)%N -> get_u32 (to_string n ++ " "%char :: rest) = Some (n, " "%char :: rest).
Proof.
  intros Hn. destruct (to_string_digits n) as [Hd Hne]. pose proof (digits_val_to_string n) as Hv.
  destruct (to_string n) as [|c s]; [done|]. unfold get_u32.
  assert (Hc : isdigit c = true) by by inversion Hd.
  destruct (digit_not_special c Hc) as (H1 & H2 & H3).
  cbn [app skip_spaces]. rewrite H1. cbn [read_sign]. rewrite H2, H3. cbn [starts_digit]. rewrite Hc.
  change (c :: s ++ ?r) with ((c :: s) ++ r). rewrite digits_val_app by done. rewrite Hv.
  destruct (N.leb_spec two32 n); [lia|done].
Qed.

Lemma token_ok k : key_text_ok k -> no_space (token_of_key k) /\ token_of_key k <> [] /\
  key_of_token (token_of_key k) = k.
Proof.
  intros [Hs Hne]. unfold token_of_key, key_of_token. case_decide; [|by rewrite decide_False].
  subst. split_and!; [by repeat constructor|done|by rewrite decide_True].
Qed.

Lemma no_space_digits s : all_digits s -> no_space s.
Proof. intros H. eapply Forall_impl; [exact H|]. intros c Hc. by destruct (digit_not_special c Hc). Qed.

Lemma FormatPeers_no_space l :
  Forall (fun p : NodeId * PeerAddress => no_space (host p.2)) l -> no_space (FormatPeers l).
Proof.
  assert (Hp : forall p, no_space (host p.2) -> no_space (peer_text p)).
  { intros p Hp. unfold peer_text, no_space. rewrite !Forall_app. split_and!; [|by repeat constructor|done|by repeat constructor|];
      apply no_space_digits; apply to_string_digits. }
  induction 1 as [|p l Hh Hl IH]; [constructor|]. destruct l as [|q l]; [by apply Hp|].
  change (FormatPeers (p :: q :: l)) with (peer_text p ++ [comma] ++ FormatPeers (q :: l)).
  unfold no_space in *. rewrite !Forall_app. split_and!; [by apply Hp|by repeat constructor|done].
Qed.

Lemma peers_text_ok s : row_ok s -> no_space (FormatPeerSpec (sr_peers s)) /\ FormatPeerSpec (sr_peers s) <> [].
Proof.
  intros (_ & _ & _ & Hne & Hp). unfold FormatPeerSpec. split.
  - apply FormatPeers_no_space, Forall_forall. intros [id a] Hin%elem_of_map_entries. by destruct (Hp _ _ Hin).
  - destruct (map_entries (sr_peers s)) as [|p [|q l]] eqn:E.
    + exfalso. apply Hne. by rewrite <- (map_entries_to_map (sr_peers s)), E.
    + apply peer_text_nonempty.
    + cbn [FormatPeers]. intros [? _]%app_eq_nil. by apply (peer_text_nonempty p).
Qed.

Lemma read_row s : row_ok s ->
  read_shard (row_text s) =
  Some (sr_id s, token_of_key (start_key s), token_of_key (end_key s), FormatPeerSpec (sr_peers s)).
Proof.
  intros Hs. pose proof (peers_text_ok _ Hs) as [Hp Hpne]. destruct Hs as (Hid & Hst & Hen & _).
  destruct (token_ok _ Hst) as (Hs1 & Hs2 & _). destruct (token_ok _ Hen) as (He1 & He2 & _).
  unfold read_shard, row_text. change (str " ") with [" "%char]. cbn [app].
  rewrite get_u32_text by done. cbn [mbind option_bind]. rewrite get_word_mid by done. cbn [mbind option_bind].
  rewrite get_word_mid by done. cbn [mbind option_bind]. by rewrite get_word_end.
Qed.

Lemma load_row s acc : row_ok s -> load_line (row_text s) acc = (Ret tt, acc ++ [s]).
Proof.
  intros Hs. unfold load_line.
  assert (Hk : skipped (row_text s) = false).
  { unfold row_text. destruct (to_string_digits (sr_id s)) as [Hd Hne]. destruct (to_string (sr_id s)) as [|c t]; [done|].
    cbn. inversion Hd as [|? ? Hc _]; subst. destruct (Ascii.eqb_spec c "#"%char) as [->|]; [done|done]. }
  rewrite Hk, read_row by done. destruct Hs as (_ & Hst & Hen & _ & Hp).
  rewrite peer_spec_parses by (intros id a Ha; by apply (Hp id a)). st_steps.
  destruct (token_ok _ Hst) as (_ & _ & ->). destruct (token_ok _ Hen) as (_ & _ & ->). by destruct s.
Qed.

Lemma no_newline s : no_space s -> newline ∉ s.
Proof. unfold no_space. rewrite Forall_forall. intros H Hin. by specialize (H _ Hin). Qed.

Lemma line_no_newline l : line_ok l -> newline ∉ line_text l.
Proof.
  destruct l as [t|s]; [by intros [H _]|]. cbn. intros Hs.
  pose proof (peers_text_ok _ Hs) as [Hp _]. destruct Hs as (_ & Hst & Hen & _).
  destruct (token_ok _ Hst) as (Hs1 & _ & _). destruct (token_ok _ Hen) as (He1 & _ & _).
  unfold row_text. rewrite !not_elem_of_app.
  split_and!; try (by apply no_newline); try (by apply not_in_to_string);
    change (str " ") with [" "%char]; by rewrite list_elem_of_singleton.
Qed.

Lemma load_lines ls acc : Forall line_ok ls ->
  st_for (pieces newline (file_text ls)) load_line acc = (Ret tt, acc ++ rows ls).
Proof.
  intros Hls. revert acc. induction Hls as [|l ls Hl Hls IH]; intros acc; [by cbn; rewrite app_nil_r|].
  unfold file_text. cbn [map concat]. rewrite <- app_assoc. cbn [app].
  rewrite pieces_step by by apply line_no_newline. cbn [st_for].
  assert (E : load_line (line_text l) acc = (Ret tt, acc ++ rows [l])).
  { destruct l as [t|s]; [|by apply load_row]. destruct Hl as [_ Hl]. cbn. unfold load_line. rewrite Hl.
    by rewrite app_nil_r. }
  rewrite (run_bind _ _ _ _ _ E). fold (file_text ls). rewrite IH.
  rewrite <- app_assoc. by destruct l.
Qed.

Lemma contiguous_strict from shards i j a b : contiguous from shards -> (i < j)%nat ->
  shards !! i = Some a -> shards !! j = Some b -> bytes_ltb (start_key a) (start_key b) = true.
Proof.
  intros Hc Hij Ha Hb. pose proof (contiguous_next _ _ _ _ Hc Ha) as Hn.
  destruct (shards !! S i) as [c|] eqn:Ec.
  - destruct Hn as [Hc1 Hc2]. eapply ltb_le_trans; [exact Hc2|]. rewrite <- Hc1.
    exact (sorted_lookup _ _ _ _ _ (proj1 (contiguous_starts _ _ Hc)) Hij Ec Hb).
  - apply lookup_ge_None in Ec. apply lookup_lt_Some in Hb. lia.
Qed.

(** Any order of the rows sorts to the table. *)
Lemma sort_rows rs shards : rs ≡ₚ shards -> well_formed shards -> merge_sort start_le rs = shards.
Proof.
  intros Hp Hwf. pose proof (well_formed_sorted _ Hwf) as Hs.
  assert (Hp' : merge_sort start_le rs ≡ₚ shards) by by rewrite merge_sort_Permutation.
  assert (Hs' : sorted_table (merge_sort start_le rs)) by (apply StronglySorted_merge_sort; apply _).
  assert (Hanti : forall a b, a ∈ shards -> b ∈ shards -> start_le a b -> start_le b a -> a = b).
  { intros a b [i Ha]%list_elem_of_lookup [j Hb]%list_elem_of_lookup Hab Hba. unfold start_le in *.
    destruct (Nat.lt_trichotomy i j) as [H|[->|H]]; [|congruence|].
    - pose proof (contiguous_strict _ _ _ _ _ _ Hwf H Ha Hb). congruence.
    - pose proof (contiguous_strict _ _ _ _ _ _ Hwf H Hb Ha). congruence. }
  clear Hwf Hp. revert Hs' Hs Hp' Hanti. generalize (merge_sort start_le rs) as l. intros l Hl. revert shards.
  induction Hl as [|a l Hl IH Hall]; intros shards Hs Hp Hanti; [by apply Permutation_nil_l in Hp|].
  destruct Hs as [|b shards Hs Hall']; [by apply Permutation_nil_r in Hp|].
  rewrite Forall_forall in Hall, Hall'.
  assert (Hb : b ∈ a :: l) by (rewrite Hp; left). assert (Ha : a ∈ b :: shards) by (rewrite <- Hp; left).
  assert (a = b) as ->.
  { apply Hanti; [done|left| |].
    - apply elem_of_cons in Hb as [->|Hb]; [apply bytes_ltb_irrefl|by apply Hall].
    - apply elem_of_cons in Ha as [->|Ha]; [apply bytes_ltb_irrefl|by apply Hall']. }
  f_equal. apply IH; [done|apply (Permutation_cons_inv (a := b)); exact Hp|].
  intros x y Hx Hy. apply Hanti; by right.
Qed.

(** ** Properties of loading *)

(** A file that lists the rows of a well-formed table in any order, with comments and blank
    lines anywhere between them, is loaded as that table, whatever was loaded before. *)
Theorem LoadFromFile_table path ls old shards :
  Forall line_ok ls -> rows ls ≡ₚ shards -> well_formed shards ->
  LoadFromFile path (Some (file_text ls)) old = (Ret tt, shards).
Proof.
  intros Hls Hp Hwf. unfold LoadFromFile. st_steps. rewrite (run_bind _ _ _ _ _ (load_lines _ _ Hls)).
  st_steps. cbn [app]. rewrite <- (sort_rows _ _ Hp Hwf).
  destruct (rows ls) as [|s rs]; [|done]. exfalso. apply Permutation_nil_l in Hp as <-. exact Hwf.
Qed.

Definition demo_shard (id : N) (from to : bytes) : ShardRange :=
  {| sr_id := id; start_key := from; end_key := to; sr_peers := demo_peers |}.
Definition demo_table : RoutingTable :=
  [demo_shard 1 [] (str "__row__m"); demo_shard 2 (str "__row__m") (str "__schema__"); demo_shard 0 (str "__schema__") []].
Definition demo_config : list config_line :=
  [Note (str "# three shards"); Row (demo_shard 0 (str "__schema__") []); Note [];
   Row (demo_shard 2 (str "__row__m") (str "__schema__")); Row (demo_shard 1 [] (str "__row__m"))].

Lemma ShardFor_scan_witness :
  ShardFor (str "__row__zebra") (LoadFromFile [] (Some (file_text demo_config)) []).2 =
  Ret (demo_shard 2 (str "__row__m") (str "__schema__")).
Proof.
  pose proof (ShardFor_scan [] (Some (file_text demo_config)) [] (str "__row__zebra")) as H.
  destruct (LoadFromFile [] (Some (file_text demo_config)) []) as [r shards] eqn:E. cbn [snd].
  rewrite H; vm_compute in E; injection E as <- <-; vm_compute; reflexivity.
Defined.

Lemma ShardFor_covers_witness : well_formed demo_table /\ exists s, ShardFor (str "__row__a") demo_table = Ret s.
Proof.
  assert (H : well_formed demo_table) by (apply (bool_decide_unpack _); vm_compute; exact I).
  split; [exact H|]. destruct (ShardFor_covers demo_table (str "__row__a") H) as (s & Hs & _). by exists s.
Defined.

Lemma demo_row_ok id from to : (id < two32)%N -> key_text_ok from -> key_text_ok to -> row_ok (demo_shard id from to).
Proof.
  intros H1 H2 H3. split; [exact H1|]. split; [exact H2|]. split; [exact H3|]. split; [done|].
  cbn. intros i a Ha. split; [by apply demo_peers_ok|]. unfold demo_peers in Ha.
  apply lookup_insert_Some in Ha as [[<- <-]|[_ Ha]]; [|apply lookup_singleton_Some in Ha as [<- <-]];
    by repeat constructor.
Qed.

Lemma LoadFromFile_table_witness :
  LoadFromFile (str "routing.conf") (Some (file_text demo_config)) [] = (Ret tt, demo_table).
Proof.
  apply LoadFromFile_table.
  - repeat apply Forall_cons_2; try apply Forall_nil_2;
      try (apply demo_row_ok; [done|split; [by repeat constructor|done]..]);
      (split; [apply (bool_decide_unpack _); vm_compute; exact I|reflexivity]).
  - cbn. etrans; [apply Permutation_swap|]. etrans; [apply Permutation_skip, Permutation_swap|].
    apply Permutation_swap.
  - apply (bool_decide_unpack _); vm_compute; exact I.
Defined.
