(* ===== verification/Transport.v ===== *)
(** * Framed messages over a stream socket ([src/raft/transport.cpp], [src/raft/transport.h])

    A connection is modelled by what its operating system calls return: the pieces in which the
    peer's bytes arrive, and how many bytes each [send] accepts.  Both are arbitrary, so the
    theorems hold for every fragmentation of the stream; a list that runs out is a connection
    that was closed or timed out. *)

From Stdlib Require Import NArith Lia.
From S2P Require Export Codec Decimal.

Record sock := { incoming : list bytes; accepts : list nat; outgoing : bytes }.

(** [recv(sock, out, n, 0)]: the bytes received, none on an error, a timeout or end of stream. *)
Definition recv (n : nat) : ST sock bytes := fun s =>
  match incoming s with
  | [] => (Ret [], s)
  | c :: cs =>
    if decide (length c <= n)%nat
    then (Ret c, {| incoming := cs; accepts := accepts s; outgoing := outgoing s |})
    else (Ret (take n c), {| incoming := drop n c :: cs; accepts := accepts s; outgoing := outgoing s |})
  end.

(** [send(sock, data, n, 0)]: how many bytes of [data] were taken, 0 on an error. *)
Definition send (data : bytes) : ST sock nat := fun s =>
  match accepts s with
  | [] => (Ret 0%nat, s)
  | k :: ks =>
    let n := Nat.min k (length data) in
    (Ret n, {| incoming := incoming s; accepts := ks; outgoing := outgoing s ++ take n data |})
  end.

Definition two31 : N := 2147483648.

(** [static_cast<int>(n)]: a length of 2^31 or more becomes a negative [int], which the call
    takes for a length beyond the buffer. *)
Definition int_length (n : nat) : outcome unit :=
  if (N.of_nat n <? two31)%N then Ret tt else Undef.

Definition read_failed : exn := RuntimeError (str "connection closed or timed out while reading").
Definition write_failed : exn := RuntimeError (str "connection closed or timed out while writing").

(** Every turn of the loops moves at least one byte, so [len] turns are enough. *)
Fixpoint recv_loop (fuel len : nat) (out : bytes) : ST sock bytes :=
  match fuel with
  | O => mret out
  | S f =>
    if decide (length out < len)%nat then
      st_lift (int_length (len - length out)) ≫= fun _ =>
      c ← recv (len - length out);
      match c with
      | [] => st_throw read_failed
      | _ => recv_loop f len (out ++ c)
      end
    else mret out
  end.
Definition RecvExact (len : nat) : ST sock bytes := recv_loop len len [].

Fixpoint send_loop (fuel : nat) (data : bytes) : ST sock unit :=
  match fuel with
  | O => mret tt
  | S f =>
    match data with
    | [] => mret tt
    | _ =>
      st_lift (int_length (length data)) ≫= fun _ =>
      n ← send data;
      match n with
      | O => st_throw write_failed
      | _ => send_loop f (drop n data)
      end
    end
  end.
Definition SendExact (data : bytes) : ST sock unit := send_loop (length data) data.

Definition ReadFramedMessage : ST sock bytes :=
  b ← RecvExact 4;
  let len := N.to_nat (le_val b) in
  if (0 <? len)%nat then RecvExact len else mret [].

Definition WriteFramedMessage (body : bytes) : ST sock unit :=
  let len := size32 body in
  SendExact (le_bytes 4 len) ≫= fun _ =>
  if (0 <? len)%N then SendExact (take (N.to_nat len) body) else mret tt.

(** ** One RPC *)

(** What [RaftTransport::SendRequest] does on a connection that is established (see [Sockets]). *)
Definition exchange (request_body : bytes) : ST sock bytes :=
  _ ← WriteFramedMessage request_body; ReadFramedMessage.

Section serve.
Context {St : Type} (handler : bytes -> ST St bytes).

Definition on_socket {A} (m : ST sock A) : ST (sock * St) A := fun s =>
  let '(r, k) := m s.1 in (r, (k, s.2)).
Definition on_server {A} (m : ST St A) : ST (sock * St) A := fun s =>
  let '(r, k) := m s.2 in (r, (s.1, k)).

(** The thread that [RaftTransport::AcceptLoop] starts for a connection: whatever goes wrong
    only ends this connection. *)
Definition serve_connection : ST (sock * St) unit :=
  st_catch
    (request ← on_socket ReadFramedMessage;
     response ← on_server (handler request);
     on_socket (WriteFramedMessage response))
    (fun _ => mret tt).
End serve.

(** ** Facts *)

(** What a peer wrote arrives in non-empty pieces. *)
Definition arrives (s : sock) (bs : bytes) : Prop :=
  Forall (fun c => c <> []) (incoming s) /\ concat (incoming s) = bs.

(** [s'] differs from [s] by the bytes that were read. *)
Definition same_sending (s s' : sock) : Prop := accepts s' = accepts s /\ outgoing s' = outgoing s.

Lemma recv_some s n a rest : arrives s (a :: rest) -> (0 < n)%nat ->
  exists c s', recv n s = (Ret c, s') /\ c <> [] /\ (length c <= n)%nat /\ same_sending s s' /\
    exists bs, a :: rest = c ++ bs /\ arrives s' bs.
Proof.
  intros [Hne Hc] Hn. unfold recv. destruct (incoming s) as [|c cs]; [done|].
  apply Forall_cons in Hne as [Hcne Hne]. cbn in Hc. case_decide as Hlen.
  - exists c. eexists. split_and!; [done|done|done|done|]. by exists (concat cs).
  - exists (take n c). eexists. split_and!; [done| |rewrite length_take; lia|done|].
    + destruct c; [done|]. by destruct n; [lia|].
    + exists (drop n c ++ concat cs). rewrite app_assoc, take_drop. split; [done|]. split; [|done].
      constructor; [|done]. intros E. apply (f_equal length) in E. rewrite length_drop in E. cbn in E. lia.
Qed.

Lemma recv_loop_ok fuel len out s want rest :
  arrives s (want ++ rest) -> (length out + length want = len)%nat -> (length want <= fuel)%nat ->
  (N.of_nat len < two31)%N ->
  exists s', recv_loop fuel len out s = (Ret (out ++ want), s') /\ arrives s' rest /\ same_sending s s'.
Proof.
  revert out s want. induction fuel as [|f IH]; intros out s want Ha Hl Hf H31.
  - destruct want; [|cbn in Hf; lia]. exists s. cbn. by rewrite app_nil_r.
  - cbn [recv_loop]. case_decide as Hlt.
    + destruct want as [|a want]; [cbn in Hl; lia|].
      unfold int_length. destruct (N.ltb_spec (N.of_nat (len - length out)) two31); [|lia]. st_steps.
      destruct (recv_some s (len - length out) a (want ++ rest) Ha ltac:(lia)) as (c & s1 & E & Hc & Hcl & [H1 H2] & bs & Hbs & Ha').
      rewrite (run_bind _ _ _ _ _ E). destruct c as [|x c]; [done|].
      assert (Hsplit : exists w', a :: want = (x :: c) ++ w' /\ bs = w' ++ rest).
      { exists (drop (length (x :: c)) (a :: want)).
        assert (E1 : take (length (x :: c)) ((a :: want) ++ rest) = x :: c)
          by (change ((a :: want) ++ rest) with (a :: want ++ rest); rewrite Hbs; apply take_app_length).
        assert (E2 : drop (length (x :: c)) ((a :: want) ++ rest) = bs)
          by (change ((a :: want) ++ rest) with (a :: want ++ rest); rewrite Hbs; apply drop_app_length).
        rewrite take_app_le in E1 by (cbn in *; lia). rewrite drop_app_le in E2 by (cbn in *; lia).
        split; [|done]. rewrite <- (take_drop (length (x :: c)) (a :: want)) at 1. by rewrite E1. }
      destruct Hsplit as (w' & Hw & ->).
      pose proof (f_equal length Hw) as Hwl. rewrite length_app in Hwl.
      destruct (IH (out ++ x :: c) s1 w') as (s' & E' & Ha'' & [H3 H4]); [done| |cbn in *; lia|done|].
      { rewrite length_app. lia. }
      exists s'. rewrite E', <- app_assoc, <- Hw. split; [done|]. split; [done|]. split; congruence.
    + destruct want; [|cbn in Hl; lia]. exists s. by rewrite app_nil_r.
Qed.

Lemma RecvExact_ok s want rest : arrives s (want ++ rest) -> (N.of_nat (length want) < two31)%N ->
  exists s', RecvExact (length want) s = (Ret want, s') /\ arrives s' rest /\ same_sending s s'.
Proof. intros Ha H. apply (recv_loop_ok (length want) (length want) []); [done|done|lia|done]. Qed.

Lemma recv_loop_short fuel len out s bs :
  arrives s bs -> (length out + length bs < len)%nat -> (length bs < fuel)%nat -> (N.of_nat len < two31)%N ->
  (recv_loop fuel len out s).1 = Throw read_failed.
Proof.
  revert out s bs. induction fuel as [|f IH]; intros out s bs Ha Hl Hf H31; [lia|].
  cbn [recv_loop]. rewrite decide_True by lia. unfold int_length.
  destruct (N.ltb_spec (N.of_nat (len - length out)) two31); [|lia]. st_steps.
  destruct bs as [|a bs].
  - destruct Ha as [Hne Hc]. unfold mbind, ST_bind, recv.
    destruct (incoming s) as [|[|x c] cs]; [done|by inversion Hne|done].
  - destruct (recv_some s (len - length out) a bs Ha ltac:(lia)) as (c & s1 & E & Hc & Hcl & _ & bs' & Hbs & Ha').
    rewrite (run_bind _ _ _ _ _ E). destruct c as [|x c]; [done|].
    pose proof (f_equal length Hbs) as Hw. rewrite length_app in Hw. cbn in Hw, Hl, Hf.
    apply (IH _ _ bs'); [done| |lia|done]. rewrite length_app. cbn. lia.
Qed.

Lemma RecvExact_short s len bs : arrives s bs -> (length bs < len)%nat -> (N.of_nat len < two31)%N ->
  (RecvExact len s).1 = Throw read_failed.
Proof. intros Ha Hl H. by apply (recv_loop_short _ _ _ _ bs). Qed.

(** Sending succeeds when every call takes at least one byte and there are enough calls. *)
Definition can_send (n : nat) (s : sock) : Prop := Forall (fun k => 0 < k)%nat (accepts s) /\ (n <= length (accepts s))%nat.

Lemma send_loop_ok fuel data s n :
  (length data <= fuel)%nat -> (N.of_nat (length data) < two31)%N -> can_send (length data + n) s ->
  exists s', send_loop fuel data s = (Ret tt, s') /\ outgoing s' = outgoing s ++ data /\
    incoming s' = incoming s /\ can_send n s'.
Proof.
  revert data s. induction fuel as [|f IH]; intros data s Hf H31 [Hpos Hn].
  - destruct data; [|cbn in Hf; lia]. exists s. cbn in *. rewrite app_nil_r. split; [done|]. split; [done|]. split; [done|]. split; [done|lia].
  - cbn [send_loop]. destruct data as [|a data].
    { exists s. cbn in *. rewrite app_nil_r. split; [done|]. split; [done|]. split; [done|]. split; [done|lia]. }
    unfold int_length. destruct (N.ltb_spec (N.of_nat (length (a :: data))) two31); [|lia]. st_steps.
    destruct (accepts s) as [|k ks] eqn:Ek; [cbn in Hn; lia|]. apply Forall_cons in Hpos as [Hk Hpos].
    set (m := Nat.min k (length (a :: data))).
    assert (Hm : (0 < m <= length (a :: data))%nat) by (unfold m; cbn; lia).
    assert (E : send (a :: data) s =
      (Ret m, {| incoming := incoming s; accepts := ks; outgoing := outgoing s ++ take m (a :: data) |})).
    { unfold send. by rewrite Ek. }
    rewrite (run_bind _ _ _ _ _ E). clear E. clearbody m. destruct m as [|m]; [lia|].
    destruct (IH (drop (S m) (a :: data)) {| incoming := incoming s; accepts := ks; outgoing := outgoing s ++ take (S m) (a :: data) |})
      as (s' & E' & Ho & Hi & Hs).
    { rewrite length_drop. cbn in *. lia. }
    { rewrite length_drop. cbn in *. lia. }
    { split; [done|]. rewrite length_drop. cbn in *. lia. }
    exists s'. split; [done|]. split; [|done]. rewrite Ho. cbn [outgoing]. by rewrite <- app_assoc, take_drop.
Qed.

Lemma SendExact_ok data s n : (N.of_nat (length data) < two31)%N -> can_send (length data + n) s ->
  exists s', SendExact data s = (Ret tt, s') /\ outgoing s' = outgoing s ++ data /\
    incoming s' = incoming s /\ can_send n s'.
Proof. intros H1 H2. by apply send_loop_ok. Qed.

(** A frame on the wire. *)
Definition frame (body : bytes) : bytes := string_bytes body.
Definition frameable (body : bytes) : Prop := (N.of_nat (length body) < two31)%N.

Lemma frameable_fits body : frameable body -> fits32 body.
Proof. unfold frameable, fits32, two31, two32. lia. Qed.

Lemma size32_frameable body : frameable body -> size32 body = N.of_nat (length body).
Proof. intros H. by apply size32_small, frameable_fits. Qed.

Lemma Write_frame body s n : frameable body -> can_send (length (frame body) + n) s ->
  exists s', WriteFramedMessage body s = (Ret tt, s') /\ outgoing s' = outgoing s ++ frame body /\
    incoming s' = incoming s /\ can_send n s'.
Proof.
  intros Hb Hs. unfold WriteFramedMessage. unfold frame, string_bytes in *.
  rewrite length_app, <- Nat.add_assoc in Hs.
  destruct (SendExact_ok (le_bytes 4 (size32 body)) s (length body + n)) as (s1 & E1 & O1 & I1 & S1);
    [rewrite length_le_bytes; done|done|].
  rewrite (run_bind _ _ _ _ _ E1). rewrite (size32_frameable _ Hb), Nat2N.id, take_ge by lia.
  rewrite (size32_frameable _ Hb) in O1.
  destruct (N.ltb_spec 0 (N.of_nat (length body))).
  - destruct (SendExact_ok body s1 n Hb S1) as (s2 & E2 & O2 & I2 & S2).
    exists s2. rewrite O2, O1, <- app_assoc. split; [done|]. split; [done|]. split; [congruence|done].
  - destruct body; [|cbn in *; lia]. exists s1. rewrite app_nil_r. split; [done|]. split; [done|]. split; [done|exact S1].
Qed.

Lemma Read_frame body s rest : frameable body -> arrives s (frame body ++ rest) ->
  exists s', ReadFramedMessage s = (Ret body, s') /\ arrives s' rest /\ same_sending s s'.
Proof.
  intros Hb Ha. unfold ReadFramedMessage. unfold frame, string_bytes in Ha. rewrite <- app_assoc in Ha.
  destruct (RecvExact_ok s (le_bytes 4 (size32 body)) (body ++ rest) Ha) as (s1 & E1 & A1 & [H1 H2]).
  { by rewrite length_le_bytes. }
  rewrite length_le_bytes in E1. rewrite (run_bind _ _ _ _ _ E1). cbv zeta.
  rewrite (le_val_small 4) by (rewrite (size32_frameable _ Hb); unfold frameable, two31 in Hb; cbn; lia).
  rewrite (size32_frameable _ Hb), Nat2N.id. destruct (Nat.ltb_spec 0 (length body)).
  - destruct (RecvExact_ok s1 body rest A1 Hb) as (s2 & E2 & A2 & [H3 H4]).
    exists s2. split; [done|]. split; [done|]. split; congruence.
  - destruct body; [|cbn in *; lia]. by exists s1.
Qed.

(** Reading and writing several messages on one connection. *)
Fixpoint read_all (n : nat) : ST sock (list bytes) :=
  match n with
  | O => mret []
  | S n' => b ← ReadFramedMessage; bs ← read_all n'; mret (b :: bs)
  end.

(** ** Properties *)

(** C30: messages written to one end of a connection are read at the other end one by one, exactly
    as they were written, however the stream was cut into pieces on the way. *)
Theorem framing_round_trip bodies w r rest :
  Forall frameable bodies -> can_send (length (concat (map frame bodies))) w ->
  let '(o, w') := st_for bodies WriteFramedMessage w in
  o = Ret tt /\
  (outgoing w = [] -> arrives r (outgoing w' ++ rest) ->
   exists r', read_all (length bodies) r = (Ret bodies, r') /\ arrives r' rest).
Proof.
  intros Hb Hw.
  assert (Hwrite : exists w', st_for bodies WriteFramedMessage w = (Ret tt, w') /\
    outgoing w' = outgoing w ++ concat (map frame bodies)).
  { rewrite <- (Nat.add_0_r (length _)) in Hw. revert Hw. generalize 0%nat as n. revert w. clear r rest.
    induction Hb as [|b bs Hb Hbs IH]; intros w n Hw.
    - exists w. cbn. by rewrite app_nil_r.
    - cbn [map concat] in Hw. rewrite length_app, <- Nat.add_assoc in Hw.
      destruct (Write_frame b w _ Hb Hw) as (w1 & E1 & O1 & _ & S1). destruct (IH w1 n S1) as (w2 & E2 & O2).
      exists w2. cbn [st_for]. rewrite (run_bind _ _ _ _ _ E1). rewrite O2, O1, <- app_assoc. done. }
  destruct Hwrite as (w' & E & Ho). rewrite E. split; [done|]. rewrite Ho. intros ->. cbn [app].
  clear Hw E Ho w w'. revert r. induction Hb as [|b bs Hb Hbs IH]; intros r Hr; [by exists r|].
  cbn [map concat] in Hr. rewrite <- app_assoc in Hr.
  destruct (Read_frame b r _ Hb Hr) as (r1 & E1 & A1 & _). destruct (IH r1 A1) as (r2 & E2 & A2).
  exists r2. cbn [length read_all]. rewrite (run_bind _ _ _ _ _ E1), (run_bind _ _ _ _ _ E2). done.
Qed.

(** A message whose bytes stop anywhere before its end is refused with an exception: a reader
    never returns part of a message. *)
Theorem cut_frame_refused body s n :
  frameable body -> (n < length (frame body))%nat -> arrives s (take n (frame body)) ->
  (ReadFramedMessage s).1 = Throw read_failed.
Proof.
  intros Hb Hn Ha. unfold ReadFramedMessage. unfold frame, string_bytes in *.
  rewrite length_app, length_le_bytes in Hn. destruct (decide (n < 4)%nat) as [Hlt|Hge].
  - unfold mbind, ST_bind.
    assert (E : (RecvExact 4 s).1 = Throw read_failed).
    { eapply RecvExact_short; [exact Ha| |done]. rewrite length_take, length_app, length_le_bytes. lia. }
    destruct (RecvExact 4 s) as [[a|e|] s']; cbn in E |- *; congruence.
  - rewrite take_app_ge in Ha by (rewrite length_le_bytes; lia). rewrite length_le_bytes in Ha.
    destruct (RecvExact_ok s _ _ Ha) as (s1 & E1 & A1 & _); [by rewrite length_le_bytes|].
    rewrite length_le_bytes in E1. rewrite (run_bind _ _ _ _ _ E1). cbv zeta.
    rewrite (le_val_small 4) by (rewrite (size32_frameable _ Hb); unfold frameable, two31 in Hb; cbn; lia).
    rewrite (size32_frameable _ Hb), Nat2N.id. destruct (Nat.ltb_spec 0 (length body)); [|lia].
    eapply RecvExact_short; [exact A1| |done]. rewrite length_take. lia.
Qed.

(** A remote call through an established connection returns what the handler answered for
    exactly the request that was sent, and the handler runs once. *)
Theorem rpc_delivers {St} (handler : bytes -> ST St bytes) request response c v st st' :
  frameable request -> frameable response ->
  handler request st = (Ret response, st') ->
  can_send (length (frame request)) c -> can_send (length (frame response)) v -> outgoing c = [] -> outgoing v = [] ->
  arrives v (frame request) ->
  let '(o, (v', s')) := serve_connection handler (v, st) in
  o = Ret tt /\ s' = st' /\
  (arrives c (outgoing v') ->
   exists c', exchange request c = (Ret response, c') /\ outgoing c' = frame request).
Proof.
  intros Hreq Hresp Hh Hc Hv Oc Ov Av.
  rewrite <- (app_nil_r (frame request)) in Av.
  destruct (Read_frame request v [] Hreq Av) as (v1 & E1 & _ & [K1 K2]).
  assert (Hv1 : can_send (length (frame response) + 0) v1) by (unfold can_send in *; by rewrite K1, Nat.add_0_r).
  destruct (Write_frame response v1 0 Hresp Hv1) as (v2 & E2 & O2 & _).
  unfold serve_connection, st_catch, on_socket, on_server, mbind, ST_bind. cbn [fst snd].
  rewrite E1. cbn [fst snd]. rewrite Hh. cbn [fst snd]. rewrite E2. split; [done|]. split; [done|].
  rewrite O2, K2, Ov. cbn [app]. intros Ac.
  rewrite <- (Nat.add_0_r (length _)) in Hc.
  destruct (Write_frame request c 0 Hreq Hc) as (c1 & F1 & P1 & I1 & _).
  assert (Ac1 : arrives c1 (frame response ++ [])) by (unfold arrives in *; by rewrite I1, app_nil_r).
  destruct (Read_frame response c1 [] Hresp Ac1) as (c2 & F2 & _ & [_ P2]).
  exists c2. unfold exchange. rewrite (run_bind _ _ _ _ _ F1), F2.
  split; [done|]. by rewrite P2, P1, Oc.
Qed.

(** ** Witnesses *)

Definition demo_sock (chunks : list bytes) : sock :=
  {| incoming := chunks; accepts := replicate 40 3%nat; outgoing := [] |}.

Lemma demo_can_send n chunks : (n <= 40)%nat -> can_send n (demo_sock chunks).
Proof. intros H. split; [apply Forall_replicate; lia|]. cbn [accepts demo_sock]. by rewrite length_replicate. Qed.

Definition demo_bodies : list bytes := [str "hello"; []; str "raft"].

Lemma framing_round_trip_witness :
  exists w', st_for demo_bodies WriteFramedMessage (demo_sock []) = (Ret tt, w') /\
  exists r', read_all 3 (demo_sock [take 6 (outgoing w'); drop 6 (outgoing w')]) = (Ret demo_bodies, r').
Proof.
  assert (Hf : Forall frameable demo_bodies) by (repeat constructor).
  assert (Hs : can_send (length (concat (map frame demo_bodies))) (demo_sock []))
    by (apply demo_can_send; vm_compute; lia).
  pose proof (framing_round_trip demo_bodies (demo_sock []) 
    (demo_sock (let o := outgoing (st_for demo_bodies WriteFramedMessage (demo_sock [])).2 in [take 6 o; drop 6 o])) [] Hf Hs) as H.
  destruct (st_for demo_bodies WriteFramedMessage (demo_sock [])) as [o w'] eqn:E. destruct H as [-> H].
  exists w'. split; [done|]. cbn [snd] in H. destruct H as (r' & Hr & _); [done| |by exists r'].
  split; [|cbn; by rewrite !app_nil_r, take_drop].
  vm_compute in E. injection E as <-. repeat constructor; discriminate.
Defined.

Lemma cut_frame_refused_witness :
  (ReadFramedMessage (demo_sock [take 7 (frame (str "hello"))])).1 = Throw read_failed.
Proof.
  apply (cut_frame_refused (str "hello") _ 7); [done|vm_compute; lia|].
  split; [repeat constructor; discriminate|]. reflexivity.
Defined.

Definition demo_handler (request : bytes) : ST nat bytes := fun n => (Ret (str "got " ++ request), S n).

Lemma rpc_delivers_witness :
  exists c', exchange (str "ping") (demo_sock [outgoing (serve_connection demo_handler (demo_sock [frame (str "ping")], 0%nat)).2.1]) =
    (Ret (str "got ping"), c').
Proof.
  pose proof (rpc_delivers demo_handler (str "ping") (str "got ping")
    (demo_sock [outgoing (serve_connection demo_handler (demo_sock [frame (str "ping")], 0%nat)).2.1])
    (demo_sock [frame (str "ping")]) 0%nat 1%nat eq_refl eq_refl eq_refl) as H.
  destruct (serve_connection demo_handler (demo_sock [frame (str "ping")], 0%nat)) as [o [v' s']] eqn:E.
  vm_compute in E. injection E as <- <- <-.
  destruct H as (_ & _ & H);
    [apply demo_can_send; vm_compute; lia|apply demo_can_send; vm_compute; lia|done|done|split; [by repeat constructor|done]|].
  destruct H as (c' & Hc & _); [split; [repeat constructor; discriminate|reflexivity]|]. by exists c'.
Defined.
