(* ===== verification/Sockets.v ===== *)
(** * Sockets: opening, connecting, closing ([src/raft/transport.cpp])

    The operating system keeps descriptors; its answers -- which descriptor [socket] gives, whether
    an address parses, a peer answers in time, a port is free -- are inputs.  A call on a
    descriptor that is not open, or that reads or writes one in non-blocking mode, is [Undef], so
    that what returns or throws has used its descriptors well.  The limits record how long each
    call that waits can wait at most. *)

From Stdlib Require Import NArith Lia.
From stdpp Require Import fin_maps fin_sets fin_map_dom.
From S2P Require Export Transport.

(** ** The operating system *)

(** Limits are in microseconds; [None] is no limit. *)
Record descriptor := { wire : sock; blocking : bool; rcv_timeout : option N; snd_timeout : option N }.
Record os := { fds : gmap N descriptor; limits : list (option N) }.

Definition set_fds (f : gmap N descriptor -> gmap N descriptor) (o : os) : os := {| fds := f (fds o); limits := limits o |}.
Definition waits (t : option N) (o : os) : os := {| fds := fds o; limits := limits o ++ [t] |}.

(** A descriptor that is open. *)
Definition use (s : N) : ST os descriptor := fun o =>
  match fds o !! s with Some d => (Ret d, o) | None => (Undef, o) end.
Definition change (s : N) (f : descriptor -> descriptor) : ST os unit :=
  d ← use s; st_modify (set_fds (<[s := f d]>)).

(** [socket] or [accept], when it gives [s]: a blocking descriptor without timeouts. *)
Definition fresh_descriptor (w : sock) : descriptor := {| wire := w; blocking := true; rcv_timeout := None; snd_timeout := None |}.
Definition open_descriptor (s : N) (w : sock) : ST os unit := st_modify (set_fds (<[s := fresh_descriptor w]>)).

Definition CloseNative (s : N) : ST os unit := _ ← use s; st_modify (set_fds (delete s)).

(** [timeval{timeout_ms / 1000, (timeout_ms % 1000) * 1000}]: seconds and microseconds. *)
Definition timeval (timeout_ms : N) : N * N := (timeout_ms / 1000, (timeout_ms mod 1000) * 1000)%N.
Definition microseconds (tv : N * N) : N := (tv.1 * 1000000 + tv.2)%N.

(** [setsockopt] with [SO_RCVTIMEO] or [SO_SNDTIMEO]; zero is no timeout. *)
Definition time_limit (tv : N * N) : option N := if (microseconds tv =? 0)%N then None else Some (microseconds tv).
Definition SetTimeout (s timeout_ms : N) : ST os unit :=
  let timeout := timeval timeout_ms in
  _ ← change s (fun d => {| wire := wire d; blocking := blocking d; rcv_timeout := time_limit timeout; snd_timeout := snd_timeout d |});
  change s (fun d => {| wire := wire d; blocking := blocking d; rcv_timeout := rcv_timeout d; snd_timeout := time_limit timeout |}).

Definition SetBlocking (s : N) (b : bool) : ST os unit :=
  change s (fun d => {| wire := wire d; blocking := b; rcv_timeout := rcv_timeout d; snd_timeout := snd_timeout d |}).

(** [send] and [recv] calls on the stream: each waits at most for the timeout of its direction. *)
Definition on_wire {A} (s : N) (timeout : descriptor -> option N) (m : ST sock A) : ST os A :=
  d ← use s;
  if negb (blocking d) then st_lift Undef else
  _ ← st_modify (waits (timeout d));
  let '(r, w) := m (wire d) in
  _ ← st_modify (set_fds (<[s := {| wire := w; blocking := blocking d; rcv_timeout := rcv_timeout d; snd_timeout := snd_timeout d |}]>));
  st_lift r.

(** What [connect] on a non-blocking socket answers: done, under way, or refused. *)
Inductive connecting := Connected | InProgress | Refused.

(** What the system answers to one call of [SendRequest]: the descriptor and the stream behind it
    if there is one, whether the address parses, the answer of [connect], whether [select] finds
    the socket writable in time, and whether [SO_ERROR] is 0 then. *)
Record answers := {
  an_socket : option (N * sock);
  an_address : bool;
  an_connect : connecting;
  an_ready : bool;
  an_no_error : bool;
}.

(** [connect] waits for as long as it takes on a blocking socket. *)
Definition sys_connect (a : answers) (s : N) : ST os connecting :=
  d ← use s; _ ← st_modify (waits (if blocking d then None else Some 0%N)); mret (an_connect a).

(** [FD_SET] and [select]: an [fd_set] has room for the descriptors below [FD_SETSIZE] only. *)
Definition fd_setsize : N := 1024.
Definition sys_select (a : answers) (s : N) (tv : N * N) : ST os bool :=
  _ ← use s;
  if (fd_setsize <=? s)%N then st_lift Undef
  else _ ← st_modify (waits (Some (microseconds tv))); mret (an_ready a).

Definition ConnectWithTimeout (a : answers) (s timeout_ms : N) : ST os bool :=
  _ ← SetBlocking s false;
  rc ← sys_connect a s;
  match rc with
  | Connected => _ ← SetBlocking s true; mret true
  | Refused => mret false
  | InProgress =>
    ready ← sys_select a s (timeval timeout_ms);
    if negb ready then mret false
    else _ ← SetBlocking s true; mret (an_no_error a)
  end.

(** ** [RaftTransport::SendRequest] *)

Definition no_socket : exn := RuntimeError (str "failed to create client socket").
Definition bad_address (host : bytes) : exn := RuntimeError (str "invalid host address: " ++ host).
Definition not_connected (host : bytes) (port timeout_ms : N) : exn :=
  RuntimeError (str "failed to connect to " ++ host ++ str ":" ++ to_string port ++ str " within " ++ to_string timeout_ms ++ str "ms").

Definition SendRequest (a : answers) (host : bytes) (port : N) (request_body : bytes) (timeout_ms : N) : ST os bytes :=
  match an_socket a with
  | None => st_throw no_socket
  | Some (s, w) =>
    _ ← open_descriptor s w;
    _ ← SetTimeout s timeout_ms;
    if negb (an_address a) then _ ← CloseNative s; st_throw (bad_address host)
    else
      connected ← ConnectWithTimeout a s timeout_ms;
      if negb connected then _ ← CloseNative s; st_throw (not_connected host port timeout_ms)
      else
        st_catch
          (_ ← on_wire s snd_timeout (WriteFramedMessage request_body);
           response ← on_wire s rcv_timeout ReadFramedMessage;
           _ ← CloseNative s;
           mret response)
          (fun e => _ ← CloseNative s; st_throw e)
  end.

(** ** What [SendRequest] does to its descriptor *)

(** Descriptor [s] is open besides those of [F]. *)
Definition with_open (F : gmap N descriptor) (s : N) (d : descriptor) (l : list (option N)) : os :=
  {| fds := <[s := d]> F; limits := l |}.

Lemma change_run F s d l f : change s f (with_open F s d l) = (Ret tt, with_open F s (f d) l).
Proof.
  unfold change, use, mbind, ST_bind. cbn. rewrite lookup_insert_eq. unfold st_modify, set_fds, with_open. cbn. by rewrite insert_insert_eq.
Qed.

Lemma close_run F s d l : F !! s = None -> CloseNative s (with_open F s d l) = (Ret tt, {| fds := F; limits := l |}).
Proof.
  intros Hs. unfold CloseNative, use, mbind, ST_bind. cbn. rewrite lookup_insert_eq. unfold st_modify, set_fds. cbn. by rewrite delete_insert_id.
Qed.

Definition with_wire (w : sock) (d : descriptor) : descriptor :=
  {| wire := w; blocking := blocking d; rcv_timeout := rcv_timeout d; snd_timeout := snd_timeout d |}.

Lemma on_wire_run {A} F s d l timeout (m : ST sock A) : blocking d = true ->
  on_wire s timeout m (with_open F s d l) = ((m (wire d)).1, with_open F s (with_wire (m (wire d)).2 d) (l ++ [timeout d])).
Proof.
  intros Hb. unfold on_wire, use, mbind, ST_bind. cbn. rewrite lookup_insert_eq, Hb. cbn. destruct (m (wire d)) as [r w].
  unfold st_modify, set_fds, waits, st_lift. cbn. unfold with_open, with_wire. by rewrite insert_insert_eq, Hb.
Qed.

(** Both timeouts set, and nothing in the way of a blocking call. *)
Definition timed (w : sock) (b : bool) (timeout_ms : N) : descriptor :=
  {| wire := w; blocking := b; rcv_timeout := time_limit (timeval timeout_ms); snd_timeout := time_limit (timeval timeout_ms) |}.

Lemma SetTimeout_run F s w l timeout_ms :
  SetTimeout s timeout_ms (with_open F s (fresh_descriptor w) l) = (Ret tt, with_open F s (timed w true timeout_ms) l).
Proof. unfold SetTimeout. rewrite (run_bind _ _ _ _ _ (change_run F s _ l _)). apply change_run. Qed.

(** The calls of one request that may wait, wait for [timeout_ms] at most. *)
Definition within (timeout_ms : N) (t : option N) : Prop := exists u, t = Some u /\ (u <= timeout_ms * 1000)%N.

Lemma timeval_exact timeout_ms : microseconds (timeval timeout_ms) = (timeout_ms * 1000)%N.
Proof. unfold microseconds, timeval. cbn [fst snd]. pose proof (N.div_mod' timeout_ms 1000). lia. Qed.

Lemma time_limit_within timeout_ms : (0 < timeout_ms)%N -> within timeout_ms (time_limit (timeval timeout_ms)).
Proof.
  intros Hpos. unfold time_limit. rewrite timeval_exact. destruct (N.eqb_spec (timeout_ms * 1000) 0); [lia|]. by eexists.
Qed.

(** Whether the connection is there in the end. *)
Definition established (a : answers) : bool :=
  match an_connect a with Connected => true | InProgress => an_ready a && an_no_error a | Refused => false end.

Lemma sys_connect_run a F s w l timeout_ms :
  sys_connect a s (with_open F s (timed w false timeout_ms) l) = (Ret (an_connect a), with_open F s (timed w false timeout_ms) (l ++ [Some 0%N])).
Proof. unfold sys_connect, use, mbind, ST_bind. cbn. by rewrite lookup_insert_eq. Qed.

Lemma sys_select_run a F s d l tv : (s < fd_setsize)%N ->
  sys_select a s tv (with_open F s d l) = (Ret (an_ready a), with_open F s d (l ++ [Some (microseconds tv)])).
Proof.
  intros Hs. unfold sys_select, use, mbind, ST_bind. cbn. rewrite lookup_insert_eq. by destruct (N.leb_spec fd_setsize s); [lia|].
Qed.

(** Connecting does not wait for longer than it may, and leaves a socket that is established in
    blocking mode. *)
Lemma ConnectWithTimeout_run a F s w l timeout_ms : (s < fd_setsize)%N -> exists b l',
  ConnectWithTimeout a s timeout_ms (with_open F s (timed w true timeout_ms) l) =
    (Ret (established a), with_open F s (timed w b timeout_ms) (l ++ l')) /\
  (established a = true -> b = true) /\ Forall (within timeout_ms) l'.
Proof.
  intros Hs. unfold ConnectWithTimeout, SetBlocking, established. rewrite (run_bind _ _ _ _ _ (change_run F s _ l _)).
  change (with_open F s _ l) with (with_open F s (timed w false timeout_ms) l) at 1.
  rewrite (run_bind _ _ _ _ _ (sys_connect_run a F s w l timeout_ms)).
  assert (H0 : within timeout_ms (Some 0%N)) by (exists 0%N; split; [done|lia]).
  destruct (an_connect a).
  - rewrite (run_bind _ _ _ _ _ (change_run F s _ _ _)). exists true, [Some 0%N]. by split_and!; [..|constructor].
  - rewrite (run_bind _ _ _ _ _ (sys_select_run a F s _ _ _ Hs)), timeval_exact, <- app_assoc. cbn [app].
    assert (H1 : Forall (within timeout_ms) [Some 0%N; Some (timeout_ms * 1000)%N]) by (constructor; [done|constructor; [|done]; by eexists]).
    destruct (an_ready a); cbn [negb andb].
    + rewrite (run_bind _ _ _ _ _ (change_run F s _ _ _)). by exists true, [Some 0%N; Some (timeout_ms * 1000)%N].
    + by exists false, [Some 0%N; Some (timeout_ms * 1000)%N].
  - exists false, [Some 0%N]. by split_and!; [..|constructor].
Qed.

(** The exchange on an established connection; the socket is closed when it ends in any way. *)
Definition talk (s : N) (body : bytes) : ST os bytes :=
  st_catch
    (_ ← on_wire s snd_timeout (WriteFramedMessage body);
     response ← on_wire s rcv_timeout ReadFramedMessage;
     _ ← CloseNative s;
     mret response)
    (fun e => _ ← CloseNative s; st_throw e).

Lemma talk_run F s w l timeout_ms body : F !! s = None -> (0 < timeout_ms)%N -> exists o' l',
  talk s body (with_open F s (timed w true timeout_ms) l) = ((exchange body w).1, o') /\ limits o' = l ++ l' /\
  Forall (within timeout_ms) l' /\ ((exchange body w).1 <> Undef -> fds o' = F).
Proof.
  intros Hs Hpos. pose proof (time_limit_within timeout_ms Hpos) as Hw. 
  assert (Ex : exchange body w = match WriteFramedMessage body w with
    | (Ret _, w1) => ReadFramedMessage w1 | (Throw e, w1) => (Throw e, w1) | (Undef, w1) => (Undef, w1) end) by done.
  rewrite Ex. clear Ex. unfold talk, st_catch. unfold mbind at 1, ST_bind at 1.
  rewrite on_wire_run by done. cbn [wire timed snd_timeout].
  destruct (WriteFramedMessage body w) as [[[]|e|] w1]; cbn [fst snd].
  - unfold mbind at 1, ST_bind at 1. rewrite on_wire_run by done. cbn [wire with_wire timed rcv_timeout].
    rewrite <- app_assoc. set (t := time_limit _) in *. assert (H2 : Forall (within timeout_ms) [t; t]) by by repeat constructor.
    destruct (ReadFramedMessage w1) as [[r|e|] w2]; cbn [fst snd].
    + rewrite (run_bind _ _ _ _ _ (close_run F s _ _ Hs)). eexists _, [t; t]. by split_and!.
    + rewrite (run_bind _ _ _ _ _ (close_run F s _ _ Hs)). eexists _, [t; t]. by split_and!.
    + eexists _, [t; t]. by split_and!.
  - rewrite (run_bind _ _ _ _ _ (close_run F s _ _ Hs)). eexists _, [_]. by split_and!; [..|constructor|].
  - eexists _, [_]. by split_and!; [..|constructor|].
Qed.

(** ** Listening *)

Definition port_error (what : bytes) (listen_port : N) : exn := RuntimeError (what ++ to_string listen_port).

(** [RaftTransport::RaftTransport]: the listening socket.  Whether [bind] and [listen] succeed are
    inputs, as is the descriptor. *)
Definition listen_on (sock : option N) (bound listens : bool) (listen_port : N) : ST os N :=
  match sock with
  | None => st_throw (RuntimeError (str "failed to create listening socket"))
  | Some s =>
    _ ← open_descriptor s {| incoming := []; accepts := []; outgoing := [] |};
    if negb bound then _ ← CloseNative s; st_throw (port_error (str "failed to bind to port ") listen_port)
    else if negb listens then _ ← CloseNative s; st_throw (port_error (str "failed to listen on port ") listen_port)
    else mret s
  end.

(** A transport that cannot listen leaves nothing open. *)
Lemma listen_on_spec sock bound listens listen_port o : (forall s, sock = Some s -> fds o !! s = None) ->
  let '(r, o') := listen_on sock bound listens listen_port o in
  match r with
  | Ret s => sock = Some s /\ exists w, fds o' = <[s := fresh_descriptor w]> (fds o)
  | Throw _ => fds o' = fds o
  | Undef => False
  end.
Proof.
  intros Hfree. unfold listen_on. destruct sock as [s|]; [|done]. specialize (Hfree s eq_refl). unfold open_descriptor. rewrite run_modify.
  set (w := {| incoming := _; accepts := _; outgoing := _ |}).
  change (set_fds (<[s := fresh_descriptor w]>) o) with (with_open (fds o) s (fresh_descriptor w) (limits o)).
  destruct bound; cbn [negb]; [|by rewrite (run_bind _ _ _ _ _ (close_run _ s _ _ Hfree))].
  destruct listens; cbn [negb]; [|by rewrite (run_bind _ _ _ _ _ (close_run _ s _ _ Hfree))]. split; [done|by exists w].
Qed.

Section server.
Context {St : Type} (handler : bytes -> ST St bytes).

(** Where the thread of a connection is. *)
Inductive phase := Reading | Handling (request : bytes) | Writing (response : bytes) | Closing.

(** The process around a transport: [listening] is the listening descriptor while it is open,
    [accepting] whether the accept thread runs, [elsewhere] the descriptors that other parts of the
    process have open. *)
Record transport := {
  system : os;
  listening : option N;
  stop_ : bool;
  accepting : bool;
  conns : gmap N phase;
  app : St;
  elsewhere : gset N;
}.
Implicit Types (x : transport).

Definition in_phase (s : N) (p : phase) (o : os) (st : St) x : transport :=
  {| system := o; listening := listening x; stop_ := stop_ x; accepting := accepting x; conns := <[s := p]> (conns x); app := st;
     elsewhere := elsewhere x |}.

Definition ours x : gset N := from_option (fun l => {[l]}) ∅ (listening x) ∪ dom (conns x).

(** What happens: [AcceptLoop] takes a connection or ends, the thread of a connection does its
    next call ([catch (...)] leads to [CloseNative(conn)]), [~RaftTransport] sets the flag and then
    closes the listening socket -- the loop may be in [accept] meanwhile --, or other parts of the
    process open and close descriptors of theirs. *)
Inductive server_step x : transport -> Prop :=
| accept_one s w : accepting x = true -> listening x <> None -> fds (system x) !! s = None ->
    server_step x (in_phase s Reading (set_fds (<[s := fresh_descriptor w]>) (system x)) (app x) x)
| accept_ends : accepting x = true -> stop_ x = true ->
    server_step x {| system := system x; listening := listening x; stop_ := true; accepting := false; conns := conns x; app := app x;
      elsewhere := elsewhere x |}
| thread_reads s r o : conns x !! s = Some Reading -> on_wire s rcv_timeout ReadFramedMessage (system x) = (r, o) -> r <> Undef ->
    server_step x (in_phase s (match r with Ret request => Handling request | _ => Closing end) o (app x) x)
| thread_handles s request r st : conns x !! s = Some (Handling request) -> handler request (app x) = (r, st) -> r <> Undef ->
    server_step x (in_phase s (match r with Ret response => Writing response | _ => Closing end) (system x) st x)
| thread_writes s response r o : conns x !! s = Some (Writing response) ->
    on_wire s snd_timeout (WriteFramedMessage response) (system x) = (r, o) -> r <> Undef ->
    server_step x (in_phase s Closing o (app x) x)
| thread_closes s o : conns x !! s = Some Closing -> CloseNative s (system x) = (Ret tt, o) ->
    server_step x {| system := o; listening := listening x; stop_ := stop_ x; accepting := accepting x; conns := delete s (conns x);
      app := app x; elsewhere := elsewhere x |}
| destroy_stops : server_step x {| system := system x; listening := listening x; stop_ := true; accepting := accepting x; conns := conns x;
    app := app x; elsewhere := elsewhere x |}
| destroy_closes l o : stop_ x = true -> listening x = Some l -> CloseNative l (system x) = (Ret tt, o) ->
    server_step x {| system := o; listening := None; stop_ := true; accepting := accepting x; conns := conns x; app := app x;
      elsewhere := elsewhere x |}
| others_act o F : dom (fds o) = F ∪ ours x -> F ## ours x -> (forall s, s ∈ ours x -> fds o !! s = fds (system x) !! s) ->
    server_step x {| system := o; listening := listening x; stop_ := stop_ x; accepting := accepting x; conns := conns x; app := app x;
      elsewhere := F |}.

(** Just constructed, by [listen_on], and served. *)
Definition starts (l : N) x : Prop :=
  listening x = Some l /\ conns x = ∅ /\ dom (fds (system x)) = elsewhere x ∪ {[l]} /\ l ∉ elsewhere x.

(** What is open is what is in use; connections are in blocking mode. *)
Record balanced x : Prop := {
  ba_open : dom (fds (system x)) = elsewhere x ∪ ours x;
  ba_elsewhere : elsewhere x ## ours x;
  ba_listening l : listening x = Some l -> conns x !! l = None;
  ba_blocking s : is_Some (conns x !! s) -> exists d, fds (system x) !! s = Some d /\ blocking d = true;
}.

Lemma starts_balanced l x : starts l x -> balanced x.
Proof.
  intros (El & Ec & Ed & Hl). split; unfold ours; rewrite ?El, ?Ec, ?dom_empty_L; cbn.
  - by rewrite Ed, union_empty_r_L.
  - set_solver.
  - intros l' _. apply lookup_empty.
  - intros s. rewrite lookup_empty. by intros [? ?].
Qed.

Lemma on_wire_open {A} s timeout (m : ST sock A) o d : fds o !! s = Some d -> blocking d = true ->
  on_wire s timeout m o = ((m (wire d)).1, {| fds := <[s := with_wire (m (wire d)).2 d]> (fds o); limits := limits o ++ [timeout d] |}).
Proof.
  intros Hs Hb. assert (Eo : o = with_open (fds o) s d (limits o)) by (unfold with_open; rewrite insert_id by done; by destruct o).
  rewrite Eo, on_wire_run by done. unfold with_open. cbn. by rewrite insert_insert_eq.
Qed.

Lemma close_open s o d : fds o !! s = Some d -> CloseNative s o = (Ret tt, set_fds (delete s) o).
Proof. intros Hs. unfold CloseNative, use, mbind, ST_bind. by rewrite Hs. Qed.

(** The thread of a connection goes on: its descriptor stays open, or is exchanged for itself. *)
Lemma in_phase_balanced x s p p' o st : balanced x -> conns x !! s = Some p ->
  (o = system x \/ exists d l, blocking d = true /\ o = {| fds := <[s := d]> (fds (system x)); limits := l |}) -> balanced (in_phase s p' o st x).
Proof.
  intros [B1 B2 B3 B4] Hs Ho. assert (Hin : s ∈ dom (conns x)) by by eapply elem_of_dom_2.
  assert (Eo : ours (in_phase s p' o st x) = ours x) by (unfold ours; cbn; rewrite dom_insert_L; set_solver).
  split; rewrite ?Eo; cbn; [| |intros l Hl; rewrite lookup_insert_ne; [by apply B3|intros ->; rewrite (B3 l Hl) in Hs; done]|].
  - destruct Ho as [->|(d & l & _ & ->)]; [done|]. cbn. rewrite dom_insert_L, B1. unfold ours. set_solver.
  - done.
  - intros q Hq. assert (Hq' : is_Some (conns x !! q)).
    { destruct (decide (s = q)) as [->|Hne]; [by eexists|]. by rewrite lookup_insert_ne in Hq. }
    destruct Ho as [->|(d & l & Hd & ->)]; [by apply B4|]. cbn. destruct (decide (s = q)) as [->|Hne]; [rewrite lookup_insert_eq; by eexists|].
    rewrite lookup_insert_ne by done. by apply B4.
Qed.

Lemma balanced_split x : balanced x -> exists L, L = from_option (fun l => {[l]}) (∅ : gset N) (listening x) /\
  L ## dom (conns x) /\ dom (fds (system x)) = elsewhere x ∪ (L ∪ dom (conns x)) /\ elsewhere x ## L ∪ dom (conns x).
Proof.
  intros [B1 B2 B3 _]. eexists. split; [reflexivity|]. split_and!; [|done|done]. destruct (listening x) as [l|] eqn:El; cbn; [|set_solver].
  specialize (B3 l eq_refl). apply not_elem_of_dom in B3. set_solver.
Qed.

Lemma step_balanced x x' : balanced x -> server_step x x' -> balanced x'.
Proof.
  intros Hb Hstep. assert (Hb' := Hb). destruct Hb' as [B1 B2 B3 B4].
  destruct Hstep as [s w _ _ Hfree| |s r o Hs Ho _|s request r st Hs _ _|s response r o Hs Ho _|s o Hs Ho| |l o _ El Ho|o F Hd HF Hsame].
  - assert (Hn : s ∉ dom (fds (system x))) by by apply not_elem_of_dom. rewrite B1 in Hn.
    assert (Hs : s ∉ ours x) by set_solver. unfold ours in Hs.
    split; unfold ours; cbn; rewrite ?dom_insert_L, ?B1; [unfold ours; set_solver|unfold ours in *; set_solver| |].
    + intros l Hl. rewrite lookup_insert_ne; [by apply B3|]. intros ->. rewrite Hl in Hs. set_solver.
    + intros q Hq. destruct (decide (s = q)) as [->|Hne]; [rewrite lookup_insert_eq; by eexists|].
      rewrite lookup_insert_ne in Hq by done. rewrite lookup_insert_ne by done. by apply B4.
  - by split.
  - destruct (B4 s) as (d & Hd & Hbl); [by eexists|]. rewrite (on_wire_open s _ _ _ d) in Ho by done. injection Ho as <- <-.
    eapply in_phase_balanced; [done|done|right]. eexists (with_wire _ d), _. by split; [exact Hbl|].
  - eapply in_phase_balanced; [done|done|by left].
  - destruct (B4 s) as (d & Hd & Hbl); [by eexists|]. rewrite (on_wire_open s _ _ _ d) in Ho by done. injection Ho as <- <-.
    eapply in_phase_balanced; [done|done|right]. eexists (with_wire _ d), _. by split; [exact Hbl|].
  - destruct (B4 s) as (d & Hd & _); [by eexists|]. rewrite (close_open s _ d) in Ho by done. injection Ho as <-.
    destruct (balanced_split x Hb) as (L & EL & HL & Hdom & Helse). assert (Hin : s ∈ dom (conns x)) by by eapply elem_of_dom_2.
    split; unfold ours; cbn; rewrite ?dom_delete_L, <- ?EL.
    + rewrite Hdom. set_solver.
    + set_solver.
    + intros l Hl. apply lookup_delete_None. right. by apply B3.
    + intros q [p Hq]. apply lookup_delete_Some in Hq as [Hne Hq]. rewrite lookup_delete_ne by done. apply B4. by eexists.
  - by split.
  - destruct (balanced_split x Hb) as (L & EL & HL & Hdom & Helse). rewrite El in EL. cbn in EL. subst L.
    assert (Hl : is_Some (fds (system x) !! l)) by (apply elem_of_dom; rewrite Hdom; set_solver). destruct Hl as [d Hl].
    rewrite (close_open l _ d) in Ho by done. injection Ho as <-. split; unfold ours; cbn.
    + rewrite dom_delete_L, Hdom. set_solver.
    + set_solver.
    + done.
    + intros q Hq. rewrite lookup_delete_ne; [by apply B4|]. intros ->. rewrite (B3 q El) in Hq. by destruct Hq.
  - split; cbn; [done|done|done|]. intros s Hs. rewrite Hsame; [by apply B4|]. unfold ours. rewrite <- elem_of_dom in Hs. set_solver.
Qed.

(** The thread of a connection is stopped by nothing but the length of a message or the handler. *)
Definition can_go_on x (d : descriptor) (p : phase) : Prop :=
  match p with
  | Reading => (ReadFramedMessage (wire d)).1 <> Undef
  | Handling request => (handler request (app x)).1 <> Undef
  | Writing response => (WriteFramedMessage response (wire d)).1 <> Undef
  | Closing => True
  end.

Lemma goes_on x s p d : conns x !! s = Some p -> fds (system x) !! s = Some d -> blocking d = true -> can_go_on x d p ->
  exists x', server_step x x' /\ conns x' !! s <> Some p.
Proof.
  intros Hs Hd Hb Hgo. destruct p as [|request|response|]; cbn in Hgo.
  - eexists. split; [by eapply thread_reads, Hgo; [|apply (on_wire_open _ _ _ _ d)]|]. cbn. rewrite lookup_insert_eq. repeat case_match; discriminate.
  - destruct (handler request (app x)) as [r st] eqn:Eh. eexists. split; [by eapply thread_handles; [|exact Eh|exact Hgo]|].
    cbn. rewrite lookup_insert_eq. repeat case_match; discriminate.
  - eexists. split; [by eapply thread_writes, Hgo; [|apply (on_wire_open _ _ _ _ d)]|]. cbn. by rewrite lookup_insert_eq.
  - eexists. split; [by eapply thread_closes, close_open|]. cbn. by rewrite lookup_delete_eq.
Qed.
End server.

(** ** Properties *)

(** C31: a request to a peer ends, and leaves nothing open. With a positive timeout, and a
    descriptor that was not in use before and is below [FD_SETSIZE] if the system gives one: every call that may wait waits
    for [timeout_ms] at most, connecting included; whether the request is answered or fails --
    except that the exchange is undefined for messages of 2^31 bytes or more -- the descriptors
    that are open afterwards are those that were open before; and its outcome is the error of the
    step that failed or the outcome of the exchange on the established connection, which is in
    blocking mode again.  A larger descriptor is written past the end of the [fd_set]
    ([large_descriptor_undefined]). *)
Theorem SendRequest_spec a host port body timeout_ms (o : os) :
  (forall s w, an_socket a = Some (s, w) -> fds o !! s = None /\ (s < fd_setsize)%N) -> (0 < timeout_ms)%N ->
  let '(r, o') := SendRequest a host port body timeout_ms o in
  (exists l, limits o' = limits o ++ l /\ Forall (within timeout_ms) l) /\
  (r <> Undef -> fds o' = fds o) /\
  r = match an_socket a with
      | None => Throw no_socket
      | Some (_, w) =>
        if negb (an_address a) then Throw (bad_address host)
        else if negb (established a) then Throw (not_connected host port timeout_ms)
        else (exchange body w).1
      end.
Proof.
  intros Hfree Hpos. unfold SendRequest. destruct (an_socket a) as [[s w]|].
  2:{ cbn. split_and!; [|done..]. exists []. by rewrite app_nil_r. }
  destruct (Hfree s w eq_refl) as [Hs Hsize]. clear Hfree. rename Hs into Hfree. unfold open_descriptor. rewrite run_modify.
  change (set_fds (<[s := fresh_descriptor w]>) o) with (with_open (fds o) s (fresh_descriptor w) (limits o)).
  rewrite (run_bind _ _ _ _ _ (SetTimeout_run _ s w _ timeout_ms)). destruct (an_address a); cbn [negb].
  2:{ rewrite (run_bind _ _ _ _ _ (close_run _ s _ _ Hfree)). cbn. split_and!; [|done..]. exists []. by rewrite app_nil_r. }
  destruct (ConnectWithTimeout_run a (fds o) s w (limits o) timeout_ms Hsize) as (b & l & E & Hb & Hl). rewrite (run_bind _ _ _ _ _ E).
  destruct (established a); cbn [negb].
  2:{ rewrite (run_bind _ _ _ _ _ (close_run _ s _ _ Hfree)). cbn. split_and!; [by exists l|done..]. }
  rewrite (Hb eq_refl). destruct (talk_run (fds o) s w (limits o ++ l) timeout_ms body Hfree Hpos) as (o' & l' & E' & El & Hl' & Hf).
  unfold talk in E'. rewrite E'. split_and!; [|done|done]. exists (l ++ l'). rewrite El, app_assoc. split; [done|by apply Forall_app].
Qed.

(** A peer that takes its time to connect and answers; descriptor 4 is free. *)
Definition demo_answers : answers := {|
  an_socket := Some (4%N, demo_sock [frame (str "pong")]); an_address := true; an_connect := InProgress; an_ready := true; an_no_error := true |}.
Definition demo_os : os := {| fds := {[ 3%N := fresh_descriptor (demo_sock []) ]}; limits := [] |}.

Lemma SendRequest_spec_witness :
  let '(r, o') := SendRequest demo_answers (str "127.0.0.1") 7001 (str "ping") 150 demo_os in
  (exists l, limits o' = limits demo_os ++ l /\ Forall (within 150) l) /\ (r <> Undef -> fds o' = fds demo_os) /\ r = Ret (str "pong").
Proof.
  pose proof (SendRequest_spec demo_answers (str "127.0.0.1") 7001 (str "ping") 150 demo_os) as Hspec.
  destruct (SendRequest _ _ _ _ _ _) as [r o']. apply Hspec; [|reflexivity]. intros s w [= <- <-]. split; reflexivity.
Defined.

(** With a larger descriptor, as a server with many connections may have, a connection that is not
    there at once makes [FD_SET] write outside of its set. *)
Theorem large_descriptor_undefined :
  (SendRequest {| an_socket := Some (1024%N, demo_sock []); an_address := true; an_connect := InProgress; an_ready := true; an_no_error := true |}
     (str "127.0.0.1") 7001 (str "ping") 150 demo_os).1 = Undef.
Proof. vm_compute. reflexivity. Qed.

(** A transport that is being served keeps its books. Whatever connections come, their threads
    do, in any order, and the rest of the process opens and closes meanwhile: the descriptors
    that are open are the listening one until it is destroyed, one of each connection, and those of
    others, all different; a connection's thread always finds its own descriptor open and in
    blocking mode, and can go on to its end unless a message is too long or the handler is
    undefined; when the transport is destroyed and the connections have ended, nothing is left. *)
Theorem server_balanced {St} (handler : bytes -> ST St bytes) l (x0 x : transport (St := St)) :
  starts l x0 -> rtc (server_step handler) x0 x ->
  dom (fds (system x)) = elsewhere x ∪ ours x /\ elsewhere x ## ours x /\
  (listening x = None -> conns x = ∅ -> dom (fds (system x)) = elsewhere x) /\
  forall s p, conns x !! s = Some p -> listening x <> Some s /\
    exists d, fds (system x) !! s = Some d /\ blocking d = true /\
      (can_go_on handler x d p -> exists x', server_step handler x x' /\ conns x' !! s <> Some p).
Proof.
  intros H0 Hr. assert (Hb : balanced x).
  { apply starts_balanced in H0. induction Hr as [x|x1 x2 x3 H12 _ IH]; [done|]. apply IH. by eapply step_balanced. }
  split_and!; [apply Hb..| |].
  - intros El Ec. rewrite (ba_open _ Hb). unfold ours. rewrite El, Ec, dom_empty_L. cbn. by rewrite !union_empty_r_L.
  - intros s p Hs. split; [intros El; by rewrite (ba_listening _ Hb s El) in Hs|].
    destruct (ba_blocking _ Hb s) as (d & Hd & Hbl); [by eexists|]. exists d. split_and!; [done|done|]. by eapply goes_on.
Qed.

(** Listening on descriptor 3, a connection comes and its request is read. *)
Definition demo_transport : transport := {|
  system := demo_os; listening := Some 3%N; stop_ := false; accepting := true; conns := ∅; app := 0%nat; elsewhere := ∅ |}.
Definition demo_accepted : transport :=
  in_phase 4 Reading (set_fds (<[4%N := fresh_descriptor (demo_sock [frame (str "ping")])]>) demo_os) 0%nat demo_transport.

Lemma server_balanced_witness : rtc (server_step demo_handler) demo_transport demo_accepted /\
  exists d, fds (system demo_accepted) !! 4%N = Some d /\ blocking d = true /\
    exists x', server_step demo_handler demo_accepted x' /\ conns x' !! 4%N <> Some Reading.
Proof.
  assert (Hrun : rtc (server_step demo_handler) demo_transport demo_accepted).
  { apply rtc_once. apply (accept_one demo_handler demo_transport 4); [reflexivity|discriminate|reflexivity]. }
  split; [exact Hrun|]. destruct (server_balanced demo_handler 3 demo_transport demo_accepted) as (_ & _ & _ & Hall).
  - split_and!; [reflexivity|reflexivity|reflexivity|apply not_elem_of_empty].
  - exact Hrun.
  - destruct (Hall 4%N Reading) as (_ & d & Hd & Hb & Hgo); [reflexivity|]. exists d. split; [exact Hd|]. split; [exact Hb|].
    apply Hgo. vm_compute in Hd. injection Hd as <-. vm_compute. discriminate.
Defined.
