(* ===== verification/Client.v ===== *)
(** * The cluster client ([src/raft/client.h], [src/raft/client.cpp])

    [SendClientRequest], [SendReadRequest] and [DiscoverCluster] run against an interface of the
    network: a class with the clock and [RaftTransport::SendRequest] (modelled in Transport).
    What the network answers is arbitrary; the theorems that speak about reachable and
    unreachable nodes state it as a property of an instance. *)

From Stdlib Require Import NArith Lia.
From S2P Require Export Message PeerSpec.

Definition kMaxHops : nat := 4.
Definition kFailureThreshold : N := 5.
(** In milliseconds, as the clock. *)
Definition kCooldown : N := 30000.

(** [std::chrono::steady_clock::now()] and [RaftTransport::SendRequest(host, port, body,
    timeout_ms)]; both move the world on. *)
Class Network (W : Type) := {
  now : W -> N * W;
  SendRequest : bytes -> N -> bytes -> N -> ST W bytes;
  SendRequest_defined h p b t w : (SendRequest h p b t w).1 <> Undef;
}.

(** ** The circuit breaker *)

(** The counter is an [int]; it would take 2^31 failed calls in a row to overflow it. *)
Record Health := { consecutive_failures : N; open_until : N }.
Definition no_health : Health := {| consecutive_failures := 0; open_until := 0 |}.

Abbreviation endpoint := (list ascii * N)%type.
Abbreviation breaker := (gmap (list ascii * N) Health).

Definition is_open (e : endpoint) (t : N) (b : breaker) : bool :=
  match b !! e with Some h => (t <? open_until h)%N | None => false end.

Definition record_success (e : endpoint) (b : breaker) : breaker := delete e b.

Definition record_failure (e : endpoint) (t : N) (b : breaker) : breaker :=
  let h := default no_health (b !! e) in
  let n := (consecutive_failures h + 1)%N in
  <[e := {| consecutive_failures := n;
            open_until := if (kFailureThreshold <=? n)%N then (t + kCooldown)%N else open_until h |}]> b.

Section client.
Context {W : Type} `{!Network W}.

Record client := { health : breaker; world : W }.

Definition read_clock : ST client N := fun c =>
  let '(t, w) := now (world c) in (Ret t, {| health := health c; world := w |}).
Definition on_network {A} (m : ST W A) : ST client A := fun c =>
  let '(r, w) := m (world c) in (r, {| health := health c; world := w |}).
Definition set_health (f : breaker -> breaker) (c : client) : client :=
  {| health := f (health c); world := world c |}.

(** [IsOpen] only reads the clock when it knows the endpoint. *)
Definition IsOpen (a : PeerAddress) : ST client bool :=
  c ← st_get;
  match health c !! (host a, port a) with
  | None => mret false
  | Some _ => t ← read_clock; mret (is_open (host a, port a) t (health c))
  end.

Definition RecordSuccess (a : PeerAddress) : ST client unit :=
  st_modify (set_health (record_success (host a, port a))).

(** The clock is only read when the failure reaches the threshold. *)
Definition RecordFailure (a : PeerAddress) : ST client unit :=
  c ← st_get;
  let h := default no_health (health c !! (host a, port a)) in
  if (kFailureThreshold <=? consecutive_failures h + 1)%N then
    t ← read_clock; st_modify (set_health (record_failure (host a, port a) t))
  else st_modify (set_health (record_failure (host a, port a) 0)).

(** [try { response = SendRequest(...) } catch]: the response or the exception. *)
Definition try_rpc (a : PeerAddress) (encoded : bytes) (timeout_ms : N) : ST client (bytes + exn) :=
  st_catch (r ← on_network (SendRequest (host a) (port a) encoded timeout_ms); mret (inl r))
           (fun e => mret (inr e)).

(** ** SendClientRequest *)

(** The first peer that is not [skip] and whose circuit is closed: the range-for with [break]
    ([skip] is none) and the [std::find_if]. *)
Fixpoint find_closed (skip : option NodeId) (l : list (NodeId * PeerAddress)) : ST client (option NodeId) :=
  match l with
  | [] => mret None
  | (id, a) :: l' =>
    if decide (skip = Some id) then find_closed skip l'
    else o ← IsOpen a; if (o : bool) then find_closed skip l' else mret (Some id)
  end.

Definition failed (not_leader : bool) (hint : NodeId) (error : bytes) : ClientResponse :=
  {| clr_success := false; clr_index := 0; clr_not_leader := not_leader; clr_leader_hint := hint; clr_error := error |}.

Fixpoint hop (hops : nat) (cluster_peers : peer_map) (encoded : bytes) (timeout_ms : N) (target : NodeId)
  : ST client ClientResponse :=
  match hops with
  | O => mret (failed true target (str "too many redirects while locating the leader"))
  | S hops' =>
    match cluster_peers !! target with
    | None => mret (failed true target (str "unknown node id " ++ to_string target))
    | Some a =>
      r ← try_rpc a encoded timeout_ms;
      match r with
      | inr _ =>
        _ ← RecordFailure a;
        retry ← find_closed (Some target) (map_entries cluster_peers);
        match retry with
        | None => mret (failed true target (str "could not reach node " ++ to_string target))
        | Some id => hop hops' cluster_peers encoded timeout_ms id
        end
      | inl response =>
        _ ← RecordSuccess a;
        resp ← st_lift (DecodeClientResponse response);
        if clr_success resp || negb (clr_not_leader resp) then mret resp
        else if (clr_leader_hint resp =? 0)%N || (clr_leader_hint resp =? target)%N then mret resp
        else hop hops' cluster_peers encoded timeout_ms (clr_leader_hint resp)
      end
    end
  end.

Definition SendClientRequest (cluster_peers : peer_map) (command : bytes) (timeout_ms : N) : ST client ClientResponse :=
  match map_entries cluster_peers with
  | [] => mret (failed true 0 (str "no peers known for this cluster"))
  | (first, _) :: _ =>
    guess ← find_closed None (map_entries cluster_peers);
    hop kMaxHops cluster_peers (EncodeClientRequest {| cl_command := command |}) timeout_ms (default first guess)
  end.

(** ** SendReadRequest *)

Definition could_not_reach (last_error : bytes) : exn :=
  RuntimeError (str "could not reach any node in this cluster: " ++ last_error).

(** One pass over the peers: the answer, or the last error. *)
Fixpoint read_pass (wants_tripped : bool) (l : list (NodeId * PeerAddress)) (encoded : bytes) (timeout_ms : N)
  (last_error : bytes) : ST client (bytes + bytes) :=
  match l with
  | [] => mret (inr last_error)
  | (_, a) :: l' =>
    tripped ← IsOpen a;
    if negb (eqb tripped wants_tripped) then read_pass wants_tripped l' encoded timeout_ms last_error
    else
      r ← try_rpc a encoded timeout_ms;
      match r with
      | inr e => _ ← RecordFailure a; read_pass wants_tripped l' encoded timeout_ms (what e)
      | inl response =>
        _ ← RecordSuccess a;
        resp ← st_lift (DecodeReadResponse response);
        if rdr_error resp then st_throw (RuntimeError (rdr_result resp)) else mret (inl (rdr_result resp))
      end
  end.

Definition SendReadRequest (cluster_peers : peer_map) (query : bytes) (timeout_ms : N) : ST client bytes :=
  let encoded := EncodeReadRequest {| rd_query := query |} in
  r ← read_pass false (map_entries cluster_peers) encoded timeout_ms (str "no peers known for this cluster");
  match r with
  | inl result => mret result
  | inr last_error =>
    r ← read_pass true (map_entries cluster_peers) encoded timeout_ms last_error;
    match r with
    | inl result => mret result
    | inr last_error => st_throw (could_not_reach last_error)
    end
  end.

(** ** DiscoverCluster *)

Definition DiscoverCluster (host : bytes) (port : N) (timeout_ms : N) : ST client peer_map :=
  response ← on_network (SendRequest host port (EncodeDescribeClusterRequest describe_cluster) timeout_ms);
  resp ← st_lift (DecodeDescribeClusterResponse response);
  mret (<[dc_id resp := dc_own_address resp]> (dc_peers resp)).
End client.

Arguments client : clear implicits.
