(* ===== verification/ClientSpec.v ===== *)
(** * What the cluster client guarantees

    Bounds on the calls it makes, when it finds the leader or an answer, how the circuit
    breaker counts, and two situations in which a reachable node is never asked. *)

From Stdlib Require Import NArith Lia.
From S2P Require Export Client.

Lemma DecodeClientResponse_safe b : DecodeClientResponse b <> Undef.
Proof.
  apply decode_safe. unfold read_ClientResponse, RdBool, ReadU8, ReadU32, ReadU64. auto 20 with safe nocore.
Qed.

Lemma DecodeReadResponse_safe b : DecodeReadResponse b <> Undef.
Proof. apply decode_safe. unfold read_ReadResponse, RdBool, ReadU8. auto 20 with safe nocore. Qed.

Lemma DecodeDescribeClusterResponse_safe b : DecodeDescribeClusterResponse b <> Undef.
Proof.
  apply decode_safe. unfold read_DescribeClusterResponse, RdPeers, RdPeer, ReadU8, ReadU16, ReadU32. auto 20 with safe nocore.
Qed.

(** ** The number of calls *)

Section costs.
Context {W : Type} `{!Network W} (calls : W -> nat).

(** [m] makes at most [k] calls and is defined. *)
Definition costs {A} (k : nat) (m : ST (client W) A) : Prop :=
  forall c, (m c).1 <> Undef /\ (calls (world (m c).2) <= calls (world c) + k)%nat.

Lemma costs_bind {A B} k1 k2 k (m : ST (client W) A) (f : A -> ST (client W) B) :
  costs k1 m -> (forall a, costs k2 (f a)) -> (k1 + k2 <= k)%nat -> costs k (m ≫= f).
Proof.
  intros Hm Hf Hk c. specialize (Hm c). unfold mbind, ST_bind.
  destruct (m c) as [[a|e|] c'] eqn:E; cbn in *; [|by split; [|lia]|by destruct Hm].
  specialize (Hf a c'). destruct (f a c') as [o c'']. cbn in *. split; [tauto|lia].
Qed.

Lemma costs_ret {A} k (a : A) : costs k (mret a).
Proof. intros c. cbn. split; [done|lia]. Qed.
Lemma costs_throw {A} k e : costs k (st_throw e : ST (client W) A).
Proof. intros c. cbn. split; [done|lia]. Qed.
Lemma costs_get k : costs k (st_get : ST (client W) _).
Proof. intros c. cbn. split; [done|lia]. Qed.
Lemma costs_lift {A} k (o : outcome A) : o <> Undef -> costs k (st_lift o).
Proof. intros H c. cbn. split; [done|lia]. Qed.
Lemma costs_health k f : costs k (st_modify (set_health f) : ST (client W) unit).
Proof. intros c. cbn. split; [done|lia]. Qed.

Context (now_free : forall w, calls (now w).2 = calls w).
Context (request_one : forall h p b t w, (calls (SendRequest h p b t w).2 <= S (calls w))%nat).

Lemma costs_clock k : costs k read_clock.
Proof.
  intros c. unfold read_clock. pose proof (now_free (world c)). destruct (now (world c)) as [t w].
  cbn in *. split; [done|lia].
Qed.

Lemma costs_IsOpen k a : costs k (IsOpen a).
Proof.
  apply (costs_bind 0 0); [apply costs_get| |lia]. intros c. destruct (health c !! _); [|apply costs_ret].
  apply (costs_bind 0 0); [apply costs_clock| |lia]. intros t. apply costs_ret.
Qed.

Lemma costs_failure k a : costs k (RecordFailure a).
Proof.
  apply (costs_bind 0 0); [apply costs_get| |lia]. intros c. cbv zeta. case_match; [|apply costs_health].
  apply (costs_bind 0 0); [apply costs_clock| |lia]. intros t. apply costs_health.
Qed.

Lemma costs_rpc a b t : costs 1 (try_rpc a b t).
Proof.
  intros c. unfold try_rpc, st_catch, mbind, ST_bind, on_network.
  pose proof (request_one (host a) (port a) b t (world c)).
  pose proof (SendRequest_defined (host a) (port a) b t (world c)).
  destruct (SendRequest _ _ _ _ _) as [[r|e|] w]; cbn in *; (split; [done|lia]).
Qed.

Lemma costs_find k skip l : costs k (find_closed skip l).
Proof.
  induction l as [|[id a] l IH]; cbn [find_closed]; [apply costs_ret|]. case_decide; [exact IH|].
  apply (costs_bind 0 k); [apply costs_IsOpen| |lia]. intros []; [exact IH|apply costs_ret].
Qed.

Lemma costs_hop hops peers b t target : costs hops (hop hops peers b t target).
Proof.
  revert target. induction hops as [|hops IH]; intros target; cbn [hop]; [apply costs_ret|].
  destruct (peers !! target) as [a|]; [|apply costs_ret].
  apply (costs_bind 1 hops); [apply costs_rpc| |lia]. intros [response|e].
  - apply (costs_bind 0 hops); [apply costs_health| |lia]. intros _.
    apply (costs_bind 0 hops); [apply costs_lift, DecodeClientResponse_safe| |lia]. intros resp.
    repeat case_match; [apply costs_ret..|apply IH].
  - apply (costs_bind 0 hops); [apply costs_failure| |lia]. intros _.
    apply (costs_bind 0 hops); [apply costs_find| |lia]. intros [id|]; [apply IH|apply costs_ret].
Qed.

Lemma costs_pass wants l b t e : costs (length l) (read_pass wants l b t e).
Proof.
  revert e. induction l as [|[id a] l IH]; intros e; cbn [read_pass length]; [apply costs_ret|].
  apply (costs_bind 0 (S (length l))); [apply costs_IsOpen| |lia]. intros tripped. case_match.
  - intros c. destruct (IH e c) as [H1 H2]. split; [done|lia].
  - apply (costs_bind 1 (length l)); [apply costs_rpc| |lia]. intros [response|x].
    + apply (costs_bind 0 (length l)); [apply costs_health| |lia]. intros _.
      apply (costs_bind 0 (length l)); [apply costs_lift, DecodeReadResponse_safe| |lia]. intros resp.
      case_match; [apply costs_throw|apply costs_ret].
    + apply (costs_bind 0 (length l)); [apply costs_failure| |lia]. intros _. apply IH.
Qed.

Lemma costs_write peers text timeout_ms : costs 4 (SendClientRequest peers text timeout_ms).
Proof.
  unfold SendClientRequest. destruct (map_entries peers) as [|[id a] l]; [apply costs_ret|].
  apply (costs_bind 0 4); [by apply costs_find| |lia]. intros g. by apply costs_hop.
Qed.

Lemma costs_read peers text timeout_ms : costs (2 * size peers) (SendReadRequest peers text timeout_ms).
Proof.
  unfold SendReadRequest. cbv zeta. assert (El : length (map_entries peers) = size peers) by by rewrite (map_entries_perm peers), length_map_to_list.
  eapply (costs_bind (size peers) (size peers)); [rewrite <- El; by apply costs_pass| |lia].
  intros [r|e]; [apply costs_ret|]. eapply (costs_bind (size peers) 0); [rewrite <- El; by apply costs_pass| |lia].
  intros [r|e']; [apply costs_ret|apply costs_throw].
Qed.
End costs.

(** Calls always return or throw. *)
Lemma client_defined {W} `{!Network W} peers text timeout_ms (c : client W) :
  (SendReadRequest peers text timeout_ms c).1 <> Undef /\ (SendClientRequest peers text timeout_ms c).1 <> Undef.
Proof.
  split; [apply (costs_read (fun _ => 0%nat))|apply (costs_write (fun _ => 0%nat))]; intros; cbn; lia.
Qed.

Lemma DiscoverCluster_defined {W} `{!Network W} h p timeout_ms (c : client W) : (DiscoverCluster h p timeout_ms c).1 <> Undef.
Proof.
  unfold DiscoverCluster, mbind, ST_bind, on_network. pose proof (SendRequest_defined h p (EncodeDescribeClusterRequest describe_cluster) timeout_ms (world c)).
  destruct (SendRequest _ _ _ _ _) as [[r|e|] w]; [|done..]. unfold st_lift.
  pose proof (DecodeDescribeClusterResponse_safe r). by destruct (DecodeDescribeClusterResponse r).
Qed.

(** *** Property *)

(** C35: however the network answers and whatever the breaker remembers, a write makes at most four
    calls and a read at most two per peer, and both come to an end: they return or throw. *)
Theorem calls_bounded {W} `{!Network W} (calls : W -> nat) peers text timeout_ms (c : client W) :
  (forall w, calls (now w).2 = calls w) ->
  (forall h p b t w, calls (SendRequest h p b t w).2 <= S (calls w))%nat ->
  (SendClientRequest peers text timeout_ms c).1 <> Undef /\
  (calls (world (SendClientRequest peers text timeout_ms c).2) <= calls (world c) + 4)%nat /\
  (SendReadRequest peers text timeout_ms c).1 <> Undef /\
  (calls (world (SendReadRequest peers text timeout_ms c).2) <= calls (world c) + 2 * size peers)%nat.
Proof.
  intros H1 H2. destruct (costs_write calls H1 H2 peers text timeout_ms c) as [Hc1 Hc2].
  destruct (costs_read calls H1 H2 peers text timeout_ms c) as [Hr1 Hr2]. split_and!; [done|done|done|lia].
Qed.

(** ** Networks that answer the same way throughout a call *)

Definition endpoint_of (a : PeerAddress) : endpoint := (host a, port a).

(** The circuit of the endpoint is closed whatever the clock says: fewer than [kFailureThreshold]
    calls have failed since the last success. *)
Definition untripped (e : endpoint) (b : breaker) : Prop := forall t, is_open e t b = false.

Lemma untripped_same e b b' : b' !! e = b !! e -> untripped e b -> untripped e b'.
Proof. unfold untripped, is_open. by intros ->. Qed.

Section static.
Context {W : Type} `{!Network W} (answers : endpoint -> bytes -> option bytes).
Implicit Types (c : client W) (a : PeerAddress).

(** An endpoint answers a request with the same bytes at any time, or is down. *)
Definition static : Prop := forall h p b t (w : W),
  match answers (h, p) b with
  | Some r => (SendRequest h p b t w).1 = Ret r
  | None => exists e, (SendRequest h p b t w).1 = Throw e
  end.
Context (Hstatic : static).

Lemma rpc_answered a b t r c : answers (endpoint_of a) b = Some r ->
  exists w, try_rpc a b t c = (Ret (inl r), {| health := health c; world := w |}).
Proof.
  intros Ha. pose proof (Hstatic (host a) (port a) b t (world c)) as H.
  unfold endpoint_of in Ha. rewrite Ha in H. unfold try_rpc, st_catch, mbind, ST_bind, on_network.
  destruct (SendRequest _ _ _ _ _) as [o w]. cbn in H. subst o. by exists w.
Qed.

Lemma rpc_unanswered a b t c : answers (endpoint_of a) b = None ->
  exists e w, try_rpc a b t c = (Ret (inr e), {| health := health c; world := w |}).
Proof.
  intros Ha. pose proof (Hstatic (host a) (port a) b t (world c)) as H.
  unfold endpoint_of in Ha. rewrite Ha in H. destruct H as [e H].
  unfold try_rpc, st_catch, mbind, ST_bind, on_network.
  destruct (SendRequest _ _ _ _ _) as [o w]. cbn in H. subst o. by exists e, w.
Qed.

Lemma IsOpen_health a c : exists o w, IsOpen a c = (Ret o, {| health := health c; world := w |}) /\
  (untripped (endpoint_of a) (health c) -> o = false).
Proof.
  unfold IsOpen, endpoint_of. st_steps. destruct (health c !! (host a, port a)) as [h|] eqn:E.
  - unfold mbind, ST_bind, read_clock. destruct (now (world c)) as [t w].
    exists (is_open (host a, port a) t (health c)), w. split; [done|]. intros Ht. apply Ht.
  - exists false, (world c). by destruct c.
Qed.

Lemma RecordFailure_health a c : exists h w,
  RecordFailure a c = (Ret tt, {| health := h; world := w |}) /\
  (forall e, e <> endpoint_of a -> h !! e = health c !! e).
Proof.
  unfold RecordFailure, endpoint_of. st_steps. cbv zeta. case_match.
  - unfold mbind, ST_bind, read_clock. destruct (now (world c)) as [t w].
    exists (record_failure (host a, port a) t (health c)), w. split; [done|].
    intros e He. unfold record_failure. by rewrite lookup_insert_ne.
  - exists (record_failure (host a, port a) 0 (health c)), (world c). split; [done|].
    intros e He. unfold record_failure. by rewrite lookup_insert_ne.
Qed.

Lemma find_closed_some skip l c id a :
  (id, a) ∈ l -> skip <> Some id -> untripped (endpoint_of a) (health c) ->
  exists id' a' w, find_closed skip l c = (Ret (Some id'), {| health := health c; world := w |}) /\
    (id', a') ∈ l /\ skip <> Some id'.
Proof.
  revert c. induction l as [|[i x] l IH]; intros c Hin Hs Hh; [by apply not_elem_of_nil in Hin|].
  cbn [find_closed]. case_decide as Hd.
  - apply elem_of_cons in Hin as [[= -> ->]|Hin]; [done|].
    destruct (IH c Hin Hs Hh) as (id' & a' & w & E & Hin' & Hs'). exists id', a', w.
    split; [exact E|]. split; [by right|done].
  - destruct (IsOpen_health x c) as (o & w & E & Ho). rewrite (run_bind _ _ _ _ _ E). destruct o.
    + apply elem_of_cons in Hin as [[= <- <-]|Hin]; [by specialize (Ho Hh)|].
      destruct (IH {| health := health c; world := w |} Hin Hs Hh) as (id' & a' & w' & E' & Hin' & Hs').
      exists id', a', w'. split; [exact E'|]. split; [by right|done].
    + exists i, x, w. split; [done|]. split; [by left|done].
Qed.

(** *** Finding the leader *)

Section leader.
Context (peers : peer_map) (command : bytes) (timeout_ms : N).
Context (leader : NodeId) (resp : ClientResponse) (down : option NodeId).

Let request := EncodeClientRequest {| cl_command := command |}.

(** The leader answers [resp]; every other node but [down] points to the leader; [down] is
    unreachable. *)
Record one_leader : Prop := {
  leader_known : is_Some (peers !! leader);
  leader_up : down <> Some leader;
  leader_id : (0 < leader < two32)%N;
  resp_decides : clr_success resp || negb (clr_not_leader resp) = true;
  resp_fits : message_ok (MClientResponse resp);
  others_answer id a : peers !! id = Some a -> down <> Some id ->
    answers (endpoint_of a) request =
    Some (EncodeClientResponse (if decide (id = leader) then resp else failed true leader (str "not the leader")));
  down_silent id a : peers !! id = Some a -> down = Some id -> answers (endpoint_of a) request = None;
}.
Context (Hleader : one_leader).

Lemma hop_leader hops c : (hop (S hops) peers request timeout_ms leader c).1 = Ret resp.
Proof.
  destruct (leader_known Hleader) as [a Ha]. cbn [hop]. rewrite Ha.
  pose proof (others_answer Hleader _ _ Ha (leader_up Hleader)) as Hr. rewrite decide_True in Hr by done.
  destruct (rpc_answered _ _ timeout_ms _ c Hr) as [w E]. rewrite (run_bind _ _ _ _ _ E).
  unfold RecordSuccess. st_steps. rewrite DecodeClientResponse_Encode by apply (resp_fits Hleader). st_steps.
  by rewrite (resp_decides Hleader).
Qed.

Lemma hop_live hops id a c : peers !! id = Some a -> down <> Some id ->
  (hop (S (S hops)) peers request timeout_ms id c).1 = Ret resp.
Proof.
  intros Ha Hd. destruct (decide (id = leader)) as [->|Hne]; [apply hop_leader|].
  cbn [hop]. rewrite Ha. pose proof (others_answer Hleader _ _ Ha Hd) as Hr. rewrite decide_False in Hr by done.
  destruct (rpc_answered _ _ timeout_ms _ c Hr) as [w E]. rewrite (run_bind _ _ _ _ _ E).
  unfold RecordSuccess. st_steps.
  pose proof (leader_id Hleader) as [H0 H32].
  rewrite DecodeClientResponse_Encode by (split_and!; [done|exact H32|done]). st_steps.
  cbn [clr_success clr_not_leader clr_leader_hint failed negb orb].
  destruct (N.eqb_spec leader 0); [lia|]. destruct (N.eqb_spec leader id); [congruence|].
  cbn [orb]. apply hop_leader.
Qed.

Lemma hop_any hops id a c : peers !! id = Some a ->
  (forall x, peers !! leader = Some x -> untripped (endpoint_of x) (health c)) ->
  (hop (S (S (S hops))) peers request timeout_ms id c).1 = Ret resp.
Proof.
  intros Ha Hh. destruct (decide (down = Some id)) as [Hd|Hd]; [|by eapply hop_live].
  set (rest := S (S hops)). cbn [hop]. rewrite Ha. pose proof (down_silent Hleader _ _ Ha Hd) as Hr.
  destruct (rpc_unanswered _ _ timeout_ms c Hr) as (e & w & E). rewrite (run_bind _ _ _ _ _ E).
  destruct (RecordFailure_health a {| health := health c; world := w |}) as (h & w' & Ef & Hf).
  rewrite (run_bind _ _ _ _ _ Ef).
  destruct (leader_known Hleader) as [al Hal].
  pose proof (leader_up Hleader) as Hup.
  destruct (find_closed_some (Some id) (map_entries peers) {| health := h; world := w' |} leader al)
    as (id' & a' & w'' & Eg & Hin & Hne).
  { by apply elem_of_map_entries. }
  { congruence. }
  { cbn [health]. eapply untripped_same; [apply Hf|by apply Hh]. intros Heq.
    pose proof (others_answer Hleader _ _ Hal Hup) as Hl. rewrite Heq, Hr in Hl. done. }
  rewrite (run_bind _ _ _ _ _ Eg). apply elem_of_map_entries in Hin.
  eapply hop_live; [exact Hin|congruence].
Qed.
End leader.

(** *** Finding an answer *)

Section reading.
Context (peers : peer_map) (query : bytes) (timeout_ms : N).

Let request := EncodeReadRequest {| rd_query := query |}.

(** What a caller of [SendReadRequest] gets from the response [m]. *)
Definition read_outcome (m : ReadResponse) : outcome bytes :=
  if rdr_error m then Throw (RuntimeError (rdr_result m)) else Ret (rdr_result m).

(** [m] is the response of a peer that is up. *)
Definition response_of (l : list (NodeId * PeerAddress)) (m : ReadResponse) : Prop :=
  exists id a, (id, a) ∈ l /\ answers (endpoint_of a) request = Some (EncodeReadResponse m).

Definition well_formed_answers (l : list (NodeId * PeerAddress)) : Prop := forall id a r,
  (id, a) ∈ l -> answers (endpoint_of a) request = Some r ->
  exists m, r = EncodeReadResponse m /\ message_ok (MReadResponse m).

(** How a pass ends: with the outcome of a response, or with an error message. *)
Definition pass_ends (l : list (NodeId * PeerAddress)) (o : outcome (bytes + bytes)) : Prop :=
  exists m, response_of l m /\
    o = match read_outcome m with Ret x => Ret (inl x) | Throw e => Throw e | Undef => Undef end.

Lemma response_of_cons p l m : response_of l m -> response_of (p :: l) m.
Proof. intros (id & a & Hin & H). exists id, a. split; [by right|done]. Qed.

Lemma pass_finds l last c id a :
  well_formed_answers l -> (id, a) ∈ l -> answers (endpoint_of a) request <> None ->
  untripped (endpoint_of a) (health c) ->
  pass_ends l (read_pass false l request timeout_ms last c).1.
Proof.
  revert last c. induction l as [|[i x] l IH]; intros last c Hwf Hin Hup Hh; [by apply not_elem_of_nil in Hin|].
  cbn [read_pass]. destruct (IsOpen_health x c) as (o & w & E & Ho). rewrite (run_bind _ _ _ _ _ E).
  assert (Hwf' : well_formed_answers l) by (intros id' a' r Hin'; apply (Hwf id'); by right).
  assert (Hskip : forall last' c', untripped (endpoint_of a) (health c') -> endpoint_of x <> endpoint_of a ->
    pass_ends ((i, x) :: l) (read_pass false l request timeout_ms last' c').1).
  { intros last' c' Hh' Hne. apply elem_of_cons in Hin as [[= -> ->]|Hin]; [done|].
    destruct (IH last' c' Hwf' Hin Hup Hh') as (m & Hm & Hr). exists m. split; [by apply response_of_cons|exact Hr]. }
  destruct o; cbn [eqb negb].
  - apply Hskip; [done|]. intros Heq. rewrite Heq in Ho. by specialize (Ho Hh).
  - destruct (answers (endpoint_of x) request) as [r|] eqn:Hr.
    + destruct (Hwf i x r ltac:(by left) Hr) as (m & -> & Hm).
      destruct (rpc_answered _ _ timeout_ms _ {| health := health c; world := w |} Hr) as [w' E'].
      rewrite (run_bind _ _ _ _ _ E'). unfold RecordSuccess. st_steps. rewrite DecodeReadResponse_Encode by done. st_steps.
      exists m. split; [exists i, x; split; [by left|done]|]. unfold read_outcome. by destruct (rdr_error m).
    + destruct (rpc_unanswered _ _ timeout_ms {| health := health c; world := w |} Hr) as (e & w' & E').
      rewrite (run_bind _ _ _ _ _ E').
      destruct (RecordFailure_health x {| health := health c; world := w' |}) as (h & w'' & Ef & Hf).
      rewrite (run_bind _ _ _ _ _ Ef).
      assert (Hne : endpoint_of x <> endpoint_of a) by (intros Heq; rewrite Heq in Hr; done).
      apply Hskip; [|done]. cbn [health]. eapply untripped_same; [apply Hf; congruence|done].
Qed.

Lemma pass_all_down wants l last c :
  (forall id a, (id, a) ∈ l -> answers (endpoint_of a) request = None) ->
  exists e c', read_pass wants l request timeout_ms last c = (Ret (inr e), c').
Proof.
  revert last c. induction l as [|[i x] l IH]; intros last c Hdown; [by exists last, c|].
  assert (Hdown' : forall id a, (id, a) ∈ l -> answers (endpoint_of a) request = None)
    by (intros id a Hin; apply (Hdown id); by right).
  cbn [read_pass]. destruct (IsOpen_health x c) as (o & w & E & _). rewrite (run_bind _ _ _ _ _ E).
  case_match; [by apply IH|].
  destruct (rpc_unanswered _ _ timeout_ms {| health := health c; world := w |} (Hdown i x ltac:(by left))) as (e & w' & E').
  rewrite (run_bind _ _ _ _ _ E').
  destruct (RecordFailure_health x {| health := health c; world := w' |}) as (h & w'' & Ef & _).
  rewrite (run_bind _ _ _ _ _ Ef). by apply IH.
Qed.
End reading.

End static.

(** C34: a write reaches the leader of a settled cluster with at most one node down.  If, throughout the
    call, each node answers the request in the same way -- at most one not at all, the leader, which is up,
    with a response that does not send the client elsewhere, every other node that it is not the
    leader but who is -- and the leader's own circuit is not tripped, then the client returns the
    leader's response, wherever its first guess falls and whatever the circuits of the others. *)
Theorem SendClientRequest_finds_leader {W} `{!Network W} answers peers command timeout_ms leader resp down (c : client W) :
  static answers ->
  one_leader answers peers command leader resp down ->
  (forall a, peers !! leader = Some a -> untripped (endpoint_of a) (health c)) ->
  (SendClientRequest peers command timeout_ms c).1 = Ret resp.
Proof.
  intros Hst Hl Hh. unfold SendClientRequest.
  destruct (leader_known _ _ _ _ _ _ Hl) as [al Hal].
  pose proof (proj2 (elem_of_map_entries peers leader al) Hal) as Hin.
  destruct (map_entries peers) as [|[i x] l] eqn:E; [by apply not_elem_of_nil in Hin|].
  destruct (find_closed_some None ((i, x) :: l) c leader al) as (id' & a' & w & Ef & Hin' & _); [done|done| |].
  { by apply Hh. }
  rewrite (run_bind _ _ _ _ _ Ef). cbn [default]. rewrite <- E in Hin'. apply elem_of_map_entries in Hin'.
  by eapply (hop_any answers Hst).
Qed.

(** A read is answered as long as one replica whose circuit is not tripped is up: the caller
    gets the result, or the query error, of a replica; and when every replica is down the read
    fails with an exception that says so. *)
Theorem SendReadRequest_answers {W} `{!Network W} answers peers query timeout_ms (c : client W) :
  static answers ->
  well_formed_answers answers query (map_entries peers) ->
  let o := (SendReadRequest peers query timeout_ms c).1 in
  ((exists id a, peers !! id = Some a /\ untripped (endpoint_of a) (health c) /\
      answers (endpoint_of a) (EncodeReadRequest {| rd_query := query |}) <> None) ->
   exists m, response_of answers query (map_entries peers) m /\ o = read_outcome m) /\
  ((forall id a, peers !! id = Some a -> answers (endpoint_of a) (EncodeReadRequest {| rd_query := query |}) = None) ->
   exists e, o = Throw (could_not_reach e)).
Proof.
  intros Hst Hwf o. subst o. split.
  - intros (id & a & Ha & Hh & Hup).
    destruct (pass_finds answers Hst query timeout_ms _ (str "no peers known for this cluster") c id a Hwf
                (proj2 (elem_of_map_entries _ _ _) Ha) Hup Hh) as (m & Hm & Hr).
    exists m. split; [done|]. unfold SendReadRequest. cbv zeta. unfold mbind, ST_bind.
    destruct (read_pass false _ _ _ _ c) as [[x|e|] c']; cbn in Hr |- *; unfold read_outcome in *;
      destruct (rdr_error m); simplify_eq; done.
  - intros Hdown.
    assert (Hd : forall id a, (id, a) ∈ map_entries peers ->
      answers (endpoint_of a) (EncodeReadRequest {| rd_query := query |}) = None).
    { intros id a Hin%elem_of_map_entries. by apply (Hdown id). }
    unfold SendReadRequest. cbv zeta.
    destruct (pass_all_down answers Hst query timeout_ms false _ (str "no peers known for this cluster") c Hd) as (e & c' & E).
    rewrite (run_bind _ _ _ _ _ E).
    destruct (pass_all_down answers Hst query timeout_ms true _ e c' Hd) as (e' & c'' & E').
    rewrite (run_bind _ _ _ _ _ E'). by exists e'.
Qed.

(** ** The breaker's memory *)

(** The outcome of a call to an endpoint, and when it was recorded. *)
Record report := { r_endpoint : endpoint; r_ok : bool; r_time : N }.

Definition record (b : breaker) (r : report) : breaker :=
  if r_ok r then record_success (r_endpoint r) b else record_failure (r_endpoint r) (r_time r) b.

(** The reports about [e] since its last success, the latest first. *)
Fixpoint failures_since_success (e : endpoint) (rs : list report) (acc : list report) : list report :=
  match rs with
  | [] => acc
  | r :: rs' =>
    if decide (r_endpoint r = e)
    then failures_since_success e rs' (if r_ok r then [] else r :: acc)
    else failures_since_success e rs' acc
  end.

(** The health that a run of failures leaves. *)
Definition health_of (fs : list report) : option Health :=
  match fs with
  | [] => None
  | r :: _ =>
    Some {| consecutive_failures := N.of_nat (length fs);
            open_until := if (kFailureThreshold <=? N.of_nat (length fs))%N then (r_time r + kCooldown)%N else 0 |}
  end.

Lemma record_health e r b acc : b !! e = health_of acc ->
  record b r !! e =
  health_of (if decide (r_endpoint r = e) then (if r_ok r then [] else r :: acc) else acc).
Proof.
  intros Hb. unfold record, record_success, record_failure. case_decide as Hd.
  - subst e. destruct (r_ok r); [apply lookup_delete_eq|]. rewrite lookup_insert_eq, Hb.
    assert (El : N.of_nat (length (r :: acc)) = (N.of_nat (length acc) + 1)%N) by (cbn [length]; lia).
    cbn [health_of]. rewrite El. destruct acc as [|x acc]; [done|]. cbn [health_of default id consecutive_failures open_until].
    destruct (N.leb_spec kFailureThreshold (N.of_nat (length (x :: acc)) + 1)); [done|].
    destruct (N.leb_spec kFailureThreshold (N.of_nat (length (x :: acc)))); [lia|done].
  - destruct (r_ok r); [by rewrite lookup_delete_ne|by rewrite lookup_insert_ne].
Qed.

(** A circuit is open exactly when the last five or more calls to the endpoint have failed and
    less than the cooldown has passed since the last of them; nothing that happens to another
    endpoint matters. *)
Theorem breaker_opens rs e t :
  let fs := failures_since_success e rs [] in
  is_open e t (foldl record ∅ rs) =
  match fs with
  | [] => false
  | last :: _ => (kFailureThreshold <=? N.of_nat (length fs))%N && (t <? r_time last + kCooldown)%N
  end.
Proof.
  cbv zeta. unfold is_open.
  assert (H : forall rs (b : breaker) acc, b !! e = health_of acc ->
    foldl record b rs !! e = health_of (failures_since_success e rs acc)).
  { clear rs. induction rs as [|r rs IH]; intros b acc Hb; [done|]. cbn [foldl failures_since_success].
    rewrite (IH _ _ (record_health _ r _ _ Hb)). by case_decide. }
  rewrite (H rs ∅ []) by done.
  destruct (failures_since_success e rs []) as [|r fs]; [done|]. cbn [health_of open_until].
  destruct (kFailureThreshold <=? N.of_nat (length (r :: fs)))%N; [done|]. cbn [andb]. apply N.ltb_ge. lia.
Qed.

(** ** A concrete network *)

(** The calls made so far, and the clock: an answer takes a millisecond, a failure the whole
    timeout. *)
Record demo_world := { w_time : N; w_calls : list endpoint }.

Program Definition demo_network (answers : endpoint -> bytes -> option bytes) : Network demo_world := {|
  now w := (w_time w, w);
  SendRequest h p b t w :=
    match answers (h, p) b with
    | Some r => (Ret r, {| w_time := w_time w + 1; w_calls := w_calls w ++ [(h, p)] |})
    | None => (Throw (RuntimeError (str "timed out")), {| w_time := w_time w + t; w_calls := w_calls w ++ [(h, p)] |})
    end;
|}.
Next Obligation. intros answers h p b t w. cbn. destruct (answers (h, p) b); discriminate. Qed.

Lemma demo_network_static answers : static (Network0 := demo_network answers) answers.
Proof. intros h p b t w. cbn. destruct (answers (h, p) b); [done|]. by eexists. Qed.

Definition demo_address (id : N) : PeerAddress := {| host := str "10.0.0.1"; port := 7000 + id |}.
Definition demo_cluster (ids : list N) : peer_map := list_to_map (map (fun id => (id, demo_address id)) ids).

Definition demo_client (b : breaker) : client demo_world :=
  {| health := b; world := {| w_time := 0; w_calls := [] |} |}.

Definition committed : ClientResponse :=
  {| clr_success := true; clr_index := 9; clr_not_leader := false; clr_leader_hint := 3; clr_error := [] |}.

(** Node 3 leads; [down] lists the unreachable nodes. *)
Definition led_by_3 (down : list N) (e : endpoint) (_ : bytes) : option bytes :=
  if decide (e.2 ∈ map (fun id => 7000 + id)%N down) then None
  else Some (EncodeClientResponse (if (e.2 =? 7003)%N then committed else failed true 3 (str "not the leader"))).

(** Every replica that is up reads the same. *)
Definition reads_42 (down : list N) (e : endpoint) (_ : bytes) : option bytes :=
  if decide (e.2 ∈ map (fun id => 7000 + id)%N down) then None
  else Some (EncodeReadResponse {| rdr_error := false; rdr_result := str "42" |}).

Definition write_to (down ids : list N) : outcome ClientResponse * client demo_world :=
  SendClientRequest (Network0 := demo_network (led_by_3 down)) (demo_cluster ids) (str "x") 1000 (demo_client ∅).
Definition read_from (down ids : list N) (b : breaker) : outcome bytes * client demo_world :=
  SendReadRequest (Network0 := demo_network (reads_42 down)) (demo_cluster ids) (str "q") 1000 (demo_client b).

(** *** Properties by example *)

(** In a cluster of five whose two lowest ids are down, with a majority and the leader up and no
    call recorded before, a write fails: after the wrong guess the client goes back and forth
    between the two dead nodes until its four hops are spent, and asks no one else. *)
Theorem write_misses_live_leader :
  exists c, write_to [1%N; 2%N] [1%N; 2%N; 3%N; 4%N; 5%N] =
    (Ret (failed true 1 (str "too many redirects while locating the leader")), c) /\
  w_calls (world c) = map (fun id => endpoint_of (demo_address id)) [1%N; 2%N; 1%N; 2%N].
Proof. eexists. split; vm_compute; reflexivity. Qed.

(** A read does not make one attempt per peer.  A replica whose circuit is open in the first
    pass and whose cooldown ends before the second is asked in neither, and the read fails
    although the replica is up; and a peer whose circuit opens in the first pass is asked again
    in the second. *)
Theorem read_attempts_miscounted :
  (exists c e, read_from [2%N] [1%N; 2%N] {[ endpoint_of (demo_address 1) := {| consecutive_failures := 5; open_until := 500 |} ]} =
     (Throw e, c) /\ w_calls (world c) = [endpoint_of (demo_address 2)]) /\
  (exists c e, read_from [2%N] [2%N] {[ endpoint_of (demo_address 2) := {| consecutive_failures := 4; open_until := 0 |} ]} =
     (Throw e, c) /\ w_calls (world c) = [endpoint_of (demo_address 2); endpoint_of (demo_address 2)]).
Proof. split; do 2 eexists; (split; vm_compute; reflexivity). Qed.

(** [SendClientRequest] does throw: a peer that answers with bytes that are no response makes
    the decoder's exception escape. *)
Theorem SendClientRequest_throws :
  exists e c, SendClientRequest (Network0 := demo_network (fun _ _ => Some [])) (demo_cluster [1%N]) (str "x") 1000 (demo_client ∅) =
    (Throw e, c).
Proof. do 2 eexists. vm_compute. reflexivity. Qed.

(** ** Witnesses *)

Lemma calls_bounded_witness :
  (length (w_calls (world (write_to [1%N; 2%N] [1%N; 2%N; 3%N]).2)) <= 4)%nat.
Proof.
  apply (calls_bounded (Network0 := demo_network (led_by_3 [1%N; 2%N])) (fun w => length (w_calls w))
    (demo_cluster [1%N; 2%N; 3%N]) (str "x") 1000 (demo_client ∅)).
  - done.
  - intros h p b t w. cbn. destruct (led_by_3 _ (h, p) b); cbn; rewrite length_app; cbn; lia.
Defined.

Lemma demo_cluster_lookup ids id a : demo_cluster ids !! id = Some a -> id ∈ ids /\ a = demo_address id.
Proof.
  intros H%elem_of_list_to_map_2%list_elem_of_fmap. destruct H as (x & [= -> ->] & Hin). done.
Qed.

Lemma SendClientRequest_finds_leader_witness :
  (write_to [1%N] [1%N; 2%N; 3%N]).1 = Ret committed.
Proof.
  apply (SendClientRequest_finds_leader (led_by_3 [1%N]) (demo_cluster [1%N; 2%N; 3%N]) (str "x") 1000 3 committed (Some 1%N)
    (Network0 := demo_network (led_by_3 [1%N]))); [apply demo_network_static| |].
  - split; [by eexists (demo_address 3)|done|done|done|done| |].
    + intros id a Ha Hd. apply demo_cluster_lookup in Ha as [Hin ->].
      rewrite !elem_of_cons, elem_of_nil in Hin. destruct Hin as [->|[->|[->|[]]]]; [done|vm_compute; reflexivity..].
    + intros id a Ha [= <-]. apply demo_cluster_lookup in Ha as [_ ->]. vm_compute. reflexivity.
  - done.
Defined.

Lemma SendReadRequest_answers_witness :
  exists m, (read_from [1%N] [1%N; 2%N] ∅).1 = read_outcome m.
Proof.
  destruct (SendReadRequest_answers (Network0 := demo_network (reads_42 [1%N])) (reads_42 [1%N]) (demo_cluster [1%N; 2%N]) (str "q")
    1000 (demo_client ∅)) as [H _].
  - apply demo_network_static.
  - intros id a r _ Hr. unfold reads_42 in Hr. case_decide; [done|]. injection Hr as <-.
    eexists. split; [reflexivity|]. repeat constructor.
  - destruct H as (m & _ & Hm); [|by exists m].
    exists 2%N, (demo_address 2). split_and!; [done|done|vm_compute; discriminate].
Defined.
