(* ===== verification/RaftNode.v ===== *)
(** * The Raft node ([src/raft/node.h], [src/raft/node.cpp])

    The members of [RaftNode] are the fields of a record; every critical section under
    [mutex_] is one atomic operation on it in the monad [ST] (decoding a corrupt membership
    change throws).  What the code takes from outside is an input: the time and the random
    election timeout ([Env], in milliseconds), and the state machine behind the four callbacks
    ([StateMachine]; the callbacks act on a component of the state).  A detached thread that
    sends an RPC is an entry of [rpcs_]; the critical section it enters with the response is an
    operation of its own.  Waiting on [commit_cv_] is the interleaving of other operations
    ([Propose], [HandleClientRequest] take it as an argument).  Diagnostic output is left out. *)

From Stdlib Require Import NArith Lia.
From S2P Require Export ConfChange Message RaftLog HardState.

(** ** Constants and inputs *)

Definition kHeartbeatInterval : N := 75.
Definition kElectionTimeoutMinMs : N := 400.
Definition kElectionTimeoutMaxMs : N := 600.
Definition kMaxForwardHops : nat := 3.
Definition kCompactionThreshold : LogIndex := 5.

Inductive Role := kFollower | kCandidate | kLeader.

#[export] Instance Role_eq_dec : EqDecision Role.
Proof. solve_decision. Defined.

(** [now] is [steady_clock::now()], [timeout] what [RandomElectionTimeoutMs()] returns. *)
Record Env := { now : N; timeout : N }.

(** The callbacks. They must not throw, says the header; nothing but that contract stops them,
    so they are computations that may. *)
Class StateMachine (SM : Type) := {
  apply_callback : LogIndex -> bytes -> ST SM bytes;
  snapshot_callback : SM -> bytes;
  restore_callback : bytes -> ST SM unit;
  read_callback : bytes -> ST SM bytes;
}.

(** ** RPCs in flight *)

Inductive Rpc :=
| RpcVote (addr : PeerAddress) (election_term : Term) (req : RequestVoteRequest)
| RpcAppend (peer_id : NodeId) (addr : PeerAddress) (term : Term) (prev_log_index : LogIndex)
    (sent_count : nat) (req : AppendEntriesRequest)
| RpcSnapshot (peer_id : NodeId) (addr : PeerAddress) (term : Term) (snapshot_index : LogIndex)
    (req : InstallSnapshotRequest).

Section node.
Context {SM : Type} `{StateMachine SM}.

(** ** State *)

Record RaftNode := MkNode {
id_ : NodeId;
own_address_ : PeerAddress;
peers_ : peer_map;
state_dir_ : bytes;
state_ : PersistentState.t;
log_ : RaftLog;
membership_state_ : MembershipState.t;
role_ : Role;
leader_hint_ : NodeId;
commit_index_ : LogIndex;
last_applied_ : LogIndex;
self_is_member_ : bool;
pending_self_removal_index_ : LogIndex;
joining_ : bool;
apply_errors_ : gmap N bytes;
election_deadline_ : N;
next_heartbeat_time_ : N;
votes_received_ : N;
last_leader_contact_ : option N;  (** [None]: the epoch, before the process started *)
next_index_ : gmap N N;
match_index_ : gmap N N;
replication_in_flight_ : gset N;
sm_ : SM;  (** the state machine behind the callbacks *)
fs_ : FileSystem;  (** the files of [state_dir] *)
rpcs_ : list Rpc;  (** the RPC threads started so far, in order *)
}.

Definition set_own_address (x : PeerAddress) (n : RaftNode) : RaftNode :=
MkNode (id_ n) x (peers_ n) (state_dir_ n) (state_ n) (log_ n) (membership_state_ n) (role_ n)
  (leader_hint_ n) (commit_index_ n) (last_applied_ n) (self_is_member_ n)
  (pending_self_removal_index_ n) (joining_ n) (apply_errors_ n) (election_deadline_ n)
  (next_heartbeat_time_ n) (votes_received_ n) (last_leader_contact_ n) (next_index_ n)
  (match_index_ n) (replication_in_flight_ n) (sm_ n) (fs_ n) (rpcs_ n).
Definition set_peers (x : peer_map) (n : RaftNode) : RaftNode :=
MkNode (id_ n) (own_address_ n) x (state_dir_ n) (state_ n) (log_ n) (membership_state_ n)
  (role_ n) (leader_hint_ n) (commit_index_ n) (last_applied_ n) (self_is_member_ n)
  (pending_self_removal_index_ n) (joining_ n) (apply_errors_ n) (election_deadline_ n)
  (next_heartbeat_time_ n) (votes_received_ n) (last_leader_contact_ n) (next_index_ n)
  (match_index_ n) (replication_in_flight_ n) (sm_ n) (fs_ n) (rpcs_ n).
Definition set_state (x : PersistentState.t) (n : RaftNode) : RaftNode :=
MkNode (id_ n) (own_address_ n) (peers_ n) (state_dir_ n) x (log_ n) (membership_state_ n)
  (role_ n) (leader_hint_ n) (commit_index_ n) (last_applied_ n) (self_is_member_ n)
  (pending_self_removal_index_ n) (joining_ n) (apply_errors_ n) (election_deadline_ n)
  (next_heartbeat_time_ n) (votes_received_ n) (last_leader_contact_ n) (next_index_ n)
  (match_index_ n) (replication_in_flight_ n) (sm_ n) (fs_ n) (rpcs_ n).
Definition set_log (x : RaftLog) (n : RaftNode) : RaftNode :=
MkNode (id_ n) (own_address_ n) (peers_ n) (state_dir_ n) (state_ n) x (membership_state_ n)
  (role_ n) (leader_hint_ n) (commit_index_ n) (last_applied_ n) (self_is_member_ n)
  (pending_self_removal_index_ n) (joining_ n) (apply_errors_ n) (election_deadline_ n)
  (next_heartbeat_time_ n) (votes_received_ n) (last_leader_contact_ n) (next_index_ n)
  (match_index_ n) (replication_in_flight_ n) (sm_ n) (fs_ n) (rpcs_ n).
Definition set_membership_state (x : MembershipState.t) (n : RaftNode) : RaftNode :=
MkNode (id_ n) (own_address_ n) (peers_ n) (state_dir_ n) (state_ n) (log_ n) x (role_ n)
  (leader_hint_ n) (commit_index_ n) (last_applied_ n) (self_is_member_ n)
  (pending_self_removal_index_ n) (joining_ n) (apply_errors_ n) (election_deadline_ n)
  (next_heartbeat_time_ n) (votes_received_ n) (last_leader_contact_ n) (next_index_ n)
  (match_index_ n) (replication_in_flight_ n) (sm_ n) (fs_ n) (rpcs_ n).
Definition set_role (x : Role) (n : RaftNode) : RaftNode :=
MkNode (id_ n) (own_address_ n) (peers_ n) (state_dir_ n) (state_ n) (log_ n)
  (membership_state_ n) x (leader_hint_ n) (commit_index_ n) (last_applied_ n)
  (self_is_member_ n) (pending_self_removal_index_ n) (joining_ n) (apply_errors_ n)
  (election_deadline_ n) (next_heartbeat_time_ n) (votes_received_ n) (last_leader_contact_ n)
  (next_index_ n) (match_index_ n) (replication_in_flight_ n) (sm_ n) (fs_ n) (rpcs_ n).
Definition set_leader_hint (x : NodeId) (n : RaftNode) : RaftNode :=
MkNode (id_ n) (own_address_ n) (peers_ n) (state_dir_ n) (state_ n) (log_ n)
  (membership_state_ n) (role_ n) x (commit_index_ n) (last_applied_ n) (self_is_member_ n)
  (pending_self_removal_index_ n) (joining_ n) (apply_errors_ n) (election_deadline_ n)
  (next_heartbeat_time_ n) (votes_received_ n) (last_leader_contact_ n) (next_index_ n)
  (match_index_ n) (replication_in_flight_ n) (sm_ n) (fs_ n) (rpcs_ n).
Definition set_commit_index (x : LogIndex) (n : RaftNode) : RaftNode :=
MkNode (id_ n) (own_address_ n) (peers_ n) (state_dir_ n) (state_ n) (log_ n)
  (membership_state_ n) (role_ n) (leader_hint_ n) x (last_applied_ n) (self_is_member_ n)
  (pending_self_removal_index_ n) (joining_ n) (apply_errors_ n) (election_deadline_ n)
  (next_heartbeat_time_ n) (votes_received_ n) (last_leader_contact_ n) (next_index_ n)
  (match_index_ n) (replication_in_flight_ n) (sm_ n) (fs_ n) (rpcs_ n).
Definition set_last_applied (x : LogIndex) (n : RaftNode) : RaftNode :=
MkNode (id_ n) (own_address_ n) (peers_ n) (state_dir_ n) (state_ n) (log_ n)
  (membership_state_ n) (role_ n) (leader_hint_ n) (commit_index_ n) x (self_is_member_ n)
  (pending_self_removal_index_ n) (joining_ n) (apply_errors_ n) (election_deadline_ n)
  (next_heartbeat_time_ n) (votes_received_ n) (last_leader_contact_ n) (next_index_ n)
  (match_index_ n) (replication_in_flight_ n) (sm_ n) (fs_ n) (rpcs_ n).
Definition set_self_is_member (x : bool) (n : RaftNode) : RaftNode :=
MkNode (id_ n) (own_address_ n) (peers_ n) (state_dir_ n) (state_ n) (log_ n)
  (membership_state_ n) (role_ n) (leader_hint_ n) (commit_index_ n) (last_applied_ n) x
  (pending_self_removal_index_ n) (joining_ n) (apply_errors_ n) (election_deadline_ n)
  (next_heartbeat_time_ n) (votes_received_ n) (last_leader_contact_ n) (next_index_ n)
  (match_index_ n) (replication_in_flight_ n) (sm_ n) (fs_ n) (rpcs_ n).
Definition set_pending_self_removal_index (x : LogIndex) (n : RaftNode) : RaftNode :=
MkNode (id_ n) (own_address_ n) (peers_ n) (state_dir_ n) (state_ n) (log_ n)
  (membership_state_ n) (role_ n) (leader_hint_ n) (commit_index_ n) (last_applied_ n)
  (self_is_member_ n) x (joining_ n) (apply_errors_ n) (election_deadline_ n)
  (next_heartbeat_time_ n) (votes_received_ n) (last_leader_contact_ n) (next_index_ n)
  (match_index_ n) (replication_in_flight_ n) (sm_ n) (fs_ n) (rpcs_ n).
Definition set_joining (x : bool) (n : RaftNode) : RaftNode :=
MkNode (id_ n) (own_address_ n) (peers_ n) (state_dir_ n) (state_ n) (log_ n)
  (membership_state_ n) (role_ n) (leader_hint_ n) (commit_index_ n) (last_applied_ n)
  (self_is_member_ n) (pending_self_removal_index_ n) x (apply_errors_ n)
  (election_deadline_ n) (next_heartbeat_time_ n) (votes_received_ n) (last_leader_contact_ n)
  (next_index_ n) (match_index_ n) (replication_in_flight_ n) (sm_ n) (fs_ n) (rpcs_ n).
Definition set_apply_errors (x : gmap N bytes) (n : RaftNode) : RaftNode :=
MkNode (id_ n) (own_address_ n) (peers_ n) (state_dir_ n) (state_ n) (log_ n)
  (membership_state_ n) (role_ n) (leader_hint_ n) (commit_index_ n) (last_applied_ n)
  (self_is_member_ n) (pending_self_removal_index_ n) (joining_ n) x (election_deadline_ n)
  (next_heartbeat_time_ n) (votes_received_ n) (last_leader_contact_ n) (next_index_ n)
  (match_index_ n) (replication_in_flight_ n) (sm_ n) (fs_ n) (rpcs_ n).
Definition set_election_deadline (x : N) (n : RaftNode) : RaftNode :=
MkNode (id_ n) (own_address_ n) (peers_ n) (state_dir_ n) (state_ n) (log_ n)
  (membership_state_ n) (role_ n) (leader_hint_ n) (commit_index_ n) (last_applied_ n)
  (self_is_member_ n) (pending_self_removal_index_ n) (joining_ n) (apply_errors_ n) x
  (next_heartbeat_time_ n) (votes_received_ n) (last_leader_contact_ n) (next_index_ n)
  (match_index_ n) (replication_in_flight_ n) (sm_ n) (fs_ n) (rpcs_ n).
Definition set_next_heartbeat_time (x : N) (n : RaftNode) : RaftNode :=
MkNode (id_ n) (own_address_ n) (peers_ n) (state_dir_ n) (state_ n) (log_ n)
  (membership_state_ n) (role_ n) (leader_hint_ n) (commit_index_ n) (last_applied_ n)
  (self_is_member_ n) (pending_self_removal_index_ n) (joining_ n) (apply_errors_ n)
  (election_deadline_ n) x (votes_received_ n) (last_leader_contact_ n) (next_index_ n)
  (match_index_ n) (replication_in_flight_ n) (sm_ n) (fs_ n) (rpcs_ n).
Definition set_votes_received (x : N) (n : RaftNode) : RaftNode :=
MkNode (id_ n) (own_address_ n) (peers_ n) (state_dir_ n) (state_ n) (log_ n)
  (membership_state_ n) (role_ n) (leader_hint_ n) (commit_index_ n) (last_applied_ n)
  (self_is_member_ n) (pending_self_removal_index_ n) (joining_ n) (apply_errors_ n)
  (election_deadline_ n) (next_heartbeat_time_ n) x (last_leader_contact_ n) (next_index_ n)
  (match_index_ n) (replication_in_flight_ n) (sm_ n) (fs_ n) (rpcs_ n).
Definition set_last_leader_contact (x : option N) (n : RaftNode) : RaftNode :=
MkNode (id_ n) (own_address_ n) (peers_ n) (state_dir_ n) (state_ n) (log_ n)
  (membership_state_ n) (role_ n) (leader_hint_ n) (commit_index_ n) (last_applied_ n)
  (self_is_member_ n) (pending_self_removal_index_ n) (joining_ n) (apply_errors_ n)
  (election_deadline_ n) (next_heartbeat_time_ n) (votes_received_ n) x (next_index_ n)
  (match_index_ n) (replication_in_flight_ n) (sm_ n) (fs_ n) (rpcs_ n).
Definition set_next_index (x : gmap N N) (n : RaftNode) : RaftNode :=
MkNode (id_ n) (own_address_ n) (peers_ n) (state_dir_ n) (state_ n) (log_ n)
  (membership_state_ n) (role_ n) (leader_hint_ n) (commit_index_ n) (last_applied_ n)
  (self_is_member_ n) (pending_self_removal_index_ n) (joining_ n) (apply_errors_ n)
  (election_deadline_ n) (next_heartbeat_time_ n) (votes_received_ n) (last_leader_contact_ n)
  x (match_index_ n) (replication_in_flight_ n) (sm_ n) (fs_ n) (rpcs_ n).
Definition set_match_index (x : gmap N N) (n : RaftNode) : RaftNode :=
MkNode (id_ n) (own_address_ n) (peers_ n) (state_dir_ n) (state_ n) (log_ n)
  (membership_state_ n) (role_ n) (leader_hint_ n) (commit_index_ n) (last_applied_ n)
  (self_is_member_ n) (pending_self_removal_index_ n) (joining_ n) (apply_errors_ n)
  (election_deadline_ n) (next_heartbeat_time_ n) (votes_received_ n) (last_leader_contact_ n)
  (next_index_ n) x (replication_in_flight_ n) (sm_ n) (fs_ n) (rpcs_ n).
Definition set_replication_in_flight (x : gset N) (n : RaftNode) : RaftNode :=
MkNode (id_ n) (own_address_ n) (peers_ n) (state_dir_ n) (state_ n) (log_ n)
  (membership_state_ n) (role_ n) (leader_hint_ n) (commit_index_ n) (last_applied_ n)
  (self_is_member_ n) (pending_self_removal_index_ n) (joining_ n) (apply_errors_ n)
  (election_deadline_ n) (next_heartbeat_time_ n) (votes_received_ n) (last_leader_contact_ n)
  (next_index_ n) (match_index_ n) x (sm_ n) (fs_ n) (rpcs_ n).
Definition set_sm (x : SM) (n : RaftNode) : RaftNode :=
MkNode (id_ n) (own_address_ n) (peers_ n) (state_dir_ n) (state_ n) (log_ n)
  (membership_state_ n) (role_ n) (leader_hint_ n) (commit_index_ n) (last_applied_ n)
  (self_is_member_ n) (pending_self_removal_index_ n) (joining_ n) (apply_errors_ n)
  (election_deadline_ n) (next_heartbeat_time_ n) (votes_received_ n) (last_leader_contact_ n)
  (next_index_ n) (match_index_ n) (replication_in_flight_ n) x (fs_ n) (rpcs_ n).
Definition set_fs (x : FileSystem) (n : RaftNode) : RaftNode :=
MkNode (id_ n) (own_address_ n) (peers_ n) (state_dir_ n) (state_ n) (log_ n)
  (membership_state_ n) (role_ n) (leader_hint_ n) (commit_index_ n) (last_applied_ n)
  (self_is_member_ n) (pending_self_removal_index_ n) (joining_ n) (apply_errors_ n)
  (election_deadline_ n) (next_heartbeat_time_ n) (votes_received_ n) (last_leader_contact_ n)
  (next_index_ n) (match_index_ n) (replication_in_flight_ n) (sm_ n) x (rpcs_ n).
Definition set_rpcs (x : list Rpc) (n : RaftNode) : RaftNode :=
MkNode (id_ n) (own_address_ n) (peers_ n) (state_dir_ n) (state_ n) (log_ n)
  (membership_state_ n) (role_ n) (leader_hint_ n) (commit_index_ n) (last_applied_ n)
  (self_is_member_ n) (pending_self_removal_index_ n) (joining_ n) (apply_errors_ n)
  (election_deadline_ n) (next_heartbeat_time_ n) (votes_received_ n) (last_leader_contact_ n)
  (next_index_ n) (match_index_ n) (replication_in_flight_ n) (sm_ n) (fs_ n) x.

Definition state_path (n : RaftNode) : bytes :=
state_dir_ n ++ str "/raft_state_" ++ to_string (id_ n) ++ str ".txt".
Definition log_path (n : RaftNode) : bytes :=
state_dir_ n ++ str "/raft_log_" ++ to_string (id_ n) ++ str ".bin".
Definition membership_path (n : RaftNode) : bytes := MembershipState.PathFor (state_dir_ n) (id_ n).

Definition emit (ops : list fs_op) (n : RaftNode) : RaftNode := set_fs (fs_run ops (fs_ n)) n.

(** [state_.Set(term, vote)], [membership_state_.Set(..)], [log_.Save()]. *)
Definition SetState (term : Term) (vote : option NodeId) (n : RaftNode) : RaftNode :=
let '(s, ops) := PersistentState.Set_ (state_path n) term vote in emit ops (set_state s n).

Definition SetMembership (peers : peer_map) (member : bool) (own : PeerAddress) (n : RaftNode) : RaftNode :=
let '(s, ops) := MembershipState.Set_ (membership_path n) peers member own in
emit ops (set_membership_state s n).

Definition SaveLog (n : RaftNode) : RaftNode := emit (RaftLog.Save (log_path n) (log_ n)) n.

Definition current_term (n : RaftNode) : Term := PersistentState.current_term (state_ n).
Definition voted_for (n : RaftNode) : option NodeId := PersistentState.voted_for (state_ n).

Definition ResetElectionDeadline (env : Env) (n : RaftNode) : RaftNode :=
set_election_deadline (now env + timeout env)%N n.

(** [for (LogIndex i = first; i <= last; i++)]. *)
Definition indices (first last : LogIndex) : list LogIndex :=
map (fun k => (first + N.of_nat k)%N) (seq 0 (N.to_nat (last + 1 - first))).

(** ** The constructor *)

Definition new_node (id : NodeId) (own_address : PeerAddress) (peers : peer_map) (state_dir : bytes)
  (joining : bool) (sm : SM) (d : files_t) : outcome RaftNode :=
let n := MkNode id own_address peers state_dir PersistentState.fresh empty_log MembershipState.fresh
           kFollower 0 0 0 true 0 joining ∅ 0 0 0 None ∅ ∅ ∅ sm {| files := d; journal := [] |} [] in
let n := set_state (PersistentState.Load (state_path n) d) n in
let n := set_log (RaftLog.Load (log_path n) d) n in
m ← MembershipState.Load (membership_path n) d;
let n := set_membership_state m n in
let n :=
  if MembershipState.has_file m then
    set_joining false (set_own_address (MembershipState.own_address m)
      (set_self_is_member (MembershipState.self_is_member m)
        (set_peers (MembershipState.base_peers m) n)))
  else
    let n := set_self_is_member (negb joining) n in
    SetMembership (peers_ n) (self_is_member_ n) (own_address_ n) n in
let n := set_last_applied (applied_index (log_ n)) n in
Ret (set_commit_index (applied_index (log_ n)) n).

(** ** Membership *)

(** The accumulators of the loop of [RefreshMembership]. *)
Record MembershipScan := { effective : peer_map; effective_self_member : bool; pending_removal : LogIndex }.

Definition scan_change (n : RaftNode) (i : LogIndex) (cc : ConfChangeCommand) (s : MembershipScan)
  : MembershipScan :=
if cc_type cc is kAddServer then
  if decide (cc_server_id cc = id_ n) then
    {| effective := effective s; effective_self_member := true; pending_removal := 0 |}
  else
    {| effective := <[cc_server_id cc := {| host := cc_host cc; port := cc_port cc |}]> (effective s);
       effective_self_member := effective_self_member s; pending_removal := pending_removal s |}
else
  if decide (cc_server_id cc = id_ n) then
    if decide (role_ n = kLeader /\ (commit_index_ n < i)%N) then
      {| effective := effective s; effective_self_member := effective_self_member s; pending_removal := i |}
    else
      {| effective := effective s; effective_self_member := false; pending_removal := pending_removal s |}
  else
    {| effective := delete (cc_server_id cc) (effective s);
       effective_self_member := effective_self_member s; pending_removal := pending_removal s |}.

Definition scan_index (n : RaftNode) (i : LogIndex) : ST MembershipScan unit :=
match At i (log_ n) with
| None => mret tt
| Some e =>
  cc ← st_lift (TryDecodeConfChange (command e));
  match cc with
  | None => mret tt
  | Some cc => st_modify (scan_change n i cc)
  end
end.

Definition scan_log (n : RaftNode) : outcome unit * MembershipScan :=
st_for (indices (snapshot_index (log_ n) + 1) (LastIndex (log_ n))) (scan_index n)
  {| effective := MembershipState.base_peers (membership_state_ n);
     effective_self_member := MembershipState.self_is_member (membership_state_ n);
     pending_removal := 0 |}.

Definition adopt_peer (n : RaftNode) (p : NodeId * PeerAddress) : RaftNode :=
let is_new := bool_decide (peers_ n !! p.1 = None) in
let n := set_peers (<[p.1 := p.2]> (peers_ n)) n in
if is_new && bool_decide (role_ n = kLeader) then
  set_match_index (<[p.1 := 0%N]> (match_index_ n)) (set_next_index (<[p.1 := 1%N]> (next_index_ n)) n)
else n.

Definition drop_peer (eff : peer_map) (n : RaftNode) (p : NodeId * PeerAddress) : RaftNode :=
match eff !! p.1 with
| Some _ => n
| None =>
  set_peers (delete p.1 (peers_ n))
    (set_replication_in_flight (replication_in_flight_ n ∖ {[p.1]})
      (set_match_index (delete p.1 (match_index_ n))
        (set_next_index (delete p.1 (next_index_ n)) n)))
end.

(** The two loops over the maps at the end of [RefreshMembership]. *)
Definition adopt_peers (eff : peer_map) (n : RaftNode) : RaftNode :=
let n := foldl adopt_peer n (map_entries eff) in
foldl (drop_peer eff) n (map_entries (peers_ n)).

Definition RefreshMembership : ST RaftNode unit :=
n ← st_get;
let '(r, s) := scan_log n in
_ ← st_modify (set_pending_self_removal_index (pending_removal s));
_ ← st_lift r;
_ ← st_modify (set_self_is_member (effective_self_member s));
st_modify (adopt_peers (effective s)).

(** ** Roles *)

Definition BecomeFollower (env : Env) (t : Term) (n : RaftNode) : RaftNode :=
let n := if (current_term n <? t)%N then SetState t None n else n in
ResetElectionDeadline env (set_role kFollower n).

(** The loop over [peers_] of [BecomeLeader]. *)
Definition init_progress (n : RaftNode) : RaftNode :=
foldl (fun n p =>
  set_match_index (<[p.1 := 0%N]> (match_index_ n))
    (set_next_index (<[p.1 := u64_add (LastIndex (log_ n)) 1]> (next_index_ n)) n))
  n (map_entries (peers_ n)).

Definition BecomeLeader (env : Env) : ST RaftNode unit :=
_ ← RefreshMembership;
st_modify (fun n =>
  init_progress (set_replication_in_flight ∅ (set_next_heartbeat_time (now env)
    (set_leader_hint (id_ n) (set_role kLeader n))))).

(** ** Applying *)

(** Runs a callback on the state machine. *)
Definition on_sm {A} (m : ST SM A) : ST RaftNode A := fun n =>
let '(r, s) := m (sm_ n) in (r, set_sm s n).

(** One iteration of the loop of [ApplyCommitted]. *)
Definition apply_next : ST RaftNode unit :=
_ ← st_modify (fun n => set_last_applied (u64_add (last_applied_ n) 1) n);
n ← st_get;
_ ← match At (last_applied_ n) (log_ n) with
    | None => mret tt
    | Some e =>
      cc ← st_lift (TryDecodeConfChange (command e));
      match cc with
      | Some _ => mret tt
      | None =>
        error ← on_sm (apply_callback (index e) (command e));
        if decide (error = []) then mret tt
        else st_modify (fun n => set_apply_errors (<[index e := error]> (apply_errors_ n)) n)
      end
    end;
st_modify (fun n => SaveLog (set_log (SetAppliedIndex (last_applied_ n) (log_ n)) n)).

(** The membership changes about to be compacted away, folded into the persisted base: the
  base, whether this node is in it, and whether anything was found. *)
Record BaseScan := { new_base : peer_map; new_base_self_member : bool; membership_changed : bool }.

Definition fold_change (n : RaftNode) (cc : ConfChangeCommand) (s : BaseScan) : BaseScan :=
if cc_type cc is kAddServer then
  if decide (cc_server_id cc = id_ n) then
    {| new_base := new_base s; new_base_self_member := true; membership_changed := true |}
  else
    {| new_base := <[cc_server_id cc := {| host := cc_host cc; port := cc_port cc |}]> (new_base s);
       new_base_self_member := new_base_self_member s; membership_changed := true |}
else
  if decide (cc_server_id cc = id_ n) then
    {| new_base := new_base s; new_base_self_member := false; membership_changed := true |}
  else
    {| new_base := delete (cc_server_id cc) (new_base s);
       new_base_self_member := new_base_self_member s; membership_changed := true |}.

Definition fold_index (n : RaftNode) (i : LogIndex) : ST BaseScan unit :=
match At i (log_ n) with
| None => mret tt
| Some e =>
  cc ← st_lift (TryDecodeConfChange (command e));
  match cc with
  | None => mret tt
  | Some cc => st_modify (fold_change n cc)
  end
end.

Definition fold_base (n : RaftNode) : outcome unit * BaseScan :=
st_for (indices (snapshot_index (log_ n) + 1) (last_applied_ n)) (fold_index n)
  {| new_base := MembershipState.base_peers (membership_state_ n);
     new_base_self_member := MembershipState.self_is_member (membership_state_ n);
     membership_changed := false |}.

(** [log_.CompactTo(i, t)]. *)
Definition CompactLog (i : LogIndex) (t : Term) (n : RaftNode) : RaftNode :=
let '(saved, l) := CompactTo i t (log_ n) in
let n := set_log l n in
if saved then SaveLog n else n.

(** [apply_errors_.erase(begin, upper_bound(i))]. *)
Definition prune_errors (i : LogIndex) (n : RaftNode) : RaftNode :=
set_apply_errors (filter (fun p : N * bytes => (i < p.1)%N) (apply_errors_ n)) n.

Definition compact_applied : ST RaftNode unit :=
n ← st_get;
if (kCompactionThreshold <=? u64_sub (last_applied_ n) (snapshot_index (log_ n)))%N then
  let old_snapshot_index := snapshot_index (log_ n) in
  let '(r, s) := fold_base n in
  _ ← st_lift r;
  _ ← (if membership_changed s
       then st_modify (SetMembership (new_base s) (new_base_self_member s) (own_address_ n))
       else mret tt);
  _ ← st_modify (fun n => CompactLog (last_applied_ n) (TermAt (last_applied_ n) (log_ n)) n);
  st_modify (prune_errors old_snapshot_index)
else mret tt.

(** The loop runs until [last_applied_] reaches [commit_index_], which does not change in it. *)
Definition ApplyCommitted : ST RaftNode unit :=
n ← st_get;
_ ← st_for (seq 0 (N.to_nat (commit_index_ n - last_applied_ n))) (fun _ => apply_next);
compact_applied.

(** ** Committing *)

(** [std::sort(.., std::greater<LogIndex>())]. *)
Definition not_below (a b : LogIndex) : Prop := (b <= a)%N.

#[export] Instance not_below_dec a b : Decision (not_below a b) := decide (_ <= _)%N.

Definition descending (l : list LogIndex) : list LogIndex := merge_sort not_below l.

Definition match_indices (n : RaftNode) : list LogIndex :=
LastIndex (log_ n) :: (map_entries (match_index_ n)).*2.

(** [match_indices[match_indices.size() / 2]] after sorting; the list is not empty. *)
Definition majority_index (n : RaftNode) : LogIndex :=
let l := descending (match_indices n) in default 0%N (l !! (length l / 2)%nat).

Definition MaybeAdvanceCommitIndex : ST RaftNode unit :=
n ← st_get;
let m := majority_index n in
if ((commit_index_ n <? m) && (TermAt m (log_ n) =? current_term n))%N then
  _ ← st_modify (set_commit_index m);
  _ ← ApplyCommitted;
  n ← st_get;
  if (negb (pending_self_removal_index_ n =? 0) && (pending_self_removal_index_ n <=? commit_index_ n))%N then
    _ ← RefreshMembership;
    n' ← st_get;
    if bool_decide (role_ n = kLeader) && negb (self_is_member_ n')
    then st_modify (set_role kFollower) else mret tt
  else mret tt
else mret tt.

(** ** Elections *)

(** [now() - last_leader_contact_ < milliseconds(kElectionTimeoutMinMs)]. *)
Definition heard_recently (env : Env) (n : RaftNode) : bool :=
match last_leader_contact_ n with
| Some t => (now env <? t + kElectionTimeoutMinMs)%N
| None => false
end.

Definition HandleRequestVote (env : Env) (req : RequestVoteRequest) (n : RaftNode)
  : RequestVoteResponse * RaftNode :=
if heard_recently env n then ({| rvr_term := current_term n; rvr_vote_granted := false |}, n)
else if (rv_term req <? current_term n)%N then
  ({| rvr_term := current_term n; rvr_vote_granted := false |}, n)
else
  let n := if (current_term n <? rv_term req)%N then BecomeFollower env (rv_term req) n else n in
  let already_voted_elsewhere :=
    match voted_for n with Some v => negb (v =? rv_candidate_id req)%N | None => false end in
  let my_last_term := LastTerm (log_ n) in
  let my_last_index := LastIndex (log_ n) in
  let candidate_log_ok :=
    (my_last_term <? rv_last_log_term req)%N ||
    ((rv_last_log_term req =? my_last_term)%N && (my_last_index <=? rv_last_log_index req)%N) in
  if negb already_voted_elsewhere && candidate_log_ok then
    let n := SetState (current_term n) (Some (rv_candidate_id req)) n in
    let n := ResetElectionDeadline env n in
    ({| rvr_term := current_term n; rvr_vote_granted := true |}, n)
  else ({| rvr_term := current_term n; rvr_vote_granted := false |}, n).

Inductive TickAction := start_election | replicate | nothing.

(** One iteration of [TickerLoop], up to the calls it decides on. *)
Definition Tick (env : Env) (n : RaftNode) : TickAction * RaftNode :=
if negb (bool_decide (role_ n = kLeader)) && (election_deadline_ n <=? now env)%N then (start_election, n)
else if bool_decide (role_ n = kLeader) && (next_heartbeat_time_ n <=? now env)%N then
  (replicate, set_next_heartbeat_time (now env + kHeartbeatInterval)%N n)
else (nothing, n).

(** [votes_received_ * 2 > static_cast<int>(peers_.size() + 1)]. *)
Definition has_majority (n : RaftNode) : bool :=
(N.of_nat (size (peers_ n)) + 1 <? votes_received_ n * 2)%N.

Definition start_rpcs (l : list Rpc) (n : RaftNode) : RaftNode := set_rpcs (rpcs_ n ++ l) n.

Definition StartElection (env : Env) : ST RaftNode unit :=
_ ← RefreshMembership;
n ← st_get;
if negb (self_is_member_ n) then st_modify (ResetElectionDeadline env)
else
  _ ← st_modify (fun n => SetState (u64_add (current_term n) 1) (Some (id_ n)) n);
  _ ← st_modify (set_role kCandidate);
  _ ← st_modify (set_votes_received 1);
  _ ← st_modify (ResetElectionDeadline env);
  n ← st_get;
  if has_majority n then BecomeLeader env
  else
    let req := {| rv_term := current_term n; rv_candidate_id := id_ n;
                  rv_last_log_index := LastIndex (log_ n); rv_last_log_term := LastTerm (log_ n) |} in
    st_modify (start_rpcs (map (fun p => RpcVote p.2 (current_term n) req) (map_entries (peers_ n)))).

(** The vote thread, with the decoded response. *)
Definition OnVoteResponse (env : Env) (election_term : Term) (resp : RequestVoteResponse) : ST RaftNode unit :=
n ← st_get;
if (current_term n <? rvr_term resp)%N then st_modify (BecomeFollower env (rvr_term resp))
else if negb (bool_decide (role_ n = kCandidate)) || negb (election_term =? current_term n)%N then mret tt
else if rvr_vote_granted resp then
  _ ← st_modify (fun n => set_votes_received (votes_received_ n + 1)%N n);
  n ← st_get;
  if has_majority n then BecomeLeader env else mret tt
else mret tt.

(** ** Replication, the leader's side *)

(** What [log_.At(i)] has for [i] from [first] to the end. *)
Definition entries_from (first : LogIndex) (l : RaftLog) : list LogEntry :=
omap (fun i => At i l) (indices first (LastIndex l)).

(** [next_index_[peer_id]]: a missing entry is created as 0. *)
Definition next_of (peer_id : NodeId) (n : RaftNode) : LogIndex * RaftNode :=
let next_idx := default 0%N (next_index_ n !! peer_id) in
(next_idx, set_next_index (<[peer_id := next_idx]> (next_index_ n)) n).

Definition in_flight (peer_id : NodeId) (b : bool) (n : RaftNode) : RaftNode :=
set_replication_in_flight
  (if b then replication_in_flight_ n ∪ {[peer_id]} else replication_in_flight_ n ∖ {[peer_id]}) n.

Definition SendInstallSnapshot (peer_id : NodeId) (addr : PeerAddress) (t : Term) (n : RaftNode) : RaftNode :=
if negb (bool_decide (role_ n = kLeader)) || negb (t =? current_term n)%N then in_flight peer_id false n
else
  let snapshot_index := last_applied_ n in
  let req :=
    {| is_term := t; is_leader_id := id_ n; is_last_included_index := snapshot_index;
       is_last_included_term := TermAt snapshot_index (log_ n);
       is_data := snapshot_callback (sm_ n);
       is_membership := <[id_ n := own_address_ n]> (peers_ n) |} in
  start_rpcs [RpcSnapshot peer_id addr t snapshot_index req] n.

(** The first critical section of [ReplicateTo], and the request it leads to: the term, when the
    peer needs a snapshot. *)
Definition BeginReplicate (peer_id : NodeId) (addr : PeerAddress) (n : RaftNode) : option Term * RaftNode :=
if negb (bool_decide (role_ n = kLeader)) then (None, n)
else if decide (peer_id ∈ replication_in_flight_ n) then (None, n)
else
  let t := current_term n in
  let '(next_idx, n) := next_of peer_id n in
  if (next_idx <=? snapshot_index (log_ n))%N then
    (Some t, in_flight peer_id true n)
  else
    let prev_log_index := (next_idx - 1)%N in
    let entries_to_send := entries_from next_idx (log_ n) in
    let req :=
      {| ae_term := t; ae_leader_id := id_ n; ae_prev_log_index := prev_log_index;
         ae_prev_log_term := TermAt prev_log_index (log_ n); ae_entries := entries_to_send;
         ae_leader_commit := commit_index_ n |} in
    (None, start_rpcs [RpcAppend peer_id addr t prev_log_index (length entries_to_send) req]
      (in_flight peer_id true n)).

(** [SendInstallSnapshot] takes the lock again: when nothing comes between, it is this. *)
Definition ReplicateTo (peer_id : NodeId) (addr : PeerAddress) (n : RaftNode) : RaftNode :=
match BeginReplicate peer_id addr n with
| (Some t, n) => SendInstallSnapshot peer_id addr t n
| (None, n) => n
end.

(** Each [ReplicateTo] takes the lock anew, too. *)
Definition ReplicateToAll (n : RaftNode) : RaftNode :=
if negb (bool_decide (role_ n = kLeader)) then n
else foldl (fun n p => ReplicateTo p.1 p.2 n) n (map_entries (peers_ n)).

(** The response threads. [None] is an RPC that failed. *)
Definition OnAppendResponse (env : Env) (peer_id : NodeId) (t : Term) (prev_log_index : LogIndex)
  (sent_count : nat) (resp : option AppendEntriesResponse) : ST RaftNode unit :=
_ ← st_modify (in_flight peer_id false);
match resp with
| None => mret tt
| Some resp =>
  n ← st_get;
  if bool_decide (peers_ n !! peer_id = None) then mret tt
  else if (current_term n <? aer_term resp)%N then st_modify (BecomeFollower env (aer_term resp))
  else if negb (bool_decide (role_ n = kLeader)) || negb (t =? current_term n)%N then mret tt
  else if aer_success resp then
    let new_match := u64_add prev_log_index (N.of_nat sent_count) in
    _ ← st_modify (fun n =>
          let m := N.max (default 0%N (match_index_ n !! peer_id)) new_match in
          set_next_index (<[peer_id := u64_add m 1]> (next_index_ n))
            (set_match_index (<[peer_id := m]> (match_index_ n)) n));
    MaybeAdvanceCommitIndex
  else
    st_modify (fun n =>
      let '(next_idx, n) := next_of peer_id n in
      if (1 <? next_idx)%N then set_next_index (<[peer_id := next_idx - 1]> (next_index_ n))%N n else n)
end.

Definition OnSnapshotResponse (env : Env) (peer_id : NodeId) (t : Term) (snapshot_index : LogIndex)
  (resp : option InstallSnapshotResponse) (n : RaftNode) : RaftNode :=
let n := in_flight peer_id false n in
match resp with
| None => n
| Some resp =>
  if bool_decide (peers_ n !! peer_id = None) then n
  else if (current_term n <? isr_term resp)%N then BecomeFollower env (isr_term resp) n
  else if negb (bool_decide (role_ n = kLeader)) || negb (t =? current_term n)%N then n
  else
    set_match_index (<[peer_id := snapshot_index]> (match_index_ n))
      (set_next_index (<[peer_id := u64_add snapshot_index 1]> (next_index_ n)) n)
end.

(** ** Replication, the follower's side *)

(** Hearing from the leader of [t]: the common part of the two handlers. *)
Definition hear_leader (env : Env) (t : Term) (leader : NodeId) (n : RaftNode) : RaftNode :=
let n := if (current_term n <? t)%N || negb (bool_decide (role_ n = kFollower))
         then BecomeFollower env t n else n in
set_leader_hint leader (set_last_leader_contact (Some (now env)) (ResetElectionDeadline env n)).

(** [log_.AppendEntriesFrom(..)], saving the log when it changed. *)
Definition AppendToLog (prev : LogIndex) (prev_term : Term) (new : list LogEntry) : ST RaftNode bool :=
n ← st_get;
let '(ok, saved, l) := AppendEntriesFrom prev prev_term new (log_ n) in
_ ← st_modify (set_log l);
_ ← (if saved : bool then st_modify SaveLog else mret tt);
mret ok.

Definition HandleAppendEntries (env : Env) (req : AppendEntriesRequest) : ST RaftNode AppendEntriesResponse :=
n ← st_get;
if (ae_term req <? current_term n)%N then
  mret {| aer_term := current_term n; aer_success := false; aer_match_index := 0 |}
else
  _ ← st_modify (hear_leader env (ae_term req) (ae_leader_id req));
  ok ← AppendToLog (ae_prev_log_index req) (ae_prev_log_term req) (ae_entries req);
  n ← st_get;
  if negb ok then mret {| aer_term := current_term n; aer_success := false; aer_match_index := 0 |}
  else
    _ ← RefreshMembership;
    n ← st_get;
    _ ← (if (commit_index_ n <? ae_leader_commit req)%N then
           _ ← st_modify (set_commit_index (N.min (ae_leader_commit req) (LastIndex (log_ n))));
           ApplyCommitted
         else mret tt);
    n ← st_get;
    mret {| aer_term := current_term n; aer_success := true;
            aer_match_index := u64_add (ae_prev_log_index req) (N.of_nat (length (ae_entries req))) |}.

(** The first critical section of [HandleInstallSnapshot]: a response when it ends the call. *)
Definition BeginInstall (env : Env) (req : InstallSnapshotRequest) (n : RaftNode)
  : option InstallSnapshotResponse * RaftNode :=
if (is_term req <? current_term n)%N then (Some {| isr_term := current_term n |}, n)
else
  let n := hear_leader env (is_term req) (is_leader_id req) n in
  if (is_last_included_index req <=? snapshot_index (log_ n))%N
  then (Some {| isr_term := current_term n |}, n) else (None, n).

(** The second one, after the restore. *)
Definition FinishInstall (req : InstallSnapshotRequest) : ST RaftNode InstallSnapshotResponse :=
n ← st_get;
let lii := is_last_included_index req in
_ ← (if (snapshot_index (log_ n) <? lii)%N then
       _ ← st_modify (CompactLog lii (is_last_included_term req));
       _ ← st_modify (fun n => if (commit_index_ n <? lii)%N then set_commit_index lii n else n);
       _ ← st_modify (fun n =>
             if (last_applied_ n <? lii)%N then
               let n := set_last_applied lii n in
               SaveLog (set_log (SetAppliedIndex lii (log_ n)) n)
             else n);
       _ ← st_modify (fun n =>
             match is_membership req !! id_ n with Some own => set_own_address own n | None => n end);
       _ ← st_modify (fun n =>
             SetMembership (delete (id_ n) (is_membership req))
               (bool_decide (is_Some (is_membership req !! id_ n))) (own_address_ n) n);
       RefreshMembership
     else mret tt);
n ← st_get;
mret {| isr_term := current_term n |}.

(** The whole call; [others] is what other threads do while the state machine is restored
  without the lock. *)
Definition HandleInstallSnapshot (others : RaftNode -> RaftNode) (env : Env) (req : InstallSnapshotRequest)
  : ST RaftNode InstallSnapshotResponse :=
n ← st_get;
let '(r, n1) := BeginInstall env req n in
_ ← st_modify (fun _ => n1);
match r with
| Some resp => mret resp
| None =>
  _ ← on_sm (restore_callback (is_data req));
  _ ← st_modify others;
  FinishInstall req
end.

(** ** Clients *)

(** Nothing makes the callback leave the state machine alone. *)
Definition HandleReadRequest (req : ReadRequest) : ST RaftNode ReadResponse :=
st_catch (r ← on_sm (read_callback (rd_query req)); mret {| rdr_error := false; rdr_result := r |})
         (fun e => mret {| rdr_error := true; rdr_result := what e |}).

Definition HandleDescribeCluster (req : DescribeClusterRequest) (n : RaftNode) : DescribeClusterResponse :=
{| dc_id := id_ n; dc_own_address := own_address_ n; dc_peers := peers_ n |}.

(** The scan of [Propose] for a membership change that is not committed yet. *)
Fixpoint conf_pending (todo : list LogIndex) (l : RaftLog) : outcome bool :=
match todo with
| [] => Ret false
| i :: todo =>
  match At i l with
  | None => conf_pending todo l
  | Some e =>
    cc ← TryDecodeConfChange (command e);
    match cc with Some _ => Ret true | None => conf_pending todo l end
  end
end.

(** Why a membership change is refused, if it is. *)
Definition refuse_change (cc : ConfChangeCommand) (n : RaftNode) : option bytes :=
let known := bool_decide (cc_server_id cc = id_ n) || bool_decide (is_Some (peers_ n !! cc_server_id cc)) in
if cc_type cc is kAddServer then
  if known then Some (str "server " ++ to_string (cc_server_id cc) ++ str " is already a member") else None
else
  if known then None else Some (str "server " ++ to_string (cc_server_id cc) ++ str " is not a member").

Inductive Proposal := NotLeader | Refused (error : bytes) | Appended (index : LogIndex).

(** The first critical section of [Propose]. *)
Definition ProposeStart (cmd : bytes) : ST RaftNode Proposal :=
n ← st_get;
if negb (bool_decide (role_ n = kLeader)) then mret NotLeader
else
  cc ← st_lift (TryDecodeConfChange cmd);
  refused ← match cc with
            | None => mret None
            | Some cc =>
              pending ← st_lift (conf_pending (indices (commit_index_ n + 1) (LastIndex (log_ n))) (log_ n));
              mret (if pending : bool then Some (str "a membership change is already pending")
                    else refuse_change cc n)
            end;
  match refused with
  | Some error => mret (Refused error)
  | None =>
    let '(i, l) := Append (current_term n) cmd (log_ n) in
    _ ← st_modify (fun n => SaveLog (set_log l n));
    _ ← RefreshMembership;
    _ ← MaybeAdvanceCommitIndex;
    mret (Appended i)
  end.

(** The second one: whether the entry is committed, and its error. *)
Definition ProposeFinish (i : LogIndex) (n : RaftNode) : bool * bytes :=
let committed := (i <=? commit_index_ n)%N in
(committed, if committed then default [] (apply_errors_ n !! i) else []).

(** [Propose] returns whether the command is committed, its index, and its error; [others] is
  what happens until the wait ends. *)
Definition Propose (others : RaftNode -> RaftNode) (cmd : bytes) : ST RaftNode (bool * LogIndex * bytes) :=
p ← ProposeStart cmd;
match p with
| NotLeader => mret (false, 0%N, [])
| Refused error => mret (false, 0%N, error)
| Appended i =>
  _ ← st_modify ReplicateToAll;
  _ ← st_modify others;
  n ← st_get;
  let '(committed, error) := ProposeFinish i n in
  mret (committed, i, error)
end.

Definition HandleClientRequest (others : RaftNode -> RaftNode) (req : ClientRequest) : ST RaftNode ClientResponse :=
n ← st_get;
if negb (bool_decide (role_ n = kLeader)) then
  mret {| clr_success := false; clr_index := 0; clr_not_leader := true; clr_leader_hint := leader_hint_ n;
          clr_error := str "not the leader" |}
else
  r ← Propose others (cl_command req);
  let '(ok, i, apply_error) := r in
  n ← st_get;
  mret
    (if negb ok then
       if decide (apply_error <> []) then
         {| clr_success := false; clr_index := 0; clr_not_leader := false; clr_leader_hint := id_ n;
            clr_error := apply_error |}
       else
         {| clr_success := false; clr_index := 0; clr_not_leader := negb (bool_decide (role_ n = kLeader));
            clr_leader_hint := leader_hint_ n; clr_error := str "propose failed or timed out" |}
     else if decide (apply_error <> []) then
       {| clr_success := false; clr_index := i; clr_not_leader := false; clr_leader_hint := id_ n;
          clr_error := apply_error |}
     else
       {| clr_success := true; clr_index := i; clr_not_leader := false; clr_leader_hint := id_ n;
          clr_error := [] |}).

(** [HandleMessage]: a request body to a response body. *)
Definition HandleMessage (others : RaftNode -> RaftNode) (env : Env) (body : bytes) : ST RaftNode bytes :=
t ← st_lift (PeekMessageType body);
match t with
| kRequestVoteRequest =>
  req ← st_lift (DecodeRequestVoteRequest body);
  n ← st_get;
  let '(resp, n') := HandleRequestVote env req n in
  _ ← st_modify (fun _ => n');
  mret (EncodeRequestVoteResponse resp)
| kAppendEntriesRequest =>
  req ← st_lift (DecodeAppendEntriesRequest body);
  resp ← HandleAppendEntries env req;
  mret (EncodeAppendEntriesResponse resp)
| kClientRequest =>
  req ← st_lift (DecodeClientRequest body);
  resp ← HandleClientRequest others req;
  mret (EncodeClientResponse resp)
| kInstallSnapshotRequest =>
  req ← st_lift (DecodeInstallSnapshotRequest body);
  resp ← HandleInstallSnapshot others env req;
  mret (EncodeInstallSnapshotResponse resp)
| kReadRequest =>
  req ← st_lift (DecodeReadRequest body);
  resp ← HandleReadRequest req;
  mret (EncodeReadResponse resp)
| kDescribeClusterRequest =>
  req ← st_lift (DecodeDescribeClusterRequest body);
  n ← st_get;
  mret (EncodeDescribeClusterResponse (HandleDescribeCluster req n))
| _ => st_lift (throw_rt (str "unexpected message type received"))
end.

(** ** Forwarding *)

(** A failure that says to look elsewhere. *)
Definition not_here (hint : NodeId) (error : bytes) : ClientResponse :=
{| clr_success := false; clr_index := 0; clr_not_leader := true; clr_leader_hint := hint;
   clr_error := error |}.

(** The hops of [ProposeOrForward] of a node that is not the leader: [send] is the RPC to a
  node, [None] when it fails; [again] is what happens when the hint points back to this
  node, [None] when it is still not the leader. *)
Fixpoint forward (send : PeerAddress -> option bytes) (again : option ClientResponse)
  (hops : nat) (target : NodeId) (n : RaftNode) : outcome ClientResponse :=
match hops with
| O => Ret (not_here target (str "too many redirects while locating the leader"))
| S hops' =>
  if (target =? 0)%N then Ret (not_here 0 (str "no known leader to forward to"))
  else if (target =? id_ n)%N then
    match again with
    | Some resp => Ret resp
    | None => Ret (not_here 0 (str "leader hint pointed back to self while not leader"))
    end
  else
    match peers_ n !! target with
    | None => Ret (not_here target (str "unknown leader node id " ++ to_string target))
    | Some addr =>
      match send addr with
      | None => Ret (not_here target (str "could not reach node " ++ to_string target))
      | Some response =>
        resp ← DecodeClientResponse response;
        if clr_success resp || negb (clr_not_leader resp) then Ret resp
        else if (clr_leader_hint resp =? 0)%N || (clr_leader_hint resp =? target)%N then Ret resp
        else forward send again hops' (clr_leader_hint resp) n
      end
    end
end.

Definition ProposeOrForward (others : RaftNode -> RaftNode) (send : PeerAddress -> option bytes)
  (again : option ClientResponse) (cmd : bytes) : ST RaftNode ClientResponse :=
n ← st_get;
if bool_decide (role_ n = kLeader) then HandleClientRequest others {| cl_command := cmd |}
else st_lift (forward send again kMaxForwardHops (leader_hint_ n) n).

End node.

Arguments RaftNode : clear implicits.
