(* ===== verification/RaftVote.v ===== *)
(** * Terms and votes

    A node's term never decreases and it never votes for two candidates in one term, whatever
    operations it performs in whatever order, restarts included. *)

From Stdlib Require Import NArith Lia.
From S2P Require Export RaftNode.

(** ** What the operations leave alone *)

Section frames.
Context {SM : Type} `{StateMachine SM}.
Implicit Types (n : RaftNode SM).

(** Everything [RefreshMembership] does not touch. *)
Definition core n :=
  ((id_ n, own_address_ n, state_dir_ n, state_ n, log_ n, membership_state_ n),
   (role_ n, leader_hint_ n, commit_index_ n, last_applied_ n, joining_ n, apply_errors_ n),
   (election_deadline_ n, next_heartbeat_time_ n, votes_received_ n, last_leader_contact_ n),
   (sm_ n, fs_ n, rpcs_ n)).

Lemma foldl_core {A} (step : RaftNode SM -> A -> RaftNode SM) (l : list A) n :
  (forall n x, core (step n x) = core n) -> core (foldl step n l) = core n.
Proof.
  intros Hs. revert n. induction l as [|x l IH]; intros n; cbn; [done|]. by rewrite IH.
Qed.

Lemma adopt_peers_core eff n : core (adopt_peers eff n) = core n.
Proof.
  unfold adopt_peers. rewrite !foldl_core; [done| |].
  - intros n' p. unfold adopt_peer. cbv zeta. by case_match.
  - intros n' p. unfold drop_peer. by case_match.
Qed.

#[local] Hint Resolve adopt_peers_core : keeps.

Lemma RefreshMembership_core : keeps core RefreshMembership.
Proof. unfold RefreshMembership. keeps. Qed.

(** The identity of a node, its term and vote, and the file that holds them. *)
Definition vote_view n :=
  (id_ n, state_dir_ n, state_ n, files (fs_ n) !! state_path n).

Lemma core_vote_view {A} (m : ST (RaftNode SM) A) : keeps core m -> keeps vote_view m.
Proof.
  intros Hm n. specialize (Hm n). unfold core in Hm. unfold vote_view, state_path. congruence.
Qed.

Lemma state_path_other n (rest : bytes) c s :
  str "/raft_state_" = str "/raft_" ++ "s"%char :: s -> c <> "s"%char ->
  state_path n <> state_dir_ n ++ str "/raft_" ++ c :: rest.
Proof.
  intros E Hc He. unfold state_path in He. apply app_inv_head in He.
  rewrite E, <- app_assoc in He. apply app_inv_head in He. injection He as He _. by destruct Hc.
Qed.

Lemma state_log_path n : state_path n <> log_path n /\ state_path n <> log_path n ++ str ".tmp".
Proof.
  split; unfold log_path; rewrite <- ?app_assoc; by eapply (state_path_other n _ "l"%char).
Qed.

Lemma state_membership_path n :
  state_path n <> membership_path n /\ state_path n <> membership_path n ++ str ".tmp".
Proof.
  split; unfold membership_path, MembershipState.PathFor; rewrite <- ?app_assoc;
    by eapply (state_path_other n _ "m"%char).
Qed.

Lemma SaveLog_view n : vote_view (SaveLog n) = vote_view n.
Proof.
  destruct (state_log_path n) as [H1 H2]. unfold vote_view, SaveLog, emit, RaftLog.Save.
  cbn [set_fs id_ state_dir_ state_ fs_]. unfold state_path at 1.
  rewrite fs_run_files. by rewrite replace_file_other.
Qed.

Lemma SetMembership_view peers member own n : vote_view (SetMembership peers member own n) = vote_view n.
Proof.
  destruct (state_membership_path n) as [H1 H2]. unfold vote_view, SetMembership, emit, MembershipState.Set_.
  cbn [set_fs set_membership_state id_ state_dir_ state_ fs_]. unfold state_path at 1.
  rewrite fs_run_files. by rewrite replace_file_other.
Qed.

Lemma CompactLog_view i t n : vote_view (CompactLog i t n) = vote_view n.
Proof. unfold CompactLog. destruct (CompactTo i t (log_ n)) as [[|] l]; [by rewrite SaveLog_view|done]. Qed.

Lemma on_sm_view {A} (m : ST SM A) : keeps vote_view (on_sm m).
Proof. intros n. unfold on_sm. by destruct (m (sm_ n)). Qed.

Lemma RefreshMembership_view : keeps vote_view RefreshMembership.
Proof. apply core_vote_view, RefreshMembership_core. Qed.

#[local] Hint Resolve RefreshMembership_view on_sm_view : keeps.
#[local] Hint Extern 1 (vote_view _ = vote_view _) =>
  rewrite ?SaveLog_view, ?SetMembership_view, ?CompactLog_view; reflexivity : keeps.

Lemma BecomeLeader_view env : keeps vote_view (BecomeLeader env).
Proof.
  unfold BecomeLeader. apply keeps_bind; [apply RefreshMembership_view|]. intros _.
  apply keeps_modify. intros n. unfold init_progress.
  set (n1 := set_replication_in_flight _ _). assert (E : vote_view n1 = vote_view n) by done.
  rewrite <- E. clearbody n1. generalize (map_entries (peers_ n1)). clear E. intros l.
  assert (Hl : forall n2, vote_view n2 = vote_view n1 -> vote_view (foldl (fun n p =>
    set_match_index (<[p.1 := 0%N]> (match_index_ n))
      (set_next_index (<[p.1 := u64_add (LastIndex (log_ n)) 1]> (next_index_ n)) n)) n2 l) = vote_view n1);
    [|by apply Hl].
  induction l as [|p l IH]; intros n2 Hn2; [done|]. cbn [foldl]. by apply IH.
Qed.

Lemma apply_next_view : keeps vote_view apply_next.
Proof. unfold apply_next. keeps. Qed.

Lemma compact_applied_view : keeps vote_view compact_applied.
Proof. unfold compact_applied. keeps. Qed.

Lemma ApplyCommitted_view : keeps vote_view ApplyCommitted.
Proof. unfold ApplyCommitted. auto 100 using apply_next_view, compact_applied_view with keeps nocore. Qed.

Lemma MaybeAdvanceCommitIndex_view : keeps vote_view MaybeAdvanceCommitIndex.
Proof. unfold MaybeAdvanceCommitIndex. auto 100 using ApplyCommitted_view with keeps nocore. Qed.
End frames.

(** ** Terms and votes only move forward *)

Section votes.
Context {SM : Type} `{StateMachine SM}.
Implicit Types (n : RaftNode SM).

(** The term and the vote are in range and are what the file says. *)
Record hard_ok n : Prop := {
  hard_range : PersistentState.ok (state_ n);
  hard_id : (id_ n < two32)%N;
  hard_file : PersistentState.Load (state_path n) (files (fs_ n)) = state_ n;
}.

(** A later term, or the same one with the vote cast in it, if any. *)
Definition later n n' : Prop :=
  (current_term n < current_term n')%N \/
  (current_term n' = current_term n /\ (voted_for n = None \/ voted_for n' = voted_for n)).

Definition vote_le n n' : Prop :=
  id_ n' = id_ n /\ state_dir_ n' = state_dir_ n /\ (hard_ok n -> hard_ok n' /\ later n n').

#[export] Instance vote_le_preorder : PreOrder vote_le.
Proof.
  split.
  - intros n. split_and!; [done|done|]. intros Hok. split; [done|right; auto].
  - intros n1 n2 n3 (I1 & D1 & H1) (I2 & D2 & H2). split_and!; [congruence|congruence|].
    intros Hok. destruct (H1 Hok) as [Hok2 L1]. destruct (H2 Hok2) as [Hok3 L2]. split; [done|].
    unfold later in *. destruct L1 as [?|[E1 V1]], L2 as [?|[E2 V2]]; [left; lia|left; lia|left; lia|].
    right. split; [congruence|]. destruct V1 as [?|V1]; [by left|].
    destruct V2 as [V2|V2]; [left|right]; congruence.
Qed.

Lemma Load_lookup path d1 d2 :
  d1 !! path = d2 !! path -> PersistentState.Load path d1 = PersistentState.Load path d2.
Proof. intros E. unfold PersistentState.Load. by rewrite E. Qed.

Lemma view_vote_le n n' : vote_view n' = vote_view n -> vote_le n n'.
Proof.
  intros E. unfold vote_view in E. injection E as Ei Ed Es Ef. split_and!; [done|done|].
  intros [Hr Hi Hf]. split.
  - split; [by rewrite Es|by rewrite Ei|]. rewrite Es, <- Hf.
    assert (Ep : state_path n' = state_path n) by (unfold state_path; congruence).
    rewrite Ep in *. by apply Load_lookup.
  - right. unfold current_term, voted_for. rewrite Es. auto.
Qed.

Lemma keeps_vote_le {A} (m : ST (RaftNode SM) A) : keeps vote_view m -> moves vote_le m.
Proof. intros Hm n. apply view_vote_le, Hm. Qed.

Lemma SetState_vote_le t v n :
  (t < two64)%N -> match v with Some id => (id < two32)%N | None => True end ->
  (current_term n < t)%N \/ (t = current_term n /\ (voted_for n = None \/ v = voted_for n)) ->
  vote_le n (SetState t v n).
Proof.
  intros Ht Hv Hl. split_and!; [done|done|]. intros [Hr Hi Hf]. split; [|exact Hl].
  split; [by split|done|]. unfold SetState, PersistentState.Set_, emit.
  cbn [set_fs set_state fs_ state_ id_ state_dir_ state_path].
  rewrite fs_run_files. apply PersistentState.vote_file_loads; [by split|].
  rewrite replace_file_run. unfold state_path. cbn. apply lookup_insert_eq.
Qed.

Lemma BecomeFollower_vote_le env t n : (t < two64)%N -> vote_le n (BecomeFollower env t n).
Proof.
  intros Ht. unfold BecomeFollower. destruct (N.ltb_spec (current_term n) t); [|by apply view_vote_le].
  etrans; [apply (SetState_vote_le t None n Ht I); by left|by apply view_vote_le].
Qed.

#[local] Hint Resolve RefreshMembership_view BecomeLeader_view ApplyCommitted_view MaybeAdvanceCommitIndex_view on_sm_view : keeps.
#[local] Hint Extern 1 (vote_view _ = vote_view _) =>
  repeat case_match; rewrite ?SaveLog_view, ?SetMembership_view, ?CompactLog_view; reflexivity : keeps.
#[local] Hint Resolve BecomeFollower_vote_le : moves.
#[local] Hint Extern 2 (vote_le _ _) => apply view_vote_le; unfold next_of; repeat case_match; reflexivity : moves.
#[local] Hint Extern 1 (moves vote_le RefreshMembership) => apply keeps_vote_le, RefreshMembership_view : moves.
#[local] Hint Extern 1 (moves vote_le (BecomeLeader _)) => apply keeps_vote_le, BecomeLeader_view : moves.
#[local] Hint Extern 1 (moves vote_le ApplyCommitted) => apply keeps_vote_le, ApplyCommitted_view : moves.
#[local] Hint Extern 1 (moves vote_le MaybeAdvanceCommitIndex) => apply keeps_vote_le, MaybeAdvanceCommitIndex_view : moves.

Lemma HandleRequestVote_vote_le env req n :
  (rv_term req < two64)%N -> (rv_candidate_id req < two32)%N -> vote_le n (HandleRequestVote env req n).2.
Proof.
  intros Ht Hc. unfold HandleRequestVote. case_match; [reflexivity|].
  case_match; [reflexivity|].
  set (n1 := if (current_term n <? rv_term req)%N then BecomeFollower env (rv_term req) n else n).
  assert (Hn1 : vote_le n n1) by (unfold n1; case_match; [by apply BecomeFollower_vote_le|reflexivity]).
  clearbody n1. case_match eqn:Eg; [|exact Hn1]. cbn [snd]. etrans; [exact Hn1|].
  apply andb_true_iff in Eg as [Ev _].
  destruct (decide (current_term n1 < two64)%N) as [Hlt|Hge].
  - etrans; [apply (SetState_vote_le (current_term n1) (Some (rv_candidate_id req)) n1 Hlt Hc)|by apply view_vote_le].
    right. split; [done|]. destruct (voted_for n1) as [v|]; [right|by left].
    apply negb_true_iff, negb_false_iff, N.eqb_eq in Ev. by subst.
  - split_and!; [done|done|]. intros [[Hr _] _ _]. by destruct Hge.
Qed.

Lemma StartElection_vote_le env n :
  (current_term n + 1 < two64)%N -> vote_le n (StartElection env n).2.
Proof.
  intros Ht. unfold StartElection.
  pose proof (RefreshMembership_view n) as Hv. unfold mbind at 1, ST_bind at 1.
  destruct (RefreshMembership n) as [[[]|e|] n1]; cbn [snd] in Hv; [|by apply view_vote_le..].
  etrans; [apply view_vote_le, Hv|]. st_steps. case_match; [by apply view_vote_le|]. st_steps.
  assert (Es : current_term n1 = current_term n) by (unfold vote_view in Hv; unfold current_term; congruence).
  set (n2 := ResetElectionDeadline _ _). assert (H2 : vote_le n1 n2).
  { assert (Et : u64_add (current_term n1) 1 = (current_term n1 + 1)%N)
      by (unfold u64_add, u64; apply N.mod_small; lia).
    unfold n2. rewrite Et. trans (SetState (current_term n1 + 1) (Some (id_ n1)) n1); [|by apply view_vote_le].
    split_and!; [done|done|]. intros Hok.
    apply SetState_vote_le; [lia|apply Hok|left; lia|done]. }
  etrans; [exact H2|]. clearbody n2. case_match; [|by apply view_vote_le].
  apply view_vote_le, BecomeLeader_view.
Qed.

Lemma hear_leader_vote_le env t leader n : (t < two64)%N -> vote_le n (hear_leader env t leader n).
Proof.
  intros Ht. unfold hear_leader.
  set (n1 := if (current_term n <? t)%N || negb (bool_decide (role_ n = kFollower)) then BecomeFollower env t n else n).
  assert (H1 : vote_le n n1) by (unfold n1; case_match; [by apply BecomeFollower_vote_le|reflexivity]).
  etrans; [exact H1|by apply view_vote_le].
Qed.

Lemma AppendToLog_view prev t new : keeps vote_view (AppendToLog prev t new : ST (RaftNode SM) bool).
Proof.
  unfold AppendToLog. apply keeps_bind; [apply keeps_get|]. intros n.
  destruct (AppendEntriesFrom prev t new (log_ n)) as [[ok saved] l]. keeps.
Qed.

#[local] Hint Resolve hear_leader_vote_le : moves.
#[local] Hint Extern 1 (moves vote_le (AppendToLog _ _ _)) => apply keeps_vote_le, AppendToLog_view : moves.

Lemma HandleAppendEntries_vote_le env req n :
  (ae_term req < two64)%N -> vote_le n (HandleAppendEntries env req n).2.
Proof.
  intros Ht. revert n. change (moves vote_le (HandleAppendEntries env req)). unfold HandleAppendEntries. moves.
Qed.

Lemma OnVoteResponse_vote_le env t resp n :
  (rvr_term resp < two64)%N -> vote_le n (OnVoteResponse env t resp n).2.
Proof.
  intros Ht. revert n. change (moves vote_le (OnVoteResponse env t resp)). unfold OnVoteResponse. moves.
Qed.

Lemma OnAppendResponse_vote_le env peer t prev sent resp n :
  match resp with Some r => (aer_term r < two64)%N | None => True end ->
  vote_le n (OnAppendResponse env peer t prev sent resp n).2.
Proof.
  intros Ht. revert n. change (moves vote_le (OnAppendResponse env peer t prev sent resp)).
  unfold OnAppendResponse. apply moves_bind; [apply _|moves|]. intros _. destruct resp as [r|]; moves.
Qed.

Lemma OnSnapshotResponse_vote_le env peer t i resp n :
  match resp with Some r => (isr_term r < two64)%N | None => True end ->
  vote_le n (OnSnapshotResponse env peer t i resp n).
Proof.
  intros Ht. unfold OnSnapshotResponse. trans (in_flight peer false n); [by apply view_vote_le|].
  destruct resp as [r|]; [|reflexivity]. case_match; [reflexivity|].
  case_match; [by apply BecomeFollower_vote_le|]. case_match; [reflexivity|]. by apply view_vote_le.
Qed.

Lemma BeginInstall_vote_le env req n :
  (is_term req < two64)%N -> vote_le n (BeginInstall env req n).2.
Proof.
  intros Ht. unfold BeginInstall. case_match; [reflexivity|].
  case_match; cbn [snd]; by apply hear_leader_vote_le.
Qed.

Lemma FinishInstall_view req : keeps vote_view (FinishInstall req : ST (RaftNode SM) _).
Proof. unfold FinishInstall. keeps. Qed.

Lemma ProposeStart_view cmd : keeps vote_view (ProposeStart cmd).
Proof.
  unfold ProposeStart. apply keeps_bind; [apply keeps_get|]. intros n. case_match; [keeps|].
  apply keeps_bind; [keeps|]. intros cc. apply keeps_bind; [keeps|]. intros [error|]; [keeps|].
  destruct (Append _ _ _) as [i l]. keeps.
Qed.

Lemma SendInstallSnapshot_view peer addr t n : vote_view (SendInstallSnapshot peer addr t n) = vote_view n.
Proof. unfold SendInstallSnapshot. by case_match. Qed.

(** What the parts of [ReplicateTo] do, it does. *)
Lemma ReplicateTo_parts peer addr n : exists n1, n1 = (BeginReplicate peer addr n).2 /\
  (ReplicateTo peer addr n = n1 \/ exists t, ReplicateTo peer addr n = SendInstallSnapshot peer addr t n1).
Proof. unfold ReplicateTo. destruct (BeginReplicate peer addr n) as [[t|] n1]; eauto. Qed.

Lemma BeginReplicate_view peer addr n : vote_view (BeginReplicate peer addr n).2 = vote_view n.
Proof. unfold BeginReplicate, next_of. by repeat case_match. Qed.

Lemma ReplicateTo_view peer addr n : vote_view (ReplicateTo peer addr n) = vote_view n.
Proof.
  destruct (ReplicateTo_parts peer addr n) as (n1 & -> & [-> |[t ->]]); [|rewrite SendInstallSnapshot_view]; apply BeginReplicate_view.
Qed.

Lemma ReplicateToAll_view n : vote_view (ReplicateToAll n) = vote_view n.
Proof.
  unfold ReplicateToAll. case_match; [done|]. generalize (map_entries (peers_ n)). intros l.
  revert n H0. induction l as [|p l IH]; intros n Hn; [done|]. cbn [foldl].
  assert (Hl : forall n2, vote_view (foldl (fun n p => ReplicateTo p.1 p.2 n) n2 l) = vote_view n2).
  { clear. induction l as [|q l IH]; intros n2; [done|]. cbn [foldl]. by rewrite IH, ReplicateTo_view. }
  by rewrite Hl, ReplicateTo_view.
Qed.

(** A process that is killed and started again on the files it left. *)
Lemma new_node_vote_le n n' own peers joining (sm : SM) :
  new_node (id_ n) own peers (state_dir_ n) joining sm (files (fs_ n)) = Ret n' -> vote_le n n'.
Proof.
  unfold new_node. cbv zeta. intros E. cbn [set_log set_state log_] in E.
  destruct (MembershipState.Load _ _) as [m|e|]; cbn [mbind outcome_bind] in E; [|done..].
  injection E as <-.
  match goal with |- vote_le n (set_commit_index _ (set_last_applied _ ?x)) => set (n1 := x) end.
  trans n1; [|by apply view_vote_le].
  assert (Hv : vote_view n1 = (id_ n, state_dir_ n,
    PersistentState.Load (state_path n) (files (fs_ n)), files (fs_ n) !! state_path n)).
  { unfold n1. case_match; [done|]. by rewrite SetMembership_view. }
  clearbody n1. unfold vote_view in Hv. injection Hv as Ei Ed Es Ef.
  split_and!; [done|done|]. intros [Hr Hi Hf].
  assert (Es' : state_ n1 = state_ n) by congruence.
  assert (Ep : state_path n1 = state_path n) by (unfold state_path; congruence).
  split.
  - split; [by rewrite Es'|by rewrite Ei|]. rewrite Es', <- Hf. rewrite Ep in *. by apply Load_lookup.
  - right. unfold current_term, voted_for. rewrite Es'. auto.
Qed.
End votes.

(** ** Steps of a node *)

Section steps.
Context {SM : Type} `{StateMachine SM}.
Implicit Types (n : RaftNode SM).

(** The critical sections of a node that neither ask for votes nor count nor cast them, on
    arguments in the range of their types. *)
Inductive other_step : RaftNode SM -> RaftNode SM -> Prop :=
| step_append_entries n env req :
    (ae_term req < two64)%N -> other_step n (HandleAppendEntries env req n).2
| step_tick n env : other_step n (Tick env n).2
| step_replicate n peer addr : other_step n (ReplicateTo peer addr n)
| step_begin_replicate n peer addr : other_step n (BeginReplicate peer addr n).2
| step_replicate_all n : other_step n (ReplicateToAll n)
| step_send_snapshot n peer addr t : other_step n (SendInstallSnapshot peer addr t n)
| step_append_response n env peer t prev sent resp :
    match resp with Some r => (aer_term r < two64)%N | None => True end ->
    other_step n (OnAppendResponse env peer t prev sent resp n).2
| step_snapshot_response n env peer t i resp :
    match resp with Some r => (isr_term r < two64)%N | None => True end ->
    other_step n (OnSnapshotResponse env peer t i resp n)
| step_begin_install n env req : (is_term req < two64)%N -> other_step n (BeginInstall env req n).2
| step_restore n data : other_step n (on_sm (restore_callback data) n).2
| step_finish_install n req : other_step n (FinishInstall req n).2
| step_read n req : other_step n (HandleReadRequest req n).2
| step_propose n cmd : other_step n (ProposeStart cmd n).2.

(** All of them, and restarts.  A node stops being able to start elections when its term counter
    is exhausted. *)
Inductive node_step : RaftNode SM -> RaftNode SM -> Prop :=
| step_request_vote n env req :
    (rv_term req < two64)%N -> (rv_candidate_id req < two32)%N ->
    node_step n (HandleRequestVote env req n).2
| step_election n env : (current_term n + 1 < two64)%N -> node_step n (StartElection env n).2
| step_vote_response n env t resp :
    (rvr_term resp < two64)%N -> node_step n (OnVoteResponse env t resp n).2
| step_other n n' : other_step n n' -> node_step n n'
| step_restart n n' own peers joining sm :
    new_node (id_ n) own peers (state_dir_ n) joining sm (files (fs_ n)) = Ret n' -> node_step n n'.

Lemma HandleReadRequest_state req n : (HandleReadRequest req n).2 = (on_sm (read_callback (rd_query req)) n).2.
Proof. unfold HandleReadRequest, st_catch, mbind, ST_bind. by destruct (on_sm _ n) as [[r|e|] n']. Qed.

Lemma other_step_vote_le n n' : other_step n n' -> vote_le n n'.
Proof.
  destruct 1.
  - by apply HandleAppendEntries_vote_le.
  - apply view_vote_le. unfold Tick. by repeat case_match.
  - apply view_vote_le, ReplicateTo_view.
  - apply view_vote_le, BeginReplicate_view.
  - apply view_vote_le, ReplicateToAll_view.
  - apply view_vote_le, SendInstallSnapshot_view.
  - by apply OnAppendResponse_vote_le.
  - by apply OnSnapshotResponse_vote_le.
  - by apply BeginInstall_vote_le.
  - apply view_vote_le, on_sm_view.
  - apply view_vote_le, FinishInstall_view.
  - rewrite HandleReadRequest_state. apply view_vote_le, on_sm_view.
  - apply view_vote_le, ProposeStart_view.
Qed.

Lemma step_vote_le n n' : node_step n n' -> vote_le n n'.
Proof.
  destruct 1.
  - by apply HandleRequestVote_vote_le.
  - by apply StartElection_vote_le.
  - by apply OnVoteResponse_vote_le.
  - by apply other_step_vote_le.
  - by eapply new_node_vote_le.
Qed.

Lemma steps_vote_le n n' : rtc node_step n n' -> vote_le n n'.
Proof. induction 1 as [n|n1 n2 n3 H12 _ IH]; [reflexivity|]. etrans; [by apply step_vote_le|exact IH]. Qed.
End steps.

(** ** A test node *)

(** A state machine that appends commands to a string. *)
#[export] Instance appender : StateMachine (list ascii) := {|
  apply_callback i cmd := fun s => (Ret [], s ++ cmd);
  snapshot_callback s := s;
  restore_callback data := fun s => (Ret tt, data);
  read_callback query := st_get;
|}.

Abbreviation test_sm := (list ascii).

(** Node 1 of a cluster of three, started for the first time. *)
Definition test_node : RaftNode test_sm :=
  match new_node 1 {| host := str "h"; port := 1 |}
          {[ 2%N := {| host := str "h"; port := 2 |}; 3%N := {| host := str "h"; port := 3 |} ]}
          (str "d") false [] ∅ with
  | Ret n => n
  | _ => MkNode 0 no_address ∅ [] PersistentState.fresh empty_log MembershipState.fresh kFollower 0 0 0
           true 0 false ∅ 0 0 0 None ∅ ∅ ∅ [] {| files := ∅; journal := [] |} []
  end.

Definition test_env : Env := {| now := 1000; timeout := 500 |}.

(** It wins the election of term 1 with the vote of one peer. *)
Definition test_leader : RaftNode test_sm :=
  (OnVoteResponse test_env 1 {| rvr_term := 1; rvr_vote_granted := true |}
     (StartElection test_env test_node).2).2.

Example test_leader_leads : role_ test_leader = kLeader /\ current_term test_leader = 1%N.
Proof. by vm_compute. Qed.

Lemma test_node_ok : hard_ok test_node.
Proof. split; [by split|done|by vm_compute]. Qed.

(** The candidate's log is at least as up to date as the node's. *)
Definition up_to_date {SM} (req : RequestVoteRequest) (n : RaftNode SM) : Prop :=
  (LastTerm (log_ n) < rv_last_log_term req)%N \/
  rv_last_log_term req = LastTerm (log_ n) /\ (LastIndex (log_ n) <= rv_last_log_index req)%N.

(** The vote the node has cast in term [t], when [t] is not past. *)
Definition vote_in {SM} (t : Term) (n : RaftNode SM) : option NodeId :=
  if (current_term n <? t)%N then None else voted_for n.

(** What granting a vote means for the node. *)
Lemma HandleRequestVote_grant {SM} env req (n : RaftNode SM) resp n' :
  HandleRequestVote env req n = (resp, n') -> rvr_vote_granted resp = true ->
  (forall v, vote_in (rv_term req) n = Some v -> v = rv_candidate_id req) /\
  (current_term n <= rv_term req)%N /\
  current_term n' = rv_term req /\ rvr_term resp = rv_term req /\ voted_for n' = Some (rv_candidate_id req).
Proof.
  unfold HandleRequestVote. destruct (heard_recently env n); [by intros [= <- <-]|].
  destruct (N.ltb_spec (rv_term req) (current_term n)) as [Hlt|Hge]; [by intros [= <- <-]|].
  set (n1 := if (current_term n <? rv_term req)%N then BecomeFollower env (rv_term req) n else n).
  assert (Hn1 : current_term n1 = rv_term req /\ voted_for n1 = vote_in (rv_term req) n).
  { unfold n1, vote_in, BecomeFollower. destruct (N.ltb_spec (current_term n) (rv_term req)); [done|].
    split_and!; [lia|done]. }
  clearbody n1. destruct Hn1 as (Et & Ev). rewrite Ev. case_match eqn:Eg; [|by intros [= <- <-]].
  intros [= <- <-] _. apply andb_true_iff in Eg as [Ho _]. split_and!; [|done|exact Et|exact Et|done].
  intros v Hv. rewrite Hv in Ho. apply negb_true_iff, negb_false_iff, N.eqb_eq in Ho. done.
Qed.

(** ** Properties *)

(** C22: terms and votes never go back. From a node whose state file is in order, any
    interleaving of its operations -- handling requests and responses, elections, ticks,
    proposals, restarts on the files it left -- leads to a node whose term is at least as high,
    whose vote in the same term is the same, and whose state file again says exactly what it
    holds in memory. *)
Theorem term_and_vote_monotone {SM} `{StateMachine SM} (n n' : RaftNode SM) :
  hard_ok n -> rtc node_step n n' ->
  (current_term n <= current_term n')%N /\
  (current_term n' = current_term n -> forall v, voted_for n = Some v -> voted_for n' = Some v) /\
  PersistentState.Load (state_path n') (files (fs_ n')) = state_ n'.
Proof.
  intros Hok Hs. destruct (steps_vote_le n n' Hs) as (_ & _ & Hl). destruct (Hl Hok) as [[_ _ Hf] L].
  split_and!; [| |exact Hf].
  - destruct L as [?|[? _]]; lia.
  - intros Et v Hv. destruct L as [?|[_ [Hn|Hv']]]; [lia|congruence|congruence].
Qed.

Lemma term_and_vote_monotone_witness :
  (current_term test_node <= current_term test_leader)%N /\
  (current_term test_leader = current_term test_node ->
   forall v, voted_for test_node = Some v -> voted_for test_leader = Some v) /\
  PersistentState.Load (state_path test_leader) (files (fs_ test_leader)) = state_ test_leader.
Proof.
  apply (term_and_vote_monotone test_node test_leader); [apply test_node_ok|].
  eapply rtc_l; [apply (step_election test_node test_env); reflexivity|].
  eapply rtc_l; [|apply rtc_refl].
  apply (step_vote_response (StartElection test_env test_node).2 test_env 1
           {| rvr_term := 1; rvr_vote_granted := true |}); reflexivity.
Defined.

(** C21: a vote is granted exactly when Raft allows it -- no recent contact with a leader, the
    term is not past, no vote for another candidate in it, and a log at least as up to date --
    and then the term and the vote are in memory and in the state file before the response
    carries them. A request that is ignored because a leader was heard recently changes
    nothing; a refused one casts no vote. *)
Theorem HandleRequestVote_spec {SM} (env : Env) req (n : RaftNode SM) :
  let '(resp, n') := HandleRequestVote env req n in
  (rvr_vote_granted resp = true <->
    heard_recently env n = false /\ (current_term n <= rv_term req)%N /\
    (forall v, vote_in (rv_term req) n = Some v -> v = rv_candidate_id req) /\ up_to_date req n) /\
  rvr_term resp = current_term n' /\
  (heard_recently env n = true -> n' = n) /\
  (rvr_vote_granted resp = true ->
    current_term n' = rv_term req /\ voted_for n' = Some (rv_candidate_id req) /\
    files (fs_ n') !! state_path n = Some (PersistentState.file_text (state_ n'))) /\
  (rvr_vote_granted resp = false -> voted_for n' = vote_in (current_term n') n).
Proof.
  unfold HandleRequestVote. destruct (heard_recently env n) eqn:Eh.
  { cbn. unfold vote_in. rewrite N.ltb_irrefl. naive_solver. }
  destruct (N.ltb_spec (rv_term req) (current_term n)) as [Hlt|Hge].
  { cbn. unfold vote_in. rewrite N.ltb_irrefl. split_and!; [|done|done|done|done].
    split; [done|]. intros (_ & ? & _). lia. }
  set (n1 := if (current_term n <? rv_term req)%N then BecomeFollower env (rv_term req) n else n).
  assert (Hn1 : current_term n1 = rv_term req /\ voted_for n1 = vote_in (rv_term req) n /\
                log_ n1 = log_ n /\ state_path n1 = state_path n).
  { unfold n1, vote_in, BecomeFollower. destruct (N.ltb_spec (current_term n) (rv_term req)); [done|].
    split_and!; [lia|done|done|done]. }
  clearbody n1. destruct Hn1 as (Et & Ev & El & Ep).
  rewrite El, Ev. set (other := match vote_in (rv_term req) n with Some v => _ | None => _ end).
  set (log_ok := (_ || _)).
  assert (Hother : other = false <-> forall v, vote_in (rv_term req) n = Some v -> v = rv_candidate_id req).
  { unfold other. destruct (vote_in (rv_term req) n) as [v|]; [|split; [by intros _ v|done]].
    rewrite negb_false_iff, N.eqb_eq. split; [by intros -> v' [= ->]|by intros H; apply H]. }
  assert (Hlog : log_ok = true <-> up_to_date req n).
  { unfold log_ok, up_to_date. rewrite orb_true_iff, andb_true_iff, N.ltb_lt, N.eqb_eq, N.leb_le. done. }
  destruct (negb other && log_ok) eqn:Eg; cbn [rvr_vote_granted rvr_term].
  - apply andb_true_iff in Eg as [Ho Hl]. apply negb_true_iff in Ho. split_and!; try done.
    + split; [|done]. intros _. rewrite <- Hother, <- Hlog. split_and!; [done|lia|done|done].
    + intros _. split_and!; [exact Et|done|].
      unfold ResetElectionDeadline, SetState, PersistentState.Set_, emit. cbn [set_election_deadline set_fs set_state fs_ state_].
      rewrite fs_run_files, replace_file_run, Ep. apply lookup_insert_eq.
  - split_and!; try done.
    + split; [done|]. intros (_ & _ & Ho & Hl). apply Hother in Ho. apply Hlog in Hl. by rewrite Ho, Hl in Eg.
    + intros _. by rewrite Et.
Qed.

(** One vote per term: if a node grants a vote, then performs any operations and restarts,
    and grants a vote again in the same term, both votes are for the same candidate. *)
Theorem one_vote_per_term {SM} `{StateMachine SM} (n n1 n2 n3 : RaftNode SM) env1 env2 req1 req2 resp1 resp2 :
  hard_ok n -> (rv_term req1 < two64)%N -> (rv_candidate_id req1 < two32)%N ->
  HandleRequestVote env1 req1 n = (resp1, n1) -> rtc node_step n1 n2 ->
  HandleRequestVote env2 req2 n2 = (resp2, n3) ->
  rvr_vote_granted resp1 = true -> rvr_vote_granted resp2 = true ->
  rvr_term resp1 = rvr_term resp2 -> rv_candidate_id req1 = rv_candidate_id req2.
Proof.
  intros Hok Ht Hc E1 Hs E2 G1 G2 Et.
  pose proof (HandleRequestVote_vote_le env1 req1 n Ht Hc) as L1. rewrite E1 in L1.
  destruct (proj2 (proj2 L1) Hok) as [Hok1 _].
  destruct (proj2 (proj2 (steps_vote_le _ _ Hs)) Hok1) as [_ L].
  destruct (HandleRequestVote_grant _ _ _ _ _ E1 G1) as (_ & _ & T1 & R1 & V1).
  destruct (HandleRequestVote_grant _ _ _ _ _ E2 G2) as (U2 & Hle & _ & R2 & _).
  apply U2. unfold vote_in. unfold later in L. destruct (N.ltb_spec (current_term n2) (rv_term req2)); [lia|].
  destruct L as [?|[_ [Hv|Hv]]]; [lia|congruence|congruence].
Qed.

(** A candidate asks for a vote in term 1, then again; the vote is granted both times. *)
Definition test_vote_request : RequestVoteRequest :=
  {| rv_term := 1; rv_candidate_id := 2; rv_last_log_index := 0; rv_last_log_term := 0 |}.

Definition test_voted : RequestVoteResponse * RaftNode test_sm :=
  HandleRequestVote test_env test_vote_request test_node.

Lemma one_vote_per_term_witness :
  let second := HandleRequestVote test_env test_vote_request (Tick test_env test_voted.2).2 in
  rvr_vote_granted second.1 = true /\ rv_candidate_id test_vote_request = rv_candidate_id test_vote_request.
Proof.
  split; [by vm_compute|].
  eapply (one_vote_per_term test_node test_voted.2 (Tick test_env test_voted.2).2 _ test_env test_env
            test_vote_request test_vote_request);
    [apply test_node_ok|reflexivity|reflexivity|apply surjective_pairing| |apply surjective_pairing|..];
    [apply rtc_once, step_other, step_tick|by vm_compute|by vm_compute|by vm_compute].
Defined.

(** A healthy leader can be deposed by any candidate with a higher term: the check that
    ignores vote requests while a leader has been heard from recently never protects the leader
    itself, which does not hear from itself. *)
Theorem leader_deposed_by_vote_request :
  role_ test_leader = kLeader /\
  exists req, let n := (HandleRequestVote test_env req test_leader).2 in
    role_ n = kFollower /\ current_term n = rv_term req /\ heard_recently test_env test_leader = false.
Proof.
  split; [by vm_compute|].
  exists {| rv_term := 5; rv_candidate_id := 9; rv_last_log_index := 0; rv_last_log_term := 0 |}.
  by vm_compute.
Qed.
