(* ===== verification/RaftCommit.v ===== *)
(** * What the leader commits

    The commit index only moves to an entry of the leader's own term that a majority of the
    members hold, and to the last such entry when the majority reaches it. *)

From Stdlib Require Import NArith Lia.
From S2P Require Export RaftVote.

(** ** The element in the middle of a descending list *)

Section middle.
Implicit Types (l : list LogIndex) (i : LogIndex).

(** How many of the replicas hold index [i]. *)
Definition replicas i l : nat := length (filter (fun j => (i <= j)%N) l).

#[local] Instance not_below_total : Total not_below.
Proof. intros a b. unfold not_below. lia. Qed.

#[local] Instance not_below_trans : Transitive not_below.
Proof. intros a b c. unfold not_below. lia. Qed.

Lemma descending_perm l : descending l ≡ₚ l.
Proof. apply merge_sort_Permutation. Qed.

Lemma descending_sorted l : StronglySorted not_below (descending l).
Proof. apply Sorted_StronglySorted; [apply _|]. apply (Sorted_merge_sort not_below). Qed.

Lemma replicas_perm i l l' : l ≡ₚ l' -> replicas i l = replicas i l'.
Proof. intros E. unfold replicas. by rewrite E. Qed.

Lemma replicas_app i l l' : replicas i (l ++ l') = (replicas i l + replicas i l')%nat.
Proof. unfold replicas. by rewrite filter_app, length_app. Qed.

Lemma replicas_all i l : Forall (fun j => (i <= j)%N) l -> replicas i l = length l.
Proof. induction 1 as [|j l Hj _ IH]; [done|]. unfold replicas in *. rewrite filter_cons_True by done. cbn. lia. Qed.

Lemma replicas_none i l : Forall (fun j => (j < i)%N) l -> replicas i l = 0%nat.
Proof. induction 1 as [|j l Hj _ IH]; [done|]. unfold replicas in *. rewrite filter_cons_False by lia. done. Qed.

Lemma replicas_le i l : (replicas i l <= length l)%nat.
Proof. apply length_filter. Qed.

(** In a descending list, what is before a position is at least what is there, and what is
    after it is at most that. *)
Lemma sorted_split l k x : StronglySorted not_below l -> l !! k = Some x ->
  Forall (fun j => (x <= j)%N) (take (S k) l) /\ Forall (fun j => (j <= x)%N) (drop k l).
Proof.
  intros Hs. revert k. induction Hs as [|y l Hs IH Hall]; intros k Hk; [done|].
  destruct k as [|k]; cbn in Hk |- *.
  - injection Hk as ->. split; [repeat constructor; lia|]. constructor; [lia|exact Hall].
  - destruct (IH k Hk) as [H1 H2]. split; [|exact H2]. constructor; [|exact H1].
    rewrite Forall_forall in Hall. apply Hall. by eapply list_elem_of_lookup_2.
Qed.

(** The element at position [length / 2] is the greatest one a majority reaches. *)
Lemma middle_majority l x : descending l !! (length (descending l) / 2)%nat = Some x ->
  (length l < 2 * replicas x l)%nat /\
  forall y, (length l < 2 * replicas y l)%nat -> (y <= x)%N.
Proof.
  intros Hx. pose proof (descending_perm l) as Hp. set (d := descending l) in *.
  rewrite <- (Permutation_length Hp). rewrite <- (replicas_perm x _ _ Hp).
  assert (Hy : forall y, replicas y l = replicas y d) by (intros; symmetry; by apply replicas_perm).
  destruct (sorted_split d _ x (descending_sorted l) Hx) as [H1 H2].
  assert (Hlen : (length d / 2 < length d)%nat) by (by apply lookup_lt_Some in Hx).
  assert (Hd : (2 * (length d / 2) <= length d < 2 * (length d / 2) + 2)%nat).
  { pose proof (Nat.div_mod_eq (length d) 2). pose proof (Nat.mod_upper_bound (length d) 2). lia. }
  assert (Hsplit : forall y k, replicas y d = (replicas y (take k d) + replicas y (drop k d))%nat)
    by (intros y k; by rewrite <- replicas_app, take_drop).
  split.
  - rewrite (Hsplit x (S (length d / 2))), (replicas_all x (take _ d)) by done. rewrite length_take. lia.
  - intros y. rewrite Hy, (Hsplit y (length d / 2)). intros Hm. apply N.le_ngt. intros Hgt.
    rewrite (replicas_none y (drop _ d)) in Hm.
    + pose proof (replicas_le y (take (length d / 2) d)) as Hl. rewrite length_take in Hl. lia.
    + eapply Forall_impl; [exact H2|]. cbn. lia.
Qed.
End middle.

(** ** What applying leaves alone *)

Section frame.
Context {SM : Type} `{StateMachine SM}.
Implicit Types (n : RaftNode SM).

(** Everything [ApplyCommitted] does not touch. *)
Definition apply_frame n :=
  ((id_ n, own_address_ n, peers_ n, state_dir_ n, state_ n, role_ n, leader_hint_ n),
   (commit_index_ n, self_is_member_ n, pending_self_removal_index_ n, joining_ n),
   (election_deadline_ n, next_heartbeat_time_ n, votes_received_ n, last_leader_contact_ n),
   (next_index_ n, match_index_ n, replication_in_flight_ n, rpcs_ n)).

Lemma on_sm_frame {A} (m : ST SM A) : keeps apply_frame (on_sm m).
Proof. intros n. unfold on_sm. by destruct (m (sm_ n)). Qed.

Lemma apply_next_frame : keeps apply_frame apply_next.
Proof. unfold apply_next. auto 100 using on_sm_frame with keeps nocore. Qed.

Lemma CompactLog_frame i t n : apply_frame (CompactLog i t n) = apply_frame n.
Proof. unfold CompactLog. by destruct (CompactTo i t (log_ n)) as [[|] l]. Qed.

Lemma compact_applied_frame : keeps apply_frame compact_applied.
Proof. unfold compact_applied. auto 100 using CompactLog_frame with keeps nocore. Qed.

Lemma ApplyCommitted_frame : keeps apply_frame ApplyCommitted.
Proof. unfold ApplyCommitted. auto 100 using apply_next_frame, compact_applied_frame with keeps nocore. Qed.

Lemma RefreshMembership_commit : keeps (@commit_index_ SM) RefreshMembership.
Proof. intros n. pose proof (RefreshMembership_core n) as E. unfold core in E. congruence. Qed.

Lemma ApplyCommitted_commit : keeps (@commit_index_ SM) ApplyCommitted.
Proof. intros n. pose proof (ApplyCommitted_frame n) as E. unfold apply_frame in E. congruence. Qed.

(** What follows the assignment of the commit index does not change it. *)
Lemma MaybeAdvanceCommitIndex_commit n :
  commit_index_ (MaybeAdvanceCommitIndex n).2 =
  if ((commit_index_ n <? majority_index n) && (TermAt (majority_index n) (log_ n) =? current_term n))%N
  then majority_index n else commit_index_ n.
Proof.
  unfold MaybeAdvanceCommitIndex. st_steps. case_match; [|done]. st_steps.
  set (n1 := set_commit_index _ n). assert (Hc : commit_index_ n1 = majority_index n) by done.
  rewrite <- Hc. clearbody n1. clear. revert n1. match goal with |- forall n1, commit_index_ (?m n1).2 = _ => change (keeps (@commit_index_ SM) m) end.
  apply keeps_bind; [apply ApplyCommitted_commit|]. intros _. apply keeps_bind; [apply keeps_get|].
  intros n1. case_match; [|apply keeps_ret].
  apply keeps_bind; [apply RefreshMembership_commit|]. intros _.
  apply keeps_bind; [apply keeps_get|]. intros n2. case_match; [by apply keeps_modify|apply keeps_ret].
Qed.

Lemma majority_index_middle n :
  descending (match_indices n) !! (length (descending (match_indices n)) / 2)%nat = Some (majority_index n).
Proof.
  unfold majority_index. set (d := descending (match_indices n)).
  assert (Hd : (0 < length d)%nat).
  { unfold d. rewrite (Permutation_length (descending_perm _)). cbn. lia. }
  destruct (lookup_lt_is_Some_2 d (length d / 2)) as [x Hx]; [|by rewrite Hx].
  apply Nat.div_lt; lia.
Qed.
End frame.

(** ** Properties *)

(** C14: the commit rule. [MaybeAdvanceCommitIndex] leaves the commit index alone or moves it up
    to an index that holds an entry of the current term and that more than half of the replicas
    (the leader's own log and the match index of every peer) have reached; and no index above
    the new commit index is held by a majority and has an entry of the current term there and at every
    higher index a majority holds. *)
Theorem commit_rule {SM} `{StateMachine SM} (n : RaftNode SM) :
  let n' := (MaybeAdvanceCommitIndex n).2 in
  let majority i := (length (match_indices n) < 2 * replicas i (match_indices n))%nat in
  (commit_index_ n' = commit_index_ n \/
   (commit_index_ n < commit_index_ n')%N /\ TermAt (commit_index_ n') (log_ n) = current_term n /\
   majority (commit_index_ n')) /\
  (forall i, majority i -> (forall j, (i <= j)%N -> majority j -> TermAt j (log_ n) = current_term n) ->
     (i <= commit_index_ n')%N).
Proof.
  cbv zeta. rewrite MaybeAdvanceCommitIndex_commit.
  destruct (middle_majority _ _ (majority_index_middle n)) as [Hm Hmax].
  destruct (N.ltb_spec (commit_index_ n) (majority_index n)) as [Hlt|Hge]; cbn [andb].
  - destruct (N.eqb_spec (TermAt (majority_index n) (log_ n)) (current_term n)) as [Et|Et].
    + split; [by right|]. intros i Hi _. by apply Hmax.
    + split; [by left|]. intros i Hi Ht. destruct Et. apply Ht; [by apply Hmax|exact Hm].
  - split; [by left|]. intros i Hi _. specialize (Hmax i Hi). lia.
Qed.
