(* ===== verification/RaftMembership.v ===== *)
(** * Membership at a node

    The members a node works with are the persisted base with the membership changes of its log
    applied in order, committed or not; compaction moves changes from the log to the base
    without changing that; and a leader tracks exactly its peers. *)

From Stdlib Require Import NArith Lia.
From S2P Require Export RaftCommit.

(** ** Ranges of indices *)

Lemma indices_app a b c : (a <= b + 1)%N -> (b <= c)%N -> indices a c = indices a b ++ indices (b + 1) c.
Proof.
  intros Hab Hbc. unfold indices.
  replace (N.to_nat (c + 1 - a)) with (N.to_nat (b + 1 - a) + N.to_nat (c + 1 - (b + 1)))%nat by lia.
  rewrite seq_app, map_app. f_equal. rewrite Nat.add_0_l.
  rewrite <- (Nat.add_0_r (N.to_nat (b + 1 - a))) at 1. rewrite <- fmap_add_seq, map_map.
  apply map_ext. intros k. lia.
Qed.

Lemma elem_of_indices a b i : i ∈ indices a b <-> (a <= i <= b)%N.
Proof.
  unfold indices. rewrite list_elem_of_fmap. setoid_rewrite elem_of_seq. split.
  - intros (k & -> & Hk). lia.
  - intros [Ha Hb]. exists (N.to_nat (i - a)). lia.
Qed.

Lemma st_for_app {S A} (l1 l2 : list A) (f : A -> ST S unit) s :
  st_for (l1 ++ l2) f s = (st_for l1 f ≫= fun _ => st_for l2 f) s.
Proof.
  revert s. induction l1 as [|x l1 IH]; intros s; [done|]. cbn [st_for app]. rewrite run_assoc.
  unfold mbind, ST_bind. destruct (f x s) as [[[]|e|] s']; [apply IH|done..].
Qed.

Lemma st_for_ext {S A} (l : list A) (f g : A -> ST S unit) s :
  (forall x s, x ∈ l -> f x s = g x s) -> st_for l f s = st_for l g s.
Proof.
  revert s. induction l as [|x l IH]; intros s Hfg; [done|]. cbn [st_for].
  unfold mbind, ST_bind. rewrite Hfg by left. destruct (g x s) as [[[]|e|] s']; [|done..].
  apply IH. intros y s2 Hy. apply Hfg. by right.
Qed.

(** The members are the node and its peers. *)
Lemma agreed_size (M : gset N) (i : N) (peers : peer_map) : i ∈ M -> dom peers = M ∖ {[i]} -> size M = S (size peers).
Proof.
  intros Hs Hd. rewrite <- (size_dom (D := gset N) peers), Hd, size_difference, size_singleton
    by (by apply singleton_subseteq_l).
  assert (size M <> 0)%nat; [|lia]. apply size_non_empty_iff. intros E. apply (not_elem_of_empty (C := gset N) i).
  by rewrite <- E.
Qed.

Section membership.
Context {SM : Type} `{StateMachine SM}.
Implicit Types (n : RaftNode SM) (eff : peer_map).

(** ** The effective membership *)

Lemma adopt_peers_loop n (l : list (NodeId * PeerAddress)) k :
  NoDup l.*1 ->
  peers_ (foldl adopt_peer n l) !! k =
  match (list_to_map l : peer_map) !! k with Some a => Some a | None => peers_ n !! k end.
Proof.
  revert n. induction l as [|p l IH]; intros n Hnd; [done|].
  cbn in Hnd. apply NoDup_cons in Hnd as [Hni Hnd]. cbn [foldl list_to_map foldr]. rewrite IH by done.
  assert (Hp : peers_ (adopt_peer n p) = <[p.1 := p.2]> (peers_ n))
    by (unfold adopt_peer; cbv zeta; by destruct (_ && _)).
  rewrite Hp. destruct (decide (k = p.1)) as [->|Hne].
  - rewrite lookup_insert_eq. rewrite (not_elem_of_list_to_map_1 l p.1) by done. by rewrite lookup_insert_eq.
  - rewrite !lookup_insert_ne by done. done.
Qed.

Lemma drop_peers_loop eff n (l : list (NodeId * PeerAddress)) k :
  peers_ (foldl (drop_peer eff) n l) !! k =
  if decide (k ∈ l.*1 /\ eff !! k = None) then None else peers_ n !! k.
Proof.
  revert n. induction l as [|p l IH]; intros n; [cbn; by rewrite decide_False by set_solver|].
  cbn [foldl]. rewrite IH. unfold drop_peer. destruct (eff !! p.1) as [a|] eqn:Ep.
  - apply decide_ext. cbn. set_unfold. naive_solver congruence.
  - cbn. destruct (decide (k = p.1)) as [->|Hne].
    + rewrite lookup_delete_eq. rewrite (decide_True (P := p.1 ∈ p.1 :: l.*1 /\ _)) by (split; [by left|done]). by case_decide.
    + rewrite lookup_delete_ne by done. apply decide_ext. set_unfold. naive_solver.
Qed.

(** The two loops make the members exactly the effective ones. *)
Lemma adopt_peers_spec eff n : peers_ (adopt_peers eff n) = eff.
Proof.
  apply map_eq. intros k. unfold adopt_peers. rewrite drop_peers_loop.
  assert (Hk : peers_ (foldl adopt_peer n (map_entries eff)) !! k =
               match eff !! k with Some a => Some a | None => peers_ n !! k end).
  { rewrite adopt_peers_loop by apply NoDup_map_entries. by rewrite map_entries_to_map. }
  destruct (eff !! k) as [a|] eqn:Ek; [by rewrite decide_False by naive_solver|].
  destruct (decide _) as [_|Hn]; [done|]. apply eq_None_not_Some. intros [a Ha]. destruct Hn. split; [|done].
  apply list_elem_of_fmap. exists (k, a). split; [done|]. by apply elem_of_map_entries.
Qed.

(** ** What the leader tracks *)

Record tracked n : Prop := {
  tracked_peers : dom (match_index_ n) ⊆ dom (peers_ n);
  tracked_leader : role_ n = kLeader -> dom (peers_ n) ⊆ dom (match_index_ n);
}.

Lemma tracked_count n : tracked n -> role_ n = kLeader -> length (match_indices n) = S (size (peers_ n)).
Proof.
  intros [H1 H2] Hr. unfold match_indices. cbn. f_equal. rewrite length_fmap.
  rewrite (Permutation_length (map_entries_perm _)), length_map_to_list.
  rewrite <- !size_dom. f_equal. specialize (H2 Hr). set_solver.
Qed.

(** Changes that keep the members and the match indices, and do not make a leader. *)
Lemma tracked_frame n n' :
  tracked n -> peers_ n' = peers_ n -> match_index_ n' = match_index_ n ->
  (role_ n' = kLeader -> role_ n = kLeader) -> tracked n'.
Proof. intros [H1 H2] Ep Em Hr. split; rewrite Ep, Em; auto. Qed.

Lemma adopt_peer_tracked n p : tracked n -> tracked (adopt_peer n p).
Proof.
  intros [H1 H2]. unfold adopt_peer. cbv zeta. cbn [set_peers role_].
  destruct (peers_ n !! p.1) as [a|] eqn:Ep; cbn.
  - assert (p.1 ∈ dom (peers_ n)) by (apply elem_of_dom; eauto).
    split; cbn; rewrite dom_insert_L; [|intros Hr; specialize (H2 Hr)]; set_solver.
  - destruct (bool_decide_reflect (role_ n = kLeader)) as [Hr|Hr].
    + specialize (H2 Hr). split; cbn; rewrite !dom_insert_L; set_solver.
    + split; cbn; rewrite dom_insert_L; [set_solver|done].
Qed.

Lemma drop_peer_tracked eff n p : tracked n -> tracked (drop_peer eff n p).
Proof.
  intros [H1 H2]. unfold drop_peer. case_match; [by split|].
  split; cbn; rewrite !dom_delete_L; [|intros Hr; specialize (H2 Hr)]; set_solver.
Qed.

Lemma adopt_peers_tracked eff n : tracked n -> tracked (adopt_peers eff n).
Proof.
  intros Hn. unfold adopt_peers.
  assert (Hfold : forall (f : RaftNode SM -> NodeId * PeerAddress -> RaftNode SM) l n,
    (forall n p, tracked n -> tracked (f n p)) -> tracked n -> tracked (foldl f n l)).
  { clear. intros f l. induction l as [|p l IH]; intros n Hf Hn; [done|]. cbn. apply IH; auto. }
  apply Hfold; [apply drop_peer_tracked|]. apply Hfold; [apply adopt_peer_tracked|done].
Qed.
End membership.

(** ** Every operation keeps what the leader tracks right *)

(** The members and the match indices stay, and no leader is made. *)
Definition demotes {SM} (n n' : RaftNode SM) : Prop :=
  peers_ n' = peers_ n /\ match_index_ n' = match_index_ n /\ (role_ n' = kLeader -> role_ n = kLeader).

Definition keeps_tracked {SM} (n n' : RaftNode SM) : Prop := tracked n -> tracked n'.

#[export] Instance demotes_preorder {SM} : PreOrder (@demotes SM).
Proof.
  unfold demotes. split; [intros n|intros n1 n2 n3]; [done|].
  intros (-> & -> & H1) (-> & -> & H2). auto.
Qed.

#[export] Instance keeps_tracked_preorder {SM} : PreOrder (@keeps_tracked SM).
Proof. unfold keeps_tracked. split; [intros n|intros n1 n2 n3]; auto. Qed.

Lemma demotes_tracked {SM} (n n' : RaftNode SM) : demotes n n' -> keeps_tracked n n'.
Proof. intros (Ep & Em & Hr) Hn. by eapply tracked_frame. Qed.

#[export] Hint Extern 2 (demotes _ _) => by split_and! : moves.
#[export] Hint Extern 2 (keeps_tracked _ _) => apply demotes_tracked : moves.

Section tracking.
Context {SM : Type} `{StateMachine SM}.
Implicit Types (n : RaftNode SM).

Lemma demotes_moves {A} (m : ST (RaftNode SM) A) : moves (@demotes SM) m -> moves (@keeps_tracked SM) m.
Proof. intros Hm n. apply demotes_tracked, Hm. Qed.

Lemma BecomeFollower_demotes env t n : demotes n (BecomeFollower env t n).
Proof. unfold BecomeFollower. case_match; by split_and!. Qed.

Lemma hear_leader_demotes env t leader n : demotes n (hear_leader env t leader n).
Proof.
  unfold hear_leader. case_match; [|by split_and!].
  etrans; [apply BecomeFollower_demotes|by split_and!].
Qed.

Lemma HandleRequestVote_demotes env req n : demotes n (HandleRequestVote env req n).2.
Proof.
  unfold HandleRequestVote. case_match; [reflexivity|]. case_match; [reflexivity|].
  set (n1 := if (current_term n <? rv_term req)%N then BecomeFollower env (rv_term req) n else n).
  assert (Hn1 : demotes n n1) by (unfold n1; case_match; [apply BecomeFollower_demotes|reflexivity]).
  clearbody n1. case_match; [|exact Hn1]. etrans; [exact Hn1|by split_and!].
Qed.

Lemma ApplyCommitted_demotes : moves (@demotes SM) ApplyCommitted.
Proof.
  intros n. pose proof (ApplyCommitted_frame n) as E. unfold apply_frame in E. unfold demotes.
  split_and!; congruence.
Qed.

Lemma AppendToLog_demotes prev t new : moves (@demotes SM) (AppendToLog prev t new : ST (RaftNode SM) bool).
Proof.
  unfold AppendToLog. apply moves_get. intros n.
  destruct (AppendEntriesFrom prev t new (log_ n)) as [[ok [|]] l]; by split_and!.
Qed.

Lemma adopt_peers_keeps eff n : keeps_tracked n (adopt_peers eff n).
Proof. exact (adopt_peers_tracked eff n). Qed.
#[local] Hint Resolve BecomeFollower_demotes hear_leader_demotes HandleRequestVote_demotes adopt_peers_keeps : moves.

Lemma RefreshMembership_tracked : moves (@keeps_tracked SM) RefreshMembership.
Proof. unfold RefreshMembership. moves. Qed.

Lemma init_progress_match n (l : list (NodeId * PeerAddress)) :
  let n' := foldl (fun n p => set_match_index (<[p.1 := 0%N]> (match_index_ n))
    (set_next_index (<[p.1 := u64_add (LastIndex (log_ n)) 1]> (next_index_ n)) n)) n l in
  peers_ n' = peers_ n /\ dom (match_index_ n') = dom (match_index_ n) ∪ list_to_set l.*1.
Proof.
  revert n. induction l as [|p l IH]; intros n; [cbn; split; [done|set_solver]|].
  cbn [foldl]. destruct (IH (set_match_index (<[p.1 := 0%N]> (match_index_ n))
    (set_next_index (<[p.1 := u64_add (LastIndex (log_ n)) 1]> (next_index_ n)) n))) as [E1 E2].
  rewrite E1, E2. cbn. split; [done|]. rewrite dom_insert_L. set_solver.
Qed.

Lemma dom_map_entries (m : peer_map) : list_to_set (map_entries m).*1 = dom m.
Proof.
  apply set_eq. intros k. rewrite elem_of_list_to_set, elem_of_dom, list_elem_of_fmap. split.
  - intros ([k' a] & -> & Ha). apply elem_of_map_entries in Ha. eauto.
  - intros [a Ha]. exists (k, a). split; [done|]. by apply elem_of_map_entries.
Qed.

Lemma BecomeLeader_tracked env : moves (@keeps_tracked SM) (BecomeLeader env).
Proof.
  unfold BecomeLeader. apply moves_bind; [apply _|apply RefreshMembership_tracked|]. intros _.
  apply moves_modify. intros n [Hn _]. unfold init_progress.
  set (n1 := set_replication_in_flight _ _). change (dom (match_index_ n1) ⊆ dom (peers_ n1)) in Hn. clearbody n1.
  destruct (init_progress_match n1 (map_entries (peers_ n1))) as [E1 E2].
  split; rewrite E1, E2, dom_map_entries; set_solver.
Qed.
#[local] Hint Resolve RefreshMembership_tracked BecomeLeader_tracked : moves.
#[local] Hint Extern 1 (moves (@keeps_tracked SM) ApplyCommitted) => apply demotes_moves, ApplyCommitted_demotes : moves.
#[local] Hint Extern 1 (moves (@keeps_tracked SM) (AppendToLog _ _ _)) => apply demotes_moves, AppendToLog_demotes : moves.

Lemma StartElection_tracked env : moves (@keeps_tracked SM) (StartElection env).
Proof. unfold StartElection. moves. Qed.

Lemma OnVoteResponse_tracked env t resp : moves (@keeps_tracked SM) (OnVoteResponse env t resp).
Proof. unfold OnVoteResponse. moves. Qed.

Lemma MaybeAdvanceCommitIndex_tracked : moves (@keeps_tracked SM) MaybeAdvanceCommitIndex.
Proof. unfold MaybeAdvanceCommitIndex. moves. Qed.

Lemma HandleAppendEntries_tracked env req : moves (@keeps_tracked SM) (HandleAppendEntries env req).
Proof. unfold HandleAppendEntries. moves. Qed.

Lemma ProposeStart_tracked cmd : moves (@keeps_tracked SM) (ProposeStart cmd).
Proof.
  pose proof MaybeAdvanceCommitIndex_tracked.
  unfold ProposeStart. apply moves_bind; [apply _|moves|]. intros n. case_match; [moves|].
  apply moves_bind; [apply _|moves|]. intros cc.
  apply moves_bind; [apply _|moves|]. intros [error|]; [moves|].
  destruct (Append _ _ _) as [i l]. moves.
Qed.

Lemma FinishInstall_tracked req : moves (@keeps_tracked SM) (FinishInstall req).
Proof.
  unfold FinishInstall. apply moves_bind; [apply _|moves|]. intros n.
  apply moves_bind; [apply _| |moves]. case_match; [|moves].
  apply moves_bind; [apply _| |].
  { apply moves_modify. intros n1. apply demotes_tracked. unfold CompactLog.
    destruct (CompactTo _ _ _) as [[|] l]; by split_and!. }
  intros _. apply moves_bind; [apply _| |].
  { apply moves_modify. intros n1. case_match; by apply demotes_tracked. }
  intros _. apply moves_bind; [apply _| |].
  { apply moves_modify. intros n1. case_match; by apply demotes_tracked. }
  intros _. apply moves_bind; [apply _| |].
  { apply moves_modify. intros n1. case_match; by apply demotes_tracked. }
  intros _. moves.
Qed.

Lemma in_peers_tracked n peer i : tracked n -> peers_ n !! peer <> None ->
  tracked (set_match_index (<[peer := i]> (match_index_ n)) n).
Proof.
  intros [Hn1 Hn2] Hp. assert (peer ∈ dom (peers_ n)) by (apply elem_of_dom; by apply not_eq_None_Some).
  split; cbn; rewrite dom_insert_L; [set_solver|]. intros Hr. specialize (Hn2 Hr). set_solver.
Qed.

Lemma OnAppendResponse_tracked env peer t prev sent resp :
  moves (@keeps_tracked SM) (OnAppendResponse env peer t prev sent resp).
Proof.
  unfold OnAppendResponse. apply moves_bind; [apply _|moves|]. intros _. destruct resp as [r|]; [|moves].
  apply moves_get. intros n. case_match eqn:Ep; [reflexivity|]. apply bool_decide_eq_false in Ep.
  case_match; [apply demotes_tracked, BecomeFollower_demotes|].
  case_match; [reflexivity|]. case_match; [|by apply demotes_tracked; unfold next_of; cbn; case_match; split_and!].
  unfold keeps_tracked. intros Hn. rewrite run_modify. apply MaybeAdvanceCommitIndex_tracked.
  pose proof (fun i => in_peers_tracked n peer i Hn Ep) as Hi. by eapply tracked_frame; [apply Hi|..].
Qed.

Lemma OnSnapshotResponse_tracked env peer t i resp n :
  keeps_tracked n (OnSnapshotResponse env peer t i resp n).
Proof.
  unfold OnSnapshotResponse. destruct resp as [r|]; [|by apply demotes_tracked].
  case_match eqn:Ep; [by apply demotes_tracked|]. apply bool_decide_eq_false in Ep.
  case_match; [apply demotes_tracked; etrans; [|apply BecomeFollower_demotes]; by split_and!|].
  case_match; [by apply demotes_tracked|]. intros Hn.
  by eapply tracked_frame; [by apply (in_peers_tracked n peer i Hn)|..].
Qed.

Lemma BeginReplicate_demotes peer addr n : demotes n (BeginReplicate peer addr n).2.
Proof. unfold BeginReplicate, next_of. repeat (case_match; try by split_and!). Qed.

Lemma SendInstallSnapshot_demotes peer addr t n : demotes n (SendInstallSnapshot peer addr t n).
Proof. unfold SendInstallSnapshot. by case_match. Qed.

Lemma ReplicateTo_demotes peer addr n : demotes n (ReplicateTo peer addr n).
Proof.
  destruct (ReplicateTo_parts peer addr n) as (n1 & -> & [-> |[t ->]]); [|etrans; [|apply SendInstallSnapshot_demotes]];
    apply BeginReplicate_demotes.
Qed.

Lemma ReplicateToAll_demotes n : demotes n (ReplicateToAll n).
Proof.
  unfold ReplicateToAll. case_match; [reflexivity|]. clear. revert n.
  enough (Hl : forall (l : list (NodeId * PeerAddress)) n, demotes n (foldl (fun n p => ReplicateTo p.1 p.2 n) n l))
    by (intros n; apply Hl).
  intros l. induction l as [|p l IH]; intros n; [reflexivity|]. cbn [foldl].
  etrans; [apply ReplicateTo_demotes|apply IH].
Qed.

Lemma new_node_tracked id own peers dir joining (sm : SM) d n :
  new_node id own peers dir joining sm d = Ret n -> tracked n.
Proof.
  unfold new_node. cbv zeta. cbn [set_log set_state log_].
  destruct (MembershipState.Load _ _) as [m|e|]; cbn [mbind outcome_bind]; [|done..].
  intros [= <-]. by destruct (MembershipState.has_file m); split.
Qed.

Lemma other_step_tracked n n' : other_step n n' -> keeps_tracked n n'.
Proof.
  destruct 1.
  - apply HandleAppendEntries_tracked.
  - apply demotes_tracked. unfold Tick. by repeat case_match.
  - apply demotes_tracked, ReplicateTo_demotes.
  - apply demotes_tracked, BeginReplicate_demotes.
  - apply demotes_tracked, ReplicateToAll_demotes.
  - apply demotes_tracked, SendInstallSnapshot_demotes.
  - apply OnAppendResponse_tracked.
  - apply OnSnapshotResponse_tracked.
  - apply demotes_tracked. unfold BeginInstall. case_match; [reflexivity|].
    case_match; apply hear_leader_demotes.
  - apply demotes_tracked. unfold on_sm. by destruct (restore_callback _ _).
  - apply FinishInstall_tracked.
  - rewrite HandleReadRequest_state. apply demotes_tracked. unfold on_sm. by destruct (read_callback _ _).
  - apply ProposeStart_tracked.
Qed.

Lemma step_tracked n n' : node_step n n' -> keeps_tracked n n'.
Proof.
  destruct 1.
  - apply demotes_tracked, HandleRequestVote_demotes.
  - apply StartElection_tracked.
  - apply OnVoteResponse_tracked.
  - by apply other_step_tracked.
  - intros _. by eapply new_node_tracked.
Qed.

Lemma steps_tracked n n' : rtc node_step n n' -> keeps_tracked n n'.
Proof. induction 1 as [n|n1 n2 n3 H12 _ IH]; [reflexivity|]. etrans; [by apply step_tracked|exact IH]. Qed.
End tracking.

(** ** Compaction moves membership changes to the base *)

Section compaction.
Context {SM : Type} `{StateMachine SM}.
Implicit Types (n : RaftNode SM).

(** The two scans agree on the entries that are committed. *)
Definition same_scan (a : MembershipScan) (b : BaseScan) : Prop :=
  effective a = new_base b /\ effective_self_member a = new_base_self_member b /\ pending_removal a = 0%N.

Lemma scan_fold_loop n (l : list LogIndex) a b :
  (forall i, i ∈ l -> (i <= commit_index_ n)%N) -> same_scan a b ->
  let '(r, a') := st_for l (scan_index n) a in
  let '(r', b') := st_for l (fold_index n) b in
  r = r' /\ same_scan a' b'.
Proof.
  revert a b. induction l as [|i l IH]; intros a b Hl Hab; [done|]. cbn [st_for].
  assert (Hi : let '(r, a') := scan_index n i a in let '(r', b') := fold_index n i b in
               r = r' /\ same_scan a' b').
  { unfold scan_index, fold_index. destruct (At i (log_ n)) as [e|]; [|by split].
    unfold mbind, ST_bind, st_lift. destruct (TryDecodeConfChange (command e)) as [[cc|]|ex|]; [|by split..].
    cbn. split; [done|]. destruct Hab as (E1 & E2 & E3). unfold same_scan, scan_change, fold_change.
    assert (Hc : (i <= commit_index_ n)%N) by (apply Hl; left).
    destruct (cc_type cc); repeat case_decide; cbn; rewrite ?E1; try (exfalso; lia); by split_and!. }
  unfold mbind, ST_bind. destruct (scan_index n i a) as [r a'], (fold_index n i b) as [r' b'].
  destruct Hi as [<- Hi]. destruct r as [[]|e|]; [|by split..]. apply IH; [|exact Hi].
  intros j Hj. apply Hl. by right.
Qed.

Lemma fold_unchanged n (l : list LogIndex) b :
  membership_changed (st_for l (fold_index n) b).2 = false -> (st_for l (fold_index n) b).2 = b.
Proof.
  revert b. induction l as [|i l IH]; intros b; [done|]. cbn [st_for]. unfold mbind, ST_bind.
  unfold fold_index at 1 3. destruct (At i (log_ n)) as [e|]; [|apply IH].
  unfold mbind, ST_bind, st_lift. destruct (TryDecodeConfChange (command e)) as [[cc|]|ex|]; [|apply IH|done..].
  cbn. intros Hf. exfalso. revert Hf.
  assert (Hset : membership_changed (fold_change n cc b) = true)
    by (unfold fold_change; destruct (cc_type cc); by case_decide).
  revert Hset. generalize (fold_change n cc b). clear. induction l as [|i l IH]; intros b Hb; cbn; [congruence|].
  unfold mbind, ST_bind. unfold fold_index at 1. destruct (At i (log_ n)) as [e|]; [|by apply IH].
  unfold mbind, ST_bind, st_lift. destruct (TryDecodeConfChange (command e)) as [[cc|]|ex|]; [|by apply IH|cbn; congruence..].
  cbn. apply IH. unfold fold_change. destruct (cc_type cc); by case_decide.
Qed.

(** The log is in order, and what is applied is committed and in the log. *)
Record applied_in_log n : Prop := {
  ail_log : log_ok (log_ n);
  ail_snapshot : (snapshot_index (log_ n) <= last_applied_ n)%N;
  ail_commit : (last_applied_ n <= commit_index_ n)%N;
  ail_last : (last_applied_ n <= LastIndex (log_ n))%N;
  ail_bound : (LastIndex (log_ n) + 1 < two64)%N;
}.

Lemma CompactTo_within i l :
  log_ok l -> (i < two64)%N -> (snapshot_index l < i)%N -> (i <= LastIndex l)%N ->
  LastIndex (CompactTo i (TermAt i l) l).2 = LastIndex l.
Proof.
  intros Hok Hi Hlt Hle. pose proof (CompactTo_spec i (TermAt i l) l Hok Hi) as Hc.
  assert (Hes : entries (CompactTo i (TermAt i l) l).2 = drop (N.to_nat (i - snapshot_index l)) (entries l)).
  { unfold CompactTo. destruct (N.leb_spec i (snapshot_index l)); [lia|].
    destruct (N.leb_spec i (LastIndex l)); [|lia]. by rewrite N.eqb_refl. }
  destruct (CompactTo i (TermAt i l) l) as [saved l']. destruct Hc as (Hok' & _ & Hrest).
  rewrite decide_False in Hrest by lia. destruct Hrest as (Hs & _). cbn [snd] in *.
  rewrite LastIndex_ok by done. rewrite (LastIndex_ok l) in * by done. unfold last_index in *.
  rewrite Hes, length_drop, Hs. lia.
Qed.

Lemma compaction_due n :
  (snapshot_index (log_ n) <= last_applied_ n)%N -> (last_applied_ n < two64)%N ->
  (kCompactionThreshold <=? u64_sub (last_applied_ n) (snapshot_index (log_ n)))%N = true ->
  (snapshot_index (log_ n) < last_applied_ n)%N.
Proof.
  intros Hle Hb Et. apply N.leb_le in Et. unfold u64_sub, u64 in Et.
  replace (last_applied_ n + two64 - snapshot_index (log_ n))%N
    with ((last_applied_ n - snapshot_index (log_ n)) + 1 * two64)%N in Et by lia.
  rewrite N.Div0.mod_add, N.mod_small in Et by lia. unfold kCompactionThreshold in Et. lia.
Qed.

(** What a compaction does to a node; the middle step persists the new base. *)
Lemma compact_applied_run n :
  (snapshot_index (log_ n) <= last_applied_ n)%N -> (last_applied_ n < two64)%N ->
  (compact_applied n).2 = n \/
  (snapshot_index (log_ n) < last_applied_ n)%N /\
  let '(r, b) := fold_base n in
  let n' := (compact_applied n).2 in
  r = Ret tt /\ log_ n' = (CompactTo (last_applied_ n) (TermAt (last_applied_ n) (log_ n)) (log_ n)).2 /\
  MembershipState.base_peers (membership_state_ n') = new_base b /\
  MembershipState.self_is_member (membership_state_ n') = new_base_self_member b /\
  (id_ n' = id_ n /\ role_ n' = role_ n /\ commit_index_ n' = commit_index_ n).
Proof.
  intros Hle Hb64. unfold compact_applied. rewrite run_get. case_match eqn:Et; [|by left].
  destruct (fold_base n) as [r b] eqn:Eb. destruct r as [[]|e|]; [|by left..]. rewrite run_lift_ret.
  pose proof (compaction_due n Hle Hb64 Et) as Hlt.
  right. split; [exact Hlt|].
  assert (Hch : membership_changed b = false -> new_base b = MembershipState.base_peers (membership_state_ n) /\
            new_base_self_member b = MembershipState.self_is_member (membership_state_ n)).
  { intros Hf. pose proof (fold_unchanged n (indices (snapshot_index (log_ n) + 1) (last_applied_ n))) as Hu.
    unfold fold_base in Eb. specialize (Hu {| new_base := MembershipState.base_peers (membership_state_ n);
      new_base_self_member := MembershipState.self_is_member (membership_state_ n); membership_changed := false |}).
    rewrite Eb in Hu. cbn [snd] in Hu. by rewrite (Hu Hf). }
  unfold mbind, ST_bind. destruct (membership_changed b) eqn:Em;
    [|destruct (Hch eq_refl) as [Hb1 Hb2]];
    cbn; unfold CompactLog; cbn; destruct (CompactTo _ _ _) as [[|] l']; by split_and!.
Qed.

Lemma compact_applied_scan n : applied_in_log n -> scan_log (compact_applied n).2 = scan_log n.
Proof.
  intros [Hok Hs Hc Hl Hb].
  destruct (compact_applied_run n Hs) as [->|[Hlt Hrun]]; [lia|done|].
  destruct (fold_base n) as [r b] eqn:Eb. destruct Hrun as (-> & El & Ep & Em & Ei & Er & Eci).
  set (n' := (compact_applied n).2) in *. clearbody n'.
  assert (Hi : (last_applied_ n < two64)%N) by lia.
  pose proof (CompactTo_spec (last_applied_ n) (TermAt (last_applied_ n) (log_ n)) (log_ n) Hok Hi) as Hcs.
  pose proof (CompactTo_within (last_applied_ n) (log_ n) Hok Hi Hlt Hl) as Hlast.
  rewrite <- El in Hlast. destruct (CompactTo _ _ _) as [saved l'] eqn:Ec. cbn [snd] in El. subst l'.
  destruct Hcs as (Hok' & _ & Hcs). rewrite decide_False in Hcs by lia. destruct Hcs as (Hsn & _ & _ & Hat).
  assert (Hsame : forall i s, i ∈ indices (last_applied_ n + 1) (LastIndex (log_ n)) ->
    scan_index n' i s = scan_index n i s).
  { intros i s Hin. apply elem_of_indices in Hin. unfold scan_index. rewrite Hat by lia.
    rewrite decide_True by done. destruct (At i (log_ n)) as [e|]; [|done].
    unfold scan_change. by rewrite Ei, Er, Eci. }
  unfold scan_log. rewrite Hsn, Hlast, Ep, Em.
  rewrite (indices_app (snapshot_index (log_ n) + 1) (last_applied_ n)) by lia. rewrite st_for_app.
  pose proof (scan_fold_loop n (indices (snapshot_index (log_ n) + 1) (last_applied_ n))
    {| effective := MembershipState.base_peers (membership_state_ n);
       effective_self_member := MembershipState.self_is_member (membership_state_ n); pending_removal := 0 |}
    {| new_base := MembershipState.base_peers (membership_state_ n);
       new_base_self_member := MembershipState.self_is_member (membership_state_ n); membership_changed := false |}) as Hf.
  unfold fold_base in Eb. rewrite Eb in Hf. unfold mbind, ST_bind.
  destruct (st_for _ (scan_index n) _) as [r a]. destruct Hf as [-> (E1 & E2 & E3)]; [|by split_and!|].
  { intros i Hin. apply elem_of_indices in Hin. lia. }
  rewrite <- E1, <- E2, <- E3. destruct a. cbn. by apply st_for_ext.
Qed.
End compaction.

(** ** Properties *)

(** C26: what a leader tracks. Whatever operations a freshly started node performs, in whatever
    order, restarts included, it has a match index for peers only, and as a leader for every
    peer: so the majority of the commit rule is a majority of the members it knows. *)
Theorem leader_tracks_peers {SM} `{StateMachine SM} id own peers dir joining (sm : SM) d n n' :
  new_node id own peers dir joining sm d = Ret n -> rtc node_step n n' ->
  dom (match_index_ n') ⊆ dom (peers_ n') /\
  (role_ n' = kLeader ->
     dom (match_index_ n') = dom (peers_ n') /\ length (match_indices n') = S (size (peers_ n'))).
Proof.
  intros Hn Hs. pose proof (steps_tracked n n' Hs (new_node_tracked _ _ _ _ _ _ _ _ Hn)) as Ht.
  split; [apply Ht|]. intros Hr. split; [|by apply tracked_count].
  apply set_eq. intros k. destruct Ht as [H1 H2]. specialize (H2 Hr). set_solver.
Qed.

Lemma leader_tracks_peers_witness :
  new_node 1 (own_address_ test_node) (peers_ test_node) (str "d") false [] ∅ = Ret test_node /\
  length (match_indices test_leader) = S (size (peers_ test_leader)).
Proof.
  assert (Hn : new_node 1 (own_address_ test_node) (peers_ test_node) (str "d") false [] ∅ = Ret test_node)
    by by vm_compute.
  split; [exact Hn|].
  refine (proj2 (proj2 (leader_tracks_peers _ _ _ _ _ _ _ test_node test_leader Hn _) _)); [|by vm_compute].
  eapply rtc_l; [apply (step_election test_node test_env); reflexivity|].
  eapply rtc_l; [|apply rtc_refl].
  apply (step_vote_response (StartElection test_env test_node).2 test_env 1
           {| rvr_term := 1; rvr_vote_granted := true |}); reflexivity.
Defined.

(** Compaction does not change the membership. When the applied prefix of the log is folded
    into the persisted base and dropped, the scan that [RefreshMembership] makes -- the members,
    whether this node is one, a pending removal of itself, or the exception of a corrupt entry --
    gives what it gave before. *)
Theorem compaction_preserves_membership {SM} `{StateMachine SM} (n : RaftNode SM) :
  applied_in_log n -> scan_log (compact_applied n).2 = scan_log n.
Proof. apply compact_applied_scan. Qed.

(** A node that has applied five entries, the third of them adding node 4. *)
Definition test_full_log : RaftLog :=
  {| snapshot_index := 0; snapshot_term := 0; applied_index := 5;
     entries := map (fun p => {| index := p.1; term := 1; command := p.2 |})
       [(1%N, str "a"); (2%N, str "b");
        (3%N, EncodeConfChange {| cc_type := kAddServer; cc_server_id := 4; cc_host := str "h"; cc_port := 4 |});
        (4%N, str "c"); (5%N, str "d"); (6%N, str "e")] |}.

Definition test_full_node : RaftNode test_sm :=
  set_log test_full_log (set_last_applied 5 (set_commit_index 5 test_node)).

Lemma compaction_preserves_membership_witness :
  snapshot_index (log_ (compact_applied test_full_node).2) = 5%N /\
  scan_log (compact_applied test_full_node).2 = scan_log test_full_node.
Proof.
  split; [by vm_compute|]. apply compaction_preserves_membership. split; try by vm_compute.
  split; [|by vm_compute]. intros i e Hi. do 6 (destruct i as [|i]; [by injection Hi as <-|]). by destruct i.
Defined.
