(* ===== verification/RaftApply.v ===== *)
(** * Applying the committed entries

    [ApplyCommitted] hands exactly the committed entries that are not membership changes to the
    state machine, in order; a crash in the middle may hand the last one to it again. *)

From Stdlib Require Import NArith Lia.
From S2P Require Export RaftMembership.

Section apply.
Context {SM : Type} `{StateMachine SM}.
Implicit Types (n : RaftNode SM) (e : LogEntry).

Definition is_change e : bool :=
  match TryDecodeConfChange (command e) with Ret (Some _) => true | _ => false end.

(** The command is not a corrupt membership change. *)
Definition decodes e : Prop := exists cc, TryDecodeConfChange (command e) = Ret cc.

(** What one committed entry does to the state machine and to the recorded errors. *)
Definition apply_entry (s : SM * gmap N bytes) e : SM * gmap N bytes :=
  if is_change e then s
  else
    match apply_callback (index e) (command e) s.1 with
    | (Ret error, sm) => (sm, if decide (error = []) then s.2 else <[index e := error]> s.2)
    | (_, sm) => (sm, s.2)
    end.

(** The contract of [ApplyCallback], it does not throw, kept on the entries [l] applied one after
    the other from the state [s]. *)
Fixpoint entries_return (s : SM * gmap N bytes) (l : list LogEntry) : Prop :=
  match l with
  | [] => True
  | e :: l =>
    (is_change e = false -> exists error s', apply_callback (index e) (command e) s.1 = (Ret error, s')) /\
    entries_return (apply_entry s e) l
  end.

(** The entries from [first] to [last]. *)
Definition entries_between (first last : LogIndex) (l : RaftLog) : list LogEntry :=
  omap (fun i => At i l) (indices first last).

Lemma indices_cons a b : (a <= b)%N -> indices a b = a :: indices (a + 1) b.
Proof.
  intros Hle. rewrite (indices_app a a b) by lia. unfold indices at 1.
  replace (N.to_nat (a + 1 - a)) with 1%nat by lia. cbn. f_equal. lia.
Qed.

Lemma At_SetAppliedIndex i j l : At i (SetAppliedIndex j l) = At i l.
Proof. done. Qed.

(** The state of the loop after it has applied up to [last_applied_ n']. *)
Record applied_to n n' : Prop := {
  at_frame : apply_frame n' = apply_frame n;
  at_membership : membership_state_ n' = membership_state_ n;
  at_log : log_ n' = SetAppliedIndex (last_applied_ n') (log_ n);
  at_file : files (fs_ n') !! log_path n' = Some (log_file (log_ n'));
}.

Lemma apply_next_run n e :
  (is_change e = false -> exists error s', apply_callback (index e) (command e) (sm_ n) = (Ret error, s')) ->
  (last_applied_ n + 1 < two64)%N ->
  At (last_applied_ n + 1) (log_ n) = Some e -> decodes e ->
  exists n', apply_next n = (Ret tt, n') /\ applied_to n n' /\
    last_applied_ n' = (last_applied_ n + 1)%N /\
    (sm_ n', apply_errors_ n') = apply_entry (sm_ n, apply_errors_ n) e.
Proof.
  intros Hcb Hb Hat [cc Hcc]. unfold apply_next. rewrite run_modify, run_get.
  assert (Ha : u64_add (last_applied_ n) 1 = (last_applied_ n + 1)%N)
    by (unfold u64_add, u64; by apply N.mod_small).
  rewrite Ha. cbn [last_applied_ set_last_applied log_]. rewrite Hat, Hcc.
  unfold apply_entry, is_change. rewrite Hcc. cbn [fst snd].
  assert (Hfile : forall m : RaftNode SM, files (fs_ (SaveLog m)) !! log_path (SaveLog m) = Some (log_file (log_ (SaveLog m)))).
  { intros m. unfold SaveLog, emit, RaftLog.Save. cbn [set_fs fs_]. rewrite fs_run_files, replace_file_run. apply lookup_insert_eq. }
  destruct cc as [cc|].
  - eexists. split; [reflexivity|]. split_and!; [|done|done]. split; [done|done|done|apply Hfile].
  - destruct Hcb as (error & s' & Es); [unfold is_change; by rewrite Hcc|]. rewrite Es.
    unfold mbind, ST_bind, st_lift, on_sm. cbn. rewrite Es.
    case_decide; cbn; (eexists; split; [reflexivity|]); (split_and!; [|done|done]);
      (split; [done|done|done|apply Hfile]).
Qed.

Lemma applied_to_trans n1 n2 n3 : applied_to n1 n2 -> applied_to n2 n3 -> applied_to n1 n3.
Proof.
  intros [F1 M1 L1 _] [F2 M2 L2 E2]. split; [congruence|congruence| |exact E2].
  rewrite L2, L1. done.
Qed.

Lemma entries_between_cons a b l e : (a <= b)%N -> At a l = Some e ->
  entries_between a b l = e :: entries_between (a + 1) b l.
Proof. intros Hle He. unfold entries_between. rewrite (indices_cons a) by done. cbn [omap list_omap]. by rewrite He. Qed.

Lemma entries_between_same a b l l' : (forall i, At i l' = At i l) -> entries_between a b l' = entries_between a b l.
Proof.
  intros Hat. unfold entries_between, omap. induction (indices a b) as [|i js IH]; [done|]. cbn. by rewrite Hat, IH.
Qed.

Lemma apply_loop_run n k a :
  entries_return (sm_ n, apply_errors_ n)
    (entries_between (last_applied_ n + 1) (last_applied_ n + N.of_nat k) (log_ n)) ->
  (last_applied_ n + N.of_nat k < two64)%N ->
  (forall i, (last_applied_ n < i <= last_applied_ n + N.of_nat k)%N -> exists e, At i (log_ n) = Some e /\ decodes e) ->
  exists n', st_for (seq a k) (fun _ => apply_next) n = (Ret tt, n') /\
    (n' = n \/ applied_to n n') /\ (k <> 0%nat -> applied_to n n') /\
    last_applied_ n' = (last_applied_ n + N.of_nat k)%N /\
    (sm_ n', apply_errors_ n') =
      foldl apply_entry (sm_ n, apply_errors_ n)
        (entries_between (last_applied_ n + 1) (last_applied_ n + N.of_nat k) (log_ n)).
Proof.
  revert n a. induction k as [|k IH]; intros n a Hcb Hb Hin.
  - exists n. cbn. rewrite N.add_0_r. split_and!; [done|by left|done|done|].
    unfold entries_between, indices. by replace (N.to_nat _) with 0%nat by lia.
  - cbn [seq st_for]. destruct (Hin (last_applied_ n + 1)%N) as (e & He & Hd); [lia|].
    assert (Eb : entries_between (last_applied_ n + 1) (last_applied_ n + N.of_nat (S k)) (log_ n) =
      e :: entries_between (last_applied_ n + 1 + 1) (last_applied_ n + 1 + N.of_nat k) (log_ n)).
    { rewrite (entries_between_cons _ _ _ e) by (done || lia).
      by replace (last_applied_ n + 1 + N.of_nat k)%N with (last_applied_ n + N.of_nat (S k))%N by lia. }
    rewrite Eb in Hcb |- *. destruct Hcb as [Hcb1 Hcb].
    destruct (apply_next_run n e Hcb1) as (n1 & E1 & A1 & La & Es); [lia|done|done|].
    rewrite (run_bind _ _ _ _ _ E1).
    assert (Hlog : forall i, At i (log_ n1) = At i (log_ n)) by (intros i; by rewrite (at_log _ _ A1)).
    destruct (IH n1 (S a)) as (n' & E2 & A2 & _ & La2 & Es2); [|lia| |].
    { by rewrite La, Es, (entries_between_same _ _ (log_ n)). }
    { intros i Hi. rewrite Hlog. apply Hin. lia. }
    assert (A : applied_to n n') by (destruct A2 as [->|A2]; [done|by eapply applied_to_trans]).
    exists n'. split_and!; [exact E2|by right|done|lia|]. rewrite Es2, Es, La. cbn [foldl]. f_equal.
    by apply entries_between_same.
Qed.

(** What an entry does to the state machine alone. *)
Definition exec (s : SM) e : SM := if is_change e then s else (apply_callback (index e) (command e) s).2.

Lemma foldl_exec x l : (foldl apply_entry x l).1 = foldl exec x.1 l.
Proof.
  revert x. induction l as [|e l IH]; intros x; [done|]. cbn [foldl]. rewrite IH. f_equal. unfold apply_entry, exec.
  destruct (is_change e); [done|]. by destruct (apply_callback _ _ _) as [[]].
Qed.

(** What is recorded of errors does not matter to the state machine. *)
Lemma entries_return_errors x y l : x.1 = y.1 -> entries_return x l -> entries_return y l.
Proof.
  revert x y. induction l as [|e l IH]; intros x y E; [done|]. cbn [entries_return]. rewrite E. intros [H1 H2]. split; [done|].
  apply (IH (apply_entry x e)); [|done]. unfold apply_entry. rewrite E. destruct (is_change e); [done|].
  by destruct (apply_callback _ _ _) as [[]].
Qed.

Lemma entries_return_app x l l' : entries_return x (l ++ l') <-> entries_return x l /\ entries_return (foldl apply_entry x l) l'.
Proof. revert x. induction l as [|e l IH]; intros x; cbn; [tauto|]. rewrite IH. tauto. Qed.

(** When the loop of [ApplyCommitted] returns, the callback did so on every entry. *)
Lemma apply_next_returned n e :
  (apply_next n).1 = Ret tt -> (last_applied_ n + 1 < two64)%N -> At (last_applied_ n + 1) (log_ n) = Some e ->
  is_change e = false -> exists error s', apply_callback (index e) (command e) (sm_ n) = (Ret error, s').
Proof.
  unfold apply_next. rewrite run_modify, run_get. intros Hret Hb Hat Hc.
  assert (Ha : u64_add (last_applied_ n) 1 = (last_applied_ n + 1)%N) by (unfold u64_add, u64; by apply N.mod_small).
  rewrite Ha in Hret. cbn [last_applied_ set_last_applied log_] in Hret. rewrite Hat in Hret.
  apply bind_returns in Hret as (? & Hret & _). unfold is_change in Hc.
  destruct (TryDecodeConfChange (command e)) as [[cc|]|err|]; [done| |done..]. rewrite run_lift_ret in Hret.
  apply bind_returns in Hret as (error & Hret & _). unfold on_sm in Hret. cbn [set_last_applied sm_] in Hret.
  destruct (apply_callback _ _ _) as [r s]. cbn in Hret. subst r. eauto.
Qed.

Lemma apply_loop_returned n k a :
  (st_for (seq a k) (fun _ => apply_next) n).1 = Ret tt ->
  (last_applied_ n + N.of_nat k < two64)%N ->
  (forall i, (last_applied_ n < i <= last_applied_ n + N.of_nat k)%N -> exists e, At i (log_ n) = Some e /\ decodes e) ->
  entries_return (sm_ n, apply_errors_ n)
    (entries_between (last_applied_ n + 1) (last_applied_ n + N.of_nat k) (log_ n)).
Proof.
  revert n a. induction k as [|k IH]; intros n a Hret Hb Hin.
  - unfold entries_between, indices. by replace (N.to_nat _) with 0%nat by lia.
  - cbn [seq st_for] in Hret. destruct (Hin (last_applied_ n + 1)%N) as (e & He & Hd); [lia|].
    apply bind_returns in Hret as ([] & H1 & H2 & _).
    assert (Hcb := apply_next_returned n e H1 ltac:(lia) He).
    destruct (apply_next_run n e Hcb) as (n1 & E1 & A1 & La & Es); [lia|done|done|]. rewrite E1 in H2. cbn [snd] in H2.
    assert (Hlog : forall i, At i (log_ n1) = At i (log_ n)) by (intros i; by rewrite (at_log _ _ A1)).
    rewrite (entries_between_cons _ _ _ e) by (done || lia). split; [exact Hcb|]. rewrite <- Es, <- La.
    replace (last_applied_ n + N.of_nat (S k))%N with (last_applied_ n1 + N.of_nat k)%N by lia.
    rewrite <- (entries_between_same _ _ (log_ n) (log_ n1)) by done.
    apply (IH n1 (S a)); [done|lia|]. intros i Hi. rewrite Hlog. apply Hin. lia.
Qed.

Lemma fold_base_returns n :
  (forall i e, (snapshot_index (log_ n) < i <= last_applied_ n)%N -> At i (log_ n) = Some e -> decodes e) ->
  (fold_base n).1 = Ret tt.
Proof.
  intros Hd. unfold fold_base. generalize {| new_base := MembershipState.base_peers (membership_state_ n);
    new_base_self_member := MembershipState.self_is_member (membership_state_ n); membership_changed := false |}.
  assert (Hl : forall i e, i ∈ indices (snapshot_index (log_ n) + 1) (last_applied_ n) ->
    At i (log_ n) = Some e -> decodes e).
  { intros i e Hi. apply elem_of_indices in Hi. apply Hd. lia. }
  induction (indices _ _) as [|i l IH]; intros b; [done|]. cbn [st_for].
  assert (Hi : exists b', fold_index n i b = (Ret tt, b')).
  { unfold fold_index. destruct (At i (log_ n)) as [e|] eqn:Ee; [|eauto].
    destruct (Hl i e) as [[cc|] Hcc]; [left|done|..]; rewrite Hcc; eauto. }
  destruct Hi as [b' Hi]. rewrite (run_bind _ _ _ _ _ Hi). apply IH. intros j e Hj. apply Hl. by right.
Qed.

(** Compaction leaves the state machine and the rest of the log alone. *)
Lemma compact_applied_keeps n :
  log_ok (log_ n) -> (snapshot_index (log_ n) <= last_applied_ n)%N -> (last_applied_ n < two64)%N ->
  (last_applied_ n <= LastIndex (log_ n))%N ->
  (forall i e, (snapshot_index (log_ n) < i <= last_applied_ n)%N -> At i (log_ n) = Some e -> decodes e) ->
  exists n', compact_applied n = (Ret tt, n') /\ sm_ n' = sm_ n /\ last_applied_ n' = last_applied_ n /\
    applied_index (log_ n') = applied_index (log_ n) /\
    (forall i, (last_applied_ n < i)%N -> At i (log_ n') = At i (log_ n)) /\
    (forall i, (snapshot_index (log_ n) < i)%N -> apply_errors_ n' !! i = apply_errors_ n !! i) /\
    (files (fs_ n) !! log_path n = Some (log_file (log_ n)) ->
     files (fs_ n') !! log_path n' = Some (log_file (log_ n'))).
Proof.
  intros Hok Hs Hb Hl Hd. pose proof (fold_base_returns n Hd) as Hf.
  unfold compact_applied. rewrite run_get. case_match eqn:Et; [|exists n; by split_and!].
  assert (Hlt : (snapshot_index (log_ n) < last_applied_ n)%N) by by apply compaction_due.
  destruct (fold_base n) as [r b]. cbn [fst] in Hf. subst r. rewrite run_lift_ret.
  pose proof (CompactTo_spec (last_applied_ n) (TermAt (last_applied_ n) (log_ n)) (log_ n) Hok Hb) as Hc.
  assert (Hsaved : (CompactTo (last_applied_ n) (TermAt (last_applied_ n) (log_ n)) (log_ n)).1 = true)
    by (unfold CompactTo; by destruct (N.leb_spec (last_applied_ n) (snapshot_index (log_ n))); [lia|]).
  destruct (CompactTo _ _ _) as [saved l'] eqn:Ec. cbn [fst] in Hsaved. subst saved.
  destruct Hc as (_ & Happ & Hc). rewrite decide_False in Hc by lia. destruct Hc as (_ & _ & _ & Hat).
  set (n1 := if membership_changed b then SetMembership (new_base b) (new_base_self_member b) (own_address_ n) n else n).
  assert (Hn1 : sm_ n1 = sm_ n /\ last_applied_ n1 = last_applied_ n /\ log_ n1 = log_ n /\
                apply_errors_ n1 = apply_errors_ n) by (unfold n1; by destruct (membership_changed b)).
  exists (prune_errors (snapshot_index (log_ n)) (SaveLog (set_log l' n1))).
  destruct Hn1 as (E1 & E2 & E3 & E4). split.
  - transitivity ((_ ← st_modify (fun n => CompactLog (last_applied_ n) (TermAt (last_applied_ n) (log_ n)) n);
      st_modify (prune_errors (snapshot_index (log_ n)))) n1); [by unfold n1; destruct (membership_changed b)|].
    rewrite run_modify. unfold CompactLog. by rewrite E2, E3, Ec.
  - split_and!; [done|done|exact Happ| | |].
    + intros i Hi. cbn. rewrite Hat by done. by rewrite decide_True.
    + intros i Hi. unfold prune_errors. cbn [apply_errors_ set_apply_errors].
      rewrite map_lookup_filter. change (apply_errors_ (SaveLog (set_log l' n1))) with (apply_errors_ n1).
      rewrite E4. destruct (apply_errors_ n !! i); cbn; [|done]. by rewrite option_guard_True.
    + intros _. unfold prune_errors, SaveLog, emit, RaftLog.Save. cbn [set_apply_errors set_fs fs_].
      rewrite fs_run_files, replace_file_run. apply lookup_insert_eq.
Qed.

(** Every entry up to the commit index is in the log and can be decoded. *)
Record committed_ok n : Prop := {
  cok_log : log_ok (log_ n);
  cok_snapshot : (snapshot_index (log_ n) <= last_applied_ n)%N;
  cok_applied : (last_applied_ n <= commit_index_ n)%N;
  cok_commit : (commit_index_ n <= LastIndex (log_ n))%N;
  cok_bound : (LastIndex (log_ n) < two64)%N;
  cok_decodes i e : (i <= commit_index_ n)%N -> At i (log_ n) = Some e -> decodes e;
}.

Lemma log_has i (l : RaftLog) :
  log_ok l -> (snapshot_index l < i <= LastIndex l)%N -> exists e, At i l = Some e.
Proof.
  intros Hok Hi. rewrite At_lookup by (done || lia). rewrite LastIndex_ok in Hi by done.
  unfold last_index in Hi. apply lookup_lt_is_Some_2. lia.
Qed.

Lemma ApplyCommitted_run n :
  committed_ok n ->
  entries_return (sm_ n, apply_errors_ n) (entries_between (last_applied_ n + 1) (commit_index_ n) (log_ n)) ->
  let s := foldl apply_entry (sm_ n, apply_errors_ n)
             (entries_between (last_applied_ n + 1) (commit_index_ n) (log_ n)) in
  exists n', ApplyCommitted n = (Ret tt, n') /\ last_applied_ n' = commit_index_ n /\ sm_ n' = s.1 /\
    (forall i, (snapshot_index (log_ n) < i)%N -> apply_errors_ n' !! i = s.2 !! i) /\
    (forall i, (commit_index_ n < i)%N -> At i (log_ n') = At i (log_ n)) /\
    ((last_applied_ n < commit_index_ n)%N ->
     applied_index (log_ n') = commit_index_ n /\ files (fs_ n') !! log_path n' = Some (log_file (log_ n'))).
Proof.
  intros [Hok Hs Ha Hc Hb Hd] Hcb s. unfold ApplyCommitted. rewrite run_get.
  set (k := N.to_nat (commit_index_ n - last_applied_ n)).
  assert (Hk : (last_applied_ n + N.of_nat k)%N = commit_index_ n) by lia.
  destruct (apply_loop_run n k 0) as (n1 & E1 & A1 & A1' & La & Es).
  { by rewrite Hk. }
  { lia. }
  { intros i Hi. destruct (log_has i (log_ n) Hok) as [e He]; [lia|]. exists e. split; [done|]. apply (Hd i); [lia|done]. }
  rewrite (run_bind _ _ _ _ _ E1). rewrite Hk in *. fold s in Es.
  assert (El : log_ n1 = SetAppliedIndex (applied_index (log_ n1)) (log_ n))
    by (destruct A1 as [->|A1]; [by destruct (log_ n)|by rewrite (at_log _ _ A1)]).
  assert (Hat : forall i, At i (log_ n1) = At i (log_ n)) by (intros i; by rewrite El).
  assert (Esn : snapshot_index (log_ n1) = snapshot_index (log_ n)) by by rewrite El.
  destruct (compact_applied_keeps n1) as (n' & E2 & S2 & L2 & P2 & T2 & R2 & F2).
  { rewrite El. destruct Hok as [H1 H2]. by split. }
  { lia. }
  { lia. }
  { rewrite El, La. exact Hc. }
  { intros i e Hi. rewrite Hat. apply Hd. lia. }
  exists n'. rewrite E2. split_and!; [done|congruence| | | |].
  - by rewrite S2, <- Es.
  - intros i Hi. rewrite R2 by (rewrite Esn; done). by rewrite <- Es.
  - intros i Hi. rewrite T2 by (rewrite La; done). apply Hat.
  - intros Hlt. assert (A : applied_to n n1) by (apply A1'; lia). split.
    + rewrite P2, (at_log _ _ A). exact La.
    + apply F2, (at_file _ _ A).
Qed.
End apply.

(** ** Installing a snapshot *)

Section install.
Context {SM : Type} `{StateMachine SM}.
Implicit Types (n : RaftNode SM).

(** Everything [RefreshMembership] does not touch, as equations. *)
Lemma refresh_fields n (m := (RefreshMembership n).2) :
  sm_ m = sm_ n /\ log_ m = log_ n /\ last_applied_ m = last_applied_ n /\ commit_index_ m = commit_index_ n /\
  membership_state_ m = membership_state_ n /\ fs_ m = fs_ n /\ log_path m = log_path n /\ state_ m = state_ n.
Proof.
  pose proof (RefreshMembership_core n) as E. fold m in E. unfold core in E. unfold log_path. split_and!; congruence.
Qed.

Lemma log_membership_path n :
  log_path n <> membership_path n /\ log_path n <> membership_path n ++ str ".tmp".
Proof.
  unfold log_path, membership_path, MembershipState.PathFor.
  split; rewrite <- ?app_assoc; intros E; by apply app_inv_head in E.
Qed.

(** Reading the state at the end does not change it. *)
Lemma bind_reads_state {S A B} (m : ST S A) (k : A -> ST S B) s :
  (forall a s', (k a s').2 = s') -> ((m ≫= k) s).2 = (m s).2.
Proof. intros Hk. unfold mbind, ST_bind. by destruct (m s) as [[a|e|] s']. Qed.

Definition install_changes (lii : LogIndex) (lit : Term) (membership : peer_map) n : RaftNode SM :=
  let n := CompactLog lii lit n in
  let n := if (commit_index_ n <? lii)%N then set_commit_index lii n else n in
  let n := if (last_applied_ n <? lii)%N then
             let n := set_last_applied lii n in SaveLog (set_log (SetAppliedIndex lii (log_ n)) n)
           else n in
  let n := match membership !! id_ n with Some own => set_own_address own n | None => n end in
  SetMembership (delete (id_ n) membership) (bool_decide (is_Some (membership !! id_ n))) (own_address_ n) n.

Lemma FinishInstall_run req n :
  (snapshot_index (log_ n) < is_last_included_index req)%N ->
  (FinishInstall req n).2 =
  (RefreshMembership (install_changes (is_last_included_index req) (is_last_included_term req)
     (is_membership req) n)).2.
Proof.
  intros Hlt. unfold FinishInstall. rewrite run_get. cbv zeta. rewrite (proj2 (N.ltb_lt _ _) Hlt).
  st_steps. rewrite bind_reads_state by done. f_equal.
Qed.

Lemma hear_leader_fields env t leader n (m := hear_leader env t leader n) :
  (current_term n <= t)%N ->
  current_term m = t /\ sm_ m = sm_ n /\ log_ m = log_ n /\ last_applied_ m = last_applied_ n /\
  commit_index_ m = commit_index_ n /\ id_ m = id_ n /\ membership_state_ m = membership_state_ n.
Proof.
  intros Ht. unfold m, hear_leader, BecomeFollower. destruct (N.ltb_spec (current_term n) t); cbn [orb]; [done|].
  assert (current_term n = t) by lia. case_match; by split_and!.
Qed.

Lemma CompactLog_newer lii lit n : (snapshot_index (log_ n) < lii)%N ->
  CompactLog lii lit n = SaveLog (set_log (CompactTo lii lit (log_ n)).2 n).
Proof.
  intros Hlt. unfold CompactLog, CompactTo.
  by destruct (N.leb_spec lii (snapshot_index (log_ n))); [lia|].
Qed.

Lemma install_changes_spec lii lit membership n (m := install_changes lii lit membership n) :
  log_ok (log_ n) -> (snapshot_index (log_ n) < lii)%N -> (last_applied_ n < lii)%N -> (lii < two64)%N ->
  sm_ m = sm_ n /\ state_ m = state_ n /\ last_applied_ m = lii /\ commit_index_ m = N.max (commit_index_ n) lii /\
  snapshot_index (log_ m) = lii /\ snapshot_term (log_ m) = lit /\ log_ok (log_ m) /\
  MembershipState.base_peers (membership_state_ m) = delete (id_ n) membership /\
  applied_index (log_ m) = lii /\ files (fs_ m) !! log_path m = Some (log_file (log_ m)).
Proof.
  intros Hok Hs Hla Hb. unfold m, install_changes. rewrite CompactLog_newer by done.
  pose proof (CompactTo_spec lii lit (log_ n) Hok Hb) as Hc. destruct (CompactTo lii lit (log_ n)) as [saved l'].
  destruct Hc as (Hok' & _ & Hc). rewrite decide_False in Hc by lia. destruct Hc as (Hi & Ht & _). cbn [snd].
  change (commit_index_ (SaveLog (set_log l' n))) with (commit_index_ n).
  set (n1 := if (commit_index_ n <? lii)%N then set_commit_index lii (SaveLog (set_log l' n)) else SaveLog (set_log l' n)).
  assert (Hn1 : log_ n1 = l' /\ sm_ n1 = sm_ n /\ state_ n1 = state_ n /\ last_applied_ n1 = last_applied_ n /\
    commit_index_ n1 = N.max (commit_index_ n) lii /\ id_ n1 = id_ n)
    by (unfold n1; destruct (N.ltb_spec (commit_index_ n) lii); split_and!; try done; cbn; lia).
  clearbody n1. destruct Hn1 as (E1 & E2 & E3 & E4 & E5 & E6). rewrite E4, (proj2 (N.ltb_lt _ _) Hla). cbv zeta.
  set (n2 := SaveLog (set_log _ _)).
  assert (Hn2 : log_ n2 = SetAppliedIndex lii l' /\ sm_ n2 = sm_ n /\ state_ n2 = state_ n /\ last_applied_ n2 = lii /\
    commit_index_ n2 = N.max (commit_index_ n) lii /\ id_ n2 = id_ n /\
    files (fs_ n2) !! log_path n2 = Some (log_file (log_ n2))).
  { split_and!; try done; [cbn; by rewrite E1|]. unfold n2, SaveLog, emit, RaftLog.Save. cbn [set_fs fs_].
    rewrite fs_run_files, replace_file_run. apply lookup_insert_eq. }
  clearbody n2. destruct Hn2 as (F1 & F2 & F3 & F4 & F5 & F6 & F7).
  set (n3 := match membership !! id_ n2 with Some own => set_own_address own n2 | None => n2 end).
  assert (Hn3 : log_ n3 = log_ n2 /\ sm_ n3 = sm_ n2 /\ state_ n3 = state_ n2 /\ last_applied_ n3 = last_applied_ n2 /\
    commit_index_ n3 = commit_index_ n2 /\ id_ n3 = id_ n2 /\
    files (fs_ n3) !! log_path n3 = files (fs_ n2) !! log_path n2) by (unfold n3; case_match; by split_and!).
  clearbody n3. destruct Hn3 as (G1 & G2 & G3 & G4 & G5 & G6 & G7).
  destruct (log_membership_path n3) as [P1 P2].
  unfold SetMembership, MembershipState.Set_, emit.
  cbn [sm_ state_ last_applied_ commit_index_ log_ membership_state_ fs_ set_fs set_membership_state MembershipState.base_peers].
  rewrite G1, G2, G3, G4, G5, G6, F1, F2, F3, F4, F5, F6.
  assert (Hok2 : log_ok (SetAppliedIndex lii l')) by (destruct Hok'; by split).
  split_and!; try done. rewrite fs_run_files. unfold log_path at 1. cbn [state_dir_ id_ set_membership_state set_fs].
  rewrite replace_file_other by done. rewrite <- F1, <- F7. exact G7.
Qed.
End install.

(** ** A follower *)

Definition follower : RaftNode test_sm :=
  match new_node 1 {| host := str "h"; port := 1 |}
          {[ 2%N := {| host := str "h"; port := 2 |}; 3%N := {| host := str "h"; port := 3 |} ]}
          (str "d") false [] ∅ with
  | Ret n => n
  | _ => MkNode 0 no_address ∅ [] PersistentState.fresh empty_log MembershipState.fresh kFollower 0 0 0
           true 0 false ∅ 0 0 0 None ∅ ∅ ∅ [] {| files := ∅; journal := [] |} []
  end.

Definition demo_entries : list LogEntry :=
  [{| index := 1; term := 1; command := str "a" |}; {| index := 2; term := 1; command := str "b" |};
   {| index := 3; term := 1; command := str "c" |}].

(** Entries 1 to 3 from the leader of term [t], all committed. *)
Definition demo_append (t : Term) : AppendEntriesRequest :=
  {| ae_term := t; ae_leader_id := 2; ae_prev_log_index := 0; ae_prev_log_term := 0;
     ae_entries := demo_entries; ae_leader_commit := 3 |}.

(** The state after entry 2, from the leader of term 1. *)
Definition demo_snapshot : InstallSnapshotRequest :=
  {| is_term := 1; is_leader_id := 3; is_last_included_index := 2; is_last_included_term := 1;
     is_data := str "ab"; is_membership := <[1%N := own_address_ follower]> (peers_ follower) |}.

Definition demo_env : Env := {| now := 1000; timeout := 500 |}.

(** ** Properties *)

(** C19: applying. If the callback returns on the entries it is handed and the log holds every committed entry,
    [ApplyCommitted] returns; the state machine and the recorded errors are the result of
    handing it the committed entries that are not membership changes, once each, in index order
    ([apply_entry] over the entries from [last_applied_ + 1] to [commit_index_]); everything
    committed is applied; the entries above the commit index are untouched by the compaction;
    and the log on disk says how far the node has applied, so that a restart goes on from there. *)
Theorem ApplyCommitted_spec {SM} `{StateMachine SM} (n : RaftNode SM) :
  committed_ok n ->
  entries_return (sm_ n, apply_errors_ n) (entries_between (last_applied_ n + 1) (commit_index_ n) (log_ n)) ->
  let s := foldl apply_entry (sm_ n, apply_errors_ n)
             (entries_between (last_applied_ n + 1) (commit_index_ n) (log_ n)) in
  exists n', ApplyCommitted n = (Ret tt, n') /\ last_applied_ n' = commit_index_ n /\ sm_ n' = s.1 /\
    (forall i, (snapshot_index (log_ n) < i)%N -> apply_errors_ n' !! i = s.2 !! i) /\
    (forall i, (commit_index_ n < i)%N -> At i (log_ n') = At i (log_ n)) /\
    ((last_applied_ n < commit_index_ n)%N ->
     applied_index (log_ n') = commit_index_ n /\ files (fs_ n') !! log_path n' = Some (log_file (log_ n'))).
Proof. apply ApplyCommitted_run. Qed.

(** A node with three entries, two of them committed and none applied. *)
Definition test_committed : RaftNode (list ascii) :=
  set_commit_index 2 (set_log (with_entries demo_entries empty_log) follower).

Lemma test_committed_ok : committed_ok test_committed.
Proof.
  split; try by vm_compute.
  - split; [|by vm_compute]. intros i e Hi. do 3 (destruct i as [|i]; [by injection Hi as <-|]). by destruct i.
  - intros i e Hi. change (i <= 2)%N in Hi. assert (i = 0 \/ i = 1 \/ i = 2)%N as [->|[->| ->]] by lia;
      [done|intros [= <-]; by exists None..].
Qed.

Lemma ApplyCommitted_spec_witness :
  exists n', ApplyCommitted test_committed = (Ret tt, n') /\ last_applied_ n' = 2%N /\ sm_ n' = str "ab".
Proof.
  destruct (ApplyCommitted_spec test_committed) as (n' & E1 & E2 & E3 & _);
    [apply test_committed_ok|by repeat (split; [intros _; do 2 eexists; reflexivity|])|].
  exists n'. split_and!; [exact E1|exact E2|rewrite E3; by vm_compute].
Defined.

(** C24: installing a snapshot that is newer than what the node has applied. If the request is
    not from a past term, then the state machine is what the snapshot restores, the log starts
    after the snapshot, everything in it counts as applied and committed, the membership of
    the snapshot is the new base (without this node itself), and the log on disk agrees. *)
Theorem HandleInstallSnapshot_spec {SM} `{StateMachine SM} (n : RaftNode SM) env req s' :
  log_ok (log_ n) -> (snapshot_index (log_ n) <= last_applied_ n)%N ->
  (current_term n <= is_term req)%N -> (last_applied_ n < is_last_included_index req)%N ->
  (is_last_included_index req < two64)%N ->
  restore_callback (is_data req) (sm_ n) = (Ret tt, s') ->
  let n' := (HandleInstallSnapshot id env req n).2 in
  let lii := is_last_included_index req in
  sm_ n' = s' /\ current_term n' = is_term req /\ last_applied_ n' = lii /\
  commit_index_ n' = N.max (commit_index_ n) lii /\
  snapshot_index (log_ n') = lii /\ snapshot_term (log_ n') = is_last_included_term req /\ log_ok (log_ n') /\
  MembershipState.base_peers (membership_state_ n') = delete (id_ n) (is_membership req) /\
  applied_index (log_ n') = lii /\ files (fs_ n') !! log_path n' = Some (log_file (log_ n')).
Proof.
  intros Hok Hs Ht Hla Hb Hr n' lii. subst lii.
  destruct (hear_leader_fields env (is_term req) (is_leader_id req) n Ht) as (Et & Es & El & Ela & Eci & Eid & Em).
  set (n1 := hear_leader env (is_term req) (is_leader_id req) n) in *.
  set (n2 := set_sm s' n1).
  assert (El2 : log_ n2 = log_ n) by exact El.
  assert (En' : n' = (RefreshMembership (install_changes (is_last_included_index req) (is_last_included_term req) (is_membership req) n2)).2).
  { rewrite <- FinishInstall_run by (rewrite El2; lia). unfold n', HandleInstallSnapshot, BeginInstall.
    rewrite run_get, (proj2 (N.ltb_ge _ _)) by lia. fold n1. rewrite El, (proj2 (N.leb_gt _ _)) by lia.
    rewrite run_modify. unfold mbind at 1, ST_bind at 1. unfold on_sm. by rewrite Es, Hr. }
  assert (E2 : sm_ n2 = s' /\ current_term n2 = is_term req /\ last_applied_ n2 = last_applied_ n /\
    commit_index_ n2 = commit_index_ n /\ id_ n2 = id_ n) by by split_and!.
  clearbody n2 n'. clear Es El Ela Eci Eid Em Et n1. destruct E2 as (Es & Et & Ela & Eci & Eid).
  destruct (refresh_fields (install_changes (is_last_included_index req) (is_last_included_term req) (is_membership req) n2))
    as (R1 & R2 & R3 & R4 & R5 & R6 & R7 & R8).
  destruct (install_changes_spec (is_last_included_index req) (is_last_included_term req) (is_membership req) n2)
    as (I1 & I2 & I3 & I4 & I5 & I6 & I7 & I8 & I9 & I10); [by rewrite El2|rewrite El2; lia|lia|done|].
  unfold current_term in *. rewrite En', R1, R2, R3, R4, R5, R6, R7, R8, I1, I2, I3, I4, I5, I6, I8, I9, Es, Et, Eci, Eid.
  by split_and!.
Qed.

Lemma HandleInstallSnapshot_spec_witness :
  let n' := (HandleInstallSnapshot id demo_env demo_snapshot follower).2 in
  sm_ n' = str "ab" /\ last_applied_ n' = 2%N.
Proof.
  destruct (HandleInstallSnapshot_spec follower demo_env demo_snapshot (str "ab")) as (E1 & _ & E2 & _);
    [by vm_compute; split|by vm_compute..|].
  split; [exact E1|exact E2].
Defined.

(** A snapshot can roll the state machine back. The handler compares the snapshot with the
    log's snapshot index only, and releases the lock before it restores: a follower that accepts
    the snapshot of entry 2 from the leader of term 1, then hears entries 1 to 3 from the leader
    of term 2 before it restores, ends with the state after entry 2 while it records that it has
    applied entry 3; nothing will apply entry 3 again. *)
Theorem stale_snapshot_rolls_back :
  exists n, rtc node_step follower n /\
    last_applied_ n = 3%N /\ commit_index_ n = 3%N /\ applied_index (log_ n) = 3%N /\
    sm_ (HandleAppendEntries demo_env (demo_append 2) follower).2 = str "abc" /\
    sm_ n = str "ab" /\ sm_ (ApplyCommitted n).2 = str "ab".
Proof.
  exists (FinishInstall demo_snapshot (on_sm (restore_callback (is_data demo_snapshot))
    (HandleAppendEntries demo_env (demo_append 2) (BeginInstall demo_env demo_snapshot follower).2).2).2).2.
  split; [|by vm_compute].
  eapply rtc_l; [apply step_other, (step_begin_install follower demo_env demo_snapshot); done|].
  eapply rtc_l; [apply step_other, (step_append_entries _ demo_env (demo_append 2)); done|].
  eapply rtc_l; [apply step_other, (step_restore _ (is_data demo_snapshot))|].
  apply rtc_once, step_other, step_finish_install.
Qed.

(** A crash can hand an entry to the state machine twice. The state machine persists itself
    before the log records that the entry is applied; when the process is killed in between, the
    files still say that nothing is applied, and the restarted node, once it learns the commit
    index again, applies the entry a second time. *)
Theorem crash_applies_twice :
  let n := set_commit_index 1 (SaveLog (set_log (with_entries (take 1 demo_entries) empty_log) follower)) in
  let n' := (ApplyCommitted n).2 in
  let written := drop (length (journal (fs_ n))) (journal (fs_ n')) in
  sm_ n' = str "a" /\
  exists d, crash_states (files (fs_ n)) written d /\
    match new_node (id_ n) (own_address_ n) (peers_ n) (state_dir_ n) false (sm_ n') d with
    | Ret m => last_applied_ m = 0%N /\ sm_ (ApplyCommitted (set_commit_index 1 m)).2 = str "aa"
    | _ => False
    end.
Proof.
  cbv zeta. split; [by vm_compute|]. eexists. split; [apply (crash_states_take _ _ 0)|]. by vm_compute.
Qed.
