(* ===== verification/NodeLog.v ===== *)
(** * A node as a participant of the protocol

    How the record of [src/raft/node.cpp] stands for a participant of [RaftSpec], and what each
    critical section of the node does to that: which step of the protocol it is.  Membership
    changes are out of scope here, and the callbacks keep their contract not to throw. *)

From Stdlib Require Import NArith Lia.
From stdpp Require Import fin_sets.
From S2P Require Export LogView RaftApply.

(** The command changes the state machine, not the membership. *)
Definition plain (e : LogEntry) : Prop := TryDecodeConfChange (command e) = Ret None.

(** What leaders' logs are made of: so every log is. *)
Definition log_wf (L : full_log) : Prop :=
  consecutive 0 L /\ Forall (fun e => term e <> 0%N /\ plain e) L /\ (N.of_nat (length L) + 1 < two64)%N.

Definition leads_wf (a : raft) : Prop := forall t q L, a_lead a !! t = Some (q, L) -> t <> 0%N /\ log_wf L.

Lemma log_wf_prefix f L : f `prefix_of` L -> log_wf L -> log_wf f.
Proof.
  intros Hp (H1 & H2 & H3). split_and!.
  - intros i e Hi. apply H1. by eapply prefix_lookup_Some.
  - destruct Hp as [k ->]. by apply Forall_app in H2 as [? _].
  - apply prefix_length in Hp. lia.
Qed.

Lemma matching_wf a f : leads_wf a -> matching a f -> log_wf f.
Proof.
  intros Hl Hm. destruct (last f) as [e|] eqn:E.
  - rewrite last_lookup in E. destruct (Hm _ _ E) as (q & L & HL & Hp). rewrite take_ge in Hp by lia.
    eapply log_wf_prefix; [done|]. by eapply Hl.
  - apply last_None in E as ->. split_and!; [by intros i e|by constructor|done].
Qed.

Lemma matching_agree a f L : matching a f -> matching a L -> agree f L.
Proof.
  intros Hf HL i e e' He He' Et. destruct (Hf _ _ He) as (q & L1 & H1 & P1). destruct (HL _ _ He') as (q' & L2 & H2 & P2).
  rewrite <- Et in H2. simplify_eq. apply lookup_lt_Some in He, He'.
  rewrite (prefix_is_take _ _ P1), (prefix_is_take _ _ P2), !length_take. f_equal. lia.
Qed.

(** Committed in the term [T] or before. *)
Definition settled (M : gset N) (a : raft) (T : N) (C : full_log) : Prop :=
  C = [] \/ exists t, (t <= T)%N /\ committed M a t C.

Section node.
Context {SM : Type} `{StateMachine SM}.
Context (M : gset N).
Implicit Types (n m : RaftNode SM) (a : raft) (f L C : full_log) (p q t : N).

(** The file of the log says what the log in memory is. *)
Definition log_saved n : Prop :=
  files (fs_ n) !! log_path n = Some (log_file (log_ n)) \/
  files (fs_ n) !! log_path n = None /\ log_ n = empty_log.

(** The node's log is the one of [p] in the protocol, and what it takes for committed is. *)
Record log_rel a p f n : Prop := {
  lr_id : id_ n = p;
  lr_node : a_nodes a !! p = Some (Participant (current_term n) f);
  lr_log : compacted (log_ n) f;
  lr_commit : (commit_index_ n <= N.of_nat (length f))%N;
  lr_safe : settled M a (current_term n) (take (N.to_nat (commit_index_ n)) f);
  lr_snap : (snapshot_index (log_ n) <= last_applied_ n)%N;
  lr_applied : applied_index (log_ n) = last_applied_ n;
  lr_last : (last_applied_ n <= commit_index_ n)%N;
  lr_saved : log_saved n;
}.

(** What a leader believes its peers have, they have acknowledged. *)
Definition match_ok a n : Prop :=
  forall q j, match_index_ n !! q = Some j -> j = 0%N \/ exists j', (N.to_nat j <= j')%nat /\ (q, current_term n, j') ∈ a_acks a.

(** The leader goes on after its log at most. *)
Definition next_ok L n : Prop :=
  forall q j, q ∈ dom (peers_ n) -> next_index_ n !! q = Some j -> (j <= N.of_nat (length L) + 1)%N.

Record role_rel a n : Prop := {
  rr_leader : role_ n = kLeader -> (exists f, a_lead a !! current_term n = Some (id_ n, f) /\ next_ok f n) /\ match_ok a n;
  rr_candidate : role_ n = kCandidate -> forall L, a_lead a !! current_term n <> Some (id_ n, L);
}.

(** ** What the relation does not look at *)

Definition log_view n :=
  (id_ n, state_dir_ n, state_ n, log_ n, commit_index_ n, last_applied_ n, files (fs_ n) !! log_path n).

Lemma log_rel_view a p f n n' : log_view n' = log_view n -> log_rel a p f n -> log_rel a p f n'.
Proof.
  intros E [H1 H2 H3 H4 H5 H6 H7 H8 H9]. unfold log_view in E. injection E as E1 E2 E3 E4 E5 E6 E7.
  assert (Et : current_term n' = current_term n) by (unfold current_term; congruence).
  split; rewrite ?E1, ?E4, ?E5, ?E6, ?Et; try done. unfold log_saved. by rewrite E4, E7.
Qed.

(** The role stays or becomes the follower's, and nothing new is believed. *)
Definition relaxes n n' : Prop :=
  id_ n' = id_ n /\ current_term n' = current_term n /\ (role_ n' = kFollower \/ role_ n' = role_ n) /\
  (forall q j, match_index_ n' !! q = Some j -> j = 0%N \/ match_index_ n !! q = Some j) /\
  forall q j, role_ n' = kLeader -> q ∈ dom (peers_ n') -> next_index_ n' !! q = Some j ->
    (j <= 1)%N \/ q ∈ dom (peers_ n) /\ exists i, next_index_ n !! q = Some i /\ (j <= i)%N.

#[export] Instance relaxes_preorder : PreOrder relaxes.
Proof.
  unfold relaxes. split; [intros n; split_and!; auto; intros; right; eauto|].
  intros n1 n2 n3 (I1 & T1 & R1 & M1 & X1) (I2 & T2 & R2 & M2 & X2). split_and!; [congruence|congruence| | |].
  - destruct R2 as [?|R2]; [by left|]. rewrite R2. done.
  - intros q j Hj. destruct (M2 q j Hj) as [?|Hj']; [by left|by apply M1].
  - intros q j Hr Hq Hj. destruct (X2 q j Hr Hq Hj) as [?|(Hq2 & i & Hi & Hle)]; [by left|].
    destruct (X1 q i) as [?|(Hq1 & k & Hk & Hle')]; [destruct R2; congruence|done|done|left; lia|right].
    split; [done|]. exists k. split; [done|lia].
Qed.

Lemma role_rel_relaxes a n n' : relaxes n n' -> role_rel a n -> role_rel a n'.
Proof.
  intros (Ei & Et & Er & Em & Ex) [H1 H2]. split; intros Hr.
  - assert (Hr' : role_ n = kLeader) by (destruct Er; congruence). destruct (H1 Hr') as [(f & Hf & Hx) Hm]. rewrite Et, Ei. split.
    + exists f. split; [done|]. intros q j Hq Hj. destruct (Ex q j Hr Hq Hj) as [?|(Hq' & i & Hi & Hle)]; [lia|].
      specialize (Hx q i Hq' Hi). lia.
    + intros q j Hj. rewrite Et. destruct (Em q j Hj) as [?|Hj']; [by left|by apply Hm].
  - destruct Er as [?|Er]; [congruence|]. rewrite Er in Hr. rewrite Et, Ei. by apply H2.
Qed.

Definition role_view n := (id_ n, state_ n, role_ n, match_index_ n, next_index_ n, peers_ n).

Lemma view_relaxes n n' : role_view n' = role_view n -> relaxes n n'.
Proof. unfold role_view, relaxes, current_term. intros [= -> -> -> -> -> ->]. split_and!; auto. intros. right. eauto. Qed.

(** Both at once. *)
Definition node_rel a p f n : Prop := log_rel a p f n /\ role_rel a n /\ tracked n.

Definition quiet n n' : Prop := log_view n' = log_view n /\ relaxes n n' /\ keeps_tracked n n'.

#[export] Instance quiet_preorder : PreOrder quiet.
Proof.
  split; [intros n; split_and!; done|]. intros n1 n2 n3 (V1 & R1 & K1) (V2 & R2 & K2).
  split_and!; [congruence|by etrans|by etrans].
Qed.

Lemma quiet_rel a p f n n' : quiet n n' -> node_rel a p f n -> node_rel a p f n'.
Proof.
  intros (V & R & K) (H1 & H2 & H3). split_and!; [by eapply log_rel_view|by eapply role_rel_relaxes|by apply K].
Qed.

Lemma view_quiet n n' : log_view n' = log_view n -> role_view n' = role_view n -> quiet n n'.
Proof.
  intros V R. split_and!; [done|by apply view_relaxes|]. intros Ht. unfold role_view in R. injection R as _ _ Er Em _ Ep.
  eapply tracked_frame; [done..|]. by rewrite Er.
Qed.
End node.

#[export] Hint Extern 2 (quiet _ _) => by apply view_quiet : moves.

Section effects.
Context {SM : Type} `{StateMachine SM}.
Implicit Types (n m : RaftNode SM) (a : raft) (f L C : full_log) (p q t : N).

(** ** Critical sections the protocol does not see *)

Lemma core_log_view n n' : core n' = core n -> log_view n' = log_view n.
Proof. unfold core, log_view, log_path. congruence. Qed.

Lemma adopt_peer_relaxes n x : relaxes n (adopt_peer n x).
Proof.
  unfold adopt_peer. cbv zeta. cbn [set_peers role_].
  destruct (bool_decide_reflect (peers_ n !! x.1 = None)) as [Hnew|Hold], (bool_decide_reflect (role_ n = kLeader)) as [Hr|Hr]; cbn [andb].
  - split_and!; [done|done|by right| |].
    + intros q j. cbn. rewrite lookup_insert_Some. intros [[_ <-]|[_ ?]]; auto.
    + intros q j _. cbn. rewrite lookup_insert_Some, dom_insert_L. intros Hq [[_ <-]|[Hne Hj]]; [by left|right]. split; [set_solver|eauto].
  - split_and!; [done|done|by right|auto|]. cbn. done.
  - split_and!; [done|done|by right|auto|]. intros q j _. cbn. rewrite dom_insert_L. intros Hq Hj. right.
    assert (x.1 ∈ dom (peers_ n)) by (apply elem_of_dom; by apply not_eq_None_Some). split; [set_solver|eauto].
  - split_and!; [done|done|by right|auto|]. cbn. done.
Qed.

Lemma drop_peer_relaxes eff n x : relaxes n (drop_peer eff n x).
Proof.
  unfold drop_peer. destruct (eff !! x.1); [reflexivity|]. split_and!; [done|done|by right| |].
  - intros q j. cbn. intros [_ ?]%lookup_delete_Some. by right.
  - intros q j _. cbn. rewrite dom_delete_L. intros Hq [_ Hj]%lookup_delete_Some. right. split; [set_solver|eauto].
Qed.

Lemma adopt_peers_relaxes eff n : relaxes n (adopt_peers eff n).
Proof.
  assert (Hfold : forall (g : RaftNode SM -> NodeId * PeerAddress -> RaftNode SM) l n1, (forall n2 x, relaxes n2 (g n2 x)) -> relaxes n1 (foldl g n1 l)).
  { intros g l. induction l as [|x l IH]; intros n1 Hg; [reflexivity|]. cbn. etrans; [apply Hg|by apply IH]. }
  unfold adopt_peers. etrans; [apply Hfold, adopt_peer_relaxes|apply Hfold, drop_peer_relaxes].
Qed.

Lemma RefreshMembership_quiet : moves (@quiet SM) RefreshMembership.
Proof.
  intros n. split_and!; [by apply core_log_view, RefreshMembership_core| |apply RefreshMembership_tracked].
  unfold RefreshMembership. rewrite run_get. destruct (scan_log n) as [[[]|e|] s]; rewrite run_modify; [|by apply view_relaxes..].
  rewrite run_lift_ret, run_modify. unfold st_modify. cbn [snd]. etrans; [|apply adopt_peers_relaxes]. by apply view_relaxes.
Qed.

Lemma on_sm_quiet {A} (m : ST SM A) : moves (@quiet SM) (on_sm m).
Proof. intros n. unfold on_sm. destruct (m (sm_ n)). by apply view_quiet. Qed.

Lemma Tick_quiet env n : quiet n (Tick env n).2.
Proof. unfold Tick. repeat case_match; by apply view_quiet. Qed.

Lemma SendInstallSnapshot_quiet peer addr t n : quiet n (SendInstallSnapshot peer addr t n).
Proof. unfold SendInstallSnapshot. case_match; by apply view_quiet. Qed.

(** Lower next indices, or missing ones created. *)
Lemma next_index_quiet n peer j : (j <= default 0 (next_index_ n !! peer))%N ->
  quiet n (set_next_index (<[peer := j]> (next_index_ n)) n).
Proof.
  intros Hj. split_and!; [done| |by apply demotes_tracked]. split_and!; [done|done|by right|by right|].
  intros q k _ Hq. cbn. rewrite lookup_insert_Some. intros [[<- <-]|[_ Hk]]; [|right; eauto].
  destruct (next_index_ n !! peer) as [i|]; cbn in Hj; [right; eauto|left; lia].
Qed.

Lemma next_of_quiet n peer : quiet n (next_of peer n).2.
Proof. apply next_index_quiet. done. Qed.

Lemma BeginReplicate_quiet peer addr n : quiet n (BeginReplicate peer addr n).2.
Proof.
  unfold BeginReplicate. destruct (negb _); [reflexivity|]. destruct (decide _); [reflexivity|].
  pose proof (next_of_quiet n peer) as Hq. destruct (next_of peer n) as [next_idx n1]. cbn [snd] in Hq. cbv zeta.
  destruct (_ <=? _)%N; (etrans; [exact Hq|]); by apply view_quiet.
Qed.

Lemma ReplicateTo_quiet peer addr n : quiet n (ReplicateTo peer addr n).
Proof.
  destruct (ReplicateTo_parts peer addr n) as (n1 & -> & [-> |[t ->]]); [|etrans; [|apply SendInstallSnapshot_quiet]];
    apply BeginReplicate_quiet.
Qed.

Lemma ReplicateToAll_quiet n : quiet n (ReplicateToAll n).
Proof.
  unfold ReplicateToAll. case_match; [reflexivity|]. generalize (map_entries (peers_ n)). intros l. clear. revert n.
  induction l as [|x l IH]; intros n; [reflexivity|]. cbn [foldl]. etrans; [apply ReplicateTo_quiet|apply IH].
Qed.

Lemma HandleReadRequest_quiet req n : quiet n (HandleReadRequest req n).2.
Proof. rewrite HandleReadRequest_state. apply on_sm_quiet. Qed.

Lemma BecomeFollower_same env t n : (t <= current_term n)%N -> quiet n (BecomeFollower env t n).
Proof.
  intros Ht. unfold BecomeFollower. destruct (N.ltb_spec (current_term n) t); [lia|].
  split_and!; [done| |by apply demotes_tracked]. split_and!; [done|done|by left|by right|by cbn].
Qed.
End effects.

(** ** Steps of the protocol that cast no vote *)

Section settle.
Context (M : gset N).
Implicit Types (a : raft) (f L C : full_log) (p q t : N).

(** Node [p] has taken steps, and nobody has proposed what logs may not hold. *)
Record reaches p a a' : Prop := {
  re_steps : rtc (raft_step M p) a a';
  re_votes : a_votes a' = a_votes a;
  re_wf : leads_wf a';
}.

Lemma reaches_refl p a : leads_wf a -> reaches p a a.
Proof. by split. Qed.

Lemma reaches_trans p a1 a2 a3 : reaches p a1 a2 -> reaches p a2 a3 -> reaches p a1 a3.
Proof. intros [S1 V1 _] [S2 V2 W2]. split; [by etrans|congruence|done]. Qed.

Lemma reaches_once p a a' : raft_step M p a a' -> a_votes a' = a_votes a -> leads_wf a' -> reaches p a a'.
Proof. intros Hs Hv Hw. split; [by apply rtc_once|done|done]. Qed.

Lemma settled_later a T T' C : (T <= T')%N -> settled M a T C -> settled M a T' C.
Proof. intros Hle [?|(t & Ht & HC)]; [by left|right]. exists t. split; [lia|done]. Qed.

Lemma settled_prefix a T C D : D `prefix_of` C -> settled M a T C -> settled M a T D.
Proof.
  intros Hp [->|(t & Ht & (E & HE & HC))]; [left; by apply prefix_nil_inv|right].
  exists t. split; [done|]. exists E. split; [done|by etrans].
Qed.

Lemma settled_steps p a a' T C : sound M a -> rtc (raft_step M p) a a' -> settled M a T C -> settled M a' T C.
Proof.
  intros Hs Hr [?|(t & Ht & HC)]; [by left|right]. exists t. split; [done|].
  destruct (steps_sound M p a a' Hs Hr) as (_ & Hc & _). by apply Hc.
Qed.

Lemma settled_comparable a T T' C D : sound M a -> settled M a T C -> settled M a T' D -> C `prefix_of` D \/ D `prefix_of` C.
Proof.
  intros Hs [->|(t & _ & HC)] [->|(t' & _ & HD)]; try (left; apply prefix_nil); [right; apply prefix_nil|].
  by eapply committed_comparable.
Qed.

Lemma settled_in_lead a T C t q L : sound M a -> settled M a T C -> (T <= t)%N -> a_lead a !! t = Some (q, L) -> C `prefix_of` L.
Proof.
  intros Hs [->|(u & Hu & HC)] Ht HL; [apply prefix_nil|]. apply (committed_in_lead M a Hs u C t q L); [done|lia|done].
Qed.

(** What is settled of a log stays of it when the node adopts another one. *)
Lemma settled_kept a T C D f : sound M a -> settled M a T C -> C `prefix_of` f ->
  (exists T' q L, (T <= T')%N /\ a_lead a !! T' = Some (q, L) /\ D `prefix_of` L) \/ (exists T', settled M a T' D) ->
  C `prefix_of` adopt D f.
Proof.
  intros Hs HC Hf HD. apply adopt_keeps; [done|]. destruct HD as [(T' & q & L & Hle & HL & HD)|(T' & HD)].
  - eapply prefix_weak_total; [by eapply settled_in_lead|done].
  - by eapply settled_comparable.
Qed.

Lemma prefix_take_self f g n : (n <= length f)%nat -> take n f `prefix_of` g -> (n <= length g)%nat /\ take n g = take n f.
Proof.
  intros Hn Hp. pose proof (prefix_length _ _ Hp) as Hl. rewrite length_take_le in Hl by done. split; [done|].
  rewrite <- (prefix_take_same _ _ n Hp) by (rewrite length_take_le; done). by rewrite take_take, Nat.min_id.
Qed.
End settle.

(** ** The term *)

Section terms.
Context {SM : Type} `{StateMachine SM}.
Context (M : gset N).
Implicit Types (n m : RaftNode SM) (a : raft) (f L C : full_log) (p q t : N).

Lemma log_state_path n : log_path n <> state_path n /\ log_path n <> state_path n ++ str ".tmp".
Proof.
  unfold log_path, state_path. split; rewrite <- ?app_assoc; intros E; by apply app_inv_head in E.
Qed.

Lemma SetState_log t v n :
  log_ (SetState t v n) = log_ n /\ files (fs_ (SetState t v n)) !! log_path n = files (fs_ n) !! log_path n.
Proof.
  destruct (log_state_path n) as [H1 H2]. unfold SetState, PersistentState.Set_, emit. split; [done|].
  cbn [set_fs fs_]. rewrite fs_run_files. by rewrite replace_file_other.
Qed.

(** A node that moves on to a later term and follows in it. *)
Lemma log_rel_term a p f n t v : (current_term n <= t)%N -> log_rel M a p f n ->
  log_rel M (with_node p (Participant t f) a) p f (SetState t v n).
Proof.
  intros Ht [H1 H2 H3 H4 H5 H6 H7 H8 H9]. destruct (SetState_log t v n) as [El Ef]. split; try done.
  - cbn. by rewrite lookup_insert_eq.
  - by eapply settled_later.
  - unfold log_saved. change (log_path (SetState t v n)) with (log_path n). by rewrite Ef, El.
Qed.

Lemma BecomeFollower_rel a p f n env t : leads_wf a -> node_rel M a p f n -> exists a', reaches M p a a' /\
  node_rel M a' p f (BecomeFollower env t n) /\ a_nodes a' !! p = Some (Participant (N.max (current_term n) t) f).
Proof.
  intros Hw Hn. destruct (decide (t <= current_term n)%N) as [Hle|Hgt].
  - exists a. split_and!; [by apply reaches_refl|by eapply quiet_rel; [apply BecomeFollower_same|]|].
    rewrite N.max_l by done. apply Hn.
  - destruct Hn as (Hl & Hr & Ht). exists (with_node p (Participant t f) a). unfold BecomeFollower.
    destruct (N.ltb_spec (current_term n) t); [|lia]. split_and!.
    + apply reaches_once; [|done|done]. apply (raft_term M p a (Participant (current_term n) f)); [apply Hl|cbn; lia].
    + split_and!; [|by split|by eapply tracked_frame].
      eapply (log_rel_view M _ p f (SetState t None n)); [done|]. apply log_rel_term; [lia|done].
    + cbn. rewrite lookup_insert_eq. do 2 f_equal. lia.
Qed.

Lemma hear_leader_rel a p f n env t leader : leads_wf a -> (current_term n <= t)%N -> node_rel M a p f n ->
  exists a', reaches M p a a' /\ node_rel M a' p f (hear_leader env t leader n).
Proof.
  intros Hw Ht Hn. unfold hear_leader. case_match.
  - destruct (BecomeFollower_rel a p f n env t Hw Hn) as (a' & Hr & Hn' & _). exists a'. split; [done|].
    eapply quiet_rel; [|exact Hn']. by apply view_quiet.
  - exists a. split; [by apply reaches_refl|]. eapply quiet_rel; [|exact Hn]. by apply view_quiet.
Qed.
End terms.

(** ** Applying and committing *)

Section apply.
Context {SM : Type} `{StateMachine SM}.
Context (M : gset N).
Implicit Types (n m : RaftNode SM) (a : raft) (f L C : full_log) (p q t : N).

(** What the state machine is, and how far it is. *)
Definition machine n : SM * LogIndex := (sm_ n, last_applied_ n).

(** Between [n] and [n'] the callback has returned on each of the entries of the log [f] from
    where [n] was to where [n'] is, in order, and nothing else has changed the state machine. *)
Definition advances f n n' : Prop :=
  (last_applied_ n <= last_applied_ n')%N /\
  let l := drop (N.to_nat (last_applied_ n)) (take (N.to_nat (last_applied_ n')) f) in
  entries_return (sm_ n, ∅) l /\ sm_ n' = foldl exec (sm_ n) l.

Lemma advances_same f n n' : machine n' = machine n -> advances f n n'.
Proof.
  unfold machine, advances. intros [= -> ->]. split; [done|]. rewrite drop_ge; [done|]. rewrite length_take. lia.
Qed.

Lemma advances_views f n1 n2 m1 m2 : machine m1 = machine n1 -> machine m2 = machine n2 -> advances f n1 n2 -> advances f m1 m2.
Proof. unfold machine, advances. by intros [= -> ->] [= -> ->]. Qed.

(** The entries of a node are those of the full log it stands for. *)
Lemma view_entries_between l f i k : compacted l f -> (snapshot_index l <= i)%N -> (i + N.of_nat k <= N.of_nat (length f))%N ->
  entries_between (i + 1) (i + N.of_nat k) l = drop (N.to_nat i) (take (N.to_nat (i + N.of_nat k)) f).
Proof.
  intros Hc. revert i. induction k as [|k IH]; intros i Hs Hl.
  - rewrite N.add_0_r, drop_ge by (rewrite length_take; lia). unfold entries_between, indices. by replace (N.to_nat _) with 0%nat by lia.
  - destruct (lookup_lt_is_Some_2 f (N.to_nat i)) as [e He]; [lia|].
    rewrite (entries_between_cons _ _ _ e); [|lia|rewrite (view_At _ f) by (done || lia); by replace (N.to_nat _) with (N.to_nat i) by lia].
    rewrite (drop_S _ e (N.to_nat i)) by (rewrite lookup_take_lt by lia; done). f_equal.
    specialize (IH (i + 1)%N ltac:(lia) ltac:(lia)). rewrite (N2Nat.inj_add i 1), Nat.add_1_r in IH.
    by replace (i + 1 + N.of_nat k)%N with (i + N.of_nat (S k))%N in IH by lia.
Qed.

(** Without membership changes in the log the members are those of the base. *)
Lemma scan_plain n : (forall i e, At i (log_ n) = Some e -> plain e) ->
  scan_log n = (Ret tt, {| effective := MembershipState.base_peers (membership_state_ n);
    effective_self_member := MembershipState.self_is_member (membership_state_ n); pending_removal := 0 |}).
Proof.
  intros Hp. unfold scan_log. induction (indices _ _) as [|i l IH]; [done|]. cbn [st_for].
  assert (Hi : forall s, scan_index n i s = (Ret tt, s)).
  { intros s. unfold scan_index. destruct (At i (log_ n)) as [e|] eqn:He; [|done]. by rewrite (Hp i e He). }
  unfold mbind, ST_bind. by rewrite Hi.
Qed.

Lemma refresh_plain n : (forall i e, At i (log_ n) = Some e -> plain e) ->
  peers_ (RefreshMembership n).2 = MembershipState.base_peers (membership_state_ n).
Proof.
  intros Hp. unfold RefreshMembership. rewrite run_get, (scan_plain n Hp), run_modify, run_lift_ret, run_modify.
  cbn [snd st_modify]. apply adopt_peers_spec.
Qed.

Lemma refresh_returns n : (forall i e, At i (log_ n) = Some e -> plain e) -> (RefreshMembership n).1 = Ret tt.
Proof. intros Hp. unfold RefreshMembership. by rewrite run_get, (scan_plain n Hp), run_modify, run_lift_ret, run_modify. Qed.

(** The contract of the apply callback: it returns, an error if need be. *)
Definition callbacks_return : Prop :=
  forall i cmd (s : SM), exists error s', apply_callback i cmd s = (Ret error, s').

Lemma entries_return_all (l : list LogEntry) (s : SM * gmap N bytes) : callbacks_return -> entries_return s l.
Proof. intros Hcb. revert s. induction l as [|e l IH]; intros s; [done|]. split; [|apply IH]. intros _. apply Hcb. Qed.

Lemma plain_decodes e : plain e -> decodes e.
Proof. intros He. by exists None. Qed.

Lemma log_rel_plain a p f n i e : log_wf f -> log_rel M a p f n -> At i (log_ n) = Some e -> plain e.
Proof.
  intros (_ & Hp & _) Hl He. destruct (decide (i <= snapshot_index (log_ n))%N); [by rewrite At_below in He|].
  rewrite (view_At _ f) in He by (apply Hl || lia). rewrite Forall_lookup in Hp. by eapply Hp.
Qed.

Lemma loop_rel a p f n n' : log_rel M a p f n -> applied_to n n' -> (last_applied_ n <= last_applied_ n' <= commit_index_ n)%N ->
  log_rel M a p f n'.
Proof.
  intros [H1 H2 H3 H4 H5 H6 H7 H8 H9] [Ef _ El Efile] Hla. unfold apply_frame in Ef.
  assert (Ei : id_ n' = id_ n) by congruence. assert (Es : state_ n' = state_ n) by congruence.
  assert (Ec : commit_index_ n' = commit_index_ n) by congruence.
  split; rewrite ?Ei, ?Ec, ?El; unfold current_term; rewrite ?Es; try done; [by apply compacted_applied|cbn; lia|lia|].
  left. rewrite Efile, El. done.
Qed.

Lemma compact_rel a p f n : log_wf f -> log_rel M a p f n ->
  (compact_applied n).1 = Ret tt /\ log_rel M a p f (compact_applied n).2 /\ machine (compact_applied n).2 = machine n.
Proof.
  intros Hwf Hl. assert (Hwf' := Hwf). destruct Hwf' as (_ & _ & Hlen). assert (Hl' := Hl).
  destruct Hl' as [H1 H2 H3 H4 H5 H6 H7 H8 H9].
  assert (Hb : (last_applied_ n < two64)%N) by lia. pose proof (view_LastIndex _ _ H3) as HLast.
  destruct (compact_applied_keeps n) as (n' & En & Esm & Ela & Eai & _ & _ & Hfile);
    [by eapply compacted_ok|done|done|lia|intros i e _ He; by eapply plain_decodes, log_rel_plain|].
  pose proof (compact_applied_run n H6 Hb) as Hrun. pose proof (compact_applied_frame n) as Ef. rewrite En in *. cbn [fst snd] in *.
  split; [done|]. destruct Hrun as [->|[Hlt Hrun]]; [done|]. destruct (fold_base n) as [r b].
  destruct Hrun as (_ & Elog & _ & _ & _). unfold apply_frame in Ef.
  assert (Ei : id_ n' = id_ n) by congruence. assert (Es : state_ n' = state_ n) by congruence.
  assert (Ec : commit_index_ n' = commit_index_ n) by congruence.
  rewrite (view_TermAt _ _ H3) in Elog by lia.
  assert (Hsnap : snapshot_index (log_ n') = last_applied_ n)
    by (rewrite Elog; unfold CompactTo; by destruct (N.leb_spec (last_applied_ n) (snapshot_index (log_ n))); [lia|]).
  split; [|unfold machine; by rewrite Esm, Ela].
  split; rewrite ?Ei, ?Ec, ?Ela, ?Hsnap; unfold current_term; rewrite ?Es; try done; [|by rewrite Eai|].
  - rewrite Elog. apply view_CompactTo; [done|lia].
  - left. apply Hfile. destruct H9 as [?|[_ E]]; [done|]. rewrite E in *. cbn in HLast, Hlt. lia.
Qed.

Lemma apply_frame_quiet n n' : apply_frame n' = apply_frame n -> relaxes n n' /\ keeps_tracked n n'.
Proof.
  intros E. unfold apply_frame in E. split.
  - apply view_relaxes. unfold role_view. congruence.
  - apply demotes_tracked. split_and!; congruence.
Qed.

Lemma ApplyCommitted_rel a p f n : log_wf f -> node_rel M a p f n -> (ApplyCommitted n).1 = Ret tt ->
  node_rel M a p f (ApplyCommitted n).2 /\ advances f n (ApplyCommitted n).2.
Proof.
  intros Hwf (Hl & Hr & Ht) Hret. destruct (apply_frame_quiet _ _ (ApplyCommitted_frame n)) as [Hrel Hk].
  cut (log_rel M a p f (ApplyCommitted n).2 /\ advances f n (ApplyCommitted n).2).
  { intros [Hl' Ha]. split; [|done]. split_and!; [done|by eapply role_rel_relaxes|by apply Hk]. }
  clear Hrel Hk. revert Hret. unfold ApplyCommitted. rewrite run_get. set (k := N.to_nat (commit_index_ n - last_applied_ n)).
  intros ([] & Hret & _ & _)%bind_returns.
  assert (Hl' := Hl). destruct Hl' as [H1 H2 H3 H4 H5 H6 H7 H8 H9]. destruct Hwf as (W1 & W2 & W3).
  pose proof (view_LastIndex _ _ H3) as HLast.
  assert (Hhas : forall i, (last_applied_ n < i <= last_applied_ n + N.of_nat k)%N -> exists e, At i (log_ n) = Some e /\ decodes e).
  { intros i Hi. destruct (log_has i (log_ n)) as [e He]; [by eapply compacted_ok|lia|]. exists e. split; [done|].
    by eapply plain_decodes, log_rel_plain. }
  assert (Hes := apply_loop_returned n k 0 Hret ltac:(lia) Hhas).
  destruct (apply_loop_run n k 0 Hes) as (n1 & E1 & A1 & _ & La & Es); [lia|done|].
  rewrite (view_entries_between _ f) in Hes, Es by (done || lia). rewrite <- La in Hes, Es.
  rewrite (run_bind _ _ _ _ _ E1). destruct (compact_rel a p f n1) as (_ & Hc & Hm); [done|..].
  { destruct A1 as [->|A1]; [done|]. eapply loop_rel; [done..|]. unfold k in La. lia. }
  split; [done|]. apply (advances_views f n n1); [done..|]. split; [lia|]. cbv zeta. split.
  - by apply (entries_return_errors (sm_ n, apply_errors_ n)).
  - change (sm_ n1) with (sm_ n1, apply_errors_ n1).1. by rewrite Es, foldl_exec.
Qed.

Lemma ApplyCommitted_returns a p f n : callbacks_return -> log_wf f -> node_rel M a p f n -> (ApplyCommitted n).1 = Ret tt.
Proof.
  intros Hcb Hwf (Hl & _). unfold ApplyCommitted. rewrite run_get. set (k := N.to_nat (commit_index_ n - last_applied_ n)).
  assert (Hl' := Hl). destruct Hl' as [H1 H2 H3 H4 H5 H6 H7 H8 H9]. assert (Hwf' := Hwf). destruct Hwf' as (W1 & W2 & W3).
  pose proof (view_LastIndex _ _ H3) as HLast.
  destruct (apply_loop_run n k 0) as (n1 & E1 & A1 & _ & La & _); [by apply entries_return_all|lia| |].
  { intros i Hi. destruct (log_has i (log_ n)) as [e He]; [by eapply compacted_ok|lia|]. exists e. split; [done|].
    by eapply plain_decodes, log_rel_plain. }
  rewrite (run_bind _ _ _ _ _ E1). apply (compact_rel a p f n1 Hwf).
  destruct A1 as [->|A1]; [done|]. eapply loop_rel; [done..|]. unfold k in La. lia.
Qed.

End apply.

Section commit.
Context {SM : Type} `{StateMachine SM}.
Context (M : gset N).
Implicit Types (n m : RaftNode SM) (a : raft) (f L C : full_log) (p q t : N).

(** Acknowledging changes nothing but what is acknowledged. *)
Lemma node_rel_ack a p f n q t j : sound M a -> node_rel M a p f n -> rtc (raft_step M p) a (with_ack q t j a) ->
  node_rel M (with_ack q t j a) p f n.
Proof.
  intros Hs ([H1 H2 H3 H4 H5 H6 H7 H8 H9] & [R1 R2] & Ht) Hst. split_and!; [|split|done].
  - split; try done. by eapply settled_steps.
  - intros Hr. destruct (R1 Hr) as [Hf Hm]. split; [exact Hf|]. intros r i Hi. destruct (Hm r i Hi) as [?|(j' & Hj & Ha)]; [by left|right].
    exists j'. split; [done|]. cbn. set_solver.
  - exact R2.
Qed.

(** The node acknowledges a prefix of its leader's log that it has. *)
Lemma acknowledge a p f n q L j : sound M a -> leads_wf a -> node_rel M a p f n -> a_lead a !! current_term n = Some (q, L) ->
  (j <= length L)%nat -> take j L `prefix_of` f ->
  reaches M p a (with_ack p (current_term n) j a) /\ node_rel M (with_ack p (current_term n) j a) p f n.
Proof.
  intros Hs Hw Hn HL Hj Hp. assert (Hr : reaches M p a (with_ack p (current_term n) j a)).
  { apply reaches_once; [|done|done]. apply (raft_ack M p a (Participant (current_term n) f) q L); [apply Hn|done..]. }
  split; [done|]. apply node_rel_ack; [done|done|apply Hr].
Qed.

(** The members whose match index has reached [i]. *)
Definition holders (i : LogIndex) n : gset N := dom (filter (fun x : N * N => (i <= x.2)%N) (match_index_ n)).

Lemma replicas_match i (mm : gmap N N) : replicas i (map_entries mm).*2 = size (filter (fun x : N * N => (i <= x.2)%N) mm).
Proof.
  rewrite (replicas_perm i _ _ (fmap_Permutation snd _ _ (map_entries_perm mm))).
  induction mm as [|k x mm Hk IH] using map_ind; [by rewrite map_to_list_empty, map_filter_empty, map_size_empty|].
  rewrite (replicas_perm i _ _ (fmap_Permutation snd _ _ (map_to_list_insert mm k x Hk))). unfold replicas in *. rewrite map_filter_insert.
  rewrite fmap_cons, filter_cons. cbn [snd]. destruct (decide (i <= x)%N); cbn [snd].
  - rewrite map_size_insert_None by (by rewrite map_lookup_filter, Hk). cbn. by rewrite IH.
  - rewrite delete_id by done. exact IH.
Qed.

Lemma majority_quorum n i : tracked n -> role_ n = kLeader -> id_ n ∈ M -> dom (peers_ n) = M ∖ {[id_ n]} ->
  (length (match_indices n) < 2 * replicas i (match_indices n))%nat -> quorum M ({[id_ n]} ∪ holders i n).
Proof.
  intros Ht Hr Hid Hp. rewrite (tracked_count n Ht Hr), <- (agreed_size M (id_ n) (peers_ n) Hid Hp).
  assert (Hsub : holders i n ⊆ M ∖ {[id_ n]}).
  { rewrite <- Hp. etrans; [apply dom_filter_subseteq|apply Ht]. }
  intros Hm. split; [set_solver|]. rewrite size_union, size_singleton by set_solver. unfold holders. rewrite size_dom.
  assert (Hc : (replicas i (match_indices n) <= 1 + replicas i (map_entries (match_index_ n)).*2)%nat).
  { unfold match_indices, replicas. rewrite filter_cons. case_decide; cbn; lia. }
  rewrite replicas_match in Hc. lia.
Qed.

(** The commit rule commits. *)
Lemma majority_committed a p f n : sound M a -> leads_wf a -> node_rel M a p f n ->
  role_ n = kLeader -> id_ n ∈ M -> dom (peers_ n) = M ∖ {[id_ n]} ->
  (commit_index_ n < majority_index n)%N -> TermAt (majority_index n) (log_ n) = current_term n ->
  exists a', reaches M p a a' /\ node_rel M a' p f (set_commit_index (majority_index n) n).
Proof.
  intros Hs Hw Hn Hrole HM Hp Hlt Ht. set (i := majority_index n) in *. assert (Hn' := Hn). destruct Hn' as (Hl & Hr & Htr).
  destruct (rr_leader _ _ Hr Hrole) as [(L & HL & _) Hm]. assert (L = f) as ->.
  { symmetry. apply (s_owner M a Hs p (Participant (current_term n) f)); [apply Hl|cbn; by rewrite <- (lr_id _ _ _ _ _ Hl)]. }
  destruct (Hw _ _ _ HL) as [Hnz Hwf]. pose proof (view_LastIndex _ _ (lr_log _ _ _ _ _ Hl)) as HLast.
  destruct (acknowledge a p f n (id_ n) f (length f) Hs Hw Hn HL) as [Hre Hn1]; [done|by rewrite take_ge|].
  set (a1 := with_ack p (current_term n) (length f) a) in *. destruct Hl as [H1 H2 H3 H4 H5 H6 H7 H8 H9].
  rewrite (view_TermAt _ _ H3) in Ht by lia. unfold term_at in Ht. rewrite decide_False in Ht by lia.
  destruct (f !! N.to_nat (i - 1)) as [e|] eqn:He; [|congruence]. assert (Hi := lookup_lt_Some _ _ _ He).
  assert (Hc : committed M a1 (current_term n) (take (N.to_nat i) f)).
  { exists (take (N.to_nat i) f). split; [|done]. exists (id_ n), f, (N.to_nat (i - 1)), e, ({[id_ n]} ∪ holders i n).
    replace (S (N.to_nat (i - 1))) with (N.to_nat i) by lia.
    split_and!; [done|done|done|done|apply majority_quorum; try done; apply (middle_majority _ _ (majority_index_middle n))|].
    intros q [->%elem_of_singleton|Hq]%elem_of_union.
    - exists (length f). split; [lia|]. cbn. rewrite H1. set_solver.
    - unfold holders in Hq. apply elem_of_dom in Hq as [j Hj]. apply map_lookup_filter_Some in Hj as [Hj Hij]. cbn in Hij.
      destruct (Hm q j Hj) as [?|(j' & Hj' & Ha)]; [lia|]. exists j'. split; [lia|]. cbn. set_solver. }
  assert (Hif : (i <= N.of_nat (length f))%N) by lia. assert (Hla : (last_applied_ n <= i)%N) by lia.
  exists a1. split; [done|]. destruct Hn1 as ([] & [R1 R2] & T1). split_and!; [|by split|by eapply tracked_frame].
  split; try done. right. exists (current_term n). by split; [apply N.le_refl|].
Qed.

Lemma RefreshMembership_machine : keeps (@machine SM) RefreshMembership.
Proof. intros n. destruct (refresh_fields n) as (E1 & _ & E2 & _). unfold machine. congruence. Qed.

(** A computation that the protocol does not see and that leaves the state machine alone. *)
Definition idle n n' : Prop := quiet n n' /\ machine n' = machine n.

#[export] Instance idle_preorder : PreOrder idle.
Proof. split; [by split|]. intros n1 n2 n3 [Q1 E1] [Q2 E2]. split; [by etrans|congruence]. Qed.

Lemma RefreshMembership_idle : moves idle RefreshMembership.
Proof. split; [apply RefreshMembership_quiet|apply RefreshMembership_machine]. Qed.

(** What a leader does when it has applied: it may step down. *)
Lemma resign_idle : moves idle
  (n ← st_get;
   if (negb (pending_self_removal_index_ n =? 0) && (pending_self_removal_index_ n <=? commit_index_ n))%N then
     _ ← RefreshMembership;
     n' ← st_get;
     if bool_decide (role_ n = kLeader) && negb (self_is_member_ n') then st_modify (set_role kFollower) else mret tt
   else mret tt).
Proof.
  apply moves_get. intros n. case_match; [|done]. apply (moves_bind idle); [apply RefreshMembership_idle|]. intros _.
  apply moves_get. intros n'. case_match; [|done]. split; [|done]. split_and!; [done| |by apply demotes_tracked].
  split_and!; [done|done|by left|by right|by cbn].
Qed.

Lemma MaybeAdvanceCommitIndex_rel a p f n : sound M a -> leads_wf a -> log_wf f -> node_rel M a p f n ->
  role_ n = kLeader -> id_ n ∈ M -> dom (peers_ n) = M ∖ {[id_ n]} -> (MaybeAdvanceCommitIndex n).1 = Ret tt ->
  exists a', reaches M p a a' /\ node_rel M a' p f (MaybeAdvanceCommitIndex n).2 /\ advances f n (MaybeAdvanceCommitIndex n).2.
Proof.
  intros Hs Hw Hwf Hn Hrole HM Hp. unfold MaybeAdvanceCommitIndex. rewrite run_get. cbv zeta.
  destruct ((commit_index_ n <? majority_index n) && (TermAt (majority_index n) (log_ n) =? current_term n))%N eqn:E;
    [|exists a; by split_and!; [apply reaches_refl| |apply advances_same]].
  apply andb_true_iff in E as [Hlt%N.ltb_lt Ht%N.eqb_eq].
  destruct (majority_committed a p f n Hs Hw Hn Hrole HM Hp Hlt Ht) as (a' & Hr & Hn').
  rewrite run_modify. intros ([] & Hret & _ & ->)%bind_returns. exists a'. split; [done|].
  destruct (ApplyCommitted_rel M a' p f _ Hwf Hn' Hret) as [Hn1 Ha]. clear Hret Hn'.
  destruct (resign_idle (ApplyCommitted (set_commit_index (majority_index n) n)).2) as [Hq Hm]. split; [by eapply quiet_rel|by eapply advances_views; [| |exact Ha]].
Qed.

Lemma MaybeAdvanceCommitIndex_returns a p f n : callbacks_return (SM := SM) -> sound M a -> leads_wf a -> log_wf f -> node_rel M a p f n ->
  role_ n = kLeader -> id_ n ∈ M -> dom (peers_ n) = M ∖ {[id_ n]} -> (MaybeAdvanceCommitIndex n).1 = Ret tt.
Proof.
  intros Hcb Hs Hw Hwf Hn Hrole HM Hp. unfold MaybeAdvanceCommitIndex. rewrite run_get. cbv zeta.
  destruct ((commit_index_ n <? majority_index n) && (TermAt (majority_index n) (log_ n) =? current_term n))%N eqn:E; [|done].
  apply andb_true_iff in E as [Hlt%N.ltb_lt Ht%N.eqb_eq].
  destruct (majority_committed a p f n Hs Hw Hn Hrole HM Hp Hlt Ht) as (a' & Hr & Hn').
  rewrite run_modify. set (n1 := set_commit_index (majority_index n) n) in *. clearbody n1.
  pose proof (ApplyCommitted_returns M a' p f n1 Hcb Hwf Hn') as Hret. destruct (ApplyCommitted_rel M a' p f n1 Hwf Hn' Hret) as [(Hl & _) _].
  unfold mbind at 1, ST_bind at 1. destruct (ApplyCommitted n1) as [r n2]. cbn [fst snd] in *. subst r. rewrite run_get.
  destruct (_ && _); [|done]. pose proof (refresh_returns n2 (fun i e => log_rel_plain M a' p f n2 i e Hwf Hl)) as Hret.
  unfold mbind, ST_bind. destruct (RefreshMembership n2) as [r n3]. cbn [fst] in Hret. subst r. cbn. by destruct (_ && _).
Qed.
End commit.

(** ** What the leader sends *)

Section messages.
Context (M : gset N).
Implicit Types (a : raft) (f L C : full_log) (i p q t : N).

(** The entries of the request are those of the leader of its term, and what it says is
    committed is. *)
Definition append_valid a i (req : AppendEntriesRequest) : Prop :=
  ae_leader_id req = i /\ (ae_term req < two64)%N /\ exists L, a_lead a !! ae_term req = Some (i, L) /\
    (N.to_nat (ae_prev_log_index req) + length (ae_entries req) <= length L)%nat /\
    ae_entries req = take (length (ae_entries req)) (drop (N.to_nat (ae_prev_log_index req)) L) /\
    ae_prev_log_term req = term_at L (ae_prev_log_index req) /\
    (N.to_nat (ae_leader_commit req) <= N.to_nat (ae_prev_log_index req) + length (ae_entries req))%nat /\
    settled M a (ae_term req) (take (N.to_nat (ae_leader_commit req)) L).

(** The snapshot is what the leader's log says up to a committed index. *)
Definition install_valid a i (req : InstallSnapshotRequest) : Prop :=
  is_leader_id req = i /\ (is_term req < two64)%N /\ exists L, a_lead a !! is_term req = Some (i, L) /\
    (N.to_nat (is_last_included_index req) <= length L)%nat /\
    is_last_included_term req = term_at L (is_last_included_index req) /\
    settled M a (is_term req) (take (N.to_nat (is_last_included_index req)) L).

Lemma take_grown L L' k : L `prefix_of` L' -> (k <= length L)%nat -> take k L' = take k L.
Proof. intros Hp Hk. symmetry. by apply prefix_take_same. Qed.

Lemma append_valid_later a a' p i req : sound M a -> rtc (raft_step M p) a a' -> append_valid a i req -> append_valid a' i req.
Proof.
  intros Hs Hr (Hi & Ht & L & HL & Hlen & He & Hp & Hc & Hset). destruct (steps_sound M p a a' Hs Hr) as (_ & _ & _ & _ & Hl).
  destruct (Hl _ _ _ HL) as (L' & HL' & HLL). split; [done|split; [done|]]. exists L'.
  split; [done|]. split; [apply prefix_length in HLL; lia|]. split_and!.
  - rewrite He at 1. rewrite !take_drop_commute. f_equal. symmetry. by rewrite (take_grown L L') by (done || lia).
  - rewrite Hp. apply term_at_take; [done|lia].
  - done.
  - rewrite (take_grown L L') by (done || lia). by eapply settled_steps.
Qed.

Lemma install_valid_later a a' p i req : sound M a -> rtc (raft_step M p) a a' -> install_valid a i req -> install_valid a' i req.
Proof.
  intros Hs Hr (Hi & Ht & L & HL & Hlen & Hp & Hset). destruct (steps_sound M p a a' Hs Hr) as (_ & _ & _ & _ & Hl).
  destruct (Hl _ _ _ HL) as (L' & HL' & HLL). split; [done|split; [done|]]. exists L'.
  split; [done|]. split; [apply prefix_length in HLL; lia|]. split.
  - rewrite Hp. apply term_at_take; [done|lia].
  - rewrite (take_grown L L') by done. by eapply settled_steps.
Qed.
End messages.

(** ** The follower's side *)

Section follower.
Context {SM : Type} `{StateMachine SM}.
Context (M : gset N).
Implicit Types (n m : RaftNode SM) (a : raft) (f L C : full_log) (p q t : N).

Lemma SaveLog_saved n : log_saved (SaveLog n).
Proof.
  left. unfold SaveLog, emit, RaftLog.Save. cbn [set_fs fs_]. rewrite fs_run_files, replace_file_run. apply lookup_insert_eq.
Qed.

Lemma AppendEntriesFrom_unsaved prev t new l : log_ok l -> (prev = 0 \/ t <> 0)%N -> (prev + 1 + N.of_nat (length new) < two64)%N ->
  (AppendEntriesFrom prev t new l).1.2 = false -> (AppendEntriesFrom prev t new l).2 = l.
Proof.
  intros Hok Ht Hb. destruct ((AppendEntriesFrom prev t new l).1.1) eqn:E.
  - destruct (AppendEntriesFrom_accepted prev t new l Hok Ht Hb E) as (es' & ch & -> & _ & Hch & _). exact Hch.
  - destruct (AppendEntriesFrom_rejected prev t new l E) as (_ & _ & ->). done.
Qed.

(** The node adopts part of the log of its term's leader. *)
Lemma log_rel_accept a p f n q L k l' :
  sound M a -> log_rel M a p f n -> a_lead a !! current_term n = Some (q, L) ->
  compacted l' (adopt (take k L) f) -> snapshot_index l' = snapshot_index (log_ n) -> applied_index l' = applied_index (log_ n) ->
  log_rel M (with_node p (Participant (current_term n) (adopt (take k L) f)) a) p (adopt (take k L) f) (SaveLog (set_log l' n)).
Proof.
  intros Hs [H1 H2 H3 H4 H5 H6 H7 H8 H9] HL Hc Es Ea.
  assert (Hk : take (N.to_nat (commit_index_ n)) f `prefix_of` adopt (take k L) f).
  { eapply settled_kept; [done|done|apply prefix_take|]. left. exists (current_term n), q, L. split_and!; [done|done|apply prefix_take]. }
  apply prefix_take_self in Hk as [Hk1 Hk2]; [|lia].
  split; cbn [SaveLog emit set_fs set_log id_ log_ commit_index_ last_applied_]; rewrite ?Es, ?Ea; try done.
  - cbn. by rewrite lookup_insert_eq.
  - lia.
  - rewrite Hk2. exact H5.
  - apply SaveLog_saved.
Qed.

Lemma AppendToLog_rel a p f n q L prev new :
  sound M a -> leads_wf a -> node_rel M a p f n -> a_lead a !! current_term n = Some (q, L) -> q <> p ->
  (N.to_nat prev + length new <= length L)%nat -> new = take (length new) (drop (N.to_nat prev) L) ->
  exists ok n' a' f', AppendToLog prev (term_at L prev) new n = (Ret ok, n') /\ reaches M p a a' /\ node_rel M a' p f' n' /\
    current_term n' = current_term n /\ a_lead a' = a_lead a /\ (ok = true -> take (N.to_nat prev + length new) L `prefix_of` f').
Proof.
  intros Hs Hw Hn HL Hq Hlen Hnew. assert (Hn' := Hn). destruct Hn' as (Hl & Hr & Ht). destruct (Hw _ _ _ HL) as [Hnz (W1 & W2 & W3)].
  destruct (s_node M a Hs p _ (lr_node _ _ _ _ _ Hl)) as [Hma _]. cbn [a_log] in Hma.
  assert (Hag : agree f L) by (apply (matching_agree a); [done|]; apply (s_lead M a Hs _ _ _ HL)).
  assert (Hsn : take (N.to_nat (snapshot_index (log_ n))) f `prefix_of` L).
  { eapply settled_in_lead; [done| |apply N.le_refl|exact HL]. eapply settled_prefix; [|apply Hl].
    apply take_prefix_mono. destruct Hl. lia. }
  assert (Hnz' : Forall (fun e => term e <> 0%N) L) by (eapply Forall_impl; [exact W2|by intros e [? _]]).
  pose proof (view_AppendEntriesFrom (log_ n) f L prev new (lr_log _ _ _ _ _ Hl) Hsn Hag W1 Hnz' ltac:(lia) Hlen Hnew) as Hv.
  assert (Hun := AppendEntriesFrom_unsaved prev (term_at L prev) new (log_ n) (compacted_ok _ _ (lr_log _ _ _ _ _ Hl))).
  unfold AppendToLog. rewrite run_get. destruct (AppendEntriesFrom prev (term_at L prev) new (log_ n)) as [[ok saved] l'].
  cbn [fst snd] in *. destruct Hv as (Es & Ea & Hv). rewrite run_modify. destruct ok.
  2:{ subst l'. assert (Hset : quiet n (set_log (log_ n) n)) by by apply view_quiet.
      exists false, (if saved then SaveLog (set_log (log_ n) n) else set_log (log_ n) n), a, f.
      split_and!; [by destruct saved|by apply reaches_refl| |by destruct saved|done|done].
      assert (Hq' : log_rel M a p f (SaveLog (set_log (log_ n) n))).
      { destruct Hl. split; try done. apply SaveLog_saved. }
      destruct saved; [|by eapply quiet_rel]. split_and!; [exact Hq'|by destruct Hr; split|by eapply tracked_frame]. }
  set (f' := adopt (take (N.to_nat prev + length new) L) f) in *.
  exists true, (if saved then SaveLog (set_log l' n) else set_log l' n), (with_node p (Participant (current_term n) f') a), f'.
  assert (Hacc : log_rel M (with_node p (Participant (current_term n) f') a) p f' (SaveLog (set_log l' n)))
    by (by eapply log_rel_accept).
  split_and!; [by destruct saved| | |by destruct saved|done|intros _; apply adopt_has].
  - apply reaches_once; [|done|done]. apply (raft_accept M p a (Participant (current_term n) f) q L); [apply Hl|done..].
  - split_and!; [|by destruct saved; destruct Hr; split|by destruct saved; eapply tracked_frame].
    destruct saved; [exact Hacc|]. assert (Elog : l' = log_ n).
    { apply Hun; [|lia|done]. destruct (decide (prev = 0)%N) as [|Hne]; [by left|right].
      unfold term_at. rewrite decide_False by done. destruct (lookup_lt_is_Some_2 L (N.to_nat (prev - 1))) as [e He]; [lia|].
      rewrite He. rewrite Forall_lookup in Hnz'. by eapply Hnz'. }
    destruct Hacc. split; try done. cbn. rewrite Elog. apply Hl.
Qed.

(** The commit index of the leader, when the log is the leader's up to it. *)
Lemma follow_commit a p f n c : node_rel M a p f n -> settled M a (current_term n) (take (N.to_nat c) f) ->
  (c <= N.of_nat (length f))%N -> (commit_index_ n < c)%N ->
  node_rel M a p f (set_commit_index (N.min c (LastIndex (log_ n))) n).
Proof.
  intros (Hl & Hr & Ht) Hc Hle Hlt. rewrite (view_LastIndex _ _ (lr_log _ _ _ _ _ Hl)), N.min_l by done.
  split_and!; [|by destruct Hr; split|by eapply tracked_frame]. destruct Hl as [H1 H2 H3 H4 H5 H6 H7 H8 H9].
  assert (last_applied_ n <= c)%N by lia. by split.
Qed.

(** The rest of [HandleAppendEntries] once the entries are in the log. *)
Definition commit_up_to (req : AppendEntriesRequest) : ST (RaftNode SM) AppendEntriesResponse :=
  _ ← RefreshMembership;
  n ← st_get;
  _ ← (if (commit_index_ n <? ae_leader_commit req)%N then
         _ ← st_modify (set_commit_index (N.min (ae_leader_commit req) (LastIndex (log_ n))));
         ApplyCommitted
       else mret tt);
  n ← st_get;
  mret {| aer_term := current_term n; aer_success := true;
          aer_match_index := u64_add (ae_prev_log_index req) (N.of_nat (length (ae_entries req))) |}.

Section commit_up_to.
Context (a : raft) (p : N) (f : full_log) (n : RaftNode SM) (req : AppendEntriesRequest).
Context (Hwf : log_wf f) (Hn : node_rel M a p f n) (Hc : settled M a (current_term n) (take (N.to_nat (ae_leader_commit req)) f)).
Context (Hle : (ae_leader_commit req <= N.of_nat (length f))%N).

(** The node after the members have been looked up, and what it commits then. *)
Lemma commit_up_to_commits (n1 := (RefreshMembership n).2) : node_rel M a p f n1 /\ machine n1 = machine n /\
  ((commit_index_ n1 < ae_leader_commit req)%N ->
   node_rel M a p f (set_commit_index (N.min (ae_leader_commit req) (LastIndex (log_ n1))) n1)).
Proof.
  pose proof (RefreshMembership_idle n) as [Hq Hm]. fold n1 in Hq, Hm. assert (Hn1 := quiet_rel M a p f _ _ Hq Hn).
  split_and!; [done..|]. apply follow_commit; [done| |done].
  assert (Et : current_term n1 = current_term n) by apply Hq. by rewrite Et.
Qed.

Lemma append_accepted resp : (commit_up_to req n).1 = Ret resp ->
  aer_success resp = true /\ node_rel M a p f (commit_up_to req n).2 /\ advances f n (commit_up_to req n).2.
Proof.
  unfold commit_up_to. intros (_ & _ & Hret & ->)%bind_returns. revert Hret. destruct commit_up_to_commits as (Hn1 & Hm & Hn2).
  revert Hn1 Hm Hn2. generalize (RefreshMembership n).2. intros n1 Hn1 Hm Hn2. rewrite !run_get.
  intros ([] & Hret & Hresp & ->)%bind_returns. rewrite run_get in Hresp. injection Hresp as <-. split; [done|].
  cbn [st_get snd mret ST_ret]. revert Hret. destruct (N.ltb_spec (commit_index_ n1) (ae_leader_commit req)) as [Hlt|].
  - rewrite run_modify. intros Hret. apply (ApplyCommitted_rel M a p f) in Hret as [Hn3 Ha]; [|done|by apply Hn2].
    split; [exact Hn3|]. by eapply advances_views; [symmetry; exact Hm| |exact Ha].
  - intros _. split; [exact Hn1|by apply advances_same].
Qed.

Lemma append_accepted_returns : callbacks_return (SM := SM) -> exists resp, (commit_up_to req n).1 = Ret resp.
Proof.
  intros Hcb. unfold commit_up_to. destruct commit_up_to_commits as (_ & _ & Hn2). pose proof (refresh_returns n (fun i e => log_rel_plain M a p f n i e Hwf (proj1 Hn))) as Hret.
  revert Hret Hn2. unfold mbind at 1, ST_bind at 1. destruct (RefreshMembership n) as [r n1]. cbn [fst snd]. intros -> Hn2. rewrite run_get.
  destruct (N.ltb_spec (commit_index_ n1) (ae_leader_commit req)) as [Hlt|]; [|by eexists].
  pose proof (ApplyCommitted_returns M a p f _ Hcb Hwf (Hn2 Hlt)) as Hret. rewrite run_assoc, run_modify.
  unfold mbind, ST_bind. destruct (ApplyCommitted _) as [r n3]. cbn [fst] in Hret. subst r. by eexists.
Qed.
End commit_up_to.

Lemma AppendToLog_machine prev t new : keeps (@machine SM) (AppendToLog prev t new).
Proof.
  intros n. unfold AppendToLog. rewrite run_get. destruct (AppendEntriesFrom prev t new (log_ n)) as [[ok [|]] l]; reflexivity.
Qed.

(** The full log a node has is one the protocol allows. *)
Lemma node_wf a p f n : sound M a -> leads_wf a -> node_rel M a p f n -> matching a f /\ log_wf f.
Proof.
  intros Hs Hw (Hl & _). destruct (s_node M a Hs p _ (lr_node _ _ _ _ _ Hl)) as [Hm _]. split; [done|]. by eapply matching_wf.
Qed.

Lemma reaches_sound a a' p : sound M a -> reaches M p a a' -> sound M a'.
Proof. intros Hs Hr. by apply (steps_sound M p a a' Hs), Hr. Qed.

(** What a request of this term or a later one does to the log, and what may be committed then. *)
Lemma append_stage a p f n env i req :
  sound M a -> leads_wf a -> node_rel M a p f n -> append_valid M a i req -> i <> p -> (current_term n <= ae_term req)%N ->
  exists ok n2 a2 f2,
    AppendToLog (ae_prev_log_index req) (ae_prev_log_term req) (ae_entries req) (hear_leader env (ae_term req) (ae_leader_id req) n) = (Ret ok, n2) /\
    reaches M p a a2 /\ node_rel M a2 p f2 n2 /\ machine n2 = machine n /\ current_term n2 = ae_term req /\
    (ok = true -> (p, ae_term req, (N.to_nat (ae_prev_log_index req) + length (ae_entries req))%nat) ∈ a_acks a2 /\
       settled M a2 (current_term n2) (take (N.to_nat (ae_leader_commit req)) f2) /\ (ae_leader_commit req <= N.of_nat (length f2))%N).
Proof.
  intros Hs Hw Hn Hv Hne Hle. destruct (hear_leader_rel M a p f n env (ae_term req) (ae_leader_id req) Hw Hle Hn) as (a1 & R1 & Hn1).
  destruct (hear_leader_fields env (ae_term req) (ae_leader_id req) n Hle) as (Et & Es1 & _ & Ea1 & _).
  set (n1 := hear_leader env _ _ n) in *. assert (Em1 : machine n1 = machine n) by (unfold machine; congruence). clear Es1 Ea1. clearbody n1.
  pose proof (reaches_sound _ _ _ Hs R1) as Hs1.
  apply (append_valid_later M a a1 p i req Hs (re_steps _ _ _ _ R1)) in Hv. destruct Hv as (_ & _ & L & HL & Hlen & He & Hp & Hc & Hset).
  rewrite <- Et in HL. rewrite Hp.
  destruct (AppendToLog_rel a1 p f n1 i L _ _ Hs1 (re_wf _ _ _ _ R1) Hn1 HL Hne Hlen He) as (ok & n2 & a2 & f2 & E2 & R2 & Hn2 & Et2 & EL & Hok).
  assert (Em2 : machine n2 = machine n).
  { rewrite <- Em1. pose proof (AppendToLog_machine (ae_prev_log_index req) (term_at L (ae_prev_log_index req)) (ae_entries req) n1) as Em. by rewrite E2 in Em. }
  pose proof (reaches_sound _ _ _ Hs1 R2) as Hs2. pose proof (reaches_trans _ _ _ _ _ R1 R2) as R12. rewrite <- Et2 in Et. destruct ok.
  2:{ exists false, n2, a2, f2. by split_and!. }
  specialize (Hok eq_refl). rewrite <- EL, <- Et2 in HL.
  destruct (acknowledge M a2 p f2 n2 i L _ Hs2 (re_wf _ _ _ _ R2) Hn2 HL Hlen Hok) as [R3 Hn3].
  eexists true, n2, _, f2. split; [exact E2|]. split; [eapply reaches_trans; [exact R12|exact R3]|]. split; [exact Hn3|].
  split; [done|]. split; [done|]. intros _. split; [cbn; rewrite Et; set_solver|]. split.
  - eapply settled_steps; [exact Hs2|apply R3|]. rewrite Et.
    assert (Hcl : take (N.to_nat (ae_leader_commit req)) L `prefix_of` f2) by (etrans; [by apply take_prefix_mono|exact Hok]).
    apply prefix_take_self in Hcl as [_ Ec]; [|lia]. rewrite Ec. eapply settled_steps; [exact Hs1|apply R2|done].
  - apply prefix_length in Hok. rewrite length_take_le in Hok by done. lia.
Qed.

Lemma HandleAppendEntries_rel a p f n env i req :
  sound M a -> leads_wf a -> node_rel M a p f n -> append_valid M a i req -> i <> p ->
  forall resp, (HandleAppendEntries env req n).1 = Ret resp ->
  exists a' f', reaches M p a a' /\ node_rel M a' p f' (HandleAppendEntries env req n).2 /\
    advances f' n (HandleAppendEntries env req n).2 /\
    (aer_success resp = true -> (p, ae_term req, (N.to_nat (ae_prev_log_index req) + length (ae_entries req))%nat) ∈ a_acks a').
Proof.
  intros Hs Hw Hn Hv Hne resp. unfold HandleAppendEntries. rewrite run_get.
  destruct (N.ltb_spec (ae_term req) (current_term n)) as [|Hle].
  { intros [= <-]. exists a, f. by split_and!; [apply reaches_refl| |apply advances_same|]. }
  destruct (append_stage a p f n env i req Hs Hw Hn Hv Hne Hle) as (ok & n2 & a2 & f2 & E2 & R2 & Hn2 & Em2 & Et2 & Hok).
  rewrite run_modify, (run_bind _ _ _ _ _ E2), run_get. destruct ok; cbn [negb].
  2:{ intros [= <-]. exists a2, f2. by split_and!; [| |apply advances_same|]. }
  destruct (Hok eq_refl) as (Hack & Hset & Hlen). intros Hret.
  destruct (node_wf _ _ _ _ (reaches_sound _ _ _ Hs R2) (re_wf _ _ _ _ R2) Hn2) as [_ Hwf].
  apply (append_accepted a2 p f2 n2 req Hwf Hn2 Hset Hlen) in Hret as (_ & Hn3 & Ha). exists a2, f2.
  split_and!; [done|exact Hn3|by eapply advances_views; [symmetry; exact Em2| |exact Ha]|done].
Qed.

(** It returns, and it accepts if the previous entry is the leader's; a refusal leaves the log. *)
Lemma HandleAppendEntries_returns a p f n env i req : callbacks_return (SM := SM) ->
  sound M a -> leads_wf a -> node_rel M a p f n -> append_valid M a i req -> i <> p -> (current_term n <= ae_term req)%N ->
  exists resp, (HandleAppendEntries env req n).1 = Ret resp /\ current_term (HandleAppendEntries env req n).2 = ae_term req /\
    (aer_success resp = false -> (0 < ae_prev_log_index req)%N /\ TermAt (ae_prev_log_index req) (log_ n) <> ae_prev_log_term req /\
       log_ (HandleAppendEntries env req n).2 = log_ n).
Proof.
  intros Hcb Hs Hw Hn Hv Hne Hle. unfold HandleAppendEntries. rewrite run_get.
  destruct (N.ltb_spec (ae_term req) (current_term n)) as [|_]; [lia|].
  destruct (append_stage a p f n env i req Hs Hw Hn Hv Hne Hle) as (ok & n2 & a2 & f2 & E2 & R2 & Hn2 & _ & Et2 & Hok).
  rewrite run_modify, (run_bind _ _ _ _ _ E2), run_get. destruct ok; cbn [negb].
  - destruct (Hok eq_refl) as (_ & Hset & Hlen). destruct (node_wf _ _ _ _ (reaches_sound _ _ _ Hs R2) (re_wf _ _ _ _ R2) Hn2) as [_ Hwf].
    destruct (append_accepted_returns a2 p f2 n2 req Hwf Hn2 Hset Hlen Hcb) as [resp Hret]. exists resp. split; [exact Hret|].
    destruct (append_accepted a2 p f2 n2 req Hwf Hn2 Hset Hlen resp Hret) as (E & (Hl & _) & _). split; [|congruence].
    rewrite <- Et2. destruct Hn2 as (Hl2 & _). pose proof (lr_node _ _ _ _ _ Hl) as E1. rewrite (lr_node _ _ _ _ _ Hl2) in E1.
    by injection E1.
  - eexists. split; [done|]. split; [exact Et2|]. intros _. revert E2. unfold AppendToLog. rewrite run_get.
    destruct (hear_leader_fields env (ae_term req) (ae_leader_id req) n Hle) as (_ & _ & El & _). rewrite El.
    destruct (AppendEntriesFrom _ _ _ (log_ n)) as [[ok saved] l'] eqn:E. intros E2.
    assert (ok = false) as -> by (by destruct saved; injection E2).
    destruct (AppendEntriesFrom_rejected (ae_prev_log_index req) (ae_prev_log_term req) (ae_entries req) (log_ n)) as (H1 & H2 & H3);
      [by rewrite E|]. rewrite E in H3. injection H3 as -> ->. by injection E2 as <-.
Qed.
End follower.
