(* ===== verification/NodeSteps.v ===== *)
(** * Snapshots, proposals, responses, elections and restarts as steps of the protocol

    The critical sections of [src/raft/node.cpp] that [NodeLog] leaves, each with what it does to
    the participant a node stands for. *)

From Stdlib Require Import NArith Lia.
From stdpp Require Import fin_sets.
From S2P Require Export NodeLog.

(** ** Installing a snapshot *)

Section install.
Context {SM : Type} `{StateMachine SM}.
Context (M : gset N).
Implicit Types (n m : RaftNode SM) (a : raft) (f L C : full_log) (p q t i : N).

(** A snapshot that is not newer than the node's own is in its log. *)
Lemma old_snapshot a p f n t L lii : sound M a -> log_rel M a p f n -> settled M a t (take (N.to_nat lii) L) ->
  (lii <= snapshot_index (log_ n))%N -> (N.to_nat lii <= length L)%nat -> take (N.to_nat lii) L `prefix_of` f.
Proof.
  intros Hs [H1 H2 H3 H4 H5 H6 H7 H8 H9] Hset Hle Hlen. pose proof (co_within _ _ H3) as Hw.
  assert (Hc : settled M a (current_term n) (take (N.to_nat (snapshot_index (log_ n))) f)).
  { eapply settled_prefix; [|exact H5]. apply take_prefix_mono. lia. }
  destruct (settled_comparable M a _ _ _ _ Hs Hset Hc) as [Hp|Hp]; [etrans; [exact Hp|apply prefix_take]|].
  assert (E : take (N.to_nat lii) L = take (N.to_nat (snapshot_index (log_ n))) f).
  { symmetry. apply prefix_length_eq; [done|]. rewrite !length_take. lia. }
  rewrite E. apply prefix_take.
Qed.

Lemma BeginInstall_rel a p f n env i req :
  sound M a -> leads_wf a -> node_rel M a p f n -> install_valid M a i req ->
  exists a', reaches M p a a' /\ node_rel M a' p f (BeginInstall env req n).2 /\
    match (BeginInstall env req n).1 with
    | Some resp => (isr_term resp <= is_term req)%N -> (p, is_term req, N.to_nat (is_last_included_index req)) ∈ a_acks a'
    | None => (is_term req <= current_term (BeginInstall env req n).2)%N
    end.
Proof.
  intros Hs Hw Hn Hv. unfold BeginInstall. destruct (N.ltb_spec (is_term req) (current_term n)) as [Hlt|Hle].
  { exists a. split_and!; [by apply reaches_refl|done|]. cbn. lia. }
  destruct (hear_leader_rel M a p f n env (is_term req) (is_leader_id req) Hw Hle Hn) as (a1 & R1 & Hn1).
  destruct (hear_leader_fields env (is_term req) (is_leader_id req) n Hle) as (Et & _).
  set (n1 := hear_leader env _ _ n) in *. clearbody n1. pose proof (reaches_sound _ _ _ _ Hs R1) as Hs1.
  apply (install_valid_later M a a1 p i req Hs (re_steps _ _ _ _ R1)) in Hv. destruct Hv as (_ & _ & L & HL & Hlen & Hp & Hset).
  destruct (N.leb_spec (is_last_included_index req) (snapshot_index (log_ n1))) as [Hold|Hnew]; cbn [fst snd].
  - rewrite <- Et in HL. destruct (acknowledge M a1 p f n1 i L (N.to_nat (is_last_included_index req)) Hs1 (re_wf _ _ _ _ R1) Hn1 HL Hlen) as [R2 Hn2].
    { by eapply old_snapshot; [exact Hs1|apply Hn1|..]. }
    eexists. split; [eapply reaches_trans; [exact R1|exact R2]|]. split; [done|]. intros _. cbn. rewrite Et. set_solver.
  - exists a1. split_and!; [done|done|]. rewrite Et. lia.
Qed.

Lemma SetMembership_log peers member own n :
  files (fs_ (SetMembership peers member own n)) !! log_path n = files (fs_ n) !! log_path n.
Proof.
  destruct (log_membership_path n) as [H1 H2]. unfold SetMembership, MembershipState.Set_, emit.
  cbn [set_fs set_membership_state fs_]. rewrite fs_run_files. by rewrite replace_file_other.
Qed.

(** What the installation of a newer snapshot changes. *)
Lemma install_changes_fields lii lit membership n (m := install_changes lii lit membership n) :
  (snapshot_index (log_ n) < lii)%N ->
  (id_ m = id_ n /\ state_ m = state_ n /\ role_view m = role_view n /\ peers_ m = peers_ n) /\
  log_ m = (if (last_applied_ n <? lii)%N then SetAppliedIndex lii else id) (CompactTo lii lit (log_ n)).2 /\
  commit_index_ m = N.max (commit_index_ n) lii /\ last_applied_ m = N.max (last_applied_ n) lii /\ log_saved m.
Proof.
  intros Hlt. unfold m, install_changes. rewrite CompactLog_newer by done. cbv zeta.
  set (n1 := SaveLog (set_log (CompactTo lii lit (log_ n)).2 n)). change (commit_index_ n1) with (commit_index_ n).
  set (n2 := if (commit_index_ n <? lii)%N then set_commit_index lii n1 else n1).
  assert (E2 : (id_ n2 = id_ n /\ state_ n2 = state_ n /\ role_view n2 = role_view n /\ peers_ n2 = peers_ n) /\
    log_ n2 = (CompactTo lii lit (log_ n)).2 /\ commit_index_ n2 = N.max (commit_index_ n) lii /\
    last_applied_ n2 = last_applied_ n /\ log_saved n2).
  { unfold n2. destruct (N.ltb_spec (commit_index_ n) lii); (split_and!; try done; [cbn; lia|apply SaveLog_saved]). }
  clearbody n2. destruct E2 as (E2 & El & Ec & Ea & Es). rewrite Ea.
  set (n3 := if (last_applied_ n <? lii)%N then SaveLog (set_log (SetAppliedIndex lii (log_ (set_last_applied lii n2))) (set_last_applied lii n2)) else n2).
  assert (E3 : (id_ n3 = id_ n /\ state_ n3 = state_ n /\ role_view n3 = role_view n /\ peers_ n3 = peers_ n) /\
    log_ n3 = (if (last_applied_ n <? lii)%N then SetAppliedIndex lii else id) (CompactTo lii lit (log_ n)).2 /\
    commit_index_ n3 = N.max (commit_index_ n) lii /\ last_applied_ n3 = N.max (last_applied_ n) lii /\ log_saved n3).
  { unfold n3. destruct (N.ltb_spec (last_applied_ n) lii); [|split_and!; try done; [apply E2..|lia]].
    split_and!; [apply E2|apply E2|apply E2|apply E2|cbn; by rewrite El|done|cbn; lia|apply SaveLog_saved]. }
  clearbody n3. destruct E3 as (E3 & El3 & Ec3 & Ea3 & Es3).
  set (n4 := match membership !! id_ n3 with Some own => set_own_address own n3 | None => n3 end).
  assert (E4 : log_view n4 = log_view n3 /\ role_view n4 = role_view n3 /\ peers_ n4 = peers_ n3) by (unfold n4; destruct (membership !! id_ n3); split_and!; reflexivity).
  clearbody n4. destruct E4 as (V4 & R4 & P4). unfold log_view in V4. injection V4 as I4 D4 S4 L4 C4 A4 F4.
  set (n5 := SetMembership _ _ _ n4). pose proof (SetMembership_log (delete (id_ n4) membership)
    (bool_decide (is_Some (membership !! id_ n4))) (own_address_ n4) n4) as F5. fold n5 in F5.
  assert (E5 : id_ n5 = id_ n4 /\ state_ n5 = state_ n4 /\ role_view n5 = role_view n4 /\ peers_ n5 = peers_ n4 /\ log_ n5 = log_ n4 /\
    commit_index_ n5 = commit_index_ n4 /\ last_applied_ n5 = last_applied_ n4 /\ log_path n5 = log_path n4) by by split_and!.
  clearbody n5. destruct E5 as (? & ? & ? & ? & E5l & ? & ? & E5p). destruct E3 as (? & ? & ? & ?).
  split_and!; try congruence. unfold log_saved in *. rewrite E5p, F5, E5l, L4.
  assert (Ep4 : log_path n4 = log_path n3) by (unfold log_path; congruence). rewrite Ep4 in F4 |- *. by rewrite F4.
Qed.

Lemma FinishInstall_resp req n resp : (FinishInstall req n).1 = Ret resp -> isr_term resp = current_term n.
Proof.
  intros Hr. pose proof (FinishInstall_view req n) as Hv. unfold vote_view in Hv.
  transitivity (current_term (FinishInstall req n).2); [|unfold current_term; congruence]. revert Hr. unfold FinishInstall. rewrite run_get.
  cbv zeta. match goal with |- ((?m ≫= ?k) n).1 = _ -> _ => set (m0 := m) end.
  unfold mbind, ST_bind. destruct (m0 n) as [[[]|e|] n']; [|done..]. by intros [= <-].
Qed.

(** A node that adopts what a snapshot stands for. *)
Lemma install_log_rel a p f n i req L :
  sound M a -> leads_wf a -> node_rel M a p f n -> (is_term req <= current_term n)%N -> a_lead a !! is_term req = Some (i, L) ->
  (N.to_nat (is_last_included_index req) <= length L)%nat -> is_last_included_term req = term_at L (is_last_included_index req) ->
  settled M a (is_term req) (take (N.to_nat (is_last_included_index req)) L) ->
  (snapshot_index (log_ n) < is_last_included_index req)%N ->
  let f' := adopt (take (N.to_nat (is_last_included_index req)) L) f in
  let a' := with_node p (Participant (current_term n) f') a in
  reaches M p a a' /\ log_rel M a' p f' (install_changes (is_last_included_index req) (is_last_included_term req) (is_membership req) n).
Proof.
  intros Hs Hw (Hl & _) Ht HL Hlen Hp Hset Hnew. set (lii := is_last_included_index req) in *. set (C := take (N.to_nat lii) L) in *. cbv zeta.
  assert (HlC : length C = N.to_nat lii) by (unfold C; rewrite length_take; lia).
  destruct (s_lead M a Hs _ _ _ HL) as (HmL & _ & _). destruct (Hw _ _ _ HL) as [_ HwL].
  destruct (s_node M a Hs p _ (lr_node _ _ _ _ _ Hl)) as [Hma _]. cbn [a_log] in Hma.
  assert (HpC : C `prefix_of` L) by apply prefix_take.
  assert (Hlit : is_last_included_term req = last_term C).
  { rewrite Hp, last_term_at, HlC, N2Nat.id. symmetry. apply term_at_take; [done|]. rewrite HlC. lia. }
  assert (Hview : compacted (CompactTo lii (is_last_included_term req) (log_ n)).2 (adopt C f)).
  { rewrite Hlit. replace lii with (N.of_nat (length C)) by lia. destruct (log_wf_prefix _ _ HpC HwL) as (W1 & _ & W3).
    apply view_install; [apply Hl|done|lia|]. apply (matching_agree a); [done|exact (matching_prefix a L C HmL HpC)]. }
  split.
  { apply reaches_once; [|done|done].
    destruct Hset as [E|(t & Hle & HC)]; [rewrite E in HlC; cbn in HlC; lia|].
    apply (raft_install M p a (Participant (current_term n) f) t C); [apply Hl|done|cbn; lia]. }
  destruct (install_changes_fields lii (is_last_included_term req) (is_membership req) n Hnew) as ((Ei & Es & _ & _) & El & Ec & Ea & Esv).
  set (n' := install_changes _ _ _ n) in *. clearbody n'. assert (Et : current_term n' = current_term n) by (unfold current_term; congruence).
  destruct Hl as [H1 H2 H3 H4 H5 H6 H7 H8 H9].
  assert (Hk : take (N.to_nat (commit_index_ n)) f `prefix_of` adopt C f).
  { eapply settled_kept; [done|done|apply prefix_take|]. right. by exists (is_term req). }
  apply prefix_take_self in Hk as [Hk1 Hk2]; [|lia]. pose proof (prefix_length _ _ (adopt_has C f)) as HlA.
  assert (HCs : take (N.to_nat lii) (adopt C f) = C).
  { rewrite <- (prefix_take_same _ _ (N.to_nat lii) (adopt_has C f)) by lia. apply take_ge. lia. }
  assert (Esn : snapshot_index (log_ n') = lii /\ applied_index (log_ n') = N.max (last_applied_ n) lii).
  { rewrite El. unfold CompactTo. destruct (N.leb_spec lii (snapshot_index (log_ n))); [lia|]. cbn [snd].
    destruct (N.ltb_spec (last_applied_ n) lii); cbn; split; (done || lia). }
  destruct Esn as [Esn Eai]. split; rewrite ?Ei, ?Ec, ?Ea, ?Esn, ?Et; try done; try lia.
  - cbn. by rewrite lookup_insert_eq.
  - rewrite El. destruct (last_applied_ n <? lii)%N; [by apply compacted_applied|done].
  - destruct (decide (lii <= commit_index_ n)%N) as [Hle|Hgt].
    + rewrite N.max_l by done. rewrite Hk2. done.
    + rewrite N.max_r by lia. rewrite HCs. by eapply settled_later.
Qed.

Lemma FinishInstall_rel a p f n i req :
  sound M a -> leads_wf a -> node_rel M a p f n -> install_valid M a i req -> (is_term req <= current_term n)%N ->
  exists a' f', reaches M p a a' /\ node_rel M a' p f' (FinishInstall req n).2 /\
    forall resp, (FinishInstall req n).1 = Ret resp -> (isr_term resp <= is_term req)%N ->
      (p, is_term req, N.to_nat (is_last_included_index req)) ∈ a_acks a'.
Proof.
  intros Hs Hw Hn (_ & _ & L & HL & Hlen & Hp & Hset) Ht.
  assert (Hstep : exists a1 f1, reaches M p a a1 /\ a_lead a1 = a_lead a /\ node_rel M a1 p f1 (FinishInstall req n).2 /\
    take (N.to_nat (is_last_included_index req)) L `prefix_of` f1).
  { destruct (decide (is_last_included_index req <= snapshot_index (log_ n))%N) as [Hold|Hnew].
    - assert (En : (FinishInstall req n).2 = n).
      { unfold FinishInstall. rewrite run_get. cbv zeta. destruct (N.ltb_spec (snapshot_index (log_ n)) (is_last_included_index req)); [lia|done]. }
      exists a, f. rewrite En. split_and!; [by apply reaches_refl|done|done|]. by eapply old_snapshot; [exact Hs|apply Hn|..].
    - apply N.nle_gt in Hnew. rewrite FinishInstall_run by done.
      destruct (install_log_rel a p f n i req L) as [R1 Hl1]; [done..|].
      destruct (install_changes_fields (is_last_included_index req) (is_last_included_term req) (is_membership req) n Hnew)
        as ((_ & _ & Er & Ep) & _).
      set (m := install_changes _ _ _ n) in *. clearbody m. eexists _, _. split; [exact R1|]. split; [done|]. split; [|apply adopt_has].
      eapply quiet_rel; [apply RefreshMembership_quiet|]. destruct Hn as (_ & Hr & Htr). assert (Er' := Er). unfold role_view in Er'. injection Er' as Ei Es Ero Em _ _.
      split_and!; [exact Hl1| |eapply (tracked_frame n); [exact Htr|exact Ep|exact Em|by rewrite Ero]].
      eapply role_rel_relaxes; [apply view_relaxes; exact Er|]. by destruct Hr; split. }
  destruct Hstep as (a1 & f1 & R1 & EL & Hn1 & Hpre). destruct (decide (current_term n = is_term req)) as [Et|Hne].
  - assert (Et1 : current_term (FinishInstall req n).2 = is_term req).
    { pose proof (FinishInstall_view req n) as Hv. unfold vote_view in Hv. rewrite <- Et. unfold current_term. congruence. }
    destruct (acknowledge M a1 p f1 _ i L (N.to_nat (is_last_included_index req)) (reaches_sound _ _ _ _ Hs R1) (re_wf _ _ _ _ R1) Hn1)
      as [R2 Hn2]; [by rewrite EL, Et1|done|done|].
    eexists _, f1. split; [eapply reaches_trans; [exact R1|exact R2]|]. split; [done|]. intros resp _ _. cbn. rewrite Et1. set_solver.
  - exists a1, f1. split_and!; [done|done|]. intros resp Hr%FinishInstall_resp Hle. lia.
Qed.
End install.

(** ** The leader's side *)

Section leader.
Context {SM : Type} `{StateMachine SM}.
Context (M : gset N).
Implicit Types (n m : RaftNode SM) (a : raft) (f L C : full_log) (p q t i : N).

Lemma propose_log_rel a p f n cmd (e := {| index := N.of_nat (length f) + 1; term := current_term n; command := cmd |}) :
  sound M a -> leads_wf a -> node_rel M a p f n -> role_ n = kLeader -> plain e -> (LastIndex (log_ n) + 2 < two64)%N ->
  exists a', reaches M p a a' /\ node_rel M a' p (f ++ [e]) (SaveLog (set_log (Append (current_term n) cmd (log_ n)).2 n)) /\
    a_lead a' !! current_term n = Some (p, f ++ [e]) /\ (Append (current_term n) cmd (log_ n)).1 = index e.
Proof.
  intros Hs Hw Hn Hrole Hplain Hb. assert (Hn' := Hn). destruct Hn' as (Hl & Hr & Ht).
  destruct (rr_leader _ _ Hr Hrole) as [(L & HL & Hnext) Hm]. assert (Hx := lr_node _ _ _ _ _ Hl). assert (Hid := lr_id _ _ _ _ _ Hl).
  rewrite Hid in HL. assert (L = f) as -> by (symmetry; by apply (s_owner M a Hs p _ L Hx)).
  destruct (Hw _ _ _ HL) as [Hnz (W1 & W2 & W3)]. rewrite (view_LastIndex _ _ (lr_log _ _ _ _ _ Hl)) in Hb.
  set (x := Participant (current_term n) f) in *. exists (now_leads p x (f ++ [e]) a).
  assert (Hre : reaches M p a (now_leads p x (f ++ [e]) a)).
  { apply reaches_once; [by apply (raft_propose M p a x f e)|done|]. intros t q L'. cbn.
    rewrite lookup_insert_Some. intros [[<- [= <- <-]]|[_ HL']]; [|by eapply Hw]. split; [done|]. split_and!.
    - intros k y. rewrite lookup_snoc_Some. intros [[_ Hk]|[-> <-]]; [by apply W1|]. cbn. lia.
    - apply Forall_app. split; [done|]. by repeat constructor.
    - rewrite length_app. cbn. lia. }
  split; [done|]. assert (Hset := settled_steps M p a _ _ _ Hs (re_steps _ _ _ _ Hre) (lr_safe _ _ _ _ _ Hl)).
  destruct Hl as [H1 H2 H3 H4 H5 H6 H7 H8 H9].
  split; [|split; [cbn; apply lookup_insert_eq|cbn; rewrite (view_LastIndex _ _ H3); apply N.mod_small; lia]].
  split_and!; [split|split|by eapply tracked_frame].
  - done.
  - cbn. by rewrite lookup_insert_eq.
  - apply view_Append; [done|]. rewrite (view_LastIndex _ _ H3). lia.
  - rewrite length_app. cbn. lia.
  - cbn [SaveLog emit set_fs set_log commit_index_]. rewrite take_app_le by lia. exact Hset.
  - done.
  - done.
  - done.
  - apply SaveLog_saved.
  - intros _. split; [|exact Hm]. exists (f ++ [e]). split; [cbn; rewrite Hid; unfold current_term; cbn; apply lookup_insert_eq|].
    intros q j Hq Hj. specialize (Hnext q j Hq Hj). rewrite length_app. cbn. lia.
  - cbn. congruence.
Qed.

(** The leader [p] of term [t] has the entry. *)
Definition leader_has a t p (e : LogEntry) : Prop := exists L, a_lead a !! t = Some (p, L) /\ L !! N.to_nat (index e - 1) = Some e.

Lemma ProposeStart_rel a p f n cmd :
  sound M a -> leads_wf a -> node_rel M a p f n -> id_ n ∈ M -> dom (peers_ (RefreshMembership n).2) = M ∖ {[id_ n]} ->
  TryDecodeConfChange cmd = Ret None -> (LastIndex (log_ n) + 2 < two64)%N ->
  forall o, (ProposeStart cmd n).1 = Ret o ->
  exists a' f', reaches M p a a' /\ node_rel M a' p f' (ProposeStart cmd n).2 /\ advances f' n (ProposeStart cmd n).2 /\
    forall k, o = Appended k -> leader_has a' (current_term n) p {| index := k; term := current_term n; command := cmd |}.
Proof.
  intros Hs Hw Hn HM Hp Hcmd Hb o. unfold ProposeStart. rewrite run_get.
  destruct (bool_decide_reflect (role_ n = kLeader)) as [Hrole|]; cbn [negb];
    [|intros [= <-]; exists a, f; by split_and!; [apply reaches_refl| |apply advances_same|]].
  rewrite Hcmd, run_lift_ret. destruct (propose_log_rel a p f n cmd Hs Hw Hn Hrole Hcmd Hb) as (a1 & R1 & Hn1 & HL1 & Ei).
  destruct (Append (current_term n) cmd (log_ n)) as [i l] eqn:EA. cbn [fst snd index] in Hn1, Ei.
  rewrite run_ret, run_modify. set (n1 := SaveLog (set_log l n)) in *. set (f1 := f ++ _) in *.
  pose proof (reaches_sound _ _ _ _ Hs R1) as Hs1. destruct (node_wf M a1 p f1 n1 Hs1 (re_wf _ _ _ _ R1) Hn1) as [_ Hwf1].
  pose proof (RefreshMembership_quiet n1) as Hq. pose proof (RefreshMembership_core n1) as Hc. unfold core in Hc.
  assert (Hp1 : peers_ (RefreshMembership n1).2 = peers_ (RefreshMembership n).2).
  { rewrite !refresh_plain; [done| |].
    - intros j e. destruct (node_wf M a p f n Hs Hw Hn) as [_ Hwf]. apply (log_rel_plain M a p f n j e Hwf). apply Hn.
    - intros j e. apply (log_rel_plain M a1 p f1 n1 j e Hwf1). apply Hn1. }
  intros (_ & _ & Hret & ->)%bind_returns. revert Hq Hc Hp1 Hret. pose proof (RefreshMembership_machine n1) as Hm.
  revert Hm. generalize (RefreshMembership n1).2. intros n2 Hm Hq Hc Hp1 ([] & Hret & Ho & ->)%bind_returns.
  assert (id_ n2 = id_ n /\ role_ n2 = kLeader) as [Hi Hr2].
  { split; [change (id_ n) with (id_ n1); congruence|rewrite <- Hrole; change (role_ n) with (role_ n1); congruence]. }
  destruct (MaybeAdvanceCommitIndex_rel M a1 p f1 n2 Hs1 (re_wf _ _ _ _ R1) Hwf1) as (a2 & R2 & Hn2 & Ha2); [|done| | |exact Hret|].
  { by eapply quiet_rel. }
  { by rewrite Hi. }
  { by rewrite Hi, Hp1. }
  assert (Hlead : leader_has a2 (current_term n) p {| index := i; term := current_term n; command := cmd |}).
  { destruct (steps_sound M p a1 a2 Hs1 (re_steps _ _ _ _ R2)) as (_ & _ & _ & _ & Hgrow).
    destruct (Hgrow _ _ _ HL1) as (L & HL & Hpre). exists L. split; [done|]. eapply prefix_lookup_Some; [|exact Hpre].
    cbn [index]. rewrite Ei. apply lookup_snoc_Some. right. split; [lia|done]. }
  exists a2, f1. split; [by eapply reaches_trans|]. split; [exact Hn2|]. split; [by eapply advances_views; [symmetry; exact Hm| |exact Ha2]|].
  injection Ho as <-. by intros k [= <-].
Qed.

(** A peer's progress as the leader records it. *)
Lemma match_ok_insert a n n' peer j : match_ok a n -> current_term n' = current_term n ->
  (exists j', (N.to_nat j <= j')%nat /\ (peer, current_term n, j') ∈ a_acks a) ->
  match_index_ n' = <[peer := j]> (match_index_ n) -> match_ok a n'.
Proof.
  intros Hm Et Hj Em q i. rewrite Et, Em, lookup_insert_Some. intros [[<- <-]|[_ Hi]]; [by right|by apply Hm].
Qed.

Lemma match_rel a p f n n' peer j : sound M a -> node_rel M a p f n -> role_ n = kLeader -> peers_ n !! peer <> None ->
  (exists j', (N.to_nat j <= j')%nat /\ (peer, current_term n, j') ∈ a_acks a) ->
  log_view n' = log_view n -> role_ n' = role_ n -> peers_ n' = peers_ n -> match_index_ n' = <[peer := j]> (match_index_ n) ->
  next_index_ n' = <[peer := u64_add j 1]> (next_index_ n) -> node_rel M a p f n'.
Proof.
  intros Hs (Hl & Hr & Ht) Hrole Hp Hj Hv Er Ep Em Ex. assert (Ev := Hv). unfold log_view in Ev. injection Ev as Ei _ Es _ _ _ _.
  assert (Et : current_term n' = current_term n) by (unfold current_term; congruence). split_and!.
  - by eapply log_rel_view.
  - split; [|congruence]. intros _. destruct (rr_leader _ _ Hr Hrole) as [(L & HL & Hx) Hm]. rewrite Et, Ei.
    split; [|by eapply match_ok_insert]. exists L. split; [done|]. intros q k. rewrite Ep, Ex, lookup_insert_Some.
    intros Hq [[<- <-]|[_ Hk]]; [|by apply (Hx q)]. destruct Hj as (j' & Hle & Hack).
    destruct (s_ack M a Hs _ _ _ Hack) as (q' & L' & x & HL' & Hlen & _). assert (L' = L) as -> by congruence.
    assert (Hu : (u64_add j 1 <= j + 1)%N) by (unfold u64_add, u64; apply N.Div0.mod_le). lia.
  - eapply tracked_frame; [by apply (in_peers_tracked n peer j Ht Hp)|done|done|cbn; congruence].
Qed.

Lemma max_acked (acks : gset (N * N * nat)) (peer t i j : N) (k : nat) :
  i = 0%N \/ (exists i' : nat, (N.to_nat i <= i')%nat /\ (peer, t, i') ∈ acks) -> (peer, t, k) ∈ acks -> (N.to_nat j <= k)%nat ->
  exists j' : nat, (N.to_nat (N.max i j) <= j')%nat /\ (peer, t, j') ∈ acks.
Proof.
  intros Hi Hk Hj. destruct (decide (i <= j)%N) as [Hle|Hgt]; [exists k; split; [lia|done]|].
  destruct Hi as [->|(i' & Hi & Ha)]; [lia|]. exists i'. split; [lia|done].
Qed.

(** What a leader records of a peer that has accepted [sent] entries after [prev]. *)
Definition record_progress (peer : NodeId) (prev : LogIndex) (sent : nat) n : RaftNode SM :=
  let m := N.max (default 0%N (match_index_ n !! peer)) (u64_add prev (N.of_nat sent)) in
  set_next_index (<[peer := u64_add m 1]> (next_index_ n)) (set_match_index (<[peer := m]> (match_index_ n)) n).

Lemma record_progress_rel a p f n peer prev sent : sound M a -> node_rel M a p f n -> role_ n = kLeader -> peers_ n !! peer <> None ->
  (peer, current_term n, (N.to_nat prev + sent)%nat) ∈ a_acks a -> node_rel M a p f (record_progress peer prev sent n).
Proof.
  intros Hs Hn Hrole Hin Hack. set (mi := N.max (default 0%N (match_index_ n !! peer)) (u64_add prev (N.of_nat sent))).
  apply (match_rel a p f n _ peer mi); try done. unfold mi. apply (max_acked _ _ _ _ _ (N.to_nat prev + sent)); [|done|].
  - destruct (rr_leader _ _ (proj1 (proj2 Hn)) Hrole) as [_ Hm]. destruct (match_index_ n !! peer) as [j0|] eqn:E0; [by apply Hm|by left].
  - assert (Hu : (u64_add prev (N.of_nat sent) <= prev + N.of_nat sent)%N) by (unfold u64_add, u64; apply N.Div0.mod_le). lia.
Qed.

Lemma OnAppendResponse_rel a p f n env peer t prev sent resp :
  sound M a -> leads_wf a -> node_rel M a p f n -> id_ n ∈ M -> dom (peers_ n) = M ∖ {[id_ n]} ->
  (forall r, resp = Some r -> aer_success r = true -> (peer, t, (N.to_nat prev + sent)%nat) ∈ a_acks a) ->
  (OnAppendResponse env peer t prev sent resp n).1 = Ret tt ->
  exists a', reaches M p a a' /\ node_rel M a' p f (OnAppendResponse env peer t prev sent resp n).2 /\
    advances f n (OnAppendResponse env peer t prev sent resp n).2.
Proof.
  intros Hs Hw Hn HM Hp Hr. unfold OnAppendResponse. rewrite run_modify. set (n1 := in_flight peer false n).
  assert (Hn1 : node_rel M a p f n1 /\ id_ n1 = id_ n /\ peers_ n1 = peers_ n /\ machine n1 = machine n)
    by (split_and!; [eapply quiet_rel; [|exact Hn]; by apply view_quiet|done..]).
  clearbody n1. destruct Hn1 as (Hn1 & Ei & Ep & Em).
  assert (Hstay : exists a', reaches M p a a' /\ node_rel M a' p f n1 /\ advances f n n1)
    by (exists a; by split_and!; [apply reaches_refl| |apply advances_same]).
  destruct resp as [r|]; [|intros _; exact Hstay]. rewrite run_get.
  destruct (bool_decide_reflect (peers_ n1 !! peer = None)) as [|Hin]; [intros _; exact Hstay|].
  destruct (N.ltb_spec (current_term n1) (aer_term r)).
  { intros _. destruct (BecomeFollower_rel M a p f n1 env (aer_term r) Hw Hn1) as (a' & R & Hn' & _). exists a'.
    split_and!; [done|exact Hn'|apply advances_same]. cbn [st_modify snd]. rewrite <- Em. unfold machine, BecomeFollower. by destruct (_ <? _)%N. }
  destruct (bool_decide_reflect (role_ n1 = kLeader)) as [Hrole|]; cbn [negb orb]; [|intros _; exact Hstay].
  destruct (N.eqb_spec t (current_term n1)) as [->|]; cbn [negb]; [|intros _; exact Hstay].
  destruct (aer_success r) eqn:Ea.
  - rewrite run_modify. fold (record_progress peer prev sent n1). set (n2 := record_progress peer prev sent n1).
    assert (Hn2 : node_rel M a p f n2) by (apply record_progress_rel; try done; by apply (Hr r)).
    destruct (node_wf M a p f n2 Hs Hw Hn2) as [_ Hwf]. assert (E2 : id_ n2 = id_ n1 /\ role_ n2 = role_ n1 /\ peers_ n2 = peers_ n1) by done.
    assert (Em2 : machine n2 = machine n) by (rewrite <- Em; done).
    clearbody n2. destruct E2 as (Ei2 & Er2 & Ep2). intros Hret.
    destruct (MaybeAdvanceCommitIndex_rel M a p f n2) as (a' & R & Hn' & Ha); try done; [congruence..|].
    exists a'. split_and!; [done|exact Hn'|]. by eapply advances_views; [symmetry; exact Em2| |exact Ha].
  - intros _. exists a. split; [by apply reaches_refl|]. cbn [st_modify snd]. split; [|apply advances_same; rewrite <- Em; unfold next_of; by destruct (_ <? _)%N]. eapply quiet_rel; [|exact Hn1].
    unfold next_of. destruct (_ <? _)%N; [|by apply next_index_quiet]. etrans; [by apply (next_index_quiet n1 peer _ (N.le_refl _))|].
    apply next_index_quiet. cbn. rewrite lookup_insert_eq. cbn. lia.
Qed.

Lemma OnSnapshotResponse_rel a p f n env peer t lii resp :
  sound M a -> leads_wf a -> node_rel M a p f n ->
  (forall r, resp = Some r -> (isr_term r <= t)%N -> (peer, t, N.to_nat lii) ∈ a_acks a) ->
  exists a', reaches M p a a' /\ node_rel M a' p f (OnSnapshotResponse env peer t lii resp n).
Proof.
  intros Hs Hw Hn Hr. unfold OnSnapshotResponse. cbv zeta. set (n1 := in_flight peer false n).
  assert (Hn1 : node_rel M a p f n1) by (eapply quiet_rel; [|exact Hn]; by apply view_quiet). clearbody n1.
  assert (Hstay : exists a', reaches M p a a' /\ node_rel M a' p f n1) by (exists a; by split; [apply reaches_refl|]).
  destruct resp as [r|]; [|exact Hstay].
  destruct (bool_decide_reflect (peers_ n1 !! peer = None)) as [|Hin]; [exact Hstay|].
  destruct (N.ltb_spec (current_term n1) (isr_term r)) as [|Hle].
  { destruct (BecomeFollower_rel M a p f n1 env (isr_term r) Hw Hn1) as (a' & R & Hn' & _). by exists a'. }
  destruct (bool_decide_reflect (role_ n1 = kLeader)) as [Hrole|]; cbn [negb orb]; [|exact Hstay].
  destruct (N.eqb_spec t (current_term n1)) as [->|]; cbn [negb]; [|exact Hstay].
  exists a. split; [by apply reaches_refl|]. apply (match_rel a p f n1 _ peer lii); try done.
  exists (N.to_nat lii). split; [done|]. by apply (Hr r).
Qed.
End leader.

(** ** Elections *)

Section elections.
Context {SM : Type} `{StateMachine SM}.
Context (M : gset N).
Implicit Types (n m : RaftNode SM) (a : raft) (f L C K : full_log) (p q k t i : N).

(** Casting a vote in the term the node is in. *)
Lemma vote_node_rel a p f n v : node_rel M a p f n -> node_rel M a p f (SetState (current_term n) v n).
Proof.
  intros (Hl & Hr & Ht). split_and!; [|by destruct Hr; split|by eapply tracked_frame].
  assert (E : with_node p (Participant (current_term n) f) a = a).
  { unfold with_node. rewrite insert_id by apply Hl. by destruct a. }
  rewrite <- E. by apply log_rel_term.
Qed.

(** The request of a candidate: the end of the log it stood with. *)
Definition vote_valid a i (req : RequestVoteRequest) : Prop :=
  exists K, a_cand a !! (rv_term req, i) = Some K /\ rv_candidate_id req = i /\
    rv_last_log_index req = N.of_nat (length K) /\ rv_last_log_term req = last_term K.

Lemma HandleRequestVote_rel a p f n env i req :
  sound M a -> leads_wf a -> node_rel M a p f n -> vote_valid a i req ->
  (forall k, (p, rv_term req, k) ∈ a_votes a ->
     (rv_term req < current_term n)%N \/ rv_term req = current_term n /\ voted_for n = Some k) ->
  exists a', rtc (raft_step M p) a a' /\ leads_wf a' /\ node_rel M a' p f (HandleRequestVote env req n).2 /\
    a_votes a' = (if rvr_vote_granted (HandleRequestVote env req n).1 then {[(p, rv_term req, i)]} else ∅) ∪ a_votes a.
Proof.
  intros Hs Hw Hn (K & HK & Hi & Hli & Hlt) Hcast.
  assert (Hstay : forall a1 n1 resp, reaches M p a a1 -> node_rel M a1 p f n1 -> rvr_vote_granted resp = false ->
    exists a', rtc (raft_step M p) a a' /\ leads_wf a' /\ node_rel M a' p f (resp, n1).2 /\
      a_votes a' = (if rvr_vote_granted (resp, n1).1 then {[(p, rv_term req, i)]} else ∅) ∪ a_votes a).
  { intros a1 n1 resp [R V W] Hn1 E. exists a1. cbn. rewrite E, V. split_and!; [done..|]. by rewrite (left_id_L ∅ (∪)). }
  destruct (HandleRequestVote env req n) as [resp n'] eqn:E.
  assert (Hg := HandleRequestVote_grant env req n resp n' E). revert E.
  unfold HandleRequestVote. destruct (heard_recently env n); [intros [= <- <-]; by eapply Hstay; [by apply reaches_refl|..]|].
  destruct (N.ltb_spec (rv_term req) (current_term n)) as [|Hle]; [intros [= <- <-]; by eapply Hstay; [by apply reaches_refl|..]|].
  set (n1 := if (current_term n <? rv_term req)%N then BecomeFollower env (rv_term req) n else n).
  assert (Hn1 : exists a1, reaches M p a a1 /\ node_rel M a1 p f n1 /\ current_term n1 = rv_term req).
  { unfold n1. destruct (N.ltb_spec (current_term n) (rv_term req)).
    - destruct (BecomeFollower_rel M a p f n env (rv_term req) Hw Hn) as (a1 & R & Hn1 & _). exists a1. split_and!; [done|done|].
      unfold BecomeFollower. by destruct (N.ltb_spec (current_term n) (rv_term req)); [|lia].
    - exists a. split_and!; [by apply reaches_refl|done|lia]. }
  clearbody n1. destruct Hn1 as (a1 & R1 & Hn1 & Et). cbv zeta. case_match eqn:Eg; [|intros [= <- <-]; by eapply Hstay].
  intros [= <- <-]. cbn [fst snd rvr_vote_granted] in *. destruct (Hg eq_refl) as (Hv & _ & _). apply andb_true_iff in Eg as [_ Hup].
  exists (with_vote p (rv_term req) i a1). assert (Hn1' := Hn1). destruct Hn1' as (Hl & _). pose proof (reaches_sound _ _ _ _ Hs R1) as Hs1.
  rewrite (view_LastTerm _ _ (lr_log _ _ _ _ _ Hl)), (view_LastIndex _ _ (lr_log _ _ _ _ _ Hl)), Hli, Hlt in Hup.
  assert (Hst : raft_step M p a1 (with_vote p (rv_term req) i a1)).
  { rewrite <- Et. apply (raft_vote M p a1 (Participant (current_term n1) f) i K); [apply Hl|cbn; rewrite Et| |].
    - by apply (steps_sound M p a a1 Hs (re_steps _ _ _ _ R1)).
    - unfold at_least. apply orb_true_iff in Hup as [?%N.ltb_lt|[?%N.eqb_eq ?%N.leb_le]%andb_true_iff]; [by left|right; split; [done|cbn; lia]].
    - cbn. rewrite (re_votes _ _ _ _ R1), Et. intros k Hk. rewrite <- Hi. apply Hv. unfold vote_in.
      destruct (Hcast k Hk) as [?|[<- ->]]; [lia|]. by rewrite N.ltb_irrefl. }
  split_and!.
  - eapply rtc_r; [apply R1|done].
  - apply (re_wf _ _ _ _ R1).
  - eapply (quiet_rel M _ p f (SetState (current_term n1) (Some (rv_candidate_id req)) n1)); [by apply view_quiet|].
    apply vote_node_rel. destruct Hn1 as ([] & [] & ?). split_and!; [by split|by split|done].
  - cbn. by rewrite (re_votes _ _ _ _ R1).
Qed.

(** A candidate with a majority is the first leader of its term. *)
Lemma no_leader_yet a p T E : sound M a -> quorum M E -> (forall q, q ∈ E -> (q, T, p) ∈ a_votes a) ->
  (forall L, a_lead a !! T <> Some (p, L)) -> a_lead a !! T = None.
Proof.
  intros Hs [HE1 HE2] Hv Hp. destruct (a_lead a !! T) as [[k L]|] eqn:HL; [|done].
  destruct (s_elected M a Hs T k L HL) as (E' & K & [HE3 HE4] & _ & _ & Hall).
  destruct (majorities_meet M E E') as (q & Q1 & Q2); [done..|]. destruct (Hall q Q2) as [Hv' _].
  destruct (Hp L). by rewrite (s_once M a Hs q T p k (Hv q Q1) Hv').
Qed.

Lemma init_progress_zero n q j : match_index_ (init_progress n) !! q = Some j ->
  j = 0%N \/ (q ∉ (map_entries (peers_ n)).*1) /\ match_index_ n !! q = Some j.
Proof.
  unfold init_progress. generalize (map_entries (peers_ n)). intros l. revert n. induction l as [|x l IH]; intros n; cbn [foldl]; [right; split; [apply not_elem_of_nil|done]|].
  intros Hj. destruct (IH _ Hj) as [?|[Hq Hm]]; [by left|]. cbn in Hm. apply lookup_insert_Some in Hm as [[<- <-]|[Hne Hm]]; [by left|].
  right. split; [|done]. rewrite fmap_cons, not_elem_of_cons. done.
Qed.

Lemma init_progress_next n q j : next_index_ (init_progress n) !! q = Some j ->
  j = u64_add (LastIndex (log_ n)) 1 \/ (q ∉ (map_entries (peers_ n)).*1) /\ next_index_ n !! q = Some j.
Proof.
  unfold init_progress. generalize (map_entries (peers_ n)). intros l. revert n. induction l as [|x l IH]; intros n; cbn [foldl]; [right; split; [apply not_elem_of_nil|done]|].
  intros Hj. destruct (IH _ Hj) as [?|[Hq Hm]]; [by left|]. cbn in Hm. apply lookup_insert_Some in Hm as [[<- <-]|[Hne Hm]]; [by left|].
  right. split; [|done]. rewrite fmap_cons, not_elem_of_cons. done.
Qed.

Lemma init_progress_log n : log_view (init_progress n) = log_view n /\ peers_ (init_progress n) = peers_ n /\
  state_ (init_progress n) = state_ n /\ role_ (init_progress n) = role_ n.
Proof.
  unfold init_progress. generalize (map_entries (peers_ n)). intros l. revert n. induction l as [|x l IH]; intros n; [done|].
  cbn [foldl]. destruct (IH (set_match_index (<[x.1:=0%N]> (match_index_ n))
    (set_next_index (<[x.1:=u64_add (LastIndex (log_ n)) 1]> (next_index_ n)) n))) as (-> & -> & -> & ->). done.
Qed.

Lemma BecomeLeader_rel a p f n env :
  sound M a -> leads_wf a -> node_rel M a p f n -> role_ n = kCandidate ->
  (role_ (BecomeLeader env n).2 = kLeader -> exists E, quorum M E /\ forall q, q ∈ E -> (q, current_term n, p) ∈ a_votes a) ->
  exists a', reaches M p a a' /\ node_rel M a' p f (BecomeLeader env n).2 /\ a_cand a' = a_cand a.
Proof.
  intros Hs Hw Hn Hrole Hel. pose proof (BecomeLeader_tracked env n (proj2 (proj2 Hn))) as Htr. revert Hel Htr.
  unfold BecomeLeader. pose proof (RefreshMembership_quiet n) as Hq. pose proof (RefreshMembership_core n) as Hc. unfold core in Hc.
  unfold mbind, ST_bind. destruct (RefreshMembership n) as [[[]|e|] n1]; cbn [snd] in *;
    [|intros _ _; exists a; by (split_and!; [apply reaches_refl|eapply quiet_rel|])..].
  assert (Hn1 := quiet_rel M a p f n n1 Hq Hn). cbn [st_modify snd].
  set (n2 := set_replication_in_flight _ _). assert (E2 : log_view n2 = log_view n1 /\ peers_ n2 = peers_ n1 /\ role_ n2 = kLeader /\ match_index_ n2 = match_index_ n1) by done.
  clearbody n2. destruct E2 as (V2 & P2 & R2 & M2). destruct (init_progress_log n2) as (V3 & P3 & _ & R3). intros Hel Htr.
  destruct (Hel ltac:(congruence)) as (E & HE & Hv). clear Hel.
  assert (Et : current_term n1 = current_term n) by (unfold current_term; congruence).
  destruct Hn1 as (Hl & Hr & Ht). assert (Hid := lr_id _ _ _ _ _ Hl). set (x := Participant (current_term n1) f).
  assert (Hnone : a_lead a !! a_term x = None).
  { cbn. rewrite Et. eapply no_leader_yet; [done|done|done|]. rewrite <- Et, <- Hid. apply (rr_candidate _ _ Hr). congruence. }
  assert (Hre : reaches M p a (with_lead (a_term x) p f a)).
  { apply reaches_once; [apply (raft_lead M p a x E); [apply Hl|done|done|cbn; by rewrite Et]|done|].
    intros t q L. cbn. rewrite lookup_insert_Some. intros [[<- [= <- <-]]|[_ HL]]; [|by eapply Hw]. split.
    - destruct (majorities_meet M E E) as (q & Hq1 & _); [apply HE..|]. destruct (s_vote M a Hs _ _ _ (Hv q Hq1)) as [_ [K HK]].
      cbn. rewrite Et. exact (s_nonzero M a Hs _ _ _ HK).
    - destruct (node_wf M a p f n1 Hs Hw) as [_ Hwf]; [by split_and!|done]. }
  exists (with_lead (a_term x) p f a). split; [done|]. split; [|done]. split_and!; [| |exact Htr].
  - eapply log_rel_view; [transitivity (log_view n2); [exact V3|exact V2]|]. destruct Hl. split; try done. by eapply settled_steps; [..|apply Hre|].
  - unfold log_view in V3, V2. split; [|congruence]. intros _. assert (Et3 : current_term (init_progress n2) = current_term n1) by (unfold current_term; congruence).
    assert (El3 : log_ n2 = log_ n1 /\ id_ (init_progress n2) = p) by (split; congruence). destruct El3 as [El3 Ei3].
    assert (Hin : forall q, q ∈ dom (peers_ n2) -> q ∈ (map_entries (peers_ n2)).*1)
      by (intros q Hd; rewrite <- dom_map_entries in Hd; by apply elem_of_list_to_set in Hd).
    rewrite Et3, Ei3. split; [exists f; split; [cbn; by rewrite lookup_insert_eq|]|].
    { intros q j. rewrite P3. intros Hqd Hj. destruct (init_progress_next _ _ _ Hj) as [->|[Hq' _]]; [|by destruct Hq'; apply Hin].
      rewrite El3, (view_LastIndex _ _ (lr_log _ _ _ _ _ Hl)). unfold u64_add, u64. apply N.Div0.mod_le. }
    intros q j Hj. left. destruct (init_progress_zero _ _ _ Hj) as [?|[Hq' Hm]]; [done|]. destruct Hq'.
    rewrite M2 in Hm. assert (Hd : q ∈ dom (peers_ n2)) by (rewrite P2; apply (tracked_peers _ Ht); apply elem_of_dom; eauto).
    by apply Hin.
Qed.


(** A node that stands for election in the next term. *)
Lemma stand_rel a p f n n' t : sound M a -> leads_wf a -> node_rel M a p f n -> t = (current_term n + 1)%N ->
  log_view n' = log_view (SetState t (Some (id_ n)) n) -> role_ n' = kCandidate -> peers_ n' = peers_ n -> match_index_ n' = match_index_ n ->
  let a' := with_vote p t p (with_cand t p f (with_node p (Participant t f) a)) in
  raft_step M p a a' /\ leads_wf a' /\ node_rel M a' p f n'.
Proof.
  intros Hs Hw Hn -> Hv Hrole Hp Hm. cbv zeta. destruct Hn as (Hl & Hr & Ht). unfold node_rel. split_and!.
  - apply (raft_stand M p a (Participant (current_term n) f)). apply Hl.
  - done.
  - eapply log_rel_view; [exact Hv|]. pose proof (log_rel_term M a p f n (current_term n + 1) (Some (id_ n)) ltac:(lia) Hl) as []. by split.
  - unfold log_view in Hv. assert (Et : current_term n' = (current_term n + 1)%N).
    { assert (Es : state_ n' = state_ (SetState (current_term n + 1) (Some (id_ n)) n)) by congruence. unfold current_term at 1. by rewrite Es. }
    assert (Ei : id_ n' = p) by (rewrite <- (lr_id _ _ _ _ _ Hl); change (id_ n) with (id_ (SetState (current_term n + 1) (Some (id_ n)) n)); congruence).
    split; [congruence|]. intros _ L HL. cbn in HL. rewrite Et, Ei in HL.
    destruct (s_lead M a Hs _ _ _ HL) as (_ & _ & (y & Hy & Hle)). rewrite (lr_node _ _ _ _ _ Hl) in Hy. injection Hy as <-. cbn in Hle. lia.
  - by eapply tracked_frame; [exact Ht|done|done|congruence].
Qed.

Lemma StartElection_rel a p f n env :
  sound M a -> leads_wf a -> node_rel M a p f n -> (current_term n + 1 < two64)%N ->
  id_ n ∈ M -> dom (peers_ (RefreshMembership n).2) = M ∖ {[id_ n]} ->
  exists a', rtc (raft_step M p) a a' /\ leads_wf a' /\ node_rel M a' p f (StartElection env n).2 /\
    (current_term (StartElection env n).2 = current_term n /\ a_votes a' = a_votes a \/
     current_term (StartElection env n).2 = (current_term n + 1)%N /\
     a_votes a' = {[(p, (current_term n + 1)%N, p)]} ∪ a_votes a /\ a_cand a' !! ((current_term n + 1)%N, p) = Some f).
Proof.
  intros Hs Hw Hn Hb HM Hp. pose (P n' := exists a', rtc (raft_step M p) a a' /\ leads_wf a' /\ node_rel M a' p f n' /\
    (current_term n' = current_term n /\ a_votes a' = a_votes a \/
     current_term n' = (current_term n + 1)%N /\
     a_votes a' = {[(p, (current_term n + 1)%N, p)]} ∪ a_votes a /\ a_cand a' !! ((current_term n + 1)%N, p) = Some f)).
  change (P (StartElection env n).2). unfold StartElection. pose proof (RefreshMembership_quiet n) as Hq. pose proof (RefreshMembership_core n) as Hc.
  unfold core in Hc. unfold mbind at 1, ST_bind at 1. destruct (RefreshMembership n) as [r n1]. cbn [snd] in *.
  assert (Hn1 := quiet_rel M a p f n n1 Hq Hn). assert (Et : current_term n1 = current_term n) by (unfold current_term; congruence).
  assert (Hid : id_ n1 = id_ n) by congruence. clear Hq Hc.
  assert (Hstay : forall n', log_view n' = log_view n1 -> role_view n' = role_view n1 -> peers_ n' = peers_ n1 -> P n').
  { intros n' V R E. exists a. split_and!; [done|done|eapply quiet_rel; [by apply view_quiet|exact Hn1]|]. left. split; [|done].
    rewrite <- Et. unfold log_view in V. unfold current_term. congruence. }
  destruct r as [[]|e|]; [|by apply Hstay..]. rewrite run_get. destruct (negb (self_is_member_ n1)); [by apply Hstay|].
  rewrite !run_modify, run_get. set (n2 := ResetElectionDeadline env _).
  assert (Eu : u64_add (current_term n1) 1 = (current_term n + 1)%N) by (rewrite Et; unfold u64_add, u64; by apply N.mod_small).
  destruct (stand_rel a p f n1 n2 (current_term n + 1)%N) as (Hst & Hw2 & Hn2); [done|done|done|by rewrite Et| |done|done|done|].
  { unfold n2. by rewrite Eu. }
  set (a2 := with_vote _ _ _ _) in *. pose proof (step_sound M p a a2 Hs Hst) as Hs2.
  assert (E2 : role_ n2 = kCandidate /\ current_term n2 = (current_term n + 1)%N /\ peers_ n2 = peers_ n1 /\ votes_received_ n2 = 1%N)
    by (split_and!; [done|unfold n2; rewrite Eu; done|done|done]). clearbody n2. destruct E2 as (Er2 & Et2 & Ep2 & Ev2).
  assert (HC : a_cand a2 !! ((current_term n + 1)%N, p) = Some f) by (cbn; apply lookup_insert_eq).
  destruct (has_majority n2) eqn:Em.
  - destruct (BecomeLeader_rel a2 p f n2 env Hs2 Hw2 Hn2 Er2) as (a3 & R3 & Hn3 & EC).
    { intros _. exists {[p]}. rewrite Et2. split; [|intros q ->%elem_of_singleton; cbn; set_solver].
      assert (Hip : id_ n = p) by apply Hn. unfold has_majority in Em. apply N.ltb_lt in Em. rewrite Ep2, Ev2 in Em.
      split; [rewrite <- Hip; set_solver|]. rewrite size_singleton, (agreed_size M (id_ n) (peers_ n1) HM Hp). lia. }
    exists a3. split_and!; [by eapply rtc_l; [|apply R3]|apply R3|done|right].
    pose proof (BecomeLeader_view env n2) as Hv. unfold vote_view in Hv.
    split_and!; [rewrite <- Et2; unfold current_term; congruence|by rewrite (re_votes _ _ _ _ R3)|by rewrite EC].
  - exists a2. split_and!; [by apply rtc_once|done|eapply quiet_rel; [|exact Hn2]; by apply view_quiet|right; split_and!; [exact Et2|done|exact HC]].
Qed.

Lemma OnVoteResponse_rel a p f n env t resp :
  sound M a -> leads_wf a -> node_rel M a p f n ->
  (role_ (OnVoteResponse env t resp n).2 = kLeader -> role_ n = kCandidate ->
   exists E, quorum M E /\ forall q, q ∈ E -> (q, current_term n, p) ∈ a_votes a) ->
  exists a', reaches M p a a' /\ node_rel M a' p f (OnVoteResponse env t resp n).2.
Proof.
  intros Hs Hw Hn. assert (Hstay : exists a', reaches M p a a' /\ node_rel M a' p f n) by (exists a; by split; [apply reaches_refl|]).
  unfold OnVoteResponse. rewrite run_get. destruct (N.ltb_spec (current_term n) (rvr_term resp)).
  { intros _. destruct (BecomeFollower_rel M a p f n env (rvr_term resp) Hw Hn) as (a' & R & Hn' & _). by exists a'. }
  destruct (bool_decide_reflect (role_ n = kCandidate)) as [Hrole|]; cbn [negb orb]; [|done].
  destruct (N.eqb_spec t (current_term n)) as [->|]; cbn [negb]; [|done]. destruct (rvr_vote_granted resp); [|done].
  rewrite run_modify, run_get. set (n1 := set_votes_received _ n).
  assert (Hn1 : node_rel M a p f n1) by (eapply quiet_rel; [|exact Hn]; by apply view_quiet).
  assert (E1 : role_ n1 = kCandidate /\ current_term n1 = current_term n) by done. clearbody n1. destruct E1 as [Er Et].
  destruct (has_majority n1); [|intros _; exists a; by split; [apply reaches_refl|]]. intros Hel.
  destruct (BecomeLeader_rel a p f n1 env Hs Hw Hn1 Er) as (a' & R & Hn' & _); [|by exists a'].
  intros Hlead. rewrite Et. by apply Hel.
Qed.

(** ** Restarts *)

Lemma restart_rel a p f n n' own peers joining sm :
  node_rel M a p f n -> hard_ok n -> log_fits (log_ n) ->
  new_node (id_ n) own peers (state_dir_ n) joining sm (files (fs_ n)) = Ret n' ->
  node_rel M a p f n' /\ last_applied_ n' = last_applied_ n.
Proof.
  intros (Hl & _ & _) Hok Hfit Hnew. pose proof (new_node_tracked _ _ _ _ _ _ _ _ Hnew) as Ht.
  destruct (new_node_vote_le n n' own peers joining sm Hnew) as (Hid & Hdir & _). destruct Hl as [H1 H2 H3 H4 H5 H6 H7 H8 H9].
  assert (Hload : RaftLog.Load (log_path n) (files (fs_ n)) = log_ n).
  { destruct H9 as [Hf|[Hf E]]; [by apply log_file_loads|]. unfold RaftLog.Load. by rewrite Hf, E. }
  revert Hnew. unfold new_node. cbv zeta. cbn [set_log set_state log_].
  match goal with |- context [RaftLog.Load ?path (files (fs_ n))] => change (RaftLog.Load path (files (fs_ n))) with (RaftLog.Load (log_path n) (files (fs_ n))) end.
  rewrite Hload. match goal with |- context [PersistentState.Load ?path (files (fs_ n))] =>
    change (PersistentState.Load path (files (fs_ n))) with (PersistentState.Load (state_path n) (files (fs_ n))) end.
  rewrite (hard_file n Hok). destruct (MembershipState.Load _ _) as [mb|e|]; cbn [mbind outcome_bind]; [|done..].
  intros [= <-]. set (n1 := if MembershipState.has_file mb then _ else _) in *.
  assert (E1 : state_ n1 = state_ n /\ log_ n1 = log_ n /\ role_ n1 = kFollower /\ match_index_ n1 = ∅ /\ log_path n1 = log_path n /\
    files (fs_ n1) !! log_path n = files (fs_ n) !! log_path n).
  { unfold n1. destruct (MembershipState.has_file mb); split_and!; try done.
    match goal with |- files (fs_ (SetMembership ?x ?b ?o ?m)) !! _ = _ => exact (SetMembership_log x b o m) end. }
  clearbody n1. destruct E1 as (Es & El & Er & Em & Ep & Ef). cbn in Hid.
  split; [|cbn [set_commit_index set_last_applied last_applied_]; by rewrite El]. split_and!; [|by split; cbn; congruence|done].
  split; cbn [id_ set_commit_index set_last_applied commit_index_ last_applied_ log_]; rewrite ?El, ?H7; try done; try lia.
  - rewrite H2. unfold current_term. cbn. by rewrite Es.
  - unfold current_term. cbn. rewrite Es. eapply settled_prefix; [|exact H5]. apply take_prefix_mono. lia.
  - unfold log_saved in *. change (log_path (set_commit_index _ _)) with (log_path n1). cbn [fs_ set_commit_index set_last_applied log_].
    by rewrite Ep, Ef, El.
Qed.
End elections.
