(* ===== verification/Cluster.v ===== *)
(** * A cluster of nodes

    Several nodes and the vote requests between them as a transition system: nodes act, crash
    and restart, vote requests and their answers are delivered in any order or lost.  The nodes
    are those of [src/raft/node.cpp]; a thread that asks for a vote is an entry of the state,
    which the code's detached threads are.  Elections are safe: two leaders of one term are the
    same node. *)

From Stdlib Require Import NArith Lia.
From stdpp Require Import fin_maps fin_sets fin_map_dom.
From S2P Require Import RaftSpec.
From S2P Require Export RaftMembership.

(** ** What the other operations leave alone *)

Definition is_vote_rpc (r : Rpc) : bool := match r with RpcVote _ _ _ => true | _ => false end.
Definition vote_rpcs {SM} (n : RaftNode SM) : list Rpc := List.filter is_vote_rpc (rpcs_ n).

(** The node asks for no votes, and follows or stays in its role and term with the votes it has. *)
Definition yields {SM} (n n' : RaftNode SM) : Prop :=
  vote_rpcs n' = vote_rpcs n /\
  (role_ n' = kFollower \/
   role_ n' = role_ n /\ current_term n' = current_term n /\ votes_received_ n' = votes_received_ n).

#[export] Instance yields_preorder {SM} : PreOrder (@yields SM).
Proof.
  unfold yields. split; [intros n; tauto|]. intros n1 n2 n3 [V1 H1] [V2 H2]. split; [congruence|].
  destruct H2 as [|(R2 & T2 & C2)]; [by left|]. destruct H1 as [R1|(R1 & T1 & C1)]; [left|right]; intuition congruence.
Qed.

#[export] Hint Extern 2 (yields _ _) =>
  (split; [done|first [left; done | right; split_and!; done]]) : moves.

Section yielding.
Context {SM : Type} `{StateMachine SM}.
Implicit Types (n : RaftNode SM).

Definition elect_view n := (vote_rpcs n, role_ n, current_term n, votes_received_ n).

Lemma view_yields n n' : elect_view n' = elect_view n -> yields n n'.
Proof. unfold elect_view, yields. intros [= -> -> -> ->]. split; [done|]. by right. Qed.

Lemma keeps_yields {A} (m : ST (RaftNode SM) A) : keeps elect_view m -> moves yields m.
Proof. intros Hm n. apply view_yields, Hm. Qed.

Lemma RefreshMembership_elect : keeps elect_view RefreshMembership.
Proof.
  intros n. pose proof (RefreshMembership_core n) as E. unfold core in E. unfold elect_view, vote_rpcs, current_term. congruence.
Qed.

Lemma ApplyCommitted_elect : keeps elect_view ApplyCommitted.
Proof.
  intros n. pose proof (ApplyCommitted_frame n) as E. unfold apply_frame in E. unfold elect_view, vote_rpcs, current_term. congruence.
Qed.

Lemma AppendToLog_elect prev t new : keeps elect_view (AppendToLog prev t new : ST (RaftNode SM) bool).
Proof.
  intros n. unfold AppendToLog. rewrite run_get.
  destruct (AppendEntriesFrom prev t new (log_ n)) as [[ok [|]] l]; reflexivity.
Qed.

Lemma on_sm_elect {A} (m : ST SM A) : keeps elect_view (on_sm m).
Proof. intros n. unfold on_sm. by destruct (m (sm_ n)). Qed.

Lemma CompactLog_elect i t n : elect_view (CompactLog i t n) = elect_view n.
Proof. unfold CompactLog. destruct (CompactTo _ _ _) as [[|] l]; reflexivity. Qed.

Lemma BecomeFollower_yields env t n : yields n (BecomeFollower env t n).
Proof. unfold BecomeFollower. case_match; (split; [done|by left]). Qed.

Lemma hear_leader_yields env t leader n : yields n (hear_leader env t leader n).
Proof.
  unfold hear_leader. case_match; [|by apply view_yields]. etrans; [apply BecomeFollower_yields|by apply view_yields].
Qed.

#[local] Hint Resolve RefreshMembership_elect ApplyCommitted_elect AppendToLog_elect on_sm_elect : keeps.
#[local] Hint Extern 1 (elect_view _ = elect_view _) => repeat case_match; rewrite ?CompactLog_elect; reflexivity : keeps.
#[local] Hint Extern 1 (moves yields RefreshMembership) => apply keeps_yields, RefreshMembership_elect : moves.
#[local] Hint Extern 1 (moves yields ApplyCommitted) => apply keeps_yields, ApplyCommitted_elect : moves.
#[local] Hint Extern 1 (moves yields (AppendToLog _ _ _)) => apply keeps_yields, AppendToLog_elect : moves.
#[local] Hint Resolve BecomeFollower_yields hear_leader_yields : moves.

Lemma MaybeAdvanceCommitIndex_yields : moves yields MaybeAdvanceCommitIndex.
Proof. unfold MaybeAdvanceCommitIndex. moves. Qed.
#[local] Hint Resolve MaybeAdvanceCommitIndex_yields : moves.

Lemma HandleRequestVote_yields env req n : yields n (HandleRequestVote env req n).2.
Proof.
  unfold HandleRequestVote. case_match; [reflexivity|]. case_match; [reflexivity|].
  set (n1 := if (current_term n <? rv_term req)%N then BecomeFollower env (rv_term req) n else n).
  assert (Hn1 : yields n n1) by (unfold n1; case_match; [apply BecomeFollower_yields|reflexivity]).
  clearbody n1. case_match; [|exact Hn1]. etrans; [exact Hn1|by apply view_yields].
Qed.

Lemma SendInstallSnapshot_yields peer addr t n : yields n (SendInstallSnapshot peer addr t n).
Proof.
  apply view_yields. unfold SendInstallSnapshot, elect_view, vote_rpcs. case_match; [done|].
  cbn. by rewrite List.filter_app, app_nil_r.
Qed.

Lemma BeginReplicate_yields peer addr n : yields n (BeginReplicate peer addr n).2.
Proof.
  unfold BeginReplicate, next_of. destruct (negb _); [reflexivity|].
  destruct (decide (peer ∈ _)); [reflexivity|]. cbv zeta beta iota.
  case_match; [by apply view_yields|].
  apply view_yields. unfold elect_view, vote_rpcs. cbn. by rewrite List.filter_app, app_nil_r.
Qed.

Lemma ReplicateTo_yields peer addr n : yields n (ReplicateTo peer addr n).
Proof.
  destruct (ReplicateTo_parts peer addr n) as (n1 & -> & [-> |[t ->]]); [|etrans; [|apply SendInstallSnapshot_yields]];
    apply BeginReplicate_yields.
Qed.

Lemma ReplicateToAll_yields n : yields n (ReplicateToAll n).
Proof.
  unfold ReplicateToAll. case_match; [reflexivity|]. generalize (map_entries (peers_ n)). intros l. clear. revert n.
  induction l as [|p l IH]; intros n; [reflexivity|]. cbn [foldl]. etrans; [apply ReplicateTo_yields|apply IH].
Qed.

Lemma HandleAppendEntries_yields env req : moves yields (HandleAppendEntries env req).
Proof. unfold HandleAppendEntries. moves. Qed.

Lemma FinishInstall_yields req : moves yields (FinishInstall req : ST (RaftNode SM) _).
Proof. apply keeps_yields. unfold FinishInstall. keeps. Qed.

Lemma OnAppendResponse_yields env peer t prev sent resp : moves yields (OnAppendResponse env peer t prev sent resp).
Proof.
  unfold OnAppendResponse. apply moves_bind; [apply _|moves|]. intros _. destruct resp as [r|]; [|moves].
  apply moves_get. intros n. case_match; [reflexivity|]. case_match; [apply BecomeFollower_yields|].
  case_match; [reflexivity|]. case_match; [|apply view_yields; unfold next_of; cbn; by case_match].
  rewrite run_modify. etrans; [|apply MaybeAdvanceCommitIndex_yields]. by apply view_yields.
Qed.

Lemma OnSnapshotResponse_yields env peer t i resp n : yields n (OnSnapshotResponse env peer t i resp n).
Proof.
  unfold OnSnapshotResponse. destruct resp as [r|]; [|by apply view_yields]. case_match; [by apply view_yields|].
  case_match; [etrans; [|apply BecomeFollower_yields]; by apply view_yields|]. case_match; by apply view_yields.
Qed.

Lemma ProposeStart_yields cmd : moves yields (ProposeStart cmd).
Proof.
  unfold ProposeStart. apply moves_bind; [apply _|moves|]. intros n. case_match; [moves|].
  apply moves_bind; [apply _|moves|]. intros cc. apply moves_bind; [apply _|moves|]. intros [error|]; [moves|].
  destruct (Append _ _ _) as [i l]. moves.
Qed.

Lemma other_step_yields n n' : other_step n n' -> yields n n'.
Proof.
  destruct 1.
  - apply HandleAppendEntries_yields.
  - unfold Tick. repeat case_match; by apply view_yields.
  - apply ReplicateTo_yields.
  - apply BeginReplicate_yields.
  - apply ReplicateToAll_yields.
  - apply SendInstallSnapshot_yields.
  - apply OnAppendResponse_yields.
  - apply OnSnapshotResponse_yields.
  - unfold BeginInstall. case_match; [reflexivity|]. case_match; apply hear_leader_yields.
  - apply view_yields, on_sm_elect.
  - apply FinishInstall_yields.
  - rewrite HandleReadRequest_state. apply view_yields, on_sm_elect.
  - apply ProposeStart_yields.
Qed.

(** *** Elections *)

Definition ballot_view n := (id_ n, rpcs_ n, state_ n, votes_received_ n).

Lemma init_progress_ballot n : ballot_view (init_progress n) = ballot_view n /\ role_ (init_progress n) = role_ n.
Proof.
  unfold init_progress. generalize (map_entries (peers_ n)). intros l. revert n.
  induction l as [|p l IH]; intros n; [done|]. cbn [foldl]. by rewrite !(proj1 (IH _)), (proj2 (IH _)).
Qed.

Lemma BecomeLeader_ballot env n :
  let n' := (BecomeLeader env n).2 in
  ballot_view n' = ballot_view n /\ (role_ n' = kLeader \/ role_ n' = role_ n).
Proof.
  cbv zeta. unfold BecomeLeader. pose proof (RefreshMembership_core n) as Ec. unfold mbind, ST_bind.
  destruct (RefreshMembership n) as [r n1]. cbn [snd] in Ec. unfold core in Ec.
  destruct r as [[]|e|]; cbn [snd]; [|split; [unfold ballot_view; congruence|right; congruence]..].
  unfold st_modify. cbn [snd].
  destruct (init_progress_ballot (set_replication_in_flight ∅ (set_next_heartbeat_time (now env)
    (set_leader_hint (id_ n1) (set_role kLeader n1))))) as [-> ->]. split; [|by left].
  unfold ballot_view. cbn. congruence.
Qed.

Lemma OnVoteResponse_ballot env t resp n :
  let n' := (OnVoteResponse env t resp n).2 in
  yields n n' \/
  role_ n = kCandidate /\ t = current_term n /\ rvr_vote_granted resp = true /\
  vote_rpcs n' = vote_rpcs n /\ current_term n' = current_term n /\ votes_received_ n' = (votes_received_ n + 1)%N /\
  (role_ n' = kCandidate \/ role_ n' = kLeader /\ (N.of_nat (size (peers_ n)) + 1 < votes_received_ n' * 2)%N).
Proof.
  cbv zeta. unfold OnVoteResponse. rewrite run_get. case_match; [left; apply BecomeFollower_yields|].
  destruct (negb (bool_decide (role_ n = kCandidate)) || negb (t =? current_term n)%N) eqn:Er; [left; reflexivity|].
  apply orb_false_iff in Er as [Er Et]. apply negb_false_iff in Er, Et. apply bool_decide_eq_true in Er.
  apply N.eqb_eq in Et. destruct (rvr_vote_granted resp) eqn:Eg; [|left; reflexivity].
  rewrite run_modify, run_get. right. set (n1 := set_votes_received (votes_received_ n + 1)%N n).
  assert (E1 : rpcs_ n1 = rpcs_ n /\ state_ n1 = state_ n /\ votes_received_ n1 = (votes_received_ n + 1)%N /\
               role_ n1 = kCandidate /\ peers_ n1 = peers_ n) by done.
  clearbody n1. destruct E1 as (Erp & Est & Evo & Ero & Epe). unfold vote_rpcs, current_term in *.
  destruct (has_majority n1) eqn:Em; [|cbn; split_and!; try congruence; left; congruence].
  destruct (BecomeLeader_ballot env n1) as [Eb Hrole]. unfold ballot_view in Eb. injection Eb as Eid' Erp' Est' Evo'.
  split_and!; try congruence. destruct Hrole as [->| ->]; [right|by left]. split; [done|].
  unfold has_majority in Em. apply N.ltb_lt in Em. rewrite Evo', <- Epe. exact Em.
Qed.

Definition vote_request n (t : Term) : RequestVoteRequest :=
  {| rv_term := t; rv_candidate_id := id_ n; rv_last_log_index := LastIndex (log_ n); rv_last_log_term := LastTerm (log_ n) |}.

Lemma StartElection_ballot env n :
  (current_term n + 1 < two64)%N ->
  let n1 := (RefreshMembership n).2 in let n' := (StartElection env n).2 in let t := (current_term n + 1)%N in
  (elect_view n' = elect_view n /\ rpcs_ n' = rpcs_ n) \/
  current_term n' = t /\ voted_for n' = Some (id_ n) /\ votes_received_ n' = 1%N /\
  (role_ n' = kCandidate /\
     rpcs_ n' = rpcs_ n ++ map (fun p => RpcVote p.2 t (vote_request n t)) (map_entries (peers_ n1)) \/
   (role_ n' = kCandidate \/ role_ n' = kLeader) /\ rpcs_ n' = rpcs_ n /\ size (peers_ n1) = 0%nat).
Proof.
  intros Ht. cbv zeta. unfold StartElection. pose proof (RefreshMembership_core n) as Ec.
  pose proof (RefreshMembership_elect n) as Ee.
  match goal with |- context [RefreshMembership ≫= ?f] => set (K := f) end.
  assert (HK : ((RefreshMembership ≫= K) n).2 =
               match RefreshMembership n with (Ret a, n1) => (K a n1).2 | (_, n1) => n1 end).
  { unfold mbind, ST_bind. by destruct (RefreshMembership n) as [[a|e|] n1]. }
  rewrite HK. clear HK. destruct (RefreshMembership n) as [r n1]. cbn [snd] in *. unfold core in Ec.
  assert (Erpcs : rpcs_ n1 = rpcs_ n) by congruence.
  destruct r as [[]|e|]; [|left; split; [exact Ee|exact Erpcs]..].
  unfold K. clear K. rewrite run_get. destruct (negb (self_is_member_ n1)).
  { left. split; [exact Ee|exact Erpcs]. }
  rewrite !run_modify, run_get. right.
  assert (Eterm : u64_add (current_term n1) 1 = (current_term n + 1)%N).
  { assert (current_term n1 = current_term n) as -> by (unfold current_term; congruence).
    unfold u64_add, u64. by apply N.mod_small. }
  set (n2 := ResetElectionDeadline env _). assert (E2 : current_term n2 = (current_term n + 1)%N) by exact Eterm.
  assert (Ev2 : voted_for n2 = Some (id_ n)) by (cbn; congruence).
  assert (Ei2 : id_ n2 = id_ n) by (cbn; congruence). assert (Ep2 : peers_ n2 = peers_ n1) by done.
  assert (Er2 : rpcs_ n2 = rpcs_ n) by (cbn; congruence). assert (El2 : log_ n2 = log_ n) by (cbn; congruence).
  assert (Erole : role_ n2 = kCandidate /\ votes_received_ n2 = 1%N) by done. clearbody n2. destruct Erole as [Erole Evotes].
  destruct (has_majority n2) eqn:Em.
  - destruct (BecomeLeader_ballot env n2) as [Eb Hrole]. unfold ballot_view in Eb. injection Eb as Eid Erp Est Evo.
    unfold current_term, voted_for in *. rewrite Est. split_and!; [done|done|congruence|]. right. split_and!.
    + destruct Hrole as [->| ->]; [by right|by left].
    + congruence.
    + unfold has_majority in Em. apply N.ltb_lt in Em. rewrite Ep2, Evotes in Em. lia.
  - cbn. split_and!; [exact E2|exact Ev2|exact Evotes|]. left. split; [exact Erole|].
    unfold vote_request. by rewrite Er2, E2, Ep2, Ei2, El2.
Qed.
End yielding.

(** ** Clusters *)

(** A thread that asks a peer for a vote: the request is on its way, or the answer is. *)
Inductive phase := Asked (req : RequestVoteRequest) | Answered (resp : RequestVoteResponse).

Section cluster.
Context {SM : Type} `{StateMachine SM}.

(** The node that listens at an address. *)
Context (book : PeerAddress -> NodeId).

(** The nodes, and the threads of each candidate by its id, the term and the peer asked. *)
Record cluster := Cluster { nodes : gmap N (RaftNode SM); threads : gmap (N * N * N) phase }.

(** The threads a node starts become part of the cluster. *)
Definition start_thread (i : N) (ths : gmap (N * N * N) phase) (r : Rpc) : gmap (N * N * N) phase :=
  match r with RpcVote addr t req => <[(i, t, book addr) := Asked req]> ths | _ => ths end.

Definition act (i : N) (n n' : RaftNode SM) (c : cluster) : cluster :=
  Cluster (<[i := n']> (nodes c))
    (foldl (start_thread i) (threads c) (drop (length (vote_rpcs n)) (vote_rpcs n'))).

Inductive cluster_step (c : cluster) : cluster -> Prop :=
| cluster_other i n n' : nodes c !! i = Some n -> other_step n n' -> cluster_step c (act i n n' c)
| cluster_election i n env :
    nodes c !! i = Some n -> (current_term n + 1 < two64)%N -> cluster_step c (act i n (StartElection env n).2 c)
| cluster_restart i n n' own peers joining sm :
    nodes c !! i = Some n ->
    new_node (id_ n) own peers (state_dir_ n) joining sm (files (fs_ n)) = Ret n' -> cluster_step c (act i n n' c)
| cluster_vote i t p n env req :
    threads c !! (i, t, p) = Some (Asked req) -> nodes c !! p = Some n ->
    cluster_step c (Cluster (<[p := (HandleRequestVote env req n).2]> (nodes c))
                      (<[(i, t, p) := Answered (HandleRequestVote env req n).1]> (threads c)))
| cluster_answer i t p n env resp :
    threads c !! (i, t, p) = Some (Answered resp) -> nodes c !! i = Some n ->
    cluster_step c (Cluster (<[i := (OnVoteResponse env t resp n).2]> (nodes c)) (delete (i, t, p) (threads c)))
| cluster_lost key : cluster_step c (Cluster (nodes c) (delete key (threads c))).

(** The node works with the members [M], and so does the log it has. *)
Record agreed (M : gset N) (n : RaftNode SM) : Prop := {
  agreed_self : id_ n ∈ M;
  agreed_peers : dom (peers_ n) = M ∖ {[id_ n]};
  agreed_log : dom (peers_ (RefreshMembership n).2) = M ∖ {[id_ n]};
  agreed_book : map_Forall (fun p a => book a = p) (peers_ (RefreshMembership n).2);
}.

Definition fixed (M : gset N) (c : cluster) : Prop := map_Forall (fun _ n => agreed M n) (nodes c).

(** Nodes that have just been constructed. *)
Definition initial (c : cluster) : Prop :=
  threads c = ∅ /\ map_Forall (fun i n => id_ n = i /\ role_ n = kFollower /\ hard_ok n) (nodes c).

(** ** The invariant *)

(** [votes] are the votes ever cast: voter, term, candidate. *)
Record election_inv (M : gset N) (votes : gset (N * N * N)) (c : cluster) : Prop := {
  inv_nodes i n : nodes c !! i = Some n -> id_ n = i /\ hard_ok n;
  inv_cast p t k : (p, t, k) ∈ votes -> exists n, nodes c !! p = Some n /\
    ((t < current_term n)%N \/ t = current_term n /\ voted_for n = Some k);
  inv_once p t k k' : (p, t, k) ∈ votes -> (p, t, k') ∈ votes -> k = k';
  inv_threads i t p ph : threads c !! (i, t, p) = Some ph -> p ∈ M /\ p <> i /\
    (exists n, nodes c !! i = Some n /\ (t <= current_term n)%N) /\
    match ph with
    | Asked req => rv_term req = t /\ rv_candidate_id req = i /\ (t < two64)%N /\ (i < two32)%N
    | Answered resp => (rvr_term resp < two64)%N /\ (rvr_vote_granted resp = true -> (p, t, i) ∈ votes)
    end;
  inv_ballots i n : nodes c !! i = Some n -> role_ n <> kFollower -> exists Q : gset N, Q ⊆ M /\
    (forall p, p ∈ Q -> (p, current_term n, i) ∈ votes /\ threads c !! (i, current_term n, p) = None) /\
    (role_ n = kCandidate -> (votes_received_ n <= N.of_nat (size Q))%N) /\
    (role_ n = kLeader -> (size M < 2 * size Q)%nat);
}.

(** A node that only yields, while threads of its own may end. *)
Lemma inv_yields M votes c i n n' ths :
  election_inv M votes c -> nodes c !! i = Some n -> id_ n' = id_ n -> hard_ok n' -> later n n' ->
  (role_ n' = kFollower \/ role_ n' = role_ n /\ current_term n' = current_term n /\ votes_received_ n' = votes_received_ n) ->
  ths ⊆ threads c -> election_inv M votes (Cluster (<[i := n']> (nodes c)) ths).
Proof.
  intros [In Ic Io It Ib] Hi Hid Hok Hl Hy Hths.
  assert (Hcast : forall t k, (t < current_term n)%N \/ t = current_term n /\ voted_for n = Some k ->
    (t < current_term n')%N \/ t = current_term n' /\ voted_for n' = Some k).
  { intros t k. unfold later in Hl. intros [?|[-> ?]]; destruct Hl as [?|[-> [?|?]]]; [left; lia|left; lia|left; lia|by left|congruence|right; split; congruence]. }
  assert (Hterm : (current_term n <= current_term n')%N) by (unfold later in Hl; destruct Hl as [?|[-> _]]; lia).
  split; cbn.
  - intros j m. destruct (decide (i = j)) as [<-|Hne]; [|rewrite lookup_insert_ne by done; apply In].
    rewrite lookup_insert_eq. intros [= <-]. destruct (In i n Hi). split; [congruence|done].
  - intros p t k Hv. destruct (Ic p t k Hv) as (m & Hm & Hc). destruct (decide (i = p)) as [<-|Hne].
    + rewrite lookup_insert_eq. simplify_eq. eauto.
    + rewrite lookup_insert_ne by done. eauto.
  - exact Io.
  - intros j t p ph Ht. assert (Ht' : threads c !! (j, t, p) = Some ph) by (by eapply lookup_weaken).
    destruct (It _ _ _ _ Ht') as (Hp & Hne & (m & Hm & Hle) & Hph). split_and!; [done|done| |done].
    destruct (decide (i = j)) as [<-|Hij].
    + rewrite lookup_insert_eq. exists n'. split; [done|]. simplify_eq. lia.
    + rewrite lookup_insert_ne by done. eauto.
  - assert (Hnone : forall k, threads c !! k = None -> ths !! k = None) by (intros k Hk; by eapply lookup_weaken_None).
    intros j m. destruct (decide (i = j)) as [<-|Hij].
    + rewrite lookup_insert_eq. intros [= <-] Hr. destruct Hy as [?|(Er & Et & Ev)]; [done|].
      rewrite Er in Hr. destruct (Ib i n Hi Hr) as (Q & HQ & Hq & Hcand & Hlead).
      exists Q. rewrite Er, Et, Ev. split_and!; try done. intros p Hp. destruct (Hq p Hp). auto.
    + rewrite lookup_insert_ne by done. intros Hm Hr. destruct (Ib j m Hm Hr) as (Q & HQ & Hq & ?).
      exists Q. split_and!; try done; [|tauto..]. intros p Hp. destruct (Hq p Hp). auto.
Qed.

(** The threads of an election. *)
Lemma start_threads_lookup i t req (l : list (N * PeerAddress)) ths key ph :
  Forall (fun p => book p.2 = p.1) l ->
  foldl (start_thread i) ths (map (fun p => RpcVote p.2 t req) l) !! key = Some ph ->
  ths !! key = Some ph \/ exists p, p ∈ l.*1 /\ key = (i, t, p) /\ ph = Asked req.
Proof.
  intros Hb. revert ths. induction Hb as [|p l Hp Hb IH]; intros ths; cbn; [by left|]. intros Hk.
  destruct (IH _ Hk) as [Hk'|(q & Hq & ? & ?)].
  - rewrite Hp in Hk'. destruct (decide ((i, t, p.1) = key)) as [<-|Hne].
    + rewrite lookup_insert_eq in Hk'. right. exists p.1. injection Hk' as <-. split_and!; [by left|done|done].
    + rewrite lookup_insert_ne in Hk' by done. by left.
  - right. exists q. split_and!; [by right|done|done].
Qed.

(** What votes say when a node has voted for itself in its next term. *)
Lemma cast_candidate M votes c i n n' : election_inv M votes c -> nodes c !! i = Some n -> id_ n = i ->
  current_term n' = (current_term n + 1)%N -> voted_for n' = Some i ->
  (forall p t k, (p, t, k) ∈ {[(i, current_term n', i)]} ∪ votes -> exists m, <[i := n']> (nodes c) !! p = Some m /\
    ((t < current_term m)%N \/ t = current_term m /\ voted_for m = Some k)) /\
  forall p t k k', (p, t, k) ∈ {[(i, current_term n', i)]} ∪ votes -> (p, t, k') ∈ {[(i, current_term n', i)]} ∪ votes -> k = k'.
Proof.
  intros [_ Ic Io _ _] Hi Eid Et Ev.
  assert (Hnew : forall t k, (i, t, k) ∈ votes -> (t < current_term n')%N).
  { intros t k Hv. destruct (Ic i t k Hv) as (m & Hm & Hc). simplify_eq. rewrite Et. destruct Hc as [?|[-> _]]; lia. }
  split.
  - intros p t k. rewrite elem_of_union, elem_of_singleton. intros [[= -> -> ->]|Hv].
    + rewrite lookup_insert_eq. exists n'. split; [done|]. by right.
    + destruct (decide (i = p)) as [<-|Hne].
      * rewrite lookup_insert_eq. exists n'. split; [done|]. left. by eapply Hnew.
      * rewrite lookup_insert_ne by done. by apply Ic.
  - intros p t k k'. rewrite !elem_of_union, !elem_of_singleton. intros [[= -> -> ->]|Hv] [E|Hv'].
    + by injection E as ->.
    + specialize (Hnew _ _ Hv'). lia.
    + injection E as -> -> ->. specialize (Hnew _ _ Hv). lia.
    + by eapply Io.
Qed.

(** A node that has become a candidate, and maybe leader alone. *)
Lemma inv_candidate M votes c i n n' l :
  election_inv M votes c -> nodes c !! i = Some n -> agreed M n -> id_ n' = id_ n -> hard_ok n' ->
  current_term n' = (current_term n + 1)%N -> (current_term n + 1 < two64)%N -> voted_for n' = Some (id_ n) ->
  votes_received_ n' = 1%N -> (role_ n' = kLeader -> size M = 1%nat) ->
  Forall (fun p => book p.2 = p.1 /\ p.1 ∈ M /\ p.1 <> i) l ->
  election_inv M ({[(i, current_term n', i)]} ∪ votes)
    (Cluster (<[i := n']> (nodes c))
       (foldl (start_thread i) (threads c) (map (fun p => RpcVote p.2 (current_term n') (vote_request n (current_term n'))) l))).
Proof.
  intros [In Ic Io It Ib] Hi Hag Hid Hok Et Hlt Ev Hvr Hlead Hl. destruct (In i n Hi) as [Eid Hokn].
  assert (Hb : Forall (fun p : N * PeerAddress => book p.2 = p.1) l) by (eapply Forall_impl; [exact Hl|by intros p [? _]]).
  destruct (cast_candidate M votes c i n n') as [Hcast Honce]; [by split|done|done|done|congruence|].
  split; cbn.
  - intros j m. destruct (decide (i = j)) as [<-|Hne]; [|rewrite lookup_insert_ne by done; apply In].
    rewrite lookup_insert_eq. intros [= <-]. split; [congruence|done].
  - exact Hcast.
  - exact Honce.
  - intros j t p ph Hth. apply (start_threads_lookup _ _ _ _ _ _ _ Hb) in Hth as [Hth|(q & Hq & [= -> -> ->] & ->)].
    + destruct (It _ _ _ _ Hth) as (Hp & Hne & (m & Hm & Hle) & Hph). split_and!; [done|done| |].
      * destruct (decide (i = j)) as [<-|Hij].
        -- rewrite lookup_insert_eq. exists n'. split; [done|]. simplify_eq. lia.
        -- rewrite lookup_insert_ne by done. eauto.
      * destruct ph; [done|]. destruct Hph as [? Hg]. split; [done|]. intros. apply elem_of_union_r. auto.
    + apply list_elem_of_fmap in Hq as ([q' a] & -> & Hq). rewrite Forall_forall in Hl. destruct (Hl _ Hq) as (_ & HM & Hne).
      split; [done|split; [done|split]].
      * rewrite lookup_insert_eq. exists n'. split; [done|]. lia.
      * cbn. split_and!; [done|exact Eid|lia|]. rewrite <- Eid. apply (hard_id _ Hokn).
  - intros j m. destruct (decide (i = j)) as [<-|Hij].
    + rewrite lookup_insert_eq. intros [= <-] Hr. exists {[i]}. split_and!.
      * apply singleton_subseteq_l. rewrite <- Eid. apply Hag.
      * intros p ->%elem_of_singleton. split; [set_solver|].
        destruct (foldl _ _ _ !! _) as [ph|] eqn:E; [|done]. exfalso.
        apply (start_threads_lookup _ _ _ _ _ _ _ Hb) in E as [E|(q & Hq & [= <-] & _)].
        -- destruct (It _ _ _ _ E) as (_ & ? & _). done.
        -- apply list_elem_of_fmap in Hq as ([q' a] & -> & Hq). rewrite Forall_forall in Hl. by destruct (Hl _ Hq) as (_ & _ & ?).
      * intros _. rewrite size_singleton, Hvr. done.
      * intros HL. rewrite size_singleton, (Hlead HL). lia.
    + rewrite lookup_insert_ne by done. intros Hm Hr. destruct (Ib j m Hm Hr) as (Q & HQ & Hq & ?).
      exists Q. split_and!; try done; [|tauto..]. intros p Hp. destruct (Hq p Hp) as [? Hn]. split; [set_solver|].
      destruct (foldl _ _ _ !! _) as [ph|] eqn:E; [|done]. exfalso.
      apply (start_threads_lookup _ _ _ _ _ _ _ Hb) in E as [E|(q & _ & [= ? _ _] & _)]; congruence.
Qed.

(** A voter has answered. *)
Lemma inv_answered M votes c i t p req resp :
  election_inv M votes c -> threads c !! (i, t, p) = Some (Asked req) -> (rvr_term resp < two64)%N ->
  (rvr_vote_granted resp = true -> exists n, nodes c !! p = Some n /\ t = current_term n /\ voted_for n = Some i) ->
  election_inv M ((if rvr_vote_granted resp then {[(p, t, i)]} else ∅) ∪ votes)
    (Cluster (nodes c) (<[(i, t, p) := Answered resp]> (threads c))).
Proof.
  intros [In Ic Io It Ib] Hth Hrt Hg.
  set (V := if rvr_vote_granted resp then _ else _).
  assert (HV : forall v, v ∈ V -> v = (p, t, i) /\ rvr_vote_granted resp = true).
  { intros v. unfold V. destruct (rvr_vote_granted resp); set_solver. }
  assert (Hfun : forall k, rvr_vote_granted resp = true -> (p, t, k) ∈ votes -> k = i).
  { intros k Hgr Hv. destruct (Hg Hgr) as (n & Hn & -> & Hvf). destruct (Ic _ _ _ Hv) as (n' & Hn' & Hc). simplify_eq.
    destruct Hc as [?|[_ ?]]; [lia|congruence]. }
  split; cbn.
  - exact In.
  - intros q u k. rewrite elem_of_union. intros [[[= -> -> ->] Hgr]%HV|Hv]; [|by apply Ic].
    destruct (Hg Hgr) as (n & Hn & Ht & Hvf). eauto.
  - intros q u k k'. rewrite !elem_of_union. intros [[E Hgr]%HV|Hv] [[E' Hgr']%HV|Hv'].
    + congruence.
    + injection E as -> -> ->. symmetry. by apply Hfun.
    + injection E' as -> -> ->. by apply Hfun.
    + by eapply Io.
  - intros j u q ph. destruct (decide ((i, t, p) = (j, u, q))) as [[= <- <- <-]|Hne].
    + rewrite lookup_insert_eq. intros [= <-]. destruct (It _ _ _ _ Hth) as (Hp & Hpi & Hn & _). split_and!; try done.
      intros Hgr. apply elem_of_union_l. unfold V. rewrite Hgr. by apply elem_of_singleton.
    + rewrite lookup_insert_ne by done. intros Hk. destruct (It _ _ _ _ Hk) as (? & ? & ? & Hph). split; [done|split; [done|split; [done|]]].
      destruct ph; [done|]. destruct Hph as [? Hgr]. split; [done|]. intros. apply elem_of_union_r. auto.
  - intros j n Hn Hr. destruct (Ib j n Hn Hr) as (Q & HQ & Hq & ?). exists Q. split_and!; try done; [|tauto..].
    intros q Hqq. destruct (Hq q Hqq) as [? Hnone]. split; [by apply elem_of_union_r|].
    rewrite lookup_insert_ne; [done|]. intros [= -> -> ->]. congruence.
Qed.

(** A candidate has counted a vote. *)
Lemma inv_counted M votes c i p resp n n' :
  election_inv M votes c -> nodes c !! i = Some n -> agreed M n ->
  threads c !! (i, current_term n, p) = Some (Answered resp) -> rvr_vote_granted resp = true ->
  id_ n' = id_ n -> hard_ok n' -> later n n' -> role_ n = kCandidate ->
  current_term n' = current_term n -> votes_received_ n' = (votes_received_ n + 1)%N ->
  (role_ n' = kCandidate \/ role_ n' = kLeader /\ (N.of_nat (size (peers_ n)) + 1 < votes_received_ n' * 2)%N) ->
  election_inv M votes (Cluster (<[i := n']> (nodes c)) (delete (i, current_term n, p) (threads c))).
Proof.
  intros Hinv Hi Hag Hth Hgr Hid Hok Hl Hr Et Ev Hrole.
  destruct (inv_ballots _ _ _ Hinv i n Hi) as (Q & HQ & Hq & Hcand & _); [congruence|]. specialize (Hcand Hr).
  destruct (inv_threads _ _ _ Hinv _ _ _ _ Hth) as (Hp & Hpi & _ & _ & Hvote). specialize (Hvote Hgr).
  destruct (inv_nodes _ _ _ Hinv i n Hi) as [Eid _].
  assert (HpQ : p ∉ Q) by (intros Hin; destruct (Hq p Hin); congruence).
  assert (Hsize : size M = S (size (peers_ n))).
  { rewrite <- (size_dom (D := gset N) (peers_ n)), (agreed_peers _ _ Hag).
    rewrite size_difference by (apply singleton_subseteq_l, Hag). rewrite size_singleton.
    assert (size M <> 0)%nat; [|lia]. apply size_non_empty_iff. intros E. apply (not_elem_of_empty (C := gset N) p).
    rewrite <- E. exact Hp. }
  pose proof (inv_yields M votes c i n (set_role kFollower n') (delete (i, current_term n, p) (threads c))) as H0.
  destruct H0 as [In Ic Io It Ib]; [done|done|done| | | |apply delete_subseteq|].
  { destruct Hok as [Hr1 Hr2 Hr3]. by split. }
  { exact Hl. }
  { by left. }
  cbn in In, Ic, It, Ib. split; cbn.
  - intros j m. destruct (decide (i = j)) as [<-|Hne]; [|rewrite lookup_insert_ne by done; apply Hinv].
    rewrite lookup_insert_eq. intros [= <-]. split; [congruence|done].
  - intros q t k Hv. destruct (Ic q t k Hv) as (m & Hm & Hc). destruct (decide (i = q)) as [<-|Hne].
    + rewrite lookup_insert_eq in Hm |- *. exists n'. split; [done|]. by injection Hm as <-.
    + rewrite lookup_insert_ne in Hm |- * by done. eauto.
  - exact Io.
  - intros j t q ph Hk. destruct (It _ _ _ _ Hk) as (H1 & H2 & (m & Hm & Hle) & H3). split_and!; [done|done| |done].
    destruct (decide (i = j)) as [<-|Hne].
    + rewrite lookup_insert_eq in Hm |- *. exists n'. split; [done|]. by injection Hm as <-.
    + rewrite lookup_insert_ne in Hm |- * by done. eauto.
  - intros j m. destruct (decide (i = j)) as [<-|Hne].
    + rewrite lookup_insert_eq. intros [= <-] _. exists ({[p]} ∪ Q).
      assert (Hs : size ({[p]} ∪ Q) = S (size Q)) by (rewrite size_union, size_singleton by set_solver; done).
      rewrite Hs, Et, Ev. split_and!.
      * set_solver.
      * intros q. rewrite elem_of_union, elem_of_singleton. intros [->|Hqq].
        -- split; [done|]. apply lookup_delete_eq.
        -- destruct (Hq q Hqq). split; [done|]. by rewrite lookup_delete_ne by naive_solver.
      * intros _. lia.
      * intros HL. destruct Hrole as [?|[_ Hm]]; [congruence|]. rewrite Ev in Hm. lia.
    + rewrite lookup_insert_ne by done. intros Hm Hrm. apply Ib; [by rewrite lookup_insert_ne|done].
Qed.

(** Each kind of step keeps the invariant. *)
Lemma election_step M votes c i n env :
  election_inv M votes c -> agreed M n -> nodes c !! i = Some n -> (current_term n + 1 < two64)%N ->
  let n' := (StartElection env n).2 in
  election_inv M (if decide (current_term n' = current_term n) then votes else {[(i, current_term n', i)]} ∪ votes) (act i n n' c).
Proof.
  intros Hinv Hag Hi Ht. cbv zeta. destruct (inv_nodes _ _ _ Hinv i n Hi) as [Eid Hok].
  destruct (StartElection_vote_le env n Ht) as (Hid & _ & Hl). destruct (Hl Hok) as [Hok' L]. unfold act.
  destruct (StartElection_ballot env n Ht) as [[Ev _]|(Et & Evf & Evr & Hrole)].
  { rewrite decide_True by (unfold elect_view in Ev; congruence). destruct (view_yields _ _ Ev) as [Ev' Hy].
    rewrite Ev', drop_all. cbn [foldl]. by apply (inv_yields M votes c i n). }
  rewrite decide_False by (rewrite Et; lia).
  set (n' := (StartElection env n).2) in *. clearbody n'.
  pose proof (agreed_size M (id_ n) _ (agreed_self _ _ Hag) (agreed_log _ _ Hag)) as HM.
  assert (exists l, drop (length (vote_rpcs n)) (vote_rpcs n') =
    map (fun p => RpcVote p.2 (current_term n') (vote_request n (current_term n'))) l /\
    (l = [] \/ l = map_entries (peers_ (RefreshMembership n).2))) as (l & -> & Hl').
  { unfold vote_rpcs. rewrite Et. destruct Hrole as [[_ Er]|[_ [Er _]]]; rewrite Er.
    - exists (map_entries (peers_ (RefreshMembership n).2)). split; [|by right]. rewrite List.filter_app, drop_app_length.
      clear. induction (map_entries _) as [|p l IH]; [done|]. cbn. by rewrite IH.
    - exists []. split; [by rewrite drop_all|by left]. }
  apply inv_candidate; try done.
  - intros Hlead. destruct Hrole as [[? _]|(_ & _ & Hs)]; [congruence|lia].
  - destruct Hl' as [->| ->]; [constructor|]. apply Forall_forall. intros [q a] Hq. apply elem_of_map_entries in Hq. cbn.
    assert (Hd : q ∈ M ∖ {[id_ n]}) by (rewrite <- (agreed_log _ _ Hag); by apply elem_of_dom; eexists).
    split_and!; [by apply (agreed_book _ _ Hag)|set_solver|set_solver].
Qed.

Lemma restart_step M votes c i n n' own peers joining sm :
  election_inv M votes c -> nodes c !! i = Some n ->
  new_node (id_ n) own peers (state_dir_ n) joining sm (files (fs_ n)) = Ret n' -> election_inv M votes (act i n n' c).
Proof.
  intros Hinv Hi Hnew. destruct (inv_nodes _ _ _ Hinv i n Hi) as [Eid Hok].
  destruct (new_node_vote_le n n' own peers joining sm Hnew) as (Hid & _ & Hl). destruct (Hl Hok) as [Hok' L].
  assert (rpcs_ n' = [] /\ role_ n' = kFollower) as [Er Ero].
  { clear -Hnew. revert Hnew. unfold new_node. cbv zeta. destruct (MembershipState.Load _ _) as [m|e|]; cbn [mbind outcome_bind]; [|done..].
    intros [= <-]. by destruct (MembershipState.has_file m). }
  assert (Ev : vote_rpcs n' = []) by (unfold vote_rpcs; by rewrite Er).
  unfold act. rewrite Ev, drop_nil. apply (inv_yields M votes c i n); try done. by left.
Qed.

Lemma vote_step M votes c i t p n env req :
  election_inv M votes c -> threads c !! (i, t, p) = Some (Asked req) -> nodes c !! p = Some n ->
  election_inv M ((if rvr_vote_granted (HandleRequestVote env req n).1 then {[(p, t, i)]} else ∅) ∪ votes)
    (Cluster (<[p := (HandleRequestVote env req n).2]> (nodes c))
       (<[(i, t, p) := Answered (HandleRequestVote env req n).1]> (threads c))).
Proof.
  intros Hinv Hth Hp. destruct (inv_threads _ _ _ Hinv _ _ _ _ Hth) as (HpM & Hpi & _ & Ert & Erc & Htl & Hil).
  destruct (inv_nodes _ _ _ Hinv p n Hp) as [Eid Hok].
  destruct (HandleRequestVote_vote_le env req n) as (Hid & _ & Hl); [congruence|congruence|].
  destruct (Hl Hok) as [Hok' L]. destruct (HandleRequestVote_yields env req n) as [_ Hy].
  pose proof (inv_yields M votes c p n _ (threads c) Hinv Hp Hid Hok' L Hy (reflexivity _)) as Hinv'.
  apply (inv_answered M votes _ i t p req _ Hinv'); [done| |].
  - pose proof (HandleRequestVote_spec env req n) as Hs. destruct (HandleRequestVote env req n) as [resp n'].
    cbn [fst]. destruct Hs as (_ & -> & _). apply (hard_range _ Hok').
  - intros Hg. exists (HandleRequestVote env req n).2. cbn. rewrite lookup_insert_eq.
    destruct (HandleRequestVote_grant env req n _ _ (surjective_pairing _) Hg) as (_ & _ & Et & _ & Ev). split; [done|].
    split; congruence.
Qed.

Lemma answer_step M votes c i t p n env resp :
  election_inv M votes c -> agreed M n -> threads c !! (i, t, p) = Some (Answered resp) -> nodes c !! i = Some n ->
  election_inv M votes (Cluster (<[i := (OnVoteResponse env t resp n).2]> (nodes c)) (delete (i, t, p) (threads c))).
Proof.
  intros Hinv Hag Hth Hi. destruct (inv_threads _ _ _ Hinv _ _ _ _ Hth) as (HpM & Hpi & _ & Hrt & Hg).
  destruct (inv_nodes _ _ _ Hinv i n Hi) as [Eid Hok]. destruct (OnVoteResponse_vote_le env t resp n Hrt) as (Hid & _ & Hl).
  destruct (Hl Hok) as [Hok' L].
  destruct (OnVoteResponse_ballot env t resp n) as [[_ Hy]|(Hr & -> & Hgr & _ & Et & Ev & Hrole)].
  - apply (inv_yields M votes c i n); try done. apply delete_subseteq.
  - by apply (inv_counted M votes c i p resp n).
Qed.

Lemma lost_step M votes c key : election_inv M votes c -> election_inv M votes (Cluster (nodes c) (delete key (threads c))).
Proof.
  intros [In Ic Io It Ib]. split; cbn; [done|done|done| |].
  - intros i t p ph Hk. apply lookup_delete_Some in Hk as [_ Hk]. by apply It.
  - intros i n Hi Hr. destruct (Ib i n Hi Hr) as (Q & HQ & Hq & ?). exists Q. split_and!; try done; [|tauto..].
    intros p Hp. destruct (Hq p Hp). split; [done|]. by apply lookup_delete_None; right.
Qed.

Lemma other_inv M votes c i n n' :
  election_inv M votes c -> nodes c !! i = Some n -> other_step n n' -> election_inv M votes (act i n n' c).
Proof.
  intros Hinv Hi Ho. destruct (inv_nodes _ _ _ Hinv i n Hi) as [_ Hok]. destruct (other_step_vote_le _ _ Ho) as (Hid & _ & Hl).
  destruct (Hl Hok) as [Hok' L]. destruct (other_step_yields _ _ Ho) as [Ev Hy].
  unfold act. rewrite Ev, drop_all. by apply (inv_yields M votes c i n).
Qed.

Lemma step_inv M votes c c' : election_inv M votes c -> fixed M c -> cluster_step c c' -> exists votes', election_inv M votes' c'.
Proof.
  intros Hinv Hfix Hstep. destruct Hstep as [i n n' Hi Ho|i n env Hi Ht| | |i t p n env resp Hth Hi|key].
  - exists votes. by apply other_inv.
  - eexists. apply (election_step M votes); [done|by apply (Hfix i)|done|done].
  - exists votes. by eapply restart_step.
  - eexists. by eapply vote_step.
  - exists votes. apply answer_step; [done|by apply (Hfix i)|done|done].
  - exists votes. by apply lost_step.
Qed.

Lemma initial_inv M c : initial c -> election_inv M ∅ c.
Proof.
  intros [Et Hn]. split.
  - intros i n Hi. destruct (Hn i n Hi) as (? & _ & ?). done.
  - intros p t k Hv. by apply not_elem_of_empty in Hv.
  - intros p t k k' Hv. by apply not_elem_of_empty in Hv.
  - intros i t p ph. by rewrite Et, lookup_empty.
  - intros i n Hi Hr. by destruct (Hn i n Hi) as (_ & ? & _).
Qed.

(** An execution in which the membership is never anything but [M]. *)
Definition fixed_step (M : gset N) (c c' : cluster) : Prop := cluster_step c c' /\ fixed M c'.

Lemma execution_inv M c c' votes : election_inv M votes c -> fixed M c -> rtc (fixed_step M) c c' ->
  exists votes', election_inv M votes' c'.
Proof.
  intros Hinv Hfix Hs. revert votes Hinv Hfix. induction Hs as [c|c1 c2 c3 [H12 Hf2] _ IH]; intros votes Hinv Hfix; [by exists votes|].
  destruct (step_inv _ _ _ _ Hinv Hfix H12) as (votes2 & Hinv2). by eapply IH.
Qed.
End cluster.

(** ** Properties *)

(** C6: elections are safe. Start any number of nodes and let them act, crash, restart, stand for
    election, and let their vote requests and the answers be delivered in any order, delayed or
    lost: as long as the membership stays the same, whenever two nodes are leaders of the same
    term they are the same node. *)
Theorem election_safety {SM} `{StateMachine SM} book (M : gset N) (c0 c : cluster) i j (ni nj : RaftNode SM) :
  initial c0 -> fixed book M c0 -> rtc (fixed_step book M) c0 c ->
  nodes c !! i = Some ni -> nodes c !! j = Some nj -> role_ ni = kLeader -> role_ nj = kLeader ->
  current_term ni = current_term nj -> i = j.
Proof.
  intros H0 Hf Hs Hi Hj Ri Rj Et. destruct (execution_inv book M c0 c ∅ (initial_inv M c0 H0) Hf Hs) as (votes & Hinv).
  destruct (inv_ballots _ _ _ Hinv i ni Hi) as (Q1 & HQ1 & Hq1 & _ & L1); [congruence|].
  destruct (inv_ballots _ _ _ Hinv j nj Hj) as (Q2 & HQ2 & Hq2 & _ & L2); [congruence|].
  destruct (majorities_meet M Q1 Q2 HQ1 HQ2 (L1 Ri) (L2 Rj)) as (p & P1 & P2).
  destruct (Hq1 p P1) as [V1 _]. destruct (Hq2 p P2) as [V2 _]. rewrite Et in V1. by eapply (inv_once _ _ _ Hinv).
Qed.

(** Three nodes, at the ports of their ids; node 1 is elected with the vote of node 2. *)
Definition port_book (a : PeerAddress) : NodeId := port a.
Definition member_address (i : N) : PeerAddress := {| host := str "h"; port := i |}.

Definition member (i : N) (peers : list N) : RaftNode test_sm :=
  match new_node i (member_address i) (list_to_map (map (fun p => (p, member_address p)) peers)) (str "d") false [] ∅ with
  | Ret n => n
  | _ => test_node
  end.

Definition three : cluster :=
  Cluster (list_to_map [(1%N, member 1 [2; 3]%N); (2%N, member 2 [1; 3]%N); (3%N, member 3 [1; 2]%N)]) ∅.

Definition node_of (i : N) (c : cluster (SM := test_sm)) : RaftNode test_sm := default test_node (nodes c !! i).
Definition standing : cluster := act port_book 1 (node_of 1 three) (StartElection test_env (node_of 1 three)).2 three.
Definition the_request : RequestVoteRequest := vote_request (node_of 1 three) 1.
Definition voted : cluster :=
  Cluster (<[2%N := (HandleRequestVote test_env the_request (node_of 2 standing)).2]> (nodes standing))
    (<[(1, 1, 2)%N := Answered (HandleRequestVote test_env the_request (node_of 2 standing)).1]> (threads standing)).
Definition elected : cluster :=
  Cluster (<[1%N := (OnVoteResponse test_env 1 {| rvr_term := 1; rvr_vote_granted := true |} (node_of 1 voted)).2]> (nodes voted))
    (delete (1, 1, 2)%N (threads voted)).

(** A computable form of [fixed]. *)
Definition agreedb {SM} `{StateMachine SM} (book : PeerAddress -> NodeId) (M : gset N) (n : RaftNode SM) : bool :=
  let l := peers_ (RefreshMembership n).2 in
  bool_decide (id_ n ∈ M) && bool_decide (dom (peers_ n) = M ∖ {[id_ n]}) && bool_decide (dom l = M ∖ {[id_ n]}) &&
  forallb (fun p => (book p.2 =? p.1)%N) (map_to_list l).

Lemma fixed_compute {SM} `{StateMachine SM} book M (c : cluster (SM := SM)) :
  forallb (fun p => agreedb book M p.2) (map_to_list (nodes c)) = true -> fixed book M c.
Proof.
  intros Hb i n Hi. apply elem_of_map_to_list, list_elem_of_In in Hi. rewrite forallb_forall in Hb. specialize (Hb _ Hi). cbn in Hb.
  apply andb_true_iff in Hb as [[[H1 H2]%andb_true_iff H3]%andb_true_iff H4].
  apply bool_decide_eq_true in H1, H2, H3. split; [done..|]. intros p a Hp. rewrite forallb_forall in H4.
  apply elem_of_map_to_list, list_elem_of_In in Hp. specialize (H4 _ Hp). by apply N.eqb_eq in H4.
Qed.

Lemma three_initial : initial three.
Proof.
  split; [done|]. intros i n Hi. apply elem_of_list_to_map_2 in Hi. rewrite !elem_of_cons, elem_of_nil in Hi.
  destruct Hi as [[= -> ->]|[[= -> ->]|[[= -> ->]|[]]]]; (split; [done|split; [done|]]); by repeat split.
Qed.

Lemma node_of_lookup i c : bool_decide (is_Some (nodes c !! i)) = true -> nodes c !! i = Some (node_of i c).
Proof. intros [n Hn]%bool_decide_eq_true. unfold node_of. by rewrite Hn. Qed.

Lemma elected_reachable : rtc (fixed_step port_book {[1%N; 2%N; 3%N]}) three elected.
Proof.
  eapply rtc_l; [split; [apply (cluster_election port_book three 1 (node_of 1 three) test_env)|]|].
  { apply node_of_lookup. vm_compute. reflexivity. }
  { vm_compute. reflexivity. }
  { apply fixed_compute. vm_compute. reflexivity. }
  eapply rtc_l; [split; [apply (cluster_vote port_book standing 1 1 2 (node_of 2 standing) test_env the_request)|]|].
  { vm_compute. reflexivity. }
  { apply node_of_lookup. vm_compute. reflexivity. }
  { apply fixed_compute. vm_compute. reflexivity. }
  apply rtc_once. split;
    [apply (cluster_answer port_book voted 1 1 2 (node_of 1 voted) test_env {| rvr_term := 1; rvr_vote_granted := true |})|].
  { vm_compute. reflexivity. }
  { apply node_of_lookup. vm_compute. reflexivity. }
  { apply fixed_compute. vm_compute. reflexivity. }
Qed.

(** Node 1 is elected; it is the only leader of term 1. *)
Lemma election_safety_witness :
  role_ (node_of 1 elected) = kLeader /\ current_term (node_of 1 elected) = 1%N /\ 1%N = 1%N.
Proof.
  assert (Hl : role_ (node_of 1 elected) = kLeader) by (vm_compute; reflexivity).
  assert (H1 : nodes elected !! 1%N = Some (node_of 1 elected)) by (apply node_of_lookup; vm_compute; reflexivity).
  split; [exact Hl|]. split; [vm_compute; reflexivity|].
  refine (election_safety port_book {[1%N; 2%N; 3%N]} three elected 1 1 _ _ three_initial _ elected_reachable H1 H1 Hl Hl eq_refl).
  apply fixed_compute. vm_compute. reflexivity.
Defined.
