(* ===== verification/Network.v ===== *)
(** * The cluster with its replication traffic

    [Cluster] has the nodes and the threads that ask for votes; here are the requests and answers
    of replication too -- entries and snapshots -- delivered in any order, late, repeatedly or
    not at all.  The membership does not change: proposals are commands for the state machine. *)

From Stdlib Require Import NArith Lia.
From stdpp Require Import fin_maps fin_sets fin_map_dom.
From S2P Require Export NodeSteps Cluster.

(** ** Who starts RPC threads *)

Section sends.
Context {SM : Type} `{StateMachine SM}.
Implicit Types (n : RaftNode SM).

Lemma RefreshMembership_rpcs : keeps (@rpcs_ SM) RefreshMembership.
Proof. intros n. pose proof (RefreshMembership_core n) as E. unfold core in E. congruence. Qed.

Lemma ApplyCommitted_rpcs : keeps (@rpcs_ SM) ApplyCommitted.
Proof. intros n. pose proof (ApplyCommitted_frame n) as E. unfold apply_frame in E. congruence. Qed.

Lemma AppendToLog_rpcs prev t new : keeps (@rpcs_ SM) (AppendToLog prev t new).
Proof.
  intros n. unfold AppendToLog. rewrite run_get.
  destruct (AppendEntriesFrom prev t new (log_ n)) as [[ok [|]] l]; reflexivity.
Qed.

Lemma CompactLog_rpcs i t n : rpcs_ (CompactLog i t n) = rpcs_ n.
Proof. unfold CompactLog. destruct (CompactTo _ _ _) as [[|] l]; reflexivity. Qed.

Lemma BecomeFollower_rpcs env t n : rpcs_ (BecomeFollower env t n) = rpcs_ n.
Proof. unfold BecomeFollower. by destruct (_ <? _)%N. Qed.

Lemma hear_leader_rpcs env t leader n : rpcs_ (hear_leader env t leader n) = rpcs_ n.
Proof. unfold hear_leader. destruct (_ || _); [apply BecomeFollower_rpcs|done]. Qed.

#[local] Hint Resolve RefreshMembership_rpcs ApplyCommitted_rpcs AppendToLog_rpcs BecomeFollower_rpcs hear_leader_rpcs : keeps.
#[local] Hint Extern 1 (rpcs_ _ = rpcs_ _) => repeat case_match; rewrite ?CompactLog_rpcs; reflexivity : keeps.

Lemma MaybeAdvanceCommitIndex_rpcs : keeps (@rpcs_ SM) MaybeAdvanceCommitIndex.
Proof. unfold MaybeAdvanceCommitIndex. keeps. Qed.
#[local] Hint Resolve MaybeAdvanceCommitIndex_rpcs : keeps.

Lemma HandleAppendEntries_rpcs env req : keeps (@rpcs_ SM) (HandleAppendEntries env req).
Proof. unfold HandleAppendEntries. keeps. Qed.

Lemma FinishInstall_rpcs req : keeps (@rpcs_ SM) (FinishInstall req).
Proof. unfold FinishInstall. keeps. Qed.

Lemma BeginInstall_rpcs env req n : rpcs_ (BeginInstall env req n).2 = rpcs_ n.
Proof. unfold BeginInstall. destruct (_ <? _)%N; [done|]. destruct (_ <=? _)%N; apply hear_leader_rpcs. Qed.

Lemma ProposeStart_rpcs cmd : keeps (@rpcs_ SM) (ProposeStart cmd).
Proof.
  unfold ProposeStart. apply keeps_bind; [apply keeps_get|]. intros n. case_match; [keeps|].
  apply keeps_bind; [keeps|]. intros cc. apply keeps_bind; [keeps|]. intros [error|]; [keeps|].
  destruct (Append _ _ _) as [i l]. keeps.
Qed.

Lemma OnAppendResponse_rpcs env peer t prev sent resp : keeps (@rpcs_ SM) (OnAppendResponse env peer t prev sent resp).
Proof.
  unfold OnAppendResponse. apply keeps_bind; [keeps|]. intros _. destruct resp as [r|]; [|keeps].
  apply keeps_bind; [apply keeps_get|]. intros n. destruct (bool_decide _); [keeps|]. destruct (_ <? _)%N; [keeps|].
  destruct (_ || _); [keeps|]. destruct (aer_success r); [keeps|]. apply keeps_modify. intros m. unfold next_of. by destruct (_ <? _)%N.
Qed.

Lemma OnSnapshotResponse_rpcs env peer t i resp n : rpcs_ (OnSnapshotResponse env peer t i resp n) = rpcs_ n.
Proof.
  unfold OnSnapshotResponse. destruct resp as [r|]; [|done]. destruct (bool_decide _); [done|].
  destruct (_ <? _)%N; [etrans; [apply BecomeFollower_rpcs|done]|]. by destruct (_ || _).
Qed.

Lemma BecomeLeader_rpcs env : keeps (@rpcs_ SM) (BecomeLeader env).
Proof. intros n. destruct (BecomeLeader_ballot env n) as [E _]. unfold ballot_view in E. congruence. Qed.
#[local] Hint Resolve BecomeLeader_rpcs : keeps.

Lemma OnVoteResponse_rpcs env t resp : keeps (@rpcs_ SM) (OnVoteResponse env t resp).
Proof. unfold OnVoteResponse. keeps. Qed.

Lemma HandleRequestVote_rpcs env req n : rpcs_ (HandleRequestVote env req n).2 = rpcs_ n.
Proof.
  unfold HandleRequestVote. destruct (heard_recently env n); [done|]. destruct (_ <? _)%N; [done|].
  destruct (current_term n <? rv_term req)%N; destruct (_ && _); try done; apply BecomeFollower_rpcs.
Qed.
End sends.

(** ** What is on the way *)

Inductive reply := AppendReply (resp : AppendEntriesResponse) | SnapshotReply (resp : InstallSnapshotResponse).

Definition is_replication (r : Rpc) : bool := negb (is_vote_rpc r).

Section network.
Context {SM : Type} `{StateMachine SM}.
Context (book : PeerAddress -> NodeId) (M : gset N).
Implicit Types (n m : RaftNode SM) (a : raft) (f L : full_log) (p q t i : N).

(** What the critical sections that send or receive no answer do. *)
Inductive local_step n : RaftNode SM -> Prop :=
| local_tick env : local_step n (Tick env n).2
| local_replicate peer addr :
    is_Some (peers_ n !! peer) -> book addr = peer -> peer <> id_ n -> local_step n (ReplicateTo peer addr n)
| local_begin_replicate peer addr :
    is_Some (peers_ n !! peer) -> book addr = peer -> peer <> id_ n -> local_step n (BeginReplicate peer addr n).2
| local_replicate_all : local_step n (ReplicateToAll n)
| local_send_snapshot peer addr t : book addr = peer -> peer <> id_ n -> local_step n (SendInstallSnapshot peer addr t n)
| local_read req : local_step n (HandleReadRequest req n).2
| local_propose cmd o :
    TryDecodeConfChange cmd = Ret None -> (LastIndex (log_ n) + 2 < two64)%N -> (ProposeStart cmd n).1 = Ret o ->
    local_step n (ProposeStart cmd n).2.

(** The nodes and the vote threads; the requests sent so far with their senders, the answers to
    them, and the snapshots being installed. *)
Record net := Net {
  base : cluster (SM := SM);
  sent : list (N * Rpc);
  replies : list (N * Rpc * reply);
  installs : list (N * Rpc);
}.

(** The node does something, and the requests it makes are sent. *)
Definition net_act i n n' (c : net) : net :=
  Net (act book i n n' (base c))
    (sent c ++ map (pair i) (List.filter is_replication (drop (length (rpcs_ n)) (rpcs_ n'))))
    (replies c) (installs c).

Definition with_base (b : cluster) (c : net) : net := Net b (sent c) (replies c) (installs c).
Definition with_reply (r : list (N * Rpc * reply)) (c : net) : net := Net (base c) (sent c) (replies c ++ r) (installs c).
Definition with_installs (l : list (N * Rpc)) (c : net) : net := Net (base c) (sent c) (replies c) l.

(** The answer of a handler, if it returns. *)
Definition answer {A} (i : N) (r : Rpc) (mk : A -> reply) (o : outcome A) : list (N * Rpc * reply) :=
  match o with Ret x => [(i, r, mk x)] | _ => [] end.

(** Whether the snapshot of the request is being installed at node [p]. *)
Definition installed_at (p : N) (x : N * Rpc) : bool :=
  match x.2 with RpcSnapshot _ addr _ _ _ => (book addr =? p)%N | _ => false end.

(** The steps that apply entries are those in which the apply callback returned each time, as
    its contract asks: they return then. *)
Inductive net_step (c : net) : net -> Prop :=
| net_local i n n' : nodes (base c) !! i = Some n -> local_step n n' -> net_step c (net_act i n n' c)
| net_election i n env :
    nodes (base c) !! i = Some n -> (current_term n + 1 < two64)%N -> net_step c (net_act i n (StartElection env n).2 c)
| net_restart i n n' own peers joining sm :
    nodes (base c) !! i = Some n -> log_fits (log_ n) ->
    new_node (id_ n) own peers (state_dir_ n) joining sm (files (fs_ n)) = Ret n' ->
    net_step c (with_installs (List.filter (fun x => negb (installed_at i x)) (installs c)) (net_act i n n' c))
| net_vote i t p n env req :
    threads (base c) !! (i, t, p) = Some (Asked req) -> nodes (base c) !! p = Some n ->
    net_step c (with_base (Cluster (<[p := (HandleRequestVote env req n).2]> (nodes (base c)))
                  (<[(i, t, p) := Answered (HandleRequestVote env req n).1]> (threads (base c)))) c)
| net_answer i t p n env resp :
    threads (base c) !! (i, t, p) = Some (Answered resp) -> nodes (base c) !! i = Some n ->
    net_step c (with_base (Cluster (<[i := (OnVoteResponse env t resp n).2]> (nodes (base c)))
                  (delete (i, t, p) (threads (base c)))) c)
| net_lost key : net_step c (with_base (Cluster (nodes (base c)) (delete key (threads (base c)))) c)
| net_append i peer addr t prev count req n env resp (r := RpcAppend peer addr t prev count req) :
    (i, r) ∈ sent c -> nodes (base c) !! book addr = Some n -> (HandleAppendEntries env req n).1 = Ret resp ->
    net_step c (with_reply [(i, r, AppendReply resp)] (net_act (book addr) n (HandleAppendEntries env req n).2 c))
| net_appended i peer addr t prev count req resp n env :
    (i, RpcAppend peer addr t prev count req, AppendReply resp) ∈ replies c -> nodes (base c) !! i = Some n ->
    (OnAppendResponse env peer t prev count (Some resp) n).1 = Ret tt ->
    net_step c (net_act i n (OnAppendResponse env peer t prev count (Some resp) n).2 c)
| net_append_failed i peer addr t prev count req n env :
    (i, RpcAppend peer addr t prev count req) ∈ sent c -> nodes (base c) !! i = Some n ->
    net_step c (net_act i n (OnAppendResponse env peer t prev count None n).2 c)
| net_snapshot i peer addr t lii req n env (r := RpcSnapshot peer addr t lii req) :
    (i, r) ∈ sent c -> nodes (base c) !! book addr = Some n ->
    net_step c
      (match (BeginInstall env req n).1 with
       | Some resp => with_reply [(i, r, SnapshotReply resp)]
       | None => with_installs ((i, r) :: installs c)
       end (net_act (book addr) n (BeginInstall env req n).2 c))
| net_restore i peer addr t lii req n :
    (i, RpcSnapshot peer addr t lii req) ∈ installs c -> nodes (base c) !! book addr = Some n ->
    net_step c (net_act (book addr) n (on_sm (restore_callback (is_data req)) n).2 c)
| net_install i peer addr t lii req n (r := RpcSnapshot peer addr t lii req) :
    (i, r) ∈ installs c -> nodes (base c) !! book addr = Some n ->
    net_step c (with_reply (answer i r SnapshotReply (FinishInstall req n).1)
                  (net_act (book addr) n (FinishInstall req n).2 c))
| net_installed i peer addr t lii req resp n env :
    (i, RpcSnapshot peer addr t lii req, SnapshotReply resp) ∈ replies c -> nodes (base c) !! i = Some n ->
    net_step c (net_act i n (OnSnapshotResponse env peer t lii (Some resp) n) c)
| net_snapshot_failed i peer addr t lii req n env :
    (i, RpcSnapshot peer addr t lii req) ∈ sent c -> nodes (base c) !! i = Some n ->
    net_step c (net_act i n (OnSnapshotResponse env peer t lii None n) c).

(** The nodes know the members [M], and where they are. *)
Definition settled_members (c : net) : Prop :=
  fixed book M (base c) /\ map_Forall (fun _ n => map_Forall (fun p addr => book addr = p) (peers_ n)) (nodes (base c)).

(** Freshly constructed nodes without a history, and no traffic. *)
Definition net_initial (c : net) : Prop :=
  initial (base c) /\ sent c = [] /\ replies c = [] /\ installs c = [] /\
  map_Forall (fun _ n => log_ n = empty_log /\ commit_index_ n = 0%N /\ last_applied_ n = 0%N /\ match_index_ n = ∅ /\ log_saved n)
    (nodes (base c)).

(** ** What the traffic says *)

Definition rpc_valid a i (r : Rpc) : Prop :=
  match r with
  | RpcVote _ _ _ => True
  | RpcAppend peer addr t prev count req =>
    book addr = peer /\ peer <> i /\ ae_term req = t /\ ae_prev_log_index req = prev /\ length (ae_entries req) = count /\
    append_valid M a i req
  | RpcSnapshot peer addr t lii req =>
    book addr = peer /\ peer <> i /\ is_term req = t /\ is_last_included_index req = lii /\ install_valid M a i req
  end.

(** A positive answer is an acknowledgement. *)
Definition reply_valid a (r : Rpc) (x : reply) : Prop :=
  match r, x with
  | RpcAppend peer _ t prev count _, AppendReply resp =>
    (aer_term resp < two64)%N /\ (aer_success resp = true -> (peer, t, (N.to_nat prev + count)%nat) ∈ a_acks a)
  | RpcSnapshot peer _ t lii _, SnapshotReply resp =>
    (isr_term resp < two64)%N /\ ((isr_term resp <= t)%N -> (peer, t, N.to_nat lii) ∈ a_acks a)
  | _, _ => False
  end.

Record net_rel a (c : net) : Prop := {
  nr_sound : sound M a;
  nr_wf : leads_wf a;
  nr_election : election_inv M (a_votes a) (base c);
  nr_nodes i n : nodes (base c) !! i = Some n -> exists f, node_rel M a i f n;
  nr_asked i t p req : threads (base c) !! (i, t, p) = Some (Asked req) -> vote_valid a i req;
  nr_sent i r : (i, r) ∈ sent c -> rpc_valid a i r;
  nr_replies i r x : (i, r, x) ∈ replies c -> rpc_valid a i r /\ reply_valid a r x;
  nr_installs i r : (i, r) ∈ installs c -> exists peer addr t lii req,
    r = RpcSnapshot peer addr t lii req /\ rpc_valid a i r /\ reached a peer t;
}.

(** ** The relation is kept by what others do *)

Lemma reached_later a a' p q t : sound M a -> rtc (raft_step M p) a a' -> reached a q t -> reached a' q t.
Proof.
  intros Hs Hr. revert Hs. induction Hr as [a|a1 a2 a3 H12 _ IH]; intros Hs; [done|]. intros Hq.
  apply IH; [by eapply step_sound|]. clear IH a3. destruct Hq as (x & Hx & Ht).
  destruct (decide (q = p)) as [->|Hne]; [|exists x; by rewrite (os_nodes _ _ _ (step_others M p a1 a2 Hs H12))].
  destruct H12; simplify_eq; unfold reached; cbn; rewrite ?lookup_insert_eq; eauto; eexists; (split; [done|cbn; lia]).
Qed.

Lemma rpc_valid_later a a' p i r : sound M a -> rtc (raft_step M p) a a' -> rpc_valid a i r -> rpc_valid a' i r.
Proof.
  intros Hs Hr. destruct r as [| |]; [done|intros (?&?&?&?&?&?)|intros (?&?&?&?&?)]; split_and!; try done.
  - by eapply append_valid_later.
  - by eapply install_valid_later.
Qed.

Lemma reply_valid_later a a' r x : a_acks a ⊆ a_acks a' -> reply_valid a r x -> reply_valid a' r x.
Proof.
  intros Ha. destruct r, x; cbn; try done.
  - intros [? Hr]. split; [done|]. intros. by apply Ha, Hr.
  - intros [? Hr]. split; [done|]. intros. by apply Ha, Hr.
Qed.

Lemma node_rel_other a a' p q f n : sound M a -> rtc (raft_step M p) a a' -> q <> p -> node_rel M a q f n -> node_rel M a' q f n.
Proof.
  intros Hs Hr Hne ([H1 H2 H3 H4 H5 H6 H7 H8 H9] & [R1 R2] & Ht).
  destruct (steps_sound M p a a' Hs Hr) as (_ & _ & Ho & Ha & _). split_and!; [|split|done].
  - split; try done; [by rewrite (os_nodes _ _ _ Ho)|by eapply settled_steps].
  - intros Hrole. destruct (R1 Hrole) as [(L & HL & Hx) Hm]. split.
    + exists L. split; [|done]. apply (os_lead _ _ _ Ho); [congruence|done].
    + intros k j Hj. destruct (Hm k j Hj) as [?|(j' & ? & ?)]; [by left|right]. exists j'. split; [done|]. by apply Ha.
  - intros Hrole L HL. apply (os_lead _ _ _ Ho) in HL; [|congruence]. by apply (R2 Hrole L).
Qed.

(** One node acts; [sent'] and the like are what is new. *)
Lemma net_rel_step a a' c i n n' f' b' sent' replies' installs' :
  net_rel a c -> nodes (base c) !! i = Some n -> rtc (raft_step M i) a a' -> leads_wf a' -> node_rel M a' i f' n' ->
  election_inv M (a_votes a') b' -> nodes b' = <[i := n']> (nodes (base c)) ->
  (forall j t p req, threads b' !! (j, t, p) = Some (Asked req) ->
     threads (base c) !! (j, t, p) = Some (Asked req) \/ vote_valid a' j req) ->
  (forall j r, (j, r) ∈ sent' -> (j, r) ∈ sent c \/ rpc_valid a' j r) ->
  (forall j r x, (j, r, x) ∈ replies' -> (j, r, x) ∈ replies c \/ rpc_valid a' j r /\ reply_valid a' r x) ->
  (forall j r, (j, r) ∈ installs' -> (j, r) ∈ installs c \/ exists peer addr t lii req,
     r = RpcSnapshot peer addr t lii req /\ rpc_valid a' j r /\ reached a' peer t) ->
  net_rel a' (Net b' sent' replies' installs').
Proof.
  intros [Hs Hw He Hn Hth Hse Hre Hin] Hi Hst Hw' Hn' He' Eb Hth' Hse' Hre' Hin'.
  destruct (steps_sound M i a a' Hs Hst) as (Hs' & _ & Ho & Ha & _). split; cbn; try done.
  - intros j m. rewrite Eb, lookup_insert_Some. intros [[<- <-]|[Hne Hj]]; [by exists f'|].
    destruct (Hn j m Hj) as [f Hf]. exists f. eapply node_rel_other; [exact Hs|exact Hst|by intros ->|exact Hf].
  - intros j t p req Hj. destruct (Hth' j t p req Hj) as [Hold|?]; [|done].
    destruct (Hth j t p req Hold) as (K & HK & ?). exists K. split; [by apply (os_cand _ _ _ Ho)|done].
  - intros j r Hj. destruct (Hse' j r Hj) as [?|?]; [|done]. apply (rpc_valid_later a a' i); [done..|]. by apply Hse.
  - intros j r x Hj. destruct (Hre' j r x Hj) as [Hold|?]; [|done]. destruct (Hre j r x Hold).
    split; [by apply (rpc_valid_later a a' i)|by apply (reply_valid_later a)].
  - intros j r Hj. destruct (Hin' j r Hj) as [Hold|?]; [|done]. destruct (Hin j r Hold) as (peer & addr & t & lii & req & -> & Hv & Hr).
    exists peer, addr, t, lii, req. split_and!; [done|by apply (rpc_valid_later a a' i)|by apply (reached_later a a' i)].
Qed.

(** ** What a leader sends is valid *)

Lemma view_entries_from l f first : compacted l f -> (snapshot_index l < first)%N -> entries_from first l = drop (N.to_nat (first - 1)) f.
Proof.
  intros Hc. unfold entries_from. rewrite (view_LastIndex _ _ Hc). remember (N.to_nat (N.of_nat (length f) + 1 - first)) as k eqn:Ek.
  revert first Ek. induction k as [|k IH]; intros first Ek Hs.
  - rewrite drop_ge by lia. unfold indices. by replace (N.to_nat (N.of_nat (length f) + 1 - first)) with 0%nat by lia.
  - rewrite indices_cons by lia. cbn [omap list_omap]. rewrite (view_At _ _ Hc) by lia.
    destruct (lookup_lt_is_Some_2 f (N.to_nat (first - 1))) as [e He]; [lia|]. rewrite He. cbn.
    rewrite (drop_S _ _ _ He). f_equal. etrans; [apply IH; lia|]. f_equal. lia.
Qed.

(** The requests a node sends on the way from [n] to [n']. *)
Definition sends a i n n' : Prop := exists l, rpcs_ n' = rpcs_ n ++ l /\ Forall (rpc_valid a i) l.

Lemma sends_nothing a i n n' : rpcs_ n' = rpcs_ n -> sends a i n n'.
Proof. intros E. exists []. by rewrite app_nil_r. Qed.

Lemma sends_trans a i n1 n2 n3 : sends a i n1 n2 -> sends a i n2 n3 -> sends a i n1 n3.
Proof.
  intros (l1 & E1 & H1) (l2 & E2 & H2). exists (l1 ++ l2). rewrite E2, E1, app_assoc. split; [done|by apply Forall_app].
Qed.

Lemma leader_log a i f n : sound M a -> node_rel M a i f n -> role_ n = kLeader ->
  a_lead a !! current_term n = Some (i, f) /\ next_ok f n.
Proof.
  intros Hs (Hl & Hr & _) Hrole. destruct (rr_leader _ _ Hr Hrole) as [(L & HL & Hx) _].
  rewrite (lr_id _ _ _ _ _ Hl) in HL. assert (f = L) as -> by (apply (s_owner M a Hs i _ L (lr_node _ _ _ _ _ Hl)); exact HL). done.
Qed.

Lemma SendInstallSnapshot_sends a i f n peer addr t : sound M a -> node_rel M a i f n -> hard_ok n -> book addr = peer -> peer <> i ->
  sends a i n (SendInstallSnapshot peer addr t n).
Proof.
  intros Hs Hn Hok Hb Hne. unfold SendInstallSnapshot.
  destruct (bool_decide_reflect (role_ n = kLeader)) as [Hrole|]; cbn [negb orb]; [|by apply sends_nothing].
  destruct (N.eqb_spec t (current_term n)) as [->|]; cbn [negb]; [|by apply sends_nothing]. cbv zeta.
  destruct (leader_log a i f n Hs Hn Hrole) as [HL _]. destruct Hn as ([H1 H2 H3 H4 H5 H6 H7 H8 H9] & _).
  eexists. split; [reflexivity|]. apply Forall_singleton. split_and!; [done|done|done|done|].
  split; [exact H1|]. split; [apply (hard_range n Hok)|]. exists f. split; [done|]. cbn [is_last_included_index is_last_included_term is_term].
  split_and!; [lia|by apply view_TermAt|]. eapply settled_prefix; [|exact H5]. apply take_prefix_mono. lia.
Qed.

Lemma BeginReplicate_sends a i f n peer addr : sound M a -> node_rel M a i f n -> hard_ok n ->
  is_Some (peers_ n !! peer) -> book addr = peer -> peer <> i -> sends a i n (BeginReplicate peer addr n).2.
Proof.
  intros Hs Hn Hok Hp Hb Hne. unfold BeginReplicate.
  destruct (bool_decide_reflect (role_ n = kLeader)) as [Hrole|]; cbn [negb orb]; [|by apply sends_nothing].
  destruct (decide _); [by apply sends_nothing|]. assert (Hq := next_of_quiet n peer).
  destruct (leader_log a i f n Hs Hn Hrole) as [HL Hx].
  assert (Hnext : (default 0%N (next_index_ n !! peer) <= N.of_nat (length f) + 1)%N).
  { destruct (next_index_ n !! peer) as [j|] eqn:Ej; [|cbn; lia]. eapply Hx; [|exact Ej]. by apply elem_of_dom. }
  unfold next_of in *. cbn [snd] in Hq. cbv zeta. set (next := default 0%N (next_index_ n !! peer)) in *.
  set (n1 := set_next_index _ n) in *. assert (Hn1 := quiet_rel M a i f n n1 Hq Hn).
  assert (E1 : rpcs_ n1 = rpcs_ n /\ log_ n1 = log_ n /\ commit_index_ n1 = commit_index_ n /\ hard_ok n1 /\ id_ n1 = id_ n)
    by (destruct Hok; by split_and!).
  clearbody n1. destruct E1 as (Er & El & Ec & Hok1 & Ei). destruct (N.leb_spec next (snapshot_index (log_ n1))) as [|Hgt].
  - by apply sends_nothing.
  - eexists. split; [cbn; rewrite Er; reflexivity|]. apply Forall_singleton. destruct Hn as ([H1 H2 H3 H4 H5 H6 H7 H8 H9] & _).
    split_and!; [done|done|done|done|done|]. split; [cbn; congruence|]. split; [apply (hard_range n Hok)|]. exists f. split; [done|].
    cbn [ae_prev_log_index ae_prev_log_term ae_entries ae_leader_commit ae_term].
    rewrite El, Ec, (view_entries_from _ _ _ H3), length_drop by (rewrite <- El; done). rewrite El in Hgt. split_and!.
    + lia.
    + rewrite take_ge; [done|]. rewrite length_drop. lia.
    + apply view_TermAt; [done|lia].
    + lia.
    + exact H5.
Qed.

Lemma ReplicateTo_sends a i f n peer addr : sound M a -> node_rel M a i f n -> hard_ok n ->
  is_Some (peers_ n !! peer) -> book addr = peer -> peer <> i -> sends a i n (ReplicateTo peer addr n).
Proof.
  intros Hs Hn Hok Hp Hb Hne. pose proof (BeginReplicate_sends a i f n peer addr Hs Hn Hok Hp Hb Hne) as H1.
  destruct (ReplicateTo_parts peer addr n) as (n1 & -> & [-> |[t ->]]); [done|]. eapply sends_trans; [exact H1|].
  apply (SendInstallSnapshot_sends a i f); [done|eapply quiet_rel; [apply BeginReplicate_quiet|done]| |done|done].
  by apply (view_vote_le _ _ (BeginReplicate_view peer addr n)).
Qed.

Lemma ReplicateToAll_sends a i f n : sound M a -> node_rel M a i f n -> hard_ok n ->
  map_Forall (fun p addr => book addr = p /\ p <> i) (peers_ n) -> sends a i n (ReplicateToAll n).
Proof.
  intros Hs Hn Hok Hp. unfold ReplicateToAll. destruct (negb _); [by apply sends_nothing|].
  assert (Hl : Forall (fun x : NodeId * PeerAddress => is_Some (peers_ n !! x.1) /\ book x.2 = x.1 /\ x.1 <> i) (map_entries (peers_ n))).
  { apply Forall_forall. intros [q addr] Hq. apply elem_of_map_entries in Hq. split; [by eexists|]. by apply Hp. }
  assert (Hstep : forall x m, node_rel M a i f m -> hard_ok m -> hard_ok (ReplicateTo x.1 x.2 m) /\ peers_ (ReplicateTo x.1 x.2 m) = peers_ m).
  { intros x m _ Hm. split; [|apply ReplicateTo_demotes]. by apply (view_vote_le _ _ (ReplicateTo_view x.1 x.2 m)). }
  revert Hl. generalize (map_entries (peers_ n)). intros l.
  remember (peers_ n) as P eqn:EP. clear Hp. revert n Hn Hok EP. induction l as [|x l IH]; intros n Hn Hok -> Hl; [by apply sends_nothing|].
  apply Forall_cons in Hl as [(Hx1 & Hx2 & Hx3) Hl]. cbn [foldl]. eapply sends_trans; [by eapply ReplicateTo_sends|].
  destruct (Hstep x n Hn Hok) as [Hok' Ep]. apply IH; [|done|by rewrite Ep|done]. eapply quiet_rel; [apply ReplicateTo_quiet|done].
Qed.
End network.
