(* ===== verification/NetworkSafe.v ===== *)
(** * The cluster follows the protocol, and its state machines agree

    Every step of [Network] is some steps of the protocol of [RaftSpec] by the node that acts
    ([net_step_follows]); so what two nodes have committed never disagrees. *)

From Stdlib Require Import NArith Lia.
From stdpp Require Import fin_maps fin_sets fin_map_dom.
From S2P Require Export Network.

(** ** Answers *)

Section answers.
Context {SM : Type} `{StateMachine SM}.
Implicit Types (n : RaftNode SM).

Lemma HandleAppendEntries_resp env req n resp :
  (HandleAppendEntries env req n).1 = Ret resp -> aer_term resp = current_term (HandleAppendEntries env req n).2.
Proof.
  unfold HandleAppendEntries. rewrite run_get. destruct (_ <? _)%N; [by intros [= <-]|]. rewrite run_modify.
  intros (ok & _ & Hk & ->)%bind_returns. revert Hk. rewrite run_get. destruct (negb ok); [by intros [= <-]|].
  intros (? & _ & Hk & ->)%bind_returns. revert Hk. rewrite run_get. intros (? & _ & Hk & ->)%bind_returns. revert Hk. by intros [= <-].
Qed.

Lemma BeginInstall_resp env req n resp :
  (BeginInstall env req n).1 = Some resp -> isr_term resp = current_term (BeginInstall env req n).2.
Proof. unfold BeginInstall. destruct (_ <? _)%N; [by intros [= <-]|]. destruct (_ <=? _)%N; [by intros [= <-]|done]. Qed.

(** Who does not apply anything. *)
Lemma BeginInstall_applied env req n : last_applied_ (BeginInstall env req n).2 = last_applied_ n.
Proof.
  unfold BeginInstall, hear_leader, BecomeFollower. destruct (_ <? _)%N; [done|]. destruct (_ <=? _)%N; by repeat case_match.
Qed.

Lemma OnSnapshotResponse_applied env peer t lii resp n : last_applied_ (OnSnapshotResponse env peer t lii resp n) = last_applied_ n.
Proof. unfold OnSnapshotResponse, BecomeFollower. by repeat case_match. Qed.

Lemma RefreshMembership_applied : keeps (@last_applied_ SM) RefreshMembership.
Proof. intros n. by destruct (refresh_fields n) as (_ & _ & E & _). Qed.

Lemma init_progress_applied n : last_applied_ (init_progress n) = last_applied_ n.
Proof. destruct (init_progress_log n) as [E _]. unfold log_view in E. congruence. Qed.

Lemma BecomeFollower_applied env t n : last_applied_ (BecomeFollower env t n) = last_applied_ n.
Proof. unfold BecomeFollower. by destruct (_ <? _)%N. Qed.

#[local] Hint Resolve RefreshMembership_applied BecomeFollower_applied : keeps.
#[local] Hint Extern 1 (last_applied_ _ = last_applied_ _) => repeat case_match; reflexivity : keeps.

Lemma BecomeLeader_applied env : keeps (@last_applied_ SM) (BecomeLeader env).
Proof.
  unfold BecomeLeader. apply keeps_bind; [apply RefreshMembership_applied|]. intros _. apply keeps_modify. intros n. by rewrite init_progress_applied.
Qed.
#[local] Hint Resolve BecomeLeader_applied : keeps.

Lemma StartElection_applied env : keeps (@last_applied_ SM) (StartElection env).
Proof. unfold StartElection. keeps. Qed.

Lemma OnVoteResponse_applied env t resp : keeps (@last_applied_ SM) (OnVoteResponse env t resp).
Proof. unfold OnVoteResponse. keeps. Qed.

Lemma HandleRequestVote_applied env req n : last_applied_ (HandleRequestVote env req n).2 = last_applied_ n.
Proof. unfold HandleRequestVote, BecomeFollower. by repeat case_match. Qed.
End answers.

Section simulation.
Context {SM : Type} `{StateMachine SM}.
Context (book : PeerAddress -> NodeId) (M : gset N).
Implicit Types (n m : RaftNode SM) (a : raft) (f L : full_log) (p q t i : N) (c : net (SM := SM)).

(** ** One node acts *)

Lemma net_rel_act a a' c i n n' f' extra installs' :
  net_rel book M a c -> nodes (base c) !! i = Some n -> other_step n n' -> reaches M i a a' -> node_rel M a' i f' n' ->
  sends book M a' i n n' ->
  (forall j r x, (j, r, x) ∈ extra -> rpc_valid book M a' j r /\ reply_valid a' r x) ->
  (forall j r, (j, r) ∈ installs' -> (j, r) ∈ installs c \/ exists peer addr t lii req,
     r = RpcSnapshot peer addr t lii req /\ rpc_valid book M a' j r /\ reached a' peer t) ->
  net_rel book M a' (Net (act book i n n' (base c)) (sent (net_act book i n n' c)) (replies c ++ extra) installs').
Proof.
  intros Hrel Hi Ho [Hst Hv Hw] Hn' (l & El & Hl) Hex Hin. destruct (other_step_yields _ _ Ho) as [Ev _].
  apply (net_rel_step book M a a' c i n n' f' _ _ _ _ Hrel Hi Hst Hw Hn'); [|done| | | |done].
  - rewrite Hv. by eapply other_inv; [apply Hrel|..].
  - intros j t p req. unfold act. cbn. rewrite Ev, drop_all. by left.
  - intros j r. cbn. rewrite El, drop_app_length, elem_of_app, list_elem_of_fmap. intros [?|(r' & [= -> ->] & Hr)]; [by left|right].
    rewrite Forall_forall in Hl. apply Hl. apply list_elem_of_In, filter_In in Hr as [Hr _]. by apply list_elem_of_In.
  - intros j r x. rewrite elem_of_app. intros [?|?]; [by left|right; by apply Hex].
Qed.

Lemma net_rel_silent a a' c i n n' f' :
  net_rel book M a c -> nodes (base c) !! i = Some n -> other_step n n' -> reaches M i a a' -> node_rel M a' i f' n' ->
  sends book M a' i n n' -> net_rel book M a' (net_act book i n n' c).
Proof.
  intros Hrel Hi Ho Hr Hn' Hs. pose proof (net_rel_act a a' c i n n' f' [] (installs c) Hrel Hi Ho Hr Hn' Hs) as Hgoal.
  rewrite app_nil_r in Hgoal. apply Hgoal; [by intros j r x Hx%not_elem_of_nil|by left].
Qed.

(** What a node applies in a step, it applies in the order of its log. *)
Definition moves_on a i n n' : Prop :=
  last_applied_ n' = last_applied_ n \/ exists f, node_rel M a i f n' /\ advances f n n'.

(** No snapshot is being installed at the node. *)
Definition idle j c : Prop := Forall (fun x => installed_at book j x = false) (installs c).

Lemma nothing_installs j c : installs c = [] -> idle j c.
Proof. intros E. unfold idle. rewrite E. by apply Forall_nil. Qed.

Lemma installing i peer addr t lii req c : (i, RpcSnapshot peer addr t lii req) ∈ installs c -> ~ idle (book addr) c.
Proof. intros Hin Hidle. unfold idle in Hidle. rewrite Forall_forall in Hidle. specialize (Hidle _ Hin). cbn in Hidle. by rewrite N.eqb_refl in Hidle. Qed.

(** A step of the cluster is steps of the protocol by one node; nodes apply in order what they
    apply, unless a snapshot is being installed there. *)
Definition follows a c c' : Prop := exists i a', rtc (raft_step M i) a a' /\ net_rel book M a' c' /\
  forall j n n', idle j c -> nodes (base c) !! j = Some n -> nodes (base c') !! j = Some n' -> moves_on a' j n n'.

Lemma follows_acts a a' c c' i n n' : rtc (raft_step M i) a a' -> net_rel book M a' c' -> nodes (base c) !! i = Some n ->
  nodes (base c') = <[i := n']> (nodes (base c)) -> (idle i c -> moves_on a' i n n') -> follows a c c'.
Proof.
  intros Hst Hrel Hi E Hm. exists i, a'. split_and!; [done|done|]. intros j m m' Hin Hj. rewrite E, lookup_insert_Some.
  intros [[<- <-]|[_ Hj']]; [|by left; congruence]. simplify_eq. by apply Hm.
Qed.

Lemma follows_silent a c i n n' : net_rel book M a c -> nodes (base c) !! i = Some n -> other_step n n' -> rpcs_ n' = rpcs_ n ->
  (exists a' f', reaches M i a a' /\ node_rel M a' i f' n' /\ (last_applied_ n' = last_applied_ n \/ advances f' n n')) ->
  follows a c (net_act book i n n' c).
Proof.
  intros Hrel Hi Ho Er (a' & f' & Hr & Hn' & Hm). apply (follows_acts a a' c _ i n n'); [apply Hr| |done|done|].
  - eapply net_rel_silent; try done. by apply sends_nothing.
  - intros _. destruct Hm as [?|?]; [by left|right]. by exists f'.
Qed.

Lemma quiet_stays a i n n' : quiet n n' -> moves_on a i n n'.
Proof. intros [V _]. left. unfold log_view in V. congruence. Qed.

(** What is known of a node of the cluster, whatever the members. *)
Lemma placed a c i n : net_rel book M a c -> nodes (base c) !! i = Some n ->
  sound M a /\ leads_wf a /\ hard_ok n /\ id_ n = i /\ exists f, node_rel M a i f n.
Proof.
  intros Hrel Hi. destruct (inv_nodes _ _ _ (nr_election _ _ _ _ Hrel) i n Hi) as [Hid Hok].
  split_and!; [apply Hrel|apply Hrel|done|done|by apply (nr_nodes _ _ _ _ Hrel)].
Qed.

(** And if they are settled. *)
Lemma known a c i n : net_rel book M a c -> settled_members book M c -> nodes (base c) !! i = Some n ->
  sound M a /\ leads_wf a /\ hard_ok n /\ id_ n = i /\ (exists f, node_rel M a i f n) /\ agreed book M n /\
  map_Forall (fun p addr => book addr = p /\ p <> i) (peers_ n).
Proof.
  intros Hrel [Hfix Hbook] Hi. destruct (placed a c i n Hrel Hi) as (Hs & Hw & Hok & Hid & Hf).
  assert (Hag := Hfix i n Hi). split_and!; [done..|].
  intros q addr Hq. split; [by apply (Hbook i n Hi)|]. assert (Hd : q ∈ dom (peers_ n)) by (apply elem_of_dom; eauto).
  rewrite (agreed_peers _ _ _ Hag) in Hd. set_solver.
Qed.

Lemma propose_follows a c i n cmd : net_rel book M a c -> settled_members book M c -> nodes (base c) !! i = Some n ->
  TryDecodeConfChange cmd = Ret None -> (LastIndex (log_ n) + 2 < two64)%N -> forall o, (ProposeStart cmd n).1 = Ret o ->
  exists a', rtc (raft_step M i) a a' /\ net_rel book M a' (net_act book i n (ProposeStart cmd n).2 c) /\
    moves_on a' i n (ProposeStart cmd n).2 /\
    forall k, o = Appended k -> leader_has a' (current_term n) i {| index := k; term := current_term n; command := cmd |}.
Proof.
  intros Hrel Hset Hi Hcmd Hlen o Ho. destruct (known a c i n Hrel Hset Hi) as (Hs & Hw & Hok & Hid & (f & Hn) & Hag & _).
  destruct (ProposeStart_rel M a i f n cmd) with (o := o) as (a' & f' & Hr & Hn' & Ha & Hhas); try done; [apply Hag..|].
  exists a'. split_and!; [apply Hr| |right; by exists f'|done]. eapply net_rel_silent; try done; [constructor|apply sends_nothing, ProposeStart_rpcs].
Qed.

Lemma local_follows a c i n n' : net_rel book M a c -> settled_members book M c -> nodes (base c) !! i = Some n ->
  local_step book n n' -> follows a c (net_act book i n n' c).
Proof.
  intros Hrel Hset Hi Hl. destruct (known a c i n Hrel Hset Hi) as (Hs & Hw & Hok & Hid & (f & Hn) & Hag & Hbk).
  assert (Hq : forall n', quiet n n' -> other_step n n' -> sends book M a i n n' -> follows a c (net_act book i n n' c)).
  { intros n1 Hq Ho Hse. apply (follows_acts a a c _ i n n1); [done| |done|done|intros _; by apply quiet_stays].
    eapply net_rel_silent; [done|done|done|by apply reaches_refl|by eapply quiet_rel|done]. }
  destruct Hl as [env|peer addr Hp Hb Hne|peer addr Hp Hb Hne| |peer addr t Hb Hne|req|cmd o Hcmd Hlen Ho].
  - apply Hq; [apply Tick_quiet|constructor|apply sends_nothing; unfold Tick; by repeat case_match].
  - apply Hq; [apply ReplicateTo_quiet|constructor|]. apply (ReplicateTo_sends book M a i f); try done. congruence.
  - apply Hq; [apply BeginReplicate_quiet|constructor|]. apply (BeginReplicate_sends book M a i f); try done. congruence.
  - apply Hq; [apply ReplicateToAll_quiet|constructor|by eapply ReplicateToAll_sends].
  - apply Hq; [apply SendInstallSnapshot_quiet|constructor|]. apply (SendInstallSnapshot_sends book M a i f); try done. congruence.
  - apply Hq; [apply HandleReadRequest_quiet|constructor|]. rewrite HandleReadRequest_state. apply sends_nothing.
    unfold on_sm. by destruct (read_callback _ _).
  - destruct (propose_follows a c i n cmd Hrel Hset Hi Hcmd Hlen o Ho) as (a' & Hst & Hrel' & Hm & _). by eapply follows_acts.
Qed.

(** ** Entries *)

Lemma append_follows a c i peer addr t prev count req n env resp (r := RpcAppend peer addr t prev count req) :
  net_rel book M a c -> settled_members book M c -> (i, r) ∈ sent c -> nodes (base c) !! book addr = Some n ->
  (HandleAppendEntries env req n).1 = Ret resp ->
  follows a c (with_reply [(i, r, AppendReply resp)] (net_act book (book addr) n (HandleAppendEntries env req n).2 c)).
Proof.
  intros Hrel Hset Hsent Hp Eo. set (p := book addr) in *. destruct (known a c p n Hrel Hset Hp) as (Hs & Hw & Hok & Hid & (f & Hn) & _).
  assert (Hv := nr_sent _ _ _ _ Hrel _ _ Hsent). destruct Hv as (Eb & Hne & Et & Epr & Ec & Hv).
  assert (Ht : (ae_term req < two64)%N) by apply Hv. assert (Hne' : i <> p) by (unfold p; congruence).
  destruct (HandleAppendEntries_rel M a p f n env i req Hs Hw Hn Hv Hne' resp Eo) as (a' & f' & Hr & Hn' & Ha & Hack).
  assert (Ho : other_step n (HandleAppendEntries env req n).2) by by constructor.
  apply (follows_acts a a' c _ p n (HandleAppendEntries env req n).2 (re_steps _ _ _ _ Hr)); [|done|done|intros _; right; by exists f'].
  apply (net_rel_act a a' c p n _ f' _ (installs c) Hrel Hp Ho Hr Hn').
  - apply sends_nothing, HandleAppendEntries_rpcs.
  - intros j r' x. intros [= -> -> ->]%list_elem_of_singleton. split.
    + apply (rpc_valid_later book M a a' p); [done|apply Hr|]. by apply (nr_sent _ _ _ _ Hrel).
    + split.
      * rewrite (HandleAppendEntries_resp env req n resp Eo). destruct (proj2 (proj2 (other_step_vote_le _ _ Ho)) Hok) as [Hok' _].
        apply (hard_range _ Hok').
      * intros Hok'. specialize (Hack Hok'). unfold r. rewrite <- Eb, <- Et, <- Epr, <- Ec. exact Hack.
  - by left.
Qed.

Lemma appended_follows a c i peer addr t prev count req resp n env :
  net_rel book M a c -> settled_members book M c -> nodes (base c) !! i = Some n ->
  (forall r, resp = Some r -> (i, RpcAppend peer addr t prev count req, AppendReply r) ∈ replies c) ->
  (OnAppendResponse env peer t prev count resp n).1 = Ret tt ->
  follows a c (net_act book i n (OnAppendResponse env peer t prev count resp n).2 c).
Proof.
  intros Hrel Hset Hi Hresp Hret. destruct (known a c i n Hrel Hset Hi) as (Hs & Hw & Hok & Hid & (f & Hn) & Hag & _).
  assert (Hr : forall r, resp = Some r -> (aer_term r < two64)%N /\
    (aer_success r = true -> (peer, t, (N.to_nat prev + count)%nat) ∈ a_acks a)).
  { intros r Er. destruct (nr_replies _ _ _ _ Hrel _ _ _ (Hresp r Er)) as [_ ?]. done. }
  apply follows_silent; [done|done| |apply OnAppendResponse_rpcs|].
  - constructor. destruct resp as [r|]; [by apply (Hr r)|done].
  - destruct (OnAppendResponse_rel M a i f n env peer t prev count resp) as (a' & ? & ? & ?); try done; [apply Hag|apply Hag| |exists a', f; auto].
    intros r Er Ha. by apply (Hr r).
Qed.

(** ** Snapshots *)

Lemma snapshot_follows a c i peer addr t lii req n env (r := RpcSnapshot peer addr t lii req) :
  net_rel book M a c -> (i, r) ∈ sent c -> nodes (base c) !! book addr = Some n ->
  follows a c
    (match (BeginInstall env req n).1 with
     | Some resp => with_reply [(i, r, SnapshotReply resp)]
     | None => with_installs ((i, r) :: installs c)
     end (net_act book (book addr) n (BeginInstall env req n).2 c)).
Proof.
  intros Hrel Hsent Hp. set (p := book addr) in *. destruct (placed a c p n Hrel Hp) as (Hs & Hw & Hok & Hid & (f & Hn)).
  assert (Hv := nr_sent _ _ _ _ Hrel _ _ Hsent). destruct Hv as (Eb & Hne & Et & El & Hv).
  assert (Ht : (is_term req < two64)%N) by apply Hv.
  destruct (BeginInstall_rel M a p f n env i req Hs Hw Hn Hv) as (a' & Hr & Hn' & Hres).
  assert (Ho : other_step n (BeginInstall env req n).2) by by constructor.
  assert (Hse : sends book M a' p n (BeginInstall env req n).2) by (apply sends_nothing, BeginInstall_rpcs).
  assert (Hv' : rpc_valid book M a' i r) by (apply (rpc_valid_later book M a a' p); [done|apply Hr|by apply (nr_sent _ _ _ _ Hrel)]).
  apply (follows_acts a a' c _ p n (BeginInstall env req n).2 (re_steps _ _ _ _ Hr));
    [|done|by destruct (BeginInstall env req n).1|intros _; left; apply BeginInstall_applied].
  pose proof (BeginInstall_resp env req n) as Hterm.
  destruct (BeginInstall env req n) as [[resp|] n'] eqn:Eo; cbn [fst snd] in *.
  - apply (net_rel_act a a' c p n n' f _ (installs c) Hrel Hp Ho Hr Hn' Hse); [|by left].
    intros j r' x [= -> -> ->]%list_elem_of_singleton. split; [exact Hv'|]. split.
    + rewrite (Hterm resp eq_refl). destruct (proj2 (proj2 (other_step_vote_le _ _ Ho)) Hok) as [Hok' _]. apply (hard_range _ Hok').
    + rewrite <- Eb, <- Et, <- El. exact Hres.
  - pose proof (net_rel_act a a' c p n n' f [] ((i, r) :: installs c) Hrel Hp Ho Hr Hn' Hse) as Hg. rewrite app_nil_r in Hg.
    apply Hg; [by intros ??? ?%not_elem_of_nil|]. intros j r' [[= -> ->]|?]%elem_of_cons; [right|by left].
    exists peer, addr, t, lii, req. split_and!; [done|exact Hv'|]. exists (Participant (current_term n') f).
    rewrite <- Eb, <- Et. split; [apply Hn'|exact Hres].
Qed.

Lemma restore_follows a c i peer addr t lii req n :
  net_rel book M a c -> (i, RpcSnapshot peer addr t lii req) ∈ installs c -> nodes (base c) !! book addr = Some n ->
  follows a c (net_act book (book addr) n (on_sm (restore_callback (is_data req)) n).2 c).
Proof.
  intros Hrel Hin Hp. destruct (placed a c (book addr) n Hrel Hp) as (Hs & Hw & Hok & Hid & (f & Hn)).
  apply follows_silent; [done|done|constructor|unfold on_sm; by destruct (restore_callback _ _)|].
  exists a, f. split; [by apply reaches_refl|]. split; [eapply quiet_rel; [apply on_sm_quiet|done]|left].
  unfold on_sm. by destruct (restore_callback _ _).
Qed.

Lemma install_follows a c i peer addr t lii req n (r := RpcSnapshot peer addr t lii req) :
  net_rel book M a c -> (i, r) ∈ installs c -> nodes (base c) !! book addr = Some n ->
  follows a c (with_reply (answer i r SnapshotReply (FinishInstall req n).1) (net_act book (book addr) n (FinishInstall req n).2 c)).
Proof.
  intros Hrel Hin Hp. set (p := book addr) in *. destruct (placed a c p n Hrel Hp) as (Hs & Hw & Hok & Hid & (f & Hn)).
  destruct (nr_installs _ _ _ _ Hrel _ _ Hin) as (? & ? & ? & ? & ? & [= <- <- <- <- <-] & Hv & (x & Hx & Hle)).
  assert (Hv0 := Hv). destruct Hv0 as (Eb & Hne & Et & El & Hv').
  assert (Hterm : (is_term req <= current_term n)%N).
  { rewrite Et. rewrite <- Eb in Hx. fold p in Hx. destruct Hn as (Hl & _). rewrite (lr_node _ _ _ _ _ Hl) in Hx. by injection Hx as <-. }
  destruct (FinishInstall_rel M a p f n i req Hs Hw Hn Hv' Hterm) as (a' & f' & Hr & Hn' & Hack).
  assert (Ho : other_step n (FinishInstall req n).2) by by constructor.
  apply (follows_acts a a' c _ p n (FinishInstall req n).2 (re_steps _ _ _ _ Hr)); [|done|done|].
  2:{ intros Hno. by apply installing in Hin. }
  apply (net_rel_act a a' c p n _ f' _ (installs c) Hrel Hp Ho Hr Hn').
  - apply sends_nothing, FinishInstall_rpcs.
  - intros j r' y. unfold answer. destruct (FinishInstall req n).1 as [resp|e|] eqn:Eo; [|by intros ?%not_elem_of_nil..].
    intros [= -> -> ->]%list_elem_of_singleton. split; [by apply (rpc_valid_later book M a a' p); [done|apply Hr|]|]. split.
    + rewrite (FinishInstall_resp req n resp Eo). apply (hard_range _ Hok).
    + unfold r. rewrite <- Eb, <- Et, <- El. by apply Hack.
  - by left.
Qed.

Lemma installed_follows a c i peer addr t lii req resp n env :
  net_rel book M a c -> settled_members book M c -> nodes (base c) !! i = Some n ->
  (forall r, resp = Some r -> (i, RpcSnapshot peer addr t lii req, SnapshotReply r) ∈ replies c) ->
  follows a c (net_act book i n (OnSnapshotResponse env peer t lii resp n) c).
Proof.
  intros Hrel Hset Hi Hresp. destruct (known a c i n Hrel Hset Hi) as (Hs & Hw & Hok & Hid & (f & Hn) & Hag & _).
  assert (Hr : forall r, resp = Some r -> (isr_term r < two64)%N /\ ((isr_term r <= t)%N -> (peer, t, N.to_nat lii) ∈ a_acks a)).
  { intros r Er. destruct (nr_replies _ _ _ _ Hrel _ _ _ (Hresp r Er)) as [_ ?]. done. }
  apply follows_silent; [done|done| |apply OnSnapshotResponse_rpcs|].
  - constructor. destruct resp as [r|]; [by apply (Hr r)|done].
  - destruct (OnSnapshotResponse_rel M a i f n env peer t lii resp) as (a' & ? & ?); try done;
      [|exists a', f; split_and!; [done..|left; apply OnSnapshotResponse_applied]].
    intros r Er. by apply (Hr r).
Qed.

(** ** Elections and restarts *)

Lemma started_threads i t req (l : list (N * PeerAddress)) ths j u q (x : phase) :
  foldl (start_thread book i) ths (map (fun y => RpcVote y.2 t req) l) !! (j, u, q) = Some x ->
  ths !! (j, u, q) = Some x \/ j = i /\ x = Asked req.
Proof.
  revert ths. induction l as [|y l IH]; intros ths; cbn; [by left|]. intros Hx. destruct (IH _ Hx) as [Hx'|?]; [|by right].
  apply lookup_insert_Some in Hx' as [[[= <- _ _] <-]|[_ ?]]; auto.
Qed.

Lemma election_follows a c i n env : net_rel book M a c -> settled_members book M c -> nodes (base c) !! i = Some n ->
  (current_term n + 1 < two64)%N -> follows a c (net_act book i n (StartElection env n).2 c).
Proof.
  intros Hrel Hset Hi Hb. destruct (known a c i n Hrel Hset Hi) as (Hs & Hw & Hok & Hid & (f & Hn) & Hag & _).
  destruct (StartElection_rel M a i f n env Hs Hw Hn Hb (agreed_self _ _ _ Hag) (agreed_log _ _ _ Hag)) as (a' & Hst & Hw' & Hn' & Hvotes).
  pose proof (election_step book M (a_votes a) (base c) i n env (nr_election _ _ _ _ Hrel) Hag Hi Hb) as Hel. cbv zeta in Hel.
  assert (Ev : a_votes a' = if decide (current_term (StartElection env n).2 = current_term n) then a_votes a
                            else {[(i, current_term (StartElection env n).2, i)]} ∪ a_votes a).
  { destruct Hvotes as [[E ->]|(E & -> & _)]; [by rewrite decide_True|]. by rewrite decide_False, E by lia. }
  rewrite <- Ev in Hel. clear Ev.
  apply (follows_acts a a' c _ i n (StartElection env n).2); [done| |done|done|intros _; left; apply StartElection_applied].
  apply (net_rel_step book M a a' c i n (StartElection env n).2 f _ _ _ _ Hrel Hi Hst Hw' Hn' Hel eq_refl); [| |by left|by left].
  - intros j t q req. unfold act. cbn [threads].
    destruct (StartElection_ballot env n Hb) as [[E _]|(Et & _ & _ & Hrole)].
    { unfold elect_view in E. assert (E' : vote_rpcs (StartElection env n).2 = vote_rpcs n) by congruence. rewrite E', drop_all. by left. }
    assert (Hl : exists l, drop (length (vote_rpcs n)) (vote_rpcs (StartElection env n).2) =
      map (fun y : N * PeerAddress => RpcVote y.2 (current_term n + 1)%N (vote_request n (current_term n + 1))) l).
    { unfold vote_rpcs. destruct Hrole as [[_ Er]|[_ [Er _]]]; rewrite Er; [|exists []; by rewrite drop_all].
      exists (map_entries (peers_ (RefreshMembership n).2)). rewrite List.filter_app, drop_app_length.
      clear. induction (map_entries _) as [|y l IH]; [done|]. cbn. by rewrite IH. }
    destruct Hl as [l ->]. intros [?|[-> [= ->]]]%started_threads; [by left|right].
    destruct Hvotes as [[E _]|(_ & _ & HC)]; [rewrite E in Et; lia|]. exists f. cbn. destruct Hn as (Hl & _).
    split_and!; [done|apply (lr_id _ _ _ _ _ Hl)|by apply view_LastIndex, Hl|by apply view_LastTerm, Hl].
  - intros j r. cbn. rewrite elem_of_app. intros [?|Hr]; [by left|right].
    apply list_elem_of_fmap in Hr as (r' & [= -> ->] & Hr). apply list_elem_of_In, filter_In in Hr as [Hin Hrep].
    apply list_elem_of_In in Hin. unfold is_replication in Hrep.
    assert (Hvote : forall r', r' ∈ drop (length (rpcs_ n)) (rpcs_ (StartElection env n).2) -> is_vote_rpc r' = true).
    { intros r2. destruct (StartElection_ballot env n Hb) as [[_ Er]|(_ & _ & _ & [[_ Er]|[_ [Er _]]])]; rewrite Er, ?drop_all, ?drop_app_length;
        [by intros ?%not_elem_of_nil| |by intros ?%not_elem_of_nil]. intros (p & -> & _)%list_elem_of_fmap. done. }
    by rewrite (Hvote _ Hin) in Hrep.
Qed.

Lemma new_node_rpcs id own peers dir joining sm d n : new_node id own peers dir joining sm d = Ret n -> rpcs_ (n : RaftNode SM) = [].
Proof.
  unfold new_node. cbv zeta. destruct (MembershipState.Load _ _) as [m|e|]; cbn [mbind outcome_bind]; [|done..].
  intros [= <-]. by destruct (MembershipState.has_file m).
Qed.

Lemma restart_follows a c i n n' own peers joining sm :
  net_rel book M a c -> settled_members book M c -> nodes (base c) !! i = Some n -> log_fits (log_ n) ->
  new_node (id_ n) own peers (state_dir_ n) joining sm (files (fs_ n)) = Ret n' ->
  follows a c (with_installs (List.filter (fun x => negb (installed_at book i x)) (installs c)) (net_act book i n n' c)).
Proof.
  intros Hrel Hset Hi Hfit Hnew. destruct (known a c i n Hrel Hset Hi) as (Hs & Hw & Hok & Hid & (f & Hn) & Hag & _).
  pose proof (new_node_rpcs _ _ _ _ _ _ _ _ Hnew) as Er.
  destruct (restart_rel M a i f n n' own peers joining sm Hn Hok Hfit Hnew) as [Hn' Hla].
  apply (follows_acts a a c _ i n n'); [done| |done|done|intros _; by left].
  apply (net_rel_step book M a a c i n n' f _ _ _ _ Hrel Hi); [done|done|done| |done| | |by left|].
  - eapply restart_step; [apply Hrel|done|done].
  - intros j t q req. cbn [net_act base]. unfold act. cbn [threads]. assert (Ev : vote_rpcs n' = []) by (unfold vote_rpcs; by rewrite Er).
    rewrite Ev, drop_nil. by left.
  - intros j r. cbn. rewrite Er, drop_nil, app_nil_r. by left.
  - intros j r Hr. left. apply list_elem_of_In, filter_In in Hr as [Hr _]. by apply list_elem_of_In.
Qed.

Lemma vote_follows a c i t p n env req :
  net_rel book M a c -> settled_members book M c -> threads (base c) !! (i, t, p) = Some (Asked req) -> nodes (base c) !! p = Some n ->
  follows a c (with_base (Cluster (<[p := (HandleRequestVote env req n).2]> (nodes (base c)))
               (<[(i, t, p) := Answered (HandleRequestVote env req n).1]> (threads (base c)))) c).
Proof.
  intros Hrel Hset Hth Hp. destruct (known a c p n Hrel Hset Hp) as (Hs & Hw & Hok & Hid & (f & Hn) & _).
  destruct (inv_threads _ _ _ (nr_election _ _ _ _ Hrel) _ _ _ _ Hth) as (_ & _ & _ & Ert & _).
  destruct (HandleRequestVote_rel M a p f n env i req Hs Hw Hn (nr_asked _ _ _ _ Hrel _ _ _ _ Hth)) as (a' & Hst & Hw' & Hn' & Ev).
  { intros k Hk. destruct (inv_cast _ _ _ (nr_election _ _ _ _ Hrel) _ _ _ Hk) as (m & Hm & Hc). simplify_eq. by destruct Hc as [?|[? ?]]; [left|right]. }
  apply (follows_acts a a' c _ p n (HandleRequestVote env req n).2); [done| |done|done|intros _; left; apply HandleRequestVote_applied].
  apply (net_rel_step book M a a' c p n _ f _ _ _ _ Hrel Hp Hst Hw' Hn'); [|done| |by left..].
  - rewrite Ev, Ert. eapply vote_step; [apply Hrel|done|done].
  - intros j u q req'. cbn. rewrite lookup_insert_Some. intros [[_ ?]|[_ ?]]; [done|by left].
Qed.

Lemma answer_follows a c i t p n env resp :
  net_rel book M a c -> settled_members book M c -> threads (base c) !! (i, t, p) = Some (Answered resp) -> nodes (base c) !! i = Some n ->
  follows a c (with_base (Cluster (<[i := (OnVoteResponse env t resp n).2]> (nodes (base c))) (delete (i, t, p) (threads (base c)))) c).
Proof.
  intros Hrel Hset Hth Hi. destruct (known a c i n Hrel Hset Hi) as (Hs & Hw & Hok & Hid & (f & Hn) & Hag & _).
  pose proof (answer_step book M (a_votes a) (base c) i t p n env resp (nr_election _ _ _ _ Hrel) Hag Hth Hi) as Hel.
  destruct (OnVoteResponse_rel M a i f n env t resp Hs Hw Hn) as (a' & [Hst Hv Hw'] & Hn').
  { intros Hlead Hcand. destruct (inv_ballots _ _ _ Hel i (OnVoteResponse env t resp n).2) as (Q & HQ & Hq & _ & Hsz); [cbn; apply lookup_insert_eq|congruence|].
    exists Q. split; [split; [done|by apply Hsz]|]. intros q Hqq.
    assert (Et : current_term (OnVoteResponse env t resp n).2 = current_term n).
    { destruct (OnVoteResponse_ballot env t resp n) as [[_ [?|(_ & ? & _)]]|(_ & _ & _ & _ & ? & _)]; congruence. }
    rewrite <- Et. by apply Hq. }
  apply (follows_acts a a' c _ i n (OnVoteResponse env t resp n).2); [done| |done|done|intros _; left; apply OnVoteResponse_applied].
  apply (net_rel_step book M a a' c i n _ f _ _ _ _ Hrel Hi Hst Hw' Hn'); [by rewrite Hv|done| |by left..].
  intros j u q req'. cbn. intros [_ ?]%lookup_delete_Some. by left.
Qed.

Lemma lost_follows a c key : net_rel book M a c ->
  follows a c (with_base (Cluster (nodes (base c)) (delete key (threads (base c)))) c).
Proof.
  intros [Hs Hw He Hn Hth Hse Hre Hin]. exists 0%N, a. split; [done|]. split; [|intros j n n' _ Hj Hj'; left; cbn in Hj'; congruence].
  split; cbn; try done; [by apply lost_step|].
  intros i t p req [_ Hk]%lookup_delete_Some. by eapply Hth.
Qed.

(** Every step of the cluster is steps of the protocol. *)
Lemma net_step_follows a c c' : net_rel book M a c -> settled_members book M c -> net_step book c c' -> follows a c c'.
Proof.
  intros Hrel Hset [].
  - by eapply local_follows.
  - by apply election_follows.
  - by eapply restart_follows.
  - by apply vote_follows.
  - by apply answer_follows.
  - by apply lost_follows.
  - by apply append_follows.
  - eapply appended_follows; [done|done|done| |done]. by intros ? [= ->].
  - match goal with Hin : (?i, RpcAppend ?peer ?addr ?t ?prev ?count ?req) ∈ _ |- _ =>
      by apply (appended_follows a c i peer addr t prev count req None) end.
  - by apply snapshot_follows.
  - by eapply restore_follows.
  - by apply install_follows.
  - eapply installed_follows; [done|done|done|]. by intros ? [= ->].
  - match goal with Hin : (?i, RpcSnapshot ?peer ?addr ?t ?lii ?req) ∈ _ |- _ =>
      by apply (installed_follows a c i peer addr t lii req None) end.
Qed.
End simulation.

(** ** Executions *)

Section execution.
Context {SM : Type} `{StateMachine SM}.
Context (book : PeerAddress -> NodeId) (M : gset N).
Implicit Types (n m : RaftNode SM) (a : raft) (i j k : N) (c : net (SM := SM)).

(** What the protocol makes of nodes that have just been constructed. *)
Definition origin c : raft :=
  Raft ((fun n => Participant (current_term n) []) <$> nodes (base c)) ∅ ∅ ∅ ∅.

Lemma origin_rel c : net_initial c -> net_rel book M (origin c) c.
Proof.
  intros (Hini & Es & Er & Ei & Hn). pose proof (initial_inv M (base c) Hini) as Hinv. destruct Hini as [Et Hrole]. split; cbn.
  - apply initial_sound. split_and!; try done. intros i x Hx. cbn in Hx. rewrite lookup_fmap in Hx.
    apply fmap_Some in Hx as (n & _ & ->). done.
  - by intros t q L.
  - exact Hinv.
  - intros i n Hi. destruct (Hn i n Hi) as (El & Ec & Ea & Em & Hsv). destruct (Hrole i n Hi) as (Eid & Hfol & _).
    exists []. split_and!; [|split; congruence|split; [rewrite Em, dom_empty; apply empty_subseteq|congruence]].
    split; [done|cbn; by rewrite lookup_fmap, Hi|rewrite El; apply compacted_empty|rewrite Ec; done|left; by rewrite take_nil|
      rewrite El, Ea; done|by rewrite El, Ea|by rewrite Ea, Ec|done].
  - intros i t p req. by rewrite Et, lookup_empty.
  - intros i r. rewrite Es. by intros ?%not_elem_of_nil.
  - intros i r x. rewrite Er. by intros ?%not_elem_of_nil.
  - intros i r. rewrite Ei. by intros ?%not_elem_of_nil.
Qed.

(** The cluster does something and still has the members [M]. *)
Definition settled_step c c' : Prop := net_step book c c' /\ settled_members book M c'.

(** What is committed stays so, and leaders keep what they have. *)
Definition progresses a a' : Prop :=
  (forall t C, committed M a t C -> committed M a' t C) /\
  (forall t q L, a_lead a !! t = Some (q, L) -> exists L', a_lead a' !! t = Some (q, L') /\ L `prefix_of` L').

#[export] Instance progresses_preorder : PreOrder progresses.
Proof.
  split; [by split; eauto|]. intros a1 a2 a3 [C1 L1] [C2 L2]. split; [auto|]. intros t q L HL.
  destruct (L1 _ _ _ HL) as (L' & HL' & P1). destruct (L2 _ _ _ HL') as (L'' & HL'' & P2). exists L''. split; [done|by etrans].
Qed.

Lemma execution_follows a c c' : net_rel book M a c -> settled_members book M c -> rtc settled_step c c' ->
  exists a', net_rel book M a' c' /\ progresses a a'.
Proof.
  intros Hrel Hset Hr. revert a Hrel Hset. induction Hr as [c|c1 c2 c3 [H12 Hs2] _ IH]; intros a Hrel Hset.
  - exists a. split; [done|]. split; [done|]. eauto.
  - destruct (net_step_follows book M a c1 c2 Hrel Hset H12) as (i & a2 & Hst & Hrel2 & _).
    destruct (steps_sound M i a a2 (nr_sound _ _ _ _ Hrel) Hst) as (_ & Hc & _ & _ & Hl).
    destruct (IH a2 Hrel2 Hs2) as (a3 & Hrel3 & Hp3). exists a3. split; [done|]. etrans; [|exact Hp3]. by split.
Qed.

Lemma execution_settled c c' : settled_members book M c -> rtc settled_step c c' -> settled_members book M c'.
Proof. intros Hset Hr. induction Hr as [|c1 c2 c3 [_ H2] _ IH]; [done|by apply IH]. Qed.

Lemma settled_progresses a a' T C : progresses a a' -> settled M a T C -> settled M a' T C.
Proof. intros [Hc _] [?|(t & ? & ?)]; [by left|right]. exists t. split; [done|by apply Hc]. Qed.

(** The entry of a node at an index it has committed is that of something settled. *)
Lemma committed_entry a c i n k e : net_rel book M a c -> nodes (base c) !! i = Some n ->
  (k <= commit_index_ n)%N -> At k (log_ n) = Some e ->
  exists C, settled M a (current_term n) C /\ length C = N.to_nat (commit_index_ n) /\ C !! N.to_nat (k - 1) = Some e /\ k <> 0%N.
Proof.
  intros Hrel Hi Hk He. destruct (nr_nodes _ _ _ _ Hrel i n Hi) as (f & [H1 H2 H3 H4 H5 H6 H7 H8 H9] & _).
  assert (Hs : (snapshot_index (log_ n) < k)%N) by (unfold At in He; destruct (N.leb_spec k (snapshot_index (log_ n))); [done|lia]).
  rewrite (view_At _ _ H3 k Hs) in He. exists (take (N.to_nat (commit_index_ n)) f). split_and!; [done| | |lia].
  - rewrite length_take. lia.
  - rewrite lookup_take_lt by lia. done.
Qed.
(** So do the entries of two settled logs at the same place agree. *)
Lemma settled_same a T T' C D x e e' : sound M a -> settled M a T C -> settled M a T' D -> C !! x = Some e -> D !! x = Some e' -> e = e'.
Proof.
  intros Hs HC HD EC ED. destruct (settled_comparable M a _ _ C D Hs HC HD) as [Hle|Hle].
  - pose proof (prefix_lookup_Some _ _ _ _ EC Hle). congruence.
  - pose proof (prefix_lookup_Some _ _ _ _ ED Hle). congruence.
Qed.

Lemma leader_has_progresses a a' t q e : progresses a a' -> leader_has a t q e -> leader_has a' t q e.
Proof.
  intros [_ Hl] (L & HL & He). destruct (Hl _ _ _ HL) as (L' & HL' & Hp). exists L'. split; [done|]. by eapply prefix_lookup_Some.
Qed.

(** What a leader has committed is settled, and is part of the log it leads with. *)
Lemma leader_commits a c i n L : net_rel book M a c -> nodes (base c) !! i = Some n -> role_ n = kLeader ->
  a_lead a !! current_term n = Some (i, L) ->
  settled M a (current_term n) (take (N.to_nat (commit_index_ n)) L) /\ (N.to_nat (commit_index_ n) <= length L)%nat.
Proof.
  intros Hrel Hi Hrole HL. destruct (nr_nodes _ _ _ _ Hrel i n Hi) as (f & Hn).
  destruct (leader_log M a i f n (nr_sound _ _ _ _ Hrel) Hn Hrole) as [HL' _]. simplify_eq.
  destruct Hn as ([_ _ _ H4 H5 _ _ _ _] & _). split; [done|lia].
Qed.
End execution.

(** ** What the state machines are *)

Section replicas.
Context {SM : Type} `{StateMachine SM}.
Context (book : PeerAddress -> NodeId) (M : gset N).
Implicit Types (n m : RaftNode SM) (a : raft) (f : full_log) (i j : N) (c : net (SM := SM)) (s : SM).

(** A step that installs no snapshot, and leaves alone the state machine of a node that applies
    nothing: a read that is one, a restart that finds the state machine as it was. *)
Definition calm_step c c' : Prop := settled_step book M c c' /\ installs c' = [] /\
  forall i n n', nodes (base c) !! i = Some n -> nodes (base c') !! i = Some n' -> last_applied_ n' = last_applied_ n -> sm_ n' = sm_ n.

Lemma calm_settled c c' : rtc calm_step c c' -> rtc (settled_step book M) c c'.
Proof. intros Hr. eapply (rtc_subrel calm_step); [by intros x y [? _]|exact Hr]. Qed.

(** The state machine started from [s] and has gone through the log up to where the node is, the
    callback returning on each entry. *)
Definition has_run s f n : Prop :=
  let l := take (N.to_nat (last_applied_ n)) f in entries_return (s, ∅) l /\ sm_ n = foldl exec s l.

(** Nodes have gone through the logs they stand for since [c0]. *)
Definition replayed a c0 c : Prop := forall i n0 n, nodes (base c0) !! i = Some n0 -> nodes (base c) !! i = Some n ->
  exists f, node_rel M a i f n /\ has_run (sm_ n0) f n.

Lemma replayed_start c0 : net_initial c0 -> replayed (origin c0) c0 c0.
Proof.
  intros H0 i n0 n Hi Hi'. assert (n0 = n) as -> by congruence. destruct (nr_nodes _ _ _ _ (origin_rel book M c0 H0) i n Hi) as (f & Hn).
  exists f. split; [done|]. destruct H0 as (_ & _ & _ & _ & Hn0). destruct (Hn0 i n Hi) as (_ & _ & Ha & _).
  unfold has_run. by rewrite Ha.
Qed.

Lemma net_step_dom c c' : net_step book c c' -> dom (nodes (base c')) = dom (nodes (base c)).
Proof.
  assert (Hin : forall i n n', nodes (base c) !! i = Some n -> dom (<[i := n']> (nodes (base c))) = dom (nodes (base c)))
    by (intros i n n' Hi; apply dom_insert_lookup_L; eauto).
  intros Hs. destruct Hs; cbn; first [done|by eapply Hin|repeat case_match; by eapply Hin].
Qed.

(** What a node has applied is settled. *)
Lemma applied_settled a i f n : node_rel M a i f n ->
  settled M a (current_term n) (take (N.to_nat (last_applied_ n)) f) /\ length (take (N.to_nat (last_applied_ n)) f) = N.to_nat (last_applied_ n).
Proof.
  intros ([_ _ _ H4 H5 _ _ H8 _] & _). split; [|rewrite length_take; lia].
  eapply settled_prefix; [|exact H5]. apply take_prefix_mono. lia.
Qed.

Lemma settled_extends a T T' C D : sound M a -> settled M a T C -> settled M a T' D -> (length C <= length D)%nat -> C `prefix_of` D.
Proof.
  intros Hs HC HD Hl. destruct (settled_comparable M a T T' C D Hs HC HD) as [?|Hp]; [done|].
  by rewrite (prefix_length_eq D C).
Qed.

Lemma has_run_step a a' i f n n' s : sound M a' -> settled M a' (current_term n) (take (N.to_nat (last_applied_ n)) f) ->
  length (take (N.to_nat (last_applied_ n)) f) = N.to_nat (last_applied_ n) -> has_run s f n ->
  (exists f', node_rel M a' i f' n') -> moves_on M a' i n n' -> (last_applied_ n' = last_applied_ n -> sm_ n' = sm_ n) ->
  exists f', node_rel M a' i f' n' /\ has_run s f' n'.
Proof.
  intros Hs HC LC [Hret Hrun] (f' & Hn') Hmove Hcalm. destruct Hmove as [E|(f2 & Hn2 & Hle & Hret2 & Hrun2)].
  - exists f'. split; [done|]. destruct (applied_settled a' i f' n' Hn') as [HD LD]. unfold has_run. rewrite (Hcalm E).
    assert (Hp : take (N.to_nat (last_applied_ n)) f `prefix_of` take (N.to_nat (last_applied_ n')) f') by (eapply settled_extends; [done..|lia]).
    apply prefix_length_eq in Hp; [|lia]. by rewrite <- Hp.
  - exists f2. split; [done|]. destruct (applied_settled a' i f2 n' Hn2) as [HD LD]. unfold has_run.
    assert (Hp : take (N.to_nat (last_applied_ n)) f `prefix_of` take (N.to_nat (last_applied_ n')) f2) by (eapply settled_extends; [done..|lia]).
    destruct Hp as [l El]. rewrite El in Hret2, Hrun2 |- *. rewrite drop_app_length' in Hret2, Hrun2 by done.
    rewrite foldl_app, entries_return_app, Hrun2, Hrun. split; [|done]. split; [done|].
    eapply entries_return_errors; [|exact Hret2]. cbn. by rewrite foldl_exec.
Qed.

Lemma replayed_step a a' i c0 c c' : net_rel book M a c -> rtc (raft_step M i) a a' -> net_rel book M a' c' -> replayed a c0 c ->
  calm_step c c' ->
  (forall j n n', nodes (base c) !! j = Some n -> nodes (base c') !! j = Some n' -> moves_on M a' j n n') -> replayed a' c0 c'.
Proof.
  intros Hrel Hst Hrel' Hrun ([Hstep _] & _ & Hcalm) Hmove j n0 n' Hj0 Hj'.
  assert (Hd : is_Some (nodes (base c) !! j)) by (apply elem_of_dom; rewrite <- (net_step_dom c c' Hstep); apply elem_of_dom; eauto).
  destruct Hd as [n Hj]. destruct (Hrun j n0 n Hj0 Hj) as (f & Hn & Hex). destruct (applied_settled a j f n Hn) as [HC LC].
  apply (has_run_step a a' j f n n'); [apply Hrel'|by eapply settled_steps; [apply Hrel|..]|done|done| |by apply Hmove|by apply (Hcalm j)].
  by apply (nr_nodes _ _ _ _ Hrel').
Qed.

Lemma calm_follows a c0 c c' : net_rel book M a c -> settled_members book M c -> installs c = [] -> replayed a c0 c -> calm_step c c' ->
  exists a', net_rel book M a' c' /\ progresses M a a' /\ replayed a' c0 c'.
Proof.
  intros Hrel Hset Hin Hrun Hcalm. destruct (net_step_follows book M a c c' Hrel Hset (proj1 (proj1 Hcalm))) as (i & a' & Hst & Hrel' & Hmove).
  destruct (steps_sound M i a a' (nr_sound _ _ _ _ Hrel) Hst) as (_ & Hc & _ & _ & Hl).
  exists a'. split; [done|]. split; [by split|]. eapply (replayed_step a a' i c0 c); try done. intros j n n'. by apply Hmove, nothing_installs.
Qed.

Lemma calm_execution a c0 c c' : net_rel book M a c -> settled_members book M c -> installs c = [] -> replayed a c0 c -> rtc calm_step c c' ->
  exists a', net_rel book M a' c' /\ progresses M a a' /\ installs c' = [] /\ replayed a' c0 c'.
Proof.
  intros Hrel Hset Hin Hrun Hr. revert a Hrel Hset Hin Hrun. induction Hr as [c|c1 c2 c3 H12 _ IH]; intros a Hrel Hset Hin Hrun.
  - exists a. by split_and!.
  - destruct (calm_follows a c0 c1 c2 Hrel Hset Hin Hrun H12) as (a2 & Hrel2 & Hp2 & Hrun2). destruct H12 as ([_ Hset2] & Hin2 & _).
    destruct (IH a2 Hrel2 Hset2 Hin2 Hrun2) as (a3 & Hrel3 & Hp3 & Hin3 & Hrun3). exists a3. split_and!; [done|by etrans|done|done].
Qed.
End replicas.
