(* ===== verification/LogSafety.v ===== *)
(** * What is committed is the same everywhere, for good

    The properties of Raft that follow from [NetworkSafe]: nodes never disagree about an index that
    both have committed, later leaders have what was committed before, and a command acknowledged
    by a leader that has led all along is never lost.  A leader that has lost its leadership while it
    waited may acknowledge a command that is lost ([Propose_acknowledges_lost_command]). *)

From Stdlib Require Import NArith Lia.
From stdpp Require Import fin_maps fin_sets fin_map_dom.
From S2P Require Export NetworkSafe.

(** ** Runs of three nodes *)

Abbreviation test_net := (net (SM := test_sm)).

Definition node_at (i : N) (c : test_net) : RaftNode test_sm := node_of i (base c).

(** Node [i] does something. *)
Definition acts (i : N) (f : RaftNode test_sm -> RaftNode test_sm) (c : test_net) : test_net :=
  net_act port_book i (node_at i c) (f (node_at i c)) c.

Definition stands (i : N) : test_net -> test_net := acts i (fun n => (StartElection test_env n).2).
Definition proposes (i : N) (cmd : bytes) : test_net -> test_net := acts i (fun n => (ProposeStart cmd n).2).
Definition replicates (i p : N) : test_net -> test_net := acts i (ReplicateTo p (member_address p)).

(** Node [p] takes the request of the candidate [i]. *)
Definition asked (i t p : N) (req : RequestVoteRequest) (c : test_net) : test_net :=
  with_base (Cluster (<[p := (HandleRequestVote test_env req (node_at p c)).2]> (nodes (base c)))
    (<[(i, t, p) := Answered (HandleRequestVote test_env req (node_at p c)).1]> (threads (base c)))) c.

(** Node [i] hears that it has the vote of [p]. *)
Definition yes (t : Term) : RequestVoteResponse := {| rvr_term := t; rvr_vote_granted := true |}.
Definition counts (i t p : N) (c : test_net) : test_net :=
  with_base (Cluster (<[i := (OnVoteResponse test_env t (yes t) (node_at i c)).2]> (nodes (base c))) (delete (i, t, p) (threads (base c)))) c.

(** Node [p] takes entries of the leader [i], and [i] hears that it did. *)
Definition taken (t : Term) : AppendEntriesResponse := {| aer_term := t; aer_success := true; aer_match_index := 1 |}.
Definition hands (i t p : N) prev count (req : AppendEntriesRequest) (c : test_net) : test_net :=
  with_reply [(i, RpcAppend p (member_address p) t prev count req, AppendReply (taken t))]
    (acts p (fun n => (HandleAppendEntries test_env req n).2) c).
Definition hears (i t p : N) prev count : test_net -> test_net :=
  acts i (fun n => (OnAppendResponse test_env p t prev count (Some (taken t)) n).2).

Definition entry_of (t : Term) (cmd : bytes) : LogEntry := {| index := 1; term := t; command := cmd |}.
Definition entries_of (i t : N) prev prev_term es commit : AppendEntriesRequest := {|
  ae_term := t; ae_leader_id := i; ae_prev_log_index := prev; ae_prev_log_term := prev_term; ae_entries := es; ae_leader_commit := commit |}.
Definition vote_of (i t : N) : RequestVoteRequest :=
  {| rv_term := t; rv_candidate_id := i; rv_last_log_index := 0; rv_last_log_term := 0 |}.

(** Node 1 is elected, commits a command with node 2, and node 2 learns of it. *)
Definition quiet_net : test_net := Net three [] [] [].
Definition standing1 := stands 1 quiet_net.
Definition voted2 := asked 1 1 2 (vote_of 1 1) standing1.
Definition elected1 := counts 1 1 2 voted2.
Definition proposed1 := proposes 1 (str "x") elected1.
Definition replicated1 := replicates 1 2 proposed1.
Definition append_x := entries_of 1 1 0 0 [entry_of 1 (str "x")] 0.
Definition received2 := hands 1 1 2 0 1 append_x replicated1.
Definition committed1 := hears 1 1 2 0 1 received2.
Definition announced1 := replicates 1 2 committed1.
Definition news_x := entries_of 1 1 1 1 [] 1.
Definition learned2 := hands 1 1 2 1 0 news_x announced1.

(** Or, before node 1 has replicated its command, node 2 is elected with the vote of node 3,
    commits another one, and node 1 learns of that. *)
Definition standing2 := stands 2 proposed1.
Definition voted3 := asked 2 2 3 (vote_of 2 2) standing2.
Definition elected2 := counts 2 2 3 voted3.
Definition proposed2 := proposes 2 (str "y") elected2.
Definition replicated2 := replicates 2 3 proposed2.
Definition append_y := entries_of 2 2 0 0 [entry_of 2 (str "y")] 0.
Definition received3 := hands 2 2 3 0 1 append_y replicated2.
Definition committed2 := hears 2 2 3 0 1 received3.
Definition announced2 := replicates 2 1 committed2.
Definition news_y := entries_of 2 2 0 0 [entry_of 2 (str "y")] 1.
Definition overwritten1 := hands 2 2 1 0 1 news_y announced2.

(** A computable form of [settled_members]. *)
Definition settledb (M : gset N) (c : net (SM := test_sm)) : bool :=
  forallb (fun x => agreedb port_book M x.2) (map_to_list (nodes (base c))) &&
  forallb (fun x => forallb (fun y => (port_book y.2 =? y.1)%N) (map_to_list (peers_ x.2))) (map_to_list (nodes (base c))).

Lemma settled_compute M c : settledb M c = true -> settled_members port_book M c.
Proof.
  intros [H1 H2]%andb_true_iff. split; [by apply fixed_compute|]. rewrite forallb_forall in H2.
  intros i n Hi%elem_of_map_to_list%list_elem_of_In p a Hp%elem_of_map_to_list%list_elem_of_In.
  specialize (H2 _ Hi). cbn in H2. rewrite forallb_forall in H2. by apply N.eqb_eq, (H2 (p, a)).
Qed.

(** And of [calm_step]. *)
Definition calmb (M : gset N) (c c' : net (SM := test_sm)) : bool :=
  settledb M c' && (if installs c' is [] then true else false) &&
  forallb (fun x => match nodes (base c') !! x.1 with
    | Some n' => negb (last_applied_ n' =? last_applied_ x.2)%N || bool_decide (sm_ n' = sm_ x.2)
    | None => true
    end) (map_to_list (nodes (base c))).

Lemma calm_compute M c c' : net_step port_book c c' -> calmb M c c' = true -> calm_step port_book M c c'.
Proof.
  intros Hstep [[H1 H2]%andb_true_iff H3]%andb_true_iff. split; [split; [done|by apply settled_compute]|].
  split; [by destruct (installs c')|]. rewrite forallb_forall in H3. intros i n n' Hi%elem_of_map_to_list%list_elem_of_In Hi' E.
  specialize (H3 _ Hi). cbn in H3. rewrite Hi', E, N.eqb_refl in H3. by apply bool_decide_eq_true in H3.
Qed.

Lemma quiet_initial : net_initial quiet_net.
Proof.
  split; [exact three_initial|]. split_and!; [done..|]. intros i n Hi. apply elem_of_list_to_map_2 in Hi.
  rewrite !elem_of_cons, elem_of_nil in Hi. unfold log_saved.
  destruct Hi as [[= -> ->]|[[= -> ->]|[[= -> ->]|[]]]]; (split_and!; [by vm_compute..|right; by vm_compute]).
Qed.

Abbreviation three_members := ({[1%N; 2%N; 3%N]} : gset N).

Lemma node_at_lookup i c : bool_decide (is_Some (nodes (base c) !! i)) = true -> nodes (base c) !! i = Some (node_at i c).
Proof. apply node_of_lookup. Qed.

(** One step of the run: it is taken, and it is calm. *)
Ltac run_step c lem :=
  apply (rtc_l _ _ c); [apply calm_compute; [apply lem|vm_compute; reflexivity]|].

(** A side condition of a step that evaluation decides. *)
Ltac evaluates := first [by apply node_at_lookup; vm_compute|vm_compute; reflexivity].

(** The steps of the runs, their side conditions evaluated. *)
Ltac stand_step c c' i := run_step c' (net_election port_book c i (node_at i c) test_env); [evaluates..|].
Ltac ask_step c c' i t p req := run_step c' (net_vote port_book c i t p (node_at p c) test_env req); [evaluates..|].
Ltac count_step c c' i t p := run_step c' (net_answer port_book c i t p (node_at i c) test_env (yes t)); [evaluates..|].
Ltac propose_step c c' i := run_step c' (net_local port_book c i (node_at i c)); [evaluates|apply (local_propose port_book _ _ (Appended 1)); vm_compute; reflexivity|].
Ltac replicate_step c c' i :=
  run_step c' (net_local port_book c i (node_at i c));
  [evaluates|apply local_replicate; [eexists; vm_compute; reflexivity|done|by vm_compute]|].
Ltac hand_step c c' i t p prev count req k :=
  run_step c' (net_append port_book c i p (member_address p) t prev count req (node_at p c) test_env (taken t));
  [apply (list_elem_of_lookup_2 _ k); evaluates|evaluates|evaluates|].
Ltac hear_step c c' i t p prev count req k :=
  run_step c' (net_appended port_book c i p (member_address p) t prev count req (taken t) (node_at i c) test_env);
  [apply (list_elem_of_lookup_2 _ k); evaluates|evaluates|evaluates|].

Abbreviation runs := (rtc (calm_step port_book three_members)).

Lemma elected1_reachable : runs quiet_net elected1.
Proof.
  stand_step quiet_net standing1 1%N. ask_step standing1 voted2 1%N 1%N 2%N (vote_of 1 1). by count_step voted2 elected1 1%N 1%N 2%N.
Qed.

Lemma committed1_reachable : runs proposed1 committed1.
Proof.
  replicate_step proposed1 replicated1 1%N. hand_step replicated1 received2 1%N 1%N 2%N 0%N 1%nat append_x 0%nat.
  by hear_step received2 committed1 1%N 1%N 2%N 0%N 1%nat append_x 0%nat.
Qed.

Lemma proposed1_calm : calm_step port_book three_members elected1 proposed1.
Proof.
  apply calm_compute; [|vm_compute; reflexivity]. apply (net_local port_book elected1 1 (node_at 1 elected1)); [evaluates|].
  apply (local_propose port_book _ _ (Appended 1)); vm_compute; reflexivity.
Qed.

Lemma proposed1_reachable : runs quiet_net proposed1.
Proof. etrans; [exact elected1_reachable|]. apply rtc_once. exact proposed1_calm. Qed.

Lemma committed1_run : runs quiet_net committed1.
Proof. etrans; [exact proposed1_reachable|exact committed1_reachable]. Qed.

Lemma learned2_reachable : runs committed1 learned2.
Proof. replicate_step committed1 announced1 1%N. by hand_step announced1 learned2 1%N 1%N 2%N 1%N 0%nat news_x 1%nat. Qed.

Lemma overwritten1_reachable : runs proposed1 overwritten1.
Proof.
  stand_step proposed1 standing2 2%N. ask_step standing2 voted3 2%N 2%N 3%N (vote_of 2 2). count_step voted3 elected2 2%N 2%N 3%N.
  propose_step elected2 proposed2 2%N. replicate_step proposed2 replicated2 2%N.
  hand_step replicated2 received3 2%N 2%N 3%N 0%N 1%nat append_y 0%nat. hear_step received3 committed2 2%N 2%N 3%N 0%N 1%nat append_y 0%nat.
  replicate_step committed2 announced2 2%N. by hand_step announced2 overwritten1 2%N 2%N 1%N 0%N 1%nat news_y 1%nat.
Qed.

(** ** Properties *)

(** C4: committed logs agree. Start any number of nodes and let them act, crash, restart, stand
    for election, replicate entries and snapshots to one another, with every request and answer
    delivered in any order, repeatedly, late or not at all: as long as the members stay the same
    and no apply callback throws, an entry that a node has committed at an index is the entry
    every node has there that has committed the index as well, then or at any later time. *)
Theorem committed_logs_agree {SM} `{StateMachine SM} book (M : gset N) (c0 c1 c2 : net) i j k (ni nj : RaftNode SM) e e' :
  net_initial c0 -> settled_members book M c0 ->
  rtc (settled_step book M) c0 c1 -> rtc (settled_step book M) c1 c2 ->
  nodes (base c1) !! i = Some ni -> nodes (base c2) !! j = Some nj ->
  (k <= commit_index_ ni)%N -> (k <= commit_index_ nj)%N ->
  At k (log_ ni) = Some e -> At k (log_ nj) = Some e' -> e = e'.
Proof.
  intros H0 Hset H01 H12 Hi Hj Hki Hkj He He'.
  destruct (execution_follows book M _ c0 c1 (origin_rel book M c0 H0) Hset H01) as (a1 & Hr1 & _).
  destruct (execution_follows book M a1 c1 c2 Hr1 (execution_settled book M c0 c1 Hset H01) H12) as (a2 & Hr2 & Hp).
  destruct (committed_entry book M a1 c1 i ni k e Hr1 Hi Hki He) as (C & HC & LC & EC & Hk).
  destruct (committed_entry book M a2 c2 j nj k e' Hr2 Hj Hkj He') as (D & HD & LD & ED & _).
  eapply (settled_same M a2); [apply Hr2|exact (settled_progresses M a1 a2 _ C Hp HC)|exact HD|exact EC|exact ED].
Qed.

(** Node 1 commits the command; later node 2 does, and it is the same. *)
Lemma committed_logs_agree_witness :
  commit_index_ (node_at 1 committed1) = 1%N /\ commit_index_ (node_at 2 learned2) = 1%N /\
  entry_of 1 (str "x") = entry_of 1 (str "x").
Proof.
  assert (E1 : commit_index_ (node_at 1 committed1) = 1%N) by (vm_compute; reflexivity).
  assert (E2 : commit_index_ (node_at 2 learned2) = 1%N) by (vm_compute; reflexivity).
  split; [exact E1|]. split; [exact E2|].
  apply (committed_logs_agree port_book three_members quiet_net committed1 learned2 1 2 1 (node_at 1 committed1) (node_at 2 learned2)).
  - exact quiet_initial.
  - apply settled_compute. vm_compute. reflexivity.
  - apply calm_settled. exact committed1_run.
  - apply calm_settled. exact learned2_reachable.
  - apply node_at_lookup. vm_compute. reflexivity.
  - apply node_at_lookup. vm_compute. reflexivity.
  - rewrite E1. reflexivity.
  - rewrite E2. reflexivity.
  - vm_compute. reflexivity.
  - vm_compute. reflexivity.
Defined.

(** C7: leaders are complete. In the same cluster, an entry that a node has committed at an index
    is in the log of every later leader of the term the node had then or of a newer one, unless
    the leader's log has been compacted beyond the index. *)
Theorem leader_completeness {SM} `{StateMachine SM} book (M : gset N) (c0 c1 c2 : net) i j k (ni nj : RaftNode SM) e :
  net_initial c0 -> settled_members book M c0 ->
  rtc (settled_step book M) c0 c1 -> rtc (settled_step book M) c1 c2 ->
  nodes (base c1) !! i = Some ni -> nodes (base c2) !! j = Some nj ->
  (k <= commit_index_ ni)%N -> At k (log_ ni) = Some e ->
  role_ nj = kLeader -> (current_term ni <= current_term nj)%N -> (snapshot_index (log_ nj) < k)%N ->
  At k (log_ nj) = Some e.
Proof.
  intros H0 Hset H01 H12 Hi Hj Hki He Hrole Ht Hsnap.
  destruct (execution_follows book M _ c0 c1 (origin_rel book M c0 H0) Hset H01) as (a1 & Hr1 & _).
  destruct (execution_follows book M a1 c1 c2 Hr1 (execution_settled book M c0 c1 Hset H01) H12) as (a2 & Hr2 & Hp).
  destruct (committed_entry book M a1 c1 i ni k e Hr1 Hi Hki He) as (C & HC & LC & EC & Hk).
  destruct (nr_nodes _ _ _ _ Hr2 j nj Hj) as (f & Hn). pose proof (nr_sound _ _ _ _ Hr2) as Hs.
  destruct (leader_log M a2 j f nj Hs Hn Hrole) as [HL _]. destruct Hn as ([_ _ Hlog _ _ _ _ _ _] & _).
  rewrite (view_At _ _ Hlog) by done. eapply prefix_lookup_Some; [exact EC|].
  apply (settled_in_lead M a2 _ C _ j f Hs (settled_progresses M a1 a2 _ C Hp HC) Ht HL).
Qed.

(** The leader that committed the command still has it when node 2 learns of it. *)
Lemma leader_completeness_witness : At 1 (log_ (node_at 1 learned2)) = Some (entry_of 1 (str "x")).
Proof.
  apply (leader_completeness port_book three_members quiet_net committed1 learned2 1 1 1 (node_at 1 committed1) (node_at 1 learned2)).
  - exact quiet_initial.
  - apply settled_compute. vm_compute. reflexivity.
  - apply calm_settled. exact committed1_run.
  - apply calm_settled. exact learned2_reachable.
  - apply node_at_lookup. vm_compute. reflexivity.
  - apply node_at_lookup. vm_compute. reflexivity.
  - vm_compute. discriminate.
  - vm_compute. reflexivity.
  - vm_compute. reflexivity.
  - vm_compute. discriminate.
  - vm_compute. reflexivity.
Defined.

(** C8: acknowledged commands are kept. In the same cluster, if a leader appends a command at an
    index in [Propose] and finds at the end of its wait, still leading the same term, that the
    index is committed, then the command is what every node has there that has committed the
    index, then and at any later time. *)
Theorem acknowledged_command_kept {SM} `{StateMachine SM} book (M : gset N) (c0 c1 c2 c3 : net) i j k (n n2 nj : RaftNode SM) cmd e :
  net_initial c0 -> settled_members book M c0 -> rtc (settled_step book M) c0 c1 ->
  nodes (base c1) !! i = Some n -> TryDecodeConfChange cmd = Ret None -> (LastIndex (log_ n) + 2 < two64)%N ->
  (ProposeStart cmd n).1 = Ret (Appended k) ->
  settled_members book M (net_act book i n (ProposeStart cmd n).2 c1) ->
  rtc (settled_step book M) (net_act book i n (ProposeStart cmd n).2 c1) c2 ->
  nodes (base c2) !! i = Some n2 -> role_ n2 = kLeader -> current_term n2 = current_term n -> (ProposeFinish k n2).1 = true ->
  rtc (settled_step book M) c2 c3 -> nodes (base c3) !! j = Some nj -> (k <= commit_index_ nj)%N -> At k (log_ nj) = Some e ->
  e = {| index := k; term := current_term n; command := cmd |}.
Proof.
  intros H0 Hset H01 Hi Hcmd Hb Hk Hset1 H12 Hi2 Hrole Ht Hfin H23 Hj Hkj He.
  destruct (execution_follows book M _ c0 c1 (origin_rel book M c0 H0) Hset H01) as (a1 & Hr1 & _).
  destruct (propose_follows book M a1 c1 i n cmd Hr1 (execution_settled book M c0 c1 Hset H01) Hi Hcmd Hb _ Hk) as (a1' & _ & Hr1' & _ & Hhas).
  destruct (execution_follows book M a1' _ c2 Hr1' Hset1 H12) as (a2 & Hr2 & Hp2).
  destruct (execution_follows book M a2 c2 c3 Hr2 (execution_settled book M _ c2 Hset1 H12) H23) as (a3 & Hr3 & Hp3).
  destruct (leader_has_progresses M a1' a2 _ _ _ Hp2 (Hhas k eq_refl)) as (L & HL & EL). apply N.leb_le in Hfin.
  destruct (leader_commits book M a2 c2 i n2 L Hr2 Hi2 Hrole) as [HC LC]; [by rewrite Ht|].
  destruct (committed_entry book M a3 c3 j nj k e Hr3 Hj Hkj He) as (D & HD & LD & ED & Hk0).
  symmetry. eapply (settled_same M a3); [apply Hr3|by eapply settled_progresses|exact HD| |exact ED].
  rewrite lookup_take_lt; [done|]. cbn [index] in *. lia.
Qed.

(** Node 1 proposes its command and finds it committed; node 2 has it too. *)
Lemma acknowledged_command_kept_witness :
  (ProposeFinish 1 (node_at 1 committed1)).1 = true /\ entry_of 1 (str "x") = {| index := 1; term := current_term (node_at 1 elected1); command := str "x" |}.
Proof.
  assert (E : (ProposeFinish 1 (node_at 1 committed1)).1 = true) by (vm_compute; reflexivity). split; [exact E|].
  apply (acknowledged_command_kept port_book three_members quiet_net elected1 committed1 learned2 1 2 1
           (node_at 1 elected1) (node_at 1 committed1) (node_at 2 learned2)).
  - exact quiet_initial.
  - apply settled_compute. vm_compute. reflexivity.
  - apply calm_settled. exact elected1_reachable.
  - apply node_at_lookup. vm_compute. reflexivity.
  - reflexivity.
  - vm_compute. reflexivity.
  - vm_compute. reflexivity.
  - apply settled_compute. vm_compute. reflexivity.
  - apply calm_settled. exact committed1_reachable.
  - apply node_at_lookup. vm_compute. reflexivity.
  - vm_compute. reflexivity.
  - vm_compute. reflexivity.
  - exact E.
  - apply calm_settled. exact learned2_reachable.
  - apply node_at_lookup. vm_compute. reflexivity.
  - vm_compute. discriminate.
  - vm_compute. reflexivity.
Defined.

(** [Propose] looks at the commit index alone when its wait ends. Node 1 appends a command and
    loses its leadership before anyone else has it; the next leader commits another command at
    that index, and node 1 reports its own as committed, which no node has. *)
Lemma Propose_acknowledges_lost_command :
  runs quiet_net elected1 /\ ProposeStart (str "x") (node_at 1 elected1) = (Ret (Appended 1), node_at 1 proposed1) /\
  runs proposed1 overwritten1 /\ ProposeFinish 1 (node_at 1 overwritten1) = (true, []) /\
  map (fun i => At 1 (log_ (node_at i overwritten1))) [1; 2; 3]%N = repeat (Some (entry_of 2 (str "y"))) 3.
Proof.
  split; [exact elected1_reachable|]. split; [vm_compute; reflexivity|]. split; [exact overwritten1_reachable|].
  split; vm_compute; reflexivity.
Qed.
