(* ===== verification/CatchUp.v ===== *)
(** * A follower catches up

    The leader backs off by one entry each time a follower refuses what it sends.  In any state
    that the cluster can reach, if the leader and one follower exchange requests and answers and
    their logs agree at an index that the leader has not compacted past, the follower has the
    whole log of the leader after at most as many rounds as the leader's next index for it is
    above that index. *)

From Stdlib Require Import NArith Lia.
From stdpp Require Import fin_maps fin_sets fin_map_dom.
From S2P Require Export LogSafety.

Section catch_up.
Context {SM : Type} `{StateMachine SM}.
Context (book : PeerAddress -> NodeId) (M : gset N) (env : Env) (i p : NodeId) (addr : PeerAddress).
Implicit Types (n m : RaftNode SM) (a : raft) (f g : full_log) (j : N).

(** The leader sends what it has for the peer, the peer handles that, and the leader hears the
    answer: the two nodes afterwards, if no handler throws. *)
Definition round (x : RaftNode SM * RaftNode SM) : option (RaftNode SM * RaftNode SM) :=
  let n := ReplicateTo p addr x.1 in
  match drop (length (rpcs_ x.1)) (rpcs_ n) with
  | [RpcAppend peer _ t prev count req] =>
    match HandleAppendEntries env req x.2 with
    | (Ret resp, m) =>
      match OnAppendResponse env peer t prev count (Some resp) n with
      | (Ret _, n) => Some (n, m)
      | _ => None
      end
    | _ => None
    end
  | _ => None
  end.

Fixpoint rounds (k : nat) (x : RaftNode SM * RaftNode SM) : option (RaftNode SM * RaftNode SM) :=
  match k with
  | O => Some x
  | S k => round x ≫= rounds k
  end.

(** The leader [n] faces the follower [m] and would send it the entries from [j] on; the logs agree
    at [q], which the leader has not compacted past. *)
Record faces q a n m j : Prop := {
  fa_sound : sound M a;
  fa_wf : leads_wf a;
  fa_leader : exists f, node_rel M a i f n;
  fa_follower : exists g, node_rel M a p g m;
  fa_other : i <> p;
  fa_book : book addr = p;
  fa_hard : hard_ok n;
  fa_hard' : hard_ok m;
  fa_role : role_ n = kLeader;
  fa_member : id_ n ∈ M;
  fa_peers : dom (peers_ n) = M ∖ {[id_ n]};
  fa_peer : peers_ n !! p = Some addr;
  fa_stays : pending_self_removal_index_ n = 0%N;
  fa_idle : p ∉ replication_in_flight_ n;
  fa_term : (current_term m <= current_term n)%N;
  fa_next : next_index_ n !! p = Some j;
  fa_common : (snapshot_index (log_ n) <= q < j)%N;
  fa_agree : q = 0%N \/ TermAt q (log_ m) = TermAt q (log_ n);
}.

(** The request of a round. *)
Definition the_request n j : AppendEntriesRequest :=
  {| ae_term := current_term n; ae_leader_id := id_ n; ae_prev_log_index := j - 1;
     ae_prev_log_term := TermAt (j - 1) (log_ n); ae_entries := entries_from j (log_ n);
     ae_leader_commit := commit_index_ n |}.

Definition after_send n j : RaftNode SM :=
  start_rpcs [RpcAppend p addr (current_term n) (j - 1) (length (entries_from j (log_ n))) (the_request n j)]
    (in_flight p true (set_next_index (<[p := j]> (next_index_ n)) n)).

Lemma faces_send q a n m j : faces q a n m j -> ReplicateTo p addr n = after_send n j.
Proof.
  intros [_ _ _ _ _ _ _ _ Hr _ _ _ _ Hi _ Hn Hj _]. unfold ReplicateTo, BeginReplicate. rewrite bool_decide_true by done. cbn [negb].
  rewrite decide_False by done. unfold next_of. rewrite Hn. cbn [default from_option id fst snd]. cbv zeta.
  cbn [log_ set_next_index]. by destruct (N.leb_spec j (snapshot_index (log_ n))); [lia|].
Qed.

Lemma faces_request q a n m j f : faces q a n m j -> node_rel M a i f n -> append_valid M a i (the_request n j) /\
  quiet n (after_send n j) /\ a_lead a !! current_term n = Some (i, f) /\ (N.to_nat (j - 1) + length (entries_from j (log_ n)))%nat = length f.
Proof.
  intros Hf Hn. pose proof (faces_send q a n m j Hf) as E. pose proof (ReplicateTo_quiet p addr n) as Hq. rewrite E in Hq.
  destruct Hf as [Hs Hw _ _ Hne Hb Hok _ Hr _ _ Hp _ _ _ Hj Hpos _].
  destruct (ReplicateTo_sends book M a i f n p addr Hs Hn Hok) as (l & El & Hl); [by eexists|done|done|].
  rewrite E in El. apply app_inv_head in El. subst l. rewrite Forall_singleton in Hl. destruct Hl as (_ & _ & _ & _ & _ & Hv).
  destruct (leader_log M a i f n Hs Hn Hr) as [HL Hx]. split_and!; [exact Hv|exact Hq|done|].
  assert (Hle : (j <= N.of_nat (length f) + 1)%N) by (eapply Hx; [apply elem_of_dom; by eexists|done]).
  rewrite (view_entries_from _ f) by (apply Hn || lia). rewrite length_drop. lia.
Qed.

(** What the leader makes of the two answers. *)
Lemma hears_answer n t prev count resp : peers_ n !! p = Some addr -> role_ n = kLeader -> t = current_term n -> aer_term resp = t ->
  OnAppendResponse env p t prev count (Some resp) n =
  if aer_success resp then MaybeAdvanceCommitIndex (record_progress p prev count (in_flight p false n))
  else (Ret tt, let m := (next_of p (in_flight p false n)).2 in let j := default 0%N (next_index_ n !! p) in
    if (1 <? j)%N then set_next_index (<[p := j - 1]> (next_index_ m))%N m else m).
Proof.
  intros Hp Hr -> Ht. unfold OnAppendResponse. rewrite run_modify, run_get.
  change (peers_ (in_flight p false n)) with (peers_ n). change (current_term (in_flight p false n)) with (current_term n).
  change (role_ (in_flight p false n)) with (role_ n). rewrite Hp, Hr, Ht, N.ltb_irrefl, N.eqb_refl. cbn [bool_decide negb orb].
  rewrite bool_decide_false by done. rewrite bool_decide_true by done. cbn [negb orb]. destruct (aer_success resp); [by rewrite run_modify|].
  unfold st_modify, next_of. cbv zeta. cbn [fst snd]. change (next_index_ (in_flight p false n)) with (next_index_ n). by destruct (_ <? _)%N.
Qed.

(** A leader that is not about to leave stays, and keeps what it knows of its peers. *)
Lemma advance_keeps n : pending_self_removal_index_ n = 0%N -> match_index_ (MaybeAdvanceCommitIndex n).2 = match_index_ n.
Proof.
  intros Hz. unfold MaybeAdvanceCommitIndex. rewrite run_get. cbv zeta. destruct (_ && _); [|done]. rewrite run_modify.
  set (n1 := set_commit_index _ n). assert (E1 : match_index_ n1 = match_index_ n /\ pending_self_removal_index_ n1 = 0%N) by done.
  clearbody n1. destruct E1 as [<- Hz1]. pose proof (ApplyCommitted_frame n1) as Hf. unfold apply_frame in Hf.
  unfold mbind at 1, ST_bind at 1. destruct (ApplyCommitted n1) as [[[]|e|] n2]; cbn [snd] in *; [|congruence..].
  rewrite run_get. assert (pending_self_removal_index_ n2 = 0%N) as -> by congruence. cbn. congruence.
Qed.

(** A follower that has accepted everything has everything. *)
Lemma accepted_round a n m f g prev count : callbacks_return (SM := SM) -> sound M a -> leads_wf a ->
  node_rel M a i f (in_flight p false n) -> node_rel M a p g m -> i <> p -> role_ n = kLeader -> id_ n ∈ M -> dom (peers_ n) = M ∖ {[id_ n]} ->
  peers_ n !! p = Some addr -> pending_self_removal_index_ n = 0%N -> current_term m = current_term n ->
  a_lead a !! current_term n = Some (i, f) -> (N.to_nat prev + count)%nat = length f ->
  (p, current_term n, (N.to_nat prev + count)%nat) ∈ a_acks a ->
  exists a' n' k, MaybeAdvanceCommitIndex (record_progress p prev count (in_flight p false n)) = (Ret tt, n') /\
    node_rel M a' i f n' /\ node_rel M a' p g m /\ f `prefix_of` g /\ match_index_ n' !! p = Some k /\ (N.of_nat (length f) <= k)%N.
Proof.
  intros Hcb Hs Hw Hn Hm Hne Hr HM Hdom Hp Hz Ht HL Hlen Hack. destruct (node_wf M a i f _ Hs Hw Hn) as [_ Hwf].
  assert (Hn2 : node_rel M a i f (record_progress p prev count (in_flight p false n))).
  { apply record_progress_rel; try done. change (peers_ (in_flight p false n)) with (peers_ n). congruence. }
  set (n2 := record_progress _ _ _ _) in *. assert (E2 : role_ n2 = kLeader /\ id_ n2 ∈ M /\ dom (peers_ n2) = M ∖ {[id_ n2]}) by done.
  destruct E2 as (Er & Eid & Ed). pose proof (MaybeAdvanceCommitIndex_returns M a i f n2 Hcb Hs Hw Hwf Hn2 Er Eid Ed) as Hret.
  destruct (MaybeAdvanceCommitIndex_rel M a i f n2 Hs Hw Hwf Hn2 Er Eid Ed Hret) as (a' & R & Hn' & _).
  pose proof (advance_keeps n2 Hz) as Ematch. destruct (MaybeAdvanceCommitIndex n2) as [r n'] eqn:E. cbn [fst snd] in *. subst r.
  eexists a', n', _. split; [done|]. split; [done|]. split; [by eapply node_rel_other; [exact Hs|apply R| |]|]. split; [|split].
  - destruct (s_ack M a Hs _ _ _ Hack) as (q & L & x & HL' & _ & Hx & _ & Hall). assert (L = f) as -> by congruence.
    rewrite (lr_node _ _ _ _ _ (proj1 Hm)) in Hx. injection Hx as <-. cbn [a_term a_log] in Hall.
    destruct (Hall _ (le_n _)) as [Hpre|(T & HT & _)]; [|lia]. by rewrite Hlen, take_ge in Hpre.
  - rewrite Ematch. unfold n2, record_progress. cbn. apply lookup_insert_eq.
  - destruct Hwf as (_ & _ & Hb). assert (Hu : u64_add prev (N.of_nat count) = N.of_nat (length f)) by (unfold u64_add, u64; rewrite N.mod_small; lia). lia.
Qed.

(** One that has refused is sent one entry more. *)
Lemma faces_refused q a n m f g j (n1 := (next_of p (in_flight p false n)).2) :
  sound M a -> leads_wf a -> node_rel M a i f (in_flight p false n) -> node_rel M a p g m -> i <> p -> book addr = p ->
  hard_ok n -> hard_ok m -> role_ n = kLeader -> id_ n ∈ M -> dom (peers_ n) = M ∖ {[id_ n]} -> peers_ n !! p = Some addr ->
  pending_self_removal_index_ n = 0%N -> (current_term m <= current_term n)%N -> next_index_ n !! p = Some j ->
  (snapshot_index (log_ n) <= q < j - 1)%N -> q = 0%N \/ TermAt q (log_ m) = TermAt q (log_ n) -> faces q a (set_next_index (<[p := j - 1]> (next_index_ n1))%N n1) m (j - 1).
Proof.
  intros Hs Hw Hn Hm Hne Hb Hok Hok' Hr HM Hd Hp Hz Ht Hj Hpos Hagree. split; try done.
  - exists f. eapply quiet_rel; [|exact Hn]. etrans; [apply next_of_quiet|]. apply next_index_quiet. cbn. rewrite lookup_insert_eq, Hj. cbn. lia.
  - by exists g.
  - destruct Hok. by split.
  - cbn. set_solver.
  - cbn. apply lookup_insert_eq.
Qed.

Lemma round_run q a n m j : callbacks_return (SM := SM) -> faces q a n m j ->
  exists a' n' m', round (n, m) = Some (n', m') /\
    ((q + 1 < j)%N /\ faces q a' n' m' (j - 1) /\ log_ n' = log_ n \/
     exists f g k, node_rel M a i f n /\ node_rel M a' p g m' /\ f `prefix_of` g /\
       match_index_ n' !! p = Some k /\ (N.of_nat (length f) <= k)%N).
Proof.
  intros Hcb Hf. destruct (fa_leader _ _ _ _ _ Hf) as [f Hn]. destruct (fa_follower _ _ _ _ _ Hf) as [g Hm].
  destruct (faces_request q a n m j f Hf Hn) as (Hv & Hq & HL & Hlen). unfold round. cbn [fst snd].
  rewrite (faces_send q a n m j Hf). assert (E1 : drop (length (rpcs_ n)) (rpcs_ (after_send n j)) =
    [RpcAppend p addr (current_term n) (j - 1) (length (entries_from j (log_ n))) (the_request n j)]) by apply drop_app_length.
  rewrite E1. clear E1. set (req := the_request n j) in *. assert (Hn1 := quiet_rel M a i f n _ Hq Hn).
  assert (E1 : peers_ (after_send n j) = peers_ n /\ role_ (after_send n j) = role_ n /\ current_term (after_send n j) = current_term n /\
    id_ (after_send n j) = id_ n /\ next_index_ (after_send n j) !! p = Some j /\ log_ (after_send n j) = log_ n /\
    pending_self_removal_index_ (after_send n j) = 0%N /\ replication_in_flight_ (after_send n j) = replication_in_flight_ n ∪ {[p]} /\
    hard_ok (after_send n j)).
  { destruct (fa_hard _ _ _ _ _ Hf). split_and!; try done; [cbn; apply lookup_insert_eq|apply (fa_stays _ _ _ _ _ Hf)]. }
  set (count := length (entries_from j (log_ n))) in *.
  generalize dependent (after_send n j). intros n1 Hq Hn1 (Ep1 & Er1 & Et1 & Ei1 & Ex1 & El1 & Ez1 & Ef1 & Hok1).
  destruct Hf as [Hs Hw _ _ Hne Hb Hok Hok' Hr HM Hdom Hp Hz Hidle Ht Hj Hpos Hagree].
  destruct (HandleAppendEntries_returns M a p g m env i req Hcb Hs Hw Hm Hv Hne Ht) as (resp & Hresp & Hterm & Hrej).
  destruct (HandleAppendEntries_rel M a p g m env i req Hs Hw Hm Hv Hne resp Hresp) as (a1 & g' & R1 & Hm' & _ & Hack).
  pose proof (HandleAppendEntries_resp env req m resp Hresp) as Hrt. rewrite Hterm in Hrt.
  assert (Hok1' : hard_ok (HandleAppendEntries env req m).2) by (apply (other_step_vote_le m); [by constructor; apply Hv|done]).
  pose proof (reaches_sound M _ _ _ Hs R1) as Hs1. assert (Hn2 := node_rel_other M a a1 p i f n1 Hs (re_steps _ _ _ _ R1) Hne Hn1).
  destruct (HandleAppendEntries env req m) as [r m'] eqn:Em. cbn [fst snd] in *. subst r.
  assert (Et : current_term n = ae_term req) by done. rewrite (hears_answer n1) by (congruence || done).
  assert (Hn3 : node_rel M a1 i f (in_flight p false n1)) by (eapply quiet_rel; [|exact Hn2]; by apply view_quiet).
  destruct (aer_success resp) eqn:Eok.
  - destruct (accepted_round a1 n1 m' f g' (j - 1)%N count) as (a' & n' & k & E & H1 & H2 & H3 & H4 & H5); try done; try congruence.
    { apply R1. }
    { by rewrite Et1, (os_lead _ _ _ (proj1 (proj2 (proj2 (steps_sound M p a a1 Hs (re_steps _ _ _ _ R1)))))) by done. }
    { rewrite Et1. by apply Hack. }
    rewrite E. exists a', n', m'. split; [done|]. right. exists f, g', k. by split_and!.
  - destruct (Hrej eq_refl) as (Hj1 & Hdiff & El'). cbn in Hj1, Hdiff. rewrite Ex1. cbn [default from_option id].
    assert (Hq1 : q <> (j - 1)%N) by (intros ->; destruct Hagree; [lia|done]). destruct (N.ltb_spec 1 j); [|lia].
    eexists a1, _, m'. split; [reflexivity|]. left. split; [lia|]. split; [|exact El1].
    eapply faces_refused; try done; [apply R1|congruence|by rewrite Ei1|by rewrite Ep1, Ei1|congruence| | |by rewrite El1, El'].
    + by rewrite Et1, Hterm.
    + rewrite El1. lia.
Qed.

(** As many rounds as the next index says are enough. *)
Lemma rounds_run q a n m j : callbacks_return (SM := SM) -> faces q a n m j ->
  exists k a' n' m' f g x, (k <= N.to_nat (j - q))%nat /\ rounds k (n, m) = Some (n', m') /\ node_rel M a' p g m' /\
    compacted (log_ n) f /\ f `prefix_of` g /\ match_index_ n' !! p = Some x /\ (N.of_nat (length f) <= x)%N.
Proof.
  intros Hcb. remember (N.to_nat (j - q)) as d eqn:Ed. revert a n m j Ed. induction d as [|d IH]; intros a n m j Ed Hf.
  { pose proof (fa_common _ _ _ _ _ Hf). lia. }
  destruct (round_run q a n m j Hcb Hf) as (a' & n' & m' & E & [(Hj & Hf' & El)|(f & g & x & Hn & Hm' & Hp & Hx & Hle)]).
  - destruct (IH a' n' m' (j - 1)%N ltac:(lia) Hf') as (k & a2 & n2 & m2 & f & g & x & Hk & E2 & Hm2 & Hc & Hp & Hx & Hle).
    exists (S k), a2, n2, m2, f, g, x. rewrite El in Hc. split_and!; try done; [lia|]. cbn [rounds]. by rewrite E.
  - exists 1%nat, a', n', m', f, g, x. split_and!; try done; [lia|by cbn [rounds]; rewrite E|apply Hn].
Qed.
End catch_up.

(** Node 1 leads again after it has committed its command with node 2; node 3 has nothing yet. *)
Definition again_request : RequestVoteRequest :=
  {| rv_term := 2; rv_candidate_id := 1; rv_last_log_index := 1; rv_last_log_term := 1 |}.
Definition standing_again := stands 1 committed1.
Definition voted_again := asked 1 2 3 again_request standing_again.
Definition elected_again := counts 1 2 3 voted_again.

Lemma elected_again_reachable : runs quiet_net elected_again.
Proof.
  etrans; [exact committed1_run|]. stand_step committed1 standing_again 1%N. ask_step standing_again voted_again 1%N 2%N 3%N again_request.
  by count_step voted_again elected_again 1%N 2%N 3%N.
Qed.

(** ** Property *)

(** C13: a follower catches up. In any state of a cluster with a fixed membership, if a leader is not
    waiting for an answer of a peer of no later term, and the two logs agree at an index [q] that
    the leader has not compacted past -- 0, if it has compacted nothing -- then rounds of its
    request, the peer's handling and its answer bring the peer the whole log of the leader: as
    many rounds as the leader's next index for it is above [q] are enough, no handler throws in
    them, and the leader knows at the end. *)
Theorem follower_catches_up {SM} `{StateMachine SM} book (M : gset N) env (c0 c : net) i p addr q j (n m : RaftNode SM) :
  callbacks_return (SM := SM) -> net_initial c0 -> settled_members book M c0 -> rtc (settled_step book M) c0 c ->
  nodes (base c) !! i = Some n -> nodes (base c) !! p = Some m ->
  role_ n = kLeader -> peers_ n !! p = Some addr -> pending_self_removal_index_ n = 0%N -> p ∉ replication_in_flight_ n ->
  (current_term m <= current_term n)%N -> next_index_ n !! p = Some j ->
  (snapshot_index (log_ n) <= q < j)%N -> q = 0%N \/ TermAt q (log_ m) = TermAt q (log_ n) ->
  exists k n' m' x, (k <= N.to_nat (j - q))%nat /\ rounds env p addr k (n, m) = Some (n', m') /\
    match_index_ n' !! p = Some x /\ (LastIndex (log_ n) <= x)%N /\
    forall r e, At r (log_ n) = Some e -> (snapshot_index (log_ m') < r)%N -> At r (log_ m') = Some e.
Proof.
  intros Hcb H0 Hset Hrun Hi Hp Hrole Hpeer Hz Hidle Ht Hj Hq Hagree.
  destruct (execution_follows book M _ c0 c (origin_rel book M c0 H0) Hset Hrun) as (a & Hrel & _).
  pose proof (execution_settled book M c0 c Hset Hrun) as Hset'.
  destruct (known book M a c i n Hrel Hset' Hi) as (Hs & Hw & Hok & Hid & Hn & Hag & Hbk).
  destruct (known book M a c p m Hrel Hset' Hp) as (_ & _ & Hok' & _ & Hm & _). destruct (Hbk p addr Hpeer) as [Hb Hne].
  destruct (rounds_run book M env i p addr q a n m j Hcb) as (k & a' & n' & m' & f & g & x & Hk & E & Hm' & Hc & Hpre & Hx & Hle).
  { split; try done; [apply Hag|apply Hag]. }
  exists k, n', m', x. split_and!; [done|done|done|by rewrite (view_LastIndex _ _ Hc)|]. intros r e He Hr.
  assert (Hr0 : (snapshot_index (log_ n) < r)%N) by (destruct (N.lt_ge_cases (snapshot_index (log_ n)) r); [done|by rewrite At_below in He]).
  rewrite (view_At _ f) in He by done. rewrite (view_At _ g) by (apply Hm' || done). by eapply prefix_lookup_Some.
Qed.

(** Node 3 refuses the first request and takes the second. *)
Lemma follower_catches_up_witness :
  next_index_ (node_at 1 elected_again) !! 3%N = Some 2%N /\ log_ (node_at 3 elected_again) = empty_log /\
  rounds test_env 3 (member_address 3) 1 (node_at 1 elected_again, node_at 3 elected_again) <> None /\
  exists k n' m' x, (k <= 2)%nat /\
    rounds test_env 3 (member_address 3) k (node_at 1 elected_again, node_at 3 elected_again) = Some (n', m') /\
    match_index_ n' !! 3%N = Some x /\ (LastIndex (log_ (node_at 1 elected_again)) <= x)%N /\
    forall r e, At r (log_ (node_at 1 elected_again)) = Some e -> (snapshot_index (log_ m') < r)%N -> At r (log_ m') = Some e.
Proof.
  assert (Hj : next_index_ (node_at 1 elected_again) !! 3%N = Some 2%N) by (vm_compute; reflexivity).
  split; [exact Hj|]. split; [vm_compute; reflexivity|]. split; [vm_compute; discriminate|].
  apply (follower_catches_up port_book three_members test_env quiet_net elected_again 1 3 (member_address 3) 0 2).
  - intros i cmd s. exists [], (s ++ cmd). reflexivity.
  - exact quiet_initial.
  - apply settled_compute. vm_compute. reflexivity.
  - apply calm_settled. exact elected_again_reachable.
  - apply node_at_lookup. vm_compute. reflexivity.
  - apply node_at_lookup. vm_compute. reflexivity.
  - vm_compute. reflexivity.
  - vm_compute. reflexivity.
  - vm_compute. reflexivity.
  - apply (bool_decide_unpack _). vm_compute. exact I.
  - vm_compute. discriminate.
  - exact Hj.
  - split; vm_compute; [discriminate|reflexivity].
  - left. reflexivity.
Defined.
