(* ===== verification/Replicas.v ===== *)
(** * Every state machine is a replay of one log

    What [LogSafety] says of logs, carried to what the state machines have executed: in a run in
    which no snapshot is installed and state machines survive restarts, each has executed the
    entries of one log, in order and once each, up to where its node is; an acknowledged command
    is among them for good.  [Transfers] adds the installation of snapshots. *)

From Stdlib Require Import NArith Lia.
From stdpp Require Import fin_maps fin_sets fin_map_dom.
From S2P Require Export LogSafety.

Section replay.
Context {SM : Type} `{StateMachine SM}.
Context (book : PeerAddress -> NodeId) (M : gset N).
Implicit Types (n : RaftNode SM) (a : raft) (i j : N) (c : net (SM := SM)).

(** What a run from initial nodes makes of them. *)
Lemma replay_run c0 c : net_initial c0 -> settled_members book M c0 -> rtc (calm_step book M) c0 c ->
  exists a, net_rel book M a c /\ installs c = [] /\ replayed M a c0 c.
Proof.
  intros H0 Hset Hr. destruct (calm_execution book M (origin c0) c0 c0 c) as (a & Hrel & _ & Hin & Hrun); try done.
  - by apply origin_rel.
  - apply H0.
  - by eapply replayed_start.
  - by exists a.
Qed.

(** What node [i] has executed in a run: settled entries. *)
Record replay a s n (l : full_log) : Prop := {
  rp_settled : settled M a (current_term n) l;
  rp_length : length l = N.to_nat (last_applied_ n);
  rp_consecutive : consecutive 0 l;
  rp_returns : entries_return (s, ∅) l;
  rp_machine : sm_ n = foldl exec s l;
}.

Lemma replay_of a c0 c i n0 n : net_rel book M a c -> replayed M a c0 c ->
  nodes (base c0) !! i = Some n0 -> nodes (base c) !! i = Some n -> exists l, replay a (sm_ n0) n l.
Proof.
  intros Hrel Hrun Hi0 Hi. destruct (Hrun i n0 n Hi0 Hi) as (f & Hn & Hret & Hsm).
  destruct (applied_settled M a i f n Hn) as [HC LC]. destruct (node_wf M a i f n) as [_ (Hcon & _)]; [apply Hrel|apply Hrel|done|].
  exists (take (N.to_nat (last_applied_ n)) f). split; [done|done| |done|done].
  intros k e He. apply Hcon. eapply prefix_lookup_Some; [exact He|apply prefix_take].
Qed.

Lemma replay_later a a' s n l : progresses M a a' -> replay a s n l -> replay a' s n l.
Proof. intros Hp []. split; try done. by eapply settled_progresses. Qed.

(** Two nodes of a run, the second perhaps later. *)
Lemma replay_twice c0 c1 c2 i j si sj ni nj : net_initial c0 -> settled_members book M c0 ->
  rtc (calm_step book M) c0 c1 -> rtc (calm_step book M) c1 c2 ->
  nodes (base c0) !! i = Some si -> nodes (base c0) !! j = Some sj ->
  nodes (base c1) !! i = Some ni -> nodes (base c2) !! j = Some nj ->
  exists a li lj, net_rel book M a c2 /\ replay a (sm_ si) ni li /\ replay a (sm_ sj) nj lj.
Proof.
  intros H0 Hset H01 H12 Hsi Hsj Hi Hj. destruct (replay_run c0 c1 H0 Hset H01) as (a1 & Hrel1 & Hin1 & Hrun1).
  destruct (calm_execution book M a1 c0 c1 c2 Hrel1) as (a2 & Hrel2 & Hp & _ & Hrun2); try done.
  { eapply execution_settled; [exact Hset|by apply calm_settled]. }
  destruct (replay_of a1 c0 c1 i si ni Hrel1 Hrun1 Hsi Hi) as (li & Hli). destruct (replay_of a2 c0 c2 j sj nj Hrel2 Hrun2 Hsj Hj) as (lj & Hlj).
  exists a2, li, lj. split_and!; [done|by eapply replay_later|done].
Qed.

Lemma replay_joint a s s' n n' l l' : sound M a -> replay a s n l -> replay a s' n' l' ->
  exists L, (L = l \/ L = l') /\ l = take (N.to_nat (last_applied_ n)) L /\ l' = take (N.to_nat (last_applied_ n')) L.
Proof.
  intros Hs [H1 H2 _ _ _] [K1 K2 _ _ _].
  assert (Hp : forall k (x y : full_log), x `prefix_of` y -> length x = k -> x = take k y)
    by (intros k x y Hxy <-; by apply prefix_is_take).
  destruct (settled_comparable M a _ _ l l' Hs H1 K1) as [Hle|Hle]; [exists l'|exists l]; (split; [auto|split]); by apply Hp.
Qed.

(** A proposal appended in a run: the leader has it, and the run goes on. *)
Lemma propose_replay a c0 c i n cmd k : net_rel book M a c -> settled_members book M c -> replayed M a c0 c ->
  nodes (base c) !! i = Some n -> TryDecodeConfChange cmd = Ret None -> (LastIndex (log_ n) + 2 < two64)%N ->
  (ProposeStart cmd n).1 = Ret (Appended k) -> calm_step book M c (net_act book i n (ProposeStart cmd n).2 c) ->
  exists a', net_rel book M a' (net_act book i n (ProposeStart cmd n).2 c) /\
    replayed M a' c0 (net_act book i n (ProposeStart cmd n).2 c) /\
    leader_has a' (current_term n) i {| index := k; term := current_term n; command := cmd |}.
Proof.
  intros Hrel Hset Hrun Hi Hcmd Hb Hk Hcalm.
  destruct (propose_follows book M a c i n cmd Hrel Hset Hi Hcmd Hb _ Hk) as (a' & Hst & Hrel' & Hmove & Hhas).
  exists a'. split_and!; [done| |by apply Hhas].
  eapply (replayed_step book M a a' i c0 c); try done. intros j m m' Hj. cbn. rewrite lookup_insert_Some.
  intros [[<- <-]|[_ Hj']]; [by simplify_eq|]. left. congruence.
Qed.
(** The entry of an acknowledged command is among what is executed from then on. *)
Lemma acknowledged_replay (c0 c1 c2 c3 : net) i j k (n n2 sj nj : RaftNode SM) cmd :
  net_initial c0 -> settled_members book M c0 -> rtc (calm_step book M) c0 c1 ->
  nodes (base c1) !! i = Some n -> TryDecodeConfChange cmd = Ret None -> (LastIndex (log_ n) + 2 < two64)%N ->
  (ProposeStart cmd n).1 = Ret (Appended k) -> calm_step book M c1 (net_act book i n (ProposeStart cmd n).2 c1) ->
  rtc (calm_step book M) (net_act book i n (ProposeStart cmd n).2 c1) c2 ->
  nodes (base c2) !! i = Some n2 -> role_ n2 = kLeader -> current_term n2 = current_term n -> (ProposeFinish k n2).1 = true ->
  rtc (calm_step book M) c2 c3 -> nodes (base c0) !! j = Some sj -> nodes (base c3) !! j = Some nj -> (k <= last_applied_ nj)%N ->
  exists before after, S (length before) = N.to_nat k /\
    sm_ nj = foldl exec (sm_ sj) (before ++ {| index := k; term := current_term n; command := cmd |} :: after).
Proof.
  intros H0 Hset H01 Hi Hcmd Hb Hk Hcalm H12 Hi2 Hrole Ht Hfin H23 Hsj Hj Hkj.
  destruct (replay_run c0 c1 H0 Hset H01) as (a1 & Hrel1 & Hin1 & Hrun1).
  assert (Hset1 : settled_members book M c1) by (eapply execution_settled; [exact Hset|by apply calm_settled]).
  destruct (propose_replay a1 c0 c1 i n cmd k) as (a1' & Hrel1' & Hrun1' & Hhas); try done.
  destruct (calm_execution book M a1' c0 _ c2 Hrel1') as (a2 & Hrel2 & Hp2 & Hin2 & Hrun2); [apply Hcalm|apply Hcalm|done|done|].
  destruct (calm_execution book M a2 c0 c2 c3 Hrel2) as (a3 & Hrel3 & Hp3 & _ & Hrun3); [|done..|].
  { eapply execution_settled; [apply Hcalm|by apply calm_settled]. }
  destruct (leader_has_progresses M a1' a2 _ _ _ Hp2 Hhas) as (L & HL & EL). apply N.leb_le in Hfin.
  destruct (leader_commits book M a2 c2 i n2 L Hrel2 Hi2 Hrole) as [HC LC]; [by rewrite Ht|].
  destruct (replay_of a3 c0 c3 j sj nj Hrel3 Hrun3 Hsj Hj) as (l & [R1 R2 R3 _ R5]).
  destruct (nr_wf _ _ _ _ Hrel2 _ _ _ HL) as [_ [Hcon _]]. specialize (Hcon _ _ EL). cbn [index] in *.
  destruct (lookup_lt_is_Some_2 l (N.to_nat (k - 1))) as [e He].
  { rewrite R2. lia. }
  assert (e = {| index := k; term := current_term n; command := cmd |}) as ->.
  { symmetry. eapply (settled_same M a3); [apply Hrel3|by eapply settled_progresses|exact R1| |exact He].
    rewrite lookup_take_lt; [exact EL|]. lia. }
  exists (take (N.to_nat (k - 1)) l), (drop (S (N.to_nat (k - 1))) l). rewrite length_take. split; [lia|].
  rewrite R5. by rewrite (take_drop_middle l _ _ He).
Qed.
End replay.

(** ** Properties *)

(** State machines replay one log. *)
Theorem replicas_replay_one_log {SM} `{StateMachine SM} book (M : gset N) (c0 c1 c2 : net) i j (si sj ni nj : RaftNode SM) :
  net_initial c0 -> settled_members book M c0 -> rtc (calm_step book M) c0 c1 -> rtc (calm_step book M) c1 c2 ->
  nodes (base c0) !! i = Some si -> nodes (base c0) !! j = Some sj ->
  nodes (base c1) !! i = Some ni -> nodes (base c2) !! j = Some nj ->
  exists L, consecutive 0 L /\
    (N.to_nat (last_applied_ ni) <= length L)%nat /\ (N.to_nat (last_applied_ nj) <= length L)%nat /\
    sm_ ni = foldl exec (sm_ si) (take (N.to_nat (last_applied_ ni)) L) /\
    sm_ nj = foldl exec (sm_ sj) (take (N.to_nat (last_applied_ nj)) L).
Proof.
  intros H0 Hset H01 H12 Hsi Hsj Hi Hj.
  destruct (replay_twice book M c0 c1 c2 i j si sj ni nj H0 Hset H01 H12 Hsi Hsj Hi Hj) as (a & li & lj & Hrel & Hli & Hlj).
  destruct (replay_joint M a _ _ ni nj li lj (nr_sound _ _ _ _ Hrel) Hli Hlj) as (L & HL & Ei & Ej). exists L.
  rewrite <- Ei, <- Ej. split_and!; [|rewrite <- (rp_length _ _ _ _ _ Hli), Ei, length_take; lia|
    rewrite <- (rp_length _ _ _ _ _ Hlj), Ej, length_take; lia|apply Hli|apply Hlj].
  destruct HL as [->| ->]; [apply Hli|apply Hlj].
Qed.

(** Node 1 has applied the command, later node 2 has too. *)
Lemma replicas_replay_one_log_witness :
  last_applied_ (node_at 1 committed1) = 1%N /\ last_applied_ (node_at 2 learned2) = 1%N /\
  exists L, consecutive 0 L /\ (1 <= length L)%nat /\ (1 <= length L)%nat /\
    sm_ (node_at 1 committed1) = foldl exec [] (take 1 L) /\ sm_ (node_at 2 learned2) = foldl exec [] (take 1 L).
Proof.
  assert (E1 : last_applied_ (node_at 1 committed1) = 1%N) by (vm_compute; reflexivity).
  assert (E2 : last_applied_ (node_at 2 learned2) = 1%N) by (vm_compute; reflexivity).
  split; [exact E1|]. split; [exact E2|].
  pose proof (replicas_replay_one_log port_book three_members quiet_net committed1 learned2 1 2
    (node_at 1 quiet_net) (node_at 2 quiet_net) (node_at 1 committed1) (node_at 2 learned2)) as Hone.
  rewrite E1, E2 in Hone. apply Hone.
  - exact quiet_initial.
  - apply settled_compute. vm_compute. reflexivity.
  - exact committed1_run.
  - exact learned2_reachable.
  - apply node_at_lookup. vm_compute. reflexivity.
  - apply node_at_lookup. vm_compute. reflexivity.
  - apply node_at_lookup. vm_compute. reflexivity.
  - apply node_at_lookup. vm_compute. reflexivity.
Defined.

(** Acknowledged commands are executed. In a run like that, if a leader appends a command at an
    index in [Propose] and finds at the end of its wait, still leading the same term, that the
    index is committed, then every state machine that gets as far has executed the command at
    that very place: after the same number of entries, and nothing later undoes it. *)
Theorem acknowledged_command_executed {SM} `{StateMachine SM} book (M : gset N) (c0 c1 c2 c3 : net) i j k (n n2 sj nj : RaftNode SM) cmd :
  net_initial c0 -> settled_members book M c0 -> rtc (calm_step book M) c0 c1 ->
  nodes (base c1) !! i = Some n -> TryDecodeConfChange cmd = Ret None -> (LastIndex (log_ n) + 2 < two64)%N ->
  (ProposeStart cmd n).1 = Ret (Appended k) -> calm_step book M c1 (net_act book i n (ProposeStart cmd n).2 c1) ->
  rtc (calm_step book M) (net_act book i n (ProposeStart cmd n).2 c1) c2 ->
  nodes (base c2) !! i = Some n2 -> role_ n2 = kLeader -> current_term n2 = current_term n -> (ProposeFinish k n2).1 = true ->
  rtc (calm_step book M) c2 c3 -> nodes (base c0) !! j = Some sj -> nodes (base c3) !! j = Some nj -> (k <= last_applied_ nj)%N ->
  exists before after, S (length before) = N.to_nat k /\
    sm_ nj = foldl exec (exec (foldl exec (sm_ sj) before) {| index := k; term := current_term n; command := cmd |}) after.
Proof.
  intros H0 Hset H01 Hi Hcmd Hb Hk Hcalm H12 Hi2 Hrole Ht Hfin H23 Hsj Hj Hkj.
  destruct (acknowledged_replay book M c0 c1 c2 c3 i j k n n2 sj nj cmd) as (before & after & Hl & E); try done.
  exists before, after. split; [exact Hl|]. by rewrite E, foldl_app.
Qed.

(** Node 1 proposes its command and finds it committed; node 2 executes it as its first. *)
Lemma acknowledged_command_executed_witness :
  exists before after, S (length before) = 1%nat /\
    sm_ (node_at 2 learned2) = foldl exec (exec (foldl exec [] before) {| index := 1; term := current_term (node_at 1 elected1); command := str "x" |}) after.
Proof.
  apply (acknowledged_command_executed port_book three_members quiet_net elected1 committed1 learned2 1 2 1
           (node_at 1 elected1) (node_at 1 committed1) (node_at 2 quiet_net) (node_at 2 learned2)).
  - exact quiet_initial.
  - apply settled_compute. vm_compute. reflexivity.
  - exact elected1_reachable.
  - apply node_at_lookup. vm_compute. reflexivity.
  - reflexivity.
  - vm_compute. reflexivity.
  - vm_compute. reflexivity.
  - exact proposed1_calm.
  - exact committed1_reachable.
  - apply node_at_lookup. vm_compute. reflexivity.
  - vm_compute. reflexivity.
  - vm_compute. reflexivity.
  - vm_compute. reflexivity.
  - exact learned2_reachable.
  - apply node_at_lookup. vm_compute. reflexivity.
  - apply node_at_lookup. vm_compute. reflexivity.
  - vm_compute. discriminate.
Defined.
