(* ===== verification/Transfers.v ===== *)
(** * Replicas that catch up by snapshots and recover from restarts

    [Replicas] for runs in which nodes also send snapshots and install them, and in which a node
    that restarts finds a state machine that may differ from the one it had ([recovers]).  What a
    state machine has to do with the log is a specification of it ([ReplicaSpec]): executing
    entries, recovering and restoring snapshots keep it; so it holds of every node, with respect
    to one log ([two_replicas]).  The simplest one is equality up to an equivalence ([SnapshotLaws]).

    The three parts of [HandleInstallSnapshot] are three steps here, as in the code, with anything
    between them: the request is accepted under the lock ([transfer_begin]), the state machine is
    replaced without it ([transfer_restore]), and the log is cut under it again
    ([transfer_finish]).  A stage of a run is the cluster and the nodes between the second and the
    third, whose state machine is ahead of what they say they have applied.  What has to be
    excluded is that the node is moved meanwhile, which the code does not: a snapshot that is
    accepted is newer than what the node has applied, and until the installation is over the node
    applies nothing, sends no snapshot and does not restart ([resumes], [whole_snapshots],
    [idle]); otherwise an old state can end up in a node that is further on
    ([stale_snapshot_rolls_back]).  [install_mutex_] makes it one installation at a time.  The
    state machine that is dumped and the one that is replaced hold nothing that a snapshot leaves
    out ([whole]): a shard's snapshot leaves out prepared transactions
    ([restored_replica_diverges]). *)

From Stdlib Require Import NArith Lia.
From stdpp Require Import fin_maps fin_sets fin_map_dom.
From S2P Require Export Replicas.

(** ** What the state machines of a log have in common *)

(** [makes l s]: the state machine [s] may be that of a node that is where the log [l] ends.  It
    may come from executing [l], from a snapshot of a state machine like that, or from a restart.
    A snapshot has all of a state that is [whole], and takes a node forward. *)
Record ReplicaSpec {SM} `{StateMachine SM} (recovers : relation SM) (whole : SM -> Prop) := {
  makes : list LogEntry -> SM -> Prop;
  makes_exec l e s : makes l s -> makes (l ++ [e]) (exec s e);
  makes_recovers l s s' : makes l s -> recovers s s' -> makes l s';
  makes_restored l k s s' s1 : makes l s -> makes (take k l) s' -> (k < length l)%nat -> whole s -> whole s' ->
    restore_callback (snapshot_callback s) s' = (Ret tt, s1) -> makes l s1;
}.
Arguments makes {SM _ recovers whole} spec l s : rename.
Arguments makes_exec {SM _ recovers whole} spec l e s : rename.
Arguments makes_recovers {SM _ recovers whole} spec l s s' : rename.
Arguments makes_restored {SM _ recovers whole} spec l k s s' s1 : rename.

Lemma makes_run {SM} `{StateMachine SM} {recovers whole} (spec : ReplicaSpec recovers whole) l l' s :
  makes spec l s -> makes spec (l ++ l') (foldl exec s l').
Proof.
  revert l s. induction l' as [|e l' IH]; intros l s Hs; [by rewrite app_nil_r|].
  cbn [foldl]. rewrite cons_middle, app_assoc. by apply IH, makes_exec.
Qed.

(** A state machine with an equivalence that executing commands keeps: restarts and snapshots may
    change it within its class. *)
Class SnapshotLaws (SM : Type) `{StateMachine SM} := {
  same : relation SM;
  same_equivalence :: Equivalence same;
  exec_same :: Proper (same ==> eq ==> same) exec;
  whole : SM -> Prop;
  restore_same s s' : whole s -> whole s' ->
    exists s1, restore_callback (snapshot_callback s) s' = (Ret tt, s1) /\ same s1 s;
}.

(** What the log makes of the state [s0] all nodes started with. *)
Program Definition up_to_same {SM} `{SnapshotLaws SM} (s0 : SM) : ReplicaSpec same whole :=
  {| makes l s := same s (foldl exec s0 l) |}.
Next Obligation. intros * Hs. cbn. by rewrite foldl_app, Hs. Qed.
Next Obligation. intros * Hs Hr. cbn in *. by rewrite <- Hr. Qed.
Next Obligation.
  intros * Hs _ _ Hw Hw' E. destruct (restore_same _ _ Hw Hw') as (s2 & E2 & Hs2). rewrite E in E2. injection E2 as <-.
  cbn. by rewrite Hs2.
Qed.

(** ** Which snapshots are sent *)

Section senders.
Context {SM : Type} `{StateMachine SM}.
Context (book : PeerAddress -> NodeId) (M : gset N).
Implicit Types (n m : RaftNode SM) (i p : N) (c : net (SM := SM)).

(** The request carries the state machine of [n] and how far it is. *)
Definition dump_of n (r : Rpc) : Prop :=
  match r with RpcSnapshot _ _ _ lii req => lii = last_applied_ n /\ is_data req = snapshot_callback (sm_ n) | _ => True end.

(** What [n'] sends that [n] has not sent yet carries the state machine of [n]. *)
Definition dumps n n' : Prop := Forall (dump_of n) (drop (length (rpcs_ n)) (rpcs_ n')).

Lemma dumps_nothing n n' : rpcs_ n' = rpcs_ n -> dumps n n'.
Proof. intros E. unfold dumps. rewrite E, drop_all. by apply Forall_nil. Qed.

Lemma dumps_app n n' l : rpcs_ n' = rpcs_ n ++ l -> Forall (dump_of n) l -> dumps n n'.
Proof. intros E Hl. unfold dumps. by rewrite E, drop_app_length. Qed.

(** Sending changes neither the state machine nor how far it is, and forgets no request. *)
Definition send_only n n' : Prop := sm_ n' = sm_ n /\ last_applied_ n' = last_applied_ n /\ exists l, rpcs_ n' = rpcs_ n ++ l /\ Forall (dump_of n) l.

#[export] Instance send_only_preorder : PreOrder send_only.
Proof.
  split.
  - intros n. split_and!; [done..|]. exists []. by rewrite app_nil_r.
  - intros n1 n2 n3 (Es & Ea & l & E & Hl) (Es' & Ea' & l' & E' & Hl'). split_and!; [congruence..|].
    exists (l ++ l'). rewrite E', E, app_assoc. split; [done|]. apply Forall_app. split; [done|]. eapply Forall_impl; [exact Hl'|].
    intros [] Hr; cbn in *; [done..|]. by rewrite <- Es, <- Ea.
Qed.

Lemma send_only_same n n' : sm_ n' = sm_ n -> last_applied_ n' = last_applied_ n -> rpcs_ n' = rpcs_ n -> send_only n n'.
Proof. intros Es Ea E. split_and!; [done..|]. exists []. by rewrite app_nil_r. Qed.

Lemma send_only_one n n' r : sm_ n' = sm_ n -> last_applied_ n' = last_applied_ n -> rpcs_ n' = rpcs_ n ++ [r] -> dump_of n r -> send_only n n'.
Proof. intros Es Ea E Hr. split_and!; [done..|]. exists [r]. split; [done|]. by apply Forall_singleton. Qed.

Lemma SendInstallSnapshot_dumps peer addr t n : send_only n (SendInstallSnapshot peer addr t n).
Proof. unfold SendInstallSnapshot. destruct (_ || _); [by apply send_only_same|]. by eapply send_only_one. Qed.

Lemma BeginReplicate_dumps peer addr n : send_only n (BeginReplicate peer addr n).2.
Proof.
  unfold BeginReplicate. destruct (negb _); [done|]. destruct (decide _); [done|].
  assert (Hx : send_only n (next_of peer n).2) by (by apply send_only_same). destruct (next_of peer n) as [next n1]. cbn [snd] in Hx.
  etrans; [exact Hx|]. destruct (_ <=? _)%N; [by apply send_only_same|by eapply send_only_one].
Qed.

Lemma ReplicateTo_dumps peer addr n : send_only n (ReplicateTo peer addr n).
Proof.
  destruct (ReplicateTo_parts peer addr n) as (n1 & -> & [-> |[t ->]]); [|etrans; [|apply SendInstallSnapshot_dumps]];
    apply BeginReplicate_dumps.
Qed.

Lemma ReplicateToAll_dumps n : send_only n (ReplicateToAll n).
Proof.
  unfold ReplicateToAll. destruct (negb _); [done|]. generalize (map_entries (peers_ n)). intros l. revert n.
  induction l as [|x l IH]; intros n; [done|]. cbn [foldl]. etrans; [apply ReplicateTo_dumps|apply IH].
Qed.

Lemma send_only_dumps n n' : send_only n n' -> dumps n n'.
Proof. intros (_ & _ & l & E & Hl). by eapply dumps_app. Qed.

Lemma local_dumps n n' : local_step book n n' -> dumps n n'.
Proof.
  intros [env|peer addr _ _ _|peer addr _ _ _| |peer addr t _ _|req|cmd o _ _ _].
  - apply dumps_nothing. unfold Tick. by repeat case_match.
  - apply send_only_dumps, ReplicateTo_dumps.
  - apply send_only_dumps, BeginReplicate_dumps.
  - apply send_only_dumps, ReplicateToAll_dumps.
  - apply send_only_dumps, SendInstallSnapshot_dumps.
  - apply dumps_nothing. rewrite HandleReadRequest_state. unfold on_sm. by destruct (read_callback _ _).
  - apply dumps_nothing, ProposeStart_rpcs.
Qed.

Lemma StartElection_dumps n env : (current_term n + 1 < two64)%N -> dumps n (StartElection env n).2.
Proof.
  intros Hb. unfold dumps. apply Forall_forall. intros r.
  destruct (StartElection_ballot env n Hb) as [[_ Er]|(_ & _ & _ & [[_ Er]|[_ [Er _]]])]; rewrite Er, ?drop_all, ?drop_app_length;
    [by intros ?%not_elem_of_nil| |by intros ?%not_elem_of_nil]. by intros (p & -> & _)%list_elem_of_fmap.
Qed.

Lemma new_node_dumps n n' own peers dir joining sm d : new_node (id_ n) own peers dir joining sm d = Ret n' -> dumps n n'.
Proof. intros Hnew. unfold dumps. rewrite (new_node_rpcs _ _ _ _ _ _ _ _ Hnew), drop_nil. by apply Forall_nil. Qed.

(** A snapshot that was sent in a step is that of its sender. *)
Definition new_snapshots c (l : list (N * Rpc)) : Prop := forall i r, (i, r) ∈ l ->
  (i, r) ∈ sent c \/ exists n, nodes (base c) !! i = Some n /\ dump_of n r.

Lemma act_snapshots c i n n' : nodes (base c) !! i = Some n -> dumps n n' -> new_snapshots c (sent (net_act book i n n' c)).
Proof.
  intros Hi Hd j r. cbn. rewrite elem_of_app, list_elem_of_fmap. intros [?|(r' & [= -> ->] & Hr)]; [by left|right].
  exists n. split; [done|]. unfold dumps in Hd. rewrite Forall_forall in Hd. apply Hd.
  apply list_elem_of_In, filter_In in Hr as [Hr _]. by apply list_elem_of_In.
Qed.

Lemma step_snapshots c c' : net_step book c c' -> new_snapshots c (sent c').
Proof.
  intros Hs. destruct Hs; try (by left);
    repeat match goal with |- context [match ?o with Some _ => _ | None => _ end] => destruct o end;
    apply act_snapshots; try done.
  - by apply local_dumps.
  - by apply StartElection_dumps.
  - by eapply new_node_dumps.
  - apply dumps_nothing, HandleAppendEntries_rpcs.
  - apply dumps_nothing, OnAppendResponse_rpcs.
  - apply dumps_nothing, OnAppendResponse_rpcs.
  - apply dumps_nothing, BeginInstall_rpcs.
  - apply dumps_nothing, BeginInstall_rpcs.
  - apply dumps_nothing. unfold on_sm. by destruct (restore_callback _ _).
  - apply dumps_nothing, FinishInstall_rpcs.
  - apply dumps_nothing, OnSnapshotResponse_rpcs.
  - apply dumps_nothing, OnSnapshotResponse_rpcs.
Qed.
End senders.

(** ** The critical sections of an installation *)

Section installing.
Context {SM : Type} `{StateMachine SM}.
Context (book : PeerAddress -> NodeId) (M : gset N).
Implicit Types (n m : RaftNode SM) (a : raft) (f : full_log) (i p : N) (c : net (SM := SM)).

(** A node that was told to install a snapshot: if it is not of the past, nothing is left of what
    the node had applied before. *)
Lemma BeginInstall_fields env req n n1 : BeginInstall env req n = (None, n1) ->
  sm_ n1 = sm_ n /\ log_ n1 = log_ n /\ last_applied_ n1 = last_applied_ n /\ (snapshot_index (log_ n) < is_last_included_index req)%N.
Proof.
  unfold BeginInstall. destruct (N.ltb_spec (is_term req) (current_term n)); [done|].
  destruct (hear_leader_fields env (is_term req) (is_leader_id req) n) as (_ & Es & El & Ea & _); [lia|].
  set (m := hear_leader _ _ _ n) in *. destruct (N.leb_spec (is_last_included_index req) (snapshot_index (log_ m))) as [|Hgt]; [done|].
  intros [= <-]. rewrite El in Hgt. done.
Qed.

Lemma FinishInstall_fields req n : (snapshot_index (log_ n) < is_last_included_index req)%N ->
  sm_ (FinishInstall req n).2 = sm_ n /\ last_applied_ (FinishInstall req n).2 = N.max (last_applied_ n) (is_last_included_index req).
Proof.
  intros Hlt. rewrite FinishInstall_run by done.
  destruct (refresh_fields (install_changes (is_last_included_index req) (is_last_included_term req) (is_membership req) n))
    as (-> & _ & -> & _).
  destruct (install_changes_fields (is_last_included_index req) (is_last_included_term req) (is_membership req) n Hlt)
    as (_ & _ & _ & -> & _). split; [|done].
  unfold install_changes. rewrite CompactLog_newer by done. cbv zeta. by repeat (case_match; cbn).
Qed.

Lemma follows_progresses a c c' : net_rel book M a c -> follows book M a c c' -> exists a', net_rel book M a' c' /\ progresses M a a'.
Proof.
  intros Hrel (p & a' & Hst & Hrel' & _). exists a'. split; [done|].
  destruct (steps_sound M p a a' (nr_sound _ _ _ _ Hrel) Hst) as (_ & Hc & _ & _ & Hl). by split.
Qed.

(** An installation that is over leaves no thread behind. *)
Lemma fewer_installs a c l : net_rel book M a c -> l ⊆ installs c -> net_rel book M a (with_installs l c).
Proof. intros [] Hl. split; try done. intros i r Hr. by auto. Qed.

End installing.

(** ** Runs with installations and recoveries *)

Section runs.
Context {SM : Type} `{StateMachine SM}.
Context (book : PeerAddress -> NodeId) (M : gset N) (recovers : relation SM) (whole : SM -> Prop).
Implicit Types (n m : RaftNode SM) (a : raft) (f C : full_log) (i j p : N) (c : net (SM := SM)) (s : SM).

(** The cluster, and the nodes whose state machine a snapshot has replaced that is not in the log yet. *)
Abbreviation stage := (net (SM := SM) * gset N)%type.
Implicit Types (x y : stage) (R : gset N).

(** Snapshots are taken of states that they have all of, by nodes that are not being restored. *)
Definition whole_snapshots c c' : Prop := forall i r, (i, r) ∈ sent c' -> (i, r) ∈ sent c \/
  (if r is RpcSnapshot _ _ _ _ _ then idle book i c /\ forall n, nodes (base c) !! i = Some n -> whole (sm_ n) else True).

(** What a step may do to the state machine of a node that applies nothing: nothing, or what a
    restart does.  Where a snapshot is being installed, nothing is applied. *)
Definition resumes c i n n' : Prop :=
  (last_applied_ n' = last_applied_ n -> sm_ n' = sm_ n \/ idle book i c /\ recovers (sm_ n) (sm_ n')) /\
  (~ idle book i c -> last_applied_ n' = last_applied_ n).

(** A step that is not part of an installation. *)
Definition resuming_step c c' : Prop := settled_step book M c c' /\ installs c' = installs c /\ whole_snapshots c c' /\
  forall i n n', nodes (base c) !! i = Some n -> nodes (base c') !! i = Some n' -> resumes c i n n'.

Lemma calm_resuming c c' : installs c = [] -> calm_step book M c c' -> whole_snapshots c c' -> resuming_step c c'.
Proof.
  intros E (Hs & Hin & Hsm) Hw. split; [done|]. split; [congruence|]. split; [done|]. intros i n n' Hi Hi'. split.
  - intros El. left. by apply (Hsm i).
  - intros Hni. destruct Hni. by apply nothing_installs.
Qed.

(** A step of a node that applies nothing and sends nothing. *)
Lemma silent_resumes c i n n' : nodes (base c) !! i = Some n -> settled_step book M c (net_act book i n n' c) ->
  rpcs_ n' = rpcs_ n -> last_applied_ n' = last_applied_ n -> sm_ n' = sm_ n -> resuming_step c (net_act book i n n' c).
Proof.
  intros Hi Hs Er El Es. split; [done|]. split; [done|]. split.
  - intros j r. cbn. rewrite Er, drop_all, app_nil_r. by left.
  - intros j m m' Hj. cbn. rewrite lookup_insert_Some. intros [[<- <-]|[_ Hj']]; simplify_eq; split; auto.
Qed.

(** The steps: those, and the three parts of [HandleInstallSnapshot] with anything between them. A
    node begins to install a snapshot that is newer than what it has applied, one at a time; a
    snapshot that is refused is not an installation. *)
Inductive transfer_step : stage -> stage -> Prop :=
| transfer_resuming c c' R : resuming_step c c' -> transfer_step (c, R) (c', R)
| transfer_begin i peer addr t lii req n n1 env c R (r := RpcSnapshot peer addr t lii req)
    (c' := with_installs ((i, r) :: installs c) (net_act book (book addr) n n1 c)) :
    (i, r) ∈ sent c -> nodes (base c) !! book addr = Some n -> idle book (book addr) c ->
    BeginInstall env req n = (None, n1) -> (last_applied_ n < lii)%N -> whole (sm_ n) ->
    settled_members book M c' -> transfer_step (c, R) (c', R)
| transfer_restore i peer addr t lii req n s1 c R (c' := net_act book (book addr) n (set_sm s1 n) c) :
    (i, RpcSnapshot peer addr t lii req) ∈ installs c -> nodes (base c) !! book addr = Some n -> book addr ∉ R ->
    restore_callback (is_data req) (sm_ n) = (Ret tt, s1) ->
    settled_members book M c' -> transfer_step (c, R) (c', {[book addr]} ∪ R)
| transfer_finish i peer addr t lii req n c R (r := RpcSnapshot peer addr t lii req)
    (c' := with_installs (List.filter (fun e => negb (installed_at book (book addr) e)) (installs c))
             (with_reply (answer i r SnapshotReply (FinishInstall req n).1) (net_act book (book addr) n (FinishInstall req n).2 c))) :
    (i, r) ∈ installs c -> nodes (base c) !! book addr = Some n -> book addr ∈ R ->
    settled_members book M c' -> transfer_step (c, R) (c', R ∖ {[book addr]}).

Context (spec : ReplicaSpec recovers whole).

(** The state machine is where the settled log [C] ends. *)
Definition state_of a C s' : Prop := (exists T, settled M a T C) /\ makes spec C s'.

(** [data] is a snapshot of a state machine that has executed the first [k] entries. *)
Definition snapshot_of a (k : N) (data : bytes) : Prop :=
  exists s' C, data = snapshot_callback s' /\ whole s' /\ length C = N.to_nat k /\ state_of a C s'.

(** Node [n], at [p], is installing the snapshot [data] up to [k]: its state machine is that of the
    snapshot already, or still its own. *)
Definition install_state a R p (k : N) (data : bytes) n : Prop :=
  (last_applied_ n < k)%N /\ snapshot_of a k data /\
  if decide (p ∈ R) then exists C, length C = N.to_nat k /\ state_of a C (sm_ n) else whole (sm_ n).

(** Where the nodes are, what the snapshots on the way contain, and how far installations are. *)
Record carried a x : Prop := {
  ca_nodes i n : nodes (base x.1) !! i = Some n -> i ∉ x.2 ->
    exists f, node_rel M a i f n /\ makes spec (take (N.to_nat (last_applied_ n)) f) (sm_ n);
  ca_sent i peer addr t lii req : (i, RpcSnapshot peer addr t lii req) ∈ sent x.1 -> snapshot_of a lii (is_data req);
  ca_installs i peer addr t lii req n : (i, RpcSnapshot peer addr t lii req) ∈ installs x.1 -> nodes (base x.1) !! book addr = Some n ->
    install_state a x.2 (book addr) lii (is_data req) n;
  ca_alone p r r' : r ∈ installs x.1 -> r' ∈ installs x.1 -> installed_at book p r = true -> installed_at book p r' = true -> r = r';
  ca_busy i : i ∈ x.2 -> ~ idle book i x.1;
}.

(** The state machines the nodes of a net start with. *)
Definition starts c : Prop := map_Forall (fun _ n => makes spec [] (sm_ n)) (nodes (base c)).

Lemma carried_start c0 : net_initial c0 -> starts c0 -> carried (origin c0) (c0, ∅).
Proof.
  intros H0' Hs. destruct H0' as (Hb & Hse & Hre & Hin & Hn0). assert (H0' : net_initial c0) by by split_and!. split; cbn [fst snd].
  - intros i n Hi _. destruct (nr_nodes _ _ _ _ (origin_rel book M c0 H0') i n Hi) as (f & Hn). exists f. split; [done|].
    destruct (Hn0 i n Hi) as (_ & _ & Ha & _). rewrite Ha. by apply (Hs i n).
  - intros i peer addr t lii req. rewrite Hse. by intros ?%not_elem_of_nil.
  - intros i peer addr t lii req n. rewrite Hin. by intros ?%not_elem_of_nil.
  - intros p r r'. rewrite Hin. by intros ?%not_elem_of_nil.
  - done.
Qed.

Lemma node_state a x i n : carried a x -> nodes (base x.1) !! i = Some n -> i ∉ x.2 ->
  exists f, node_rel M a i f n /\ state_of a (take (N.to_nat (last_applied_ n)) f) (sm_ n) /\
    length (take (N.to_nat (last_applied_ n)) f) = N.to_nat (last_applied_ n).
Proof.
  intros Hc Hi HR. destruct (ca_nodes _ _ Hc i n Hi HR) as (f & Hn & Hsm). destruct (applied_settled M a i f n Hn) as [HC LC].
  exists f. split_and!; [done| |done]. split; [by eexists|done].
Qed.

Lemma state_later a a' C s' : progresses M a a' -> state_of a C s' -> state_of a' C s'.
Proof. intros Hp [[T HC] E]. split; [|exact E]. exists T. by apply (settled_progresses M a a' T C). Qed.

Lemma snapshot_later a a' k data : progresses M a a' -> snapshot_of a k data -> snapshot_of a' k data.
Proof. intros Hp (s' & C & E & Hw & LC & HC). exists s', C. do 3 (split; [done|]). by apply (state_later a). Qed.

Lemma install_later a a' R R' p k data n n' : progresses M a a' -> install_state a R p k data n ->
  last_applied_ n' = last_applied_ n -> sm_ n' = sm_ n -> (p ∈ R' <-> p ∈ R) -> install_state a' R' p k data n'.
Proof.
  intros Hp (Hlt & Hd & Hs) El Es HR. unfold install_state. rewrite El, Es. split; [done|]. split; [by eapply snapshot_later|].
  rewrite (decide_ext _ _ _ _ HR). case_decide; [|done]. destruct Hs as (C & LC & HC). exists C. split; [done|]. by eapply state_later.
Qed.

(** The node goes on from a settled log to a longer one. *)
Lemma node_moves a a' i n n' C f' : sound M a' -> progresses M a a' -> state_of a C (sm_ n) -> length C = N.to_nat (last_applied_ n) ->
  node_rel M a' i f' n' -> moves_on M a' i n n' ->
  (last_applied_ n' = last_applied_ n -> sm_ n' = sm_ n \/ recovers (sm_ n) (sm_ n')) ->
  exists f, node_rel M a' i f n' /\ makes spec (take (N.to_nat (last_applied_ n')) f) (sm_ n').
Proof.
  intros Hs Hp HC%(state_later a a' C (sm_ n) Hp) LC Hn' Hmove Hcalm. destruct HC as [[T HC] Esm].
  destruct Hmove as [E|(f2 & Hn2 & Hle & _ & Hrun)].
  - exists f'. split; [done|]. destruct (applied_settled M a' i f' n' Hn') as [HD LD].
    assert (Hpre : C `prefix_of` take (N.to_nat (last_applied_ n')) f') by (eapply settled_extends; [done..|lia]).
    apply prefix_length_eq in Hpre; [|lia]. rewrite <- Hpre.
    destruct (Hcalm E) as [-> |Hrec]; [exact Esm|by eapply makes_recovers].
  - exists f2. split; [done|]. destruct (applied_settled M a' i f2 n' Hn2) as [HD LD].
    assert (Hpre : C `prefix_of` take (N.to_nat (last_applied_ n')) f2) by (eapply settled_extends; [done..|lia]).
    destruct Hpre as [l El]. rewrite El in Hrun |- *. rewrite drop_app_length' in Hrun by done. rewrite Hrun. by apply makes_run.
Qed.

(** A node that stays where it is. *)
Lemma node_stays a a' x c' j n n' : carried a x -> progresses M a a' -> net_rel book M a' c' -> j ∉ x.2 ->
  nodes (base x.1) !! j = Some n -> nodes (base c') !! j = Some n' -> last_applied_ n' = last_applied_ n -> sm_ n' = sm_ n ->
  exists f, node_rel M a' j f n' /\ makes spec (take (N.to_nat (last_applied_ n')) f) (sm_ n').
Proof.
  intros Hcar Hp Hrel' HR Hj Hj' El Es. destruct (node_state a x j n Hcar Hj HR) as (f & _ & HC & LC).
  destruct (nr_nodes _ _ _ _ Hrel' j n' Hj') as (f' & Hn'). eapply node_moves; [apply Hrel'|done|done|done|done|by left|by left].
Qed.

Lemma carried_step a a' i c c' R : net_rel book M a c -> rtc (raft_step M i) a a' -> net_rel book M a' c' -> carried a (c, R) ->
  resuming_step c c' ->
  (forall j n n', idle book j c -> nodes (base c) !! j = Some n -> nodes (base c') !! j = Some n' -> moves_on M a' j n n') -> carried a' (c', R).
Proof.
  intros Hrel Hst Hrel' Hcar ([Hstep _] & Ein & Hwhole & Hres) Hmove.
  destruct (steps_sound M i a a' (nr_sound _ _ _ _ Hrel) Hst) as (_ & Hc & _ & _ & Hl).
  assert (Hp : progresses M a a') by by split.
  assert (Hd : forall j n', nodes (base c') !! j = Some n' -> is_Some (nodes (base c) !! j))
    by (intros j n' Hj'; apply elem_of_dom; rewrite <- (net_step_dom book c c' Hstep); apply elem_of_dom; eauto).
  assert (Hbusy : forall j n n', nodes (base c) !! j = Some n -> nodes (base c') !! j = Some n' -> ~ idle book j c ->
    last_applied_ n' = last_applied_ n /\ sm_ n' = sm_ n).
  { intros j n n' Hj Hj' Hni. destruct (Hres j n n' Hj Hj') as [Hsm Hla]. specialize (Hla Hni). split; [done|].
    by destruct (Hsm Hla) as [?|[? _]]. }
  split; cbn [fst snd]; rewrite ?Ein.
  - intros j n' Hj' HR. destruct (Hd j n' Hj') as [n Hj]. destruct (Hres j n n' Hj Hj') as [Hsm _].
    destruct (decide (idle book j c)) as [Hidle|Hni].
    + destruct (node_state a (c, R) j n Hcar Hj HR) as (f & _ & HC & LC). destruct (nr_nodes _ _ _ _ Hrel' j n' Hj') as (f' & Hn').
      eapply node_moves; [apply Hrel'|done|done|done|done|by apply Hmove|].
      intros E. destruct (Hsm E) as [?|[_ ?]]; [by left|by right].
    + destruct (Hbusy j n n' Hj Hj' Hni). by eapply (node_stays a a' (c, R)).
  - intros j peer addr t lii req Hj. destruct (step_snapshots book c c' Hstep j _ Hj) as [Hold|(n & Hn & El & Ed)].
    + by eapply snapshot_later, (ca_sent a (c, R)).
    + destruct (Hwhole _ _ Hj) as [Hold|[Hidle Hw]]; [by eapply snapshot_later, (ca_sent a (c, R))|].
      destruct (node_state a (c, R) j n Hcar Hn) as (f & _ & HC & LC); [intros HR; by apply (ca_busy _ _ Hcar j HR)|].
      eapply snapshot_later; [done|]. exists (sm_ n), (take (N.to_nat (last_applied_ n)) f). rewrite El. do 3 (split; [auto|]). exact HC.
  - intros j peer addr t lii req n' Hj Hn'. destruct (Hd _ n' Hn') as [n Hn].
    destruct (Hbusy _ n n' Hn Hn' (installing book _ _ _ _ _ _ _ Hj)). eapply install_later; [done|by eapply (ca_installs a (c, R))|done..].
  - apply (ca_alone _ _ Hcar).
  - intros j HR. unfold idle. rewrite Ein. by apply (ca_busy _ _ Hcar).
Qed.

Lemma resuming_carries a c c' R : net_rel book M a c -> settled_members book M c -> carried a (c, R) ->
  resuming_step c c' -> exists a', net_rel book M a' c' /\ progresses M a a' /\ carried a' (c', R).
Proof.
  intros Hrel Hset Hcar Hres. destruct (net_step_follows book M a c c' Hrel Hset (proj1 (proj1 Hres))) as (i & a' & Hst & Hrel' & Hmove).
  destruct (steps_sound M i a a' (nr_sound _ _ _ _ Hrel) Hst) as (_ & Hc & _ & _ & Hl).
  exists a'. split; [done|]. split; [by split|]. by apply (carried_step a a' i c c' R).
Qed.

(** What a part of an installation at node [p] leaves alone. *)
Lemma others_carried a a' c c' R R' p n n' l : carried a (c, R) -> progresses M a a' -> net_rel book M a' c' ->
  nodes (base c) !! p = Some n -> nodes (base c') = <[p := n']> (nodes (base c)) -> sent c' = sent c -> installs c' = l ->
  (forall j, j <> p -> j ∈ R' <-> j ∈ R) ->
  (forall r, r ∈ l -> installed_at book p r = false -> r ∈ installs c) ->
  (forall j, j <> p -> j ∈ R -> ~ idle book j c') ->
  (p ∉ R' -> exists f, node_rel M a' p f n' /\ makes spec (take (N.to_nat (last_applied_ n')) f) (sm_ n')) ->
  (forall i peer addr t lii req, (i, RpcSnapshot peer addr t lii req) ∈ l -> book addr = p -> install_state a' R' p lii (is_data req) n') ->
  (forall r r', r ∈ l -> r' ∈ l -> installed_at book p r = true -> installed_at book p r' = true -> r = r') ->
  (p ∈ R' -> ~ idle book p c') -> carried a' (c', R').
Proof.
  intros Hcar Hp Hrel' Hpn En Es El HR Hold Hnidle Hnode Hinst Halone Hbusy. split; cbn [fst snd]; rewrite ?Es, ?El.
  - intros j m'. rewrite En, lookup_insert_Some. intros [[<- <-]|[Hne Hj]] Hj'; [by apply Hnode|].
    apply (node_stays a a' (c, R) c' j m' m'); try done; [cbn; by rewrite <- HR|]. by rewrite En, lookup_insert_ne.
  - intros j peer addr t lii req Hj. by eapply snapshot_later, (ca_sent a (c, R)).
  - intros j peer addr t lii req m' Hj. rewrite En, lookup_insert_Some. intros [[E <-]|[Hne Hj']]; [rewrite <- E; by eapply Hinst|].
    apply (install_later a a' R R' _ _ _ m' m'); [done| |done|done|apply HR; congruence]. eapply (ca_installs a (c, R)); [done| |exact Hj'].
    apply Hold; [exact Hj|]. cbn. apply N.eqb_neq. congruence.
  - intros q r r' Hr Hr' Hq Hq'. destruct (decide (q = p)) as [->|Hne]; [by apply Halone|].
    apply (ca_alone _ _ Hcar q); try done; apply Hold; try done; unfold installed_at in *; repeat case_match; try done;
      apply N.eqb_neq; apply N.eqb_eq in Hq, Hq'; congruence.
  - intros j Hj. destruct (decide (j = p)) as [->|Hne]; [by apply Hbusy|]. apply Hnidle; [done|]. by apply HR.
Qed.

Lemma begin_carries a i peer addr t lii req n n1 env c R (r := RpcSnapshot peer addr t lii req)
    (c' := with_installs ((i, r) :: installs c) (net_act book (book addr) n n1 c)) :
  net_rel book M a c -> carried a (c, R) -> (i, r) ∈ sent c -> nodes (base c) !! book addr = Some n -> idle book (book addr) c ->
  BeginInstall env req n = (None, n1) -> (last_applied_ n < lii)%N -> whole (sm_ n) ->
  exists a', net_rel book M a' c' /\ progresses M a a' /\ carried a' (c', R).
Proof.
  intros Hrel Hcar Hsent Hp Hidle Eb Hlt Hwn. pose proof (snapshot_follows book M a c i peer addr t lii req n env Hrel Hsent Hp) as Hf.
  pose proof (BeginInstall_rpcs env req n) as Er. rewrite Eb in Hf, Er. cbn [fst snd] in Hf, Er.
  destruct (follows_progresses book M a c _ Hrel Hf) as (a' & Hrel' & Hpr).
  destruct (BeginInstall_fields env req n n1 Eb) as (Es & _ & Ea & _).
  assert (HpR : book addr ∉ R) by (intros HR; by apply (ca_busy _ _ Hcar _ HR)).
  assert (Hno : forall e, e ∈ installs c -> installed_at book (book addr) e = false) by by apply Forall_forall.
  exists a'. split; [done|]. split; [done|].
  apply (others_carried a a' c c' R R (book addr) n n1 ((i, r) :: installs c)); try done.
  - cbn. by rewrite Er, drop_all, app_nil_r.
  - intros e [->|?]%elem_of_cons; [|done]. cbn. by rewrite N.eqb_refl.
  - intros j Hne HR Hj. apply (ca_busy _ _ Hcar j HR). by apply Forall_cons in Hj as [_ Hj].
  - intros HR. apply (node_stays a a' (c, R) c' _ n n1); try done. cbn. by rewrite lookup_insert_eq.
  - intros j peer' addr' t' lii' req' [[= <- <- <- <- <- <-]|Hin]%elem_of_cons E.
    + split; [by rewrite Ea|]. split; [eapply snapshot_later; [done|]; by eapply (ca_sent a (c, R))|].
      by rewrite decide_False, Es.
    + specialize (Hno _ Hin). cbn in Hno. by rewrite E, N.eqb_refl in Hno.
  - intros e e' [->|He]%elem_of_cons [->|He']%elem_of_cons H1 H2; [done|by rewrite Hno in H2|by rewrite Hno in H1|by rewrite Hno in H1].
Qed.

Lemma restore_carries a i peer addr t lii req n s1 c R (c' := net_act book (book addr) n (set_sm s1 n) c) :
  net_rel book M a c -> carried a (c, R) -> (i, RpcSnapshot peer addr t lii req) ∈ installs c -> nodes (base c) !! book addr = Some n ->
  book addr ∉ R -> restore_callback (is_data req) (sm_ n) = (Ret tt, s1) ->
  exists a', net_rel book M a' c' /\ progresses M a a' /\ carried a' (c', {[book addr]} ∪ R).
Proof.
  intros Hrel Hcar Hin Hp HR Hs1. pose proof (restore_follows book M a c i peer addr t lii req n Hrel Hin Hp) as Hf.
  replace ((on_sm (restore_callback (is_data req)) n).2) with (set_sm s1 n) in Hf by (unfold on_sm; by rewrite Hs1).
  destruct (follows_progresses book M a c _ Hrel Hf) as (a' & Hrel' & Hpr).
  exists a'. split; [done|]. split; [done|].
  apply (others_carried a a' c c' R _ (book addr) n (set_sm s1 n) (installs c)); try done.
  - cbn. by rewrite drop_all, app_nil_r.
  - set_solver.
  - intros j _ Hj. by apply (ca_busy _ _ Hcar j Hj).
  - set_solver.
  - intros j peer' addr' t' lii' req' Hj E.
    assert (Ej : (j, RpcSnapshot peer' addr' t' lii' req') = (i, RpcSnapshot peer addr t lii req)).
    { apply (ca_alone _ _ Hcar (book addr)); try done; cbn; by apply N.eqb_eq. }
    simplify_eq. destruct (ca_installs _ _ Hcar _ _ _ _ _ _ _ Hin Hp) as (Hlt & Hd & Hw). cbn [snd] in Hw. rewrite decide_False in Hw by done.
    split; [done|]. split; [by eapply snapshot_later|]. rewrite decide_True by set_solver.
    destruct Hd as (s' & C & Ed & Hw' & LC & [[T HC] HmC]). exists C. split; [done|]. eapply state_later; [done|]. split; [by eexists|].
    destruct (node_state a (c, R) _ n Hcar Hp HR) as (f & Hn & [[T' HD] HmD] & LD).
    assert (Hpre : take (N.to_nat (last_applied_ n)) f `prefix_of` C) by (eapply settled_extends; [apply Hrel|done..|lia]).
    rewrite (prefix_is_take _ _ Hpre), LD in HmD. rewrite Ed in Hs1. cbn. eapply makes_restored; [exact HmC|exact HmD|lia|done..].
  - apply (ca_alone _ _ Hcar).
  - intros _. apply (installing book i peer addr t lii req). exact Hin.
Qed.

Lemma finish_carries a i peer addr t lii req n c R (r := RpcSnapshot peer addr t lii req)
    (c' := with_installs (List.filter (fun e => negb (installed_at book (book addr) e)) (installs c))
             (with_reply (answer i r SnapshotReply (FinishInstall req n).1) (net_act book (book addr) n (FinishInstall req n).2 c))) :
  net_rel book M a c -> carried a (c, R) -> (i, r) ∈ installs c -> nodes (base c) !! book addr = Some n -> book addr ∈ R ->
  exists a', net_rel book M a' c' /\ progresses M a a' /\ carried a' (c', R ∖ {[book addr]}).
Proof.
  intros Hrel Hcar Hin Hp HR. pose proof (install_follows book M a c i peer addr t lii req n Hrel Hin Hp) as Hf.
  destruct (follows_progresses book M a c _ Hrel Hf) as (a' & Hrel0 & Hpr).
  assert (Hsub : List.filter (fun e => negb (installed_at book (book addr) e)) (installs c) ⊆ installs c).
  { intros e He. apply list_elem_of_In, filter_In in He as [He _]. by apply list_elem_of_In. }
  assert (Hgone : forall e, e ∈ List.filter (fun e => negb (installed_at book (book addr) e)) (installs c) -> installed_at book (book addr) e = false).
  { intros e He. apply list_elem_of_In, filter_In in He as [_ He]. by apply negb_true_iff. }
  pose proof (fewer_installs book M a' _ _ Hrel0 Hsub) as Hrel'.
  destruct (ca_installs _ _ Hcar _ _ _ _ _ _ _ Hin Hp) as (Hlt & _ & HC). cbn [snd] in HC. rewrite decide_True in HC by done.
  destruct HC as (C & LC & HC%(state_later a a' _ _ Hpr)). destruct HC as [[T HC] Hm].
  destruct (nr_nodes _ _ _ _ Hrel (book addr) n Hp) as (f & [Hlr _]). pose proof (lr_snap _ _ _ _ _ Hlr) as Hsnap.
  assert (El : is_last_included_index req = lii).
  { destruct (nr_installs _ _ _ _ Hrel _ _ Hin) as (? & ? & ? & ? & ? & [= <- <- <- <- <-] & Hv & _). apply Hv. }
  destruct (FinishInstall_fields req n) as [Es Ea]; [lia|]. rewrite El in Ea.
  exists a'. split; [exact Hrel'|]. split; [done|].
  apply (others_carried a a' c c' R _ (book addr) n (FinishInstall req n).2 (List.filter (fun e => negb (installed_at book (book addr) e)) (installs c))); try done.
  - cbn. by rewrite FinishInstall_rpcs, drop_all, app_nil_r.
  - set_solver.
  - intros e He _. by apply Hsub.
  - intros j Hne Hj Hidle. apply (ca_busy _ _ Hcar j Hj). unfold idle in *. apply Forall_forall. intros e He. rewrite Forall_forall in Hidle.
    destruct (installed_at book (book addr) e) eqn:Ee; [|apply Hidle, list_elem_of_In, filter_In; (split; [by apply list_elem_of_In|by rewrite Ee])].
    unfold installed_at in *. repeat case_match; try done. apply N.eqb_eq in Ee. apply N.eqb_neq. congruence.
  - intros _. destruct (nr_nodes _ _ _ _ Hrel' (book addr) (FinishInstall req n).2) as (f' & Hn'); [apply lookup_insert_eq|].
    exists f'. split; [done|]. destruct (applied_settled M a' _ f' _ Hn') as [HD LD].
    assert (EC : C = take (N.to_nat (last_applied_ (FinishInstall req n).2)) f').
    { apply prefix_length_eq; [|rewrite LD; lia]. eapply settled_extends; [apply Hrel'|done..|rewrite LD; lia]. }
    by rewrite <- EC, Es.
  - intros j peer' addr' t' lii' req' Hj E. apply Hgone in Hj. cbn in Hj. by rewrite E, N.eqb_refl in Hj.
  - intros e e' He _ H1. by rewrite Hgone in H1.
  - set_solver.
Qed.

(** What a run makes of its nodes. *)
Lemma transfer_execution a x y : net_rel book M a x.1 -> settled_members book M x.1 -> carried a x ->
  rtc transfer_step x y -> exists a', net_rel book M a' y.1 /\ progresses M a a' /\ settled_members book M y.1 /\ carried a' y.
Proof.
  intros Hrel Hset Hcar Hr. revert a Hrel Hset Hcar. induction Hr as [x|x y z Hxy _ IH]; intros a Hrel Hset Hcar.
  { exists a. by split_and!. }
  assert (Hone : exists a2, net_rel book M a2 y.1 /\ progresses M a a2 /\ settled_members book M y.1 /\ carried a2 y).
  { destruct Hxy as [c c' R Hres|i peer addr t lii req n n1 env c R r c' Hsent Hp Hidle Eb Hlt Hwn Hs|
        i peer addr t lii req n s1 c R c' Hin Hp HR Hs1 Hs|i peer addr t lii req n c R r c' Hin Hp HR Hs]; cbn [fst] in *.
    - destruct (resuming_carries a c c' R) as (a2 & ? & ? & ?); try done. exists a2. split_and!; try done. apply Hres.
    - destruct (begin_carries a i peer addr t lii req n n1 env c R) as (a2 & ? & ? & ?); try done. by exists a2.
    - destruct (restore_carries a i peer addr t lii req n s1 c R) as (a2 & ? & ? & ?); try done. by exists a2.
    - destruct (finish_carries a i peer addr t lii req n c R) as (a2 & ? & ? & ?); try done. by exists a2. }
  destruct Hone as (a2 & Hrel2 & Hp2 & Hset2 & Hcar2). destruct (IH a2 Hrel2 Hset2 Hcar2) as (a3 & Hrel3 & Hp3 & Hrest).
  exists a3. split; [done|]. split; [by etrans|done].
Qed.

Lemma transfer_run c0 x : net_initial c0 -> settled_members book M c0 -> starts c0 ->
  rtc transfer_step (c0, ∅) x -> exists a, net_rel book M a x.1 /\ settled_members book M x.1 /\ carried a x.
Proof.
  intros H0' Hset Hs Hr. destruct (transfer_execution (origin c0) (c0, ∅) x) as (a & Hrel & _ & Hrest); try done.
  - by apply origin_rel.
  - by apply carried_start.
  - by exists a.
Qed.

(** What node [i] has executed in a run, or been given in a snapshot: settled entries. *)
Definition replica a n C : Prop := state_of a C (sm_ n) /\ length C = N.to_nat (last_applied_ n) /\ consecutive 0 C.

Lemma replica_of a x i n : net_rel book M a x.1 -> carried a x -> nodes (base x.1) !! i = Some n -> i ∉ x.2 -> exists C, replica a n C.
Proof.
  intros Hrel Hcar Hi HR. destruct (node_state a x i n Hcar Hi HR) as (f & Hn & HC & LC).
  destruct (node_wf M a i f n) as [_ (Hcon & _)]; [apply Hrel|apply Hrel|done|].
  exists (take (N.to_nat (last_applied_ n)) f). split; [done|]. split; [done|].
  intros k e He. apply Hcon. eapply prefix_lookup_Some; [exact He|apply prefix_take].
Qed.

Lemma replicas_joint a n n' C D : sound M a -> replica a n C -> replica a n' D ->
  exists L, (L = C \/ L = D) /\ C = take (N.to_nat (last_applied_ n)) L /\ D = take (N.to_nat (last_applied_ n')) L.
Proof.
  intros Hs ([[T HC] _] & LC & _) ([[T' HD] _] & LD & _).
  assert (Hp : forall k (x y : full_log), x `prefix_of` y -> length x = k -> x = take k y)
    by (intros k x y Hxy <-; by apply prefix_is_take).
  destruct (settled_comparable M a _ _ C D Hs HC HD) as [Hle|Hle]; [exists D|exists C]; (split; [auto|split]); by apply Hp.
Qed.

(** Two nodes of a run, the second perhaps later. *)
Lemma two_replicas c0 c1 c2 R1 R2 i j ni nj :
  net_initial c0 -> settled_members book M c0 -> starts c0 -> rtc transfer_step (c0, ∅) (c1, R1) -> rtc transfer_step (c1, R1) (c2, R2) ->
  nodes (base c1) !! i = Some ni -> i ∉ R1 -> nodes (base c2) !! j = Some nj -> j ∉ R2 ->
  exists L, consecutive 0 L /\
    (N.to_nat (last_applied_ ni) <= length L)%nat /\ (N.to_nat (last_applied_ nj) <= length L)%nat /\
    makes spec (take (N.to_nat (last_applied_ ni)) L) (sm_ ni) /\ makes spec (take (N.to_nat (last_applied_ nj)) L) (sm_ nj).
Proof.
  intros H0' Hset Hs H01 H12 Hi HiR Hj HjR. destruct (transfer_run c0 _ H0' Hset Hs H01) as (a1 & Hrel1 & Hset1 & Hcar1).
  destruct (transfer_execution a1 _ _ Hrel1 Hset1 Hcar1 H12) as (a2 & Hrel2 & Hp & _ & Hcar2).
  destruct (replica_of a1 _ i ni Hrel1 Hcar1 Hi HiR) as (C & HC & LC & KC).
  destruct (replica_of a2 _ j nj Hrel2 Hcar2 Hj HjR) as (D & HD). apply (state_later a1 a2 C _ Hp) in HC.
  destruct (replicas_joint a2 ni nj C D (nr_sound _ _ _ _ Hrel2) (conj HC (conj LC KC)) HD) as (L & HL & EC & ED).
  destruct HD as (HD & LD & KD). exists L. rewrite <- EC, <- ED.
  split_and!; [by destruct HL as [->| ->]|rewrite <- LC, EC, length_take; lia|rewrite <- LD, ED, length_take; lia|apply HC|apply HD].
Qed.

(** A proposal appended in a run: the leader has it, and the run goes on. *)
Lemma propose_carries a x i n cmd k (c' := net_act book i n (ProposeStart cmd n).2 x.1) :
  net_rel book M a x.1 -> settled_members book M x.1 -> carried a x ->
  nodes (base x.1) !! i = Some n -> TryDecodeConfChange cmd = Ret None -> (LastIndex (log_ n) + 2 < two64)%N ->
  (ProposeStart cmd n).1 = Ret (Appended k) -> resuming_step x.1 c' ->
  exists a', net_rel book M a' c' /\ carried a' (c', x.2) /\ leader_has a' (current_term n) i {| index := k; term := current_term n; command := cmd |}.
Proof.
  destruct x as [c R]. cbn [fst snd] in *. intros Hrel Hset Hcar Hi Hcmd Hb Hk Hres.
  destruct (propose_follows book M a c i n cmd Hrel Hset Hi Hcmd Hb _ Hk) as (a' & Hst & Hrel' & Hmove & Hhas).
  exists a'. split; [done|]. split; [|by apply Hhas]. apply (carried_step a a' i c c' R); try done.
  intros j m m' _ Hj. unfold c'. cbn. rewrite lookup_insert_Some. intros [[<- <-]|[_ Hj']]; [by simplify_eq|]. left. congruence.
Qed.

(** The entry of an acknowledged command is among what every state machine contains from then on. *)
Lemma acknowledged_state (c0 c1 c2 c3 : net) R1 R2 R3 i j k (n n2 nj : RaftNode SM) cmd (c1' := net_act book i n (ProposeStart cmd n).2 c1) :
  net_initial c0 -> settled_members book M c0 -> starts c0 -> rtc transfer_step (c0, ∅) (c1, R1) ->
  nodes (base c1) !! i = Some n -> TryDecodeConfChange cmd = Ret None -> (LastIndex (log_ n) + 2 < two64)%N ->
  (ProposeStart cmd n).1 = Ret (Appended k) -> resuming_step c1 c1' -> rtc transfer_step (c1', R1) (c2, R2) ->
  nodes (base c2) !! i = Some n2 -> role_ n2 = kLeader -> current_term n2 = current_term n -> (ProposeFinish k n2).1 = true ->
  rtc transfer_step (c2, R2) (c3, R3) -> nodes (base c3) !! j = Some nj -> j ∉ R3 -> (k <= last_applied_ nj)%N ->
  exists before after, S (length before) = N.to_nat k /\
    makes spec (before ++ {| index := k; term := current_term n; command := cmd |} :: after) (sm_ nj).
Proof.
  intros H0' Hset Hs H01 Hi Hcmd Hb Hk Hres H12 Hi2 Hrole Ht Hfin H23 Hj HjR Hkj.
  destruct (transfer_run c0 _ H0' Hset Hs H01) as (a1 & Hrel1 & Hset1 & Hcar1).
  destruct (propose_carries a1 (c1, R1) i n cmd k) as (a1' & Hrel1' & Hcar1' & Hhas); try done.
  cbn [fst snd] in *. destruct (transfer_execution a1' (c1', R1) (c2, R2) Hrel1') as (a2 & Hrel2 & Hp2 & Hset2 & Hcar2); [apply Hres|done|exact H12|].
  destruct (transfer_execution a2 _ _ Hrel2 Hset2 Hcar2 H23) as (a3 & Hrel3 & Hp3 & _ & Hcar3). cbn [fst] in *.
  destruct (leader_has_progresses M a1' a2 _ _ _ Hp2 Hhas) as (L & HL & EL). apply N.leb_le in Hfin.
  destruct (leader_commits book M a2 c2 i n2 L Hrel2 Hi2 Hrole) as [HC LC]; [by rewrite Ht|].
  destruct (replica_of a3 (c3, R3) j nj Hrel3 Hcar3 Hj HjR) as (l & [[T R1'] R5] & R2' & _).
  destruct (nr_wf _ _ _ _ Hrel2 _ _ _ HL) as [_ [Hcon _]]. specialize (Hcon _ _ EL). cbn [index] in *.
  destruct (lookup_lt_is_Some_2 l (N.to_nat (k - 1))) as [e He].
  { rewrite R2'. lia. }
  assert (e = {| index := k; term := current_term n; command := cmd |}) as ->.
  { symmetry. eapply (settled_same M a3); [apply Hrel3|by eapply settled_progresses|exact R1'| |exact He].
    rewrite lookup_take_lt; [exact EL|]. lia. }
  exists (take (N.to_nat (k - 1)) l), (drop (S (N.to_nat (k - 1))) l). rewrite length_take. split; [lia|].
  by rewrite (take_drop_middle l _ _ He).
Qed.
End runs.

(** ** A run with a snapshot *)

#[export] Instance appender_laws : SnapshotLaws test_sm.
Proof. refine {| same := eq; whole := fun _ => True |}. intros s s' _ _. by exists s. Defined.

Abbreviation test_transfer := (transfer_step port_book three_members (same (SM := test_sm)) whole).

Lemma calm_transfers (c c' : test_net) R : installs c = [] -> runs c c' -> rtc test_transfer (c, R) (c', R).
Proof.
  intros Hin Hr. revert Hin. induction Hr as [c|c1 c2 c3 H12 _ IH]; intros Hin; [done|]. apply (rtc_l _ _ (c2, R)); [|apply IH, H12].
  apply transfer_resuming, calm_resuming; [done|done|].
  intros i [] _; right; [done..|]. split; [by apply nothing_installs|]. intros n _. exact I.
Qed.

(** Node 1 appends five commands, commits them with node 2 and compacts its log; so when it turns
    to node 3 it has to send a snapshot. *)
Definition wrote1 := proposes 1 (str "a") elected1.
Definition wrote2 := proposes 1 (str "b") wrote1.
Definition wrote3 := proposes 1 (str "c") wrote2.
Definition wrote4 := proposes 1 (str "d") wrote3.
Definition wrote5 := proposes 1 (str "e") wrote4.
Definition batch1 := replicates 1 2 wrote5.
Definition five_entries : list LogEntry :=
  imap (fun k cmd => {| index := N.of_nat k + 1; term := 1; command := cmd |}) [str "a"; str "b"; str "c"; str "d"; str "e"].
Definition append_five := entries_of 1 1 0 0 five_entries 0.
Definition five_taken : AppendEntriesResponse := {| aer_term := 1; aer_success := true; aer_match_index := 5 |}.
Definition batch2 := with_reply [(1%N, RpcAppend 2 (member_address 2) 1 0 5 append_five, AppendReply five_taken)]
  (acts 2 (fun n => (HandleAppendEntries test_env append_five n).2) batch1).
Definition compacted1 := acts 1 (fun n => (OnAppendResponse test_env 2 1 0 5 (Some five_taken) n).2) batch2.
Definition dumped1 := replicates 1 3 compacted1.
Definition dump_five : InstallSnapshotRequest := {|
  is_term := 1; is_leader_id := 1; is_last_included_index := 5; is_last_included_term := 1; is_data := str "abcde";
  is_membership := list_to_map (map (fun i => (i, member_address i)) [1; 2; 3]%N) |}.

(** Node 3 begins to install it; meanwhile node 1 appends another command. *)
Definition dump_rpc := RpcSnapshot 3 (member_address 3) 1 5 dump_five.
Definition begun3 := with_installs ((1%N, dump_rpc) :: installs dumped1) (acts 3 (fun n => (BeginInstall test_env dump_five n).2) dumped1).
Definition wrote6 := proposes 1 (str "f") begun3.
Definition taken3 := acts 3 (set_sm (str "abcde")) wrote6.
Definition restored3 := with_installs (List.filter (fun e => negb (installed_at port_book 3 e)) (installs taken3))
  (with_reply (Network.answer 1 dump_rpc SnapshotReply (FinishInstall dump_five (node_at 3 taken3)).1)
     (acts 3 (fun n => (FinishInstall dump_five n).2) taken3)).

(** One more command is appended. *)
Ltac write_step c c' k :=
  run_step c' (net_local port_book c 1%N (node_at 1 c)); [evaluates|apply (local_propose port_book _ _ (Appended k)); vm_compute; reflexivity|].

Lemma wrote1_calm : calm_step port_book three_members elected1 wrote1.
Proof.
  apply calm_compute; [|vm_compute; reflexivity]. apply (net_local port_book elected1 1 (node_at 1 elected1)); [evaluates|].
  apply (local_propose port_book _ _ (Appended 1)); vm_compute; reflexivity.
Qed.

Lemma wrote1_resumes : resuming_step port_book three_members (same (SM := test_sm)) whole elected1 wrote1.
Proof.
  apply calm_resuming; [vm_compute; reflexivity|exact wrote1_calm|]. intros i [] _; right; [done..|].
  split; [by apply nothing_installs|]. intros n _. exact I.
Qed.

Lemma dumped1_reachable : runs wrote1 dumped1.
Proof.
  write_step wrote1 wrote2 2%N. write_step wrote2 wrote3 3%N.
  write_step wrote3 wrote4 4%N. write_step wrote4 wrote5 5%N. replicate_step wrote5 batch1 1%N.
  run_step batch2 (net_append port_book batch1 1%N 2%N (member_address 2) 1%N 0%N 5%nat append_five (node_at 2 batch1) test_env five_taken);
    [apply (list_elem_of_lookup_2 _ 0); evaluates|evaluates..|].
  run_step compacted1 (net_appended port_book batch2 1%N 2%N (member_address 2) 1%N 0%N 5%nat append_five five_taken (node_at 1 batch2) test_env);
    [apply (list_elem_of_lookup_2 _ 0); evaluates|evaluates..|].
  by replicate_step compacted1 dumped1 1%N.
Qed.

Lemma dumped1_run : runs quiet_net dumped1.
Proof. etrans; [exact elected1_reachable|]. apply (rtc_l _ _ wrote1); [exact wrote1_calm|exact dumped1_reachable]. Qed.

Lemma wrote6_resumes : resuming_step port_book three_members (same (SM := test_sm)) whole begun3 wrote6.
Proof.
  apply (silent_resumes port_book three_members same whole begun3 1 (node_at 1 begun3)); [evaluates| |vm_compute; reflexivity..].
  split; [|apply settled_compute; vm_compute; reflexivity].
  apply (net_local port_book begun3 1 (node_at 1 begun3)); [evaluates|].
  apply (local_propose port_book _ _ (Appended 6)); vm_compute; reflexivity.
Qed.

Lemma restored3_reachable : rtc test_transfer (dumped1, ∅) (restored3, ({[3%N]} ∪ ∅) ∖ {[3%N]}).
Proof.
  apply (rtc_l _ _ (begun3, ∅)).
  { apply (transfer_begin port_book three_members same whole 1 3 (member_address 3) 1 5 dump_five (node_at 3 dumped1) (BeginInstall test_env dump_five (node_at 3 dumped1)).2 test_env);
      [apply (list_elem_of_lookup_2 _ 1); evaluates|evaluates|apply Forall_nil; exact I|vm_compute; reflexivity..|exact I|].
    apply settled_compute. vm_compute. reflexivity. }
  apply (rtc_l _ _ (wrote6, ∅)); [apply transfer_resuming; exact wrote6_resumes|].
  apply (rtc_l _ _ (taken3, {[3%N]} ∪ ∅)).
  { apply (transfer_restore port_book three_members same whole 1 3 (member_address 3) 1 5 dump_five (node_at 3 wrote6) (str "abcde"));
      [apply (list_elem_of_lookup_2 _ 0); evaluates|evaluates|apply not_elem_of_empty|vm_compute; reflexivity|]. apply settled_compute. vm_compute. reflexivity. }
  apply rtc_once. apply (transfer_finish port_book three_members same whole 1 3 (member_address 3) 1 5 dump_five (node_at 3 taken3));
    [apply (list_elem_of_lookup_2 _ 0); evaluates|evaluates|set_solver|]. apply settled_compute. vm_compute. reflexivity.
Qed.

Lemma restored3_done : 3%N ∉ (({[3%N]} ∪ ∅) ∖ {[3%N]} : gset N).
Proof. apply (bool_decide_unpack _). vm_compute. exact I. Qed.

(** ** Properties *)

(** C9: snapshots stand for the log. In an undisturbed run in which nodes restart and catch up by entries
    or by snapshots, whichever comes, there is one log such that the state machine of every node
    that is not between the restoring and the end of an installation is, up to [same], what
    the first entries of that log make of the state all of them started with, as many as the
    node has applied or was given in a snapshot.

    What a run is ([transfer_step]): it starts with new nodes; messages are delayed and lost in any
    order, those of replication also repeated; the members stay the same, no callback throws and
    no index or term reaches 2^64; nodes stop between critical sections and restart with a log
    that fits the file format and a state machine that is [same] as the one they had; read requests leave the state machine unchanged; snapshots are
    taken of, and replace, states that are [whole]; a node installs one snapshot at a time, which
    is newer than what it has applied, and from the beginning to the end of that it applies
    nothing, takes no snapshot and does not restart, while the others do anything. *)
Theorem snapshots_replay_one_log {SM} `{SnapshotLaws SM} book (M : gset N) (c0 c1 c2 : net) R1 R2 i j s (ni nj : RaftNode SM) :
  net_initial c0 -> settled_members book M c0 -> map_Forall (fun _ n => same (sm_ n) s) (nodes (base c0)) ->
  rtc (transfer_step book M same whole) (c0, ∅) (c1, R1) -> rtc (transfer_step book M same whole) (c1, R1) (c2, R2) ->
  nodes (base c1) !! i = Some ni -> i ∉ R1 -> nodes (base c2) !! j = Some nj -> j ∉ R2 ->
  exists L, consecutive 0 L /\
    (N.to_nat (last_applied_ ni) <= length L)%nat /\ (N.to_nat (last_applied_ nj) <= length L)%nat /\
    same (sm_ ni) (foldl exec s (take (N.to_nat (last_applied_ ni)) L)) /\
    same (sm_ nj) (foldl exec s (take (N.to_nat (last_applied_ nj)) L)).
Proof. intros H0' Hset Hs. by apply (two_replicas book M same whole (up_to_same s)). Qed.

(** Node 3 has nothing but the snapshot, and is where node 1 is. *)
Lemma snapshots_replay_one_log_witness :
  log_ (node_at 3 dumped1) = empty_log /\ entries (log_ (node_at 3 restored3)) = [] /\
  last_applied_ (node_at 1 dumped1) = 5%N /\ last_applied_ (node_at 3 restored3) = 5%N /\
  exists L, consecutive 0 L /\ (5 <= length L)%nat /\ (5 <= length L)%nat /\
    sm_ (node_at 1 dumped1) = foldl exec [] (take 5 L) /\ sm_ (node_at 3 restored3) = foldl exec [] (take 5 L).
Proof.
  assert (E1 : last_applied_ (node_at 1 dumped1) = 5%N) by (vm_compute; reflexivity).
  assert (E3 : last_applied_ (node_at 3 restored3) = 5%N) by (vm_compute; reflexivity).
  split; [vm_compute; reflexivity|]. split; [vm_compute; reflexivity|]. split; [exact E1|]. split; [exact E3|].
  pose proof (snapshots_replay_one_log port_book three_members quiet_net dumped1 restored3 ∅ (({[3%N]} ∪ ∅) ∖ {[3%N]}) 1 3 []
    (node_at 1 dumped1) (node_at 3 restored3)) as Hone.
  rewrite E1, E3 in Hone. apply Hone.
  - exact quiet_initial.
  - apply settled_compute. vm_compute. reflexivity.
  - intros i n Hi. apply elem_of_list_to_map_2 in Hi. rewrite !elem_of_cons, elem_of_nil in Hi.
    destruct Hi as [[= -> ->]|[[= -> ->]|[[= -> ->]|[]]]]; vm_compute; reflexivity.
  - apply calm_transfers; [reflexivity|exact dumped1_run].
  - exact restored3_reachable.
  - apply node_at_lookup. vm_compute. reflexivity.
  - apply not_elem_of_empty.
  - apply node_at_lookup. vm_compute. reflexivity.
  - exact restored3_done.
Defined.

(** Acknowledged commands are in the snapshots too. In a run like that, if a leader appends a
    command at an index in [Propose] and finds at the end of its wait, still leading the same
    term, that the index is committed, then every state machine that gets as far, by entries or by
    a snapshot, is what a sequence of commands with this one at that very place has made of the
    initial state. *)
Theorem acknowledged_command_transferred {SM} `{SnapshotLaws SM} book (M : gset N) (c0 c1 c2 c3 : net) R1 R2 R3 i j k (n n2 nj : RaftNode SM) cmd s :
  net_initial c0 -> settled_members book M c0 -> map_Forall (fun _ n => same (sm_ n) s) (nodes (base c0)) -> rtc (transfer_step book M same whole) (c0, ∅) (c1, R1) ->
  nodes (base c1) !! i = Some n -> TryDecodeConfChange cmd = Ret None -> (LastIndex (log_ n) + 2 < two64)%N ->
  (ProposeStart cmd n).1 = Ret (Appended k) -> resuming_step book M same whole c1 (net_act book i n (ProposeStart cmd n).2 c1) ->
  rtc (transfer_step book M same whole) (net_act book i n (ProposeStart cmd n).2 c1, R1) (c2, R2) ->
  nodes (base c2) !! i = Some n2 -> role_ n2 = kLeader -> current_term n2 = current_term n -> (ProposeFinish k n2).1 = true ->
  rtc (transfer_step book M same whole) (c2, R2) (c3, R3) -> nodes (base c3) !! j = Some nj -> j ∉ R3 -> (k <= last_applied_ nj)%N ->
  exists before after, S (length before) = N.to_nat k /\
    same (sm_ nj) (foldl exec s (before ++ {| index := k; term := current_term n; command := cmd |} :: after)).
Proof. intros H0' Hset Hs. by apply (acknowledged_state book M same whole (up_to_same s)). Qed.

(** Node 3, which has never seen an entry, has the first command of node 1. *)
Lemma acknowledged_command_transferred_witness :
  log_ (node_at 3 dumped1) = empty_log /\ exists before after, S (length before) = 1%nat /\
    sm_ (node_at 3 restored3) =
    foldl exec [] (before ++ {| index := 1; term := current_term (node_at 1 elected1); command := str "a" |} :: after).
Proof.
  split; [vm_compute; reflexivity|].
  apply (@acknowledged_command_transferred test_sm appender appender_laws port_book three_members quiet_net elected1 dumped1 restored3 ∅ ∅ (({[3%N]} ∪ ∅) ∖ {[3%N]}) 1 3 1
           (node_at 1 elected1) (node_at 1 dumped1) (node_at 3 restored3) (str "a") []).
  - exact quiet_initial.
  - apply settled_compute. vm_compute. reflexivity.
  - intros i n Hi. apply elem_of_list_to_map_2 in Hi. rewrite !elem_of_cons, elem_of_nil in Hi.
    destruct Hi as [[= -> ->]|[[= -> ->]|[[= -> ->]|[]]]]; vm_compute; reflexivity.
  - apply calm_transfers; [reflexivity|exact elected1_reachable].
  - apply node_at_lookup. vm_compute. reflexivity.
  - reflexivity.
  - vm_compute. reflexivity.
  - vm_compute. reflexivity.
  - exact wrote1_resumes.
  - apply calm_transfers; [vm_compute; reflexivity|exact dumped1_reachable].
  - apply node_at_lookup. vm_compute. reflexivity.
  - vm_compute. reflexivity.
  - vm_compute. reflexivity.
  - vm_compute. reflexivity.
  - exact restored3_reachable.
  - apply node_at_lookup. vm_compute. reflexivity.
  - exact restored3_done.
  - vm_compute. discriminate.
Defined.
