(* ===== verification/Reconfig.v ===== *)
(** * Changing the members one at a time is not enough

    Runs in which proposals may change the membership.  The README (line 489) calls changes of one
    server at a time provably safe on their own, since old and new majorities overlap.  They do
    for two successive configurations, but a leader that changes the membership before it has
    committed an entry of its term may be two changes away from another leader's configuration;
    the code has no check against that, and committed commands are lost. *)

From Stdlib Require Import NArith Lia.
From stdpp Require Import fin_maps fin_sets fin_map_dom.
From S2P Require Export LogSafety ConfChange.

(** A step of the cluster, where a proposal may be anything. *)
Inductive open_step {SM} `{StateMachine SM} (book : PeerAddress -> NodeId) (c : net (SM := SM)) : net (SM := SM) -> Prop :=
| open_net c' : net_step book c c' -> open_step book c c'
| open_propose i n cmd o :
    nodes (base c) !! i = Some n -> (ProposeStart cmd n).1 = Ret o -> open_step book c (net_act book i n (ProposeStart cmd n).2 c).

(** ** Scripts *)

(** What happens, and when: a node stands for election, asks another for its vote and hears its
    answer, is asked to commit a command, or sends what another lacks and hears its answer. *)
Inductive deed := Stands (i : N) | Votes (i p : N) | Offered (i : N) (cmd : bytes) | Sends (i p : N).

Definition at_time (t : N) : Env := {| now := t; timeout := 300 |}.

Definition vote (env : Env) (i p : N) (c : test_net) : test_net :=
  let t := current_term (node_at i c) in
  match nodes (base c) !! i, nodes (base c) !! p, threads (base c) !! (i, t, p) with
  | Some _, Some n, Some (Asked req) =>
    let c := with_base (Cluster (<[p := (HandleRequestVote env req n).2]> (nodes (base c)))
      (<[(i, t, p) := Answered (HandleRequestVote env req n).1]> (threads (base c)))) c in
    match nodes (base c) !! i with
    | Some m => with_base (Cluster (<[i := (OnVoteResponse env t (HandleRequestVote env req n).1 m).2]> (nodes (base c)))
        (delete (i, t, p) (threads (base c)))) c
    | None => c
    end
  | _, _, _ => c
  end.

(** The request that node [i] has sent last is handled, and [i] hears the answer. *)
Definition deliver (env : Env) (c : test_net) : test_net :=
  match last (sent c) with
  | Some (i, RpcAppend peer addr t prev count req) =>
    match nodes (base c) !! port_book addr with
    | Some n =>
      match (HandleAppendEntries env req n).1 with
      | Ret resp =>
        let c := with_reply [(i, RpcAppend peer addr t prev count req, AppendReply resp)]
          (net_act port_book (port_book addr) n (HandleAppendEntries env req n).2 c) in
        match nodes (base c) !! i with
        | Some m =>
          match (OnAppendResponse env peer t prev count (Some resp) m).1 with
          | Ret _ => net_act port_book i m (OnAppendResponse env peer t prev count (Some resp) m).2 c
          | _ => c
          end
        | None => c
        end
      | _ => c
      end
    | None => c
    end
  | _ => c
  end.

Definition perform (env : Env) (d : deed) (c : test_net) : test_net :=
  match d with
  | Stands i =>
    match nodes (base c) !! i with
    | Some n => if (current_term n + 1 <? two64)%N then net_act port_book i n (StartElection env n).2 c else c
    | None => c
    end
  | Votes i p => vote env i p c
  | Offered i cmd =>
    match nodes (base c) !! i with
    | Some n => if (ProposeStart cmd n).1 is Ret _ then net_act port_book i n (ProposeStart cmd n).2 c else c
    | None => c
    end
  | Sends i p =>
    match nodes (base c) !! i with
    | Some n =>
      if bool_decide (is_Some (peers_ n !! p)) && negb (p =? id_ n)%N
      then deliver env (net_act port_book i n (ReplicateTo p (member_address p) n) c) else c
    | None => c
    end
  end.

Definition play (script : list (N * deed)) (c : test_net) : test_net :=
  foldl (fun c x => perform (at_time x.1) x.2 c) c script.

Abbreviation open_run := (rtc (open_step port_book)).

Lemma open_once (c c' : test_net) : net_step port_book c c' -> open_run c c'.
Proof. intros Hs. by apply rtc_once, open_net. Qed.

Lemma vote_run env i p c : open_run c (vote env i p c).
Proof.
  unfold vote. destruct (nodes (base c) !! i) as [m|] eqn:Ei; [|done]. destruct (nodes (base c) !! p) as [n|] eqn:Ep; [|done].
  destruct (threads (base c) !! _) as [[req|]|] eqn:Eth; [|done..]. cbv zeta.
  etrans; [apply open_once; by eapply (net_vote port_book c i _ p n env req)|].
  set (c1 := with_base _ c). destruct (nodes (base c1) !! i) as [m1|] eqn:Ei1; [|done].
  apply open_once. apply (net_answer port_book c1 i _ p m1 env); [|done]. unfold c1. cbn. by rewrite lookup_insert_eq.
Qed.

Lemma deliver_run env c : open_run c (deliver env c).
Proof.
  unfold deliver. destruct (last (sent c)) as [[i [|peer addr t prev count req|]]|] eqn:El; [done| |done..].
  destruct (nodes (base c) !! port_book addr) as [n|] eqn:En; [|done].
  destruct (HandleAppendEntries env req n).1 as [resp|e|] eqn:Eo; [|done..]. cbv zeta.
  assert (Hin : (i, RpcAppend peer addr t prev count req) ∈ sent c) by (apply last_Some_elem_of; exact El).
  etrans; [apply open_once; by eapply (net_append port_book c i peer addr t prev count req n env resp)|].
  set (c1 := with_reply _ _). destruct (nodes (base c1) !! i) as [m|] eqn:Em; [|done].
  destruct (OnAppendResponse env peer t prev count (Some resp) m).1 as [[]|e|] eqn:Er; [|done..].
  apply open_once. eapply (net_appended port_book c1 i peer addr t prev count req resp m env); [|done|done].
  unfold c1. cbn. apply elem_of_app. right. by apply list_elem_of_singleton.
Qed.

(** Every script is a run. *)
Lemma play_run script c : open_run c (play script c).
Proof.
  revert c. induction script as [|[t d] script IH]; intros c; [done|]. etrans; [|apply IH]. cbn. destruct d as [i|i p|i cmd|i p]; cbn.
  - destruct (nodes (base c) !! i) as [n|] eqn:Ei; [|done]. destruct (N.ltb_spec (current_term n + 1) two64); [|done].
    apply open_once. by apply net_election.
  - apply vote_run.
  - destruct (nodes (base c) !! i) as [n|] eqn:Ei; [|done]. destruct (ProposeStart cmd n).1 as [o|e|] eqn:Eo; [|done..].
    apply rtc_once. by apply (open_propose port_book c i n cmd o).
  - destruct (nodes (base c) !! i) as [n|] eqn:Ei; [|done].
    destruct (bool_decide_reflect (is_Some (peers_ n !! p))) as [Hp|]; [|done]. destruct (N.eqb_spec p (id_ n)); [done|]. cbn [andb negb].
    etrans; [|apply deliver_run]. apply open_once. apply net_local; [done|]. by apply local_replicate.
Qed.

(** ** Four nodes, and a fifth that joins *)

Definition joining_node : RaftNode test_sm :=
  match new_node 5 (member_address 5) ∅ (str "d") true [] ∅ with Ret n => n | _ => test_node end.

Definition four_and_one : test_net :=
  Net (Cluster (list_to_map [(1, member 1 [2; 3; 4]); (2, member 2 [1; 3; 4]); (3, member 3 [1; 2; 4]); (4, member 4 [1; 2; 3]);
    (5, joining_node)])%N ∅) [] [] [].

Definition add_5 : bytes := EncodeConfChange {| cc_type := kAddServer; cc_server_id := 5; cc_host := str "h"; cc_port := 5 |}.
Definition remove_1 : bytes := EncodeConfChange {| cc_type := kRemoveServer; cc_server_id := 1; cc_host := []; cc_port := 0 |}.

(** Node 1 leads term 1 and adds node 5, but is cut off before it tells anyone.  Nodes 2, 3 and 4
    elect node 2, which removes node 1 and commits that and a command with node 3: two of three.
    Then node 1 stands again: in its configuration of five, itself, node 4 and node 5 are enough. *)
Definition first_leader : list (N * deed) :=
  [(1000, Stands 1); (1000, Votes 1 2); (1000, Votes 1 3); (1001, Offered 1 add_5)]%N.
Definition second_leader : list (N * deed) :=
  [(2000, Stands 2); (2000, Votes 2 3); (2000, Votes 2 4); (2001, Offered 2 remove_1);
   (2002, Offered 2 (str "x")); (2003, Sends 2 3); (2004, Sends 2 3); (2005, Sends 2 3)]%N.
Definition first_again : list (N * deed) :=
  [(3000, Stands 1); (4000, Stands 1); (4000, Votes 1 4); (4000, Votes 1 5); (4001, Offered 1 (str "y"));
   (4002, Sends 1 4); (4003, Sends 1 4); (4004, Sends 1 5); (4005, Sends 1 5); (4006, Sends 1 4)]%N.

Definition removed : test_net := play (first_leader ++ second_leader) four_and_one.
Definition split_brain : test_net := play first_again removed.

Lemma four_and_one_initial : net_initial four_and_one.
Proof.
  assert (Hb : forallb (fun x => let n := x.2 in (id_ n =? x.1)%N && bool_decide (role_ n = kFollower) &&
      bool_decide (last_applied_ n = 0%N) && bool_decide (commit_index_ n = 0%N) && bool_decide (match_index_ n = ∅))
      (map_to_list (nodes (base four_and_one))) = true) by (vm_compute; reflexivity).
  assert (Hn : forall i n, nodes (base four_and_one) !! i = Some n -> log_ n = empty_log /\ log_saved n /\ hard_ok n).
  { intros i n Hi. apply elem_of_list_to_map_2 in Hi. rewrite !elem_of_cons, elem_of_nil in Hi. unfold log_saved.
    destruct Hi as [[= -> ->]|[[= -> ->]|[[= -> ->]|[[= -> ->]|[[= -> ->]|[]]]]]];
      (split; [by vm_compute|split; [right; by vm_compute|by repeat split]]). }
  rewrite forallb_forall in Hb.
  assert (Hall : forall i n, nodes (base four_and_one) !! i = Some n ->
    id_ n = i /\ role_ n = kFollower /\ last_applied_ n = 0%N /\ commit_index_ n = 0%N /\ match_index_ n = ∅).
  { intros i n Hi. assert (Hin := Hi). apply elem_of_map_to_list, list_elem_of_In, Hb in Hin. cbn in Hin.
    apply andb_true_iff in Hin as [[[[?%N.eqb_eq ?%bool_decide_eq_true]%andb_true_iff ?%bool_decide_eq_true]%andb_true_iff
      ?%bool_decide_eq_true]%andb_true_iff ?%bool_decide_eq_true]. done. }
  split; [split; [done|]|split_and!; [done..|]]; intros i n Hi; destruct (Hn i n Hi) as (? & ? & ?), (Hall i n Hi) as (? & ? & ? & ? & ?); by split_and!.
Qed.

(** A committed command is lost when members change.  From five fresh nodes, with messages that are
    late or lost and nothing worse, node 2 leads term 2, commits a command at index 2 and reports
    it to its client; then node 1 leads term 3 and commits another one there.  Both are applied,
    and both nodes go on leading, each with followers of its own. *)
Theorem membership_changes_lose_commands :
  net_initial four_and_one /\ open_run four_and_one removed /\ open_run removed split_brain /\
  ProposeFinish 2 (node_at 2 removed) = (true, []) /\
  At 2 (log_ (node_at 2 removed)) = Some {| index := 2; term := 2; command := str "x" |} /\
  ProposeFinish 2 (node_at 1 split_brain) = (true, []) /\
  At 2 (log_ (node_at 1 split_brain)) = Some {| index := 2; term := 3; command := str "y" |} /\
  map (fun i => role_ (node_at i split_brain)) [1; 2; 3; 4]%N = [kLeader; kLeader; kFollower; kFollower] /\
  map (fun i => sm_ (node_at i split_brain)) [1; 2; 3; 4]%N =
    [str "y"; str "x"; str "x"; str "y"].
Proof.
  split; [exact four_and_one_initial|]. split; [apply play_run|]. split; [apply play_run|].
  split_and!; vm_compute; reflexivity.
Qed.
