(* ===== verification/Lexer.v ===== *)
(** * The SQL lexer ([src/sql/lexer.h], [src/sql/lexer.cpp])

    [Tokenize] walks the text once; its position [i] is carried as the offset and the unread
    text.  Every step reads at least one byte, so the length of the text is enough fuel. *)

From Stdlib Require Import Lia.
From S2P Require Export Decimal.

Inductive TokenType := kIdentifier | kNumber | kString | kSymbol | kEnd.

#[export] Instance TokenType_eq_dec : EqDecision TokenType.
Proof. solve_decision. Defined.

Record Token := { type : TokenType; text : bytes; offset : nat }.

Definition quote : ascii := "'"%char.
Definition underscore : ascii := "_"%char.
Definition hyphen : ascii := "-"%char.

Definition IsIdentStart (c : ascii) : bool := isalpha c || Ascii.eqb c underscore.
Definition IsIdentChar (c : ascii) : bool := isalnum c || Ascii.eqb c underscore.

(** The inside of a string literal: the value so far, and what follows the closing quote; two
    quotes in a row mean one. *)
Fixpoint lex_string (s value : bytes) : outcome (bytes * bytes) :=
  match s with
  | [] => throw_rt (str "unterminated string literal")
  | c :: s' =>
    if Ascii.eqb c quote then
      match s' with
      | c' :: s'' => if Ascii.eqb c' quote then lex_string s'' (value ++ [quote]) else Ret (value, s')
      | [] => Ret (value, s')
      end
    else lex_string s' (value ++ [c])
  end.

(** The next character is [c]. *)
Definition next_is (c : ascii) (s : bytes) : bool :=
  match s with c' :: _ => Ascii.eqb c' c | [] => false end.

Definition single_symbols : bytes := str "(),;*=<>.".

(** One token from a text that starts with it: its type, its text, and the rest. *)
Definition lex_token (s : bytes) : outcome (TokenType * bytes * bytes) :=
  match s with
  | [] => Undef
  | c :: s' =>
    if IsIdentStart c then Ret (kIdentifier, take_while IsIdentChar s, drop_while IsIdentChar s)
    else if isdigit c then Ret (kNumber, take_while isdigit s, drop_while isdigit s)
    else if Ascii.eqb c hyphen && starts_digit s' then
      Ret (kNumber, c :: take_while isdigit s', drop_while isdigit s')
    else if Ascii.eqb c quote then p ← lex_string s' []; Ret (kString, p.1, p.2)
    else if Ascii.eqb c "<" && next_is "=" s' then Ret (kSymbol, str "<=", drop 1 s')
    else if Ascii.eqb c ">" && next_is "=" s' then Ret (kSymbol, str ">=", drop 1 s')
    else if Ascii.eqb c "!" && next_is "=" s' then Ret (kSymbol, str "!=", drop 1 s')
    else if Ascii.eqb c "<" && next_is ">" s' then Ret (kSymbol, str "!=", drop 1 s')
    else if bool_decide (c ∈ single_symbols) then Ret (kSymbol, [c], s')
    else throw_rt (str "unexpected character in SQL: '" ++ [c] ++ str "'")
  end.

Fixpoint lex (fuel : nat) (i : nat) (s : bytes) : outcome (list Token) :=
  match fuel with
  | O => Undef
  | S fuel =>
    match s with
    | [] => Ret [{| type := kEnd; text := []; offset := i |}]
    | c :: s' =>
      if isspace c then lex fuel (S i) s'
      else
        t ← lex_token s;
        let '(ty, txt, rest) := t in
        tokens ← lex fuel (i + (length s - length rest)) rest;
        Ret ({| type := ty; text := txt; offset := i |} :: tokens)
    end
  end.

Definition Tokenize (sql : bytes) : outcome (list Token) := lex (S (length sql)) 0 sql.

(** ** Every step makes progress *)

Lemma take_drop_while {A} (f : A -> bool) l : take_while f l ++ drop_while f l = l.
Proof. induction l as [|x l IH]; cbn; [done|]. destruct (f x); cbn; [by rewrite IH|done]. Qed.

Lemma drop_while_length {A} (f : A -> bool) l : (length (drop_while f l) <= length l)%nat.
Proof. induction l as [|x l IH]; cbn; [done|]. destruct (f x); cbn; lia. Qed.

Lemma lex_string_rest s value v rest : lex_string s value = Ret (v, rest) -> (length rest < length s)%nat.
Proof.
  remember (length s) as n eqn:Hn. assert (Hle : (length s <= n)%nat) by lia. rewrite Hn. clear Hn.
  revert s value Hle. induction n as [|n IH]; intros s value Hle; (destruct s as [|c s]; [done|]); cbn in Hle |- *; [lia|].
  destruct (Ascii.eqb c quote).
  - destruct s as [|c' s]; [intros [= <- <-]; cbn; lia|]. destruct (Ascii.eqb c' quote).
    + intros E. cbn in Hle. apply IH in E; [cbn; lia|lia].
    + intros [= <- <-]. cbn. lia.
  - intros E. apply IH in E; [cbn; lia|lia].
Qed.

Lemma lex_string_defined s value : lex_string s value <> Undef.
Proof.
  remember (length s) as n eqn:Hn. assert (Hle : (length s <= n)%nat) by lia. clear Hn.
  revert s value Hle. induction n as [|n IH]; intros s value Hle; (destruct s as [|c s]; [done|]); cbn in Hle |- *; [lia|].
  destruct (Ascii.eqb c quote); [|apply IH; lia]. destruct s as [|c' s]; [done|].
  destruct (Ascii.eqb c' quote); [|done]. cbn in Hle. apply IH. lia.
Qed.

Lemma IsIdentStart_char c : IsIdentStart c = true -> IsIdentChar c = true.
Proof. unfold IsIdentStart, IsIdentChar, isalnum. intros [->| ->]%orb_true_iff; by rewrite ?orb_true_r. Qed.

Lemma lex_token_rest s ty txt rest : lex_token s = Ret (ty, txt, rest) -> (length rest < length s)%nat.
Proof.
  destruct s as [|c s]; [done|]. unfold lex_token.
  destruct (IsIdentStart c) eqn:Ei.
  { intros [= <- <- <-]. cbn [drop_while]. rewrite (IsIdentStart_char c Ei). pose proof (drop_while_length IsIdentChar s). cbn. lia. }
  destruct (isdigit c) eqn:Ed.
  { intros [= <- <- <-]. cbn [drop_while]. rewrite Ed. pose proof (drop_while_length isdigit s). cbn. lia. }
  destruct (_ && starts_digit s).
  { intros [= <- <- <-]. pose proof (drop_while_length isdigit s). cbn. lia. }
  destruct (Ascii.eqb c quote).
  { destruct (lex_string s []) as [[v r]|e|] eqn:E; [|done..]. intros [= <- <- <-]. apply lex_string_rest in E. cbn. lia. }
  repeat case_match; try done; intros [= <- <- <-]; rewrite ?length_drop; cbn; lia.
Qed.

Lemma lex_token_defined s : s <> [] -> lex_token s <> Undef.
Proof.
  destruct s as [|c s]; [done|]. intros _. unfold lex_token.
  do 3 (case_match; [done|]). case_match; [|by repeat case_match].
  pose proof (lex_string_defined s []). by destruct (lex_string s []).
Qed.

(** Enough fuel is enough: [lex] never runs out of it. *)
Lemma lex_defined fuel i s : (length s < fuel)%nat -> lex fuel i s <> Undef.
Proof.
  revert i s. induction fuel as [|fuel IH]; intros i s Hf; [lia|]. cbn [lex].
  destruct s as [|c s]; [done|]. cbn in Hf. destruct (isspace c); [apply IH; lia|].
  pose proof (lex_token_defined (c :: s)) as Hd. destruct (lex_token (c :: s)) as [[[ty txt] rest]|e|] eqn:E; [|done|by destruct Hd].
  apply lex_token_rest in E. cbn [mbind outcome_bind]. cbn in E.
  match goal with |- context [lex fuel ?j rest] => specialize (IH j rest) end.
  destruct (lex fuel _ rest); [done|done|]. destruct IH; [lia|done].
Qed.

(** ** Printing tokens *)

Fixpoint escape (s : bytes) : bytes :=
  match s with
  | [] => []
  | c :: s' => if Ascii.eqb c quote then quote :: quote :: escape s' else c :: escape s'
  end.

Definition show_token (t : TokenType * bytes) : bytes :=
  match t.1 with
  | kString => [quote] ++ escape t.2 ++ [quote]
  | _ => t.2
  end.

Definition space : ascii := " "%char.

Definition show_tokens (ts : list (TokenType * bytes)) : bytes :=
  concat (map (fun t => show_token t ++ [space]) ts).

Definition is_identifier (s : bytes) : bool :=
  match s with c :: s' => IsIdentStart c && forallb IsIdentChar s' | [] => false end.

Definition is_number (s : bytes) : bool :=
  match s with
  | c :: s' => if Ascii.eqb c hyphen then starts_digit s' && forallb isdigit s' else isdigit c && forallb isdigit s'
  | [] => false
  end.

Definition symbols : list bytes :=
  [str "("; str ")"; str ","; str ";"; str "*"; str "="; str "!="; str "<"; str "<="; str ">"; str ">="; str "."].

(** The tokens there are; [kEnd] is not printed. *)
Definition token_ok (t : TokenType * bytes) : bool :=
  match t.1 with
  | kIdentifier => is_identifier t.2
  | kNumber => is_number t.2
  | kString => true
  | kSymbol => bool_decide (t.2 ∈ symbols)
  | kEnd => false
  end.

Lemma take_while_app {A} (f : A -> bool) l x r :
  forallb f l = true -> f x = false ->
  take_while f (l ++ x :: r) = l /\ drop_while f (l ++ x :: r) = x :: r.
Proof.
  intros Hl Hx. induction l as [|y l IH]; cbn in *; [by rewrite Hx|].
  apply andb_true_iff in Hl as [Hy Hl]. rewrite Hy. destruct (IH Hl) as [-> ->]. done.
Qed.

Lemma lex_string_escape s value rest : next_is quote rest = false ->
  lex_string (escape s ++ quote :: rest) value = Ret (value ++ s, rest).
Proof.
  intros Hr. revert value. induction s as [|c s IH]; intros value; cbn [escape app].
  - cbn. rewrite app_nil_r. destruct rest as [|c r]; [done|]. cbn in Hr. by rewrite Hr.
  - destruct (Ascii.eqb_spec c quote) as [->|Hne].
    + cbn [app lex_string]. rewrite Ascii.eqb_refl. cbn [app]. rewrite IH. by rewrite <- app_assoc.
    + cbn [app lex_string]. destruct (Ascii.eqb_spec c quote); [done|]. rewrite IH. by rewrite <- app_assoc.
Qed.

Lemma digit_not_start c : isdigit c = true -> IsIdentStart c = false.
Proof. intros Hd. destruct c as [[] [] [] [] [] [] [] []]; by vm_compute in Hd |- *. Qed.

(** Reading back a printed token. *)
Lemma lex_token_show t rest : token_ok t = true ->
  lex_token (show_token t ++ space :: rest) = Ret (t.1, t.2, space :: rest).
Proof.
  destruct t as [ty s]. unfold token_ok, show_token. cbn [fst snd]. destruct ty; intros Hok.
  - destruct s as [|c s]; [done|]. cbn in Hok. apply andb_true_iff in Hok as [Hc Hs].
    destruct (take_while_app IsIdentChar (c :: s) space rest) as [E1 E2];
      [cbn; by rewrite IsIdentStart_char, Hs|done|].
    unfold lex_token. cbn [app]. cbn [app] in E1, E2. by rewrite Hc, E1, E2.
  - destruct s as [|c s]; [done|]. unfold is_number in Hok. destruct (Ascii.eqb_spec c hyphen) as [->|Hm].
    + apply andb_true_iff in Hok as [Hd Hs]. destruct (take_while_app isdigit s space rest) as [E1 E2]; [done|done|].
      unfold lex_token. cbn [app]. rewrite E1, E2. destruct s as [|c s]; [done|]. cbn in Hd. cbn [app starts_digit]. by rewrite Hd.
    + apply andb_true_iff in Hok as [Hd Hs]. destruct (take_while_app isdigit (c :: s) space rest) as [E1 E2];
        [cbn; by rewrite Hd, Hs|done|].
      unfold lex_token. cbn [app]. cbn [app] in E1, E2. by rewrite digit_not_start, Hd, E1, E2.
  - unfold lex_token. cbn [app]. rewrite <- app_assoc. cbn [app].
    assert (E : lex_string (escape s ++ quote :: space :: rest) [] = Ret (s, space :: rest)) by by apply lex_string_escape.
    change (IsIdentStart quote) with false. change (isdigit quote) with false.
    change (Ascii.eqb quote hyphen) with false. change (Ascii.eqb quote quote) with true. cbn [andb]. by rewrite E.
  - apply bool_decide_eq_true in Hok. unfold symbols in Hok.
    repeat (apply elem_of_cons in Hok as [->|Hok]; [by vm_compute|]). by apply not_elem_of_nil in Hok.
  - done.
Qed.

Lemma show_token_nonempty t : token_ok t = true -> exists c s, show_token t = c :: s /\ isspace c = false.
Proof.
  destruct t as [ty s]. unfold token_ok, show_token. cbn [fst snd]. destruct ty; intros Hok.
  - destruct s as [|c s]; [done|]. exists c, s. split; [done|]. cbn in Hok. apply andb_true_iff in Hok as [Hc _].
    destruct c as [[] [] [] [] [] [] [] []]; by vm_compute in Hc |- *.
  - destruct s as [|c s]; [done|]. exists c, s. split; [done|]. unfold is_number in Hok.
    destruct (Ascii.eqb_spec c hyphen) as [->|Hm]; [done|]. apply andb_true_iff in Hok as [Hc _].
    destruct c as [[] [] [] [] [] [] [] []]; by vm_compute in Hc |- *.
  - by exists quote, (escape s ++ [quote]).
  - apply bool_decide_eq_true in Hok. unfold symbols in Hok.
    repeat (apply elem_of_cons in Hok as [->|Hok]; [by do 2 eexists|]). by apply not_elem_of_nil in Hok.
  - done.
Qed.

Lemma lex_show fuel i ts :
  forallb token_ok ts = true -> (length (show_tokens ts) < fuel)%nat ->
  exists toks, lex fuel i (show_tokens ts) = Ret toks /\
    map (fun t => (type t, text t)) toks = ts ++ [(kEnd, [])].
Proof.
  revert fuel i. induction ts as [|t ts IH]; intros fuel i Hok Hf.
  - destruct fuel as [|fuel]; [cbn in Hf; lia|]. eexists. by split.
  - cbn [forallb] in Hok. apply andb_true_iff in Hok as [Ht Hok].
    change (show_tokens (t :: ts)) with ((show_token t ++ [space]) ++ show_tokens ts) in *.
    rewrite <- app_assoc in *. cbn [app] in *.
    destruct (show_token_nonempty t Ht) as (c & s & Es & Hsp). rewrite length_app in Hf. cbn [length] in Hf.
    destruct fuel as [|[|fuel]]; [lia..|]. pose proof (lex_token_show t (show_tokens ts) Ht) as E.
    rewrite Es in E, Hf |- *. cbn [app] in E |- *. change (length (c :: s)) with (S (length s)) in Hf.
    destruct (IH fuel (S (i + (length (c :: s ++ space :: show_tokens ts) - length (space :: show_tokens ts))))) as (toks & E2 & Em);
      [done|lia|].
    eexists. cbn [lex]. rewrite Hsp, E. cbn [mbind outcome_bind]. change (isspace space) with true. cbv iota.
    rewrite E2. split; [reflexivity|]. cbn [map type text]. by rewrite Em, <- surjective_pairing.
Qed.

(** ** Properties *)

(** Reading back printed tokens. Any list of tokens, printed with a space after each one and
    quotes doubled inside string literals, is tokenized into the same tokens followed by the end
    marker: a literal can hold any bytes. *)
Theorem Tokenize_round_trip (ts : list (TokenType * bytes)) :
  forallb token_ok ts = true ->
  exists toks, Tokenize (show_tokens ts) = Ret toks /\
    map (fun t => (type t, text t)) toks = ts ++ [(kEnd, [])].
Proof. intros Hok. apply lex_show; [done|lia]. Qed.

Lemma Tokenize_round_trip_witness :
  let ts := [(kIdentifier, str "a_1"); (kSymbol, str "<="); (kNumber, str "-12"); (kString, str "it's; --")] in
  exists toks, Tokenize (show_tokens ts) = Ret toks /\
    map (fun t => (type t, text t)) toks = ts ++ [(kEnd, [])].
Proof. apply Tokenize_round_trip. by vm_compute. Defined.
