(* ===== verification/Ast.v ===== *)
(** * SQL statements ([src/sql/ast.h]) *)

From S2P Require Export Lexer.

Inductive ColumnType := kText | kInt.

#[export] Instance ColumnType_eq_dec : EqDecision ColumnType.
Proof. solve_decision. Defined.

Record ColumnDef := {
  col_name : bytes;
  col_type : ColumnType;
  primary_key : bool;
  default_value : option bytes;
}.

Record CreateDatabaseStatement := { cd_name : bytes }.

Record CreateTableStatement := { ct_db_name : bytes; ct_table_name : bytes; ct_columns : list ColumnDef }.

Record AlterTableAddColumnStatement := { at_db_name : bytes; at_table_name : bytes; at_column : ColumnDef }.

Record InsertStatement := {
  in_db_name : bytes;
  in_table_name : bytes;
  in_columns : list bytes;
  in_values : list bytes;
}.

Inductive CompareOp := kEq | kNe | kLt | kLe | kGt | kGe.

#[export] Instance CompareOp_eq_dec : EqDecision CompareOp.
Proof. solve_decision. Defined.

Record Condition := { cond_column : bytes; cond_op : CompareOp; cond_literal : bytes }.

Record SelectStatement := {
  se_db_name : bytes;
  se_table_name : bytes;
  se_columns : list bytes;  (** empty means "*" *)
  se_where : list Condition;
}.

Record UpdateStatement := {
  up_db_name : bytes;
  up_table_name : bytes;
  up_assignments : list (bytes * bytes);
  up_where : list Condition;
}.

Record DeleteStatement := { de_db_name : bytes; de_table_name : bytes; de_where : list Condition }.

Record ShowTablesStatement := { st_db_name : bytes }.

Inductive Statement :=
| CreateTable (s : CreateTableStatement)
| InsertInto (s : InsertStatement)
| Select (s : SelectStatement)
| Update (s : UpdateStatement)
| DeleteFrom (s : DeleteStatement)
| AlterTableAddColumn (s : AlterTableAddColumnStatement)
| ShowTables (s : ShowTablesStatement)
| CreateDatabase (s : CreateDatabaseStatement)
| ShowDatabases.
