(* ===== verification/Parser.v ===== *)
(** * The SQL parser ([src/sql/parser.h], [src/sql/parser.cpp])

    A recursive-descent parser over the tokens.  Its state is the list of tokens from [pos_]
    on; reading past the end would be undefined, and never happens: every list of tokens ends
    with [kEnd], which no operation steps over.  The comma loops run on fuel, for which the
    number of tokens left is enough. *)

From Stdlib Require Import Lia.
From S2P Require Export Ast.

Abbreviation P := (ST (list Token)).

Definition ToUpper (s : bytes) : bytes := map toupper s.

(** ** Tokens *)

Definition Peek : P Token := fun ts =>
  match ts with t :: _ => (Ret t, ts) | [] => (Undef, ts) end.

Definition Advance : P Token := fun ts =>
  match ts with t :: ts' => (Ret t, ts') | [] => (Undef, ts) end.

Definition CheckKeyword (keyword : bytes) : P bool :=
  t ← Peek; mret (bool_decide (type t = kIdentifier) && bool_decide (ToUpper (text t) = keyword)).

Definition CheckSymbol (symbol : bytes) : P bool :=
  t ← Peek; mret (bool_decide (type t = kSymbol) && bool_decide (text t = symbol)).

(** [throw std::runtime_error(..)]. *)
Definition p_throw {A} (msg : bytes) : P A := st_throw (RuntimeError msg).

Definition ExpectKeyword (keyword : bytes) : P unit :=
  b ← CheckKeyword keyword;
  if b : bool then _ ← Advance; mret tt
  else t ← Peek; p_throw (str "expected keyword '" ++ keyword ++ str "' but found '" ++ text t ++ str "'").

Definition ExpectSymbol (symbol : bytes) : P unit :=
  b ← CheckSymbol symbol;
  if b : bool then _ ← Advance; mret tt
  else t ← Peek; p_throw (str "expected '" ++ symbol ++ str "' but found '" ++ text t ++ str "'").

Definition ExpectIdentifier : P bytes :=
  t ← Peek;
  if decide (type t = kIdentifier) then t ← Advance; mret (text t)
  else p_throw (str "expected an identifier but found '" ++ text t ++ str "'").

Definition ExpectLiteral : P bytes :=
  t ← Peek;
  if decide (type t = kString \/ type t = kNumber) then t ← Advance; mret (text t)
  else p_throw (str "expected a literal value but found '" ++ text t ++ str "'").

Definition ExpectQualifiedTableName : P (bytes * bytes) :=
  db_name ← ExpectIdentifier;
  b ← CheckSymbol (str ".");
  if b : bool then
    _ ← Advance;
    table_name ← ExpectIdentifier;
    mret (db_name, table_name)
  else
    p_throw (str "table name '" ++ db_name ++
             str "' must be qualified as <database>.<table> - there is no current/default database in this project (see CREATE DATABASE)").

(** [if (CheckX(..)) Advance();] *)
Definition skip_if (check : P bool) : P unit :=
  b ← check; if b : bool then _ ← Advance; mret tt else mret tt.

Definition skip_semicolon : P unit := skip_if (CheckSymbol (str ";")).

(** [while (true) { item; if (more) { Advance(); continue; } break; }]. *)
Fixpoint loop {A} (fuel : nat) (item : P A) (more : P bool) : P (list A) :=
  match fuel with
  | O => fun ts => (Undef, ts)
  | S fuel =>
    x ← item;
    b ← more;
    if b : bool then _ ← Advance; xs ← loop fuel item more; mret (x :: xs) else mret [x]
  end.

(** The loop with as much fuel as there are tokens. *)
Definition separated {A} (item : P A) (more : P bool) : P (list A) := fun ts =>
  loop (length ts) item more ts.

Definition comma_list {A} (item : P A) : P (list A) := separated item (CheckSymbol (str ",")).

(** ** Clauses *)

Definition ParseColumnType : P ColumnType :=
  name ← ExpectIdentifier;
  let type_name := ToUpper name in
  if decide (type_name = str "TEXT") then mret kText
  else if decide (type_name = str "INT") then mret kInt
  else p_throw (str "unknown column type '" ++ type_name ++ str "' (expected TEXT or INT)").

Definition ParseCompareOp : P CompareOp :=
  t ← Peek;
  if decide (type t <> kSymbol) then p_throw (str "expected a comparison operator")
  else
    t ← Advance;
    let op := text t in
    if decide (op = str "=") then mret kEq
    else if decide (op = str "!=") then mret kNe
    else if decide (op = str "<") then mret kLt
    else if decide (op = str "<=") then mret kLe
    else if decide (op = str ">") then mret kGt
    else if decide (op = str ">=") then mret kGe
    else p_throw (str "unknown comparison operator '" ++ op ++ str "'").

Definition ParseCondition : P Condition :=
  column ← ExpectIdentifier;
  op ← ParseCompareOp;
  literal ← ExpectLiteral;
  mret {| cond_column := column; cond_op := op; cond_literal := literal |}.

Definition ParseWhereClause : P (list Condition) := separated ParseCondition (CheckKeyword (str "AND")).

Definition ParseOptionalWhere : P (list Condition) :=
  b ← CheckKeyword (str "WHERE");
  if b : bool then _ ← Advance; ParseWhereClause else mret [].

(** ** Statements *)

Definition ParseCreateDatabase : P CreateDatabaseStatement :=
  _ ← ExpectKeyword (str "CREATE");
  _ ← ExpectKeyword (str "DATABASE");
  name ← ExpectIdentifier;
  _ ← skip_semicolon;
  mret {| cd_name := name |}.

(** One column of CREATE TABLE; [has_pk] is whether an earlier one is the primary key. *)
Definition ParseColumn (has_pk : bool) : P ColumnDef :=
  name ← ExpectIdentifier;
  ty ← ParseColumnType;
  b ← CheckKeyword (str "PRIMARY");
  if b : bool then
    _ ← Advance;
    _ ← ExpectKeyword (str "KEY");
    if has_pk then p_throw (str "table cannot have more than one PRIMARY KEY column")
    else mret {| col_name := name; col_type := ty; primary_key := true; default_value := None |}
  else mret {| col_name := name; col_type := ty; primary_key := false; default_value := None |}.

(** The loop over the columns: the columns, and whether one of them is the primary key. *)
Fixpoint ParseColumns (fuel : nat) (has_pk : bool) : P (list ColumnDef * bool) :=
  match fuel with
  | O => fun ts => (Undef, ts)
  | S fuel =>
    col ← ParseColumn has_pk;
    let has_pk := has_pk || primary_key col in
    b ← CheckSymbol (str ",");
    if b : bool then _ ← Advance; r ← ParseColumns fuel has_pk; mret (col :: r.1, r.2) else mret ([col], has_pk)
  end.

Definition ParseCreateTable : P CreateTableStatement :=
  _ ← ExpectKeyword (str "CREATE");
  _ ← ExpectKeyword (str "TABLE");
  name ← ExpectQualifiedTableName;
  _ ← ExpectSymbol (str "(");
  r ← (fun ts => ParseColumns (length ts) false ts);
  _ ← ExpectSymbol (str ")");
  if r.2 : bool then
    _ ← skip_semicolon;
    mret {| ct_db_name := name.1; ct_table_name := name.2; ct_columns := r.1 |}
  else p_throw (str "table '" ++ name.2 ++ str "' must declare exactly one PRIMARY KEY column").

Definition ParseAlterTable : P AlterTableAddColumnStatement :=
  _ ← ExpectKeyword (str "ALTER");
  _ ← ExpectKeyword (str "TABLE");
  name ← ExpectQualifiedTableName;
  _ ← ExpectKeyword (str "ADD");
  _ ← skip_if (CheckKeyword (str "COLUMN"));
  col ← ExpectIdentifier;
  ty ← ParseColumnType;
  _ ← ExpectKeyword (str "DEFAULT");
  value ← ExpectLiteral;
  _ ← skip_semicolon;
  mret {| at_db_name := name.1; at_table_name := name.2;
          at_column := {| col_name := col; col_type := ty; primary_key := false; default_value := Some value |} |}.

Definition ParseInsert : P InsertStatement :=
  _ ← ExpectKeyword (str "INSERT");
  _ ← ExpectKeyword (str "INTO");
  name ← ExpectQualifiedTableName;
  _ ← ExpectSymbol (str "(");
  columns ← comma_list ExpectIdentifier;
  _ ← ExpectSymbol (str ")");
  _ ← ExpectKeyword (str "VALUES");
  _ ← ExpectSymbol (str "(");
  values ← comma_list ExpectLiteral;
  _ ← ExpectSymbol (str ")");
  if decide (length columns <> length values) then p_throw (str "column count does not match value count")
  else
    _ ← skip_semicolon;
    mret {| in_db_name := name.1; in_table_name := name.2; in_columns := columns; in_values := values |}.

Definition ParseSelect : P SelectStatement :=
  _ ← ExpectKeyword (str "SELECT");
  b ← CheckSymbol (str "*");
  columns ← (if b : bool then _ ← Advance; mret [] else comma_list ExpectIdentifier);
  _ ← ExpectKeyword (str "FROM");
  name ← ExpectQualifiedTableName;
  conditions ← ParseOptionalWhere;
  _ ← skip_semicolon;
  mret {| se_db_name := name.1; se_table_name := name.2; se_columns := columns; se_where := conditions |}.

Definition ParseAssignment : P (bytes * bytes) :=
  column ← ExpectIdentifier;
  _ ← ExpectSymbol (str "=");
  literal ← ExpectLiteral;
  mret (column, literal).

Definition ParseUpdate : P UpdateStatement :=
  _ ← ExpectKeyword (str "UPDATE");
  name ← ExpectQualifiedTableName;
  _ ← ExpectKeyword (str "SET");
  assignments ← comma_list ParseAssignment;
  conditions ← ParseOptionalWhere;
  _ ← skip_semicolon;
  mret {| up_db_name := name.1; up_table_name := name.2; up_assignments := assignments; up_where := conditions |}.

Definition ParseDelete : P DeleteStatement :=
  _ ← ExpectKeyword (str "DELETE");
  _ ← ExpectKeyword (str "FROM");
  name ← ExpectQualifiedTableName;
  conditions ← ParseOptionalWhere;
  _ ← skip_semicolon;
  mret {| de_db_name := name.1; de_table_name := name.2; de_where := conditions |}.

Definition ParseShowTables : P ShowTablesStatement :=
  _ ← ExpectKeyword (str "SHOW");
  _ ← ExpectKeyword (str "TABLES");
  _ ← ExpectKeyword (str "FROM");
  name ← ExpectIdentifier;
  _ ← skip_semicolon;
  mret {| st_db_name := name |}.

Definition ParseShowDatabases : P unit :=
  _ ← ExpectKeyword (str "SHOW");
  _ ← ExpectKeyword (str "DATABASES");
  skip_semicolon.

(** Whether the token after the next one is the given keyword. *)
Definition second_is (keyword : bytes) : P bool := fun ts =>
  (Ret (match ts with
        | _ :: t :: _ => bool_decide (type t = kIdentifier) && bool_decide (ToUpper (text t) = keyword)
        | _ => false
        end), ts).

Definition ParseStatement : P Statement :=
  create ← CheckKeyword (str "CREATE");
  if create : bool then
    database ← second_is (str "DATABASE");
    if database : bool then s ← ParseCreateDatabase; mret (CreateDatabase s)
    else s ← ParseCreateTable; mret (CreateTable s)
  else
    alter ← CheckKeyword (str "ALTER");
    if alter : bool then s ← ParseAlterTable; mret (AlterTableAddColumn s) else
    insert ← CheckKeyword (str "INSERT");
    if insert : bool then s ← ParseInsert; mret (InsertInto s) else
    select ← CheckKeyword (str "SELECT");
    if select : bool then s ← ParseSelect; mret (Select s) else
    update ← CheckKeyword (str "UPDATE");
    if update : bool then s ← ParseUpdate; mret (Update s) else
    del ← CheckKeyword (str "DELETE");
    if del : bool then s ← ParseDelete; mret (DeleteFrom s) else
    show ← CheckKeyword (str "SHOW");
    if show : bool then
      databases ← second_is (str "DATABASES");
      if databases : bool then _ ← ParseShowDatabases; mret ShowDatabases
      else s ← ParseShowTables; mret (ShowTables s)
    else
      t ← Peek; p_throw (str "unrecognized statement starting with '" ++ text t ++ str "'").

(** [Parser parser(Tokenize(sql)); parser.ParseStatement()]. *)
Definition Parse (sql : bytes) : outcome Statement :=
  tokens ← Tokenize sql; (ParseStatement tokens).1.
