(* ===== verification/ParserSpec.v ===== *)
(** * What the SQL parser does

    It never reads past its tokens, every statement it returns is well-formed, and it reads
    back every well-formed statement printed as SQL text. *)

From Stdlib Require Import Lia.
From S2P Require Export Parser.

(** ** Well-formed statements *)

(** The tables a CREATE TABLE may declare: some column, exactly one primary key, and no defaults
    (only ALTER TABLE gives them). *)
Definition pk_count (cols : list ColumnDef) : nat := length (filter (fun c => primary_key c = true) cols).

Definition stmt_ok (s : Statement) : Prop :=
  match s with
  | CreateTable s => ct_columns s <> [] /\ pk_count (ct_columns s) = 1 /\
      Forall (fun c => default_value c = None) (ct_columns s)
  | InsertInto s => in_columns s <> [] /\ length (in_columns s) = length (in_values s)
  | Update s => up_assignments s <> []
  | AlterTableAddColumn s => primary_key (at_column s) = false /\ is_Some (default_value (at_column s))
  | _ => True
  end.

(** The names in a statement are identifiers. *)
Definition where_names (l : list Condition) : list bytes := map cond_column l.

Definition stmt_names (s : Statement) : list bytes :=
  match s with
  | CreateDatabase s => [cd_name s]
  | CreateTable s => [ct_db_name s; ct_table_name s] ++ map col_name (ct_columns s)
  | AlterTableAddColumn s => [at_db_name s; at_table_name s; col_name (at_column s)]
  | InsertInto s => [in_db_name s; in_table_name s] ++ in_columns s
  | Select s => [se_db_name s; se_table_name s] ++ se_columns s ++ where_names (se_where s)
  | Update s => [up_db_name s; up_table_name s] ++ (up_assignments s).*1 ++ where_names (up_where s)
  | DeleteFrom s => [de_db_name s; de_table_name s] ++ where_names (de_where s)
  | ShowTables s => [st_db_name s]
  | ShowDatabases => []
  end.

Definition names_ok (s : Statement) : Prop := Forall (fun n => is_identifier n = true) (stmt_names s).

(** ** Safety *)

(** An identifier, as the lexer makes them. *)
Definition ident (s : bytes) : Prop := is_identifier s = true.
Definition token_good (t : Token) : Prop := type t = kIdentifier -> ident (text t).

(** The tokens left end with the end marker, and are what the lexer makes. *)
Record ends (ts : list Token) : Prop := Ends {
  ends_marker : exists t, last ts = Some t /\ type t = kEnd;
  ends_good : Forall token_good ts;
}.

Lemma ends_cons t ts : ends (t :: ts) -> type t <> kEnd -> ends ts.
Proof.
  intros [(e & He & Ht) Hg] Hne. apply Forall_cons_1 in Hg as [_ Hg]. split; [|done].
  destruct ts as [|t' ts]; [cbn in He; congruence|]. by exists e.
Qed.

Lemma ends_head t ts : ends (t :: ts) -> token_good t.
Proof. intros [_ Hg]. by apply Forall_cons_1 in Hg as [? _]. Qed.

(** From tokens that end with the marker, [m] returns with some that do, at least [k] fewer, and
    a result that satisfies [Q], or throws. *)
Definition parses {A} (k : nat) (Q : A -> Prop) (m : P A) : Prop := forall ts, ends ts ->
  st_wp m (fun a ts' => ends ts' /\ (length ts' + k <= length ts)%nat /\ Q a) (fun _ _ => True) ts.

Lemma parses_ret {A} (Q : A -> Prop) a : Q a -> parses 0 Q (mret a).
Proof. intros HQ ts He. cbn. split_and!; [done|lia|done]. Qed.

Lemma parses_throw {A} k (Q : A -> Prop) msg : parses k Q (p_throw msg).
Proof. by intros ts He. Qed.

Lemma parses_bind {A B} k1 k2 (Q1 : A -> Prop) (Q2 : B -> Prop) m f :
  parses k1 Q1 m -> (forall a, Q1 a -> parses k2 Q2 (f a)) -> parses (k1 + k2) Q2 (m ≫= f).
Proof.
  intros Hm Hf ts He. apply st_wp_bind. eapply st_wp_mono; [| |apply Hm, He]; [|done].
  intros a ts' (He' & Hl & HQ). eapply st_wp_mono; [| |apply Hf; [exact HQ|exact He']]; [|done].
  intros b ts'' (He'' & Hl' & HQ'). split_and!; [done|lia|done].
Qed.

Lemma parses_weaken {A} k k' (Q Q' : A -> Prop) m :
  parses k Q m -> (k' <= k)%nat -> (forall a, Q a -> Q' a) -> parses k' Q' m.
Proof.
  intros Hm Hk HQ ts He. eapply st_wp_mono; [| |apply Hm, He]; [|done].
  intros a ts' (He' & Hl & HQ'). split_and!; [done|lia|auto].
Qed.

(** The tests of the next token: they answer, and say yes only when it is not the marker. *)
Definition is_check (check : P bool) : Prop := forall t ts, exists b,
  check (t :: ts) = (Ret b, t :: ts) /\ (b = true -> type t <> kEnd).

Lemma CheckKeyword_check k : is_check (CheckKeyword k).
Proof.
  intros t ts. eexists. split; [reflexivity|]. intros [Ht _]%andb_true_iff. apply bool_decide_eq_true in Ht. by rewrite Ht.
Qed.

Lemma CheckSymbol_check k : is_check (CheckSymbol k).
Proof.
  intros t ts. eexists. split; [reflexivity|]. intros [Ht _]%andb_true_iff. apply bool_decide_eq_true in Ht. by rewrite Ht.
Qed.

Lemma ends_nonempty ts : ends ts -> exists t ts', ts = t :: ts'.
Proof. intros [(e & He & _) _]. destruct ts as [|t ts]; [done|eauto]. Qed.

(** A test followed by a step. *)
Lemma parses_check {A} k (Q : A -> Prop) check m1 m2 :
  is_check check -> parses (k - 1) Q m1 -> parses k Q m2 ->
  parses k Q (b ← check; if b : bool then _ ← Advance; m1 else m2).
Proof.
  intros Hc H1 H2 ts He. destruct (ends_nonempty ts He) as (t & ts' & ->).
  destruct (Hc t ts') as (b & Eb & Hb). unfold st_wp, mbind, ST_bind. rewrite Eb. destruct b.
  - cbn [Advance]. specialize (H1 ts' (ends_cons _ _ He (Hb eq_refl))). unfold st_wp in H1.
    destruct (m1 ts') as [[a|e|] ts'']; [|done..]. destruct H1 as (He' & Hl & HQ). cbn. split_and!; [done|lia|done].
  - exact (H2 _ He).
Qed.

(** A test alone. *)
Lemma parses_test {A} k (Q : A -> Prop) check (f : bool -> P A) :
  is_check check -> (forall b, parses k Q (f b)) -> parses k Q (check ≫= f).
Proof.
  intros Hc Hf ts He. destruct (ends_nonempty ts He) as (t & ts' & ->).
  destruct (Hc t ts') as (b & Eb & _). unfold st_wp, mbind, ST_bind. rewrite Eb. exact (Hf b _ He).
Qed.

Create HintDb parses.
#[export] Hint Resolve CheckKeyword_check CheckSymbol_check parses_throw : parses.

Lemma expect_parses {A} (Pr : Token -> Prop) `{!forall t, Decision (Pr t)} (Q : A -> Prop) (f : Token -> A)
    (msg : Token -> bytes) :
  (forall t, Pr t -> type t <> kEnd) -> (forall t, Pr t -> token_good t -> Q (f t)) ->
  parses 1 Q (t ← Peek; if decide (Pr t) then t ← Advance; mret (f t) else p_throw (msg t)).
Proof.
  intros Hp HQ ts He. destruct (ends_nonempty ts He) as (t & ts' & ->). unfold st_wp, mbind, ST_bind. cbn.
  destruct (decide (Pr t)) as [Ht|Ht]; [|done]. cbn. split_and!; [|lia|].
  - by eapply ends_cons; [|apply Hp].
  - apply HQ; [done|by eapply ends_head].
Qed.

Lemma ExpectIdentifier_parses : parses 1 ident ExpectIdentifier.
Proof. apply (expect_parses (fun t => type t = kIdentifier)); [by intros t ->|]. intros t Ht Hg. by apply Hg. Qed.

Lemma ExpectLiteral_parses : parses 1 (fun _ => True) ExpectLiteral.
Proof. apply (expect_parses (fun t => type t = kString \/ type t = kNumber)); [by intros t [-> | ->]|done]. Qed.

Lemma peek_throw_parses {A} k (Q : A -> Prop) (msg : Token -> bytes) : parses k Q (t ← Peek; p_throw (msg t)).
Proof. intros ts He. destruct (ends_nonempty ts He) as (t & ts' & ->). done. Qed.

Lemma ExpectKeyword_parses k : parses 1 (fun _ => True) (ExpectKeyword k).
Proof.
  apply parses_check; [auto with parses| |apply peek_throw_parses]. apply (parses_ret (fun _ => True)). done.
Qed.

Lemma ExpectSymbol_parses k : parses 1 (fun _ => True) (ExpectSymbol k).
Proof.
  apply parses_check; [auto with parses| |apply peek_throw_parses]. apply (parses_ret (fun _ => True)). done.
Qed.

Lemma skip_if_parses check : is_check check -> parses 0 (fun _ => True) (skip_if check).
Proof. intros Hc. by apply parses_check; [done|apply parses_ret..]. Qed.

Lemma ExpectQualified_parses : parses 1 (fun p => ident p.1 /\ ident p.2) ExpectQualifiedTableName.
Proof.
  apply (parses_bind 1 0 ident); [apply ExpectIdentifier_parses|]. intros db Hdb.
  apply parses_check; [auto with parses| |apply parses_throw].
  eapply (parses_weaken (1 + 0) 0 (fun p => ident p.1 /\ ident p.2)); [|lia|done].
  apply (parses_bind 1 0 ident); [apply ExpectIdentifier_parses|]. intros t Ht. by apply parses_ret.
Qed.
#[export] Hint Resolve ExpectIdentifier_parses ExpectLiteral_parses ExpectKeyword_parses ExpectSymbol_parses
  ExpectQualified_parses skip_if_parses : parses.

(** The first statement of a sequence reads [k] tokens; the rest may read none. *)
Lemma parses_first {A B} k (Q1 : A -> Prop) (Q2 : B -> Prop) m f :
  parses k Q1 m -> (forall a, Q1 a -> parses 0 Q2 (f a)) -> parses k Q2 (m ≫= f).
Proof. intros Hm Hf. rewrite <- (Nat.add_0_r k). by eapply parses_bind. Qed.

Lemma parses_next {A B} k (Q1 : A -> Prop) (Q2 : B -> Prop) m f :
  parses k Q1 m -> (forall a, Q1 a -> parses 0 Q2 (f a)) -> parses 0 Q2 (m ≫= f).
Proof. intros Hm Hf. eapply parses_weaken; [by eapply parses_first|lia|done]. Qed.

(** Goes through the statements of a parsing function. *)
Ltac parses_steps :=
  repeat first
    [ progress cbv zeta
    | apply parses_throw
    | apply peek_throw_parses
    | apply parses_ret; done
    | case_decide
    | eapply parses_next; [solve [eauto with parses]|intros ? ?]
    | apply parses_check; [solve [eauto with parses]| |] ].

Lemma ParseColumnType_parses : parses 1 (fun _ => True) ParseColumnType.
Proof. eapply parses_first; [eauto with parses|]. intros name Hname. parses_steps. Qed.

Lemma st_wp_Peek {A} t ts (f : Token -> P A) Q E :
  st_wp (f t) Q E (t :: ts) -> st_wp (Peek ≫= f) Q E (t :: ts).
Proof. exact id. Qed.

(** Reading a token that is not the marker. *)
Lemma Advance_parses {A} (Q : A -> Prop) t ts f :
  ends (t :: ts) -> type t <> kEnd -> parses 0 Q (f t) ->
  st_wp (Advance ≫= f) (fun a ts' => ends ts' /\ (length ts' + 1 <= length (t :: ts))%nat /\ Q a)
    (fun _ _ => True) (t :: ts).
Proof.
  intros He Ht Hf. unfold st_wp at 1, mbind, ST_bind. cbn [Advance].
  eapply st_wp_mono; [| |apply Hf; by eapply ends_cons]; [|done].
  intros a ts' (He' & Hl & HQ). split_and!; [done|cbn; lia|done].
Qed.

Lemma ParseCompareOp_parses : parses 1 (fun _ => True) ParseCompareOp.
Proof.
  intros ts He. destruct (ends_nonempty ts He) as (t & ts' & ->). unfold ParseCompareOp.
  apply st_wp_Peek. destruct (decide (type t <> kSymbol)) as [Ht|Ht]; [exact I|]. apply dec_stable in Ht.
  apply (Advance_parses (fun _ => True)); [done|by rewrite Ht|]. cbv zeta. parses_steps.
Qed.
#[export] Hint Resolve ParseColumnType_parses ParseCompareOp_parses : parses.

Lemma ParseCondition_parses : parses 1 (fun c => ident (cond_column c)) ParseCondition.
Proof. eapply parses_first; [eauto with parses|]. intros column Hcolumn. parses_steps. Qed.

Lemma ParseAssignment_parses : parses 1 (fun a => ident a.1) ParseAssignment.
Proof. eapply parses_first; [eauto with parses|]. intros column Hcolumn. parses_steps. Qed.

(** A loop whose body reads a token has enough fuel, and returns at least one item. *)
Lemma loop_parses {A} (Q : A -> Prop) (item : P A) more fuel ts :
  parses 1 Q item -> is_check more -> ends ts -> (length ts <= fuel)%nat ->
  st_wp (loop fuel item more)
    (fun xs ts' => ends ts' /\ (length ts' + 1 <= length ts)%nat /\ xs <> [] /\ Forall Q xs) (fun _ _ => True) ts.
Proof.
  intros Hi Hc. revert ts. induction fuel as [|fuel IH]; intros ts He Hf.
  { destruct (ends_nonempty ts He) as (t & ts' & ->). cbn in Hf. lia. }
  cbn [loop]. apply st_wp_bind. eapply st_wp_mono; [| |apply Hi, He]; [|done].
  intros x ts1 (He1 & Hl1 & HQ). destruct (ends_nonempty ts1 He1) as (t & ts2 & ->).
  destruct (Hc t ts2) as (b & Eb & Hb). apply st_wp_bind. unfold st_wp at 1. rewrite Eb. destruct b.
  - apply st_wp_bind. unfold st_wp at 1. cbn [Advance]. pose proof (ends_cons _ _ He1 (Hb eq_refl)) as He2.
    cbn in Hl1. apply st_wp_bind. eapply st_wp_mono; [| |apply (IH ts2 He2)]; [|done|lia].
    intros xs ts3 (He3 & Hl3 & _ & HQs). cbn. split_and!; [done|lia|done|by constructor].
  - cbn. cbn in Hl1. split_and!; [done|lia|done|by repeat constructor].
Qed.

Lemma separated_parses {A} (Q : A -> Prop) (item : P A) more :
  parses 1 Q item -> is_check more -> parses 1 (fun xs => xs <> [] /\ Forall Q xs) (separated item more).
Proof. intros Hi Hc ts He. by apply loop_parses. Qed.

Lemma comma_list_parses {A} (Q : A -> Prop) (item : P A) :
  parses 1 Q item -> parses 1 (fun xs => xs <> [] /\ Forall Q xs) (comma_list item).
Proof. intros Hi. apply separated_parses; [done|apply CheckSymbol_check]. Qed.
#[export] Hint Resolve ParseCondition_parses ParseAssignment_parses separated_parses comma_list_parses : parses.

Lemma ParseOptionalWhere_parses : parses 0 (fun l => Forall ident (where_names l)) ParseOptionalWhere.
Proof.
  apply parses_check; [eauto with parses| |by apply parses_ret; constructor].
  eapply parses_weaken; [apply separated_parses; eauto with parses|lia|].
  intros l [_ Hl]. by apply Forall_fmap.
Qed.
#[export] Hint Resolve ParseOptionalWhere_parses : parses.

Definition column_ok (c : ColumnDef) : Prop := default_value c = None /\ ident (col_name c).

Lemma ParseColumn_parses has_pk :
  parses 1 (fun c => column_ok c /\ (has_pk = true -> primary_key c = false)) (ParseColumn has_pk).
Proof.
  eapply parses_first; [eauto with parses|]. intros name Hname.
  eapply parses_next; [eauto with parses|]. intros ty _.
  apply parses_check; [eauto with parses| |by apply parses_ret].
  eapply parses_next; [eauto with parses|]. intros _ _. destruct has_pk; [apply parses_throw|by apply parses_ret].
Qed.

(** The flag of the loop is whether a primary key was declared; there is at most one. *)
Definition columns_ok (has_pk : bool) (r : list ColumnDef * bool) : Prop :=
  r.1 <> [] /\ Forall column_ok r.1 /\
  (if has_pk then 1 else 0) + pk_count r.1 = if r.2 then 1 else 0.

Lemma pk_count_cons c l : pk_count (c :: l) = (if primary_key c then 1 else 0) + pk_count l.
Proof.
  unfold pk_count. destruct (primary_key c) eqn:E; [by rewrite filter_cons_True|].
  by rewrite filter_cons_False by (rewrite E; done).
Qed.

Lemma ParseColumns_parses fuel has_pk ts :
  ends ts -> (length ts <= fuel)%nat ->
  st_wp (ParseColumns fuel has_pk)
    (fun r ts' => ends ts' /\ (length ts' + 1 <= length ts)%nat /\ columns_ok has_pk r) (fun _ _ => True) ts.
Proof.
  revert has_pk ts. induction fuel as [|fuel IH]; intros has_pk ts He Hf.
  { destruct (ends_nonempty ts He) as (t & ts' & ->). cbn in Hf. lia. }
  cbn [ParseColumns]. apply st_wp_bind. eapply st_wp_mono; [| |apply (ParseColumn_parses has_pk), He]; [|done].
  intros c ts1 (He1 & Hl1 & Hd & Hpk). destruct (ends_nonempty ts1 He1) as (t & ts2 & ->).
  destruct (CheckSymbol_check (str ",") t ts2) as (b & Eb & Hb). cbv zeta. apply st_wp_bind. unfold st_wp at 1. rewrite Eb.
  assert (Hsum : forall n, ((if has_pk then 1 else 0) + ((if primary_key c then 1 else 0) + n) =
                 (if has_pk || primary_key c then 1 else 0) + n)%nat).
  { intros n. destruct has_pk; [by rewrite Hpk|done]. }
  destruct b.
  - apply st_wp_bind. unfold st_wp at 1. cbn [Advance]. pose proof (ends_cons _ _ He1 (Hb eq_refl)) as He2.
    cbn in Hl1. apply st_wp_bind. eapply st_wp_mono; [| |apply (IH (has_pk || primary_key c) ts2 He2)]; [|done|lia].
    intros r ts3 (He3 & Hl3 & _ & Hr2 & Hr3). cbn. unfold columns_ok. split_and!; [done|lia|done|by constructor|].
    cbn [fst snd]. rewrite pk_count_cons, Hsum. exact Hr3.
  - cbn. cbn in Hl1. unfold columns_ok. split_and!; [done|lia|done|by apply Forall_singleton|].
    cbn [fst snd]. rewrite pk_count_cons. cbn [pk_count filter list_filter length]. rewrite Hsum. apply Nat.add_0_r.
Qed.

Lemma columns_parses : parses 1 (columns_ok false) (fun ts => ParseColumns (length ts) false ts).
Proof. intros ts He. by apply ParseColumns_parses. Qed.
#[export] Hint Resolve columns_parses : parses.

Lemma second_is_parses k {A} (Q : A -> Prop) keyword (f : bool -> P A) :
  (forall b, parses k Q (f b)) -> parses k Q (second_is keyword ≫= f).
Proof. intros Hf ts He. unfold st_wp, mbind, ST_bind, second_is. exact (Hf _ ts He). Qed.

(** [if (CheckSymbol("*")) Advance(); else ..] before the rest of SELECT. *)
Lemma parses_select_columns {A} (Q : A -> Prop) (f : list bytes -> P A) :
  (forall columns, Forall ident columns -> parses 0 Q (f columns)) ->
  parses 0 Q (b ← CheckSymbol (str "*");
              columns ← (if b : bool then _ ← Advance; mret [] else comma_list ExpectIdentifier); f columns).
Proof.
  intros Hf ts He.
  assert (Hc : parses 0 (Forall ident) (b ← CheckSymbol (str "*");
    if b : bool then _ ← Advance; mret [] else comma_list ExpectIdentifier)).
  { apply parses_check; [auto with parses|by apply parses_ret; constructor|].
    eapply parses_weaken; [apply comma_list_parses; eauto with parses|lia|naive_solver]. }
  unfold st_wp. rewrite <- run_assoc. by apply (parses_next 0 _ _ _ _ Hc Hf ts He).
Qed.

(** What the parser guarantees of a statement. *)
Definition stmt_good (s : Statement) : Prop := stmt_ok s /\ names_ok s.

Lemma parses_statement {A} (m : P A) (k : A -> Statement) :
  parses 0 (fun s => stmt_good (k s)) m -> parses 0 stmt_good (s ← m; mret (k s)).
Proof. intros Hm. eapply parses_next; [exact Hm|]. intros s Hs. by apply parses_ret. Qed.

Ltac names_good :=
  cbv beta in *; unfold stmt_good, stmt_ok, names_ok, stmt_names, where_names, ident in *; cbn;
  repeat first [rewrite Forall_cons | rewrite Forall_app | rewrite Forall_nil];
  destruct_and?; split_and?; done.

Lemma ParseCreateTable_parses : parses 0 (fun s => stmt_good (CreateTable s)) ParseCreateTable.
Proof.
  unfold ParseCreateTable, skip_semicolon. do 2 (eapply parses_next; [eauto with parses|]; intros _ _).
  eapply parses_next; [eauto with parses|]. intros name Hname.
  eapply parses_next; [eauto with parses|]. intros _ _.
  eapply parses_next; [eauto with parses|]. intros r (H1 & H2 & H3).
  eapply parses_next; [eauto with parses|]. intros _ _. destruct (r.2); [|apply parses_throw].
  eapply parses_next; [eauto with parses|]. intros _ _. apply parses_ret. split.
  - split_and!; [done|done|]. eapply Forall_impl; [exact H2|]. by intros c [? _].
  - unfold names_ok. cbn. destruct Hname. do 2 (constructor; [done|]). apply Forall_fmap.
    eapply Forall_impl; [exact H2|]. by intros c [_ ?].
Qed.

Lemma ParseStatement_parses : parses 0 stmt_good ParseStatement.
Proof.
  unfold ParseStatement.
  apply parses_test; [eauto with parses|]. intros [].
  { apply second_is_parses. intros []; apply parses_statement; [|apply ParseCreateTable_parses].
    unfold ParseCreateDatabase, skip_semicolon. parses_steps. apply parses_ret. names_good. }
  apply parses_test; [eauto with parses|]. intros [].
  { apply parses_statement. unfold ParseAlterTable, skip_semicolon. parses_steps. apply parses_ret. names_good. }
  apply parses_test; [eauto with parses|]. intros [].
  { apply parses_statement. unfold ParseInsert, skip_semicolon. parses_steps. apply parses_ret.
    names_good. }
  apply parses_test; [eauto with parses|]. intros [].
  { apply parses_statement. unfold ParseSelect, skip_semicolon.
    eapply parses_next; [eauto with parses|]. intros _ _. apply parses_select_columns. intros columns Hcolumns.
    parses_steps. apply parses_ret. names_good. }
  apply parses_test; [eauto with parses|]. intros [].
  { apply parses_statement. unfold ParseUpdate, skip_semicolon. parses_steps. apply parses_ret.
    cbv beta in *. destruct_and!.
    match goal with Hl : Forall (fun _ => ident (fst _)) ?l |- _ => apply (proj2 (Forall_fmap fst ident l)) in Hl end.
    names_good. }
  apply parses_test; [eauto with parses|]. intros [].
  { apply parses_statement. unfold ParseDelete, skip_semicolon. parses_steps. apply parses_ret. names_good. }
  apply parses_test; [eauto with parses|]. intros [].
  { apply second_is_parses. intros []; apply parses_statement.
    - unfold ParseShowDatabases, skip_semicolon. parses_steps; apply parses_ret; names_good.
    - unfold ParseShowTables, skip_semicolon. parses_steps. apply parses_ret. names_good. }
  apply peek_throw_parses.
Qed.

Lemma take_while_all {A} (f : A -> bool) l : forallb f (take_while f l) = true.
Proof. induction l as [|x l IH]; cbn; [done|]. destruct (f x) eqn:E; cbn; [by rewrite E|done]. Qed.

Lemma lex_token_good s ty txt rest : lex_token s = Ret (ty, txt, rest) -> ty = kIdentifier -> ident txt.
Proof.
  destruct s as [|c s]; [done|]. unfold lex_token. destruct (IsIdentStart c) eqn:Ei.
  { intros [= <- <- <-] _. unfold ident, is_identifier. cbn [take_while]. rewrite (IsIdentStart_char c Ei), Ei.
    apply take_while_all. }
  destruct (isdigit c); [by intros [= <- _ _]|]. destruct (_ && starts_digit s); [by intros [= <- _ _]|].
  destruct (Ascii.eqb c quote).
  { destruct (lex_string s []) as [[v r]|e|]; [|done..]. by intros [= <- _ _]. }
  repeat case_match; intros E; simplify_eq; done.
Qed.

Lemma lex_ends fuel i s toks : lex fuel i s = Ret toks -> ends toks.
Proof.
  revert i s toks. induction fuel as [|fuel IH]; intros i s toks; [done|]. cbn [lex]. destruct s as [|c s].
  - intros [= <-]. split; [by eexists|by repeat constructor].
  - destruct (isspace c); [apply IH|]. destruct (lex_token (c :: s)) as [[[ty txt] rest]|e|] eqn:Et; [|done..].
    cbn [mbind outcome_bind]. destruct (lex fuel _ rest) as [toks'|e|] eqn:E; [|done..]. cbn. intros [= <-].
    apply IH in E as [(t & Ht & He) Hg]. split.
    + exists t. split; [|done]. destruct toks' as [|t' toks']; [done|exact Ht].
    + constructor; [|done]. intros Hty. by eapply lex_token_good.
Qed.

(** ** Printing statements *)

Definition kw (s : bytes) : TokenType * bytes := (kIdentifier, s).
Definition sym (s : bytes) : TokenType * bytes := (kSymbol, s).
Definition lit (s : bytes) : TokenType * bytes := (kString, s).

Definition type_word (ty : ColumnType) : bytes := match ty with kText => str "TEXT" | kInt => str "INT" end.

Definition op_text (op : CompareOp) : bytes :=
  match op with
  | kEq => str "=" | kNe => str "!=" | kLt => str "<" | kLe => str "<=" | kGt => str ">" | kGe => str ">="
  end.

(** [l] printed by [f], with [sep] in between. *)
Fixpoint sep_by {A} (sep : TokenType * bytes) (f : A -> list (TokenType * bytes)) (l : list A) : list (TokenType * bytes) :=
  match l with
  | [] => []
  | x :: l' => f x ++ match l' with [] => [] | _ => sep :: sep_by sep f l' end
  end.

Definition table_tokens (db table : bytes) : list (TokenType * bytes) := [kw db; sym (str "."); kw table].

Definition condition_tokens (c : Condition) : list (TokenType * bytes) :=
  [kw (cond_column c); sym (op_text (cond_op c)); lit (cond_literal c)].

Definition where_tokens (l : list Condition) : list (TokenType * bytes) :=
  match l with [] => [] | _ => kw (str "WHERE") :: sep_by (kw (str "AND")) condition_tokens l end.

Definition column_tokens (c : ColumnDef) : list (TokenType * bytes) :=
  [kw (col_name c); kw (type_word (col_type c))] ++
  if primary_key c then [kw (str "PRIMARY"); kw (str "KEY")] else [].

Definition assignment_tokens (a : bytes * bytes) : list (TokenType * bytes) := [kw a.1; sym (str "="); lit a.2].

Definition comma_tokens {A} := @sep_by A (sym (str ",")).

Definition select_tokens (columns : list bytes) : list (TokenType * bytes) :=
  match columns with [] => [sym (str "*")] | l => comma_tokens (fun c => [kw c]) l end.

Definition stmt_tokens (s : Statement) : list (TokenType * bytes) :=
  match s with
  | CreateDatabase s => [kw (str "CREATE"); kw (str "DATABASE"); kw (cd_name s)]
  | CreateTable s =>
    [kw (str "CREATE"); kw (str "TABLE")] ++ table_tokens (ct_db_name s) (ct_table_name s) ++
    [sym (str "(")] ++ comma_tokens column_tokens (ct_columns s) ++ [sym (str ")")]
  | AlterTableAddColumn s =>
    [kw (str "ALTER"); kw (str "TABLE")] ++ table_tokens (at_db_name s) (at_table_name s) ++
    [kw (str "ADD"); kw (str "COLUMN"); kw (col_name (at_column s)); kw (type_word (col_type (at_column s)));
     kw (str "DEFAULT"); lit (default [] (default_value (at_column s)))]
  | InsertInto s =>
    [kw (str "INSERT"); kw (str "INTO")] ++ table_tokens (in_db_name s) (in_table_name s) ++
    [sym (str "(")] ++ comma_tokens (fun c => [kw c]) (in_columns s) ++ [sym (str ")"); kw (str "VALUES"); sym (str "(")] ++
    comma_tokens (fun v => [lit v]) (in_values s) ++ [sym (str ")")]
  | Select s =>
    [kw (str "SELECT")] ++
    select_tokens (se_columns s) ++
    [kw (str "FROM")] ++ table_tokens (se_db_name s) (se_table_name s) ++ where_tokens (se_where s)
  | Update s =>
    [kw (str "UPDATE")] ++ table_tokens (up_db_name s) (up_table_name s) ++ [kw (str "SET")] ++
    comma_tokens assignment_tokens (up_assignments s) ++ where_tokens (up_where s)
  | DeleteFrom s =>
    [kw (str "DELETE"); kw (str "FROM")] ++ table_tokens (de_db_name s) (de_table_name s) ++ where_tokens (de_where s)
  | ShowTables s => [kw (str "SHOW"); kw (str "TABLES"); kw (str "FROM"); kw (st_db_name s)]
  | ShowDatabases => [kw (str "SHOW"); kw (str "DATABASES")]
  end.

(** The SQL text of a statement. *)
Definition show_statement (s : Statement) : bytes := show_tokens (stmt_tokens s).

(** ** Reading back *)

Definition view (t : Token) : TokenType * bytes := (type t, text t).

(** [m] reads the tokens [l] and returns [a] when what follows satisfies [F]. *)
Definition eats {A} (F : TokenType * bytes -> bool) (m : P A) (l : list (TokenType * bytes)) (a : A) : Prop :=
  forall ts t rest, map view ts = l -> F (view t) = true -> m (ts ++ t :: rest) = (Ret a, t :: rest).

Definition any (t : TokenType * bytes) : bool := true.
Definition not_kw (k : bytes) (t : TokenType * bytes) : bool :=
  negb (bool_decide (t.1 = kIdentifier) && bool_decide (ToUpper t.2 = k)).
Definition not_sym (s : bytes) (t : TokenType * bytes) : bool :=
  negb (bool_decide (t.1 = kSymbol) && bool_decide (t.2 = s)).

Lemma eats_bind {A B} F1 F2 (m : P A) (k : A -> P B) l1 l2 a b :
  eats F1 m l1 a -> eats F2 (k a) l2 b ->
  match l2 with [] => forall t, F2 t = true -> F1 t = true | t :: _ => F1 t = true end ->
  eats F2 (m ≫= k) (l1 ++ l2) b.
Proof.
  intros H1 H2 HF ts t rest Hv Ht. apply map_eq_app in Hv as (ts1 & ts2 & -> & Hv1 & Hv2). rewrite <- app_assoc.
  assert (Hh : exists t' rest', ts2 ++ t :: rest = t' :: rest' /\ F1 (view t') = true).
  { destruct ts2 as [|t2 ts2]; cbn in Hv2; subst l2; [exists t, rest|exists t2, (ts2 ++ t :: rest)]; auto. }
  destruct Hh as (t' & rest' & Eh & Hh). rewrite Eh, (run_bind _ _ _ _ _ (H1 ts1 t' rest' Hv1 Hh)), <- Eh. by apply H2.
Qed.

Lemma eats_ret {A} F (a : A) : eats F (mret a) [] a.
Proof. intros ts t rest Hv _. by destruct ts. Qed.

Lemma eats_keyword F k s : ToUpper s = k -> eats F (ExpectKeyword k) [kw s] tt.
Proof.
  intros Hk ts t rest Hv _. destruct ts as [|[ty tx o] [|]]; [done| |done]. cbn in Hv. injection Hv as -> ->.
  unfold ExpectKeyword, CheckKeyword, mbind, ST_bind. cbn. by rewrite !bool_decide_eq_true_2 by done.
Qed.

Lemma eats_symbol F s : eats F (ExpectSymbol s) [sym s] tt.
Proof.
  intros ts t rest Hv _. destruct ts as [|[ty tx o] [|]]; [done| |done]. cbn in Hv. injection Hv as -> ->.
  unfold ExpectSymbol, CheckSymbol, mbind, ST_bind. cbn. by rewrite !bool_decide_eq_true_2 by done.
Qed.

Lemma eats_identifier F s : eats F ExpectIdentifier [kw s] s.
Proof.
  intros ts t rest Hv _. destruct ts as [|[ty tx o] [|]]; [done| |done]. cbn in Hv. by injection Hv as -> ->.
Qed.

Lemma eats_literal F s : eats F ExpectLiteral [lit s] s.
Proof.
  intros ts t rest Hv _. destruct ts as [|[ty tx o] [|]]; [done| |done]. cbn in Hv. by injection Hv as -> ->.
Qed.

(** A test that says no. *)
Lemma eats_no_keyword F k : (forall t, F t = true -> not_kw k t = true) -> eats F (CheckKeyword k) [] false.
Proof.
  intros HF ts [ty tx o] rest Hv Ht. destruct ts; [|done]. apply HF, negb_true_iff in Ht. unfold view in Ht. cbn in Ht.
  cbn. unfold CheckKeyword, mbind, ST_bind. cbn. by rewrite Ht.
Qed.

Lemma eats_no_symbol F s : (forall t, F t = true -> not_sym s t = true) -> eats F (CheckSymbol s) [] false.
Proof.
  intros HF ts [ty tx o] rest Hv Ht. destruct ts; [|done]. apply HF, negb_true_iff in Ht. unfold view in Ht. cbn in Ht.
  cbn. unfold CheckSymbol, mbind, ST_bind. cbn. by rewrite Ht.
Qed.

(** A test that says yes, and the step over the token. *)
Lemma eats_yes_keyword {A} F k s (m1 m2 : P A) l a : ToUpper s = k -> eats F m1 l a ->
  eats F (b ← CheckKeyword k; if b : bool then _ ← Advance; m1 else m2) (kw s :: l) a.
Proof.
  intros Hk H1 ts t rest Hv Ht. destruct ts as [|[ty tx o] ts]; [done|]. cbn in Hv. injection Hv as -> -> Hv.
  cbn [app]. unfold CheckKeyword, mbind, ST_bind. cbn. rewrite !bool_decide_eq_true_2 by done. cbn. by apply H1.
Qed.

Lemma eats_yes_symbol {A} F s (m1 m2 : P A) l a : eats F m1 l a ->
  eats F (b ← CheckSymbol s; if b : bool then _ ← Advance; m1 else m2) (sym s :: l) a.
Proof.
  intros H1 ts t rest Hv Ht. destruct ts as [|[ty tx o] ts]; [done|]. cbn in Hv. injection Hv as -> -> Hv.
  cbn [app]. unfold CheckSymbol, mbind, ST_bind. cbn. rewrite !bool_decide_eq_true_2 by done. cbn. by apply H1.
Qed.

Section loops.
Context {A : Type} (item : P A) (more : P bool) (sep : TokenType * bytes) (f : A -> list (TokenType * bytes))
  (Fi F : TokenType * bytes -> bool).
Hypothesis more_yes : forall (m1 m2 : P (list A)) l a, eats F m1 l a ->
  eats F (b ← more; if b : bool then _ ← Advance; m1 else m2) (sep :: l) a.
Hypothesis more_no : eats F more [] false.
Hypothesis item_sep : Fi sep = true.
Hypothesis item_end : forall t, F t = true -> Fi t = true.

Lemma eats_loop fuel xs :
  xs <> [] -> (length xs <= fuel)%nat -> (forall x, x ∈ xs -> eats Fi item (f x) x) ->
  eats F (loop fuel item more) (sep_by sep f xs) xs.
Proof.
  revert xs. induction fuel as [|fuel IH]; intros [|x xs] Hne Hf Hi; [done|cbn in Hf; lia|done|].
  cbn [loop sep_by]. destruct xs as [|y xs].
  - eapply eats_bind; [apply Hi; left| |exact item_end].
    rewrite <- (app_nil_r (@nil (TokenType * bytes))). eapply eats_bind; [exact more_no|apply eats_ret|done].
  - eapply eats_bind; [apply Hi; left| |exact item_sep].
    apply more_yes. rewrite <- (app_nil_r (sep_by sep f (y :: xs))).
    eapply eats_bind; [apply IH; [done|cbn in Hf |- *; lia|intros z Hz; apply Hi; by right]|apply eats_ret|done].
Qed.

Lemma length_sep_by xs : (forall x, f x <> []) -> (length xs <= length (sep_by sep f xs))%nat.
Proof.
  intros Hne. induction xs as [|x xs IH]; [done|]. cbn [sep_by]. rewrite length_app.
  specialize (Hne x). destruct (f x) as [|z l]; [done|]. destruct xs; cbn in *; lia.
Qed.

Lemma eats_separated xs :
  xs <> [] -> (forall x, f x <> []) -> (forall x, x ∈ xs -> eats Fi item (f x) x) ->
  eats F (separated item more) (sep_by sep f xs) xs.
Proof.
  intros Hne Hf Hi ts t rest Hv Ht. unfold separated. apply eats_loop; [done| |done|done|done].
  pose proof (length_sep_by xs Hf) as Hl. rewrite <- Hv, length_map in Hl. rewrite length_app. lia.
Qed.
End loops.

Lemma eats_comma_list {A} (item : P A) f xs :
  xs <> [] -> (forall x, f x <> []) -> (forall x, eats any item (f x) x) ->
  eats (not_sym (str ",")) (comma_list item) (comma_tokens f xs) xs.
Proof.
  intros Hne Hf Hi. apply (eats_separated _ _ _ _ any); try done.
  - intros m1 m2 l a H1. by apply eats_yes_symbol.
  - by apply eats_no_symbol.
Qed.

Lemma type_word_spec ty : eats any ParseColumnType [kw (type_word ty)] ty.
Proof.
  intros ts t rest Hv Ht. unfold ParseColumnType. rewrite (run_bind _ _ _ _ _ (eats_identifier any _ ts t rest Hv Ht)).
  by destruct ty.
Qed.

Lemma op_text_spec op : eats any ParseCompareOp [sym (op_text op)] op.
Proof.
  intros ts t rest Hv _. destruct ts as [|[ty tx o] [|]]; [done| |done]. cbn in Hv. injection Hv as -> ->. by destruct op.
Qed.

Lemma eats_condition c : eats any ParseCondition (condition_tokens c) c.
Proof.
  unfold ParseCondition, condition_tokens.
  eapply (eats_bind any any _ _ [_]); [apply eats_identifier| |done].
  eapply (eats_bind any any _ _ [_]); [apply op_text_spec| |done].
  eapply (eats_bind any any _ _ [_] []); [apply eats_literal| |done]. destruct c. apply eats_ret.
Qed.

Lemma eats_assignment a : eats any ParseAssignment (assignment_tokens a) a.
Proof.
  unfold ParseAssignment, assignment_tokens.
  eapply (eats_bind any any _ _ [_]); [apply eats_identifier| |done].
  eapply (eats_bind any any _ _ [_]); [apply eats_symbol| |done].
  eapply (eats_bind any any _ _ [_] []); [apply eats_literal| |done]. destruct a. apply eats_ret.
Qed.

Lemma eats_table db table : eats any ExpectQualifiedTableName (table_tokens db table) (db, table).
Proof.
  unfold ExpectQualifiedTableName, table_tokens.
  eapply (eats_bind any any _ _ [_]); [apply eats_identifier| |done]. apply eats_yes_symbol.
  eapply (eats_bind any any _ _ [_] []); [apply eats_identifier|apply eats_ret|done].
Qed.

(** What may follow a WHERE clause. *)
Definition after_where (t : TokenType * bytes) : bool := not_kw (str "WHERE") t && not_kw (str "AND") t.

Lemma eats_where l : eats after_where ParseOptionalWhere (where_tokens l) l.
Proof.
  unfold ParseOptionalWhere, where_tokens. destruct l as [|c l].
  - rewrite <- (app_nil_r (@nil (TokenType * bytes))).
    eapply (eats_bind after_where); [apply eats_no_keyword|apply eats_ret|done]. by intros t [? _]%andb_true_iff.
  - apply eats_yes_keyword; [done|]. unfold ParseWhereClause. apply (eats_separated _ _ _ _ any); try done.
    + intros m1 m2 l' a H1. by apply eats_yes_keyword.
    + apply eats_no_keyword. by intros t [_ ?]%andb_true_iff.
    + intros x _. apply eats_condition.
Qed.

(** The end of a statement. *)
Definition the_end (t : TokenType * bytes) : bool := bool_decide (t.1 = kEnd).

Lemma the_end_not t s : the_end t = true -> not_sym s t = true /\ not_kw s t = true.
Proof.
  unfold the_end, not_sym, not_kw. intros Ht%bool_decide_eq_true. by rewrite Ht.
Qed.

Lemma eats_semicolon : eats the_end skip_semicolon [] tt.
Proof.
  unfold skip_semicolon, skip_if. rewrite <- (app_nil_r (@nil (TokenType * bytes))).
  eapply eats_bind; [apply (eats_no_symbol the_end)|apply eats_ret|done]. intros t Ht. by apply (the_end_not t).
Qed.

(** The end of every statement. *)
Lemma eats_finish {A} (a : A) : eats the_end (_ ← skip_semicolon; mret a) [] a.
Proof. rewrite <- (app_nil_r (@nil (TokenType * bytes))). eapply eats_bind; [apply eats_semicolon|apply eats_ret|done]. Qed.

Lemma eats_where_finish {A} l (k : list Condition -> A) :
  eats the_end (w ← ParseOptionalWhere; _ ← skip_semicolon; mret (k w)) (where_tokens l) (k l).
Proof.
  rewrite <- (app_nil_r (where_tokens l)). eapply eats_bind; [apply eats_where|apply eats_finish|].
  intros t Ht. unfold after_where. by rewrite !(proj2 (the_end_not t _ Ht)).
Qed.

Definition after_column (t : TokenType * bytes) : bool := not_kw (str "PRIMARY") t && not_sym (str ",") t.

Lemma eats_column has_pk c :
  default_value c = None -> (has_pk = true -> primary_key c = false) ->
  eats (not_kw (str "PRIMARY")) (ParseColumn has_pk) (column_tokens c) c.
Proof.
  intros Hd Hpk. unfold ParseColumn, column_tokens. destruct c as [name ty pk dv]. cbn in *. subst dv.
  eapply (eats_bind any _ _ _ [_]); [apply eats_identifier| |done].
  eapply (eats_bind any _ _ _ [_]); [apply type_word_spec| |by destruct pk].
  destruct pk.
  - apply eats_yes_keyword; [done|]. eapply (eats_bind any _ _ _ [_] []); [by apply eats_keyword| |done].
    destruct has_pk; [by specialize (Hpk eq_refl)|apply eats_ret].
  - rewrite <- (app_nil_r (@nil (TokenType * bytes))).
    eapply eats_bind; [by apply (eats_no_keyword (not_kw (str "PRIMARY")))|apply eats_ret|done].
Qed.

Lemma eats_columns fuel (has_pk : bool) cols :
  cols <> [] -> (length cols <= fuel)%nat -> Forall (fun c => default_value c = None) cols ->
  ((if has_pk then 1 else 0) + pk_count cols <= 1)%nat ->
  eats after_column (ParseColumns fuel has_pk) (comma_tokens column_tokens cols)
    (cols, has_pk || (0 <? pk_count cols)%nat).
Proof.
  revert has_pk cols. induction fuel as [|fuel IH]; intros has_pk [|c cols] Hne Hf Hd Hpk; [done|cbn in Hf; lia|done|].
  apply Forall_cons_1 in Hd as [Hc Hd]. rewrite pk_count_cons in *. cbn [ParseColumns comma_tokens sep_by].
  assert (Hcol : eats (not_kw (str "PRIMARY")) (ParseColumn has_pk) (column_tokens c) c).
  { apply eats_column; [done|]. intros ->. destruct (primary_key c); [cbn in Hpk; lia|done]. }
  destruct cols as [|c' cols].
  - eapply eats_bind; [exact Hcol| |by intros t [? _]%andb_true_iff]. cbv zeta.
    rewrite <- (app_nil_r (@nil (TokenType * bytes))).
    eapply eats_bind; [apply (eats_no_symbol after_column); by intros t [_ ?]%andb_true_iff| |done].
    replace (0 <? (if primary_key c then 1 else 0) + pk_count [])%nat with (primary_key c) by (by destruct (primary_key c)).
    apply eats_ret.
  - eapply eats_bind; [exact Hcol| |done]. cbv zeta. apply eats_yes_symbol.
    change (sep_by (sym (str ",")) column_tokens (c' :: cols)) with (comma_tokens column_tokens (c' :: cols)).
    rewrite <- (app_nil_r (comma_tokens column_tokens (c' :: cols))).
    eapply eats_bind; [apply (IH (has_pk || primary_key c)); [done|cbn in Hf |- *; lia|done|]| |done].
    { destruct has_pk, (primary_key c); cbn in *; lia. }
    cbn [fst snd]. replace (has_pk || (0 <? (if primary_key c then 1 else 0) + pk_count (c' :: cols))%nat)
      with (has_pk || primary_key c || (0 <? pk_count (c' :: cols))%nat).
    + apply eats_ret.
    + by destruct has_pk, (primary_key c).
Qed.

Lemma eats_next {A B} F2 (m : P A) (k : A -> P B) l1 l2 a b :
  eats any m l1 a -> eats F2 (k a) l2 b -> eats F2 (m ≫= k) (l1 ++ l2) b.
Proof. intros H1 H2. eapply eats_bind; [exact H1|exact H2|]. by destruct l2. Qed.

(** Goes through the statements of a parsing function that read fixed tokens. *)
Ltac eats :=
  repeat first
    [ eapply (eats_next _ _ _ [_]); [by apply eats_keyword|]
    | eapply (eats_next _ _ _ [_]); [apply eats_symbol|]
    | eapply (eats_next _ _ _ [_]); [apply eats_identifier|]
    | eapply (eats_next _ _ _ [_]); [apply eats_literal|]
    | eapply (eats_next _ _ _ [_]); [apply type_word_spec|]
    | eapply (eats_next _ _ _ (table_tokens _ _)); [apply eats_table|] ].

(** Parsing a statement by its first word, and by the second where that is needed. *)
Lemma eats_dispatch {A} (m : P A) (k : A -> Statement) w l a :
  eats the_end m (kw w :: l) a ->
  (forall o ts rest, map view ts = l ->
     let state := {| type := kIdentifier; text := w; offset := o |} :: ts ++ rest in
     ParseStatement state = (x ← m; mret (k x)) state) ->
  eats the_end ParseStatement (kw w :: l) (k a).
Proof.
  intros Hm Hd ts t rest Hv Ht. destruct ts as [|[ty tx o] ts]; [done|].
  pose proof (Hm _ t rest Hv Ht) as E. cbn in Hv. injection Hv as -> -> Hv. cbn [app] in E |- *.
  rewrite (Hd o ts (t :: rest) Hv). by rewrite (run_bind _ _ _ _ _ E).
Qed.

Lemma eats_ext {A} F (m m' : P A) l a : (forall ts, m ts = m' ts) -> eats F m' l a -> eats F m l a.
Proof. intros E Hm ts t rest Hv Ht. rewrite E. by apply Hm. Qed.

Lemma eats_all_columns cols :
  cols <> [] -> pk_count cols = 1 -> Forall (fun c => default_value c = None) cols ->
  eats after_column (fun ts => ParseColumns (length ts) false ts) (comma_tokens column_tokens cols) (cols, true).
Proof.
  intros Hne Hpk Hd ts t rest Hv Ht.
  assert (Hf : (length cols <= length (ts ++ t :: rest))%nat).
  { pose proof (length_sep_by (sym (str ",")) column_tokens cols ltac:(done)) as Hl.
    change (sep_by (sym (str ",")) column_tokens cols) with (comma_tokens column_tokens cols) in Hl.
    rewrite <- Hv, length_map in Hl. rewrite length_app. lia. }
  assert (H1 : ((if false then 1 else 0) + pk_count cols <= 1)%nat) by (cbn; lia).
  rewrite (eats_columns _ false cols Hne Hf Hd H1 ts t rest Hv Ht). by rewrite Hpk.
Qed.

Lemma eats_names l : l <> [] ->
  eats (not_sym (str ",")) (comma_list ExpectIdentifier) (comma_tokens (fun c => [kw c]) l) l.
Proof. intros Hl. apply eats_comma_list; [done|done|]. intros c. apply eats_identifier. Qed.

Lemma eats_literals l : l <> [] ->
  eats (not_sym (str ",")) (comma_list ExpectLiteral) (comma_tokens (fun v => [lit v]) l) l.
Proof. intros Hl. apply eats_comma_list; [done|done|]. intros v. apply eats_literal. Qed.

(** The columns of SELECT. *)
Lemma eats_select_columns l :
  eats (not_sym (str ",")) (b ← CheckSymbol (str "*"); if b : bool then _ ← Advance; mret [] else comma_list ExpectIdentifier)
    (select_tokens l) l.
Proof.
  unfold select_tokens. destruct l as [|c l]; [apply eats_yes_symbol, eats_ret|].
  change (comma_tokens (fun c => [kw c]) (c :: l)) with ([] ++ comma_tokens (fun c => [kw c]) (c :: l)).
  eapply (eats_bind (not_sym (str "*"))); [by apply eats_no_symbol|by apply eats_names|done].
Qed.

Lemma eats_create_table s : stmt_ok (CreateTable s) -> eats the_end ParseCreateTable (stmt_tokens (CreateTable s)) s.
Proof.
  intros (Hne & Hpk & Hd). unfold ParseCreateTable. cbn [stmt_tokens]. eats.
  eapply eats_bind; [by apply eats_all_columns| |done]. eats. cbn [fst snd]. destruct s. apply eats_finish.
Qed.

Lemma eats_insert s : stmt_ok (InsertInto s) -> eats the_end ParseInsert (stmt_tokens (InsertInto s)) s.
Proof.
  intros [Hne Hl]. assert (Hne' : in_values s <> []) by (intros E; rewrite E in Hl; by destruct (in_columns s)).
  unfold ParseInsert. cbn [stmt_tokens]. eats. eapply eats_bind; [by apply eats_names| |done]. eats.
  eapply eats_bind; [by apply eats_literals| |done]. eats. rewrite decide_False by (intros Hn; by apply Hn).
  destruct s. apply eats_finish.
Qed.

Lemma eats_select s : eats the_end ParseSelect (stmt_tokens (Select s)) s.
Proof.
  unfold ParseSelect. cbn [stmt_tokens]. eats. eapply eats_ext; [intros ts; symmetry; apply run_assoc|].
  eapply eats_bind; [apply eats_select_columns| |done]. eats. destruct s. apply eats_where_finish.
Qed.

Lemma eats_update s : stmt_ok (Update s) -> eats the_end ParseUpdate (stmt_tokens (Update s)) s.
Proof.
  intros Hne. unfold ParseUpdate. cbn [stmt_tokens]. eats. eapply eats_bind.
  - apply eats_comma_list; [exact Hne|done|]. intros x. apply eats_assignment.
  - destruct s. apply eats_where_finish.
  - unfold where_tokens. destruct (up_where s); [|done]. intros t Ht. by apply the_end_not.
Qed.

Lemma eats_alter s : stmt_ok (AlterTableAddColumn s) -> eats the_end ParseAlterTable (stmt_tokens (AlterTableAddColumn s)) s.
Proof.
  destruct s as [db table [name ty pk dv]]. cbn. intros [-> [v ->]]. unfold ParseAlterTable. cbn [app]. eats.
  eapply (eats_next _ _ _ [_]); [unfold skip_if; apply eats_yes_keyword; [done|apply eats_ret]|].
  eats. apply eats_finish.
Qed.

Lemma eats_statement s : stmt_ok s -> eats the_end ParseStatement (stmt_tokens s) s.
Proof.
  assert (Hsecond : forall (w : bytes) l ts (Q : list Token -> Prop), map view ts = kw w :: l ->
    (forall o ts', Q ({| type := kIdentifier; text := w; offset := o |} :: ts')) -> Q ts).
  { intros w l ts Q Hv HQ. destruct ts as [|[ty tx o] ts]; [done|]. cbn in Hv. injection Hv as -> -> _. apply HQ. }
  destruct s as [s|s|s|s|s|s|s|s|]; intros Hok.
  - apply (eats_dispatch ParseCreateTable CreateTable); [by apply eats_create_table|].
    intros o ts rest Hv. pattern ts. by eapply Hsecond.
  - by apply (eats_dispatch ParseInsert InsertInto); [apply eats_insert|].
  - by apply (eats_dispatch ParseSelect Select); [apply eats_select|].
  - by apply (eats_dispatch ParseUpdate Update); [apply eats_update|].
  - apply (eats_dispatch ParseDelete DeleteFrom); [|done]. unfold ParseDelete. eats. destruct s. apply eats_where_finish.
  - by apply (eats_dispatch ParseAlterTable AlterTableAddColumn); [apply eats_alter|].
  - apply (eats_dispatch ParseShowTables ShowTables); [unfold ParseShowTables; eats; destruct s; apply eats_finish|].
    intros o ts rest Hv. pattern ts. by eapply Hsecond.
  - apply (eats_dispatch ParseCreateDatabase CreateDatabase); [unfold ParseCreateDatabase; eats; destruct s; apply eats_finish|].
    intros o ts rest Hv. pattern ts. by eapply Hsecond.
  - apply (eats_dispatch ParseShowDatabases (fun _ => ShowDatabases) _ _ tt); [unfold ParseShowDatabases; eats; apply eats_semicolon|].
    intros o ts rest Hv. pattern ts. by eapply Hsecond.
Qed.

(** The tokens of a list can all be read back. *)
Definition tokens_ok (l : list (TokenType * bytes)) : Prop := Forall (fun t => token_ok t = true) l.

Lemma tokens_ok_forallb l : tokens_ok l -> forallb token_ok l = true.
Proof. induction 1 as [|t l Ht Hl IH]; [done|]. cbn. by rewrite Ht, IH. Qed.

Lemma sep_by_ok {A} sep (f : A -> list (TokenType * bytes)) l :
  token_ok sep = true -> Forall (fun x => tokens_ok (f x)) l -> tokens_ok (sep_by sep f l).
Proof.
  intros Hs. induction 1 as [|x l Hx Hl IH]; [constructor|]. cbn [sep_by]. apply Forall_app_2; [done|].
  destruct l; [constructor|]. by constructor.
Qed.

(** Proves [tokens_ok] of tokens that are written out. *)
Ltac tokens_ok :=
  repeat first
    [ assumption | apply Forall_nil_2 | apply Forall_app_2 | apply Forall_cons_2; [first [reflexivity|assumption]|] ].

Lemma column_tokens_ok n ty pk dv : is_identifier n = true ->
  tokens_ok (column_tokens {| col_name := n; col_type := ty; primary_key := pk; default_value := dv |}).
Proof. intros Hn. unfold column_tokens. destruct ty, pk; cbn; tokens_ok. Qed.

Lemma where_tokens_ok l : Forall (fun n => is_identifier n = true) (where_names l) -> tokens_ok (where_tokens l).
Proof.
  intros Hn. destruct l as [|c l]; [constructor|]. constructor; [done|].
  apply sep_by_ok; [done|]. apply Forall_fmap in Hn. eapply Forall_impl; [exact Hn|].
  intros [column op literal] Hc. cbn in Hc. unfold condition_tokens. destruct op; cbn; tokens_ok.
Qed.

Lemma names_ok_comma l : Forall (fun n => is_identifier n = true) l -> tokens_ok (comma_tokens (fun c => [kw c]) l).
Proof. intros Hl. apply sep_by_ok; [done|]. eapply Forall_impl; [exact Hl|]. intros n Hn. tokens_ok. Qed.

Lemma literals_ok_comma l : tokens_ok (comma_tokens (fun v => [lit v]) l).
Proof. apply sep_by_ok; [done|]. apply Forall_true. intros v. tokens_ok. Qed.

Lemma names_tokens_ok s : names_ok s -> tokens_ok (stmt_tokens s).
Proof.
  unfold names_ok. destruct s as [[db t cols]|[db t cs vs]|[db t cs w]|[db t asg w]|[db t w]|[db t [n ty pk dv]]|[db]|[db]|];
    cbn [stmt_names stmt_tokens table_tokens app]; cbn;
    rewrite ?Forall_app, ?Forall_cons, ?Forall_singleton, ?Forall_app; intros Hn; destruct_and?;
    pose proof literals_ok_comma; try (assert (tokens_ok (where_tokens w)) by by apply where_tokens_ok); tokens_ok.
  - apply sep_by_ok; [done|]. match goal with H : Forall _ (map _ _) |- _ => apply Forall_fmap in H; eapply Forall_impl; [exact H|] end.
    intros [n ty pk dv]. apply column_tokens_ok.
  - by apply names_ok_comma.
  - apply literals_ok_comma.
  - destruct cs; [by repeat constructor|by apply names_ok_comma].
  - apply sep_by_ok; [done|]. match goal with H : Forall _ asg.*1 |- _ => apply Forall_fmap in H; eapply Forall_impl; [exact H|] end.
    intros [n v] Hv. cbn in Hv. unfold assignment_tokens. cbn. tokens_ok.
  - destruct ty; tokens_ok.
Qed.

(** ** Properties *)

Lemma Parse_good sql : match Parse sql with Ret s => stmt_good s | Throw _ => True | Undef => False end.
Proof.
  unfold Parse. pose proof (lex_defined (S (length sql)) 0 sql) as Hd. unfold Tokenize.
  destruct (lex _ 0 sql) as [toks|e|] eqn:El; [|done|by apply Hd; [lia|]].
  cbn [mbind outcome_bind]. pose proof (ParseStatement_parses toks (lex_ends _ _ _ _ El)) as Hp. unfold st_wp in Hp.
  destruct (ParseStatement toks) as [[s|e|] ts']; [|done|done]. apply Hp.
Qed.

(** C28: the parser is safe on any text: it never reads past its tokens and never runs out of
    fuel, and whatever statement it returns is well-formed -- a CREATE TABLE has columns, exactly
    one primary key and no defaults, an INSERT has as many values as columns, an UPDATE assigns
    something, an ALTER TABLE has a default, and every name is an identifier. *)
Theorem Parse_safe (sql : bytes) :
  match Parse sql with Ret s => stmt_ok s /\ names_ok s | Throw _ => True | Undef => False end.
Proof. exact (Parse_good sql). Qed.

(** C27: parsing inverts printing: every well-formed statement whose names are identifiers,
    whatever bytes its literals hold, is read back from its SQL text. *)
Theorem Parse_round_trip (s : Statement) :
  stmt_ok s -> names_ok s -> Parse (show_statement s) = Ret s.
Proof.
  intros Hok Hn. pose proof (tokens_ok_forallb _ (names_tokens_ok s Hn)) as Ht.
  destruct (lex_show (S (length (show_statement s))) 0 (stmt_tokens s) Ht) as (toks & E & Ev);
    [unfold show_statement; lia|].
  unfold Parse, Tokenize, show_statement in *. rewrite E. cbn [mbind outcome_bind].
  apply map_eq_app in Ev as (ts & ts' & -> & Ev & Ev'). destruct ts' as [|t [|]]; [done| |done]. injection Ev' as Et _.
  rewrite (eats_statement s Hok ts t [] Ev); [done|]. unfold the_end, view. cbn. by rewrite Et.
Qed.

Lemma Parse_round_trip_witness :
  let s := Update {| up_db_name := str "shop"; up_table_name := str "users";
                     up_assignments := [(str "name", str "O'Brien"); (str "age", str "-7")];
                     up_where := [{| cond_column := str "id"; cond_op := kGe; cond_literal := str "3" |}] |} in
  show_statement s = str "UPDATE shop . users SET name = 'O''Brien' , age = '-7' WHERE id >= '3' " /\
  Parse (show_statement s) = Ret s.
Proof.
  split; [by vm_compute|]. apply Parse_round_trip; [done|]. by repeat constructor.
Defined.

(** What follows a statement is ignored: a misspelt WHERE turns a DELETE of one row into a
    DELETE of every row, without an error. *)
Theorem Parse_ignores_the_rest :
  Parse (str "DELETE FROM shop.users WERE id = 1") =
    Ret (DeleteFrom {| de_db_name := str "shop"; de_table_name := str "users"; de_where := [] |}) /\
  Parse (str "DELETE FROM shop.users WHERE id = 1 OR id = 2") = Parse (str "DELETE FROM shop.users WHERE id = 1").
Proof. by vm_compute. Qed.
