(* ===== verification/Schema.v ===== *)
(** * Table schemas and rows ([src/sql/schema.cpp], the encoders of [src/sql/executor.cpp]) *)

From Stdlib Require Import NArith Lia.
From S2P Require Export Ast Codec.

(** ** Schemas *)

Abbreviation TableSchema := (list ColumnDef).

Fixpoint index_where {A} (f : A -> bool) (l : list A) : option nat :=
  match l with
  | [] => None
  | x :: l' => if f x then Some 0 else S <$> index_where f l'
  end.

(** [None] is the code's [-1]. *)
Definition ColumnIndex (name : bytes) (columns : TableSchema) : option nat :=
  index_where (fun c => bool_decide (col_name c = name)) columns.

Definition PrimaryKeyIndex (columns : TableSchema) : option nat := index_where primary_key columns.

Definition flag (b : bool) : N := if b then 1 else 0.

Definition SerializeColumn (out : bytes) (col : ColumnDef) : bytes :=
  let out := AppendString out (col_name col) in
  let out := AppendU8 out (flag (bool_decide (col_type col = kInt))) in
  let out := AppendU8 out (flag (primary_key col)) in
  let out := AppendU8 out (flag (bool_decide (is_Some (default_value col)))) in
  match default_value col with Some v => AppendString out v | None => out end.

Definition Serialize (columns : TableSchema) : bytes :=
  foldl SerializeColumn (AppendU32 [] (size32 columns)) columns.

Definition corrupt_schema : bytes := str "corrupt table schema".

Definition DeserializeColumn : Reader ColumnDef :=
  name ← ReadString corrupt_schema;
  ty ← ReadU8 corrupt_schema;
  pk ← ReadU8 corrupt_schema;
  has_default ← ReadU8 corrupt_schema;
  dv ← (if (has_default =? 0)%N then mret None else v ← ReadString corrupt_schema; mret (Some v));
  mret {| col_name := name; col_type := if (ty =? 0)%N then kText else kInt;
          primary_key := negb (pk =? 0)%N; default_value := dv |}.

Definition Deserialize (blob : bytes) : outcome TableSchema :=
  r ← (count ← ReadU32 corrupt_schema; read_n (N.to_nat count) DeserializeColumn) blob;
  match r with
  | ([], _) => throw_rt (str "corrupt table schema: empty column list")
  | (columns, _) => Ret columns
  end.

(** ** Rows *)

Definition EncodeRow (values : list bytes) : bytes :=
  foldl AppendString (AppendU32 [] (size32 values)) values.

Definition corrupt_row : bytes := str "corrupt row encoding".

Definition DecodeRow (blob : bytes) : outcome (list bytes) :=
  r ← (count ← ReadU32 corrupt_row; read_n (N.to_nat count) (ReadString corrupt_row)) blob; Ret r.1.

(** Appends the defaults of the columns the row does not have; a column without one would be
    undefined behaviour. *)
Fixpoint push_defaults (missing : list ColumnDef) (row : list bytes) : outcome (list bytes) :=
  match missing with
  | [] => Ret row
  | c :: missing =>
    match default_value c with
    | Some v => push_defaults missing (row ++ [v])
    | None => Undef
    end
  end.

Definition PadRow (columns : TableSchema) (row : list bytes) : outcome (list bytes) :=
  push_defaults (drop (length row) columns) row.

(** ** Facts *)

Lemma index_where_lookup {A} (f : A -> bool) l i : index_where f l = Some i -> exists x, l !! i = Some x /\ f x = true.
Proof.
  revert i. induction l as [|x l IH]; intros i; [done|]. cbn. destruct (f x) eqn:E; [intros [= <-]; eauto|].
  destruct (index_where f l) as [j|]; [|done]. intros [= <-]. apply IH. done.
Qed.

Lemma index_where_None {A} (f : A -> bool) l : index_where f l = None <-> Forall (fun x => f x = false) l.
Proof.
  induction l as [|x l IH]; cbn; [split; [constructor|done]|]. destruct (f x) eqn:E.
  - split; [done|]. intros Hf. apply Forall_cons_1 in Hf as [? _]. congruence.
  - destruct (index_where f l).
    + split; [done|]. intros Hf. apply Forall_cons_1 in Hf as [_ Hf]. by apply IH in Hf.
    + split; [|done]. intros _. constructor; [done|]. by apply IH.
Qed.

Lemma ColumnIndex_lt name columns i : ColumnIndex name columns = Some i -> (i < length columns)%nat.
Proof. intros H. apply index_where_lookup in H as (x & Hx & _). by eapply lookup_lt_Some. Qed.

(** What fits the 32-bit lengths. *)
Definition column_fits (c : ColumnDef) : Prop :=
  fits32 (col_name c) /\ match default_value c with Some v => fits32 v | None => True end.
Definition schema_fits (columns : TableSchema) : Prop := fits32 columns /\ Forall column_fits columns.
Definition row_fits (row : list bytes) : Prop := fits32 row /\ Forall fits32 row.

Definition column_bytes (c : ColumnDef) : bytes :=
  string_bytes (col_name c) ++ le_bytes 1 (flag (bool_decide (col_type c = kInt))) ++
  le_bytes 1 (flag (primary_key c)) ++ le_bytes 1 (flag (bool_decide (is_Some (default_value c)))) ++
  match default_value c with Some v => string_bytes v | None => [] end.

Lemma SerializeColumn_app out c : SerializeColumn out c = out ++ column_bytes c.
Proof.
  unfold SerializeColumn, column_bytes, AppendU8. destruct (default_value c);
    rewrite ?AppendString_app; rewrite <- ?app_assoc; [done|by rewrite app_nil_r].
Qed.

Lemma flag_bound b : (flag b < 256)%N.
Proof. by destruct b. Qed.
#[export] Hint Resolve flag_bound : codec.

Lemma flag_spec b : negb (flag b =? 0)%N = b.
Proof. by destruct b. Qed.

Lemma reads_column c : column_fits c -> reads DeserializeColumn (column_bytes c) c.
Proof.
  intros [Hn Hd]. destruct c as [name ty pk dv]. unfold DeserializeColumn, column_bytes. cbn in Hn, Hd |- *.
  eapply reads_bind; [eauto with codec|]. do 3 (eapply reads_bind; [eauto with codec|]).
  eapply (reads_bind_last _ _ _ dv).
  - destruct dv as [v|]; cbn; [|apply reads_ret].
    eapply reads_bind_last; [eauto with codec|]. apply reads_ret.
  - rewrite flag_spec. destruct ty; apply reads_ret.
Qed.

Lemma Serialize_bytes columns : Serialize columns = vector_bytes column_bytes columns.
Proof.
  unfold Serialize, vector_bytes, AppendU32. cbn [app].
  by rewrite (foldl_append _ column_bytes) by apply SerializeColumn_app.
Qed.

Lemma Deserialize_Serialize columns : schema_fits columns -> columns <> [] -> Deserialize (Serialize columns) = Ret columns.
Proof.
  intros [Hf Hc] Hne. unfold Deserialize.
  assert (Hr : reads (count ← ReadU32 corrupt_schema; read_n (N.to_nat count) DeserializeColumn) (Serialize columns) columns).
  { rewrite Serialize_bytes. apply reads_counted; [done|]. eapply Forall_impl; [exact Hc|]. apply reads_column. }
  rewrite (reads_whole _ _ _ Hr). by destruct columns.
Qed.

Lemma EncodeRow_bytes row : EncodeRow row = vector_bytes string_bytes row.
Proof.
  unfold EncodeRow, vector_bytes, AppendU32. cbn [app].
  by rewrite (foldl_append _ string_bytes) by (intros; apply AppendString_app).
Qed.

Lemma reads_row row : row_fits row ->
  reads (count ← ReadU32 corrupt_row; read_n (N.to_nat count) (ReadString corrupt_row)) (EncodeRow row) row.
Proof.
  intros [Hf Hr]. rewrite EncodeRow_bytes. apply reads_counted; [done|]. eapply Forall_impl; [exact Hr|]. apply reads_string.
Qed.

Lemma DecodeRow_EncodeRow row : row_fits row -> DecodeRow (EncodeRow row) = Ret row.
Proof. intros Hf. unfold DecodeRow. by rewrite (reads_whole _ _ _ (reads_row row Hf)). Qed.

(** Padding fills the missing columns with their defaults. *)
Lemma push_defaults_spec missing row :
  Forall (fun c => is_Some (default_value c)) missing ->
  push_defaults missing row = Ret (row ++ map (fun c => default [] (default_value c)) missing).
Proof.
  intros Hm. revert row. induction Hm as [|c missing [v Hv] Hm IH]; intros row; cbn; [by rewrite app_nil_r|].
  rewrite Hv, IH. cbn. by rewrite <- app_assoc.
Qed.

Lemma PadRow_full columns row : length row = length columns -> PadRow columns row = Ret row.
Proof. intros Hl. unfold PadRow. by rewrite drop_ge by lia. Qed.

(** ** Properties *)

(** What is stored is what is read back: the columns of a table, with any defaults, and the
    values of a row, whatever bytes they hold; a truncated row or schema is refused. *)
Theorem schema_row_round_trip (columns : list ColumnDef) (row : list bytes) :
  schema_fits columns -> columns <> [] -> row_fits row ->
  Deserialize (Serialize columns) = Ret columns /\ DecodeRow (EncodeRow row) = Ret row /\
  (forall n, (n < length (EncodeRow row))%nat -> exists e, DecodeRow (take n (EncodeRow row)) = Throw e) /\
  (forall n, (n < length (Serialize columns))%nat -> exists e, Deserialize (take n (Serialize columns)) = Throw e).
Proof.
  intros Hs Hne Hr. split_and!; [by apply Deserialize_Serialize|by apply DecodeRow_EncodeRow| |].
  - intros n Hn. destruct (reads_truncated _ _ _ n (reads_row row Hr) Hn) as [e He]. exists e.
    unfold DecodeRow. by rewrite He.
  - intros n Hn. destruct Hs as [Hf Hc]. rewrite Serialize_bytes in *.
    assert (Hrd : reads (count ← ReadU32 corrupt_schema; read_n (N.to_nat count) DeserializeColumn)
      (vector_bytes column_bytes columns) columns).
    { apply reads_counted; [done|]. eapply Forall_impl; [exact Hc|]. apply reads_column. }
    destruct (reads_truncated _ _ _ n Hrd Hn) as [e He]. exists e. unfold Deserialize. by rewrite He.
Qed.

Definition demo_columns : list ColumnDef :=
  [{| col_name := str "id"; col_type := kInt; primary_key := true; default_value := None |};
   {| col_name := str "note"; col_type := kText; primary_key := false; default_value := Some (str "n/a") |}].

Lemma schema_row_round_trip_witness :
  Deserialize (Serialize demo_columns) = Ret demo_columns /\
  DecodeRow (EncodeRow [str "7"; str "a,b"]) = Ret [str "7"; str "a,b"].
Proof.
  destruct (schema_row_round_trip demo_columns [str "7"; str "a,b"]) as (H1 & H2 & _);
    [by repeat constructor|done|by repeat constructor|]. by split.
Defined.
