(* ===== verification/StoreSim.v ===== *)
(** * Programs over a key-value store

    A program written against the interface [KVStore] behaves on any implementation that has
    room for what it writes as it does on a map that keeps count of the bytes written. *)

From Stdlib Require Import NArith Lia.
From S2P Require Export Store.

(** ** The reference implementation *)

(** The contents, and the bytes written so far. *)
Definition ledger : Type := gmap (list ascii) (list ascii) * N.

#[export] Instance ledger_KVStore : KVStore ledger := {|
  kv_get key l := l.1 !! key;
  kv_scan prefix l := with_prefix prefix (map_entries l.1);
  kv_put key value := st_modify (fun l => (<[key := value]> l.1, l.2 + entry_cost key (Some value))%N);
  kv_delete key := st_modify (fun l => (delete key l.1, l.2 + entry_cost key None)%N);
  kv_reset := st_modify (fun l => (∅, l.2));
|}.

(** ** Simulation *)

Section sim.
Context {S : Type} `{KVStoreLaws S}.

(** [m] does on a store with room for what [m'] writes what [m'] does on its contents. *)
Definition sim {A} (m : ST S A) (m' : ST ledger A) : Prop :=
  (forall l, (l.2 <= (m' l).2.2)%N) /\
  (forall c0 b s, let '(r, (contents, c)) := m' (kv_contents s, c0) in
     kv_ok (b + (c - c0)) s -> exists s', m s = (r, s') /\ kv_ok b s' /\ kv_contents s' = contents).

Lemma sim_pure {A} (o : outcome A) : sim (fun s => (o, s)) (fun l => (o, l)).
Proof.
  split; [intros l; cbn; lia|]. intros c0 b s Hok. exists s. split_and!; [done| |done].
  eapply kv_ok_less; [exact Hok|lia].
Qed.

Lemma sim_ret {A} (a : A) : sim (mret a) (mret a).
Proof. apply sim_pure. Qed.
Lemma sim_lift {A} (o : outcome A) : sim (st_lift o) (st_lift o).
Proof. apply sim_pure. Qed.
Lemma sim_throw {A} e : sim (st_throw e : ST S A) (st_throw e).
Proof. apply sim_pure. Qed.

Lemma sim_get key : sim (st_gets (kv_get key)) (st_gets (kv_get key)).
Proof.
  split; [intros l; cbn; lia|]. intros c0 b s Hok. exists s. unfold st_gets. rewrite (kv_get_spec _ _ _ Hok).
  split_and!; [done| |done]. eapply kv_ok_less; [exact Hok|lia].
Qed.

Lemma sim_scan prefix : sim (st_gets (kv_scan prefix)) (st_gets (kv_scan prefix)).
Proof.
  split; [intros l; cbn; lia|]. intros c0 b s Hok. exists s. unfold st_gets. rewrite (kv_scan_spec _ _ _ Hok).
  split_and!; [done| |done]. eapply kv_ok_less; [exact Hok|lia].
Qed.

Lemma sim_put key value : sim (kv_put key value) (kv_put key value).
Proof.
  split; [intros l; cbn -[entry_cost]; lia|]. intros c0 b s. cbn -[entry_cost]. intros Hok. apply kv_put_spec. eapply kv_ok_less; [exact Hok|lia].
Qed.

Lemma sim_delete key : sim (kv_delete key) (kv_delete key).
Proof.
  split; [intros l; cbn -[entry_cost]; lia|]. intros c0 b s. cbn -[entry_cost]. intros Hok. apply kv_delete_spec. eapply kv_ok_less; [exact Hok|lia].
Qed.

Lemma sim_reset : sim kv_reset kv_reset.
Proof.
  split; [intros l; cbn -[entry_cost]; lia|]. intros c0 b s. cbn -[entry_cost]. intros Hok. apply kv_reset_spec. eapply kv_ok_less; [exact Hok|lia].
Qed.

Lemma sim_bind {A B} (m : ST S A) m' (f : A -> ST S B) f' :
  sim m m' -> (forall a, sim (f a) (f' a)) -> sim (m ≫= f) (m' ≫= f').
Proof.
  intros [Hm1 Hm2] Hf. unfold mbind, ST_bind. split.
  - intros l. specialize (Hm1 l). destruct (m' l) as [[a|e|] l1]; cbn in *; [|done..].
    pose proof (proj1 (Hf a) l1). lia.
  - intros c0 b s. specialize (Hm1 (kv_contents s, c0)). pose proof (fun b => Hm2 c0 b s) as H2. clear Hm2.
    destruct (m' (kv_contents s, c0)) as [r [m1 c1]]. cbn in Hm1.
    destruct r as [a|e|]; cycle 1.
    { intros Hok. destruct (H2 b Hok) as (s' & -> & ?). eauto. }
    { intros Hok. destruct (H2 b Hok) as (s' & -> & ?). eauto. }
    pose proof (proj1 (Hf a) (m1, c1)) as Hc. cbn in Hc.
    destruct (f' a (m1, c1)) as [r2 [m2 c2]] eqn:E2. cbn in Hc. intros Hok.
    destruct (H2 (b + (c2 - c1))%N) as (s' & -> & Hok' & Hs').
    { eapply kv_ok_less; [exact Hok|lia]. }
    pose proof (proj2 (Hf a) c1 b s') as H3. rewrite Hs', E2 in H3. by apply H3.
Qed.

Lemma sim_catch {A} (m : ST S A) m' h h' : sim m m' -> (forall e, sim (h e) (h' e)) -> sim (st_catch m h) (st_catch m' h').
Proof.
  intros [Hm1 Hm2] Hh. unfold st_catch. split.
  - intros l. specialize (Hm1 l). destruct (m' l) as [[a|e|] l1]; cbn in *; [done| |done].
    pose proof (proj1 (Hh e) l1). lia.
  - intros c0 b s. specialize (Hm1 (kv_contents s, c0)). pose proof (fun b => Hm2 c0 b s) as H2. clear Hm2.
    destruct (m' (kv_contents s, c0)) as [r [m1 c1]]. cbn in Hm1.
    destruct r as [a|e|]; cycle 1.
    2: { intros Hok. destruct (H2 b Hok) as (s' & -> & ?). eauto. }
    2: { intros Hok. destruct (H2 b Hok) as (s' & -> & ?). eauto. }
    pose proof (proj1 (Hh e) (m1, c1)) as Hc. cbn in Hc.
    destruct (h' e (m1, c1)) as [r2 [m2 c2]] eqn:E2. cbn in Hc. intros Hok.
    destruct (H2 (b + (c2 - c1))%N) as (s' & -> & Hok' & Hs').
    { eapply kv_ok_less; [exact Hok|lia]. }
    pose proof (proj2 (Hh e) c1 b s') as H3. rewrite Hs', E2 in H3. by apply H3.
Qed.

Lemma sim_for {A} (l : list A) (f : A -> ST S unit) f' :
  (forall a, sim (f a) (f' a)) -> sim (st_for l f) (st_for l f').
Proof. intros Hf. induction l as [|a l IH]; [apply sim_ret|]. by apply sim_bind. Qed.
End sim.

(** Closes a goal [sim m m'] when both are the same program. *)
Create HintDb sim.
#[export] Hint Resolve sim_ret sim_lift sim_throw sim_get sim_scan sim_put sim_delete sim_reset : sim.
#[export] Hint Extern 1 (sim (_ ≫= _) _) => apply sim_bind; [|intros ?] : sim.
#[export] Hint Extern 1 (sim (st_for _ _) _) => apply sim_for; intros ? : sim.
#[export] Hint Extern 1 (sim (st_catch _ _) _) => apply sim_catch; [|intros ?] : sim.
#[export] Hint Extern 2 (sim (match ?x with _ => _ end) _) => destruct x : sim.
#[export] Hint Extern 3 (sim (let _ := _ in _) _) => cbv zeta : sim.
Ltac sim := solve [auto 100 with sim nocore].
