(* ===== verification/Executor.v ===== *)
(** * The SQL executor ([src/sql/executor.h], [src/sql/executor.cpp])

    The executor is written against the interface of a key-value store, as the code is against
    [StorageEngine].  Reading a row out of range or dereferencing an absent default would be
    undefined behaviour ([Undef]); the invariant of [Database.v] rules it out. *)

From Stdlib Require Import NArith ZArith Lia.
From S2P Require Export Parser Schema Store.

Definition tab : ascii := "009"%char.
Definition lf : ascii := "010"%char.

(** ** Keys *)

Definition kDatabasePrefix : bytes := str "__database__/".
Definition kSchemaPrefix : bytes := str "__schema__/".
Definition kRowPrefix : bytes := str "__row__/".

Definition DatabaseKey (db_name : bytes) : bytes := kDatabasePrefix ++ db_name.
Definition SchemaKey (db_name table_name : bytes) : bytes := kSchemaPrefix ++ db_name ++ str "/" ++ table_name.
Definition RowPrefix (db_name table_name : bytes) : bytes := kRowPrefix ++ db_name ++ str "/" ++ table_name ++ str "/".
Definition RowKey (db_name table_name pk_value : bytes) : bytes := RowPrefix db_name table_name ++ pk_value.

(** ** Literals *)

Definition ValidateIntLiteral (column literal : bytes) : outcome unit :=
  let invalid := str "invalid integer value for column '" ++ column ++ str "'" in
  match literal with
  | [] => throw_rt invalid
  | c :: rest =>
    let digits := if Ascii.eqb c hyphen then rest else literal in
    match digits with
    | [] => throw_rt invalid
    | _ => if forallb isdigit digits then Ret tt else throw_rt (invalid ++ str ": '" ++ literal ++ str "'")
    end
  end.

(** The sign of the comparison, and what the operator makes of it. *)
Definition holds (op : CompareOp) (c : comparison) : bool :=
  match op, c with
  | kEq, Eq => true | kEq, _ => false
  | kNe, Eq => false | kNe, _ => true
  | kLt, Lt => true | kLt, _ => false
  | kLe, Gt => false | kLe, _ => true
  | kGt, Gt => true | kGt, _ => false
  | kGe, Lt => false | kGe, _ => true
  end.

Definition compare_bytes (a b : bytes) : comparison :=
  if bytes_ltb a b then Lt else if bytes_ltb b a then Gt else Eq.

Definition CompareLiterals (ty : ColumnType) (lhs : bytes) (op : CompareOp) (rhs : bytes) : outcome bool :=
  match ty with
  | kInt => a ← stoll lhs; b ← stoll rhs; Ret (holds op (a ?= b)%Z)
  | kText => Ret (holds op (compare_bytes lhs rhs))
  end.

(** [v[i]] of a [std::vector]. *)
Definition at_ {A} (l : list A) (i : nat) : outcome A := match l !! i with Some x => Ret x | None => Undef end.

Fixpoint MatchesWhere (columns : TableSchema) (row : list bytes) (conditions : list Condition) : outcome bool :=
  match conditions with
  | [] => Ret true
  | cond :: conditions =>
    match ColumnIndex (cond_column cond) columns with
    | None => throw_rt (str "no such column: " ++ cond_column cond)
    | Some idx =>
      col ← at_ columns idx;
      value ← at_ row idx;
      b ← CompareLiterals (col_type col) value (cond_op cond) (cond_literal cond);
      if b : bool then MatchesWhere columns row conditions else Ret false
    end
  end.

(** The literal the first equality condition on the primary key compares with. *)
Definition FindPkEquality (columns : TableSchema) (conditions : list Condition) : outcome (option bytes) :=
  match PrimaryKeyIndex columns with
  | None => Ret None
  | Some pk_idx =>
    pk ← at_ columns pk_idx;
    Ret (cond_literal <$> head (filter (fun c => cond_column c = col_name pk /\ cond_op c = kEq) conditions))
  end.

(** The text of a row or of the headers: fields separated by tabs. *)
Fixpoint tab_separated (l : list bytes) : bytes :=
  match l with [] => [] | [x] => x | x :: l' => x ++ [tab] ++ tab_separated l' end.

Definition zero_rows : bytes := [lf] ++ str "(0 rows)".

Section executor.
Context {S : Type} `{KVStore S}.

(** [engine_.Get(key)], [engine_.Scan(prefix)]. *)
Definition Get (key : bytes) : ST S (option bytes) := st_gets (kv_get key).
Definition Scan (prefix : bytes) : ST S (list (bytes * bytes)) := st_gets (kv_scan prefix).

Definition e_throw {A} (msg : bytes) : ST S A := st_throw (RuntimeError msg).

Definition RequireDatabaseExists (db_name : bytes) : ST S unit :=
  v ← Get (DatabaseKey db_name);
  match v with Some _ => mret tt | None => e_throw (str "no such database: " ++ db_name) end.

Definition LoadSchema (db_name table_name : bytes) : ST S TableSchema :=
  blob ← Get (SchemaKey db_name table_name);
  match blob with
  | None => e_throw (str "no such table: " ++ db_name ++ str "." ++ table_name)
  | Some blob => st_lift (Deserialize blob)
  end.

(** ** Schema statements *)

Definition ExecuteCreateDatabase (stmt : CreateDatabaseStatement) : ST S bytes :=
  v ← Get (DatabaseKey (cd_name stmt));
  match v with
  | Some _ => e_throw (str "database already exists: " ++ cd_name stmt)
  | None => _ ← kv_put (DatabaseKey (cd_name stmt)) []; mret (str "OK")
  end.

Definition ExecuteCreateTable (stmt : CreateTableStatement) : ST S bytes :=
  _ ← RequireDatabaseExists (ct_db_name stmt);
  v ← Get (SchemaKey (ct_db_name stmt) (ct_table_name stmt));
  match v with
  | Some _ => e_throw (str "table already exists: " ++ ct_db_name stmt ++ str "." ++ ct_table_name stmt)
  | None =>
    _ ← kv_put (SchemaKey (ct_db_name stmt) (ct_table_name stmt)) (Serialize (ct_columns stmt)); mret (str "OK")
  end.

Definition ExecuteAlterTableAddColumn (stmt : AlterTableAddColumnStatement) : ST S bytes :=
  columns ← LoadSchema (at_db_name stmt) (at_table_name stmt);
  let column := at_column stmt in
  match ColumnIndex (col_name column) columns with
  | Some _ => e_throw (str "column already exists: " ++ col_name column)
  | None =>
    match default_value column with
    | None => e_throw (str "ALTER TABLE ADD COLUMN requires a DEFAULT value")
    | Some v =>
      _ ← st_lift (if decide (col_type column = kInt) then ValidateIntLiteral (col_name column) v else Ret tt);
      _ ← kv_put (SchemaKey (at_db_name stmt) (at_table_name stmt)) (Serialize (columns ++ [column]));
      mret (str "OK")
    end
  end.

(** ** INSERT *)

(** The loop over the columns of the statement, with [row] and [filled]. *)
Fixpoint fill_row (columns : TableSchema) (names values : list bytes) (row : list bytes) (filled : list bool)
    : outcome (list bytes) :=
  match names with
  | [] => Ret row
  | name :: names =>
    match ColumnIndex name columns with
    | None => throw_rt (str "no such column: " ++ name)
    | Some idx =>
      f ← at_ filled idx;
      if f : bool then throw_rt (str "column specified twice: " ++ name)
      else
        col ← at_ columns idx;
        value ← at_ values 0;
        _ ← (if decide (col_type col = kInt) then ValidateIntLiteral name value else Ret tt);
        fill_row columns names (tail values) (<[idx := value]> row) (<[idx := true]> filled)
    end
  end.

Definition ExecuteInsert (stmt : InsertStatement) : ST S bytes :=
  columns ← LoadSchema (in_db_name stmt) (in_table_name stmt);
  if decide (length (in_columns stmt) <> length columns) then
    e_throw (str "INSERT must specify all " ++ to_string (N.of_nat (length columns)) ++
             str " column(s) of table '" ++ in_db_name stmt ++ str "." ++ in_table_name stmt ++ str "'")
  else
    row ← st_lift (fill_row columns (in_columns stmt) (in_values stmt)
                     (replicate (length columns) []) (replicate (length columns) false));
    pk_value ← st_lift (match PrimaryKeyIndex columns with Some i => at_ row i | None => Undef end);
    let key := RowKey (in_db_name stmt) (in_table_name stmt) pk_value in
    v ← Get key;
    match v with
    | Some _ => e_throw (str "duplicate primary key: " ++ pk_value)
    | None => _ ← kv_put key (EncodeRow row); mret (str "OK")
    end.

(** ** SELECT *)

(** [projection] and [headers]. *)
Fixpoint project (columns : TableSchema) (names : list bytes) : outcome (list nat) :=
  match names with
  | [] => Ret []
  | name :: names =>
    match ColumnIndex name columns with
    | None => throw_rt (str "no such column: " ++ name)
    | Some idx => rest ← project columns names; Ret (idx :: rest)
    end
  end.

Definition projection (columns : TableSchema) (names : list bytes) : outcome (list nat * list bytes) :=
  match names with
  | [] => Ret (seq 0 (length columns), map col_name columns)
  | _ => p ← project columns names; Ret (p, names)
  end.

(** One row of a scan, decoded and padded, and whether it matches. *)
Definition read_row (columns : TableSchema) (conditions : list Condition) (blob : bytes) : outcome (list bytes * bool) :=
  row ← DecodeRow blob;
  row ← PadRow columns row;
  b ← MatchesWhere columns row conditions;
  Ret (row, b).

Fixpoint pick (row : list bytes) (indices : list nat) : outcome (list bytes) :=
  match indices with
  | [] => Ret []
  | i :: indices => x ← at_ row i; xs ← pick row indices; Ret (x :: xs)
  end.

(** The lines of the result and the number of matches. *)
Fixpoint select_rows (columns : TableSchema) (proj : list nat) (conditions : list Condition)
    (rows : list (bytes * bytes)) : outcome (bytes * nat) :=
  match rows with
  | [] => Ret ([], 0)
  | (key, blob) :: rows =>
    r ← read_row columns conditions blob;
    if r.2 : bool then
      fields ← pick r.1 proj;
      rest ← select_rows columns proj conditions rows;
      Ret ([lf] ++ tab_separated fields ++ rest.1, 1 + rest.2)
    else select_rows columns proj conditions rows
  end.

Definition ExecuteSelect (stmt : SelectStatement) : ST S bytes :=
  columns ← LoadSchema (se_db_name stmt) (se_table_name stmt);
  ph ← st_lift (projection columns (se_columns stmt));
  rows ← Scan (RowPrefix (se_db_name stmt) (se_table_name stmt));
  r ← st_lift (select_rows columns ph.1 (se_where stmt) rows);
  mret (tab_separated ph.2 ++ r.1 ++ if decide (r.2 = 0) then zero_rows else []).

(** ** UPDATE and DELETE *)

Fixpoint check_assignments (columns : TableSchema) (l : list (bytes * bytes)) : outcome (list (nat * bytes)) :=
  match l with
  | [] => Ret []
  | (column, literal) :: l =>
    match ColumnIndex column columns with
    | None => throw_rt (str "no such column: " ++ column)
    | Some idx =>
      if decide (PrimaryKeyIndex columns = Some idx) then throw_rt (str "cannot update the primary key column: " ++ column)
      else
        col ← at_ columns idx;
        _ ← (if decide (col_type col = kInt) then ValidateIntLiteral column literal else Ret tt);
        rest ← check_assignments columns l;
        Ret ((idx, literal) :: rest)
    end
  end.

(** [row[idx] = literal]. *)
Fixpoint assign (row : list bytes) (l : list (nat * bytes)) : outcome (list bytes) :=
  match l with
  | [] => Ret row
  | (idx, literal) :: l => _ ← at_ row idx; assign (<[idx := literal]> row) l
  end.

Fixpoint update_rows (columns : TableSchema) (assignments : list (nat * bytes)) (conditions : list Condition)
    (rows : list (bytes * bytes)) : ST S nat :=
  match rows with
  | [] => mret 0
  | (key, blob) :: rows =>
    r ← st_lift (read_row columns conditions blob);
    if r.2 : bool then
      row ← st_lift (assign r.1 assignments);
      _ ← kv_put key (EncodeRow row);
      updated ← update_rows columns assignments conditions rows;
      mret (1 + updated)
    else update_rows columns assignments conditions rows
  end.

Definition ExecuteUpdate (stmt : UpdateStatement) : ST S bytes :=
  columns ← LoadSchema (up_db_name stmt) (up_table_name stmt);
  assignments ← st_lift (check_assignments columns (up_assignments stmt));
  rows ← Scan (RowPrefix (up_db_name stmt) (up_table_name stmt));
  updated ← update_rows columns assignments (up_where stmt) rows;
  mret (to_string (N.of_nat updated) ++ str " row(s) updated").

Fixpoint delete_rows (columns : TableSchema) (conditions : list Condition) (rows : list (bytes * bytes)) : ST S nat :=
  match rows with
  | [] => mret 0
  | (key, blob) :: rows =>
    r ← st_lift (read_row columns conditions blob);
    if r.2 : bool then
      _ ← kv_delete key;
      deleted ← delete_rows columns conditions rows;
      mret (1 + deleted)
    else delete_rows columns conditions rows
  end.

Definition ExecuteDelete (stmt : DeleteStatement) : ST S bytes :=
  columns ← LoadSchema (de_db_name stmt) (de_table_name stmt);
  rows ← Scan (RowPrefix (de_db_name stmt) (de_table_name stmt));
  deleted ← delete_rows columns (de_where stmt) rows;
  mret (to_string (N.of_nat deleted) ++ str " row(s) deleted").

(** ** SHOW *)

(** A header, then the keys without their prefix, one per line. *)
Definition list_keys (header prefix : bytes) : ST S bytes :=
  entries ← Scan prefix;
  mret (header ++ concat (map (fun e => [lf] ++ drop (length prefix) e.1) entries) ++
        match entries with [] => zero_rows | _ => [] end).

Definition ExecuteShowTables (stmt : ShowTablesStatement) : ST S bytes :=
  _ ← RequireDatabaseExists (st_db_name stmt);
  list_keys (str "table") (kSchemaPrefix ++ st_db_name stmt ++ str "/").

Definition ExecuteShowDatabases : ST S bytes := list_keys (str "database") kDatabasePrefix.

(** ** Dispatch *)

Definition ExecuteStatement (stmt : Statement) : ST S bytes :=
  match stmt with
  | CreateDatabase s => ExecuteCreateDatabase s
  | CreateTable s => ExecuteCreateTable s
  | AlterTableAddColumn s => ExecuteAlterTableAddColumn s
  | InsertInto s => ExecuteInsert s
  | Select s => ExecuteSelect s
  | Update s => ExecuteUpdate s
  | ShowTables s => ExecuteShowTables s
  | ShowDatabases => ExecuteShowDatabases
  | DeleteFrom s => ExecuteDelete s
  end.

Definition Execute (sql : bytes) : ST S bytes :=
  stmt ← st_lift (Parse sql); ExecuteStatement stmt.

(** ** Routing *)

Definition row_key_of_insert (s : InsertStatement) : ST S (option bytes) :=
  columns ← LoadSchema (in_db_name s) (in_table_name s);
  pk ← st_lift (match PrimaryKeyIndex columns with Some i => at_ columns i | None => Undef end);
  match index_where (fun c => bool_decide (c = col_name pk)) (in_columns s) with
  | Some i => v ← st_lift (at_ (in_values s) i); mret (Some (RowKey (in_db_name s) (in_table_name s) v))
  | None => mret None
  end.

Definition row_key_of_where (db_name table_name : bytes) (conditions : list Condition) : ST S (option bytes) :=
  columns ← LoadSchema db_name table_name;
  pk ← st_lift (FindPkEquality columns conditions);
  mret (RowKey db_name table_name <$> pk).

(** The row a statement deterministically touches; any exception means none. *)
Definition TryExtractRowKey (stmt : Statement) : ST S (option bytes) :=
  match stmt with
  | InsertInto s => st_catch (row_key_of_insert s) (fun _ => mret None)
  | Select s => st_catch (row_key_of_where (se_db_name s) (se_table_name s) (se_where s)) (fun _ => mret None)
  | Update s => st_catch (row_key_of_where (up_db_name s) (up_table_name s) (up_where s)) (fun _ => mret None)
  | DeleteFrom s => st_catch (row_key_of_where (de_db_name s) (de_table_name s) (de_where s)) (fun _ => mret None)
  | _ => mret None
  end.
End executor.
