(* ===== verification/Database.v ===== *)
(** * Relational databases, and the SQL executor as an implementation of them

    What a statement means on a database, without keys, encodings or padding; and the proof
    that [src/sql/executor.cpp] implements it on top of any key-value store. *)

From Stdlib Require Import NArith ZArith Lia.
From S2P Require Export ParserSpec StoreSim Executor.

(** ** Databases *)

(** The rows of a table, by the value of their primary key, each with a value for every column. *)
Record table := Table { columns : TableSchema; rows : gmap (list ascii) (list (list ascii)) }.

Abbreviation database := (gmap (list ascii) (gmap (list ascii) table)).

Definition table_at (d : database) (db_name table_name : bytes) : option table := d !! db_name ≫= lookup table_name.

Definition set_table (db_name table_name : bytes) (t : table) (d : database) : database :=
  <[db_name := <[table_name := t]> (default ∅ (d !! db_name))]> d.

(** ** What statements mean *)

Abbreviation D := (ST database).

Definition d_throw {A} (msg : bytes) : D A := st_throw (RuntimeError msg).

Definition find_table (db_name table_name : bytes) : D table :=
  d ← st_get;
  match table_at d db_name table_name with
  | Some t => mret t
  | None => d_throw (str "no such table: " ++ db_name ++ str "." ++ table_name)
  end.

Definition find_database (db_name : bytes) : D (gmap (list ascii) table) :=
  d ← st_get;
  match d !! db_name with
  | Some tables => mret tables
  | None => d_throw (str "no such database: " ++ db_name)
  end.

Definition check_type (c : ColumnDef) (name value : bytes) : outcome unit :=
  if decide (col_type c = kInt) then ValidateIntLiteral name value else Ret tt.

Definition create_database (s : CreateDatabaseStatement) : D bytes :=
  d ← st_get;
  match d !! cd_name s with
  | Some _ => d_throw (str "database already exists: " ++ cd_name s)
  | None => _ ← st_modify (<[cd_name s := ∅]>); mret (str "OK")
  end.

Definition create_table (s : CreateTableStatement) : D bytes :=
  tables ← find_database (ct_db_name s);
  match tables !! ct_table_name s with
  | Some _ => d_throw (str "table already exists: " ++ ct_db_name s ++ str "." ++ ct_table_name s)
  | None => _ ← st_modify (set_table (ct_db_name s) (ct_table_name s) (Table (ct_columns s) ∅)); mret (str "OK")
  end.

(** Every row there is gets the new column, with its default. *)
Definition add_column (s : AlterTableAddColumnStatement) : D bytes :=
  t ← find_table (at_db_name s) (at_table_name s);
  let column := at_column s in
  match ColumnIndex (col_name column) (columns t) with
  | Some _ => d_throw (str "column already exists: " ++ col_name column)
  | None =>
    match default_value column with
    | None => d_throw (str "ALTER TABLE ADD COLUMN requires a DEFAULT value")
    | Some v =>
      _ ← st_lift (check_type column (col_name column) v);
      _ ← st_modify (set_table (at_db_name s) (at_table_name s)
            (Table (columns t ++ [column]) ((fun row => row ++ [v]) <$> rows t)));
      mret (str "OK")
    end
  end.

Definition insert (s : InsertStatement) : D bytes :=
  t ← find_table (in_db_name s) (in_table_name s);
  let n := length (columns t) in
  if decide (length (in_columns s) <> n) then
    d_throw (str "INSERT must specify all " ++ to_string (N.of_nat n) ++ str " column(s) of table '" ++
             in_db_name s ++ str "." ++ in_table_name s ++ str "'")
  else
    row ← st_lift (fill_row (columns t) (in_columns s) (in_values s) (replicate n []) (replicate n false));
    pk ← st_lift (match PrimaryKeyIndex (columns t) with Some i => at_ row i | None => Undef end);
    match rows t !! pk with
    | Some _ => d_throw (str "duplicate primary key: " ++ pk)
    | None =>
      _ ← st_modify (set_table (in_db_name s) (in_table_name s) (Table (columns t) (<[pk := row]> (rows t))));
      mret (str "OK")
    end.

(** The lines of the rows that match, in the order of their keys, and how many they are. *)
Fixpoint matching_lines (cols : TableSchema) (proj : list nat) (conditions : list Condition)
    (l : list (bytes * list bytes)) : outcome (bytes * nat) :=
  match l with
  | [] => Ret ([], 0)
  | (_, row) :: l =>
    b ← MatchesWhere cols row conditions;
    if b : bool then
      fields ← pick row proj;
      rest ← matching_lines cols proj conditions l;
      Ret ([lf] ++ tab_separated fields ++ rest.1, 1 + rest.2)
    else matching_lines cols proj conditions l
  end.

Definition select (s : SelectStatement) : D bytes :=
  t ← find_table (se_db_name s) (se_table_name s);
  ph ← st_lift (projection (columns t) (se_columns s));
  r ← st_lift (matching_lines (columns t) ph.1 (se_where s) (map_entries (rows t)));
  mret (tab_separated ph.2 ++ r.1 ++ if decide (r.2 = 0) then zero_rows else []).

(** Changes the rows that match, one by one in the order of their keys; the first row on which
    the condition cannot be evaluated ends the statement. *)
Fixpoint change_rows (cols : TableSchema) (conditions : list Condition) (change : bytes -> list bytes -> D unit)
    (l : list (bytes * list bytes)) : D nat :=
  match l with
  | [] => mret 0
  | (pk, row) :: l =>
    b ← st_lift (MatchesWhere cols row conditions);
    if b : bool then _ ← change pk row; n ← change_rows cols conditions change l; mret (1 + n)
    else change_rows cols conditions change l
  end.

Definition change_table (db_name table_name : bytes) (f : table -> table) : D unit :=
  t ← find_table db_name table_name; st_modify (set_table db_name table_name (f t)).

Definition put_row (pk : bytes) (row : list bytes) (t : table) : table := Table (columns t) (<[pk := row]> (rows t)).
Definition delete_row (pk : bytes) (t : table) : table := Table (columns t) (delete pk (rows t)).

Definition update (s : UpdateStatement) : D bytes :=
  t ← find_table (up_db_name s) (up_table_name s);
  assignments ← st_lift (check_assignments (columns t) (up_assignments s));
  n ← change_rows (columns t) (up_where s) (fun pk row =>
        row ← st_lift (assign row assignments); change_table (up_db_name s) (up_table_name s) (put_row pk row))
      (map_entries (rows t));
  mret (to_string (N.of_nat n) ++ str " row(s) updated").

Definition delete_from (s : DeleteStatement) : D bytes :=
  t ← find_table (de_db_name s) (de_table_name s);
  n ← change_rows (columns t) (de_where s) (fun pk _ =>
        change_table (de_db_name s) (de_table_name s) (delete_row pk))
      (map_entries (rows t));
  mret (to_string (N.of_nat n) ++ str " row(s) deleted").

(** A header and the keys of a map, in order. *)
Definition list_names {V} (header : bytes) (m : gmap (list ascii) V) : bytes :=
  header ++ concat (map (fun e => [lf] ++ e.1) (map_entries m)) ++ match map_entries m with [] => zero_rows | _ => [] end.

Definition show_tables (s : ShowTablesStatement) : D bytes :=
  tables ← find_database (st_db_name s); mret (list_names (str "table") tables).

Definition show_databases : D bytes := d ← st_get; mret (list_names (str "database") d).

Definition run_statement (stmt : Statement) : D bytes :=
  match stmt with
  | CreateDatabase s => create_database s
  | CreateTable s => create_table s
  | AlterTableAddColumn s => add_column s
  | InsertInto s => insert s
  | Select s => select s
  | Update s => update s
  | ShowTables s => show_tables s
  | ShowDatabases => show_databases
  | DeleteFrom s => delete_from s
  end.

Definition run_sql (sql : bytes) : D bytes := stmt ← st_lift (Parse sql); run_statement stmt.

(** ** How a store represents a database *)

Definition no_slash (s : bytes) : Prop := "/"%char ∉ s.

(** What the stored form of a row is read as: rows stored before a column was added are padded. *)
Definition pads (cols : TableSchema) (raw row : list bytes) : Prop :=
  row_fits raw /\ (length raw <= length cols)%nat /\ PadRow cols raw = Ret row.

Definition row_stored (t : option table) (pk : bytes) (v : option bytes) : Prop :=
  match t ≫= (fun t => row ← rows t !! pk; Some (columns t, row)) with
  | Some (cols, row) => exists raw, v = Some (EncodeRow raw) /\ pads cols raw row
  | None => v = None
  end.

(** A table can be stored: it has a primary key, and every row has a value for every column and is
    filed under the value of its primary key. *)
Record table_ok (t : table) : Prop := {
  ok_fits : schema_fits (columns t);
  ok_pk : exists i, PrimaryKeyIndex (columns t) = Some i /\
    map_Forall (fun pk row => length row = length (columns t) /\ Forall fits32 row /\ row !! i = Some pk) (rows t);
}.

Record represents (m : gmap (list ascii) (list ascii)) (d : database) : Prop := {
  rep_databases db : m !! DatabaseKey db = (fun _ => []) <$> d !! db;
  rep_schemas db t : no_slash db -> m !! SchemaKey db t = (fun tab => Serialize (columns tab)) <$> table_at d db t;
  rep_rows db t pk : no_slash db -> no_slash t -> row_stored (table_at d db t) pk (m !! RowKey db t pk);
  rep_tables db t tab : table_at d db t = Some tab -> table_ok tab;
}.

(** *** Keys *)

Lemma split_unique {A} (c : A) a a' b b' : c ∉ a -> c ∉ a' -> a ++ c :: b = a' ++ c :: b' -> a = a' /\ b = b'.
Proof.
  revert a'. induction a as [|x a IH]; intros [|x' a'] Hn Hn'; cbn; rewrite ?elem_of_cons in *.
  - by intros [= ->].
  - intros [= -> _]. destruct Hn'. by left.
  - intros [= -> _]. destruct Hn. by left.
  - intros [= -> E]. apply IH in E as [-> ->]; [done|tauto..].
Qed.

Lemma SchemaKey_inj db db' t t' : no_slash db -> no_slash db' -> SchemaKey db t = SchemaKey db' t' -> db = db' /\ t = t'.
Proof. intros Hd Hd' E. apply app_inv_head in E. by apply (split_unique "/"%char). Qed.

Lemma RowKey_inj db db' t t' pk pk' : no_slash db -> no_slash db' -> no_slash t -> no_slash t' ->
  RowKey db t pk = RowKey db' t' pk' -> db = db' /\ t = t' /\ pk = pk'.
Proof.
  intros Hd Hd' Ht Ht' E. unfold RowKey, RowPrefix in E. rewrite <- !app_assoc in E. apply app_inv_head in E.
  apply (split_unique "/"%char) in E as [-> E]; [|done..]. by apply (split_unique "/"%char) in E as [-> ->].
Qed.

Lemma DatabaseKey_inj n n' : DatabaseKey n = DatabaseKey n' -> n = n'.
Proof. apply app_inv_head. Qed.

Lemma database_schema n db t : DatabaseKey n <> SchemaKey db t.
Proof. discriminate. Qed.
Lemma database_row n db t pk : DatabaseKey n <> RowKey db t pk.
Proof. discriminate. Qed.
Lemma schema_row db t db' t' pk : SchemaKey db t <> RowKey db' t' pk.
Proof. discriminate. Qed.

Create HintDb keys.
#[export] Hint Resolve database_schema database_row schema_row : keys.
#[export] Hint Resolve not_eq_sym : keys.

Lemma ident_no_slash s : ident s -> no_slash s.
Proof.
  unfold ident, is_identifier, no_slash. destruct s as [|c s]; [done|]. intros [Hc Hs]%andb_true_iff.
  rewrite elem_of_cons. intros [<-|Hin]; [done|].
  apply list_elem_of_In in Hin. rewrite forallb_forall in Hs. by specialize (Hs _ Hin).
Qed.

(** *** Changing a table *)

Lemma table_at_set db t tab d db' t' :
  table_at (set_table db t tab d) db' t' = if decide (db = db' /\ t = t') then Some tab else table_at d db' t'.
Proof.
  unfold table_at, set_table. destruct (decide (db = db')) as [<-|Hdb].
  - rewrite lookup_insert_eq. cbn. destruct (decide (t = t')) as [<-|Ht].
    + by rewrite lookup_insert_eq, decide_True by done.
    + rewrite lookup_insert_ne, decide_False by naive_solver. by destruct (d !! db).
  - by rewrite lookup_insert_ne, decide_False by naive_solver.
Qed.

Lemma table_at_same db t tab d : table_at (set_table db t tab d) db t = Some tab.
Proof. by rewrite table_at_set, decide_True. Qed.

Lemma table_at_database d db t tab : table_at d db t = Some tab -> is_Some (d !! db).
Proof. unfold table_at. destruct (d !! db); [by eexists|done]. Qed.

Lemma set_table_databases db t tab d db' : is_Some (d !! db) ->
  (fun _ => []) <$> set_table db t tab d !! db' = (fun _ : gmap (list ascii) table => [] : bytes) <$> d !! db'.
Proof.
  intros [tabs Hd]. unfold set_table. destruct (decide (db = db')) as [<-|Hne].
  - by rewrite lookup_insert_eq, Hd.
  - by rewrite lookup_insert_ne.
Qed.

(** A change to one table, and to keys of that table only. *)
Lemma represents_set m m' d db t tab :
  represents m d -> no_slash db -> no_slash t -> is_Some (d !! db) -> table_ok tab ->
  (forall k, k <> SchemaKey db t -> (forall pk, k <> RowKey db t pk) -> m' !! k = m !! k) ->
  m' !! SchemaKey db t = Some (Serialize (columns tab)) ->
  (forall pk, row_stored (Some tab) pk (m' !! RowKey db t pk)) ->
  represents m' (set_table db t tab d).
Proof.
  intros Hr Hdb Ht Hd Hok Hm Hs Hrows. split.
  - intros n. rewrite set_table_databases by done. rewrite Hm by auto with keys. apply Hr.
  - intros db' t' Hdb'. rewrite table_at_set. destruct (decide (db = db' /\ t = t')) as [[<- <-]|Hne]; [done|].
    rewrite Hm; [by apply Hr| |auto with keys]. intros E. apply SchemaKey_inj in E; [naive_solver|done..].
  - intros db' t' pk Hdb' Ht'. rewrite table_at_set. destruct (decide (db = db' /\ t = t')) as [[<- <-]|Hne]; [done|].
    rewrite Hm; [by apply Hr|auto with keys|]. intros pk' E. apply RowKey_inj in E; [naive_solver|done..].
  - intros db' t' tab'. rewrite table_at_set. case_decide; [by intros [= <-]|apply Hr].
Qed.

Lemma represents_database m d n : represents m d -> d !! n = None -> represents (<[DatabaseKey n := []]> m) (<[n := ∅]> d).
Proof.
  intros Hr Hn.
  assert (Ht : forall db t, table_at (<[n := ∅]> d) db t = table_at d db t).
  { intros db t. unfold table_at. destruct (decide (n = db)) as [<-|Hne]; [|by rewrite lookup_insert_ne].
    by rewrite lookup_insert_eq, Hn. }
  split.
  - intros db. destruct (decide (n = db)) as [<-|Hne]; [by rewrite !lookup_insert_eq|].
    rewrite lookup_insert_ne by (intros E; by apply DatabaseKey_inj in E). rewrite lookup_insert_ne by done. apply Hr.
  - intros db t Hdb. rewrite Ht, lookup_insert_ne by auto with keys. by apply Hr.
  - intros db t pk Hdb Htab. rewrite Ht, lookup_insert_ne by auto with keys. by apply Hr.
  - intros db t tab. rewrite Ht. apply Hr.
Qed.

Lemma row_stored_lookup tab pk v row : row_stored (Some tab) pk v -> rows tab !! pk = Some row ->
  exists raw, v = Some (EncodeRow raw) /\ pads (columns tab) raw row.
Proof. unfold row_stored. intros H E. cbn in H. by rewrite E in H. Qed.

Lemma row_stored_is_Some tab pk v : row_stored (Some tab) pk v -> is_Some v <-> is_Some (rows tab !! pk).
Proof.
  unfold row_stored. cbn. destruct (rows tab !! pk) as [row|]; cbn.
  - intros (raw & -> & _). split; by eexists.
  - by intros ->.
Qed.

Lemma pads_full cols row : row_fits row -> length row = length cols -> pads cols row row.
Proof. intros Hf Hl. split_and!; [done|lia|by apply PadRow_full]. Qed.

(** A row stored or deleted. *)
Lemma represents_put m d db t tab pk row :
  represents m d -> no_slash db -> no_slash t -> table_at d db t = Some tab -> table_ok (put_row pk row tab) ->
  represents (<[RowKey db t pk := EncodeRow row]> m) (set_table db t (put_row pk row tab) d).
Proof.
  intros Hr Hdb Ht Hat Hok. apply (represents_set m); try done.
  - by eapply table_at_database.
  - intros k Hk Hpk. apply lookup_insert_ne. naive_solver.
  - rewrite lookup_insert_ne by auto with keys. rewrite (rep_schemas _ _ Hr) by done. by rewrite Hat.
  - intros pk'. unfold row_stored. cbn. destruct (decide (pk = pk')) as [<-|Hne].
    + rewrite !lookup_insert_eq. cbn. exists row. split; [done|].
      destruct Hok as [[Hf _] (i & _ & Hrows)]. specialize (Hrows pk row). cbn in Hrows, Hf.
      rewrite lookup_insert_eq in Hrows. destruct Hrows as (Hl & Hfit & _); [done|].
      apply pads_full; [|done]. split; [|done]. unfold fits32 in *. by rewrite Hl.
    + rewrite !lookup_insert_ne by (done || (intros E; apply RowKey_inj in E; naive_solver)).
      pose proof (rep_rows _ _ Hr db t pk' Hdb Ht) as H. by rewrite Hat in H.
Qed.

Lemma represents_delete m d db t tab pk :
  represents m d -> no_slash db -> no_slash t -> table_at d db t = Some tab ->
  represents (delete (RowKey db t pk) m) (set_table db t (delete_row pk tab) d).
Proof.
  intros Hr Hdb Ht Hat. apply (represents_set m); try done.
  - by eapply table_at_database.
  - destruct (rep_tables _ _ Hr _ _ _ Hat) as [Hf (i & Hi & Hrows)]. split; [done|]. exists i. split; [done|].
    by apply map_Forall_delete.
  - intros k Hk Hpk. apply lookup_delete_ne. naive_solver.
  - rewrite lookup_delete_ne by auto with keys. rewrite (rep_schemas _ _ Hr) by done. by rewrite Hat.
  - intros pk'. unfold row_stored. cbn. destruct (decide (pk = pk')) as [<-|Hne].
    + by rewrite !lookup_delete_eq.
    + rewrite !lookup_delete_ne by (done || (intros E; apply RowKey_inj in E; naive_solver)).
      pose proof (rep_rows _ _ Hr db t pk' Hdb Ht) as H. by rewrite Hat in H.
Qed.

(** A column added. *)
Lemma push_defaults_app l c v raw row : default_value c = Some v ->
  push_defaults l raw = Ret row -> push_defaults (l ++ [c]) raw = Ret (row ++ [v]).
Proof.
  intros Hv. revert raw. induction l as [|x l IH]; intros raw; cbn; [rewrite Hv; by intros [= ->]|].
  destruct (default_value x); [apply IH|done].
Qed.

Lemma pads_add cols c v raw row : default_value c = Some v -> pads cols raw row -> pads (cols ++ [c]) raw (row ++ [v]).
Proof.
  intros Hv (Hf & Hl & Hp). split_and!; [done|rewrite length_app; lia|].
  unfold PadRow in *. rewrite drop_app_le by lia. by apply push_defaults_app.
Qed.

Lemma index_where_app {A} (f : A -> bool) l l' i : index_where f l = Some i -> index_where f (l ++ l') = Some i.
Proof.
  revert i. induction l as [|x l IH]; intros i; cbn; [done|]. destruct (f x); [done|].
  destruct (index_where f l) as [j|]; [|done]. intros [= <-]. by rewrite (IH j).
Qed.

Definition extend (c : ColumnDef) (v : bytes) (t : table) : table :=
  Table (columns t ++ [c]) ((fun row => row ++ [v]) <$> rows t).

Lemma represents_extend m d db t tab c v :
  represents m d -> no_slash db -> no_slash t -> table_at d db t = Some tab ->
  default_value c = Some v -> column_fits c -> fits32 (columns tab ++ [c]) ->
  represents (<[SchemaKey db t := Serialize (columns tab ++ [c])]> m) (set_table db t (extend c v tab) d).
Proof.
  intros Hr Hdb Ht Hat Hv Hc Hn. apply (represents_set m); try done.
  - by eapply table_at_database.
  - destruct (rep_tables _ _ Hr _ _ _ Hat) as [[_ Hf] (i & Hi & Hrows)]. split.
    { split; [done|]. apply Forall_app. by split; [|apply Forall_singleton]. }
    exists i. split; [by apply index_where_app|]. intros pk row. cbn. rewrite lookup_fmap.
    destruct (rows tab !! pk) as [row0|] eqn:E; [|done]. intros [= <-]. destruct (Hrows _ _ E) as (Hl & Hfit & Hpk).
    split_and!; [rewrite !length_app; cbn; lia| |by rewrite lookup_app_l by (by eapply lookup_lt_Some)].
    apply Forall_app. split; [done|]. apply Forall_singleton. destruct Hc as [_ Hc]. by rewrite Hv in Hc.
  - intros k Hk Hpk. by apply lookup_insert_ne.
  - by rewrite lookup_insert_eq.
  - intros pk. rewrite lookup_insert_ne by auto with keys.
    pose proof (rep_rows _ _ Hr db t pk Hdb Ht) as H. rewrite Hat in H. unfold row_stored in *. cbn in *.
    rewrite lookup_fmap. destruct (rows tab !! pk) as [row|]; cbn in *; [|done].
    destruct H as (raw & -> & Hp). exists raw. split; [done|]. by apply pads_add.
Qed.

(** *** Scans *)

Lemma bytes_ltb_prefix p a b : bytes_ltb (p ++ a) (p ++ b) = bytes_ltb a b.
Proof. induction p as [|x p IH]; cbn; [done|]. rewrite Ascii.eqb_refl, IH. unfold byte_ltb. by rewrite N.ltb_irrefl. Qed.

(** A scan of a prefix goes through a map filed under the rest of the keys. *)
Lemma scan_entries {V} (g : bytes -> V) (prefix : bytes) (m : gmap (list ascii) (list ascii)) (m' : gmap (list ascii) V) :
  (forall k : bytes, m' !! k = g <$> m !! (prefix ++ k)) ->
  map_entries m' = (fun e => (drop (length prefix) e.1, g e.2)) <$> with_prefix prefix (map_entries m).
Proof.
  intros Hm. symmetry. apply map_entries_unique.
  - pose proof (strictly_sorted_filter (fun e => starts_with e.1 prefix = true) _ (map_entries_sorted m)) as Hs.
    fold (with_prefix prefix (map_entries m)) in Hs.
    assert (Hp : Forall (fun e : bytes * bytes => starts_with e.1 prefix = true) (with_prefix prefix (map_entries m))).
    { apply Forall_forall. intros e He. unfold with_prefix in He. by apply list_elem_of_filter in He as [? _]. }
    induction Hs as [|e l Hs IH Hall]; cbn; [constructor|]. apply Forall_cons_1 in Hp as [He Hp].
    constructor; [by apply IH|]. apply Forall_fmap. apply starts_with_true in He as [r He].
    rewrite Forall_forall in Hall, Hp |- *. intros e' He'. specialize (Hall e' He'). specialize (Hp e' He').
    apply starts_with_true in Hp as [r' Hr']. unfold entry_lt in *. cbn in *.
    rewrite He, Hr' in Hall |- *. rewrite bytes_ltb_prefix in Hall. by rewrite !drop_app_length.
  - intros k x. rewrite Hm, list_elem_of_fmap. split.
    + intros ([k' v] & [= -> ->] & He). apply list_elem_of_filter in He as [Hk He]. cbn in *.
      apply starts_with_true in Hk as [r ->]. rewrite drop_app_length. apply elem_of_map_entries in He. by rewrite He.
    + destruct (m !! (prefix ++ k)) as [v|] eqn:E; [|done]. cbn. intros [= <-]. exists (prefix ++ k, v). cbn.
      rewrite drop_app_length. split; [done|]. apply list_elem_of_filter. split; [apply starts_with_app|].
      by apply elem_of_map_entries.
Qed.

Lemma map_entries_fmap {V W} (f : V -> W) (m : gmap (list ascii) V) :
  map_entries (f <$> m) = (fun e => (e.1, f e.2)) <$> map_entries m.
Proof.
  symmetry. apply map_entries_unique.
  - pose proof (map_entries_sorted m) as Hs. induction Hs as [|e l Hs IH Hall]; cbn; [constructor|].
    constructor; [done|]. by apply Forall_fmap.
  - intros k w. rewrite lookup_fmap, list_elem_of_fmap. split.
    + intros ([k' v] & [= -> ->] & He). apply elem_of_map_entries in He. cbn. by rewrite He.
    + destruct (m !! k) as [v|] eqn:E; [|done]. cbn. intros [= <-]. exists (k, v). split; [done|].
      by apply elem_of_map_entries.
Qed.

(** ** Agreement of a program on a store with one on a database *)

Definition defined {A} (o : outcome A) : Prop := match o with Undef => False | _ => True end.

(** Both give the same result, which is not undefined, and leave states related by [J]. *)
Definition agree (J : ledger -> database -> Prop) {A} (m : ST ledger A) (a : D A) (l : ledger) (d : database) : Prop :=
  (m l).1 = (a d).1 /\ defined (m l).1 /\ J (m l).2 (a d).2.

Definition rep (l : ledger) (d : database) : Prop := represents l.1 d.

Section agree.
Context (J : ledger -> database -> Prop).

Lemma agree_ret {A} (x : A) l d : J l d -> agree J (mret x) (mret x) l d.
Proof. by intros HJ. Qed.

Lemma agree_throw {A} (e : exn) l d : J l d -> agree J (st_throw e : ST ledger A) (st_throw e) l d.
Proof. by intros HJ. Qed.

Lemma agree_bind {A B} (m : ST ledger A) a (f : A -> ST ledger B) g l d :
  agree J m a l d -> (forall x l' d', J l' d' -> agree J (f x) (g x) l' d') -> agree J (m ≫= f) (a ≫= g) l d.
Proof.
  unfold agree, mbind, ST_bind. destruct (m l) as [r l'], (a d) as [r' d']. cbn.
  intros (<- & Hd & HJ) Hf. destruct r as [x|e|]; [by apply Hf|done..].
Qed.

Lemma agree_lift {A B} (o : outcome A) (f : A -> ST ledger B) (g : A -> D B) l d :
  J l d -> defined o -> (forall x, o = Ret x -> agree J (f x) (g x) l d) ->
  agree J (st_lift o ≫= f) (st_lift o ≫= g) l d.
Proof. intros HJ Ho Hf. unfold agree, mbind, ST_bind, st_lift. destruct o as [x|e|]; [by apply Hf|done..]. Qed.

(** Two computations of the same outcome. *)
Lemma agree_lift_eq {A B} (o o' : outcome A) (f : A -> ST ledger B) (g : A -> D B) l d :
  o = o' -> J l d -> defined o' -> (forall x, o' = Ret x -> agree J (f x) (g x) l d) ->
  agree J (st_lift o ≫= f) (st_lift o' ≫= g) l d.
Proof. intros ->. apply agree_lift. Qed.

Lemma agree_weaken (J' : ledger -> database -> Prop) {A} (m : ST ledger A) a l d :
  agree J' m a l d -> (forall l d, J' l d -> J l d) -> agree J m a l d.
Proof. intros (H1 & H2 & H3) HJ. split_and!; auto. Qed.
End agree.

(** The definedness of the pure parts. *)
Lemma defined_bind {A B} (o : outcome A) (f : A -> outcome B) :
  defined o -> (forall x, o = Ret x -> defined (f x)) -> defined (o ≫= f).
Proof. destruct o; cbn; auto. Qed.

Lemma at_lookup {A} (l : list A) i x : at_ l i = Ret x -> l !! i = Some x.
Proof. unfold at_. destruct (l !! i); congruence. Qed.

Lemma at_Some {A} (l : list A) i x : l !! i = Some x -> at_ l i = Ret x.
Proof. unfold at_. by intros ->. Qed.

Lemma at_defined {A} (l : list A) i : (i < length l)%nat -> defined (at_ l i).
Proof. intros Hi. unfold at_. destruct (lookup_lt_is_Some_2 l i Hi) as [x ->]. done. Qed.

Lemma ValidateIntLiteral_defined c v : defined (ValidateIntLiteral c v).
Proof. unfold ValidateIntLiteral. destruct v as [|x v]; [done|]. by repeat case_match. Qed.

Lemma check_type_defined c n v : defined (check_type c n v).
Proof. unfold check_type. case_decide; [apply ValidateIntLiteral_defined|done]. Qed.

Lemma stoll_defined s : defined (stoll s).
Proof. unfold stoll. by repeat case_match. Qed.

Lemma CompareLiterals_defined ty a op b : defined (CompareLiterals ty a op b).
Proof. destruct ty; [done|]. apply defined_bind; [apply stoll_defined|]. intros x _. by apply defined_bind; [apply stoll_defined|]. Qed.

Lemma MatchesWhere_defined cols row conds : length row = length cols -> defined (MatchesWhere cols row conds).
Proof.
  intros Hl. induction conds as [|c conds IH]; [done|]. cbn [MatchesWhere].
  destruct (ColumnIndex _ _) as [i|] eqn:Ei; [|done]. apply ColumnIndex_lt in Ei.
  apply defined_bind; [by apply at_defined|]. intros col _. apply defined_bind; [by apply at_defined; rewrite Hl|].
  intros v _. apply defined_bind; [apply CompareLiterals_defined|]. by intros [].
Qed.

Lemma project_bound cols names : defined (project cols names) /\
  forall p, project cols names = Ret p -> Forall (fun i => (i < length cols)%nat) p.
Proof.
  induction names as [|n names [IHd IH]]; cbn; [by split; [|intros p [= <-]]|].
  destruct (ColumnIndex n cols) as [i|] eqn:Ei; [|by split]. apply ColumnIndex_lt in Ei.
  destruct (project cols names) as [p|e|]; [|by split..]. split; [done|]. intros p' [= <-]. constructor; auto.
Qed.

Lemma projection_bound cols names : defined (projection cols names) /\
  forall p, projection cols names = Ret p -> Forall (fun i => (i < length cols)%nat) p.1.
Proof.
  destruct names as [|n names].
  - split; [done|]. intros p [= <-]. apply Forall_seq. cbn. lia.
  - destruct (project_bound cols (n :: names)) as [Hd Hp]. unfold projection.
    destruct (project cols (n :: names)) as [p|e|]; [|by split..]. split; [done|]. intros p' [= <-]. by apply Hp.
Qed.

Lemma pick_defined (row : list bytes) p : Forall (fun i => (i < length row)%nat) p -> defined (pick row p).
Proof.
  induction 1 as [|i p Hi Hp IH]; [done|]. cbn. apply defined_bind; [by apply at_defined|]. intros x _.
  by apply defined_bind.
Qed.

Lemma matching_lines_defined cols p conds (l : list (bytes * list bytes)) :
  Forall (fun i => (i < length cols)%nat) p -> Forall (fun e => length e.2 = length cols) l ->
  defined (matching_lines cols p conds l).
Proof.
  intros Hp. induction 1 as [|[pk row] l Hl Hls IH]; [done|]. cbn in *.
  apply defined_bind; [by apply MatchesWhere_defined|]. intros [] _; [|done].
  apply defined_bind; [apply pick_defined; by rewrite Hl|]. intros x _. by apply defined_bind.
Qed.

(** What INSERT and UPDATE make of a row. *)
Definition row_ok (cols : TableSchema) (row : list bytes) : Prop := length row = length cols /\ Forall fits32 row.

Lemma row_ok_insert cols row i v : row_ok cols row -> fits32 v -> row_ok cols (<[i := v]> row).
Proof. intros [Hl Hf] Hv. split; [by rewrite length_insert|by apply Forall_insert]. Qed.

Lemma fill_row_spec cols names values row filled :
  length names = length values -> Forall fits32 values -> row_ok cols row -> length filled = length cols ->
  defined (fill_row cols names values row filled) /\
  forall r, fill_row cols names values row filled = Ret r -> row_ok cols r.
Proof.
  revert values row filled. induction names as [|n names IH]; intros values row filled Hl Hv Hrow Hfl.
  { split; [done|]. by intros r [= <-]. }
  destruct values as [|v values]; [done|]. apply Forall_cons_1 in Hv as [Hv Hvs]. cbn [fill_row].
  destruct (ColumnIndex n cols) as [i|] eqn:Ei; [|done]. apply ColumnIndex_lt in Ei.
  destruct (lookup_lt_is_Some_2 filled i) as [f Hf]; [by rewrite Hfl|].
  destruct (lookup_lt_is_Some_2 cols i Ei) as [c Hc].
  rewrite (at_Some _ _ _ Hf). cbn [mbind outcome_bind]. destruct f; [done|].
  rewrite (at_Some _ _ _ Hc). cbn. fold (check_type c n v). pose proof (check_type_defined c n v) as Hd.
  destruct (check_type c n v); [|done..]. cbn. apply IH; [|done|by apply row_ok_insert|by rewrite length_insert].
  cbn in Hl. lia.
Qed.

Lemma check_assignments_spec cols l : Forall (fun a => fits32 a.2) l -> defined (check_assignments cols l) /\
  forall r, check_assignments cols l = Ret r ->
    Forall (fun a => (a.1 < length cols)%nat /\ PrimaryKeyIndex cols <> Some a.1 /\ fits32 a.2) r.
Proof.
  induction 1 as [|[n v] l Hv Hl [IHd IH]]; cbn in *; [by split; [|intros r [= <-]]|].
  destruct (ColumnIndex n cols) as [i|] eqn:Ei; [|done]. apply ColumnIndex_lt in Ei.
  case_decide as Hpk; [done|]. destruct (lookup_lt_is_Some_2 cols i Ei) as [c Hc].
  unfold at_. rewrite Hc. cbn. fold (check_type c n v). pose proof (check_type_defined c n v) as Hd.
  destruct (check_type c n v); [|done..]. cbn. destruct (check_assignments cols l) as [r|e|]; [|done..]. cbn.
  split; [done|]. intros r' [= <-]. constructor; [done|by apply IH].
Qed.

Lemma assign_spec cols i row l : PrimaryKeyIndex cols = Some i -> row_ok cols row ->
  Forall (fun a => (a.1 < length cols)%nat /\ PrimaryKeyIndex cols <> Some a.1 /\ fits32 a.2) l ->
  exists r, assign row l = Ret r /\ row_ok cols r /\ r !! i = row !! i.
Proof.
  intros Hi. revert row. induction l as [|[j v] l IH]; intros row Hrow Hl; [by exists row|].
  apply Forall_cons_1 in Hl as [(Hj & Hpk & Hv) Hl]. cbn in *. unfold at_.
  destruct (lookup_lt_is_Some_2 row j) as [x Hx]; [by rewrite (proj1 Hrow)|]. rewrite Hx. cbn.
  destruct (IH (<[j:=v]> row)) as (r & Hr & Hok & Hri); [by apply row_ok_insert|done|].
  exists r. split_and!; [done|done|]. rewrite Hri. apply list_lookup_insert_ne. congruence.
Qed.

(** ** The executor implements the statements *)

Section refinement.
Context (db t : bytes) (Hdb : no_slash db) (Ht : no_slash t).

Lemma agree_table {A} (f : TableSchema -> ST ledger A) (g : table -> D A) l d :
  rep l d ->
  (forall tab, table_at d db t = Some tab -> table_ok tab -> agree rep (f (columns tab)) (g tab) l d) ->
  agree rep (LoadSchema db t ≫= f) (find_table db t ≫= g) l d.
Proof.
  intros Hr Hf. unfold LoadSchema, find_table, Get, agree. rewrite !run_assoc, run_gets, run_get. cbn [kv_get ledger_KVStore]. rewrite (rep_schemas _ _ Hr) by done.
  destruct (table_at d db t) as [tab|] eqn:E; cbn [fmap option_fmap option_map].
  - pose proof (rep_tables _ _ Hr _ _ _ E) as Hok. rewrite Deserialize_Serialize.
    + exact (Hf tab eq_refl Hok).
    + apply Hok.
    + destruct (ok_pk _ Hok) as (i & Hi & _). intros Hn. by rewrite Hn in Hi.
  - done.
Qed.

(** What a scan of the rows of a table gives. *)
Definition scanned (cols : TableSchema) (e : bytes * bytes) (r : bytes * list bytes) : Prop :=
  e.1 = RowKey db t r.1 /\ exists raw, DecodeRow e.2 = Ret raw /\ PadRow cols raw = Ret r.2.

Definition padded (cols : TableSchema) (blob : bytes) : list bytes :=
  match raw ← DecodeRow blob; PadRow cols raw with Ret row => row | _ => [] end.

Lemma scan_rows m d tab : represents m d -> table_at d db t = Some tab ->
  Forall2 (scanned (columns tab)) (with_prefix (RowPrefix db t) (map_entries m)) (map_entries (rows tab)).
Proof.
  intros Hr Hat.
  assert (Hrow : forall pk, row_stored (Some tab) pk (m !! (RowPrefix db t ++ pk))).
  { intros pk. rewrite <- Hat. by apply Hr. }
  rewrite (scan_entries (padded (columns tab)) (RowPrefix db t) m).
  - apply Forall2_fmap_r, Forall_Forall2_diag, Forall_forall. intros [k v] He.
    apply list_elem_of_filter in He as [Hk He]. apply elem_of_map_entries in He. apply starts_with_true in Hk as [pk Hk].
    cbn [fst] in Hk. subst k. specialize (Hrow pk). rewrite He in Hrow. destruct (proj1 (row_stored_is_Some _ _ _ Hrow)) as [row E]; [by eexists|].
    destruct (row_stored_lookup _ _ _ _ Hrow E) as (raw & [= ->] & Hf & _ & Hp).
    split; cbn [fst snd]; [by rewrite drop_app_length|]. exists raw. unfold padded.
    rewrite (DecodeRow_EncodeRow _ Hf). cbn. by rewrite Hp.
  - intros pk. specialize (Hrow pk). revert Hrow. unfold row_stored. cbn [mbind option_bind].
    destruct (rows tab !! pk) as [row|]; [|by intros ->].
    intros (raw & -> & Hf & _ & Hp). cbn. unfold padded. rewrite (DecodeRow_EncodeRow _ Hf). cbn. by rewrite Hp.
Qed.

Lemma read_row_spec cols conds e r : scanned cols e r ->
  read_row cols conds e.2 = (b ← MatchesWhere cols r.2 conds; Ret (r.2, b)).
Proof. intros (_ & raw & Hd & Hp). unfold read_row. rewrite Hd. cbn. by rewrite Hp. Qed.
End refinement.

(** *** Statements on schemas *)

Lemma agree_create_database s l d : rep l d -> agree rep (ExecuteCreateDatabase s) (create_database s) l d.
Proof.
  intros Hr. unfold agree, ExecuteCreateDatabase, create_database, Get. rewrite run_gets, run_get.
  cbn [kv_get ledger_KVStore]. rewrite (rep_databases _ _ Hr). destruct (d !! cd_name s) eqn:E; cbn [fmap option_fmap option_map]; [done|].
  split_and!; [done|done|]. by apply represents_database.
Qed.

Lemma agree_database {A} (db : bytes) (f : unit -> ST ledger A) (g : gmap (list ascii) table -> D A) l d :
  rep l d -> (forall tables, d !! db = Some tables -> agree rep (f tt) (g tables) l d) ->
  agree rep (RequireDatabaseExists db ≫= f) (find_database db ≫= g) l d.
Proof.
  intros Hr Hf. unfold agree, RequireDatabaseExists, find_database, Get. rewrite !run_assoc, run_gets, run_get.
  cbn [kv_get ledger_KVStore]. rewrite (rep_databases _ _ Hr).
  destruct (d !! db) as [tables|] eqn:E; cbn [fmap option_fmap option_map]; [|done]. by apply Hf.
Qed.

Lemma agree_create_table s l d :
  rep l d -> no_slash (ct_db_name s) -> no_slash (ct_table_name s) -> schema_fits (ct_columns s) ->
  pk_count (ct_columns s) = 1 -> agree rep (ExecuteCreateTable s) (create_table s) l d.
Proof.
  intros Hr Hdb Ht Hf Hpk. apply agree_database; [done|]. intros tables Hd.
  unfold agree, Get. rewrite run_gets. cbn [kv_get ledger_KVStore]. rewrite (rep_schemas _ _ Hr) by done.
  assert (Hat : table_at d (ct_db_name s) (ct_table_name s) = tables !! ct_table_name s) by (unfold table_at; by rewrite Hd).
  revert Hat. destruct (tables !! ct_table_name s) as [tab|] eqn:E; intros Hat; rewrite Hat; cbn [fmap option_fmap option_map]; [done|].
  split_and!; [done|done|].
  apply (represents_set l.1 (<[SchemaKey (ct_db_name s) (ct_table_name s) := Serialize (ct_columns s)]> l.1)); try done.
  - split; [done|]. destruct (PrimaryKeyIndex (ct_columns s)) as [i|] eqn:Ei; [by exists i|].
    apply index_where_None in Ei. exfalso. revert Hpk. unfold pk_count.
    clear - Ei. induction Ei as [|c l Hc Hl IH]; [done|]. rewrite filter_cons_False; [exact IH|]. by rewrite Hc.
  - intros k Hk _. by apply lookup_insert_ne.
  - apply lookup_insert_eq.
  - intros pk. rewrite lookup_insert_ne by auto with keys.
    pose proof (rep_rows _ _ Hr _ _ pk Hdb Ht) as H. by rewrite Hat in H.
Qed.

Lemma agree_add_column s l d :
  rep l d -> no_slash (at_db_name s) -> no_slash (at_table_name s) -> column_fits (at_column s) ->
  (forall tab, table_at d (at_db_name s) (at_table_name s) = Some tab -> fits32 (columns tab ++ [at_column s])) ->
  agree rep (ExecuteAlterTableAddColumn s) (add_column s) l d.
Proof.
  intros Hr Hdb Ht Hc Hn. apply agree_table; [done..|]. intros tab Hat Hok. cbv zeta.
  destruct (ColumnIndex _ _) as [i|]; [by apply agree_throw|]. destruct (default_value _) as [v|] eqn:Ev; [|by apply agree_throw].
  apply agree_lift; [done|apply check_type_defined|]. intros [] _.
  split_and!; [done|done|]. apply (represents_extend l.1 d _ _ tab); auto.
Qed.

(** *** INSERT and SELECT *)

Lemma agree_insert s l d :
  rep l d -> no_slash (in_db_name s) -> no_slash (in_table_name s) ->
  length (in_columns s) = length (in_values s) -> Forall fits32 (in_values s) ->
  agree rep (ExecuteInsert s) (insert s) l d.
Proof.
  intros Hr Hdb Ht Hl Hf. apply agree_table; [done..|]. intros tab Hat Hok. cbv zeta.
  case_decide; [by apply agree_throw|]. set (n := length (columns tab)).
  destruct (fill_row_spec (columns tab) (in_columns s) (in_values s) (replicate n []) (replicate n false)) as [Hd Hrow];
    [done|done| |apply length_replicate|].
  { split; [apply length_replicate|]. by apply Forall_replicate. }
  apply agree_lift; [done..|]. intros row Erow. apply Hrow in Erow as [Hlen Hfit].
  destruct (ok_pk _ Hok) as (i & Hi & Hrows). rewrite Hi.
  destruct (lookup_lt_is_Some_2 row i) as [pk Hpk].
  { rewrite Hlen. apply index_where_lookup in Hi as (c & Hc & _). by eapply lookup_lt_Some. }
  rewrite (at_Some _ _ _ Hpk). unfold agree, Get. rewrite !run_lift_ret, run_gets. cbn [kv_get ledger_KVStore].
  pose proof (rep_rows _ _ Hr _ _ pk Hdb Ht) as Hst. rewrite Hat in Hst. apply row_stored_is_Some in Hst.
  destruct (l.1 !! _) as [v|], (rows tab !! pk) as [v'|] eqn:E.
  - done.
  - by destruct (proj1 Hst) as [? ?]; [eexists|].
  - by destruct (proj2 Hst) as [? ?]; [eexists|].
  - split_and!; [done|done|]. apply (represents_put l.1 d _ _ tab pk row); try done.
    split; [apply Hok|]. exists i. split; [done|]. apply map_Forall_insert_2; [done|exact Hrows].
Qed.

Lemma select_rows_spec db t cols p conds es rs : Forall2 (scanned db t cols) es rs ->
  select_rows cols p conds es = matching_lines cols p conds rs.
Proof.
  induction 1 as [|[k v] [pk row] es rs He Hes IH]; [done|]. cbn [select_rows matching_lines].
  change v with (k, v).2. rewrite (read_row_spec _ _ _ _ _ _ He). cbn [fst snd].
  destruct (MatchesWhere cols row conds) as [[]|e|]; cbn [mbind outcome_bind snd fst]; [|done..]. by rewrite IH.
Qed.

Lemma table_rows tab i : PrimaryKeyIndex (columns tab) = Some i -> table_ok tab ->
  Forall (fun e => row_ok (columns tab) e.2 /\ e.2 !! i = Some e.1) (map_entries (rows tab)).
Proof.
  intros Hi [_ (i' & Hi' & Hrows)]. simplify_eq. apply Forall_forall. intros [pk row] He.
  apply elem_of_map_entries in He. destruct (Hrows _ _ He) as (? & ? & ?). by split; [split|].
Qed.

Lemma agree_select s l d : rep l d -> no_slash (se_db_name s) -> no_slash (se_table_name s) ->
  agree rep (ExecuteSelect s) (select s) l d.
Proof.
  intros Hr Hdb Ht. apply agree_table; [done..|]. intros tab Hat Hok.
  destruct (projection_bound (columns tab) (se_columns s)) as [Hd Hp].
  apply agree_lift; [done..|]. intros p Ep. apply Hp in Ep.
  unfold agree, Scan. rewrite run_gets. cbn [kv_scan ledger_KVStore].
  rewrite (select_rows_spec _ _ _ _ _ _ _ (scan_rows _ _ Hdb Ht _ _ _ Hr Hat)).
  apply agree_lift; [done| |].
  - apply matching_lines_defined; [done|]. destruct (ok_pk _ Hok) as (i & Hi & _).
    eapply Forall_impl; [apply (table_rows tab i Hi Hok)|]. by intros e [[? _] _].
  - intros r _. by apply agree_ret.
Qed.

(** *** UPDATE and DELETE *)

(** The loop of both, over the rows of a scan. *)
Fixpoint for_matching (cols : TableSchema) (conds : list Condition) (act : bytes -> list bytes -> ST ledger unit)
    (es : list (bytes * bytes)) : ST ledger nat :=
  match es with
  | [] => mret 0
  | e :: es =>
    r ← st_lift (read_row cols conds e.2);
    if r.2 : bool then _ ← act e.1 r.1; n ← for_matching cols conds act es; mret (1 + n)
    else for_matching cols conds act es
  end.

Lemma update_rows_loop cols asg conds es l :
  update_rows cols asg conds es l =
  for_matching cols conds (fun key row => row ← st_lift (assign row asg); kv_put key (EncodeRow row)) es l.
Proof.
  revert l. induction es as [|[k v] es IH]; intros l; [done|]. cbn [update_rows for_matching fst snd].
  unfold mbind, ST_bind, st_lift. destruct (read_row _ _ _) as [[row []]|e|]; [|apply IH|done..]. cbn [fst snd].
  destruct (assign row asg) as [row'|e|]; [|done..]. cbn. by rewrite IH.
Qed.

Lemma delete_rows_loop cols conds es l :
  delete_rows cols conds es l = for_matching cols conds (fun key _ => kv_delete key) es l.
Proof.
  revert l. induction es as [|[k v] es IH]; intros l; [done|]. cbn [delete_rows for_matching fst snd].
  unfold mbind, ST_bind, st_lift. destruct (read_row _ _ _) as [[row []]|e|]; [|apply IH|done..]. cbn. by rewrite IH.
Qed.

(** During the loop the columns of the table stay. *)
Definition in_loop (db t : bytes) (cols : TableSchema) (l : ledger) (d : database) : Prop :=
  rep l d /\ exists tab, table_at d db t = Some tab /\ columns tab = cols.

Lemma for_matching_agree db t cols conds act change (P : bytes * list bytes -> Prop) es rs l d :
  Forall2 (scanned db t cols) es rs -> Forall P rs -> (forall r, P r -> length r.2 = length cols) ->
  (forall pk row l d, P (pk, row) -> in_loop db t cols l d ->
     agree (in_loop db t cols) (act (RowKey db t pk) row) (change pk row) l d) ->
  in_loop db t cols l d ->
  agree (in_loop db t cols) (for_matching cols conds act es) (change_rows cols conds change rs) l d.
Proof.
  intros Hs HP Hlen Hact. revert l d. induction Hs as [|[k v] [pk row] es rs He Hes IH]; intros l d HJ; [by apply agree_ret|].
  apply Forall_cons_1 in HP as [HP HPs]. cbn [for_matching change_rows]. pose proof (proj1 He) as Hk. cbn in Hk. subst k.
  rewrite (read_row_spec _ _ _ _ _ _ He). cbn [fst snd].
  pose proof (MatchesWhere_defined cols row conds (Hlen _ HP)) as Hd.
  destruct (MatchesWhere cols row conds) as [b|e|]; [|by apply agree_throw|done].
  cbn [mbind outcome_bind]. unfold agree. rewrite !run_lift_ret. cbn [fst snd]. destruct b; [|by apply IH].
  apply agree_bind; [by apply Hact|]. intros [] l' d' HJ'. apply agree_bind; [by apply IH|]. intros n l2 d2 HJ2. by apply agree_ret.
Qed.

(** One row changed, by the executor and in the table. *)
Lemma agree_change db t cols f (m : ST ledger unit) l d :
  no_slash db -> no_slash t -> in_loop db t cols l d -> (forall tab, columns (f tab) = columns tab) ->
  (forall tab, table_at d db t = Some tab -> columns tab = cols -> table_ok tab ->
     exists l', m l = (Ret tt, l') /\ rep l' (set_table db t (f tab) d)) ->
  agree (in_loop db t cols) m (change_table db t f) l d.
Proof.
  intros Hdb Ht (Hr & tab & Hat & Hc) Hf Hm. destruct (Hm tab Hat Hc (rep_tables _ _ Hr _ _ _ Hat)) as (l' & E & Hr').
  unfold agree, change_table, find_table. rewrite E, run_assoc, run_get, Hat. split_and!; [done|done|]. cbn. split; [done|].
  exists (f tab). split; [apply table_at_same|]. by rewrite Hf.
Qed.

Lemma agree_update s l d : rep l d -> no_slash (up_db_name s) -> no_slash (up_table_name s) ->
  Forall (fun a => fits32 a.2) (up_assignments s) -> agree rep (ExecuteUpdate s) (update s) l d.
Proof.
  intros Hr Hdb Ht Hf. apply agree_table; [done..|]. intros tab Hat Hok.
  destruct (check_assignments_spec (columns tab) (up_assignments s) Hf) as [Hd Ha].
  apply agree_lift; [done..|]. intros asg Easg. apply Ha in Easg. destruct (ok_pk _ Hok) as (i & Hi & _).
  unfold agree, Scan. rewrite run_gets. cbn [kv_scan ledger_KVStore].
  apply (agree_weaken rep (in_loop (up_db_name s) (up_table_name s) (columns tab))); [|by intros ? ? [? _]].
  apply agree_bind; [|by intros; apply agree_ret].
  unfold agree. rewrite update_rows_loop. eapply for_matching_agree.
  - exact (scan_rows _ _ Hdb Ht _ _ _ Hr Hat).
  - exact (table_rows tab i Hi Hok).
  - by intros r [[? _] _].
  - intros pk row l' d' [Hrow Hpk] HJ. destruct (assign_spec _ _ _ _ Hi Hrow Easg) as (row' & Er & Hrow' & Hpk'). cbn in Hpk.
    unfold agree. cbn [fst snd] in Er. rewrite Er, !run_lift_ret. apply agree_change; [done..|].
    intros tab' Hat' Hc Hok'. eexists. split; [reflexivity|]. apply (represents_put l'.1); [apply HJ|done..|].
    split; [apply Hok'|]. exists i. cbn. rewrite Hc. split; [done|]. destruct (ok_pk _ Hok') as (i' & Hi' & Hrows).
    rewrite Hc in Hi', Hrows. simplify_eq. apply map_Forall_insert_2; [|done]. destruct Hrow'. split_and!; [done|done|].
    by rewrite Hpk'.
  - split; [done|]. by exists tab.
Qed.

Lemma agree_delete s l d : rep l d -> no_slash (de_db_name s) -> no_slash (de_table_name s) ->
  agree rep (ExecuteDelete s) (delete_from s) l d.
Proof.
  intros Hr Hdb Ht. apply agree_table; [done..|]. intros tab Hat Hok. destruct (ok_pk _ Hok) as (i & Hi & _).
  unfold agree, Scan. rewrite run_gets. cbn [kv_scan ledger_KVStore].
  apply (agree_weaken rep (in_loop (de_db_name s) (de_table_name s) (columns tab))); [|by intros ? ? [? _]].
  apply agree_bind; [|by intros; apply agree_ret].
  unfold agree. rewrite delete_rows_loop. eapply for_matching_agree.
  - exact (scan_rows _ _ Hdb Ht _ _ _ Hr Hat).
  - exact (table_rows tab i Hi Hok).
  - by intros r [[? _] _].
  - intros pk row l' d' _ HJ. apply agree_change; [done..|]. intros tab' Hat' Hc Hok'. eexists. split; [reflexivity|].
    apply (represents_delete l'.1); [apply HJ|done..].
  - split; [done|]. by exists tab.
Qed.

(** *** SHOW *)

Lemma list_names_scan {V} (header prefix : bytes) (l : ledger) (m' : gmap (list ascii) V) :
  (forall k : bytes, is_Some (m' !! k) <-> is_Some (l.1 !! (prefix ++ k))) ->
  list_keys header prefix l = (Ret (list_names header m'), l).
Proof.
  intros Hm. unfold list_keys, Scan. rewrite run_gets. cbn [kv_scan ledger_KVStore]. unfold list_names.
  assert (Hkeys : (map_entries m').*1 = (fun e => drop (length prefix) e.1) <$> with_prefix prefix (map_entries l.1)).
  { assert (E : map_entries ((fun _ => tt) <$> m') =
      (fun e => (drop (length prefix) e.1, tt)) <$> with_prefix prefix (map_entries l.1)).
    { apply (scan_entries (fun _ => tt)). intros k. rewrite lookup_fmap. specialize (Hm k).
      destruct (m' !! k), (l.1 !! (prefix ++ k)); cbn; try done.
      - by destruct (proj1 Hm) as [? ?]; [eexists|].
      - by destruct (proj2 Hm) as [? ?]; [eexists|]. }
    rewrite map_entries_fmap in E. apply (f_equal (fmap fst)) in E. rewrite <- !list_fmap_compose in E. exact E. }
  set (es := with_prefix prefix (map_entries l.1)) in *. clearbody es.
  replace (map (fun e => [lf] ++ e.1) (map_entries m')) with (map (fun k : bytes => [lf] ++ k) (map_entries m').*1)
    by (rewrite map_map; done).
  rewrite Hkeys. replace (map (fun k : bytes => [lf] ++ k) ((fun e => drop (length prefix) e.1) <$> es))
    with (map (fun e : bytes * bytes => [lf] ++ drop (length prefix) e.1) es) by (symmetry; apply map_map).
  by destruct es, (map_entries m').
Qed.

Lemma agree_show_databases l d : rep l d -> agree rep ExecuteShowDatabases show_databases l d.
Proof.
  intros Hr. unfold agree, ExecuteShowDatabases, show_databases. rewrite run_get.
  rewrite (list_names_scan _ _ _ d); [done|]. intros k. change (kDatabasePrefix ++ k) with (DatabaseKey k).
  rewrite (rep_databases _ _ Hr). symmetry. apply fmap_is_Some.
Qed.

Lemma agree_show_tables s l d : rep l d -> no_slash (st_db_name s) -> agree rep (ExecuteShowTables s) (show_tables s) l d.
Proof.
  intros Hr Hdb. apply agree_database; [done|]. intros tables Hd. unfold agree.
  rewrite (list_names_scan _ _ _ tables); [done|]. intros k. rewrite <- !app_assoc.
  change (kSchemaPrefix ++ st_db_name s ++ str "/" ++ k) with (SchemaKey (st_db_name s) k).
  rewrite (rep_schemas _ _ Hr) by done. unfold table_at. rewrite Hd. symmetry. apply fmap_is_Some.
Qed.

(** *** All statements *)

(** What fits the 32-bit lengths. *)
Definition stmt_fits (d : database) (stmt : Statement) : Prop :=
  match stmt with
  | CreateTable s => schema_fits (ct_columns s)
  | AlterTableAddColumn s => column_fits (at_column s) /\
      match table_at d (at_db_name s) (at_table_name s) with
      | Some t => fits32 (columns t ++ [at_column s])
      | None => True
      end
  | InsertInto s => Forall fits32 (in_values s)
  | Update s => Forall (fun a => fits32 a.2) (up_assignments s)
  | _ => True
  end.

#[export] Instance fits32_dec {A} (l : list A) : Decision (fits32 l) := decide (_ < _)%N.
#[export] Instance column_fits_dec c : Decision (column_fits c).
Proof. unfold column_fits. destruct (default_value c); apply _. Defined.
#[export] Instance stmt_fits_dec d stmt : Decision (stmt_fits d stmt).
Proof. destruct stmt; try apply _. cbn. destruct (table_at _ _ _); apply _. Defined.

Lemma agree_statement stmt l d : rep l d -> stmt_good stmt -> stmt_fits d stmt ->
  agree rep (ExecuteStatement stmt) (run_statement stmt) l d.
Proof.
  intros Hr [Hok Hn] Hf.
  assert (Hns : Forall no_slash (stmt_names stmt)) by (eapply Forall_impl; [exact Hn|apply ident_no_slash]).
  destruct stmt as [s|s|s|s|s|s|s|s|]; cbn in Hns; repeat (apply Forall_cons_1 in Hns as [? Hns]); cbn in Hok, Hf.
  - apply agree_create_table; tauto.
  - apply agree_insert; tauto.
  - by apply agree_select.
  - by apply agree_update.
  - by apply agree_delete.
  - apply agree_add_column; [tauto..|]. intros t Ht. destruct Hf as [_ Hf]. by rewrite Ht in Hf.
  - by apply agree_show_tables.
  - by apply agree_create_database.
  - by apply agree_show_databases.
Qed.

Definition sql_fits (d : database) (sql : bytes) : Prop :=
  match Parse sql with Ret stmt => stmt_fits d stmt | _ => True end.

Lemma agree_sql sql l d : rep l d -> sql_fits d sql -> agree rep (Execute sql) (run_sql sql) l d.
Proof.
  intros Hr Hf. unfold sql_fits in Hf. pose proof (Parse_good sql) as Hp.
  apply agree_lift; [done| |].
  - by destruct (Parse sql).
  - intros stmt E. rewrite E in Hf, Hp. by apply agree_statement.
Qed.

(** *** Sessions *)

(** [try { .. } catch (..) { .. }] around each statement: what it returned or threw. *)
Definition attempt {S A} (m : ST S A) : ST S (outcome A) := fun s => let '(r, s') := m s in (Ret r, s').

Fixpoint session {S} (exec : bytes -> ST S bytes) (sqls : list bytes) : ST S (list (outcome bytes)) :=
  match sqls with
  | [] => mret []
  | sql :: sqls => r ← attempt (exec sql); rs ← session exec sqls; mret (r :: rs)
  end.

Fixpoint session_fits (d : database) (sqls : list bytes) : Prop :=
  match sqls with
  | [] => True
  | sql :: sqls => sql_fits d sql /\ session_fits (run_sql sql d).2 sqls
  end.

#[export] Instance session_fits_dec d sqls : Decision (session_fits d sqls).
Proof.
  revert d. induction sqls as [|sql sqls IH]; intros d; [apply _|]. cbn. unfold sql_fits.
  destruct (Parse sql); apply _.
Defined.

Lemma agree_session sqls l d : rep l d -> session_fits d sqls ->
  agree (fun l d => rep l d) (session Execute sqls) (session run_sql sqls) l d /\
  forall rs, (session run_sql sqls d).1 = Ret rs -> Forall defined rs.
Proof.
  revert l d. induction sqls as [|sql sqls IH]; intros l d Hr Hf; [split; [by apply agree_ret|by intros rs [= <-]]|].
  destruct Hf as [Hf Hfs]. destruct (agree_sql sql l d Hr Hf) as (E & Hd & HJ).
  unfold agree in *. cbn [session]. unfold mbind, ST_bind, attempt.
  destruct (Execute sql l) as [r l'] eqn:El, (run_sql sql d) as [r' d']. cbn in E, Hd, HJ, Hfs. subst r'.
  destruct (IH l' d' HJ Hfs) as [(E2 & Hd2 & HJ2) Hrs].
  destruct (session Execute sqls l') as [o l2], (session run_sql sqls d') as [o' d2]. cbn in *. subst o'.
  destruct o as [rs|e|]; cbn; [|done..]. split; [done|]. intros rs' [= <-]. constructor; auto.
Qed.
