(* ===== verification/SqlSpec.v ===== *)
(** * What the SQL executor guarantees

    On any key-value store with room, a session of SQL texts gives the answers of the database
    the store represents; the row a statement is routed by is the row it touches. *)

From Stdlib Require Import NArith ZArith Lia.
From S2P Require Export Database.

(** ** The executor on any store *)

Section any_store.
Context {S : Type} `{KVStoreLaws S}.

Lemma sim_update_rows cols asg conds es : sim (update_rows (S:=S) cols asg conds es) (update_rows cols asg conds es).
Proof.
  induction es as [|[k v] es IH]; [apply sim_ret|]. cbn [update_rows]. apply sim_bind; [apply sim_lift|].
  intros [row []]; [|exact IH]. apply sim_bind; [apply sim_lift|]. intros row'. apply sim_bind; [apply sim_put|].
  intros []. apply sim_bind; [exact IH|]. intros n. apply sim_ret.
Qed.

Lemma sim_delete_rows cols conds es : sim (delete_rows (S:=S) cols conds es) (delete_rows cols conds es).
Proof.
  induction es as [|[k v] es IH]; [apply sim_ret|]. cbn [delete_rows]. apply sim_bind; [apply sim_lift|].
  intros [row []]; [|exact IH]. apply sim_bind; [apply sim_delete|].
  intros []. apply sim_bind; [exact IH|]. intros n. apply sim_ret.
Qed.

Hint Resolve sim_update_rows sim_delete_rows : sim.

Lemma sim_LoadSchema db t : sim (LoadSchema (S:=S) db t) (LoadSchema db t).
Proof. unfold LoadSchema, Get, e_throw. sim. Qed.

Lemma sim_list_keys header prefix : sim (list_keys (S:=S) header prefix) (list_keys header prefix).
Proof. unfold list_keys, Scan. sim. Qed.

Lemma sim_Require db : sim (RequireDatabaseExists (S:=S) db) (RequireDatabaseExists db).
Proof. unfold RequireDatabaseExists, Get, e_throw. sim. Qed.

Hint Resolve sim_LoadSchema sim_list_keys sim_Require : sim.

Lemma sim_statement stmt : sim (ExecuteStatement (S:=S) stmt) (ExecuteStatement stmt).
Proof.
  destruct stmt; cbn [ExecuteStatement];
    unfold ExecuteCreateDatabase, ExecuteCreateTable, ExecuteAlterTableAddColumn, ExecuteInsert, ExecuteSelect,
      ExecuteUpdate, ExecuteDelete, ExecuteShowTables, ExecuteShowDatabases, Get, Scan, e_throw; sim.
Qed.

Lemma sim_attempt {A} (m : ST S A) m' : sim m m' -> sim (attempt m) (attempt m').
Proof.
  intros [H1 H2]. unfold attempt. split.
  - intros l. specialize (H1 l). by destruct (m' l).
  - intros c0 b s. specialize (H2 c0 b s). destruct (m' _) as [r [c n]]. intros Hok.
    destruct (H2 Hok) as (s' & -> & ?). by exists s'.
Qed.

Lemma sim_session sqls : sim (session (S:=S) Execute sqls) (session Execute sqls).
Proof.
  induction sqls as [|sql sqls IH]; [apply sim_ret|]. cbn [session]. apply sim_bind.
  - apply sim_attempt. apply sim_bind; [apply sim_lift|]. apply sim_statement.
  - intros r. apply sim_bind; [exact IH|]. intros rs. apply sim_ret.
Qed.
End any_store.

(** The bytes a session writes to a store with the given contents. *)
Definition session_cost (contents : gmap (list ascii) (list ascii)) (sqls : list bytes) : N :=
  (session Execute sqls (contents, 0%N)).2.2.

(** ** Properties *)

(** C1: a session of SQL texts on any key-value store that represents a database gives, text by
    text, the answers and the errors of that database, and leaves the store representing the
    database it results in; no text, whatever its bytes, is undefined behaviour.  On the
    database side there are no keys and no encodings, a statement on a missing table or column
    fails, and ALTER TABLE gives every row its new value at once, where the code pads old rows
    as it reads them. *)
Theorem sql_refines_database {S} `{KVStoreLaws S} b (s : S) d sqls :
  represents (kv_contents s) d -> session_fits d sqls -> kv_ok (b + session_cost (kv_contents s) sqls) s ->
  exists s' rs, session Execute sqls s = (Ret rs, s') /\ (session run_sql sqls d).1 = Ret rs /\
    Forall defined rs /\ kv_ok b s' /\ represents (kv_contents s') (session run_sql sqls d).2.
Proof.
  intros Hr Hf Hok. destruct (agree_session sqls (kv_contents s, 0%N) d Hr Hf) as [(E & Hd & HJ) Hrs].
  pose proof (proj2 (sim_session (S:=S) sqls) 0%N b s) as Hsim. unfold session_cost, ledger in *.
  destruct (session Execute sqls (kv_contents s, 0%N)) as [r [contents c]]. cbn [fst snd] in *.
  rewrite N.sub_0_r in Hsim. destruct (Hsim Hok) as (s' & Es & Hok' & Hc).
  destruct (session run_sql sqls d) as [r' d']. cbn in *. subst r'. unfold rep in HJ. cbn in HJ. rewrite <- Hc in HJ.
  destruct r as [rs|e|]; [exists s', rs; auto| |done]. exfalso. clear - Es. revert s Es.
  induction sqls as [|sql sqls IH]; intros s; [done|]. cbn. unfold mbind, ST_bind, attempt.
  destruct (Execute sql s) as [o s1]. destruct (session Execute sqls s1) as [[rs|e'|] s2] eqn:E2; [done| |done].
  intros [= -> ->]. by apply IH in E2.
Qed.

Definition demo_session : list bytes :=
  [ str "create database shop";
    str "create table shop.items (id INT PRIMARY KEY, name TEXT)";
    str "insert into shop.items (id, name) values (7, 'pen')";
    str "alter table shop.items add column stock INT default 3";
    str "insert into shop.items (stock, name, id) values (-1, 'ink', 12)";
    str "update shop.items set name = 'pencil' where stock >= 0";
    str "select name, stock from shop.items";
    str "insert into shop.items (id, name, stock) values (7, 'x', 0)";
    str "delete from shop.items where id < 10";
    str "select * from shop.items where name = 'pencil'";
    str "show tables from shop" ].

Definition ok (s : bytes) : outcome bytes := Ret s.
Definition error (s : bytes) : outcome bytes := throw_rt s.

Definition demo_answers : list (outcome bytes) :=
  [ ok (str "OK"); ok (str "OK"); ok (str "OK"); ok (str "OK"); ok (str "OK");
    ok (str "1 row(s) updated");
    ok (tab_separated [str "name"; str "stock"] ++ [lf] ++ tab_separated [str "ink"; str "-1"] ++ [lf] ++
        tab_separated [str "pencil"; str "3"]);
    error (str "duplicate primary key: 7");
    ok (str "1 row(s) deleted");
    ok (tab_separated [str "id"; str "name"; str "stock"] ++ zero_rows);
    ok (str "table" ++ [lf] ++ str "items") ].

Lemma represents_empty : represents ∅ ∅.
Proof. by split. Qed.

Lemma sql_refines_database_witness : exists s' rs,
  session Execute demo_session (∅ : gmap (list ascii) (list ascii)) = (Ret rs, s') /\ rs = demo_answers.
Proof.
  destruct (sql_refines_database 0 (∅ : gmap (list ascii) (list ascii)) ∅ demo_session) as (s' & rs & E & Er & _).
  - exact represents_empty.
  - apply (bool_decide_unpack _). vm_compute. exact I.
  - exact I.
  - exists s', rs. split; [exact E|]. revert Er. vm_compute. intros [= <-]. reflexivity.
Defined.

(** ** Rows and their keys *)

Lemma index_where_first {A} (f : A -> bool) l i j x :
  index_where f l = Some i -> (j < i)%nat -> l !! j = Some x -> f x = false.
Proof.
  revert i j. induction l as [|y l IH]; intros i j; [done|]. cbn. destruct (f y) eqn:E; [intros [= <-]; lia|].
  destruct (index_where f l) as [k|]; [|done]. intros [= <-] Hj. destruct j as [|j]; [by intros [= ->]|].
  cbn. apply (IH k); [done|lia].
Qed.

Lemma ColumnIndex_name n cols i : ColumnIndex n cols = Some i -> exists c, cols !! i = Some c /\ col_name c = n.
Proof. intros (c & Hc & Hn)%index_where_lookup. exists c. split; [done|]. by apply bool_decide_eq_true in Hn. Qed.

(** What the loop of INSERT fills. *)
Lemma fill_row_fills cols names values row filled r :
  fill_row cols names values row filled = Ret r -> length names = length values -> length row = length filled ->
  exists idxs, Forall2 (fun n i => ColumnIndex n cols = Some i) names idxs /\ NoDup idxs /\
    Forall (fun i => filled !! i = Some false) idxs /\
    (forall j i, idxs !! j = Some i -> r !! i = values !! j) /\ (forall i, i ∉ idxs -> r !! i = row !! i).
Proof.
  revert values row filled. induction names as [|n names IH]; intros values row filled Hf Hl Hlen; cbn in Hf.
  { injection Hf as <-. exists []. split_and!; [done|constructor|done|done|done]. }
  destruct values as [|v values]; [done|]. destruct (ColumnIndex n cols) as [i|] eqn:Ei; [|done].
  destruct (at_ filled i) as [f|e|] eqn:Ef; [|done..]. apply at_lookup in Ef. cbn in Hf. destruct f; [done|].
  destruct (at_ cols i) as [c|e|]; [|done..]. cbn in Hf. destruct (if decide _ then _ else _) as [[]|e|]; [|done..]. cbn in Hf.
  assert (Hi : (i < length filled)%nat) by (by eapply lookup_lt_Some).
  destruct (IH _ _ _ Hf) as (idxs & H2 & Hnd & Hfl & Hin & Hout); [by injection Hl|by rewrite !length_insert|].
  assert (Hni : i ∉ idxs).
  { intros Hin'. rewrite Forall_forall in Hfl. specialize (Hfl i Hin'). by rewrite list_lookup_insert_eq in Hfl. }
  exists (i :: idxs). split_and!.
  - by constructor.
  - by constructor.
  - constructor; [done|]. rewrite Forall_forall in Hfl |- *. intros k Hk. specialize (Hfl k Hk).
    rewrite list_lookup_insert_ne in Hfl; [done|]. by intros ->.
  - intros [|j] k; cbn; [|apply Hin]. intros [= <-]. rewrite Hout by done. apply list_lookup_insert_eq. by rewrite Hlen.
  - intros k. rewrite not_elem_of_cons. intros [Hk Hks]. rewrite Hout by done. by apply list_lookup_insert_ne.
Qed.

(** An INSERT that succeeds names every column once, and stores each value under its column. *)
Lemma insert_spec s d a d' : length (in_columns s) = length (in_values s) -> insert s d = (Ret a, d') ->
  exists tab row i pk idxs, table_at d (in_db_name s) (in_table_name s) = Some tab /\
    PrimaryKeyIndex (columns tab) = Some i /\ row !! i = Some pk /\ rows tab !! pk = None /\
    d' = set_table (in_db_name s) (in_table_name s) (put_row pk row tab) d /\
    Forall2 (fun n i => ColumnIndex n (columns tab) = Some i) (in_columns s) idxs /\
    (forall j i, idxs !! j = Some i -> row !! i = in_values s !! j) /\
    (forall i, (i < length (columns tab))%nat -> i ∈ idxs) /\ NoDup idxs.
Proof.
  intros Hlen. unfold insert, find_table. rewrite run_assoc, run_get.
  destruct (table_at _ _ _) as [tab|]; [|done]. rewrite run_ret. cbv zeta. case_decide as Hn; [done|].
  destruct (fill_row _ _ _ _ _) as [row|e|] eqn:Ef; [|done..]. rewrite run_lift_ret.
  destruct (PrimaryKeyIndex _) as [i|] eqn:Ei; [|done]. destruct (at_ row i) as [pk|e|] eqn:Epk; [|done..]. rewrite run_lift_ret.
  destruct (rows tab !! pk) eqn:Er; [done|]. intros [= _ <-]. apply at_lookup in Epk.
  destruct (fill_row_fills _ _ _ _ _ _ Ef Hlen) as (idxs & H2 & Hnd & Hfl & Hin & _); [by rewrite !length_replicate|].
  exists tab, row, i, pk, idxs. split_and!; try done. intros k Hk.
  assert (Hs : idxs ≡ₚ seq 0 (length (columns tab))).
  { apply submseteq_length_Permutation.
    - apply NoDup_submseteq; [done|]. intros x Hx. rewrite Forall_forall in Hfl. specialize (Hfl x Hx).
      apply lookup_lt_Some in Hfl. rewrite length_replicate in Hfl. apply elem_of_seq. lia.
    - rewrite length_seq, <- (Forall2_length _ _ _ H2), Hn. done. }
  rewrite Hs. apply elem_of_seq. lia.
Qed.

(** Equal columns names: the second is never found. *)
Lemma second_column_hidden cols i j c c' n : cols !! i = Some c -> cols !! j = Some c' -> (i < j)%nat ->
  col_name c = col_name c' -> ColumnIndex n cols <> Some j.
Proof.
  intros Hi Hj Hlt Hn Hx. destruct (ColumnIndex_name _ _ _ Hx) as (c'' & Hc & <-). simplify_eq.
  pose proof (index_where_first _ _ _ _ _ Hx Hlt Hi) as Hf. cbn in Hf. apply bool_decide_eq_false in Hf. by destruct Hf.
Qed.

Lemma ColumnIndex_own cols i c : NoDup (map col_name cols) -> cols !! i = Some c -> ColumnIndex (col_name c) cols = Some i.
Proof.
  intros Hnd Hc. destruct (ColumnIndex (col_name c) cols) as [k|] eqn:E.
  - destruct (ColumnIndex_name _ _ _ E) as (c' & Hc' & Hn). f_equal.
    apply (NoDup_lookup (map col_name cols) k i (col_name c)); [done|..].
    + change (map col_name cols) with (col_name <$> cols). rewrite list_lookup_fmap, Hc'. cbn. by rewrite Hn.
    + change (map col_name cols) with (col_name <$> cols). by rewrite list_lookup_fmap, Hc.
  - apply index_where_None in E. apply list_elem_of_lookup_2 in Hc. rewrite Forall_forall in E. specialize (E _ Hc).
    apply bool_decide_eq_false in E. by destruct E.
Qed.

Lemma MatchesWhere_true cols row conds : MatchesWhere cols row conds = Ret true ->
  Forall (fun cond => exists i c v, ColumnIndex (cond_column cond) cols = Some i /\ cols !! i = Some c /\ row !! i = Some v /\
    CompareLiterals (col_type c) v (cond_op cond) (cond_literal cond) = Ret true) conds.
Proof.
  induction conds as [|cond conds IH]; [constructor|]. cbn [MatchesWhere]. destruct (ColumnIndex _ _) as [i|] eqn:Ei; [|done].
  destruct (at_ cols i) as [c|e|] eqn:Ec; [|done..]. destruct (at_ row i) as [v|e|] eqn:Ev; [|done..]. cbn.
  destruct (CompareLiterals _ _ _ _) as [[]|e|] eqn:E; cbn; [|done..]. intros H. constructor; [|by apply IH].
  apply at_lookup in Ec, Ev. by exists i, c, v.
Qed.

Lemma compare_bytes_eq a b : compare_bytes a b = Eq -> a = b.
Proof.
  unfold compare_bytes. destruct (bytes_ltb a b) eqn:E1; [done|]. destruct (bytes_ltb b a) eqn:E2; [done|]. intros _.
  destruct (decide (a = b)) as [|Hne]; [done|]. by destruct (bytes_ltb_total a b Hne); congruence.
Qed.

(** The primary key a condition pins, in a row that matches. *)
Lemma FindPkEquality_row cols conds v i c row : NoDup (map col_name cols) ->
  PrimaryKeyIndex cols = Some i -> cols !! i = Some c -> col_type c = kText ->
  FindPkEquality cols conds = Ret (Some v) -> MatchesWhere cols row conds = Ret true -> row !! i = Some v.
Proof.
  intros Hnd Hi Hc Hty. unfold FindPkEquality. rewrite Hi, (at_Some _ _ _ Hc). cbn. intros [= Hv] Hm.
  destruct (filter _ conds) as [|cond l] eqn:Ef; [done|]. cbn in Hv. injection Hv as <-.
  assert (Hin : cond ∈ filter (fun cond => cond_column cond = col_name c /\ cond_op cond = kEq) conds) by (rewrite Ef; left).
  apply list_elem_of_filter in Hin as [[Hcol Hop] Hin]. apply MatchesWhere_true in Hm. rewrite Forall_forall in Hm.
  destruct (Hm _ Hin) as (i' & c' & x & Hi' & Hc' & Hx & Hcmp). rewrite Hcol, (ColumnIndex_own cols i c) in Hi' by done.
  simplify_eq. rewrite Hty, Hop in Hcmp. cbn in Hcmp. injection Hcmp as Hcmp.
  destruct (compare_bytes x (cond_literal cond)) eqn:E; [|done..]. apply compare_bytes_eq in E. by subst.
Qed.

(** What a row statement was routed by. *)
Definition where_of (stmt : Statement) : option (bytes * bytes * list Condition) :=
  match stmt with
  | Select s => Some (se_db_name s, se_table_name s, se_where s)
  | Update s => Some (up_db_name s, up_table_name s, up_where s)
  | DeleteFrom s => Some (de_db_name s, de_table_name s, de_where s)
  | _ => None
  end.

Section row_key.
Context {S : Type} `{KVStoreLaws S} (b : N) (s : S) (d : database) (Hr : represents (kv_contents s) d) (Hok : kv_ok b s).

Lemma LoadSchema_represents db t : no_slash db ->
  LoadSchema db t s = (match table_at d db t with
    | Some tab => Ret (columns tab)
    | None => throw_rt (str "no such table: " ++ db ++ str "." ++ t) end, s).
Proof.
  intros Hdb. unfold LoadSchema, Get. rewrite run_gets, (kv_get_spec _ _ _ Hok), (rep_schemas _ _ Hr) by done.
  destruct (table_at d db t) as [tab|] eqn:E; cbn [fmap option_fmap option_map]; [|done].
  destruct (rep_tables _ _ Hr _ _ _ E) as [Hf (i & Hi & _)]. unfold st_lift. rewrite Deserialize_Serialize; [done..|].
  intros Hn. by rewrite Hn in Hi.
Qed.

Lemma row_key_of_where_spec db t conds key : no_slash db ->
  (st_catch (row_key_of_where db t conds) (fun _ => mret None) s).1 = Ret (Some key) ->
  exists tab v, table_at d db t = Some tab /\ FindPkEquality (columns tab) conds = Ret (Some v) /\ key = RowKey db t v.
Proof.
  intros Hdb. unfold st_catch, row_key_of_where, mbind, ST_bind. rewrite LoadSchema_represents by done.
  destruct (table_at d db t) as [tab|]; [|done]. unfold st_lift.
  destruct (FindPkEquality (columns tab) conds) as [[v|]|e|] eqn:E; [|done..]. intros [= <-]. by exists tab, v.
Qed.

Lemma row_key_of_insert_spec i key : no_slash (in_db_name i) ->
  (st_catch (row_key_of_insert i) (fun _ => mret None) s).1 = Ret (Some key) ->
  exists tab p c j v, table_at d (in_db_name i) (in_table_name i) = Some tab /\ PrimaryKeyIndex (columns tab) = Some p /\
    columns tab !! p = Some c /\ in_columns i !! j = Some (col_name c) /\ in_values i !! j = Some v /\
    key = RowKey (in_db_name i) (in_table_name i) v.
Proof.
  intros Hdb. unfold st_catch, row_key_of_insert, mbind, ST_bind. rewrite LoadSchema_represents by done.
  destruct (table_at d _ _) as [tab|]; [|done]. unfold st_lift. destruct (PrimaryKeyIndex _) as [p|] eqn:Ep; [|done].
  destruct (at_ (columns tab) p) as [c|e|] eqn:Ec; [|done..]. apply at_lookup in Ec.
  destruct (index_where _ (in_columns i)) as [j|] eqn:Ej; [|done]. apply index_where_lookup in Ej as (n & Hn & En).
  apply bool_decide_eq_true in En as ->. destruct (at_ (in_values i) j) as [v|e|] eqn:Ev; [|done..].
  apply at_lookup in Ev. intros [= <-]. by exists tab, p, c, j, v.
Qed.
End row_key.

(** C29: when the executor names the row key of a statement, for the shard router, it is the key of
    the only row the statement touches: a row an INSERT adds is stored under that key, and every
    row that the WHERE of a SELECT, UPDATE or DELETE matches is, when the primary key is TEXT and
    the columns have distinct names (not for INT keys: [INT_keys_compared_as_text]). *)
Theorem TryExtractRowKey_sound {S} `{KVStoreLaws S} b (s : S) d stmt key :
  represents (kv_contents s) d -> kv_ok b s -> stmt_good stmt ->
  (TryExtractRowKey stmt s).1 = Ret (Some key) ->
  (forall i d' a, stmt = InsertInto i -> insert i d = (Ret a, d') ->
     exists tab row pk, table_at d (in_db_name i) (in_table_name i) = Some tab /\
       d' = set_table (in_db_name i) (in_table_name i) (put_row pk row tab) d /\
       key = RowKey (in_db_name i) (in_table_name i) pk) /\
  (forall db t conds tab p c pk row, where_of stmt = Some (db, t, conds) -> table_at d db t = Some tab ->
     NoDup (map col_name (columns tab)) -> PrimaryKeyIndex (columns tab) = Some p ->
     columns tab !! p = Some c -> col_type c = kText -> rows tab !! pk = Some row ->
     MatchesWhere (columns tab) row conds = Ret true -> key = RowKey db t pk).
Proof.
  intros Hr Hok [Hst Hn] Hkey.
  assert (Hns : Forall no_slash (stmt_names stmt)) by (eapply Forall_impl; [exact Hn|apply ident_no_slash]).
  split.
  - intros i d' a -> Hi. cbn in Hns, Hst. apply Forall_cons_1 in Hns as [Hdb _].
    destruct (row_key_of_insert_spec b s d Hr Hok i key Hdb Hkey) as (tab & p & c & j & v & Hat & Hp & Hc & Hj & Hv & ->).
    destruct (insert_spec i d a d') as (tab' & row & p' & pk & idxs & Hat' & Hp' & Hpk & _ & -> & H2 & Hin & Hall & Hnd);
      [tauto|done|]. simplify_eq. exists tab, row, pk. split_and!; [done|done|]. f_equal.
    destruct (proj1 (list_elem_of_lookup idxs p)) as [k Hk].
    { apply Hall. by eapply lookup_lt_Some. }
    destruct (Forall2_lookup_r _ _ _ _ _ H2 Hk) as (n & Hnk & En). destruct (ColumnIndex_name _ _ _ En) as (c' & Hc' & <-).
    simplify_eq. destruct (Forall2_lookup_l _ _ _ _ _ H2 Hj) as (p2 & Hp2 & E2). rewrite En in E2. injection E2 as <-.
    rewrite <- (NoDup_lookup _ _ _ _ Hnd Hk Hp2) in Hv. specialize (Hin _ _ Hk). congruence.
  - intros db t conds tab p c pk row Hw Hat Hnd Hp Hc Hty Hrow Hm.
    assert (Hdb : no_slash db /\ (st_catch (row_key_of_where db t conds) (fun _ => mret None) s).1 = Ret (Some key)).
    { destruct stmt; try done; injection Hw as <- <- <-; cbn in Hns; apply Forall_cons_1 in Hns as [Hdb _]; by split. }
    destruct Hdb as [Hdb Hk]. destruct (row_key_of_where_spec b s d Hr Hok db t conds key Hdb Hk) as (tab' & v & Hat' & Hv & ->).
    simplify_eq. pose proof (FindPkEquality_row _ _ _ _ _ _ Hnd Hp Hc Hty Hv Hm) as Hv'.
    destruct (rep_tables _ _ Hr _ _ _ Hat) as [_ (p' & Hp' & Hrows)]. simplify_eq.
    destruct (Hrows _ _ Hrow) as (_ & _ & Hpk). congruence.
Qed.

(** A represented database, by running a session from nothing. *)
Lemma represents_session sqls : session_fits ∅ sqls ->
  represents (session Execute sqls ((∅, 0%N) : ledger)).2.1 (session run_sql sqls ∅).2.
Proof. intros Hf. destruct (agree_session sqls (∅, 0%N) ∅ represents_empty Hf) as [(_ & _ & HJ) _]. exact HJ. Qed.

Definition keyed_session : list bytes :=
  [ str "create database shop"; str "create table shop.items (name TEXT primary key, stock INT)";
    str "insert into shop.items (stock, name) values (4, 'ink')" ].

Definition ink_select : SelectStatement :=
  {| se_db_name := str "shop"; se_table_name := str "items"; se_columns := [];
     se_where := [{| cond_column := str "name"; cond_op := kEq; cond_literal := str "ink" |}] |}.

Definition ink_columns : TableSchema :=
  [{| col_name := str "name"; col_type := kText; primary_key := true; default_value := None |};
   {| col_name := str "stock"; col_type := kInt; primary_key := false; default_value := None |}].

Definition ink_table : table := Table ink_columns {[str "ink" := [str "ink"; str "4"]]}.
Definition ink_key : bytes := RowKey (str "shop") (str "items") (str "ink").
Definition keyed_store : ledger := (session Execute keyed_session ((∅, 0%N) : ledger)).2.

Lemma TryExtractRowKey_sound_witness :
  (TryExtractRowKey (Select ink_select) keyed_store.1).1 = Ret (Some ink_key) /\
  ink_key = RowKey (str "shop") (str "items") (str "ink").
Proof.
  assert (Hkey : (TryExtractRowKey (Select ink_select) keyed_store.1).1 = Ret (Some ink_key)).
  { vm_compute. reflexivity. }
  assert (Hat : table_at (session run_sql keyed_session ∅).2 (str "shop") (str "items") = Some ink_table).
  { vm_compute. reflexivity. }
  split; [exact Hkey|].
  destruct (TryExtractRowKey_sound 0 keyed_store.1 (session run_sql keyed_session ∅).2 (Select ink_select) ink_key)
    as [_ Hw]; [|exact I| |exact Hkey|].
  - apply represents_session. apply (bool_decide_unpack _). vm_compute. exact I.
  - split; [exact I|]. by repeat constructor.
  - refine (Hw _ _ _ ink_table 0 _ (str "ink") [str "ink"; str "4"] eq_refl Hat _ eq_refl eq_refl eq_refl _ eq_refl).
    + apply (bool_decide_unpack _). vm_compute. exact I.
    + vm_compute. reflexivity.
Defined.

(** ** What goes wrong *)

Definition answers (sqls : list bytes) : outcome (list (outcome bytes)) :=
  (session Execute sqls (∅ : gmap (list ascii) (list ascii))).1.

(** An UPDATE that fails has already changed rows: the condition is evaluated row by row and
    an INT literal is only checked for its digits, so that one row holding an integer beyond 64
    bits makes the statement throw after the rows before it were written. *)
Theorem failed_UPDATE_changes_rows :
  answers [ str "create database shop"; str "create table shop.items (name TEXT primary key, stock INT)";
            str "insert into shop.items (name, stock) values ('a', 1)";
            str "insert into shop.items (name, stock) values ('b', 99999999999999999999)";
            str "update shop.items set stock = 5 where stock < 3";
            str "select stock from shop.items where name = 'a'" ] =
  Ret [ ok (str "OK"); ok (str "OK"); ok (str "OK"); ok (str "OK"); Throw (OutOfRange (str "stoll"));
        ok (str "stock" ++ [lf] ++ str "5") ].
Proof. vm_compute. reflexivity. Qed.

(** INT primary keys are compared as integers by WHERE but as text by the storage: one table
    holds the keys 7 and 007, which the condition [id = 7] both selects, although the row key the
    statement is routed by is that of 7 only. *)
Theorem INT_keys_compared_as_text :
  let sqls := [ str "create database shop"; str "create table shop.items (id INT primary key, name TEXT)";
                str "insert into shop.items (id, name) values (7, 'pen')";
                str "insert into shop.items (id, name) values (007, 'ink')" ] in
  let select := str "select name from shop.items where id = 7" in
  answers (sqls ++ [select]) =
    Ret [ ok (str "OK"); ok (str "OK"); ok (str "OK"); ok (str "OK"); ok (str "name" ++ [lf] ++ str "ink" ++ [lf] ++ str "pen") ] /\
  ((stmt ← st_lift (Parse select); TryExtractRowKey stmt) (session Execute sqls (∅ : gmap (list ascii) (list ascii))).2).1 =
    Ret (Some (RowKey (str "shop") (str "items") (str "7"))).
Proof. split; vm_compute; reflexivity. Qed.

(** CREATE TABLE accepts two columns of the same name, and then no INSERT into the table can
    ever succeed. *)
Theorem duplicate_columns_refuse_rows d s tab a d' :
  table_at d (in_db_name s) (in_table_name s) = Some tab -> ~ NoDup (map col_name (columns tab)) ->
  length (in_columns s) = length (in_values s) ->
  (exists stmt, Parse (str "create table shop.items (id INT primary key, name TEXT, name TEXT)") = Ret (CreateTable stmt) /\
     ~ NoDup (map col_name (ct_columns stmt))) /\
  insert s d <> (Ret a, d').
Proof.
  intros Hat Hdup Hl. split.
  { eexists. split; [vm_compute; reflexivity|]. apply (bool_decide_unpack _). vm_compute. exact I. }
  intros Hi. destruct (insert_spec s d a d' Hl Hi) as (tab' & row & p & pk & idxs & Hat' & _ & _ & _ & _ & H2 & _ & Hall & _).
  simplify_eq. apply Hdup. apply NoDup_alt. intros i j n Hin Hjn.
  change (map col_name (columns tab)) with (col_name <$> columns tab) in Hin, Hjn.
  rewrite list_lookup_fmap in Hin, Hjn.
  destruct (columns tab !! i) as [c|] eqn:Hc; [|done]. destruct (columns tab !! j) as [c'|] eqn:Hc'; [|done].
  cbn in Hin, Hjn. simplify_eq.
  assert (Hnot : forall i j c c', columns tab !! i = Some c -> columns tab !! j = Some c' -> (i < j)%nat -> col_name c = col_name c' -> False).
  { clear - H2 Hall. intros i j c c' Hc Hc' Hlt Hn. destruct (proj1 (list_elem_of_lookup idxs j)) as [k Hk].
    { apply Hall. by eapply lookup_lt_Some. }
    destruct (Forall2_lookup_r _ _ _ _ _ H2 Hk) as (n & _ & En). exact (second_column_hidden _ _ _ _ _ n Hc Hc' Hlt Hn En). }
  destruct (lt_eq_lt_dec i j) as [[Hlt|Heq]|Hlt]; [exfalso; by eauto|done|exfalso; by eauto].
Qed.

Lemma duplicate_columns_refuse_rows_witness :
  (insert {| in_db_name := str "shop"; in_table_name := str "items"; in_columns := [str "a"; str "a"];
     in_values := [str "1"; str "2"] |}
    {[str "shop" := {[str "items" := Table
       [{| col_name := str "a"; col_type := kText; primary_key := true; default_value := None |};
        {| col_name := str "a"; col_type := kText; primary_key := false; default_value := None |}] ∅]} ]}).1 <> Ret (str "OK").
Proof.
  intros E. set (s := {| in_db_name := _ |}) in E. set (tab := Table _ _) in E. set (d := {[ _ := _]}) in E.
  destruct (duplicate_columns_refuse_rows d s tab (str "OK") (insert s d).2) as [_ Hi]; [reflexivity| |reflexivity|].
  - apply (bool_decide_unpack _). vm_compute. exact I.
  - apply Hi. rewrite <- E. by destruct (insert s d).
Defined.
