(* ===== verification/Server.v ===== *)
(** * The state machine of a node ([src/raft_main.cpp], the callbacks and their helpers)

    What a node does with a committed command, how it dumps and restores its store, and how it
    answers reads.  The state is the transaction participant and the key-value store; the lock
    [engine_mutex] makes every callback one step.  Progress messages are left out. *)

From Stdlib Require Import NArith Lia.
From S2P Require Export Participant RaftNode Executor.

(** ** Snapshots *)

Definition EncodePair (out : bytes) (kv : bytes * bytes) : bytes := AppendString (AppendString out kv.1) kv.2.

Definition EncodeSnapshot (kvs : list (bytes * bytes)) : bytes :=
  foldl EncodePair (AppendU32 [] (size32 kvs)) kvs.

Definition corrupt_snapshot : exn := RuntimeError (str "corrupt snapshot").

(** [blob.substr(pos, n)]. *)
Definition substr (blob : bytes) (pos n : N) : outcome bytes :=
  let size := N.of_nat (length blob) in
  if (size <? pos)%N then Throw (OutOfRange (str "basic_string::substr"))
  else Ret (take (N.to_nat (N.min n (size - pos))) (drop (N.to_nat pos) blob)).

(** The value and the position after it. *)
Definition snapshot_u32 (blob : bytes) (pos : N) : outcome (N * N) :=
  if (N.of_nat (length blob) <? pos + 4)%N then Throw corrupt_snapshot
  else Ret (le_val (take 4 (drop (N.to_nat pos) blob)), (pos + 4)%N).

Fixpoint decode_pairs (n : nat) (blob : bytes) (pos : N) : outcome (list (bytes * bytes)) :=
  match n with
  | O => Ret []
  | S n' =>
    k ← snapshot_u32 blob pos;
    key ← substr blob k.2 k.1;
    v ← snapshot_u32 blob (k.2 + k.1)%N;
    value ← substr blob v.2 v.1;
    rest ← decode_pairs n' blob (v.2 + v.1)%N;
    Ret ((key, value) :: rest)
  end.

(** [result.reserve(count)] is taken to succeed. *)
Definition DecodeSnapshot (blob : bytes) : outcome (list (bytes * bytes)) :=
  c ← snapshot_u32 blob 0;
  decode_pairs (N.to_nat c.1) blob c.2.

(** ** Applying commands *)

Section server.
Context {S : Type} `{KVStore S}.

Definition duplicate_message (cmd : bytes) : bytes :=
  str "duplicate primary key in staged command '" ++ cmd ++ str "'".

Fixpoint FindStagedDuplicateKey (cmds : list bytes) : ST S bytes :=
  match cmds with
  | [] => mret []
  | cmd :: cmds' =>
    match Parse cmd with
    | Throw _ => FindStagedDuplicateKey cmds'
    | Undef => st_lift Undef
    | Ret (InsertInto i) =>
      key ← TryExtractRowKey (InsertInto i);
      match key with
      | None => FindStagedDuplicateKey cmds'
      | Some key =>
        v ← Get key;
        match v with
        | Some _ => mret (duplicate_message cmd)
        | None => FindStagedDuplicateKey cmds'
        end
      end
    | Ret _ => FindStagedDuplicateKey cmds'
    end
  end.

(** The state of a node's callbacks. *)
Abbreviation server := (TxnParticipant * S)%type.

Definition on_store {A} (m : ST S A) : ST server A := fun ts =>
  let '(r, s) := m ts.2 in (r, (ts.1, s)).
Definition on_participant {A} (f : TxnParticipant -> A * TxnParticipant) : ST server A := fun ts =>
  let '(a, t) := f ts.1 in (Ret a, (t, ts.2)).

Definition run_staged (staged : bytes) : ST S unit := _ ← Execute staged; mret tt.

(** [try { sql.Execute(command); return ""; } catch (const std::exception& e) { return e.what(); }] *)
Definition execute_command (command : bytes) : ST server bytes :=
  st_catch (_ ← on_store (Execute command); mret []) (fun e => mret (what e)).

(** The result is the error of the command, empty when it succeeded.  A control command of an
    unknown type leaves the [switch] and is executed as SQL. *)
Definition server_apply (index : LogIndex) (command : bytes) : ST server bytes :=
  control ← st_lift (TryDecodeTxnControl command);
  match control with
  | Some c =>
    match c_type c with
    | kPrepare =>
      error ← on_store (FindStagedDuplicateKey (c_commands c));
      if decide (error = []) then on_participant (Prepare (c_txn_id c) (c_keys c) (c_commands c))
      else mret error
    | kCommit => st_catch (Commit run_staged (c_txn_id c)) (fun e => mret (what e))
    | kAbort => on_participant (Abort (c_txn_id c))
    | kOtherControl _ => execute_command command
    end
  | None => execute_command command
  end.

(** ** The other callbacks *)

Definition server_snapshot (ts : server) : bytes := EncodeSnapshot (kv_scan [] ts.2).

Definition put_pair (kv : bytes * bytes) : ST S unit := kv_put kv.1 kv.2.

(** Decoding is outside of the [try]; a failure inside it is only printed. *)
Definition server_restore (data : bytes) : ST server unit :=
  kvs ← st_lift (DecodeSnapshot data);
  on_store (st_catch (_ ← kv_reset; st_for kvs put_pair) (fun _ => mret tt)).

(** Whatever the query is, it is executed. *)
Definition server_read (query : bytes) : ST server bytes := on_store (Execute query).

#[export] Instance server_StateMachine : StateMachine server := {|
  apply_callback := server_apply;
  snapshot_callback := server_snapshot;
  restore_callback := server_restore;
  read_callback := server_read;
|}.
End server.
