(* ===== verification/ServerSpec.v ===== *)
(** * The state machine of a node as a database with transactions

    The callbacks of [raft_main.cpp] refine a machine on a database and a transaction
    participant; so replicas that apply the same log hold the same database, whatever the
    storage engines underneath went through. *)

From Stdlib Require Import NArith Lia.
From S2P Require Export Server RaftApply SqlSpec.

(** ** One command, in two parts *)

(** The part of a command that acts on the data: the error it reports. *)
Definition command_part {X} (execute : bytes -> ST X bytes) (find_duplicate : list bytes -> ST X bytes)
    (t : TxnParticipant) (command : bytes) : ST X bytes :=
  let run cmds := st_catch (_ ← st_for cmds (fun c => _ ← execute c; mret tt); mret []) (fun e => mret (what e)) in
  let try_execute := st_catch (_ ← execute command; mret []) (fun e => mret (what e)) in
  control ← st_lift (TryDecodeTxnControl command);
  match control with
  | Some c =>
    match c_type c with
    | kPrepare => find_duplicate (c_commands c)
    | kCommit =>
      match pending t !! c_txn_id c with
      | None => mret (unknown_message (c_txn_id c))
      | Some p => run (commands p)
      end
    | kAbort => mret []
    | kOtherControl _ => try_execute
    end
  | None => try_execute
  end.

(** The part that acts on the participant. *)
Definition participant_part (t : TxnParticipant) (command : bytes) (r : outcome bytes) : outcome bytes * TxnParticipant :=
  match TryDecodeTxnControl command with
  | Ret (Some c) =>
    match c_type c with
    | kPrepare =>
      match r with
      | Ret [] => let '(vote, t') := Prepare (c_txn_id c) (c_keys c) (c_commands c) t in (Ret vote, t')
      | _ => (r, t)
      end
    | kCommit => (r, match pending t !! c_txn_id c with None => t | Some p => resolve (c_txn_id c) p t end)
    | kAbort => let '(error, t') := Abort (c_txn_id c) t in (Ret error, t')
    | kOtherControl _ => (r, t)
    end
  | _ => (r, t)
  end.

Definition in_parts {X} (part : TxnParticipant -> bytes -> ST X bytes) (command : bytes) : ST (TxnParticipant * X) bytes :=
  fun tx =>
    let '(r, x') := part tx.1 command tx.2 in
    let '(r', t') := participant_part tx.1 command r in
    (r', (t', x')).

Section parts.
Context {S : Type} `{KVStore S}.

Definition store_part : TxnParticipant -> bytes -> ST S bytes := command_part Execute FindStagedDuplicateKey.

Lemma execute_command_part command (t : TxnParticipant) (s : S) :
  execute_command command (t, s) =
  let '(r, s') := st_catch (_ ← Execute command; mret []) (fun e => mret (what e)) s in (r, (t, s')).
Proof.
  unfold execute_command, st_catch, mbind, ST_bind, on_store. cbn [fst snd].
  by destruct (Execute command s) as [[x|e|] s'].
Qed.

Lemma server_apply_parts i command (ts : TxnParticipant * S) : server_apply i command ts = in_parts store_part command ts.
Proof.
  destruct ts as [t s]. unfold server_apply, in_parts, store_part, command_part, participant_part. cbn [fst snd].
  destruct (TryDecodeTxnControl command) as [[c|]|e|]; [| |done|done].
  - rewrite !run_lift_ret. destruct (c_type c).
    + unfold mbind at 1, ST_bind at 1, on_store. cbn [fst snd].
      destruct (FindStagedDuplicateKey (c_commands c) s) as [[error|e|] s']; [|done|done].
      case_decide as Hd; [subst error; unfold on_participant; cbn [fst snd]; by destruct (Prepare _ _ _ t)|by destruct error].
    + unfold st_catch at 1. destruct (pending t !! c_txn_id c) as [p|] eqn:Hp.
      * rewrite (Commit_pending _ _ _ _ _ Hp). unfold st_catch, mbind at 1, ST_bind at 1. fold run_staged.
        change (fun c0 : bytes => Execute c0 ≫= (fun _ : bytes => mret ())) with (run_staged (S:=S)).
        by destruct (st_for (commands p) run_staged s) as [[[]|e|] s'].
      * by rewrite Commit_unknown.
    + unfold on_participant. cbn [fst snd]. by destruct (Abort (c_txn_id c) t).
    + rewrite execute_command_part. by destruct (st_catch _ _ s).
  - rewrite !run_lift_ret, execute_command_part. by destruct (st_catch _ _ s).
Qed.
End parts.

(** ** Any store behaves like its contents *)

Section any_store.
Context {S : Type} `{KVStoreLaws S}.

Lemma sim_Execute sql : sim (Execute (S:=S) sql) (Execute sql).
Proof. unfold Execute. apply sim_bind; [auto with sim|]. intros stmt. apply sim_statement. Qed.

Lemma sim_TryExtractRowKey i : sim (TryExtractRowKey (S:=S) (InsertInto i)) (TryExtractRowKey (InsertInto i)).
Proof.
  apply sim_catch; [|auto with sim]. apply sim_bind; [apply sim_LoadSchema|]. intros cols. auto 20 with sim.
Qed.

Lemma sim_FindStagedDuplicateKey cmds :
  sim (FindStagedDuplicateKey (S:=S) cmds) (FindStagedDuplicateKey cmds).
Proof.
  induction cmds as [|cmd cmds IH]; cbn [FindStagedDuplicateKey]; [auto with sim|].
  destruct (Parse cmd) as [[]| |]; try exact IH; [|auto with sim].
  apply sim_bind; [apply sim_TryExtractRowKey|]. intros [key|]; [|exact IH].
  apply sim_bind; [apply sim_get|]. intros [v|]; [auto with sim|exact IH].
Qed.

Lemma sim_store_part t command : sim (store_part (S:=S) t command) (store_part t command).
Proof.
  unfold store_part, command_part. cbv zeta. apply sim_bind; [auto with sim|].
  assert (Htry : sim (S:=S) (st_catch (_ ← Execute command; mret []) (fun e => mret (what e)))
                            (st_catch (_ ← Execute command; mret []) (fun e => mret (what e)))).
  { apply sim_catch; [|auto with sim]. apply sim_bind; [apply sim_Execute|auto with sim]. }
  intros [c|]; [|exact Htry]. destruct (c_type c); [apply sim_FindStagedDuplicateKey| |auto with sim|exact Htry].
  destruct (pending t !! c_txn_id c) as [p|]; [|auto with sim].
  apply sim_catch; [|auto with sim]. apply sim_bind; [|auto with sim].
  apply sim_for. intros staged. apply sim_bind; [apply sim_Execute|auto with sim].
Qed.

(** The commands of a log, one after the other, and what each reported. *)
Definition run_commands {X} (apply : bytes -> ST X bytes) (cmds : list bytes) : ST X (list (outcome bytes)) :=
  session apply cmds.

Lemma run_cost cmds t (l : ledger) : (l.2 <= (run_commands (server_apply 0) cmds (t, l)).2.2.2)%N.
Proof.
  revert t l. induction cmds as [|cmd cmds IH]; intros t l; [done|].
  cbn [run_commands session]. unfold mbind, ST_bind, attempt. rewrite server_apply_parts. unfold in_parts. cbn [fst snd].
  pose proof (proj1 (sim_store_part t cmd) l) as Hc. destruct (store_part t cmd l) as [r l1].
  destruct (participant_part t cmd r) as [r' t1]. cbn [fst snd] in *. specialize (IH t1 l1). unfold run_commands in IH.
  destruct (session (server_apply 0) cmds (t1, l1)) as [[rs|e|] [t2 l2]]; cbn in *; lia.
Qed.

Lemma run_sim cmds t contents c0 b (s : S) rs t' contents' c :
  kv_contents s = contents ->
  run_commands (server_apply 0) cmds (t, (contents, c0) : ledger) = (rs, (t', (contents', c))) ->
  kv_ok (b + (c - c0)) s ->
  exists s', run_commands (server_apply 0) cmds (t, s) = (rs, (t', s')) /\ kv_ok b s' /\ kv_contents s' = contents'.
Proof.
  intros <-. revert t c0 b s rs. induction cmds as [|cmd cmds IH]; intros t c0 b s rs.
  { intros [= <- <- <- <-] Hok. exists s. split_and!; [done| |done]. eapply kv_ok_less; [exact Hok|lia]. }
  cbn [run_commands session]. unfold mbind, ST_bind, attempt. rewrite !server_apply_parts. unfold in_parts. cbn [fst snd].
  pose proof (proj1 (sim_store_part t cmd) (kv_contents s, c0)) as Hc.
  pose proof (fun b => proj2 (sim_store_part t cmd) c0 b s) as Hs.
  destruct (store_part t cmd ((kv_contents s, c0) : ledger)) as [r [m1 c1]]. cbn in Hc.
  destruct (participant_part t cmd r) as [r' t1] eqn:Ep.
  pose proof (run_cost cmds t1 (m1, c1)) as Hc1. unfold run_commands in Hc1.
  destruct (session (server_apply 0) cmds (t1, (m1, c1) : ledger)) as [rs1 [t2 [m2 c2]]] eqn:E2. cbn in Hc1.
  intros E Hok. assert (Ec : c = c2) by (destruct rs1; by injection E). subst c.
  destruct (Hs (b + (c2 - c1))%N) as (s1 & -> & Hok1 & Hm1); [eapply kv_ok_less; [exact Hok|lia]|].
  rewrite Ep. subst m1. destruct rs1 as [rs1|e|]; injection E as <- <- <-;
    destruct (IH _ _ b _ _ E2 Hok1) as (s2 & E3 & Hok2 & Hm2); unfold run_commands in E3; rewrite E3; by exists s2.
Qed.
End any_store.

(** What a run of commands writes to a store with the given contents. *)
Definition run_size (t : TxnParticipant) (contents : gmap (list ascii) (list ascii)) (cmds : list bytes) : N :=
  (run_commands (server_apply 0) cmds (t, (contents, 0%N) : ledger)).2.2.2.

(** Replicas agree: two nodes whose stores hold the same data, in whatever memtables, logs and
    tables, and whose participants are equal, report the same result for every command of a log
    and hold the same data and the same locks after it. *)
Theorem replicas_agree {S1 S2} `{KVStoreLaws S1} `{KVStoreLaws S2} (s1 : S1) (s2 : S2) t cmds b1 b2 :
  kv_contents s1 = kv_contents s2 ->
  kv_ok (b1 + run_size t (kv_contents s1) cmds) s1 -> kv_ok (b2 + run_size t (kv_contents s2) cmds) s2 ->
  exists rs t' s1' s2',
    run_commands (server_apply 0) cmds (t, s1) = (rs, (t', s1')) /\
    run_commands (server_apply 0) cmds (t, s2) = (rs, (t', s2')) /\
    kv_contents s1' = kv_contents s2' /\ kv_ok b1 s1' /\ kv_ok b2 s2'.
Proof.
  intros Hc. unfold run_size. rewrite <- Hc.
  destruct (run_commands (server_apply 0) cmds (t, (kv_contents s1, 0%N) : ledger)) as [rs [t' [m c]]] eqn:E. cbn.
  intros Hk1 Hk2.
  destruct (run_sim cmds t _ 0 b1 s1 _ _ _ _ eq_refl E) as (s1' & E1 & Hok1 & Hm1); [by rewrite N.sub_0_r|].
  destruct (run_sim cmds t _ 0 b2 s2 _ _ _ _ (eq_sym Hc) E) as (s2' & E2 & Hok2 & Hm2); [by rewrite N.sub_0_r|].
  exists rs, t', s1', s2'. split_and!; [done|done|congruence|done|done].
Qed.

(** ** The database machine *)

(** The value that a staged INSERT gives the primary key. *)
Definition staged_key (i : InsertStatement) (tab : table) : option bytes :=
  p ← PrimaryKeyIndex (columns tab);
  c ← columns tab !! p;
  j ← index_where (fun n => bool_decide (n = col_name c)) (in_columns i);
  in_values i !! j.

(** The first staged INSERT of a key that has a row now. *)
Fixpoint staged_duplicate (d : database) (cmds : list bytes) : bytes :=
  match cmds with
  | [] => []
  | cmd :: cmds' =>
    match Parse cmd with
    | Ret (InsertInto i) =>
      match tab ← table_at d (in_db_name i) (in_table_name i); v ← staged_key i tab; rows tab !! v with
      | Some _ => duplicate_message cmd
      | None => staged_duplicate d cmds'
      end
    | _ => staged_duplicate d cmds'
    end
  end.

Definition db_part : TxnParticipant -> bytes -> ST database bytes :=
  command_part run_sql (fun cmds => st_gets (fun d => staged_duplicate d cmds)).

(** A replicated database with transactions: what a node's state machine is meant to be. *)
Definition db_apply (command : bytes) : ST (TxnParticipant * database) bytes := in_parts db_part command.

(** A control command that does not decode. *)
Definition corrupt (command : bytes) : Prop := exists e, TryDecodeTxnControl command = Throw e.

Lemma TryDecodeTxnControl_defined command : TryDecodeTxnControl command <> Undef.
Proof.
  unfold TryDecodeTxnControl. destruct command as [|c rest]; [done|]. case_match; [|done].
  assert (Hs : safe read_control).
  { unfold read_control, ReadStringVector, ReadU8, ReadU32, ReadU64. auto 20 with safe nocore. }
  specialize (Hs (c :: rest)). by destruct (read_control (c :: rest)) as [[x r]|e|].
Qed.

(** The texts that a command executes, and that they fit the 32-bit lengths. *)
Definition executed (t : TxnParticipant) (command : bytes) : list bytes :=
  match TryDecodeTxnControl command with
  | Ret (Some c) =>
    match c_type c with
    | kCommit => match pending t !! c_txn_id c with Some p => commands p | None => [] end
    | kOtherControl _ => [command]
    | _ => []
    end
  | Ret None => [command]
  | _ => []
  end.

Fixpoint commands_fit (td : TxnParticipant * database) (cmds : list bytes) : Prop :=
  match cmds with
  | [] => True
  | cmd :: cmds' => session_fits td.2 (executed td.1 cmd) /\ commands_fit (db_apply cmd td).2 cmds'
  end.

#[export] Instance commands_fit_dec td cmds : Decision (commands_fit td cmds).
Proof. revert td. induction cmds as [|cmd cmds IH]; intros td; [apply _|]. cbn. apply and_dec; [apply _|apply IH]. Defined.

(** ** The refinement *)

Lemma agree_catch {A : Type} (J : ledger -> database -> Prop) (m : ST ledger A) (a : D A) h g l d :
  agree J m a l d -> (forall e l' d', J l' d' -> agree J (h e) (g e) l' d') -> agree J (st_catch m h) (st_catch a g) l d.
Proof.
  unfold agree, st_catch. destruct (m l) as [r l'], (a d) as [r' d']. cbn.
  intros (<- & Hd & HJ) Hh. destruct r as [x|e|]; [done|by apply Hh|done].
Qed.

Lemma LoadSchema_sim_ledger (l : ledger) d db t : rep l d -> no_slash db ->
  LoadSchema db t l = (match table_at d db t with
    | Some tab => Ret (columns tab)
    | None => throw_rt (str "no such table: " ++ db ++ str "." ++ t) end, l).
Proof.
  intros Hr Hdb. unfold LoadSchema, Get. rewrite run_gets. cbn [kv_get ledger_KVStore]. rewrite (rep_schemas _ _ Hr) by done.
  destruct (table_at d db t) as [tab|] eqn:E; cbn [fmap option_fmap option_map]; [|done].
  destruct (rep_tables _ _ Hr _ _ _ E) as [Hf (i & Hi & _)]. unfold st_lift. rewrite Deserialize_Serialize; [done..|].
  intros Hn. by rewrite Hn in Hi.
Qed.

Lemma agree_staged cmds l d : rep l d ->
  agree rep (FindStagedDuplicateKey cmds) (st_gets (fun d => staged_duplicate d cmds)) l d.
Proof.
  intros Hr. unfold agree, st_gets. cbn [fst snd].
  enough (E : FindStagedDuplicateKey cmds l = (Ret (staged_duplicate d cmds), l)) by by rewrite E.
  induction cmds as [|cmd cmds IH]; [done|]. cbn [FindStagedDuplicateKey staged_duplicate].
  pose proof (Parse_good cmd) as Hp. destruct (Parse cmd) as [stmt|e|]; [|exact IH|done].
  destruct stmt as [s|i|s|s|s|s|s|s|]; try exact IH.
  destruct Hp as [Hok Hn]. unfold names_ok in Hn. cbn in Hn, Hok. apply Forall_cons_1 in Hn as [Hdb Hn].
  apply Forall_cons_1 in Hn as [Ht _]. apply ident_no_slash in Hdb, Ht.
  assert (Hkey : TryExtractRowKey (InsertInto i) l =
    (Ret (tab ← table_at d (in_db_name i) (in_table_name i); v ← staged_key i tab;
          Some (RowKey (in_db_name i) (in_table_name i) v)), l)).
  { cbn [TryExtractRowKey]. unfold st_catch, row_key_of_insert, mbind at 1, ST_bind at 1.
    pose proof (LoadSchema_sim_ledger l d (in_db_name i) (in_table_name i) Hr Hdb) as ->.
    destruct (table_at d _ _) as [tab|] eqn:Et; [|done]. cbn [mbind option_bind]. unfold staged_key.
    destruct (ok_pk _ (rep_tables _ _ Hr _ _ _ Et)) as (p & Hp & _). rewrite Hp. cbn [mbind option_bind].
    pose proof Hp as Hlt. apply index_where_lookup in Hlt as (c & Hc & _). rewrite Hc. cbn [mbind option_bind].
    rewrite (at_Some _ _ _ Hc), run_lift_ret.
    destruct (index_where _ (in_columns i)) as [j|] eqn:Ej; [|done]. cbn [mbind option_bind].
    apply index_where_lookup in Ej as (n & Hn & _). apply lookup_lt_Some in Hn.
    destruct (lookup_lt_is_Some_2 (in_values i) j) as [v Hv]; [lia|].
    by rewrite (at_Some _ _ _ Hv), run_lift_ret, Hv. }
  rewrite (run_bind _ _ _ _ _ Hkey). destruct (table_at d _ _) as [tab|] eqn:Et; cbn [mbind option_bind]; [|exact IH].
  destruct (staged_key i tab) as [v|]; cbn [mbind option_bind]; [|exact IH].
  unfold Get. rewrite run_gets. cbn [kv_get ledger_KVStore].
  pose proof (rep_rows _ _ Hr (in_db_name i) (in_table_name i) v Hdb Ht) as Hrow. rewrite Et in Hrow.
  pose proof (row_stored_is_Some _ _ _ Hrow) as Hiff.
  destruct (l.1 !! RowKey _ _ v), (rows tab !! v); [done| | |exact IH]; destruct Hiff as [H1 H2].
  - by destruct (H1 ltac:(by eexists)).
  - by destruct (H2 ltac:(by eexists)).
Qed.

Lemma agree_run cmds l d : rep l d -> session_fits d cmds ->
  agree rep (st_for cmds (fun c => _ ← Execute c; mret tt)) (st_for cmds (fun c => _ ← run_sql c; mret tt)) l d.
Proof.
  revert l d. induction cmds as [|cmd cmds IH]; intros l d Hr Hf; [by apply agree_ret|].
  destruct Hf as [Hf Hfs]. cbn [st_for]. pose proof (agree_sql cmd l d Hr Hf) as (E & Hd & HJ). unfold agree in *.
  unfold mbind, ST_bind. destruct (Execute cmd l) as [r l'], (run_sql cmd d) as [r' d']. cbn in E, Hd, HJ, Hfs. subst r'.
  destruct r as [x|e|]; [exact (IH l' d' HJ Hfs)|done..].
Qed.

Lemma agree_part t command l d : rep l d -> session_fits d (executed t command) ->
  agree rep (store_part t command) (db_part t command) l d.
Proof.
  intros Hr Hf. unfold store_part, db_part, command_part, executed in *. cbv zeta.
  apply agree_lift; [done| |].
  { pose proof (TryDecodeTxnControl_defined command). by destruct (TryDecodeTxnControl command). }
  assert (Htry : session_fits d [command] ->
    agree rep (st_catch (_ ← Execute command; mret []) (fun e => mret (what e)))
              (st_catch (_ ← run_sql command; mret []) (fun e => mret (what e))) l d).
  { intros [Hf1 _]. apply agree_catch; [|intros; by apply agree_ret]. eapply agree_bind; [by apply agree_sql|].
    intros; by apply agree_ret. }
  intros [c|] E; rewrite E in Hf; [|by apply Htry].
  destruct (c_type c); [by apply agree_staged| |by apply agree_ret|by apply Htry].
  destruct (pending t !! c_txn_id c) as [p|]; [|by apply agree_ret].
  apply agree_catch; [|intros; by apply agree_ret]. eapply agree_bind; [by apply agree_run|]. intros; by apply agree_ret.
Qed.

(** Only a corrupt control command throws. *)
Lemma db_apply_returns command td : ~ corrupt command -> defined (db_part td.1 command td.2).1 ->
  exists error, (db_apply command td).1 = Ret error.
Proof.
  intros Hc. unfold db_apply, in_parts, db_part, command_part, participant_part. cbv zeta.
  pose proof (TryDecodeTxnControl_defined command).
  destruct (TryDecodeTxnControl command) as [[c|]|e|] eqn:E; [| |by destruct Hc; exists e|done]; rewrite !run_lift_ret.
  - destruct (c_type c).
    + unfold st_gets. intros _. destruct (staged_duplicate _ _); [|by eexists]. destruct (Prepare _ _ _ _). by eexists.
    + destruct (pending td.1 !! c_txn_id c) as [p|]; [|by eexists]. unfold st_catch, mbind, ST_bind.
      destruct (st_for (commands p) _ td.2) as [[x|e|] d']; [by eexists..|done].
    + intros _. destruct (Abort _ _). by eexists.
    + unfold st_catch, mbind, ST_bind. destruct (run_sql command td.2) as [[x|e|] d']; [by eexists..|done].
  - unfold st_catch, mbind, ST_bind. destruct (run_sql command td.2) as [[x|e|] d']; [by eexists..|done].
Qed.

Lemma apply_agrees command t l d : rep l d -> session_fits d (executed t command) ->
  let '(r, (t', l')) := server_apply 0 command (t, l : ledger) in
  let '(r', (t'', d')) := db_apply command (t, d) in
  r = r' /\ t' = t'' /\ rep l' d' /\ (corrupt command \/ exists error, r = Ret error).
Proof.
  intros Hr Hf. rewrite server_apply_parts. destruct (agree_part t command l d Hr Hf) as (E & Hd & HJ).
  pose proof (db_apply_returns command (t, d)) as Hret. cbn [fst snd] in Hret. rewrite <- E in Hret.
  unfold db_apply, in_parts in *. cbn [fst snd] in *.
  destruct (store_part t command l) as [r l'], (db_part t command d) as [r' d']. cbn in *. subst r'.
  destruct (participant_part t command r) as [r' t'] eqn:Ep. split_and!; [done|done|done|].
  destruct (TryDecodeTxnControl command) eqn:Ec; [right|left; by eexists|right];
    (apply Hret; [intros [e' He']; unfold corrupt in *; congruence|done]).
Qed.

Lemma run_agrees cmds t l d : rep l d -> commands_fit (t, d) cmds ->
  let '(rs, (t', l')) := run_commands (server_apply 0) cmds (t, l : ledger) in
  exists out d', rs = Ret out /\ run_commands db_apply cmds (t, d) = (Ret out, (t', d')) /\ rep l' d' /\
    Forall2 (fun cmd r => corrupt cmd \/ exists error, r = Ret error) cmds out.
Proof.
  revert t l d. induction cmds as [|cmd cmds IH]; intros t l d Hr Hf; [by exists [], d|].
  destruct Hf as [Hf Hfs]. cbn [fst snd] in Hf. pose proof (apply_agrees cmd t l d Hr Hf) as Ha.
  cbn [run_commands session]. unfold mbind, ST_bind, attempt.
  destruct (server_apply 0 cmd (t, l)) as [r [t1 l1]], (db_apply cmd (t, d)) as [r' [t1' d1]].
  destruct Ha as (<- & <- & HJ & Hc). cbn [snd] in Hfs. specialize (IH t1 l1 d1 HJ Hfs). unfold run_commands in IH.
  destruct (session (server_apply 0) cmds (t1, l1)) as [rs [t2 l2]]. destruct IH as (out & d2 & -> & E2 & HJ2 & Hall).
  rewrite E2. exists (r :: out), d2. split_and!; [done|done|done|by constructor].
Qed.

(** C12: the state machine of a node is a database with transactions.  On any store that represents a
    database, the commands of a log -- SQL texts, PREPARE, COMMIT and ABORT, and anything else --
    report exactly what they report on the database, leave the same prepared transactions and
    locks, and leave the store representing the resulting database; and a callback throws only
    on a control command that does not decode. *)
Theorem server_refines_database {S} `{KVStoreLaws S} b (s : S) t d cmds :
  represents (kv_contents s) d -> commands_fit (t, d) cmds ->
  kv_ok (b + run_size t (kv_contents s) cmds) s ->
  exists rs t' s' d',
    run_commands (server_apply 0) cmds (t, s) = (Ret rs, (t', s')) /\
    run_commands db_apply cmds (t, d) = (Ret rs, (t', d')) /\
    kv_ok b s' /\ represents (kv_contents s') d' /\
    Forall2 (fun cmd r => corrupt cmd \/ exists error, r = Ret error) cmds rs.
Proof.
  intros Hr Hf Hok. pose proof (run_agrees cmds t (kv_contents s, 0%N) d Hr Hf) as Ha. unfold run_size in Hok.
  destruct (run_commands (server_apply 0) cmds (t, (kv_contents s, 0%N) : ledger)) as [rs [t' [m c]]] eqn:E.
  destruct Ha as (out & d' & -> & Ed & HJ & Hall). cbn in Hok.
  destruct (run_sim cmds t _ 0 b s _ _ _ _ eq_refl E) as (s' & Es & Hok' & <-); [by rewrite N.sub_0_r|].
  exists out, t', s', d'. done.
Qed.

(** ** A node applies its log *)

(** The commands that the state machine is handed. *)
Definition applied_commands (l : list LogEntry) : list bytes := command <$> filter (fun e => is_change e = false) l.

Lemma entries_run {S} `{KVStore S} l (ts ts' : TxnParticipant * S) errs rs :
  run_commands (server_apply 0) (applied_commands l) ts = (Ret rs, ts') ->
  Forall (fun r => exists error, r = Ret error) rs ->
  entries_return (ts, errs) l /\ (foldl apply_entry (ts, errs) l).1 = ts'.
Proof.
  unfold applied_commands. revert ts errs rs. induction l as [|e l IH]; intros ts errs rs; [by intros [= <- <-]|].
  cbn [foldl entries_return]. unfold apply_entry at 1 3. cbn [fst snd].
  destruct (is_change e) eqn:Hc.
  - rewrite filter_cons_False by congruence. intros E Hrs. destruct (IH _ errs _ E Hrs) as [H1 H2]. by repeat split.
  - rewrite filter_cons_True by done. cbn [run_commands session fmap list_fmap]. unfold mbind at 1, ST_bind at 1, attempt at 1.
    change (apply_callback (index e) (command e) ts) with (server_apply 0 (command e) ts).
    destruct (server_apply 0 (command e) ts) as [r ts1]. unfold mbind, ST_bind.
    destruct (session (server_apply 0) _ ts1) as [[rs1|x|] ts2] eqn:E2; [|done..].
    intros [= <- <-] Hrs. apply Forall_cons in Hrs as [[error ->] Hrs].
    destruct (IH ts1 (if decide (error = []) then errs else <[index e := error]> errs) rs1 E2 Hrs) as [H1 H2].
    split; [split; [intros _; by exists error, ts1|exact H1]|exact H2].
Qed.

(** A replica's database is the result of its committed log: when a node whose store represents
    [d] applies what is committed, its store represents what the database machine makes of [d]
    with the commands of the newly committed entries, in log order; membership changes do not
    reach it.  The store can be any, in particular the storage engine of this repository. *)
Theorem committed_log_runs {S} `{KVStoreLaws S} (n : RaftNode (TxnParticipant * S)) b t s d :
  sm_ n = (t, s) -> represents (kv_contents s) d -> committed_ok n ->
  let cmds := applied_commands (entries_between (last_applied_ n + 1) (commit_index_ n) (log_ n)) in
  commands_fit (t, d) cmds -> Forall (fun cmd => ~ corrupt cmd) cmds ->
  kv_ok (b + run_size t (kv_contents s) cmds) s ->
  exists n' t' s' d' rs,
    ApplyCommitted n = (Ret tt, n') /\ last_applied_ n' = commit_index_ n /\ sm_ n' = (t', s') /\
    run_commands db_apply cmds (t, d) = (Ret rs, (t', d')) /\ represents (kv_contents s') d' /\ kv_ok b s'.
Proof.
  intros Hsm Hr Hn cmds Hf Hc Hok. pose proof (run_agrees cmds t (kv_contents s, 0%N) d Hr Hf) as Ha. unfold run_size in Hok.
  destruct (run_commands (server_apply 0) cmds (t, (kv_contents s, 0%N) : ledger)) as [rs [t' [m c]]] eqn:E.
  destruct Ha as (out & d' & -> & Ed & HJ & Hall). cbn in Hok.
  destruct (run_sim cmds t _ 0 b s _ _ _ _ eq_refl E) as (s' & Es & Hok' & <-); [by rewrite N.sub_0_r|].
  assert (Hrs : Forall (fun r => exists error, r = Ret error) out).
  { clear - Hall Hc. induction Hall as [|cmd r cmds rs Hr Hall IH]; [constructor|].
    apply Forall_cons in Hc as [Hc Hcs]. constructor; [by destruct Hr|by apply IH]. }
  destruct (entries_run _ (t, s) _ (apply_errors_ n) _ Es Hrs) as [He Hs]. rewrite <- Hsm in He, Hs.
  destruct (ApplyCommitted_run n Hn He) as (n' & E1 & E2 & E3 & _).
  exists n', t', s', d', out. split_and!; [done|done|by rewrite E3|done|exact HJ|done].
Qed.

(** ** Snapshots *)

Definition pair_bytes (kv : bytes * bytes) : bytes := string_bytes kv.1 ++ string_bytes kv.2.

Lemma EncodeSnapshot_bytes kvs : EncodeSnapshot kvs = le_bytes 4 (size32 kvs) ++ concat (map pair_bytes kvs).
Proof.
  unfold EncodeSnapshot. rewrite (foldl_append _ pair_bytes).
  - unfold AppendU32, vector_bytes. done.
  - intros out kv. unfold EncodePair. by rewrite !AppendString_app, <- app_assoc.
Qed.

(** What a snapshot can hold: the counts and lengths are 32-bit fields. *)
Definition pairs_fit (kvs : list (bytes * bytes)) : Prop := fits32 kvs /\ Forall (fun kv => fits32 kv.1 /\ fits32 kv.2) kvs.

Lemma snapshot_u32_at pre v post : (v < two32)%N ->
  snapshot_u32 (pre ++ le_bytes 4 v ++ post) (N.of_nat (length pre)) = Ret (v, (N.of_nat (length pre) + 4)%N).
Proof.
  intros Hv. unfold snapshot_u32. rewrite !length_app, length_le_bytes. case_match eqn:E; [apply N.ltb_lt in E; lia|].
  rewrite Nat2N.id, drop_app_length, take_app_le, take_ge by (rewrite length_le_bytes; lia).
  by rewrite (le_val_small 4).
Qed.

Lemma substr_at pre s post : substr (pre ++ s ++ post) (N.of_nat (length pre)) (N.of_nat (length s)) = Ret s.
Proof.
  unfold substr. rewrite !length_app. case_match eqn:E; [apply N.ltb_lt in E; lia|].
  rewrite N.min_l by lia. by rewrite !Nat2N.id, drop_app_length, take_app_length.
Qed.

Lemma decode_pairs_at kvs pre post : Forall (fun kv => fits32 kv.1 /\ fits32 kv.2) kvs ->
  decode_pairs (length kvs) (pre ++ concat (map pair_bytes kvs) ++ post) (N.of_nat (length pre)) = Ret kvs.
Proof.
  intros Hall. revert pre. induction Hall as [|[k v] kvs [Hk Hv] Hall IH]; intros pre; [done|].
  cbn [length decode_pairs map concat fst snd] in *.
  assert (Ep : pair_bytes (k, v) = le_bytes 4 (N.of_nat (length k)) ++ k ++ le_bytes 4 (N.of_nat (length v)) ++ v).
  { unfold pair_bytes, string_bytes. cbn [fst snd]. by rewrite !size32_small, <- app_assoc by done. }
  rewrite Ep, <- !app_assoc. clear Ep.
  set (tail := concat (map pair_bytes kvs) ++ post).
  rewrite snapshot_u32_at by done. cbn [mbind outcome_bind fst snd].
  set (pre1 := pre ++ le_bytes 4 (N.of_nat (length k))).
  assert (L1 : (N.of_nat (length pre) + 4)%N = N.of_nat (length pre1)).
  { unfold pre1. rewrite length_app, length_le_bytes. lia. }
  replace (pre ++ le_bytes 4 (N.of_nat (length k)) ++ k ++ le_bytes 4 (N.of_nat (length v)) ++ v ++ tail)
    with (pre1 ++ k ++ le_bytes 4 (N.of_nat (length v)) ++ v ++ tail) by (unfold pre1; by rewrite <- app_assoc).
  rewrite L1, substr_at. cbn [mbind outcome_bind].
  set (pre2 := pre1 ++ k).
  assert (L2 : (N.of_nat (length pre1) + N.of_nat (length k))%N = N.of_nat (length pre2)).
  { unfold pre2. rewrite length_app. lia. }
  replace (pre1 ++ k ++ le_bytes 4 (N.of_nat (length v)) ++ v ++ tail)
    with (pre2 ++ le_bytes 4 (N.of_nat (length v)) ++ v ++ tail) by (unfold pre2; by rewrite <- app_assoc).
  rewrite L2, snapshot_u32_at by done. cbn [mbind outcome_bind fst snd].
  set (pre3 := pre2 ++ le_bytes 4 (N.of_nat (length v))).
  assert (L3 : (N.of_nat (length pre2) + 4)%N = N.of_nat (length pre3)).
  { unfold pre3. rewrite length_app, length_le_bytes. lia. }
  replace (pre2 ++ le_bytes 4 (N.of_nat (length v)) ++ v ++ tail) with (pre3 ++ v ++ tail)
    by (unfold pre3; by rewrite <- app_assoc).
  rewrite L3, substr_at. cbn [mbind outcome_bind].
  assert (L4 : (N.of_nat (length pre3) + N.of_nat (length v))%N = N.of_nat (length (pre3 ++ v))).
  { rewrite length_app. lia. }
  rewrite app_assoc, L4. unfold tail. by rewrite IH.
Qed.

Lemma DecodeSnapshot_Encode kvs : pairs_fit kvs -> DecodeSnapshot (EncodeSnapshot kvs) = Ret kvs.
Proof.
  intros [Hn Hall]. rewrite EncodeSnapshot_bytes. unfold DecodeSnapshot.
  pose proof (snapshot_u32_at [] (size32 kvs) (concat (map pair_bytes kvs)) (size32_bound _)) as E.
  cbn [length app] in E. change (N.of_nat 0) with 0%N in E. rewrite E. cbn [mbind outcome_bind fst snd].
  rewrite size32_small, Nat2N.id by done.
  pose proof (decode_pairs_at kvs (le_bytes 4 (N.of_nat (length kvs))) [] Hall) as E'.
  by rewrite app_nil_r, length_le_bytes in E'.
Qed.

Lemma with_prefix_nil {V} (l : list (bytes * V)) : with_prefix [] l = l.
Proof. apply filter_keep_all, Forall_forall. intros [k v] _. apply starts_with_nil. Qed.

(** The room that restoring takes. *)
Definition pairs_cost (kvs : list (bytes * bytes)) : N :=
  foldr (fun kv n => entry_cost kv.1 (Some kv.2) + n)%N 0%N kvs.

Lemma put_pairs {S} `{KVStoreLaws S} kvs b (s : S) : kv_ok (b + pairs_cost kvs) s ->
  exists s', st_for kvs put_pair s = (Ret tt, s') /\ kv_ok b s' /\
    kv_contents s' = foldl (fun m kv => <[kv.1 := kv.2]> m) (kv_contents s) kvs.
Proof.
  revert s. induction kvs as [|[k v] kvs IH]; intros s Hok.
  - exists s. split_and!; [done| |done]. eapply kv_ok_less; [exact Hok|cbn; lia].
  - cbn [st_for foldl]. unfold put_pair at 1. cbn [fst snd].
    destruct (kv_put_spec (b + pairs_cost kvs) s k v) as (s1 & E1 & Hok1 & Hc1).
    { eapply kv_ok_less; [exact Hok|]. cbn [pairs_cost foldr fst snd]. unfold pairs_cost. lia. }
    rewrite (run_bind _ _ _ _ _ E1). destruct (IH s1 Hok1) as (s2 & E2 & Hok2 & Hc2).
    exists s2. rewrite Hc2, Hc1. by split_and!.
Qed.

Lemma snapshot_restores {S1 S2} `{KVStoreLaws S1} `{KVStoreLaws S2} (s1 : S1) (s2 : S2) t1 t2 b1 b2 :
  kv_ok b1 s1 -> pairs_fit (map_entries (kv_contents s1)) ->
  kv_ok (b2 + pairs_cost (map_entries (kv_contents s1))) s2 ->
  exists s2', server_restore (server_snapshot (t1, s1)) (t2, s2) = (Ret tt, (t2, s2')) /\
    kv_contents s2' = kv_contents s1 /\ kv_ok b2 s2'.
Proof.
  intros Hok1 Hfit Hok2. unfold server_restore, server_snapshot. cbn [snd].
  rewrite (kv_scan_spec b1 s1 []), with_prefix_nil by done. rewrite DecodeSnapshot_Encode by done. rewrite run_lift_ret.
  destruct (kv_reset_spec _ _ Hok2) as (s3 & E3 & Hok3 & Hc3). unfold on_store, st_catch. cbn [fst snd].
  rewrite (run_bind _ _ _ _ _ E3). destruct (put_pairs _ _ _ Hok3) as (s4 & E4 & Hok4 & Hc4). rewrite E4.
  exists s4. split_and!; [done| |done]. by rewrite Hc4, Hc3, insert_map_entries.
Qed.

(** C25: a snapshot carries the whole store: restoring what one node dumped makes the store of
    another node, whatever it held before and however either of them keeps its data, hold
    exactly the same keys and values. *)
Theorem snapshot_transfer {S1 S2} `{KVStoreLaws S1} `{KVStoreLaws S2} (s1 : S1) (s2 : S2) t1 t2 b1 b2 :
  kv_ok b1 s1 -> pairs_fit (map_entries (kv_contents s1)) ->
  kv_ok (b2 + pairs_cost (map_entries (kv_contents s1))) s2 ->
  exists s2', server_restore (server_snapshot (t1, s1)) (t2, s2) = (Ret tt, (t2, s2')) /\
    kv_contents s2' = kv_contents s1 /\ kv_ok b2 s2'.
Proof. apply snapshot_restores. Qed.

(** ** Concrete nodes *)

Abbreviation map_server := (TxnParticipant * gmap (list ascii) (list ascii))%type.

Definition fresh_server : map_server := (new_participant, ∅).

(** The results of a log on a fresh node, and the value of a row after it. *)
Definition results (cmds : list bytes) (ts : map_server) : outcome (list (outcome bytes)) :=
  (run_commands (server_apply 0) cmds ts).1.
Definition stored (key : bytes) (ts : map_server) : bool := bool_decide (is_Some (ts.2 !! key)).
Definition after (cmds : list bytes) (ts : map_server) : map_server := (run_commands (server_apply 0) cmds ts).2.

Definition set_up : list bytes :=
  [str "create database shop"; str "create table shop.items (id TEXT PRIMARY KEY, n INT)"].
Definition insert_pen : bytes := str "insert into shop.items (id, n) values ('pen', 1)".
Definition pen_key : bytes := RowKey (str "shop") (str "items") (str "pen").
Definition insert_ink : bytes := str "insert into shop.items (id, n) values ('ink', 2)".
Definition ink_row_key : bytes := RowKey (str "shop") (str "items") (str "ink").

Definition prepare (id : N) (ks cmds : list bytes) : bytes :=
  EncodeTxnPrepare {| p_txn_id := id; p_keys := ks; p_commands := cmds |}.

Definition demo_log : list bytes :=
  set_up ++ [prepare 7 [pen_key] [insert_pen]; prepare 8 [pen_key; ink_row_key] [insert_ink]; EncodeTxnCommit 7;
             EncodeTxnAbort 8; EncodeTxnCommit 8; prepare 9 [pen_key] [insert_pen]; str "select" ].

(** *** Properties by example *)

(** A batch that inserts the same key twice is prepared, although its COMMIT must fail: the check
    for duplicates compares each staged INSERT with the rows there are and not with the INSERTs
    before it.  The commit runs the first command and fails on the second, so half of the
    transaction stays. *)
Theorem staged_duplicates_missed :
  let log := set_up ++ [prepare 7 [pen_key; pen_key] [insert_pen; insert_pen]; EncodeTxnCommit 7] in
  results log fresh_server = Ret [Ret []; Ret []; Ret []; Ret (str "duplicate primary key: pen")] /\
  stored pen_key (after log fresh_server) = true.
Proof. split; vm_compute; reflexivity. Qed.

(** A snapshot does not carry the prepared transactions: a node that is restored from a snapshot
    taken between PREPARE and COMMIT does not only forget the locks, it refuses the COMMIT and
    never runs the commands that the other replicas run; from then on it differs from them. *)
Theorem restored_replica_diverges :
  let prepared := after (set_up ++ [prepare 7 [pen_key] [insert_pen]]) fresh_server in
  let restored := (server_restore (server_snapshot prepared) fresh_server).2 in
  results [EncodeTxnCommit 7] prepared = Ret [Ret []] /\
  stored pen_key (after [EncodeTxnCommit 7] prepared) = true /\
  results [EncodeTxnCommit 7] restored = Ret [Ret (unknown_message 7)] /\
  stored pen_key (after [EncodeTxnCommit 7] restored) = false.
Proof. split_and!; vm_compute; reflexivity. Qed.

(** The one-byte command 00 is accepted from any client, replicated and committed like any other
    command, and makes the apply callback throw, which its contract forbids: on every replica,
    and again after a restart. *)
Theorem corrupt_control_escapes {S} `{KVStore S} index (ts : TxnParticipant * S) :
  apply_callback index [zero] ts = (Throw (RuntimeError corrupt_txn), ts) /\
  TryDecodeConfChange [zero] = Ret None.
Proof. split; reflexivity. Qed.

(** A read request executes whatever text it carries: an INSERT sent as a read changes the store
    of the one replica that answers, without an entry in the log. *)
Theorem read_request_writes :
  let ts := after set_up fresh_server in
  (server_read insert_pen ts).1 = Ret (str "OK") /\ stored pen_key ts = false /\
  stored pen_key (server_read insert_pen ts).2 = true.
Proof. split_and!; vm_compute; reflexivity. Qed.

(** A snapshot that was cut off inside its last value is decoded without an error, with a
    shortened value. *)
Theorem cut_snapshot_accepted :
  let blob := EncodeSnapshot [(str "k", str "value")] in
  DecodeSnapshot (take (length blob - 3) blob) = Ret [(str "k", str "va")].
Proof. vm_compute. reflexivity. Qed.

(** *** Witnesses *)

Lemma replicas_agree_witness : exists rs t' s1' s2',
  run_commands (server_apply 0) demo_log (new_participant, ∅ : gmap (list ascii) (list ascii)) = (rs, (t', s1')) /\
  run_commands (server_apply 0) demo_log (new_participant, ∅ : gmap (list ascii) (list ascii)) = (rs, (t', s2')) /\
  s1' = s2'.
Proof.
  destruct (replicas_agree (∅ : gmap (list ascii) (list ascii)) (∅ : gmap (list ascii) (list ascii)) new_participant demo_log 0 0)
    as (rs & t' & s1' & s2' & E1 & E2 & Hc & _); [reflexivity|exact I|exact I|].
  exists rs, t', s1', s2'. split; [exact E1|]. split; [exact E2|exact Hc].
Defined.

Lemma server_refines_database_witness : exists rs t' s' d',
  run_commands (server_apply 0) demo_log fresh_server = (Ret rs, (t', s')) /\
  run_commands db_apply demo_log (new_participant, ∅) = (Ret rs, (t', d')) /\ length rs = 9%nat.
Proof.
  destruct (server_refines_database 0 (∅ : gmap (list ascii) (list ascii)) new_participant ∅ demo_log)
    as (rs & t' & s' & d' & E1 & E2 & _ & _ & Hall).
  - exact represents_empty.
  - apply (bool_decide_unpack _). vm_compute. exact I.
  - exact I.
  - exists rs, t', s', d'. split; [exact E1|]. split; [exact E2|]. symmetry. exact (Forall2_length _ _ _ Hall).
Defined.

(** A node with the set-up and an insertion committed and not applied. *)
Definition demo_node : RaftNode map_server :=
  match new_node 1 {| host := str "h"; port := 1 |} ∅ (str "d") false fresh_server ∅ with
  | Ret n =>
    set_commit_index 3 (set_log (with_entries
      [{| index := 1; term := 1; command := str "create database shop" |};
       {| index := 2; term := 1; command := str "create table shop.items (id TEXT PRIMARY KEY, n INT)" |};
       {| index := 3; term := 1; command := insert_pen |}] empty_log) n)
  | _ => MkNode 0 no_address ∅ [] PersistentState.fresh empty_log MembershipState.fresh kFollower 0 0 0
           true 0 false ∅ 0 0 0 None ∅ ∅ ∅ fresh_server {| files := ∅; journal := [] |} []
  end.

Lemma demo_node_ok : committed_ok demo_node.
Proof.
  split; try by vm_compute.
  - split; [|by vm_compute]. intros i e Hi. do 3 (destruct i as [|i]; [by injection Hi as <-|]). by destruct i.
  - intros i e Hi. change (i <= 3)%N in Hi. assert (i = 0 \/ i = 1 \/ i = 2 \/ i = 3)%N as [->|[->|[->| ->]]] by lia;
      [done|intros [= <-]; by exists None..].
Qed.

Lemma committed_log_runs_witness : exists n' s' d',
  ApplyCommitted demo_node = (Ret tt, n') /\ last_applied_ n' = 3%N /\ (sm_ n').2 = s' /\ represents s' d'.
Proof.
  destruct (committed_log_runs demo_node 0 new_participant (∅ : gmap (list ascii) (list ascii)) ∅)
    as (n' & t' & s' & d' & rs & E1 & E2 & E3 & _ & Hr & _).
  - reflexivity.
  - exact represents_empty.
  - exact demo_node_ok.
  - apply (bool_decide_unpack _). vm_compute. exact I.
  - assert (Hall : forall cmd, TryDecodeTxnControl cmd = Ret None -> ~ corrupt cmd) by (intros cmd Hd [e He]; congruence).
    repeat (apply Forall_cons_2; [apply Hall; reflexivity|]). apply Forall_nil_2.
  - exact I.
  - exists n', s', d'. split; [exact E1|]. split; [exact E2|]. split; [by rewrite E3|exact Hr].
Defined.

Lemma snapshot_transfer_witness :
  let s1 := (after (set_up ++ [insert_pen]) fresh_server).2 in
  exists s2', server_restore (server_snapshot (new_participant, s1)) (new_participant, {[str "old" := str "x"]}) =
    (Ret tt, (new_participant, s2')) /\ s2' = s1.
Proof.
  destruct (snapshot_transfer (after (set_up ++ [insert_pen]) fresh_server).2
    ({[str "old" := str "x"]} : gmap (list ascii) (list ascii)) new_participant new_participant 0 0) as (s2' & E & Hc & _).
  - exact I.
  - split; [apply (bool_decide_unpack _); vm_compute; exact I|].
    apply (bool_decide_unpack _). vm_compute. exact I.
  - exact I.
  - exists s2'. split; [exact E|exact Hc].
Defined.
