(* ===== verification/ServerCluster.v ===== *)
(** * The cluster serves one database

    [Transfers] and [ServerSpec] together: the nodes of a shard, each with a store of its own that
    a restart opens again and a snapshot may replace, represent the database that the committed
    log makes of the one they started with, and a write that was acknowledged is in it for good.
    The runs are those of [transfer_step], in which nodes stop between critical sections and are
    not moved while they install a snapshot. *)

From Stdlib Require Import NArith Lia.
From stdpp Require Import fin_maps fin_sets fin_map_dom strings.
From S2P Require Export Transfers ServerSpec EngineCrash.

(** Executing a log is running its commands. *)
Lemma exec_run {S} `{KVStore S} l (ts : TxnParticipant * S) : foldl exec ts l = (run_commands (server_apply 0) (applied_commands l) ts).2.
Proof.
  unfold applied_commands. revert ts. induction l as [|e l IH]; intros ts; [done|]. cbn [foldl]. rewrite IH. unfold exec.
  destruct (is_change e) eqn:Hc; [by rewrite filter_cons_False by congruence|]. rewrite filter_cons_True by done.
  cbn [run_commands session fmap list_fmap]. change (apply_callback (index e) (command e) ts) with (server_apply 0 (command e) ts).
  unfold mbind, ST_bind, run_commands, attempt. destruct (server_apply 0 (command e) ts) as [r ts1]. cbn [snd].
  by destruct (session _ _ ts1) as [[rs|x|] ts2].
Qed.

(** ** The room a log takes *)

Section room.
Context (t : TxnParticipant) (m : gmap (list ascii) (list ascii)).
Implicit Types (l : list LogEntry) (tl : TxnParticipant * ledger).

(** The transactions, the data and the bytes written after [l], from [t] and [m]. *)
Definition ledger_after l : TxnParticipant * ledger := foldl exec (t, (m, 0%N) : ledger) l.

(** What restoring a snapshot after each entry of [l] would write. *)
Fixpoint restoring_cost tl l : N :=
  match l with
  | [] => 0
  | e :: l' => let tl' := exec tl e in (pairs_cost (map_entries tl'.2.1) + restoring_cost tl' l')%N
  end.

(** Room for executing [l] and for a snapshot at each of its entries: what a store takes of its
    room at most, whichever way it comes to the end of [l]. *)
Definition room_used l : N := ((ledger_after l).2.2 + restoring_cost (t, (m, 0%N) : ledger) l)%N.

Lemma restoring_cost_app tl l l' : restoring_cost tl (l ++ l') = (restoring_cost tl l + restoring_cost (foldl exec tl l) l')%N.
Proof. revert tl. induction l as [|e l IH]; intros tl; [done|]. cbn [app restoring_cost foldl]. cbv zeta. rewrite IH. lia. Qed.

Lemma ledger_after_app l l' : ledger_after (l ++ l') = foldl exec (ledger_after l) l'.
Proof. apply foldl_app. Qed.

Lemma ledger_grows tl l : (tl.2.2 <= (foldl exec tl l).2.2)%N.
Proof. rewrite exec_run. destruct tl as [t' lg]. apply run_cost. Qed.

Lemma room_used_app l l' : (room_used l + ((ledger_after (l ++ l')).2.2 - (ledger_after l).2.2) <= room_used (l ++ l'))%N.
Proof. unfold room_used. rewrite restoring_cost_app, ledger_after_app. pose proof (ledger_grows (ledger_after l) l'). lia. Qed.

Lemma room_used_take k l : (room_used (take k l) <= room_used l)%N.
Proof. pose proof (room_used_app (take k l) (drop k l)) as Hr. rewrite take_drop in Hr. lia. Qed.

Lemma room_used_snoc l e : (room_used l + pairs_cost (map_entries (ledger_after (l ++ [e])).2.1) <= room_used (l ++ [e]))%N.
Proof.
  unfold room_used. rewrite restoring_cost_app, ledger_after_app. pose proof (ledger_grows (ledger_after l) [e]).
  cbn [foldl restoring_cost]. cbv zeta. cbn [foldl] in *. change (foldl exec (t, (m, 0%N) : ledger) l) with (ledger_after l). lia.
Qed.

Lemma room_used_restored k l : (k < length l)%nat ->
  (room_used (take k l) + pairs_cost (map_entries (ledger_after l).2.1) <= room_used l)%N.
Proof.
  intros Hk. destruct (exists_last (l := l)) as (l' & e & ->); [intros ->; cbn in Hk; lia|]. rewrite length_app in Hk. cbn in Hk.
  rewrite take_app_le by lia. pose proof (room_used_take k l'). pose proof (room_used_snoc l' e). lia.
Qed.
End room.

(** ** The state machine of a shard *)

Section serving.
Context {S : Type} `{KVRecovery S}.
Abbreviation server := (TxnParticipant * S)%type.
Implicit Types (l : list LogEntry) (t : TxnParticipant) (d : database) (s : S) (ts : server).

(** A new process knows of no prepared transaction, so none is lost only if there was none; it opens
    the store again. *)
Definition shard_recovers ts ts' : Prop := ts.1 = new_participant /\ ts'.1 = new_participant /\ kv_recovers ts.2 ts'.2.

(** A snapshot has all of a shard in which no transaction is prepared; lengths of keys and values
    fit their fields. *)
Definition settled_shard ts : Prop := ts.1 = new_participant /\ pairs_fit (map_entries (kv_contents ts.2)).

(** Stores that started with room for [b] bytes hold what executing [l] writes to a map. *)
Definition holds (b : N) t m l ts : Prop := (room_used t m l <= b)%N ->
  ts.1 = (ledger_after t m l).1 /\ kv_contents ts.2 = (ledger_after t m l).2.1 /\ kv_ok (b - room_used t m l) ts.2.

Lemma room_left (r r' x b : N) : (r + x <= r' -> r' <= b -> b - r' + x <= b - r)%N.
Proof. lia. Qed.

Lemma holds_start b t m s : kv_contents s = m -> kv_ok b s -> holds b t m [] (t, s).
Proof. intros <- Hok _. by rewrite N.sub_0_r. Qed.

Lemma exec_sim e tl b ts : ts.1 = tl.1 -> kv_contents ts.2 = tl.2.1 -> kv_ok (b + ((exec tl e).2.2 - tl.2.2)) ts.2 ->
  (exec ts e).1 = (exec tl e).1 /\ kv_contents (exec ts e).2 = (exec tl e).2.1 /\ kv_ok b (exec ts e).2.
Proof.
  destruct ts as [t s], tl as [t' [m c]]. cbn [fst snd]. intros -> Em.
  change (exec (t', s) e) with (foldl exec (t', s) [e]). change (exec (t', (m, c) : ledger) e) with (foldl exec (t', (m, c) : ledger) [e]).
  rewrite !exec_run. destruct (run_commands (server_apply 0) (applied_commands [e]) (t', (m, c) : ledger)) as [rs [t1 [m1 c1]]] eqn:E.
  cbn [fst snd]. intros Hok. destruct (run_sim (applied_commands [e]) t' m c b s _ _ _ _ Em E Hok) as (s' & -> & Hok' & Hm). done.
Qed.

Program Definition shard_spec (b : N) t m : ReplicaSpec shard_recovers settled_shard := {| makes := holds b t m |}.
Next Obligation.
  intros b t m l e ts Hs Hb. pose proof (room_used_app t m l [e]) as Hr. destruct Hs as (Et & Em & Hok); [lia|].
  rewrite ledger_after_app in *. cbn [foldl] in *.
  destruct (exec_sim e (ledger_after t m l) (b - room_used t m (l ++ [e])) ts) as (Et' & Em' & Hok'); [done|done| |done].
  eapply kv_ok_less; [exact Hok|]. exact (room_left _ _ _ _ Hr Hb).
Qed.
Next Obligation.
  intros b t m l ts ts' Hs (Et & Et' & Hrec) Hb. destruct (Hs Hb) as (E & Em & Hok).
  destruct (kv_recovers_spec _ _ _ Hrec Hok) as [Hok' Em']. split_and!; congruence.
Qed.
Next Obligation.
  intros b t m l k [t1 s1] [t2 s2] [t3 s3] Hs1 Hs2 Hk [Et1 Hfit] [Et2 _] E Hb. cbn [fst snd] in *. subst t1 t2.
  destruct (Hs1 Hb) as (Et & Em & Hok). cbn [fst snd] in *. pose proof (room_used_restored t m k l Hk) as Hroom.
  destruct Hs2 as (_ & _ & Hok2); [lia|]. cbn [fst snd] in *.
  destruct (snapshot_restores s1 s2 new_participant new_participant _ (b - room_used t m l) Hok Hfit) as (s4 & E4 & Hc & Hok4).
  { eapply kv_ok_less; [exact Hok2|]. rewrite Em. lia. }
  change (server_restore (server_snapshot (new_participant, s1)) (new_participant, s2) = (Ret tt, (t3, s3))) in E.
  rewrite E4 in E. injection E as <- <-. split_and!; [done|congruence|done].
Qed.

(** What [ts] is once the entries [l] have been executed, by it or by the node a snapshot of which it
    has, from the transactions [t] and stores of contents [m] that represented [d]: it has the
    transactions, and represents the database, that the commands of [l] lead to.  The sizes of what
    is stored fit their fields, and the stores had room. *)
Definition serves (b : N) t d m l ts : Prop :=
  commands_fit (t, d) (applied_commands l) -> (room_used t m l <= b)%N ->
  exists rs d', run_commands db_apply (applied_commands l) (t, d) = (Ret rs, (ts.1, d')) /\
    represents (kv_contents ts.2) d' /\ kv_ok (b - room_used t m l) ts.2.

Lemma holds_serves b t d m l ts : represents m d -> holds b t m l ts -> serves b t d m l ts.
Proof.
  intros Hr Hs Hf Hb. destruct (Hs Hb) as (Et & Em & Hok). pose proof (run_agrees (applied_commands l) t (m, 0%N) d Hr Hf) as Ha.
  unfold ledger_after in Et, Em. rewrite exec_run in Et, Em.
  destruct (run_commands (server_apply 0) (applied_commands l) (t, (m, 0%N) : ledger)) as [rs [t' [m' c]]].
  destruct Ha as (out & d' & -> & Ed & HJ & _). cbn in Et, Em. subst t' m'. by exists out, d'.
Qed.

(** Fresh stores, or any with the same data. *)
Definition serving_start (b : N) t m (c : net (SM := server)) : Prop :=
  map_Forall (fun _ n => (sm_ n).1 = t /\ kv_contents (sm_ n).2 = m /\ kv_ok b (sm_ n).2) (nodes (base c)).

Lemma serving_starts b t m c : serving_start b t m c -> starts _ _ (shard_spec b t m) c.
Proof. intros Hs i n Hi. destruct (Hs i n Hi) as (Et & Em & Hok). destruct (sm_ n) as [t' s]. cbn in *. subst. by apply holds_start. Qed.
End serving.

(** ** A cluster of one, on a storage engine *)

Abbreviation engine_server := (TxnParticipant * StorageEngine)%type.
Abbreviation engine_net := (net (SM := engine_server)).

(** The engine on an empty disk, and the one that a new process opens. *)
Definition new_engine : StorageEngine := (boot (str "kv") ∅ []).2.
Definition reopened (e : StorageEngine) : StorageEngine := (start (db_path e) (files (fs e))).2.

Definition blank_node : RaftNode engine_server :=
  MkNode 1 {| host := str "h"; port := 1 |} ∅ (str "d") PersistentState.fresh empty_log MembershipState.fresh
    kFollower 0 0 0 true 0 false ∅ 0 0 0 None ∅ ∅ ∅ (new_participant, new_engine) {| files := ∅; journal := [] |} [].
Definition start_node (sm : engine_server) (d : files_t) : RaftNode engine_server :=
  match new_node 1 {| host := str "h"; port := 1 |} ∅ (str "d") false sm d with Ret n => n | _ => blank_node end.
Definition solo (n : RaftNode engine_server) : engine_net := Net (Cluster {[1%N := n]} ∅) [] [] [].
Definition elects (n : RaftNode engine_server) : RaftNode engine_server := (StartElection test_env n).2.
Definition writes (cmd : bytes) (n : RaftNode engine_server) : RaftNode engine_server := (ProposeStart cmd n).2.

(** It creates a database, restarts, and creates another. *)
Definition create_shop : bytes := str "create database shop".
Definition create_shop2 : bytes := str "create database shop2".
Definition solo_node := start_node (new_participant, new_engine) ∅.
Definition solo_leader := elects solo_node.
Definition solo_shop := writes create_shop solo_leader.
Definition solo_restarted := start_node (new_participant, reopened (sm_ solo_shop).2) (files (fs_ solo_shop)).
Definition solo_again := elects solo_restarted.
Definition solo_shop2 := writes create_shop2 solo_again.

Abbreviation solo_members := ({[1%N]} : gset N).
Abbreviation solo_resuming := (resuming_step port_book solo_members shard_recovers settled_shard).
Abbreviation solo_transfer := (transfer_step port_book solo_members shard_recovers settled_shard).

Lemma solo_lookup (n m : RaftNode engine_server) i : nodes (base (solo n)) !! i = Some m -> 1%N = i /\ n = m.
Proof. unfold solo. cbn [base nodes]. by intros ?%lookup_singleton_Some. Qed.

Lemma solo_act (n n' : RaftNode engine_server) : rpcs_ n = [] -> rpcs_ n' = [] -> net_act port_book 1 n n' (solo n) = solo n'.
Proof.
  intros E E'. unfold net_act, act, solo. cbn [base nodes threads sent replies installs]. unfold vote_rpcs. rewrite E, E'. cbn.
  by rewrite insert_singleton_eq.
Qed.

Lemma solo_settled (n : RaftNode engine_server) : agreedb port_book solo_members n = true -> peers_ n = ∅ -> settled_members port_book {[1%N]} (solo n).
Proof.
  intros Ha Hp. split.
  - apply fixed_compute. cbn [solo base nodes]. rewrite map_to_list_singleton. cbn [forallb snd]. by rewrite Ha.
  - intros i m [<- <-]%solo_lookup. rewrite Hp. by apply map_Forall_empty.
Qed.

(** What a step of the node has to leave. *)
Definition solo_sound (n n' : RaftNode engine_server) : Prop :=
  agreedb port_book solo_members n' = true /\ peers_ n' = ∅ /\ rpcs_ n = [] /\ rpcs_ n' = [].

Lemma solo_resumes (n n' : RaftNode engine_server) : net_step port_book (solo n) (solo n') -> solo_sound n n' ->
  (last_applied_ n' = last_applied_ n -> sm_ n' = sm_ n \/ shard_recovers (sm_ n) (sm_ n')) -> solo_resuming (solo n) (solo n').
Proof.
  intros Hs (Ha & Hp & _ & _) Hm. split; [split; [done|by apply solo_settled]|]. split; [done|].
  split; [by intros i r ?%not_elem_of_nil|]. intros i m m' [<- <-]%solo_lookup [_ <-]%solo_lookup. split.
  - intros E. destruct (Hm E) as [?|?]; [by left|right]. split; [by apply nothing_installs|done].
  - intros Hni. destruct Hni. by apply nothing_installs.
Qed.

Lemma solo_step (n n' : RaftNode engine_server) : solo_resuming (solo n) (solo n') -> solo_transfer (solo n, ∅) (solo n', ∅).
Proof. apply transfer_resuming. Qed.

Lemma solo_initial : net_initial (solo solo_node).
Proof.
  split; [split; [done|]|split_and!; [done..|]]; intros i n [<- <-]%solo_lookup.
  - split; [by vm_compute|]. split; [by vm_compute|]. by repeat split.
  - unfold log_saved. split_and!; [by vm_compute..|right; by vm_compute].
Qed.

Lemma solo_starts : serving_start 1000 new_participant ∅ (solo solo_node).
Proof.
  intros i n [<- <-]%solo_lookup. split; [reflexivity|]. split; [vm_compute; reflexivity|].
  apply (boot_ok (str "kv") ∅ [] 1000); vm_compute; reflexivity.
Qed.

Lemma solo_elects n : (current_term n + 1 < two64)%N -> solo_sound n (elects n) -> sm_ (elects n) = sm_ n -> solo_resuming (solo n) (solo (elects n)).
Proof.
  intros Hb Hok Hsm. apply solo_resumes; [|exact Hok|by left]. rewrite <- (solo_act n (elects n)) by apply Hok.
  by apply (net_election port_book (solo n) 1 n test_env).
Qed.

Lemma solo_writes cmd k n : TryDecodeConfChange cmd = Ret None -> (LastIndex (log_ n) + 2 < two64)%N ->
  (ProposeStart cmd n).1 = Ret (Appended k) -> solo_sound n (writes cmd n) -> last_applied_ (writes cmd n) <> last_applied_ n ->
  solo_resuming (solo n) (solo (writes cmd n)).
Proof.
  intros Hc Hb Hk Hok Hne. apply solo_resumes; [|exact Hok|done]. rewrite <- (solo_act n (writes cmd n)) by apply Hok.
  apply (net_local port_book (solo n) 1 n); [done|by apply (local_propose port_book n cmd (Appended k))].
Qed.

Lemma solo_elected : solo_resuming (solo solo_node) (solo solo_leader).
Proof. apply solo_elects; [|split_and!|]; vm_compute; reflexivity. Qed.

Lemma solo_created : solo_resuming (solo solo_leader) (solo solo_shop).
Proof. apply (solo_writes create_shop 1); [..|vm_compute; discriminate]; [..|split_and!]; vm_compute; reflexivity. Qed.

Lemma solo_log_fits : log_fits (log_ solo_shop).
Proof.
  assert (E : log_ solo_shop = {| snapshot_index := 0; snapshot_term := 0; applied_index := 1;
    entries := [{| index := 1; term := 1; command := create_shop |}] |}) by (vm_compute; reflexivity).
  rewrite E. do 4 (split; [vm_compute; reflexivity|]). apply Forall_singleton. by split_and!.
Qed.

(** The new process reads the log and opens the engine. *)
Lemma solo_restarts : solo_resuming (solo solo_shop) (solo solo_restarted).
Proof.
  apply solo_resumes; [|split_and!; vm_compute; reflexivity|intros _; right; split_and!; vm_compute; reflexivity].
  rewrite <- (solo_act solo_shop solo_restarted) by (vm_compute; reflexivity).
  apply (net_restart port_book (solo solo_shop) 1 solo_shop solo_restarted {| host := str "h"; port := 1 |} ∅ false
    (new_participant, reopened (sm_ solo_shop).2)); [done|exact solo_log_fits|vm_compute; reflexivity].
Qed.

Lemma solo_elected_again : solo_resuming (solo solo_restarted) (solo solo_again).
Proof. apply solo_elects; [|split_and!|]; vm_compute; reflexivity. Qed.

Lemma solo_created_again : solo_resuming (solo solo_again) (solo solo_shop2).
Proof. apply (solo_writes create_shop2 2); [..|vm_compute; discriminate]; [..|split_and!]; vm_compute; reflexivity. Qed.

Lemma solo_later : rtc solo_transfer (solo solo_shop, ∅) (solo solo_shop2, ∅).
Proof.
  apply (rtc_l _ _ (solo solo_restarted, ∅)); [apply solo_step; exact solo_restarts|].
  apply (rtc_l _ _ (solo solo_again, ∅)); [apply solo_step; exact solo_elected_again|].
  apply rtc_once, solo_step. exact solo_created_again.
Qed.

(** Its log in the end: the commands fit, and leave room. *)
Definition two_creates : list LogEntry :=
  [{| index := 1; term := 1; command := create_shop |}; {| index := 2; term := 2; command := create_shop2 |}].

Lemma solo_log : entries (log_ solo_shop2) = two_creates.
Proof. vm_compute. reflexivity. Qed.

Lemma solo_room : bool_decide (commands_fit (new_participant, ∅) (applied_commands two_creates)) && (room_used new_participant ∅ two_creates <=? 1000)%N = true.
Proof. vm_compute. reflexivity. Qed.

(** ** Properties *)

(** C2: a shard is one database, in any undisturbed run: there is one log such that every node that
    is not between the restoring and the end of an installation has the prepared transactions and
    a store representing the database that result by the commands of that log, up to where the
    node is, from the transactions [t] and the database [d] all of them started with; so nodes
    that are equally far serve the same data.  Stores may be of any kind that keeps its contract
    and can be opened again, as the storage engine.

    What a run is ([transfer_step]): it starts with new nodes; messages are delayed and lost in any
    order, those of replication also repeated, and nodes stop between critical sections; but the
    members stay the same, no callback throws and no index or term reaches 2^64; a node that
    restarts has a log that fits the file format and no prepared transaction, and opens a store
    with the contents that the last completed operation left; read requests leave the state
    machine unchanged; a node takes a snapshot, or starts to install one, only when no
    transaction is prepared there and keys and values fit their fields; it installs one snapshot
    at a time, which is newer than what it has applied, and from the beginning to the end of that
    it applies nothing, takes no snapshot and does not restart, while the others do anything.
    What is said of a node ([serves]) is under two bounds on the commands it has executed: their
    names and values fit, and the stores had room [b] for their writes and for a snapshot after
    each of them. *)
Theorem cluster_serves_one_database {S} `{KVRecovery S} book (M : gset N) (c0 c1 c2 : net (SM := TxnParticipant * S))
    R1 R2 i j (ni nj : RaftNode (TxnParticipant * S)) b t m d :
  net_initial c0 -> settled_members book M c0 -> serving_start b t m c0 -> represents m d ->
  rtc (transfer_step book M shard_recovers settled_shard) (c0, ∅) (c1, R1) ->
  rtc (transfer_step book M shard_recovers settled_shard) (c1, R1) (c2, R2) ->
  nodes (base c1) !! i = Some ni -> i ∉ R1 -> nodes (base c2) !! j = Some nj -> j ∉ R2 ->
  exists L, consecutive 0 L /\
    (N.to_nat (last_applied_ ni) <= length L)%nat /\ (N.to_nat (last_applied_ nj) <= length L)%nat /\
    serves b t d m (take (N.to_nat (last_applied_ ni)) L) (sm_ ni) /\
    serves b t d m (take (N.to_nat (last_applied_ nj)) L) (sm_ nj).
Proof.
  intros H0' Hset Hs%serving_starts Hr H01 H12 Hi HiR Hj HjR.
  destruct (two_replicas book M _ _ (shard_spec b t m) c0 c1 c2 R1 R2 i j ni nj) as (L & HL & L1 & L2 & E1 & E2); try done.
  exists L. split_and!; [done..|by apply holds_serves|by apply holds_serves].
Qed.

(** A node alone, after its first command and, restarted, after its second. *)
Lemma cluster_serves_one_database_witness : exists L, consecutive 0 L /\ (1 <= length L)%nat /\ (2 <= length L)%nat /\
  serves 1000 new_participant ∅ ∅ (take 1 L) (sm_ solo_shop) /\ serves 1000 new_participant ∅ ∅ (take 2 L) (sm_ solo_shop2).
Proof.
  pose proof (cluster_serves_one_database port_book solo_members (solo solo_node) (solo solo_shop) (solo solo_shop2) ∅ ∅ 1 1
    solo_shop solo_shop2 1000 new_participant ∅ ∅) as Hone.
  assert (E1 : last_applied_ solo_shop = 1%N) by (vm_compute; reflexivity).
  assert (E2 : last_applied_ solo_shop2 = 2%N) by (vm_compute; reflexivity).
  rewrite E1, E2 in Hone. apply Hone.
  - exact solo_initial.
  - apply solo_settled; vm_compute; reflexivity.
  - exact solo_starts.
  - exact represents_empty.
  - apply (rtc_l _ _ (solo solo_leader, ∅)); [apply solo_step; exact solo_elected|]. apply rtc_once, solo_step. exact solo_created.
  - exact solo_later.
  - reflexivity.
  - apply not_elem_of_empty.
  - reflexivity.
  - apply not_elem_of_empty.
Defined.

(** C5: an acknowledged write is served for good. In a run in the sense of the theorem before, with all
    its restrictions (the same members, stops between critical sections, stores that are found as
    the last completed operation left them, reads that change nothing, installations that go
    forward and are not disturbed at the node, no transaction prepared at restarts and
    snapshots, room), if a leader appends a command in [Propose] and finds at the end of its
    wait, still leading the same term, that its index is committed, then every node that gets as
    far and is not between the restoring and the end of an installation serves a database in
    which the command was executed, at that index of the sequence of commands. *)
Theorem acknowledged_write_served {S} `{KVRecovery S} book (M : gset N) (c0 c1 c2 c3 : net (SM := TxnParticipant * S))
    R1 R2 R3 i j k (n n2 nj : RaftNode (TxnParticipant * S)) cmd b t m d :
  net_initial c0 -> settled_members book M c0 -> serving_start b t m c0 -> represents m d ->
  rtc (transfer_step book M shard_recovers settled_shard) (c0, ∅) (c1, R1) ->
  nodes (base c1) !! i = Some n -> TryDecodeConfChange cmd = Ret None -> (LastIndex (log_ n) + 2 < two64)%N ->
  (ProposeStart cmd n).1 = Ret (Appended k) -> resuming_step book M shard_recovers settled_shard c1 (net_act book i n (ProposeStart cmd n).2 c1) ->
  rtc (transfer_step book M shard_recovers settled_shard) (net_act book i n (ProposeStart cmd n).2 c1, R1) (c2, R2) ->
  nodes (base c2) !! i = Some n2 -> role_ n2 = kLeader -> current_term n2 = current_term n -> (ProposeFinish k n2).1 = true ->
  rtc (transfer_step book M shard_recovers settled_shard) (c2, R2) (c3, R3) -> nodes (base c3) !! j = Some nj -> j ∉ R3 -> (k <= last_applied_ nj)%N ->
  exists before after, Datatypes.S (length before) = N.to_nat k /\
    serves b t d m (before ++ {| index := k; term := current_term n; command := cmd |} :: after) (sm_ nj).
Proof.
  intros H0' Hset Hs%serving_starts Hr H01 Hi Hcmd Hb Hk Hcalm H12 Hi2 Hrole Ht Hfin H23 Hj HjR Hkj.
  destruct (acknowledged_state book M _ _ (shard_spec b t m) c0 c1 c2 c3 R1 R2 R3 i j k n n2 nj cmd) as (before & after & Hl & E); try done.
  exists before, after. split; [exact Hl|]. by apply holds_serves.
Qed.

(** A node alone creates a database, restarts, and creates another. *)
Lemma acknowledged_write_served_witness : exists before after, Datatypes.S (length before) = 1%nat /\
  serves 1000 new_participant ∅ ∅ (before ++ {| index := 1; term := 1; command := create_shop |} :: after) (sm_ solo_shop2).
Proof.
  assert (E : net_act port_book 1 solo_leader (ProposeStart create_shop solo_leader).2 (solo solo_leader) = solo solo_shop)
    by (apply (solo_act solo_leader solo_shop); vm_compute; reflexivity).
  apply (acknowledged_write_served port_book solo_members (solo solo_node) (solo solo_leader) (solo solo_shop) (solo solo_shop2) ∅ ∅ ∅ 1 1 1
    solo_leader solo_shop solo_shop2 create_shop 1000 new_participant ∅ ∅).
  - exact solo_initial.
  - apply solo_settled; vm_compute; reflexivity.
  - exact solo_starts.
  - exact represents_empty.
  - apply rtc_once, solo_step. exact solo_elected.
  - reflexivity.
  - reflexivity.
  - vm_compute. reflexivity.
  - vm_compute. reflexivity.
  - rewrite E. exact solo_created.
  - rewrite E. apply rtc_refl.
  - reflexivity.
  - vm_compute. reflexivity.
  - vm_compute. reflexivity.
  - vm_compute. reflexivity.
  - exact solo_later.
  - reflexivity.
  - apply not_elem_of_empty.
  - vm_compute. discriminate.
Defined.
