(* ===== verification/Coordinator.v ===== *)
(** * The coordinator of a node ([src/raft_main.cpp], what the REPL does with a statement)

    Broadcasts, scattered SELECTs and two-phase commit, over an interface of what a node can ask:
    its own Raft group ([RaftNode::ProposeOrForward], modelled in RaftNode), the groups of other
    shards ([SendClientRequest], [SendReadRequest], modelled in Client) and its own executor. *)

From Stdlib Require Import NArith Lia.
From S2P Require Export Routing Txn Message Ast.

Definition kCrossShardTimeoutMs : N := 4000.
(** The default timeout of [ProposeOrForward]. *)
Definition kProposeTimeoutMs : N := 3000.

Class Shards (W : Type) := {
  propose_or_forward : bytes -> N -> ST W ClientResponse;
  send_client_request : peer_map -> bytes -> N -> ST W ClientResponse;
  send_read_request : peer_map -> bytes -> N -> ST W bytes;
  execute_locally : bytes -> ST W bytes;  (** [sql.Execute] under [engine_mutex] *)
  extract_row_key : Statement -> ST W (option bytes);  (** [sql.TryExtractRowKey] *)
}.

(** ** Texts *)

(** [" [" + f + "]"] for every failure. *)
Definition bracketed (fs : list bytes) : bytes := concat (map (fun f => str " [" ++ f ++ str "]") fs).

Definition shard_failure (sid : ShardId) (error : bytes) : bytes := str "shard " ++ to_string sid ++ str ": " ++ error.

(** What the REPL prints for a response. *)
Definition PrintClientResponse (resp : ClientResponse) : bytes :=
  if clr_success resp then
    str "OK (committed at index " ++ to_string (clr_index resp) ++ str ", via leader node " ++
    to_string (clr_leader_hint resp) ++ str ")" ++ [newline]
  else
    str "FAILED" ++
    (if clr_not_leader resp && negb (clr_leader_hint resp =? 0)%N then
       str " (best known leader is node " ++ to_string (clr_leader_hint resp) ++ str ", but still failed" ++
       (if decide (clr_error resp = []) then [] else str ": " ++ clr_error resp) ++ str " - retry)"
     else if decide (clr_error resp = []) then [] else str " (" ++ clr_error resp ++ str ")") ++ [newline].

(** ** Merging SELECT results *)

(** The header and the data lines of one result, added to those of the results before. *)
Definition merge_result (acc : bytes * list bytes) (result : bytes) : bytes * list bytes :=
  match pieces newline result with
  | [] => acc
  | header :: lines => (header, acc.2 ++ filter (fun l => l <> str "(0 rows)") lines)
  end.

Definition MergeSelectResults (shard_results : list bytes) : bytes :=
  let '(header, data_lines) := foldl merge_result ([], []) shard_results in
  header ++ concat (map (fun l => [newline] ++ l) data_lines) ++
  match data_lines with [] => [newline] ++ str "(0 rows)" | _ => [] end.

Section coordinator.
Context {W : Type} `{!Shards W} (routing : RoutingTable) (my_shard_id : ShardId).

(** ** Broadcast *)

Record BroadcastResult := { ok_count : nat; failures : list bytes }.

(** [routing.Shard(sid)] cannot throw here: [sid] comes from the table. *)
Fixpoint broadcast (sids : list ShardId) (command : bytes) (timeout_ms : N) (result : BroadcastResult)
  : ST W BroadcastResult :=
  match sids with
  | [] => mret result
  | sid :: sids' =>
    resp ← (if (sid =? my_shard_id)%N then propose_or_forward command kProposeTimeoutMs
            else shard ← st_lift (Shard sid routing); send_client_request (sr_peers shard) command timeout_ms);
    broadcast sids' command timeout_ms
      (if clr_success resp then {| ok_count := ok_count result + 1; failures := failures result |}
       else {| ok_count := ok_count result; failures := failures result ++ [shard_failure sid (clr_error resp)] |})
  end.

Definition BroadcastWrite (command : bytes) (timeout_ms : N) : ST W BroadcastResult :=
  broadcast (AllShardIds routing) command timeout_ms {| ok_count := 0; failures := [] |}.

Definition PrintBroadcastResult (result : BroadcastResult) (verb : bytes) : bytes :=
  match failures result with
  | [] => str "OK (" ++ verb ++ str " on " ++ to_string (N.of_nat (ok_count result)) ++ str " shard(s))" ++ [newline]
  | fs => str "PARTIAL (" ++ to_string (N.of_nat (ok_count result)) ++ str " shard(s) ok):" ++ bracketed fs ++ [newline]
  end.

(** ** Two-phase commit *)

Record BufferedTxnStatement := { b_shard_id : ShardId; b_key : bytes; b_sql : bytes }.

Definition no_prepare : TxnPrepare := {| p_txn_id := 0; p_keys := []; p_commands := [] |}.

(** The loop that fills [by_shard]. *)
Definition group_statement (txn_id : TxnId) (by_shard : gmap N TxnPrepare) (stmt : BufferedTxnStatement) : gmap N TxnPrepare :=
  let p := default no_prepare (by_shard !! b_shard_id stmt) in
  <[b_shard_id stmt := {| p_txn_id := txn_id; p_keys := p_keys p ++ [b_key stmt];
                          p_commands := p_commands p ++ [b_sql stmt] |}]> by_shard.

Definition group_by_shard (txn_id : TxnId) (buffer : list BufferedTxnStatement) : gmap N TxnPrepare :=
  foldl (group_statement txn_id) ∅ buffer.

Definition send_to_shard (timeout_ms : N) (sid : ShardId) (command : bytes) : ST W ClientResponse :=
  if (sid =? my_shard_id)%N then propose_or_forward command timeout_ms
  else shard ← st_lift (Shard sid routing); send_client_request (sr_peers shard) command timeout_ms.

(** Sending with the surrounding [try]: the failure to report, if any. *)
Definition try_send (timeout_ms : N) (sid : ShardId) (command : bytes) : ST W (option bytes) :=
  st_catch
    (resp ← send_to_shard timeout_ms sid command;
     mret (if clr_success resp then None else Some (shard_failure sid (clr_error resp))))
    (fun e => mret (Some (shard_failure sid (what e)))).

(** The first loop: the shards that are prepared, and why it stopped early. *)
Fixpoint prepare_all (timeout_ms : N) (l : list (ShardId * TxnPrepare)) (prepared : list ShardId)
  : ST W (list ShardId * option bytes) :=
  match l with
  | [] => mret (prepared, None)
  | (sid, p) :: l' =>
    failure ← try_send timeout_ms sid (EncodeTxnPrepare p);
    match failure with
    | Some reason => mret (prepared, Some reason)
    | None => prepare_all timeout_ms l' (prepared ++ [sid])
    end
  end.

(** The other two loops: one command to each shard, and the failures. *)
Fixpoint notify_all (timeout_ms : N) (sids : list ShardId) (command : bytes) : ST W (list bytes) :=
  match sids with
  | [] => mret []
  | sid :: sids' =>
    failure ← try_send timeout_ms sid command;
    rest ← notify_all timeout_ms sids' command;
    mret (match failure with Some f => f :: rest | None => rest end)
  end.

Definition aborted_message (reason : bytes) (abort_failures : list bytes) : bytes :=
  str "ABORTED (" ++ reason ++ str ")" ++
  concat (map (fun f => str " [rollback also failed on " ++ f ++ str "]") abort_failures).

Definition committed_message (txn_id : TxnId) (shards : nat) : bytes :=
  str "OK (committed transaction " ++ to_string txn_id ++ str " across " ++ to_string (N.of_nat shards) ++ str " shard(s))".

Definition undelivered_message (txn_id : TxnId) (commit_failures : list bytes) : bytes :=
  str "transaction " ++ to_string txn_id ++ str " was DECIDED TO COMMIT but couldn't notify every shard:" ++
  bracketed commit_failures ++
  str " - those shard(s) may still be holding locks; retrying the same COMMIT is safe once they're reachable".

Definition RunTransaction (txn_id : TxnId) (buffer : list BufferedTxnStatement) (timeout_ms : N) : ST W bytes :=
  let by_shard := map_entries (group_by_shard txn_id buffer) in
  r ← prepare_all timeout_ms by_shard [];
  match r.2 with
  | Some reason =>
    abort_failures ← notify_all timeout_ms r.1 (EncodeTxnAbort txn_id);
    mret (aborted_message reason abort_failures)
  | None =>
    commit_failures ← notify_all timeout_ms by_shard.*1 (EncodeTxnCommit txn_id);
    mret (match commit_failures with
          | [] => committed_message txn_id (length by_shard)
          | fs => undelivered_message txn_id fs
          end)
  end.

(** ** A scattered SELECT *)

(** The results and the failures of all shards. *)
Fixpoint scatter (sids : list ShardId) (line : bytes) : ST W (list bytes * list bytes) :=
  match sids with
  | [] => mret ([], [])
  | sid :: sids' =>
    r ← st_catch
          (r ← (if (sid =? my_shard_id)%N then execute_locally line
                else shard ← st_lift (Shard sid routing); send_read_request (sr_peers shard) line kCrossShardTimeoutMs);
           mret (inl r))
          (fun e => mret (inr (shard_failure sid (what e))));
    rest ← scatter sids' line;
    mret (match r with inl x => (x :: rest.1, rest.2) | inr f => (rest.1, f :: rest.2) end)
  end.

Definition scatter_select (line : bytes) : ST W bytes :=
  r ← scatter (AllShardIds routing) line;
  mret (match r.2 with
        | [] => MergeSelectResults r.1 ++ [newline]
        | fs => str "ERROR: some shards did not respond:" ++ bracketed fs ++ [newline]
        end).
End coordinator.
