(* ===== verification/CoordinatorSpec.v ===== *)
(** * Two-phase commit is atomic when the shards answer

    On any network, a log of what was sent where and with what success shows that COMMIT follows
    the votes of all shards concerned ([commit_needs_all_votes]).  Further, the shards are seen
    as one replicated database with transactions each ([db_apply]); a command sent to a shard is
    applied there once and its error is the answer.  Under that assumption a transaction happens
    on all the shards it touches or on none. *)

From Stdlib Require Import NArith Lia.
From S2P Require Export Coordinator ServerSpec.

(** ** The votes *)

Abbreviation shard_state := (TxnParticipant * database)%type.

(** The state of a shard that has prepared [p]. *)
Definition lock (p : TxnPrepare) (t : TxnParticipant) : TxnParticipant :=
  {| pending := <[p_txn_id p := {| keys := p_keys p; commands := p_commands p |}]> (pending t);
     locked_keys := locked_keys t ∪ list_to_set (p_keys p) |}.

Definition votes_yes (p : TxnPrepare) (td : shard_state) : Prop :=
  staged_duplicate td.2 (p_commands p) = [] /\ first_locked td.1 (p_keys p) = None.

#[export] Instance votes_yes_dec p td : Decision (votes_yes p td).
Proof. unfold votes_yes. apply and_dec; [apply _|]. destruct (first_locked _ _); [right|left]; done. Defined.

(** The database after the commands, up to the first that fails. *)
Definition run_all (cmds : list bytes) (d : database) : database :=
  (st_for cmds (fun c => _ ← run_sql c; mret tt) d).2.

Lemma apply_prepare p td : prepare_ok p -> pending td.1 !! p_txn_id p = None ->
  (votes_yes p td -> db_apply (EncodeTxnPrepare p) td = (Ret [], (lock p td.1, td.2))) /\
  (~ votes_yes p td -> exists error, error <> [] /\ db_apply (EncodeTxnPrepare p) td = (Ret error, td)).
Proof.
  intros Hok Hp. destruct td as [t d]. cbn [fst snd] in *.
  pose proof (TryDecodeTxnControl_encode (TPrepare p) Hok) as E. cbn [encode_control control_command] in E.
  unfold db_apply, in_parts, db_part, command_part, participant_part. cbv zeta. rewrite E. rewrite !run_lift_ret.
  cbn [c_type c_commands c_txn_id c_keys fst snd]. unfold st_gets. split.
  - intros [Hd Hl]. cbn [fst snd] in *. rewrite Hd. unfold Prepare. rewrite Hp, Hl. unfold lock. by rewrite lock_all.
  - intros Hno. destruct (staged_duplicate d (p_commands p)) as [|a x] eqn:Ed; [|by exists (a :: x)].
    unfold Prepare. rewrite Hp. destruct (first_locked t (p_keys p)) as [key|] eqn:El.
    + exists (locked_message key). split; [done|done].
    + by destruct Hno.
Qed.

Lemma lock_pending p t :
  pending (lock p t) !! p_txn_id p = Some {| keys := p_keys p; commands := p_commands p |}.
Proof. apply lookup_insert_eq. Qed.

Lemma unlock p t : pending t !! p_txn_id p = None -> first_locked t (p_keys p) = None ->
  resolve (p_txn_id p) {| keys := p_keys p; commands := p_commands p |} (lock p t) = t.
Proof.
  intros Hp Hl. rewrite first_locked_None in Hl. destruct t as [pe lk]. unfold resolve, lock. cbn in *. f_equal.
  - by rewrite delete_insert_id.
  - apply set_eq. intros k. unfold keys_of. cbn. rewrite elem_of_difference, elem_of_union, elem_of_list_to_set.
    specialize (Hl k). tauto.
Qed.

Lemma apply_commit p td : (p_txn_id p < two64)%N -> pending td.1 !! p_txn_id p = None ->
  first_locked td.1 (p_keys p) = None ->
  (db_apply (EncodeTxnCommit (p_txn_id p)) (lock p td.1, td.2)).2 = (td.1, run_all (p_commands p) td.2).
Proof.
  intros Hid Hp Hl. destruct td as [t d]. cbn [fst snd] in *.
  pose proof (TryDecodeTxnControl_encode (TCommit (p_txn_id p)) Hid) as E. cbn [encode_control control_command] in E.
  unfold db_apply, in_parts, db_part, command_part, participant_part. cbv zeta. rewrite E. rewrite !run_lift_ret.
  cbn [c_type c_commands c_txn_id c_keys fst snd]. rewrite lock_pending, (unlock p t Hp Hl). cbn [commands]. unfold run_all, st_catch, mbind at 1, ST_bind at 1.
  by destruct (st_for (p_commands p) _ d) as [[x|e|] d'].
Qed.

Lemma apply_abort p td : (p_txn_id p < two64)%N -> pending td.1 !! p_txn_id p = None ->
  first_locked td.1 (p_keys p) = None ->
  (db_apply (EncodeTxnAbort (p_txn_id p)) (lock p td.1, td.2)).2 = td.
Proof.
  intros Hid Hp Hl. destruct td as [t d]. cbn [fst snd] in *.
  pose proof (TryDecodeTxnControl_encode (TAbort (p_txn_id p)) Hid) as E. cbn [encode_control control_command] in E.
  unfold db_apply, in_parts, db_part, command_part, participant_part. cbv zeta. rewrite E. rewrite !run_lift_ret.
  cbn [c_type c_commands c_txn_id c_keys fst snd]. unfold Abort. rewrite lock_pending, resolve_abort. by rewrite (unlock p t Hp Hl).
Qed.

(** ** Groups of shards *)

Section two_phase.
Context {W : Type} `{!Shards W} (routing : RoutingTable) (my_shard_id : ShardId) (timeout_ms : N).

(** The shards as the world shows them. *)
Context (view : W -> gmap N shard_state).

(** Every command that is sent to a shard is applied there once, and the answer reports its
    error. *)
Definition reliable : Prop := forall sid command w td, view w !! sid = Some td ->
  exists resp w', send_to_shard routing my_shard_id timeout_ms sid command w = (Ret resp, w') /\
    view w' = <[sid := (db_apply command td).2]> (view w) /\
    (clr_success resp = true <-> (db_apply command td).1 = Ret []).
Context (Hreliable : reliable).

Lemma try_send_reliable sid command w td : view w !! sid = Some td ->
  exists failure w', try_send routing my_shard_id timeout_ms sid command w = (Ret failure, w') /\
    view w' = <[sid := (db_apply command td).2]> (view w) /\
    (failure = None <-> (db_apply command td).1 = Ret []).
Proof.
  intros Hv. destruct (Hreliable sid command w td Hv) as (resp & w' & E & Hw & Hs).
  unfold try_send, st_catch. rewrite (run_bind _ _ _ _ _ E). do 2 eexists. split; [reflexivity|]. split; [exact Hw|].
  rewrite <- Hs. by destruct (clr_success resp).
Qed.

Lemma notify_reliable sids command w : NoDup sids -> (forall sid, sid ∈ sids -> is_Some (view w !! sid)) ->
  exists failures w', notify_all routing my_shard_id timeout_ms sids command w = (Ret failures, w') /\
    forall sid, view w' !! sid =
      if decide (sid ∈ sids) then (fun td => (db_apply command td).2) <$> view w !! sid else view w !! sid.
Proof.
  revert w. induction sids as [|sid sids IH]; intros w Hnd Hin.
  - exists [], w. split; [done|]. intros sid. rewrite decide_False; [done|apply not_elem_of_nil].
  - apply NoDup_cons in Hnd as [Hni Hnd]. destruct (Hin sid ltac:(by left)) as [td Htd].
    destruct (try_send_reliable sid command w td Htd) as (f & w1 & E1 & Hw1 & _).
    destruct (IH w1 Hnd) as (fs & w2 & E2 & Hw2).
    { intros s Hs. rewrite Hw1, lookup_insert_ne by (intros ->; done). apply Hin. by right. }
    cbn [notify_all]. rewrite (run_bind _ _ _ _ _ E1), (run_bind _ _ _ _ _ E2). do 2 eexists. split; [reflexivity|].
    intros s. rewrite Hw2, Hw1. destruct (decide (s = sid)) as [->|Hne].
    + rewrite decide_False, lookup_insert_eq by done. rewrite decide_True by (by left). by rewrite Htd.
    + rewrite lookup_insert_ne by done.
      repeat case_decide; try done; set_solver.
Qed.

(** The shards after the prepares of [done] took hold. *)
Definition prepared_view (v v' : gmap N shard_state) (done : list (ShardId * TxnPrepare)) : Prop :=
  forall sid, v' !! sid =
    match (list_to_map done : gmap N TxnPrepare) !! sid with
    | Some p => (fun td => (lock p td.1, td.2)) <$> v !! sid
    | None => v !! sid
    end.

(** The transaction is new to the shards, and what is sent to them fits the wire format. *)
Definition can_prepare (txn_id : TxnId) (v : gmap N shard_state) (e : ShardId * TxnPrepare) : Prop :=
  p_txn_id e.2 = txn_id /\ prepare_ok e.2 /\
  exists td, v !! e.1 = Some td /\ pending td.1 !! txn_id = None.

Definition yes_on (v : gmap N shard_state) (e : ShardId * TxnPrepare) : Prop :=
  exists td, v !! e.1 = Some td /\ votes_yes e.2 td.

Lemma prepare_reliable txn_id v l done w :
  NoDup (done ++ l).*1 -> Forall (can_prepare txn_id v) (done ++ l) -> Forall (yes_on v) done ->
  prepared_view v (view w) done ->
  exists done' failure w',
    prepare_all routing my_shard_id timeout_ms l done.*1 w = (Ret (done'.*1, failure), w') /\
    prepared_view v (view w') done' /\ Forall (yes_on v) done' /\
    (failure = None -> done' = done ++ l) /\
    (is_Some failure -> exists e rest, done ++ l = done' ++ e :: rest /\ ~ yes_on v e).
Proof.
  revert done w. induction l as [|[sid p] l IH]; intros done w Hnd Hcan Hyes Hv.
  { exists done, None, w. rewrite app_nil_r. split_and!; [done|done|done|done|by intros [? ?]]. }
  assert (Hc : can_prepare txn_id v (sid, p)).
  { rewrite Forall_app in Hcan. destruct Hcan as [_ Hcan]. by apply Forall_cons in Hcan as [? _]. }
  destruct Hc as (Hid & Hpok & td & Htd & Hpend). cbn [fst snd] in *.
  assert (Hni : (list_to_map done : gmap N TxnPrepare) !! sid = None).
  { apply not_elem_of_list_to_map. rewrite fmap_app, NoDup_app in Hnd. destruct Hnd as (_ & Hdis & _).
    intros Hin. apply (Hdis sid Hin). cbn. by left. }
  assert (Hw : view w !! sid = Some td) by (rewrite (Hv sid), Hni; exact Htd).
  rewrite <- Hid in Hpend. destruct (apply_prepare p td Hpok Hpend) as [Hy Hn].
  destruct (try_send_reliable sid (EncodeTxnPrepare p) w td Hw) as (f & w1 & E1 & Hw1 & Hf).
  cbn [prepare_all]. rewrite (run_bind _ _ _ _ _ E1). destruct (decide (votes_yes p td)) as [Hvote|Hvote].
  - rewrite (Hy Hvote) in Hw1, Hf. destruct f as [f|]; [discriminate (proj2 Hf eq_refl)|].
    replace (done.*1 ++ [sid]) with (done ++ [(sid, p)]).*1 by by rewrite fmap_app.
    destruct (IH (done ++ [(sid, p)]) w1) as (done' & failure & w' & E & Hv' & Hy' & Hnone & Hsome).
    { by rewrite <- app_assoc. }
    { by rewrite <- app_assoc. }
    { apply Forall_app. split; [done|]. constructor; [by exists td|constructor]. }
    { intros s. rewrite list_to_map_app, Hw1. cbn [snd]. destruct (decide (s = sid)) as [->|Hne].
      - rewrite lookup_insert_eq, lookup_union_r by done. cbn. rewrite lookup_insert_eq. by rewrite Htd.
      - rewrite lookup_insert_ne by done. rewrite (Hv s).
        assert (E0 : (list_to_map done ∪ list_to_map [(sid, p)] : gmap N TxnPrepare) !! s = (list_to_map done : gmap N TxnPrepare) !! s).
        { rewrite lookup_union. cbn. rewrite lookup_insert_ne, lookup_empty by done. by destruct (list_to_map done !! s). }
        by rewrite E0. }
    exists done', failure, w'. rewrite E, <- !app_assoc in *. by split_and!.
  - destruct (Hn Hvote) as (error & Hne & Ea). rewrite Ea in Hw1, Hf. cbn [fst snd] in *.
    destruct f as [f|]; [|exfalso; pose proof (proj1 Hf eq_refl); congruence].
    exists done, (Some f), w1. split_and!; [done| |done|done|].
    + intros s. rewrite Hw1. destruct (decide (s = sid)) as [->|Hs].
      * by rewrite lookup_insert_eq, Hni.
      * by rewrite lookup_insert_ne by done.
    + intros _. exists (sid, p), l. split; [done|]. intros (td' & Htd' & Hv'). cbn in *. by simplify_eq.
Qed.

(** What the resolution relies on: the shard is there and did not know the transaction, and its
    keys were free. *)
Definition locked_by (txn_id : TxnId) (v : gmap N shard_state) (e : ShardId * TxnPrepare) : Prop :=
  p_txn_id e.2 = txn_id /\
  exists td, v !! e.1 = Some td /\ pending td.1 !! txn_id = None /\ first_locked td.1 (p_keys e.2) = None.

Lemma yes_locked txn_id v e : can_prepare txn_id v e -> yes_on v e -> locked_by txn_id v e.
Proof. intros (Hid & _ & td & Htd & Hp) (td' & Htd' & _ & Hl). simplify_eq. split; [done|]. by exists td. Qed.

(** Telling the prepared shards to commit or to abort. *)
Lemma resolve_reliable txn_id v dn w (commit : bool) :
  (txn_id < two64)%N -> NoDup dn.*1 -> Forall (locked_by txn_id v) dn -> prepared_view v (view w) dn ->
  exists fs w', notify_all routing my_shard_id timeout_ms dn.*1
      (if commit then EncodeTxnCommit txn_id else EncodeTxnAbort txn_id) w = (Ret fs, w') /\
    forall sid, view w' !! sid =
      match (list_to_map dn : gmap N TxnPrepare) !! sid with
      | Some p => (fun td => (td.1, if commit then run_all (p_commands p) td.2 else td.2)) <$> v !! sid
      | None => v !! sid
      end.
Proof.
  intros Hid Hnd Hdn Hv. rewrite Forall_forall in Hdn.
  destruct (notify_reliable dn.*1 (if commit then EncodeTxnCommit txn_id else EncodeTxnAbort txn_id) w Hnd)
    as (fs & w' & E & Hw').
  { intros sid ([s p] & -> & Hin)%list_elem_of_fmap. cbn. rewrite (Hv s).
    destruct (Hdn _ Hin) as (_ & td & Htd & _). cbn in Htd.
    apply (elem_of_list_to_map (M := gmap N)) in Hin; [|done]. by rewrite Hin, Htd. }
  exists fs, w'. split; [exact E|]. intros sid. rewrite Hw', (Hv sid).
  destruct ((list_to_map dn : gmap N TxnPrepare) !! sid) as [p|] eqn:Hp.
  - apply elem_of_list_to_map_2 in Hp.
    rewrite decide_True by (apply list_elem_of_fmap; by exists (sid, p)).
    destruct (Hdn _ Hp) as (Hpid & td & Htd & Hpe & Hl). cbn [fst snd] in *. subst txn_id. rewrite Htd. cbn. f_equal.
    destruct commit; [by apply apply_commit|]. etrans; [by apply (apply_abort p td)|]. by destruct td.
  - rewrite decide_False; [done|]. by apply not_elem_of_list_to_map_2.
Qed.
End two_phase.

(** ** The transaction *)

(** What the statements of [buffer] ask of shard [sid]. *)
Definition share (sid : ShardId) (buffer : list BufferedTxnStatement) : list BufferedTxnStatement :=
  filter (fun s => b_shard_id s = sid) buffer.
Definition prepare_of (txn_id : TxnId) (buffer : list BufferedTxnStatement) (sid : ShardId) : TxnPrepare :=
  {| p_txn_id := txn_id; p_keys := b_key <$> share sid buffer; p_commands := b_sql <$> share sid buffer |}.

Lemma group_lookup txn_id buffer sid :
  group_by_shard txn_id buffer !! sid =
  if decide (share sid buffer = []) then None else Some (prepare_of txn_id buffer sid).
Proof.
  unfold group_by_shard, prepare_of, share. induction buffer as [|s buffer IH] using rev_ind; [done|].
  rewrite foldl_app, filter_app. cbn [foldl]. unfold group_statement at 1.
  destruct (decide (b_shard_id s = sid)) as [Hs|Hs].
  - rewrite Hs, lookup_insert_eq, IH. rewrite (filter_cons_True _ s []), filter_nil by done.
    rewrite (decide_False (P := _ ++ [s] = [])) by by intros [_ ?]%app_eq_nil.
    case_decide as Hf; [rewrite Hf; done|]. cbn [default id p_keys p_commands]. by rewrite !fmap_app.
  - rewrite lookup_insert_ne, IH by done. by rewrite (filter_cons_False _ s []), filter_nil, app_nil_r by done.
Qed.

Lemma group_entry txn_id buffer sid p : (sid, p) ∈ map_entries (group_by_shard txn_id buffer) ->
  p = prepare_of txn_id buffer sid /\ share sid buffer <> [].
Proof. rewrite elem_of_map_entries, group_lookup. case_decide; [done|]. by intros [= <-]. Qed.

Lemma list_to_map_group txn_id buffer sid :
  (list_to_map (map_entries (group_by_shard txn_id buffer)) : gmap N TxnPrepare) !! sid = group_by_shard txn_id buffer !! sid.
Proof. by rewrite map_entries_to_map. Qed.

Lemma group_map txn_id buffer :
  map_entries (group_by_shard txn_id buffer) = (fun sid => (sid, prepare_of txn_id buffer sid)) <$> (map_entries (group_by_shard txn_id buffer)).*1.
Proof.
  rewrite <- list_fmap_compose. rewrite <- (list_fmap_id (map_entries _)) at 1. apply list_fmap_ext.
  intros i [sid p] Hx%list_elem_of_lookup_2. by destruct (group_entry _ _ _ _ Hx) as [-> _].
Qed.

Lemma touched_shards txn_id buffer sid : sid ∈ (map_entries (group_by_shard txn_id buffer)).*1 <-> share sid buffer <> [].
Proof.
  rewrite list_elem_of_fmap. split.
  - intros ([? p] & -> & [_ Hne]%group_entry). exact Hne.
  - intros Hne. exists (sid, prepare_of txn_id buffer sid). split; [done|]. by rewrite elem_of_map_entries, group_lookup, decide_False.
Qed.

(** A shard that is asked nothing stays as it is. *)
Lemma run_all_nil (td : shard_state) : (td.1, run_all [] td.2) = td.
Proof. by destruct td. Qed.

Lemma group_has txn_id buffer s : s ∈ buffer ->
  (b_shard_id s, prepare_of txn_id buffer (b_shard_id s)) ∈ map_entries (group_by_shard txn_id buffer).
Proof.
  intros Hs. rewrite elem_of_map_entries, group_lookup, decide_False; [done|]. intros E.
  assert (Hs' : s ∈ share (b_shard_id s) buffer) by by apply list_elem_of_filter.
  rewrite E in Hs'. by apply not_elem_of_nil in Hs'.
Qed.

Lemma group_size txn_id buffer :
  length (map_entries (group_by_shard txn_id buffer)) = size (group_by_shard txn_id buffer).
Proof. by rewrite (map_entries_perm _), length_map_to_list. Qed.

Lemma group_can_prepare (txn_id : TxnId) (v : gmap N shard_state) (buffer : list BufferedTxnStatement) :
  (forall sid, prepare_ok (prepare_of txn_id buffer sid)) ->
  (forall s, s ∈ buffer -> exists td, v !! b_shard_id s = Some td /\ pending td.1 !! txn_id = None) ->
  Forall (can_prepare txn_id v) (map_entries (group_by_shard txn_id buffer)).
Proof.
  intros Hok Hpend. apply Forall_forall. intros [sid p] Hin. destruct (group_entry _ _ _ _ Hin) as [-> Hne].
  split; [done|]. split; [apply Hok|]. cbn. destruct (share sid buffer) as [|s rest] eqn:E; [done|].
  assert (Hs : s ∈ share sid buffer) by (rewrite E; left). apply list_elem_of_filter in Hs as [<- Hs]. by apply Hpend.
Qed.

(** Atomic commitment.  When every shard that the transaction touches answers, [RunTransaction]
    comes to an end in one of two ways.  Some shard refused its PREPARE, because a key was locked
    or had a row that a staged INSERT would repeat: then the answer is ABORTED and every shard is
    exactly as it was, locks included.  Or all voted yes: then every shard has run the statements
    that were buffered for it, in order, and holds the locks it held before; no shard is ever
    left prepared. *)
Theorem two_phase_commit {W} `{!Shards W} (routing : RoutingTable) (my_shard_id : ShardId) (timeout_ms : N)
    (view : W -> gmap N shard_state) (txn_id : TxnId) (buffer : list BufferedTxnStatement) (w : W) :
  reliable routing my_shard_id timeout_ms view ->
  (txn_id < two64)%N -> (forall sid, prepare_ok (prepare_of txn_id buffer sid)) ->
  (forall s, s ∈ buffer -> exists td, view w !! b_shard_id s = Some td /\ pending td.1 !! txn_id = None) ->
  exists msg w', RunTransaction routing my_shard_id txn_id buffer timeout_ms w = (Ret msg, w') /\
    ((view w' = view w /\ (exists reason fs, msg = aborted_message reason fs) /\
      exists sid td, view w !! sid = Some td /\ ~ votes_yes (prepare_of txn_id buffer sid) td) \/
     ((forall s, s ∈ buffer -> exists td, view w !! b_shard_id s = Some td /\
        votes_yes (prepare_of txn_id buffer (b_shard_id s)) td) /\
      (forall sid, view w' !! sid = (fun td => (td.1, run_all (b_sql <$> share sid buffer) td.2)) <$> view w !! sid) /\
      exists fs, msg = match fs with [] => committed_message txn_id (size (group_by_shard txn_id buffer))
                       | _ => undelivered_message txn_id fs end)).
Proof.
  intros Hrel Hid Hok Hpend. set (l := map_entries (group_by_shard txn_id buffer)).
  pose proof (group_can_prepare txn_id (view w) buffer Hok Hpend) as Hcan. fold l in Hcan.
  destruct (prepare_reliable routing my_shard_id timeout_ms view Hrel txn_id (view w) l [] w (NoDup_map_entries _) Hcan)
    as (dn & failure & w1 & E1 & Hv1 & Hyes & Hnone & Hsome); [done|done|].
  assert (Hprefix : exists rest, l = dn ++ rest).
  { destruct failure as [f|]; [destruct (Hsome (mk_is_Some _ _ eq_refl)) as (e & rest & El & _)|exists []];
      [by exists (e :: rest)|]. by rewrite app_nil_r, (Hnone eq_refl). }
  destruct Hprefix as [rest El].
  assert (Hnd : NoDup dn.*1) by (pose proof (NoDup_map_entries (group_by_shard txn_id buffer)) as Hn; fold l in Hn;
    rewrite El, fmap_app, NoDup_app in Hn; tauto).
  assert (Hlock : Forall (locked_by txn_id (view w)) dn).
  { rewrite El, Forall_app in Hcan. destruct Hcan as [Hcan _]. rewrite Forall_forall in *.
    intros e He. apply yes_locked; auto. }
  unfold RunTransaction. cbv zeta. fold l. change [] with (([] : list (ShardId * TxnPrepare)).*1) at 1.
  rewrite (run_bind _ _ _ _ _ E1). cbn [fst snd]. destruct failure as [reason|].
  - destruct (resolve_reliable routing my_shard_id timeout_ms view Hrel txn_id (view w) dn w1 false Hid Hnd Hlock Hv1) as (fs & w2 & E2 & Hv2).
    rewrite (run_bind _ _ _ _ _ E2). do 2 eexists. split; [reflexivity|]. left. split_and!; [|by do 2 eexists|].
    + apply map_eq. intros sid. rewrite Hv2. destruct (list_to_map dn !! sid); [|done]. by destruct (view w !! sid) as [[? ?]|].
    + destruct (Hsome (mk_is_Some _ _ eq_refl)) as ([sid p] & rest' & El' & Hno). rewrite app_nil_l in El'.
      assert (Hin : (sid, p) ∈ l) by (rewrite El'; apply elem_of_app; right; left).
      destruct (group_entry _ _ _ _ Hin) as [-> Hne]. rewrite Forall_forall in Hcan.
      destruct (Hcan _ Hin) as (_ & _ & td & Htd & _). exists sid, td. split; [done|]. intros Hv. apply Hno. by exists td.
  - pose proof (Hnone eq_refl) as Edn. rewrite app_nil_l in Edn. subst dn.
    destruct (resolve_reliable routing my_shard_id timeout_ms view Hrel txn_id (view w) l w1 true Hid Hnd Hlock Hv1) as (fs & w2 & E2 & Hv2).
    rewrite (run_bind _ _ _ _ _ E2). do 2 eexists. split; [reflexivity|]. right. split_and!.
    + intros s Hs. rewrite Forall_forall in Hyes. exact (Hyes _ (group_has _ _ _ Hs)).
    + intros sid. rewrite Hv2. unfold l. rewrite list_to_map_group, group_lookup. case_decide as He; [|done].
      rewrite He. destruct (view w !! sid) as [td|]; [|done]. cbn. by rewrite run_all_nil.
    + exists fs. rewrite <- (group_size txn_id buffer). by destruct fs.
Qed.

(** ** On any network: no COMMIT without unanimity *)

(** Where a command goes: to the node's own group, or to the members of another. *)
Inductive destination := own_group | members (peers : peer_map).

#[export] Instance destination_eq_dec : EqDecision destination.
Proof. solve_decision. Defined.

(** The commands that were sent, in order: where to, which, and whether the answer was success. *)
Abbreviation sent_log := (list (destination * bytes * bool)).

Section logged.
Context {W : Type} `{!Shards W}.

Definition note (to : destination) (command : bytes) (m : ST W ClientResponse) : ST (W * sent_log) ClientResponse := fun wl =>
  let '(r, w') := m wl.1 in
  (r, (w', wl.2 ++ [(to, command, match r with Ret resp => clr_success resp | _ => false end)])).

Definition pass_on {A} (m : ST W A) : ST (W * sent_log) A := fun wl => let '(r, w') := m wl.1 in (r, (w', wl.2)).

#[export] Instance logged_Shards : Shards (W * sent_log) := {|
  propose_or_forward command t := note own_group command (propose_or_forward command t);
  send_client_request peers command t := note (members peers) command (send_client_request peers command t);
  send_read_request peers query t := pass_on (send_read_request peers query t);
  execute_locally sql := pass_on (execute_locally sql);
  extract_row_key stmt := pass_on (extract_row_key stmt);
|}.

Context (routing : RoutingTable) (my_shard_id : ShardId) (timeout_ms : N).
Implicit Types wl : W * sent_log.

(** The group that has the shard: the node's own, or the members that the routing table lists. *)
Definition group_of (sid : ShardId) : option destination :=
  if decide (sid = my_shard_id) then Some own_group
  else match Shard sid routing with Ret shard => Some (members (sr_peers shard)) | _ => None end.

(** [x] is [command], sent to the group that has shard [sid]. *)
Definition sent_to (sid : ShardId) (command : bytes) (x : destination * bytes * bool) : Prop :=
  group_of sid = Some x.1.1 /\ x.1.2 = command.

Lemma try_send_logged sid command wl : exists extra,
  (try_send routing my_shard_id timeout_ms sid command wl).2.2 = wl.2 ++ extra /\
  (group_of sid = None -> extra = []) /\
  (is_Some (group_of sid) -> exists x, extra = [x] /\ sent_to sid command x) /\
  ((try_send routing my_shard_id timeout_ms sid command wl).1 = Ret None -> exists x, extra = [x] /\ sent_to sid command x /\ x.2 = true).
Proof.
  unfold try_send, send_to_shard, sent_to, group_of, st_catch, mbind, ST_bind.
  destruct (N.eqb_spec sid my_shard_id) as [->|Hne]; [rewrite decide_True by done|rewrite decide_False by done].
  - cbn [propose_or_forward logged_Shards]. unfold note.
    destruct (propose_or_forward command timeout_ms wl.1) as [[r|e|] w']; cbn;
      (eexists; split; [reflexivity|]; split; [done|]; split; [by eexists|]); [|done..].
    destruct (clr_success r); [by eexists|done].
  - unfold st_lift. destruct (Shard sid routing) as [shard|e|].
    + cbn [send_client_request logged_Shards]. unfold note.
      destruct (send_client_request (sr_peers shard) command timeout_ms wl.1) as [[r|e|] w']; cbn;
        (eexists; split; [reflexivity|]; split; [done|]; split; [by eexists|]); [|done..].
      destruct (clr_success r); [by eexists|done].
    + exists []. cbn. rewrite app_nil_r. split_and!; [done|done|by intros [? ?]|done].
    + exists []. cbn. rewrite app_nil_r. split_and!; [done|done|by intros [? ?]|done].
Qed.

Lemma try_send_commands sid command wl extra :
  (try_send routing my_shard_id timeout_ms sid command wl).2.2 = wl.2 ++ extra -> Forall (fun x => x.1.2 = command) extra.
Proof.
  destruct (try_send_logged sid command wl) as (ex & -> & H0 & H1 & _). intros <-%(inj (app wl.2)).
  destruct (group_of sid) as [to|] eqn:E; [|by rewrite H0]. destruct H1 as (x & -> & _ & Hx); [done|]. by constructor.
Qed.

Lemma prepare_logged l prepared wl : exists extra,
  (prepare_all routing my_shard_id timeout_ms l prepared wl).2.2 = wl.2 ++ extra /\
  Forall (fun x => exists p, x.1.2 = EncodeTxnPrepare p) extra /\
  (forall sids, (prepare_all routing my_shard_id timeout_ms l prepared wl).1 = Ret (sids, None) ->
     Forall2 (fun e x => sent_to e.1 (EncodeTxnPrepare e.2) x /\ x.2 = true) l extra).
Proof.
  revert prepared wl. induction l as [|[sid p] l IH]; intros prepared wl.
  { exists []. cbn. by rewrite app_nil_r. }
  cbn [prepare_all]. destruct (try_send_logged sid (EncodeTxnPrepare p) wl) as (ex1 & E1 & _ & _ & R1).
  pose proof (try_send_commands _ _ _ _ E1) as A1.
  assert (A1' : Forall (fun x => exists p, x.1.2 = EncodeTxnPrepare p) ex1) by (eapply Forall_impl; [exact A1|]; intros x Hx; by exists p).
  unfold mbind, ST_bind. destruct (try_send routing my_shard_id timeout_ms sid (EncodeTxnPrepare p) wl) as [[[f|]|e|] wl1]; cbn in E1, R1;
    [by exists ex1| |by exists ex1..].
  destruct (IH (prepared ++ [sid]) wl1) as (ex2 & E2 & A2 & R2). exists (ex1 ++ ex2).
  rewrite E2, E1, app_assoc. split; [done|]. split; [by apply Forall_app|].
  intros sids Hsids. destruct (R1 eq_refl) as (x & -> & Hx). constructor; [exact Hx|]. by apply (R2 sids).
Qed.

Lemma notify_logged sids command wl : exists extra,
  (notify_all routing my_shard_id timeout_ms sids command wl).2.2 = wl.2 ++ extra /\
  Forall (fun x => x.1.2 = command) extra /\
  (Forall (fun sid => is_Some (group_of sid)) sids -> exists k, Forall2 (fun sid => sent_to sid command) (take k sids) extra).
Proof.
  revert wl. induction sids as [|sid sids IH]; intros wl; [exists []; cbn; rewrite app_nil_r; split_and!; [done..|by exists 0%nat]|].
  cbn [notify_all]. destruct (try_send_logged sid command wl) as (ex1 & E1 & _ & R1 & _).
  pose proof (try_send_commands _ _ _ _ E1) as A1. unfold mbind, ST_bind.
  destruct (try_send routing my_shard_id timeout_ms sid command wl) as [[f|e|] wl1]; cbn in E1.
  2,3: exists ex1; split_and!; [done..|]; intros [Hs _]%Forall_cons; destruct (R1 Hs) as (x & -> & Hx); exists 1%nat; cbn [take]; rewrite take_0; apply Forall2_cons; (split; [exact Hx|by apply Forall2_nil]).
  destruct (IH wl1) as (ex2 & E2 & A2 & R2). exists (ex1 ++ ex2).
  assert (Hgoal : wl1.2 ++ ex2 = wl.2 ++ ex1 ++ ex2) by by rewrite E1, app_assoc.
  split; [destruct (notify_all _ _ _ _ _ wl1) as [[fs|e|] wl2]; cbn [fst snd mret ST_ret] in E2 |- *; by rewrite E2|].
  split; [by apply Forall_app|]. intros [Hs Hss]%Forall_cons. destruct (R1 Hs) as (x & -> & Hx), (R2 Hss) as (k & Hk).
  exists (S k). by constructor.
Qed.
End logged.

Lemma control_second_byte p txn_id txn_id' :
  EncodeTxnPrepare p <> EncodeTxnCommit txn_id /\ EncodeTxnAbort txn_id' <> EncodeTxnCommit txn_id.
Proof. unfold EncodeTxnPrepare, EncodeTxnCommit, EncodeTxnAbort. codec_norm. by split. Qed.

(** C16: whatever the network does, if a COMMIT is sent at all, then first every shard that the
    transaction touches, and no other, was sent the PREPARE with the keys and the commands that
    the transaction has for it, at its own group, and answered with success; and each COMMIT goes
    to the group of one of these shards, in turn. *)
Theorem commit_needs_all_votes {W} `{!Shards W} (routing : RoutingTable) (my_shard_id : ShardId) (timeout_ms : N)
    (txn_id : TxnId) (buffer : list BufferedTxnStatement) (w : W) :
  let log := (RunTransaction routing my_shard_id txn_id buffer timeout_ms (w, [] : sent_log)).2.2 in
  (exists to ok, (to, EncodeTxnCommit txn_id, ok) ∈ log) ->
  exists touched prepares commits k, log = prepares ++ commits /\
    NoDup touched /\ (forall sid, sid ∈ touched <-> share sid buffer <> []) /\
    Forall2 (fun sid x => sent_to routing my_shard_id sid (EncodeTxnPrepare (prepare_of txn_id buffer sid)) x /\ x.2 = true) touched prepares /\
    Forall2 (fun sid => sent_to routing my_shard_id sid (EncodeTxnCommit txn_id)) (take k touched) commits.
Proof.
  unfold RunTransaction. cbv zeta. intros (to & ok & Hin). pose proof (NoDup_map_entries (group_by_shard txn_id buffer)) as Hnd.
  pose proof (group_map txn_id buffer) as Hgroup. pose proof (touched_shards txn_id buffer) as Ht.
  set (l := map_entries (group_by_shard txn_id buffer)) in *.
  destruct (prepare_logged routing my_shard_id timeout_ms l [] (w, [])) as (ex & E & A & R). cbn [snd app] in E.
  assert (Hno : forall ex2 command, command <> EncodeTxnCommit txn_id -> Forall (fun x => x.1.2 = command) ex2 ->
    (to, EncodeTxnCommit txn_id, ok) ∉ ex ++ ex2).
  { intros ex2 command Hne A2 [Hin'|Hin']%elem_of_app; rewrite Forall_forall in A, A2.
    - destruct (A _ Hin') as [p Hp]. by destruct (control_second_byte p txn_id txn_id) as [Hne' _]; destruct Hne'.
    - specialize (A2 _ Hin'). by cbn in A2. }
  assert (Hno' : (to, EncodeTxnCommit txn_id, ok) ∉ ex).
  { rewrite <- (app_nil_r ex). apply (Hno [] (EncodeTxnAbort 0)); [apply (control_second_byte no_prepare)|by apply Forall_nil]. }
  unfold mbind, ST_bind in Hin |- *.
  destruct (prepare_all routing my_shard_id timeout_ms l [] (w, [])) as [[[sids [reason|]]|e|] wl1]; cbn [fst snd] in *; subst; [| |done..].
  - exfalso. destruct (notify_logged routing my_shard_id timeout_ms sids (EncodeTxnAbort txn_id) wl1) as (ex2 & E2 & A2 & _).
    apply (Hno ex2 (EncodeTxnAbort txn_id)); [apply (control_second_byte no_prepare)|done|].
    destruct (notify_all routing my_shard_id timeout_ms sids (EncodeTxnAbort txn_id) wl1) as [[fs|e|] wl2]; cbn [fst snd mret ST_ret] in E2, Hin; by rewrite <- E2.
  - specialize (R sids eq_refl). destruct (notify_logged routing my_shard_id timeout_ms l.*1 (EncodeTxnCommit txn_id) wl1) as (ex2 & E2 & _ & R2).
    destruct R2 as (k & Hk).
    { apply Forall_fmap. eapply Forall2_Forall_l; [exact R|]. apply Forall_true. intros x e [[Hx _] _]. by eexists. }
    exists l.*1, wl1.2, ex2, k. split_and!; [|done|exact Ht| |done].
    + by destruct (notify_all routing my_shard_id timeout_ms l.*1 (EncodeTxnCommit txn_id) wl1) as [[fs|e|] wl2].
    + rewrite Hgroup, Forall2_fmap_l in R. exact R.
Qed.

(** ** A concrete cluster of two shards *)

(** Shard [i] is known by the address list that holds only [i]. *)
Definition demo_range (id : N) (from to : bytes) : ShardRange :=
  {| sr_id := id; start_key := from; end_key := to; sr_peers := {[ id := {| host := str "h"; port := 7000 + id |} ]} |}.
Definition demo_routing : RoutingTable := [demo_range 1 [] (str "__row__/shop/items/m"); demo_range 2 (str "__row__/shop/items/m") []].

Definition shard_of (peers : peer_map) : ShardId := match map_entries peers with (id, _) :: _ => id | [] => 0 end.

Definition answer (r : outcome bytes) : ClientResponse :=
  {| clr_success := match r with Ret [] => true | _ => false end; clr_index := 1; clr_not_leader := false;
     clr_leader_hint := 1; clr_error := match r with Ret error => error | _ => [] end |}.

(** A command takes effect on its shard; [lost] says which answers do not arrive. *)
Definition deliver (lost : ShardId -> bytes -> bool) (sid : ShardId) (command : bytes) : ST (gmap N shard_state) ClientResponse :=
  fun w =>
    match w !! sid with
    | None => (Throw (RuntimeError (str "unreachable")), w)
    | Some td =>
      let '(r, td') := db_apply command td in
      (if lost sid command then Throw (RuntimeError (str "connection closed or timed out while reading")) else Ret (answer r),
       <[sid := td']> w)
    end.

Definition shards_with (keys : Statement -> option bytes) (lost : ShardId -> bytes -> bool) : Shards (gmap N shard_state) := {|
  propose_or_forward command _ := deliver lost 1 command;
  send_client_request peers command _ := deliver lost (shard_of peers) command;
  send_read_request _ _ _ := mret [];
  execute_locally _ := mret [];
  extract_row_key stmt := mret (keys stmt);
|}.
Definition ideal_shards : (ShardId -> bytes -> bool) -> Shards (gmap N shard_state) := shards_with (fun _ => None).

(** Two shards with an empty table each. *)
Definition demo_database : database :=
  {[ str "shop" := {[ str "items" := Table [{| col_name := str "id"; col_type := kText; primary_key := true; default_value := None |}] ∅ ]} ]}.
Definition two_shards : gmap N shard_state :=
  <[1%N := (new_participant, demo_database)]> (<[2%N := (new_participant, demo_database)]> ∅).

Definition insert_id (id : bytes) : bytes := str "insert into shop.items (id) values ('" ++ id ++ str "')".
Definition demo_buffer : list BufferedTxnStatement :=
  [{| b_shard_id := 1; b_key := str "a"; b_sql := insert_id (str "a") |};
   {| b_shard_id := 2; b_key := str "z"; b_sql := insert_id (str "z") |}].

Definition demo_transaction (lost : ShardId -> bytes -> bool) : outcome bytes * gmap N shard_state :=
  RunTransaction (Shards0 := ideal_shards lost) demo_routing 1 9 demo_buffer 4000 two_shards.

(** The shards of the table. *)
Definition demo_view (w : gmap N shard_state) : gmap N shard_state := filter (fun e => e.1 ∈ [1%N; 2%N]) w.

Lemma demo_view_lookup w sid td : demo_view w !! sid = Some td -> w !! sid = Some td /\ sid ∈ [1%N; 2%N].
Proof. unfold demo_view. rewrite map_lookup_filter_Some. tauto. Qed.

Lemma demo_reliable keys : reliable (Shards0 := shards_with keys (fun _ _ => false)) demo_routing 1 4000 demo_view.
Proof.
  intros sid command w td Hv. apply demo_view_lookup in Hv as [Hw Hsid].
  assert (E : send_to_shard (Shards0 := shards_with keys (fun _ _ => false)) demo_routing 1 4000 sid command w =
    deliver (fun _ _ => false) sid command w).
  { rewrite !elem_of_cons, elem_of_nil in Hsid. by destruct Hsid as [->|[->|[]]]. }
  rewrite E. unfold deliver. rewrite Hw. destruct (db_apply command td) as [r td'] eqn:Ea.
  do 2 eexists. split; [reflexivity|]. cbn [fst snd]. split.
  - unfold demo_view. by rewrite map_filter_insert_True.
  - cbn. destruct r as [[|a error]|e|]; split; congruence.
Qed.

(** ** Properties by example *)

(** A PREPARE that took hold but whose answer was lost is not taken back: the coordinator reports
    ABORTED and tells only the shards that answered, and the silent one keeps its locks, so that
    a later transaction on the same key is refused. *)
Theorem lost_vote_leaks_locks :
  let r := demo_transaction (fun sid _ => (sid =? 2)%N) in
  r.1 = Ret (aborted_message (str "shard 2: connection closed or timed out while reading") []) /\
  (fun td : shard_state => bool_decide (str "z" ∈ locked_keys td.1)) <$> r.2 !! 2%N = Some true /\
  (fun td : shard_state => bool_decide (str "a" ∈ locked_keys td.1)) <$> r.2 !! 1%N = Some false.
Proof. split_and!; vm_compute; reflexivity. Qed.

(** ** Witnesses *)

Lemma two_phase_commit_witness :
  exists msg w', demo_transaction (fun _ _ => false) = (Ret msg, w') /\
    (demo_view w' = demo_view two_shards \/
     forall sid, demo_view w' !! sid =
       (fun td => (td.1, run_all (b_sql <$> share sid demo_buffer) td.2)) <$> demo_view two_shards !! sid).
Proof.
  destruct (two_phase_commit (Shards0 := ideal_shards (fun _ _ => false)) demo_routing 1 4000 demo_view 9 demo_buffer two_shards)
    as (msg & w' & E & H).
  - exact (demo_reliable _).
  - reflexivity.
  - intros sid. unfold prepare_of, share. cbn [filter list_filter demo_buffer b_shard_id].
    repeat case_decide; subst; try discriminate; (split; [done|]); (split; (split; [done|])); repeat constructor.
  - intros s Hs. unfold demo_buffer in Hs. rewrite !elem_of_cons, elem_of_nil in Hs.
    destruct Hs as [->|[->|[]]]; exists (new_participant, demo_database); (split; vm_compute; reflexivity).
  - exists msg, w'. split; [exact E|]. destruct H as [(Hv & _)|(_ & Hv & _)]; [left; exact Hv|right; exact Hv].
Defined.

Lemma commit_needs_all_votes_witness :
  exists touched prepares commits k,
    (RunTransaction (Shards0 := logged_Shards (Shards0 := ideal_shards (fun _ _ => false))) demo_routing 1 9 demo_buffer 4000
      (two_shards, [])).2.2 = prepares ++ commits /\
    NoDup touched /\ (forall sid, sid ∈ touched <-> share sid demo_buffer <> []) /\
    Forall2 (fun sid x => sent_to demo_routing 1 sid (EncodeTxnPrepare (prepare_of 9 demo_buffer sid)) x /\ x.2 = true) touched prepares /\
    Forall2 (fun sid => sent_to demo_routing 1 sid (EncodeTxnCommit 9)) (take k touched) commits.
Proof.
  apply (commit_needs_all_votes (Shards0 := ideal_shards (fun _ _ => false)) demo_routing 1 4000 9 demo_buffer two_shards).
  exists own_group, true. apply (bool_decide_unpack _). vm_compute. exact I.
Defined.
