(* ===== verification/Scatter.v ===== *)
(** * A SELECT scattered to every shard

    [MergeSelectResults] puts the texts of the shards together; when they own ranges of keys in
    order, the answer is that of one database that holds all the rows. *)

From Stdlib Require Import NArith Lia.
From S2P Require Export Coordinator SqlSpec.

(** ** Result texts *)

(** The text of a result: a header and data lines. *)
Definition result_text (header : bytes) (lines : list bytes) : bytes :=
  header ++ concat (map (fun l => [newline] ++ l) lines) ++ match lines with [] => zero_rows | _ => [] end.

(** A line that survives being merged. *)
Definition clean (line : bytes) : Prop := line <> [] /\ (newline ∉ line) /\ line <> str "(0 rows)".

Lemma pieces_lines lines : Forall clean lines ->
  forall header, newline ∉ header -> header <> [] \/ lines <> [] ->
  pieces newline (header ++ concat (map (fun l => [newline] ++ l) lines)) = header :: lines.
Proof.
  induction 1 as [|l lines (Hne & Hnl & _) Hl IH]; intros header Hh Hor.
  - cbn. rewrite app_nil_r. apply pieces_last; [done|]. by destruct Hor.
  - cbn [map concat app]. rewrite pieces_step by done. f_equal. apply IH; [done|by left].
Qed.

Lemma merge_result_text acc header lines : newline ∉ header -> Forall clean lines ->
  merge_result acc (result_text header lines) = (header, acc.2 ++ lines).
Proof.
  intros Hh Hl. unfold merge_result, result_text. destruct lines as [|l lines].
  - cbn [map concat app]. unfold zero_rows. change lf with newline. cbn [app].
    rewrite pieces_step by done. rewrite pieces_last; [|by apply (bool_decide_unpack _)|done].
    rewrite filter_cons_False by (intros H; by apply H). by rewrite filter_nil, app_nil_r.
  - rewrite app_nil_r, pieces_lines by (done || by right). f_equal. f_equal.
    apply filter_keep_all. eapply Forall_impl; [exact Hl|]. by intros x (_ & _ & ?).
Qed.

(** Merging the results of several shards gives the result with all their lines. *)
Lemma merge_texts header (lss : list (list bytes)) :
  newline ∉ header -> lss <> [] -> Forall (Forall clean) lss ->
  MergeSelectResults (map (result_text header) lss) = result_text header (concat lss).
Proof.
  intros Hh Hne Hall. unfold MergeSelectResults.
  assert (H : forall acc, foldl merge_result acc (map (result_text header) lss) =
    (match lss with [] => acc.1 | _ => header end, acc.2 ++ concat lss)).
  { clear Hne. induction Hall as [|ls lss Hls Hall IH]; intros acc; [cbn; by rewrite app_nil_r; destruct acc|].
    cbn [map foldl concat]. rewrite merge_result_text by done. rewrite IH. cbn [fst snd].
    rewrite app_assoc. by destruct lss. }
  rewrite H. cbn [fst snd app]. unfold result_text. by destruct lss; [|destruct (concat _)].
Qed.

(** ** SELECT on one table *)

(** The data lines of a SELECT. *)
Fixpoint row_lines (cols : TableSchema) (proj : list nat) (conditions : list Condition)
    (l : list (bytes * list bytes)) : outcome (list bytes) :=
  match l with
  | [] => Ret []
  | (_, row) :: l =>
    b ← MatchesWhere cols row conditions;
    if b : bool then
      fields ← pick row proj;
      rest ← row_lines cols proj conditions l;
      Ret (tab_separated fields :: rest)
    else row_lines cols proj conditions l
  end.

Lemma matching_row_lines cols proj conds l :
  matching_lines cols proj conds l =
  (ls ← row_lines cols proj conds l; Ret (concat (map (fun x => [newline] ++ x) ls), length ls)).
Proof.
  induction l as [|[pk row] l IH]; [done|]. cbn [matching_lines row_lines].
  destruct (MatchesWhere cols row conds) as [[]|e|]; cbn [mbind outcome_bind]; [|exact IH|done..].
  destruct (pick row proj) as [fields|e|]; cbn [mbind outcome_bind]; [|done..].
  rewrite IH. destruct (row_lines cols proj conds l) as [ls|e|]; cbn [mbind outcome_bind]; [|done..].
  done.
Qed.

(** What SELECT answers on a table. *)
Definition select_on (s : SelectStatement) (tab : table) : outcome bytes :=
  (select s {[ se_db_name s := {[ se_table_name s := tab ]} ]}).1.

Lemma select_on_text s tab :
  select_on s tab =
  (ph ← projection (columns tab) (se_columns s);
   ls ← row_lines (columns tab) ph.1 (se_where s) (map_entries (rows tab));
   Ret (result_text (tab_separated ph.2) ls)).
Proof.
  unfold select_on, select, find_table. rewrite !run_assoc, run_get. unfold table_at.
  rewrite lookup_singleton_eq. cbn [mbind option_bind]. rewrite lookup_singleton_eq. st_steps.
  unfold mbind at 1, ST_bind, st_lift. destruct (projection _ _) as [ph|e|]; cbn [mbind outcome_bind]; [|done..].
  unfold mbind at 1, ST_bind, st_lift. rewrite matching_row_lines.
  destruct (row_lines _ _ _ _) as [ls|e|]; cbn [mbind outcome_bind]; [|done..]. cbn [mret ST_ret fst snd].
  unfold result_text. by destruct ls.
Qed.

(** ** Rows spread over shards *)

(** Every key of [a] is below every key of [b]. *)
Definition below (a b : gmap (list ascii) (list (list ascii))) : Prop :=
  forall k k', is_Some (a !! k) -> is_Some (b !! k') -> bytes_ltb k k' = true.

Definition union_rows (ts : list table) : gmap (list ascii) (list (list ascii)) :=
  foldr (fun t m => rows t ∪ m) ∅ ts.

Fixpoint in_order (ts : list table) : Prop :=
  match ts with
  | [] => True
  | t :: ts => below (rows t) (union_rows ts) /\ in_order ts
  end.

Lemma entries_union a b : below a b -> map_entries (a ∪ b) = map_entries a ++ map_entries b.
Proof.
  intros Hab. symmetry. apply map_entries_unique.
  - unfold strictly_sorted. rewrite StronglySorted_app. split_and!; [|apply map_entries_sorted..].
    intros [k v] [k' v'] Hk%elem_of_map_entries Hk'%elem_of_map_entries. apply Hab; by eexists.
  - intros k v. rewrite elem_of_app, !elem_of_map_entries, lookup_union_Some_raw. split.
    + intros [H|H]; [by left|right]. split; [|done]. destruct (a !! k) as [v'|] eqn:E; [|done].
      assert (Hlt : bytes_ltb k k = true) by (apply Hab; by eexists). by rewrite bytes_ltb_irrefl in Hlt.
    + intros [H|[_ H]]; [by left|by right].
Qed.

Lemma row_lines_app cols proj conds l l' :
  row_lines cols proj conds (l ++ l') =
  (a ← row_lines cols proj conds l; b ← row_lines cols proj conds l'; Ret (a ++ b)).
Proof.
  induction l as [|[pk row] l IH]; cbn [app row_lines mbind outcome_bind].
  { by destruct (row_lines cols proj conds l'). }
  destruct (MatchesWhere cols row conds) as [[]|e|]; cbn [mbind outcome_bind]; [|exact IH|done..].
  destruct (pick row proj) as [fields|e|]; cbn [mbind outcome_bind]; [|done..].
  rewrite IH. destruct (row_lines cols proj conds l) as [x|e|]; cbn [mbind outcome_bind]; [|done..].
  by destruct (row_lines cols proj conds l') as [y|e|].
Qed.

Lemma row_lines_union cols proj conds ts lss : in_order ts ->
  Forall2 (fun t ls => row_lines cols proj conds (map_entries (rows t)) = Ret ls) ts lss ->
  row_lines cols proj conds (map_entries (union_rows ts)) = Ret (concat lss).
Proof.
  intros Ho H. induction H as [|t ls ts lss Ht H IH]; [done|]. destruct Ho as [Hb Ho].
  cbn [union_rows foldr concat]. rewrite entries_union by exact Hb. rewrite row_lines_app, Ht. cbn [mbind outcome_bind].
  change (foldr (fun t m => rows t ∪ m) ∅ ts) with (union_rows ts). by rewrite IH.
Qed.

(** C23: a scattered SELECT is a SELECT on all the rows.  When the shards hold the rows of one table,
    each a range of keys in the order of the routing table, and every shard answers, the merged
    text is exactly the answer of one database with all the rows -- header once, rows in key
    order, "(0 rows)" when no shard has one -- provided that no printed line is empty, contains a
    newline, or reads "(0 rows)". *)
Theorem scattered_select (s : SelectStatement) (ts : list table) (texts : list bytes) (cols : TableSchema) :
  ts <> [] -> Forall (fun t => columns t = cols) ts -> in_order ts ->
  Forall2 (fun t text => select_on s t = Ret text) ts texts ->
  (forall ph, projection cols (se_columns s) = Ret ph ->
     (newline ∉ tab_separated ph.2) /\
     forall t ls, t ∈ ts -> row_lines cols ph.1 (se_where s) (map_entries (rows t)) = Ret ls -> Forall clean ls) ->
  select_on s (Table cols (union_rows ts)) = Ret (MergeSelectResults texts).
Proof.
  intros Hne Hcols Ho Ht Hclean. rewrite Forall_forall in Hcols.
  destruct ts as [|t0 ts0]; [done|]. set (ts := t0 :: ts0) in *.
  destruct (projection cols (se_columns s)) as [ph|e|] eqn:Ep.
  2, 3: exfalso; inversion Ht as [|? text ? ? E]; subst; rewrite select_on_text in E; rewrite (Hcols t0) in E by left; by rewrite Ep in E.
  destruct (Hclean ph eq_refl) as [Hh Hl].
  assert (Hlss : exists lss, Forall2 (fun t ls => row_lines cols ph.1 (se_where s) (map_entries (rows t)) = Ret ls) ts lss /\
    texts = map (result_text (tab_separated ph.2)) lss).
  { clear - Ht Hcols Ep. clearbody ts. induction Ht as [|t text ts texts Ht H IH]; [by exists []|].
    destruct IH as (lss & H1 & ->); [intros t' Ht'; apply Hcols; by right|].
    rewrite select_on_text, (Hcols t) in Ht by left. rewrite Ep in Ht. cbn [mbind outcome_bind] in Ht.
    destruct (row_lines cols ph.1 (se_where s) (map_entries (rows t))) as [ls|e|] eqn:El; [|done..].
    injection Ht as <-. exists (ls :: lss). split; [by constructor|done]. }
  destruct Hlss as (lss & Hlss & ->). rewrite select_on_text. cbn [columns rows]. rewrite Ep. cbn [mbind outcome_bind].
  rewrite (row_lines_union _ _ _ _ _ Ho Hlss). cbn [mbind outcome_bind]. f_equal. symmetry. apply merge_texts; [done| |].
  - apply Forall2_length in Hlss. by destruct lss.
  - apply Forall_forall. intros ls Hin. apply list_elem_of_lookup in Hin as [i Hi].
    destruct (Forall2_lookup_r _ _ _ _ _ Hlss Hi) as (t & Hti & Hrow). apply (Hl t); [|done].
    by eapply list_elem_of_lookup_2.
Qed.

(** ** Properties by example *)

Definition one_column : TableSchema :=
  [{| col_name := str "v"; col_type := kText; primary_key := true; default_value := None |}].
Definition one_text (v : bytes) : table := Table one_column {[ v := [v] ]}.
Definition select_v : SelectStatement :=
  {| se_db_name := str "d"; se_table_name := str "t"; se_columns := []; se_where := [] |}.

(** Rows get lost in a scattered SELECT: a row that prints as "(0 rows)" is taken for the mark of
    an empty result, and a row that prints as an empty line is dropped when it is the last one of
    its shard; asked alone, each shard shows its row. *)
Theorem merged_rows_lost :
  let merged v := MergeSelectResults
    [match select_on select_v (one_text v) with Ret x => x | _ => [] end; str "v" ++ [newline] ++ str "x"] in
  select_on select_v (one_text (str "(0 rows)")) = Ret (str "v" ++ [newline] ++ str "(0 rows)") /\
  merged (str "(0 rows)") = str "v" ++ [newline] ++ str "x" /\
  select_on select_v (one_text []) = Ret (str "v" ++ [newline]) /\
  merged [] = str "v" ++ [newline] ++ str "x".
Proof. split_and!; vm_compute; reflexivity. Qed.

Lemma scattered_select_witness :
  select_on select_v (Table one_column (union_rows [one_text (str "a"); one_text (str "z")])) =
  Ret (str "v" ++ [newline] ++ str "a" ++ [newline] ++ str "z").
Proof.
  rewrite (scattered_select select_v [one_text (str "a"); one_text (str "z")]
    [str "v" ++ [newline] ++ str "a"; str "v" ++ [newline] ++ str "z"] one_column).
  - vm_compute. reflexivity.
  - discriminate.
  - repeat constructor.
  - split; [|split; [|exact I]].
    + intros k k' [x Hk] [y Hk']. cbn in Hk, Hk'. apply lookup_singleton_Some in Hk as [<- _].
      rewrite (right_id_L ∅ (∪)) in Hk'. apply lookup_singleton_Some in Hk' as [<- _]. reflexivity.
    + intros k k' _ [y Hk']. discriminate Hk'.
  - repeat constructor; vm_compute; reflexivity.
  - intros ph Hp. vm_compute in Hp. injection Hp as <-. split; [apply (bool_decide_unpack _); vm_compute; exact I|].
    intros t ls Ht Hl. rewrite !elem_of_cons, elem_of_nil in Ht. destruct Ht as [->|[->|[]]];
      vm_compute in Hl; injection Hl as <-; (constructor; [|constructor]);
      (split; [discriminate|]; split; [apply (bool_decide_unpack _); vm_compute; exact I|discriminate]).
Defined.
