(* ===== verification/Repl.v ===== *)
(** * The node program: arguments, identity and the REPL ([main] of [src/raft_main.cpp])

    What a node decides before it starts, and what it does with every line of its input.  The
    dispatch of a statement uses the coordinator of Coordinator; what the node asks of its own
    Raft group, of other shards and of its executor is the interface [Shards] of that file, and
    what the status line prints is the interface [NodeStatus].  A [Throw] that reaches the end of
    [handle_line] is the exception that [main] reports as fatal before the process ends. *)

From Stdlib Require Import NArith Lia.
From S2P Require Export Coordinator Parser HardState RaftNode.

(** ** Starting *)

Record Arguments := {
  a_node_id : NodeId; a_shard_id : ShardId; a_port : N; a_routing_path : bytes; a_state_dir : bytes;
  a_joining : option bytes;  (** the own host that follows [--joining] *)
}.

(** [argv] without the program's name; [inr] is the exit code after a usage message. *)
Definition parse_arguments (argv : list bytes) : outcome (Arguments + N) :=
  match argv with
  | id :: shard :: port :: path :: rest =>
    node_id ← stoul id;
    shard_id ← stoul shard;
    p ← stoul port;
    let make joining := {| a_node_id := u32 node_id; a_shard_id := u32 shard_id; a_port := u16 p;
      a_routing_path := path; a_state_dir := default (str ".") (head rest); a_joining := joining |} in
    match tail rest with
    | flag :: more =>
      if decide (flag = str "--joining") then
        match more with [] => Ret (inr 1%N) | own_host :: _ => Ret (inl (make (Some own_host))) end
      else Ret (inl (make None))
    | [] => Ret (inl (make None))
    end
  | _ => Ret (inr 1%N)
  end.

Definition not_listed (a : Arguments) : exn :=
  RuntimeError (str "node " ++ to_string (a_node_id a) ++ str " is not listed as a peer of shard " ++
    to_string (a_shard_id a) ++ str " in " ++ a_routing_path a).

(** The address the node gives itself and the peers it starts with. *)
Definition identity (a : Arguments) (routing : RoutingTable) (has_membership_file : bool) : outcome (PeerAddress * peer_map) :=
  my_shard ← Shard (a_shard_id a) routing;
  if has_membership_file then Ret ({| host := []; port := a_port a |}, ∅)
  else match a_joining a with
  | Some own_host => Ret ({| host := own_host; port := a_port a |}, ∅)
  | None =>
    match sr_peers my_shard !! a_node_id a with
    | None => Throw (not_listed a)
    | Some own_address => Ret (own_address, delete (a_node_id a) (sr_peers my_shard))
    end
  end.

(** ** Texts *)

Definition RoleName (role : Role) : bytes :=
  match role with
  | kFollower => str "follower"
  | kCandidate => str "candidate"
  | kLeader => str "leader"
  end.

Definition PrintHelp : bytes := concat (map (fun l => l ++ [newline]) [
   str "Enter SQL statements (CREATE DATABASE / CREATE TABLE / ALTER TABLE ADD";
   str "COLUMN / INSERT / SELECT / UPDATE / DELETE / SHOW TABLES / SHOW DATABASES).";
   str "Every table reference must be written <database>.<table> - there's no";
   str "current/default database (see CREATE DATABASE). CREATE/ALTER TABLE and";
   str "CREATE DATABASE are broadcast to every shard. INSERT, and any";
   str "SELECT/UPDATE/DELETE whose WHERE pins the primary key with '=', is routed to";
   str "the one shard that owns it (replicated through Raft the same as a";
   str "single-shard cluster, forwarding over the network first if that shard isn't";
   str "this node's). Anything else (no WHERE <pk> = ...) is scattered to every";
   str "shard and the results/counts gathered back into one answer. SHOW";
   str "TABLES/DATABASES only ever ask this node's own shard - every shard's schema";
   str "copy is already identical.";
   str "";
   str "  begin              start a transaction: buffers writes instead of running";
   str "                     them, until commit/rollback. Only INSERT/UPDATE/DELETE";
   str "                     whose WHERE pins the primary key are allowed inside one";
   str "                     (no CREATE DATABASE/TABLE, no ALTER TABLE, no SELECT, no";
   str "                     whole-table scatter, no SHOW TABLES/DATABASES).";
   str "  commit             two-phase commit every buffered statement, atomically";
   str "                     across however many shards they touch";
   str "  rollback           discard the buffer - nothing was ever sent anywhere";
   str "  status             show role / term / current leader hint / shard id";
   str "  add-server <id> <host> <port>";
   str "                     add a server to this shard's Raft group (start it first";
   str "                     with --joining <own-host>)";
   str "  remove-server <id> remove a server from this shard's Raft group (the leader";
   str "                     itself may be removed - it steps down once it commits)";
   str "  help";
   str "  exit"
]).

Definition error_line (message : bytes) : bytes := str "ERROR: " ++ message ++ [newline].
Definition say (message : bytes) : bytes := message ++ [newline].

Definition nested_begin : bytes := str "already in a transaction - commit or rollback it first".
Definition no_transaction : bytes := str "not in a transaction".
Definition add_server_usage : bytes := str "usage: add-server <id> <host> <port>".
Definition remove_server_usage : bytes := str "usage: remove-server <id>".
Definition no_schema_change : bytes := str "CREATE DATABASE/TABLE and ALTER TABLE are not supported inside a transaction".
Definition no_reads : bytes :=
  str "SELECT/SHOW TABLES/SHOW DATABASES are not supported inside a transaction " ++
  str "(writes are staged, not applied, until commit - a read here could never see them " ++
  str "anyway); run it before begin or after commit/rollback".
Definition no_single_shard : bytes :=
  str "this statement's WHERE doesn't pin the primary key, so it has no single " ++
  str "shard to lock - not supported inside a transaction".

(** ** The state of the loop *)

(** What [role()], [current_term()], [leader_hint()] and the clock of [StatementTimer] answer. *)
Class NodeStatus (W : Type) := {
  node_role : W -> Role;
  node_term : W -> Term;
  node_leader_hint : W -> NodeId;
  timer_line : W -> bytes;
}.

Record Repl := { in_txn : bool; txn_buffer : list BufferedTxnStatement; txn_counter : N }.

Definition new_repl : Repl := {| in_txn := false; txn_buffer := []; txn_counter := 0 |}.

(** The byte order mark some producers put before the first line. *)
Definition bom : bytes := ["239"%char; "187"%char; "191"%char].
Definition strip_bom (line : bytes) : bytes := if decide (take 3 line = bom) then drop 3 line else line.

(** [(static_cast<TxnId>(node_id) << 32) | counter] *)
Definition make_txn_id (node_id : NodeId) (counter : N) : TxnId := N.lor (u64 (N.shiftl node_id 32)) counter.

Section repl.
Context {W : Type} `{!Shards W} `{!NodeStatus W}.
Context (node_id : NodeId) (my_shard_id : ShardId) (routing : RoutingTable).

Definition with_world {A} (m : ST W A) : ST (Repl * W) A := fun rw => let '(o, w) := m rw.2 in (o, (rw.1, w)).
Definition set_repl (f : Repl -> Repl) : ST (Repl * W) unit := st_modify (fun rw => (f rw.1, rw.2)).
Definition get_repl : ST (Repl * W) Repl := st_gets fst.

(** ** Commands *)

Definition status : ST (Repl * W) bytes :=
  w ← st_gets snd;
  mret (str "shard=" ++ to_string my_shard_id ++ str " role=" ++ RoleName (node_role w) ++ str " term=" ++
    to_string (node_term w) ++ str " leader_hint=" ++ to_string (node_leader_hint w) ++ [newline]).

Definition do_begin : ST (Repl * W) bytes :=
  r ← get_repl;
  if in_txn r then mret (error_line nested_begin)
  else
    _ ← set_repl (fun r => {| in_txn := true; txn_buffer := []; txn_counter := txn_counter r |});
    mret (say (str "OK (transaction started)")).

Definition do_rollback : ST (Repl * W) bytes :=
  r ← get_repl;
  if negb (in_txn r) then mret (error_line no_transaction)
  else
    _ ← set_repl (fun r => {| in_txn := false; txn_buffer := []; txn_counter := txn_counter r |});
    mret (say (str "OK (rolled back - nothing was ever sent)")).

Definition leave_txn (r : Repl) : Repl := {| in_txn := false; txn_buffer := txn_buffer r; txn_counter := txn_counter r |}.

Definition do_commit : ST (Repl * W) bytes :=
  r ← get_repl;
  if negb (in_txn r) then mret (error_line no_transaction)
  else match txn_buffer r with
  | [] => _ ← set_repl leave_txn; mret (say (str "OK (empty transaction, nothing to commit)"))
  | buffer =>
    _ ← set_repl leave_txn;
    _ ← set_repl (fun r => {| in_txn := in_txn r; txn_buffer := txn_buffer r; txn_counter := u32 (txn_counter r + 1) |});
    r ← get_repl;
    result ← with_world (RunTransaction routing my_shard_id (make_txn_id node_id (txn_counter r)) buffer kCrossShardTimeoutMs);
    _ ← set_repl (fun r => {| in_txn := in_txn r; txn_buffer := []; txn_counter := txn_counter r |});
    mret (say result)
  end.

Definition propose (command : bytes) : ST (Repl * W) bytes :=
  resp ← with_world (propose_or_forward command kProposeTimeoutMs);
  mret (PrintClientResponse resp).

(** [iss >> new_id_raw >> host >> new_port_raw] *)
Definition add_server_arguments (rest : bytes) : option (N * bytes * N) :=
  match get_u64 0 (Some rest) with
  | (id, Some s1) =>
    '(host, s2) ← get_word s1;
    match get_u64 0 (Some s2) with (port, Some _) => Some (id, host, port) | _ => None end
  | _ => None
  end.

Definition do_add_server (rest : bytes) : ST (Repl * W) bytes :=
  match add_server_arguments rest with
  | None => mret (error_line add_server_usage)
  | Some (id, host, port) =>
    propose (EncodeConfChange {| cc_type := kAddServer; cc_server_id := u32 id; cc_host := host; cc_port := u16 port |})
  end.

Definition do_remove_server (rest : bytes) : ST (Repl * W) bytes :=
  match get_u64 0 (Some rest) with
  | (id, Some _) =>
    propose (EncodeConfChange {| cc_type := kRemoveServer; cc_server_id := u32 id; cc_host := []; cc_port := 0 |})
  | _ => mret (error_line remove_server_usage)
  end.

(** ** Statements *)

(** Inside a transaction. *)
Definition queue_statement (line : bytes) (parsed : Statement) : ST (Repl * W) bytes :=
  match parsed with
  | CreateDatabase _ | CreateTable _ | AlterTableAddColumn _ => mret (error_line no_schema_change)
  | Select _ | ShowTables _ | ShowDatabases => mret (error_line no_reads)
  | _ =>
    key ← with_world (extract_row_key parsed);
    match key with
    | None => mret (error_line no_single_shard)
    | Some key =>
      st_catch
        (shard ← st_lift (ShardFor key routing);
         _ ← set_repl (fun r => {| in_txn := in_txn r; txn_counter := txn_counter r;
               txn_buffer := txn_buffer r ++ [{| b_shard_id := sr_id shard; b_key := key; b_sql := line |}] |});
         mret (say (str "OK (queued on shard " ++ to_string (sr_id shard) ++ str ")")))
        (fun e => mret (error_line (what e)))
    end
  end.

Definition broadcast_statement (line verb : bytes) : ST (Repl * W) bytes :=
  result ← with_world (BroadcastWrite routing my_shard_id line kCrossShardTimeoutMs);
  mret (PrintBroadcastResult result verb).

Definition or_error (m : ST W bytes) : ST (Repl * W) bytes :=
  with_world (st_catch (text ← m; mret (say text)) (fun e => mret (error_line (what e)))).

Definition is_select (parsed : Statement) : bool := match parsed with Select _ => true | _ => false end.

(** A statement that is about one row. *)
Definition dispatch_to (line : bytes) (parsed : Statement) (key : bytes) : ST (Repl * W) bytes :=
  match ShardFor key routing with
  | Throw e => mret (error_line (what e))
  | Undef => st_lift Undef
  | Ret target =>
    let local := (sr_id target =? my_shard_id)%N in
    if is_select parsed then
      or_error (if local then execute_locally line else send_read_request (sr_peers target) line kCrossShardTimeoutMs)
    else if local then propose line
    else
      with_world (st_catch
        (resp ← send_client_request (sr_peers target) line kCrossShardTimeoutMs; mret (PrintClientResponse resp))
        (fun e => mret (error_line (what e))))
  end.

(** Outside a transaction. *)
Definition dispatch (line : bytes) (parsed : Statement) : ST (Repl * W) bytes :=
  match parsed with
  | CreateDatabase _ | CreateTable _ => broadcast_statement line (str "created")
  | AlterTableAddColumn _ => broadcast_statement line (str "altered")
  | ShowTables _ | ShowDatabases => or_error (execute_locally line)
  | _ =>
    key ← with_world (extract_row_key parsed);
    match key with
    | Some key => dispatch_to line parsed key
    | None =>
      if is_select parsed then with_world (scatter_select routing my_shard_id line)
      else broadcast_statement line (str "applied")
    end
  end.

Definition do_statement (line : bytes) : ST (Repl * W) bytes :=
  match Parse line with
  | Throw e => mret (error_line (what e))
  | Undef => st_lift Undef
  | Ret parsed =>
    r ← get_repl;
    out ← (if in_txn r then queue_statement line parsed else dispatch line parsed);
    w ← st_gets snd;
    mret (out ++ timer_line w)
  end.

(** One turn of the loop: what is printed, or [None] for [exit] and [quit]. *)
Definition handle_line (raw : bytes) : ST (Repl * W) (option bytes) :=
  let line := strip_bom raw in
  match get_word line with
  | None => mret (Some [])
  | Some (first_word, rest) =>
    if decide (first_word = str "exit" \/ first_word = str "quit") then mret None
    else if decide (first_word = str "help") then mret (Some PrintHelp)
    else
      out ← (if decide (first_word = str "status") then status
             else if decide (first_word = str "begin") then do_begin
             else if decide (first_word = str "rollback") then do_rollback
             else if decide (first_word = str "commit") then do_commit
             else if decide (first_word = str "add-server") then do_add_server rest
             else if decide (first_word = str "remove-server") then do_remove_server rest
             else do_statement line);
      mret (Some out)
  end.

(** The loop over the lines of the input. *)
Fixpoint repl_loop (lines : list bytes) : ST (Repl * W) (list bytes) :=
  match lines with
  | [] => mret []
  | line :: lines' =>
    out ← handle_line line;
    match out with
    | None => mret []
    | Some text => rest ← repl_loop lines'; mret (text :: rest)
    end
  end.
End repl.
