(* ===== verification/ReplSpec.v ===== *)
(** * Transactions at the REPL

    Nothing leaves a node between [begin] and [commit], and [commit] runs exactly the statements
    that were typed; with the coordinator's theorem, a whole session takes effect on all the
    shards or on none.  Transaction ids, and what happens when one is used twice. *)

From Stdlib Require Import NArith Lia.
From S2P Require Export Repl CoordinatorSpec.

(** ** Transaction ids *)

Lemma make_txn_id_sum node_id counter : (node_id < two32)%N -> (counter < two32)%N ->
  make_txn_id node_id counter = (node_id * two32 + counter)%N /\ (make_txn_id node_id counter < two64)%N.
Proof.
  intros Hn Hc. unfold make_txn_id, u64. rewrite N.shiftl_mul_pow2. change (2 ^ 32)%N with two32.
  rewrite N.mod_small by (unfold two32, two64 in *; lia).
  replace (N.lor (node_id * two32) counter) with (node_id * two32 + counter)%N; [unfold two32, two64 in *; lia|].
  rewrite <- N.lxor_lor, N.add_nocarry_lxor; [done| |].
  all: change two32 with (2 ^ 32)%N; apply N.bits_inj_0; intros i; rewrite N.land_spec.
  all: destruct (N.lt_ge_cases i 32%N) as [Hi|Hi];
    [by rewrite N.mul_pow2_bits_low|apply andb_false_iff; right].
  all: destruct (N.eq_dec counter 0%N) as [->|Hz]; [apply N.bits_0|apply N.bits_above_log2].
  all: apply N.log2_lt_pow2; [lia|]; apply (N.lt_le_trans _ (2 ^ 32)%N); [exact Hc|apply N.pow_le_mono_r; lia].
Qed.

(** The ids of different nodes differ, and so do those of different counters of one node: no
    bits of the two halves overlap and none are lost to the 64-bit word. *)
Theorem txn_ids_distinct (node1 node2 : NodeId) (counter1 counter2 : N) :
  (node1 < two32)%N -> (node2 < two32)%N -> (counter1 < two32)%N -> (counter2 < two32)%N ->
  make_txn_id node1 counter1 = make_txn_id node2 counter2 -> node1 = node2 /\ counter1 = counter2.
Proof.
  intros H1 H2 H3 H4. rewrite (proj1 (make_txn_id_sum node1 counter1 H1 H3)), (proj1 (make_txn_id_sum node2 counter2 H2 H4)).
  unfold two32 in *. nia.
Qed.

(** ** Buffering *)

Section buffering.
Context {W : Type} `{!Shards W} `{!NodeStatus W}.
Context (node_id : NodeId) (my_shard_id : ShardId) (routing : RoutingTable).

(** Looking for the row key of a statement reads the tables only. *)
Context (key_at : Statement -> W -> option bytes).
Definition keys_read_only : Prop := forall stmt w, extract_row_key stmt w = (Ret (key_at stmt w), w).
Context (Hkeys : keys_read_only).

Definition is_row_write (stmt : Statement) : bool :=
  match stmt with InsertInto _ | Update _ | DeleteFrom _ => true | _ => false end.

Definition first_word (raw : bytes) : bytes := match get_word (strip_bom raw) with Some (w, _) => w | None => [] end.

(** Lines that neither end the transaction nor talk to the Raft group about its members. *)
Definition quiet (raw : bytes) : Prop :=
  first_word raw ∉ [str "exit"; str "quit"; str "rollback"; str "commit"; str "add-server"; str "remove-server"].
#[export] Instance quiet_dec raw : Decision (quiet raw).
Proof. unfold quiet. apply _. Defined.

(** What a line adds to the transaction: the statement, if it writes one row whose key it pins,
    with the shard of that key. *)
Definition buffered (w : W) (raw : bytes) : option BufferedTxnStatement :=
  let line := strip_bom raw in
  if decide (first_word raw ∈ [[]; str "help"; str "status"; str "begin"]) then None
  else match Parse line with
  | Ret stmt =>
    if is_row_write stmt then
      key ← key_at stmt w;
      match ShardFor key routing with
      | Ret shard => Some {| b_shard_id := sr_id shard; b_key := key; b_sql := line |}
      | _ => None
      end
    else None
  | _ => None
  end.

Definition add_buffered (r : Repl) (l : list BufferedTxnStatement) : Repl :=
  {| in_txn := in_txn r; txn_buffer := txn_buffer r ++ l; txn_counter := txn_counter r |}.

Lemma add_nothing r : add_buffered r [] = r.
Proof. unfold add_buffered. rewrite app_nil_r. by destruct r. Qed.

Lemma add_added r l1 l2 : add_buffered (add_buffered r l1) l2 = add_buffered r (l1 ++ l2).
Proof. unfold add_buffered. cbn. by rewrite <- app_assoc. Qed.

Definition opt_list {A} (o : option A) : list A := match o with Some a => [a] | None => [] end.

(** A row write inside a transaction. *)
Lemma queue_run line stmt r w : is_row_write stmt = true ->
  exists out, queue_statement routing line stmt (r, w) =
    (Ret out, (add_buffered r (opt_list (key ← key_at stmt w;
       match ShardFor key routing with
       | Ret shard => Some {| b_shard_id := sr_id shard; b_key := key; b_sql := line |}
       | _ => None
       end)), w)).
Proof.
  intros Hrow.
  assert (E : with_world (extract_row_key stmt) (r, w) = (Ret (key_at stmt w), (r, w)))
    by (unfold with_world; cbn [fst snd]; by rewrite Hkeys).
  unfold queue_statement. destruct stmt; try done; rewrite (run_bind _ _ _ _ _ E).
  all: destruct (key_at _ w) as [key|]; cbn [mbind option_bind opt_list];
    [|eexists; by rewrite add_nothing].
  all: pose proof (ShardFor_defined key routing) as Hd; destruct (ShardFor key routing) as [shard|e|]; [| |done].
  all: unfold st_catch; eexists; cbn; rewrite ?add_nothing; reflexivity.
Qed.

Lemma handle_quiet raw r w : in_txn r = true -> quiet raw ->
  exists out, handle_line node_id my_shard_id routing raw (r, w) =
    (Ret (Some out), (add_buffered r (opt_list (buffered w raw)), w)).
Proof.
  intros Hin Hq. unfold handle_line, buffered. cbv zeta. unfold quiet, first_word in *.
  destruct (get_word (strip_bom raw)) as [[word rest]|] eqn:Ew.
  2: { rewrite decide_True by (by left). eexists. cbn [opt_list]. by rewrite add_nothing. }
  rewrite !elem_of_cons, elem_of_nil in Hq.
  rewrite (decide_False (P := word = _ \/ _)) by tauto.
  destruct (decide (word = str "help")) as [->|Hhelp].
  { eexists. rewrite decide_True by (right; by left). cbn [opt_list]. by rewrite add_nothing. }
  destruct (decide (word = str "status")) as [->|Hst].
  { eexists. rewrite (decide_True (P := _ ∈ _)) by (do 2 right; by left). cbn [opt_list]. by rewrite add_nothing. }
  destruct (decide (word = str "begin")) as [->|Hbg].
  { unfold do_begin, get_repl. eexists. rewrite run_assoc, run_gets. cbn [fst]. rewrite Hin.
    rewrite (decide_True (P := _ ∈ _)) by (do 3 right; by left). cbn [opt_list]. by rewrite add_nothing. }
  rewrite !(decide_False (P := word = _)) by tauto.
  assert (Hne : word <> []).
  { unfold get_word in Ew. cbv zeta in Ew. case_decide as Hw; [done|]. by injection Ew as <- _. }
  rewrite decide_False by (rewrite !elem_of_cons, elem_of_nil; tauto).
  unfold do_statement. pose proof (Parse_good (strip_bom raw)) as Hp.
  destruct (Parse (strip_bom raw)) as [stmt|e|]; [| |done].
  2: { eexists. cbn [opt_list]. by rewrite add_nothing. }
  unfold get_repl. rewrite run_assoc, run_gets. cbn [fst]. rewrite Hin.
  destruct (is_row_write stmt) eqn:Erow.
  - destruct (queue_run (strip_bom raw) stmt r w Erow) as [out E]. rewrite run_assoc, (run_bind _ _ _ _ _ E). eexists. reflexivity.
  - cbn [opt_list]. rewrite add_nothing. unfold queue_statement. destruct stmt; try done; eexists; reflexivity.
Qed.

(** The lines of a transaction, and what comes after them. *)
Lemma loop_quiet lines r w : in_txn r = true -> Forall quiet lines ->
  exists outs, forall rest, repl_loop node_id my_shard_id routing (lines ++ rest) (r, w) =
    (t ← repl_loop node_id my_shard_id routing rest; mret (outs ++ t)) (add_buffered r (omap (buffered w) lines), w).
Proof.
  intros Hin Hq. revert r Hin. induction Hq as [|raw lines Hraw Hq IH]; intros r Hin.
  - exists []. intros rest. cbn [app omap list_omap]. rewrite add_nothing. unfold mbind, ST_bind. by destruct (repl_loop _ _ _ rest (r, w)) as [[?|?|] ?].
  - destruct (handle_quiet raw r w Hin Hraw) as [out E].
    destruct (IH (add_buffered r (opt_list (buffered w raw))) Hin) as [outs E']. exists (out :: outs). intros rest. specialize (E' rest).
    replace (omap (buffered w) (raw :: lines)) with (opt_list (buffered w raw) ++ omap (buffered w) lines)
      by (cbn; by destruct (buffered w raw)).
    rewrite <- add_added. cbn [app repl_loop]. rewrite (run_bind _ _ _ _ _ E). revert E'.
    unfold mbind, ST_bind. intros ->. by destruct (repl_loop _ _ _ rest _) as [[?|?|] ?].
Qed.
End buffering.

(** ** A whole transaction *)

Section session.
Context {W : Type} `{!Shards W} `{!NodeStatus W}.
Context (node_id : NodeId) (my_shard_id : ShardId) (routing : RoutingTable).

Definition next_counter (r : Repl) : N := u32 (txn_counter r + 1).

Lemma commit_run r w msg w' : in_txn r = true -> txn_buffer r <> [] ->
  RunTransaction routing my_shard_id (make_txn_id node_id (next_counter r)) (txn_buffer r) kCrossShardTimeoutMs w = (Ret msg, w') ->
  repl_loop node_id my_shard_id routing [str "commit"] (r, w) =
    (Ret [say msg], ({| in_txn := false; txn_buffer := []; txn_counter := next_counter r |}, w')).
Proof.
  intros Hin Hne E. destruct r as [i buffer counter]. cbn [in_txn txn_buffer txn_counter] in *. subst i.
  destruct buffer as [|s buffer]; [done|]. cbn [repl_loop].
  assert (Eh : handle_line node_id my_shard_id routing (str "commit") (Build_Repl true (s :: buffer) counter, w) =
    (out ← do_commit node_id my_shard_id routing; mret (Some out)) (Build_Repl true (s :: buffer) counter, w)) by reflexivity.
  unfold mbind at 1, ST_bind at 1. rewrite Eh. unfold do_commit, get_repl, set_repl, st_gets, st_modify, with_world, mbind, ST_bind.
  cbn [fst snd in_txn txn_buffer txn_counter negb leave_txn]. unfold next_counter in E. cbn [txn_counter] in E. rewrite E. reflexivity.
Qed.

Lemma begin_run r w rest : in_txn r = false ->
  repl_loop node_id my_shard_id routing (str "begin" :: rest) (r, w) =
    (t ← repl_loop node_id my_shard_id routing rest; mret (say (str "OK (transaction started)") :: t))
      ({| in_txn := true; txn_buffer := []; txn_counter := txn_counter r |}, w).
Proof. intros H. destruct r as [i b c]. cbn in H. subst i. reflexivity. Qed.

(** The lines between [begin] and [commit] reach no one. *)
Lemma session_run (key_at : Statement -> W -> option bytes) r w lines :
  keys_read_only key_at -> in_txn r = false -> Forall quiet lines ->
  exists outs, forall rest, repl_loop node_id my_shard_id routing (str "begin" :: lines ++ rest) (r, w) =
    (t ← repl_loop node_id my_shard_id routing rest; mret (outs ++ t))
      ({| in_txn := true; txn_buffer := omap (buffered routing key_at w) lines; txn_counter := txn_counter r |}, w).
Proof.
  intros Hkeys Hin Hq.
  assert (Ho : exists outs, forall rest, repl_loop node_id my_shard_id routing (lines ++ rest)
      ({| in_txn := true; txn_buffer := []; txn_counter := txn_counter r |}, w) =
    (t ← repl_loop node_id my_shard_id routing rest; mret (outs ++ t))
      ({| in_txn := true; txn_buffer := omap (buffered routing key_at w) lines; txn_counter := txn_counter r |}, w)).
  { by apply (loop_quiet node_id my_shard_id routing key_at Hkeys lines {| in_txn := true; txn_buffer := []; txn_counter := txn_counter r |}). }
  destruct Ho as [outs Ho]. exists (say (str "OK (transaction started)") :: outs). intros rest.
  rewrite (begin_run r w _ Hin). unfold mbind at 1, ST_bind at 1. rewrite Ho.
  unfold mbind, ST_bind. by destruct (repl_loop _ _ _ rest _) as [[?|?|] ?].
Qed.
End session.

(** C10: a transaction as it is typed.  Between [begin] and [commit] nothing is asked of any shard and
    the node's own tables stay as they are; [commit] then takes effect on the shards as
    [two_phase_commit] says: either every shard is exactly as it was, or every shard has run, in
    the order they were typed and up to the first that fails ([run_all]), the row writes whose
    key it owns, and nothing else.  Either way the transaction is over and the next one gets the
    next id.  At least one line is a row write whose key the statement pins, none rolls back, ends
    the session or changes the members ([quiet]), the shards answer every command and report what
    they did ([reliable]), the PREPAREs fit their format, and the id is not one that a shard of the transaction has prepared
    already.  (A batch can fail in part when it inserts one key twice: [staged_duplicates_missed].) *)
Theorem transaction_session {W} `{!Shards W} `{!NodeStatus W} (node_id : NodeId) (my_shard_id : ShardId)
    (routing : RoutingTable) (key_at : Statement -> W -> option bytes) (view : W -> gmap N shard_state)
    (lines : list bytes) (r : Repl) (w : W) :
  let buffer : list BufferedTxnStatement := omap (buffered routing key_at w) lines in
  let txn_id := make_txn_id node_id (next_counter r) in
  keys_read_only key_at -> reliable routing my_shard_id kCrossShardTimeoutMs view ->
  (node_id < two32)%N -> in_txn r = false -> Forall quiet lines -> buffer <> [] ->
  (forall sid, prepare_ok (prepare_of txn_id buffer sid)) ->
  (forall s, s ∈ buffer -> exists td, view w !! b_shard_id s = Some td /\ pending td.1 !! txn_id = None) ->
  (repl_loop node_id my_shard_id routing (str "begin" :: lines) (r, w)).2.2 = w /\
  exists outs msg w',
    repl_loop node_id my_shard_id routing (str "begin" :: lines ++ [str "commit"]) (r, w) =
      (Ret (outs ++ [say msg]), ({| in_txn := false; txn_buffer := []; txn_counter := next_counter r |}, w')) /\
    ((view w' = view w /\ exists reason fs, msg = aborted_message reason fs) \/
     ((forall sid, view w' !! sid = (fun td => (td.1, run_all (b_sql <$> share sid buffer) td.2)) <$> view w !! sid) /\
      exists fs, msg = match fs with [] => committed_message txn_id (size (group_by_shard txn_id buffer))
                       | _ => undelivered_message txn_id fs end)).
Proof.
  intros buffer txn_id Hkeys Hrel Hnode Hin Hq Hne Hok Hpend.
  destruct (session_run node_id my_shard_id routing key_at r w lines Hkeys Hin Hq) as [outs Hs]. fold buffer in Hs.
  split; [rewrite <- (app_nil_r lines), Hs; reflexivity|].
  assert (Hid : (txn_id < two64)%N).
  { apply make_txn_id_sum; [done|]. unfold next_counter, u32. apply N.mod_lt. done. }
  destruct (two_phase_commit routing my_shard_id kCrossShardTimeoutMs view txn_id buffer w Hrel Hid Hok Hpend)
    as (msg & w' & E & H).
  exists outs, msg, w'. split.
  - rewrite Hs. unfold mbind, ST_bind.
    assert (Ec : repl_loop node_id my_shard_id routing [str "commit"]
        ({| in_txn := true; txn_buffer := buffer; txn_counter := txn_counter r |}, w) =
      (Ret [say msg], ({| in_txn := false; txn_buffer := []; txn_counter := next_counter r |}, w'))).
    { exact (commit_run node_id my_shard_id routing {| in_txn := true; txn_buffer := buffer; txn_counter := txn_counter r |} w msg w' eq_refl Hne E). }
    rewrite Ec. reflexivity.
  - destruct H as [(Hv & Hm & _)|(_ & Hv & Hm)]; [left|right]; by split.
Qed.

(** ** A concrete session *)

(** The tables of the node: one table with a TEXT primary key. *)
Definition demo_store : gmap (list ascii) (list ascii) :=
  foldl (fun s sql => (Execute sql s).2) ∅
    [str "create database shop"; str "create table shop.items (id text primary key)"].

(** What the node's executor answers. *)
Definition demo_key (stmt : Statement) : option bytes :=
  match (TryExtractRowKey stmt demo_store).1 with Ret key => key | _ => None end.

#[export] Instance quiet_node : NodeStatus (gmap N shard_state) := {|
  node_role _ := kLeader; node_term _ := 1%N; node_leader_hint _ := 1%N; timer_line _ := [] |}.

(** A session on node 1 of shard 1; [lost] says which answers do not arrive. *)
Definition demo_session (lost : ShardId -> bytes -> bool) (lines : list bytes) (w : gmap N shard_state) :
    outcome (list bytes) * (Repl * gmap N shard_state) :=
  repl_loop (Shards0 := shards_with demo_key lost) 1 1 demo_routing lines (new_repl, w).

Definition stored (sid : ShardId) (id : bytes) (w : gmap N shard_state) : bool :=
  match w !! sid with
  | Some td => match table_at td.2 (str "shop") (str "items") with
               | Some t => bool_decide (is_Some (rows t !! id))
               | None => false
               end
  | None => false
  end.

Definition last_line (r : outcome (list bytes)) : option bytes := match r with Ret t => last t | _ => None end.

(** Starting the node again starts its counter again, so the first transaction after a restart
    has the id of the first one before it.  Here the answer of shard 2 to the PREPARE of the
    first transaction is lost: it is reported ABORTED.  After the restart a second transaction,
    which adds another row, is given the same id; shard 2 takes its PREPARE for a repetition, and
    its COMMIT runs the statement of the aborted transaction instead of the new one, which is
    reported committed and is nowhere. *)
Theorem restart_commits_aborted_transaction :
  let '(r1, (_, w1)) := demo_session (fun sid _ => (sid =? 2)%N) [str "begin"; insert_id (str "p"); str "commit"] two_shards in
  let '(r2, (_, w2)) := demo_session (fun _ _ => false) [str "begin"; insert_id (str "q"); str "commit"] w1 in
  last_line r1 = Some (say (aborted_message (str "shard 2: connection closed or timed out while reading") [])) /\
  last_line r2 = Some (say (committed_message (make_txn_id 1 1) 1)) /\
  stored 2 (str "p") w2 = true /\ stored 2 (str "q") w2 = false.
Proof. vm_compute. split_and!; reflexivity. Qed.

(** A broadcast has no [try] around it: when another shard cannot be reached, CREATE TABLE ends
    the process, where a row write would print the error. *)
Theorem broadcast_ends_the_session :
  let create := str "create table shop.more (id text primary key)" in
  let add := insert_id (str "p") in
  (demo_session (fun sid _ => (sid =? 2)%N) [create; str "status"] two_shards).1 =
    Throw (RuntimeError (str "connection closed or timed out while reading")) /\
  (demo_session (fun sid _ => (sid =? 2)%N) [add; str "exit"] two_shards).1 =
    Ret [error_line (str "connection closed or timed out while reading")].
Proof. split; vm_compute; reflexivity. Qed.

(** ** Witnesses *)

Lemma txn_ids_distinct_witness : (3 = 3 /\ 7 = 7)%N.
Proof. apply (txn_ids_distinct 3 3 7 7); reflexivity. Defined.

Definition typed_lines : list bytes := [insert_id (str "a"); str "status"; insert_id (str "z")].
Definition typed_buffer : list BufferedTxnStatement :=
  [{| b_shard_id := 1; b_key := RowKey (str "shop") (str "items") (str "a"); b_sql := insert_id (str "a") |};
   {| b_shard_id := 2; b_key := RowKey (str "shop") (str "items") (str "z"); b_sql := insert_id (str "z") |}].

Lemma typed_buffered : omap (buffered demo_routing (fun stmt _ => demo_key stmt) two_shards) typed_lines = typed_buffer.
Proof. vm_compute. reflexivity. Qed.

Lemma transaction_session_witness :
  exists outs msg w',
    demo_session (fun _ _ => false) (str "begin" :: typed_lines ++ [str "commit"]) two_shards =
      (Ret (outs ++ [say msg]), ({| in_txn := false; txn_buffer := []; txn_counter := 1 |}, w')).
Proof.
  destruct (transaction_session (Shards0 := shards_with demo_key (fun _ _ => false)) 1 1 demo_routing (fun stmt _ => demo_key stmt)
    demo_view typed_lines new_repl two_shards) as (_ & outs & msg & w' & E & _).
  - by intros stmt w.
  - exact (demo_reliable _).
  - reflexivity.
  - reflexivity.
  - repeat constructor; apply (bool_decide_unpack _); vm_compute; exact I.
  - rewrite typed_buffered. discriminate.
  - intros sid. rewrite typed_buffered. unfold prepare_of, share. cbn [filter list_filter typed_buffer b_shard_id].
    repeat case_decide; subst; try discriminate; (split; [done|]); (split; (split; [done|])); repeat constructor.
  - intros s. rewrite typed_buffered. unfold typed_buffer. rewrite !elem_of_cons, elem_of_nil.
    intros [->|[->|[]]]; exists (new_participant, demo_database); (split; vm_compute; reflexivity).
  - exists outs, msg, w'. exact E.
Defined.
