(* ===== verification/Shell.v ===== *)
(** * The single-node shell ([src/main.cpp])

    One engine and one SQL executor behind a prompt, with raw [put], [get] and [del].  The store
    is the key-value interface of Store, which the storage engine implements. *)

From Stdlib Require Import NArith Lia.
From S2P Require Export SqlSpec Routing.

Definition kShellHelp : bytes := concat (map (fun l => l ++ [newline]) [
   str "Raw KV commands:";
   str "  put <key> <value>";
   str "  get <key>";
   str "  del <key>";
   str "";
   str "SQL statements (single line each):";
   str "  CREATE TABLE t (id TEXT PRIMARY KEY, name TEXT, age INT)";
   str "  INSERT INTO t (id, name, age) VALUES ('u1', 'Alice', 30)";
   str "  SELECT * FROM t WHERE age > 20";
   str "  UPDATE t SET age = 31 WHERE id = 'u1'";
   str "  DELETE FROM t WHERE id = 'u1'";
   str "";
   str "  help";
   str "  exit"
]).

(** [std::string::front() == ' '] and [erase(0, 1)]. *)
Definition drop_space (value : bytes) : bytes :=
  match value with a :: rest => if Ascii.eqb a " "%char then rest else value | [] => [] end.

Definition is_sql_word (upper_cmd : bytes) : bool :=
  bool_decide (upper_cmd ∈ [str "CREATE"; str "INSERT"; str "SELECT"; str "UPDATE"; str "DELETE"]).

Section shell.
Context {S : Type} `{!KVStore S}.

Definition put_usage : bytes := str "usage: put <key> <value>".
Definition get_usage : bytes := str "usage: get <key>".
Definition del_usage : bytes := str "usage: del <key>".

Definition out_line (text : bytes) : bytes := text ++ [newline].

Definition run_sql_line (line : bytes) : ST S bytes :=
  st_catch (text ← Execute line; mret (out_line text))
    (fun e => mret (out_line (str "ERROR: " ++ what e))).

(** [iss >> key], the rest of the line, and the space before the value. *)
Definition run_put (rest : bytes) : ST S bytes :=
  let '(key, rest) := default ([], []) (get_word rest) in
  let value := drop_space (getline rest).1 in
  if decide (key = [] \/ value = []) then mret (out_line put_usage)
  else _ ← kv_put key value; mret (out_line (str "OK")).

Definition run_get (rest : bytes) : ST S bytes :=
  match get_word rest with
  | None => mret (out_line get_usage)
  | Some (key, _) =>
    value ← Get key;
    mret (out_line (default (str "(not found)") value))
  end.

Definition run_del (rest : bytes) : ST S bytes :=
  match get_word rest with
  | None => mret (out_line del_usage)
  | Some (key, _) => _ ← kv_delete key; mret (out_line (str "OK"))
  end.

(** One turn of the loop; [None] is [exit]. *)
Definition shell_line (line : bytes) : ST S (option bytes) :=
  match get_word line with
  | None => mret (Some [])
  | Some (cmd, rest) =>
    let upper_cmd := ToUpper cmd in
    if decide (upper_cmd = str "EXIT" \/ upper_cmd = str "QUIT") then mret None
    else
      out ← (if decide (upper_cmd = str "HELP") then mret kShellHelp
             else if is_sql_word upper_cmd then run_sql_line line
             else if decide (cmd = str "put") then run_put rest
             else if decide (cmd = str "get") then run_get rest
             else if decide (cmd = str "del") then run_del rest
             else mret (out_line (str "unknown command: " ++ cmd ++ str " (type 'help')")));
      mret (Some out)
  end.

Definition prompt : bytes := str "> ".

(** What is printed for every line, after the prompt; the last prompt is left without an answer. *)
Fixpoint shell (lines : list bytes) : ST S (list bytes) :=
  match lines with
  | [] => mret [prompt]
  | line :: lines' =>
    out ← shell_line line;
    match out with
    | None => mret [prompt]
    | Some text => rest ← shell lines'; mret ((prompt ++ text) :: rest)
    end
  end.
End shell.

(** ** Examples *)

(** The statements the help text offers are refused one and all: they name their table without
    its database.  SHOW and ALTER, which the executor knows, are unknown to the shell. *)
Theorem help_examples_refused :
  match (shell [str "create database d"; str "CREATE TABLE t (id TEXT PRIMARY KEY, name TEXT, age INT)";
          str "INSERT INTO t (id, name, age) VALUES ('u1', 'Alice', 30)"; str "SELECT * FROM t WHERE age > 20";
          str "UPDATE t SET age = 31 WHERE id = 'u1'"; str "DELETE FROM t WHERE id = 'u1'"; str "show databases"; str "exit"]
     (∅ : gmap (list ascii) (list ascii))).1 with
  | Ret outs => map (take 41) outs
  | _ => []
  end =
  map (fun text => prompt ++ text)
    ([out_line (str "OK")] ++ replicate 5 (str "ERROR: table name 't' must be qualified") ++
     [out_line (str "unknown command: show (type 'help')")]) ++ [prompt].
Proof. vm_compute. reflexivity. Qed.
