(* ===== verification/Ui.v ===== *)
(** * The desktop client, apart from its windows ([src/ui/main.cpp])

    What the client does with text: its lenient peer list, the "Seed node" field, the database
    name it adds to a bare table reference, how it sends a statement, and the grid it makes of a
    SELECT result.  The Win32, Direct3D and ImGui code around it is not modelled. *)

From Stdlib Require Import NArith Lia.
From S2P Require Export Client Parser Executor.

(** ** Peer lists and addresses *)

(** An entry without its separators, or with a bad number, is left out. *)
Definition add_ui_peer (peers : peer_map) (entry : bytes) : peer_map :=
  if decide (entry = []) then peers
  else match break_at equals entry with
  | None => peers
  | Some (ids, rest) =>
    match break_at colon rest with
    | None => peers
    | Some (h, ports) =>
      match (id ← stoul ids; p ← stoul ports; Ret (u32 id, {| host := h; port := u16 p |})) with
      | Ret p => <[p.1 := p.2]> peers
      | _ => peers
      end
    end
  end.

Definition ParseUiPeerSpec (spec : bytes) : peer_map := foldl add_ui_peer ∅ (pieces comma spec).

(** The same text as the membership file's. *)
Definition FormatUiPeerSpec : peer_map -> bytes := FormatPeerSpec.

(** The host and the port, when the function returns true. *)
Definition ParseHostPort (s : bytes) : option (bytes * N) :=
  '(h, ports) ← break_at colon s;
  match stoul ports with
  | Ret p => if decide (h = []) then None else Some (h, u16 p)
  | _ => None
  end.

(** ** Qualifying a bare table name *)

Definition ToUpperCopy (s : bytes) : bytes := map toupper s.

Definition is_word (w : bytes) (t : Token) : bool :=
  bool_decide (type t = kIdentifier) && bool_decide (ToUpperCopy (text t) = w).

(** The loop that looks for TABLE, INTO or FROM with a token after it. *)
Fixpoint after_keyword (i : nat) (tokens : list Token) : option nat :=
  match tokens with
  | t :: ((_ :: _) as rest) =>
    if is_word (str "TABLE") t || is_word (str "INTO") t || is_word (str "FROM") t then Some (S i)
    else after_keyword (S i) rest
  | _ => None
  end.

Definition table_token (tokens : list Token) : option nat :=
  match tokens with
  | t :: _ => if is_word (str "UPDATE") t then Some 1%nat else after_keyword 0 tokens
  | [] => None
  end.

Definition is_dot (t : Token) : bool := bool_decide (type t = kSymbol) && bool_decide (text t = str ".").

Definition QualifyIfBare (line db : bytes) : bytes :=
  if decide (db = []) then line
  else match Tokenize line with
  | Ret tokens =>
    if match tokens with t :: _ => is_word (str "SHOW") t | [] => false end then line
    else match table_token tokens with
    | None => line
    | Some i =>
      match tokens !! i with
      | None => line
      | Some name =>
        if negb (bool_decide (type name = kIdentifier)) then line
        else if match tokens !! S i with Some t => is_dot t | None => false end then line
        else take (offset name) line ++ db ++ str "." ++ drop (offset name) line
      end
    end
  | _ => line
  end.

(** ** Sending a statement *)

Definition FormatClientResponse (resp : ClientResponse) : bytes :=
  if clr_success resp then
    str "OK (committed at index " ++ to_string (clr_index resp) ++ str ", via leader node " ++
    to_string (clr_leader_hint resp) ++ str ")"
  else
    str "FAILED" ++
    (if clr_not_leader resp && negb (clr_leader_hint resp =? 0)%N then
       str " (best known leader is node " ++ to_string (clr_leader_hint resp) ++ str ", but still failed" ++
       (if decide (clr_error resp = []) then [] else str ": " ++ clr_error resp) ++ str " - retry)"
     else if decide (clr_error resp = []) then [] else str " (" ++ clr_error resp ++ str ")").

Inductive ResultKind := kTextResult | kTable | kError.
#[export] Instance ResultKind_eq_dec : EqDecision ResultKind.
Proof. solve_decision. Defined.

Record StatementResult := { sr_kind : ResultKind; sr_text : bytes }.

Definition ui_error (message : bytes) : StatementResult := {| sr_kind := kError; sr_text := str "ERROR: " ++ message |}.

Definition kUiTimeoutMs : N := 3000.

Definition is_read (parsed : Statement) : bool :=
  match parsed with Select _ | ShowTables _ | ShowDatabases => true | _ => false end.

Definition SendStatement {W} `{!Network W} (peers : peer_map) (line : bytes) : ST (client W) StatementResult :=
  if decide (peers = ∅) then mret (ui_error (str "no peers configured - enter a peer list first"))
  else match Parse line with
  | Throw e => mret (ui_error (what e))
  | Undef => st_lift Undef
  | Ret parsed =>
    if is_read parsed then
      st_catch (text ← SendReadRequest peers line kUiTimeoutMs; mret {| sr_kind := kTable; sr_text := text |})
        (fun e => mret (ui_error (what e)))
    else
      st_catch
        (resp ← SendClientRequest peers line kUiTimeoutMs;
         mret {| sr_kind := if clr_success resp then kTextResult else kError; sr_text := FormatClientResponse resp |})
        (fun e => mret (ui_error (what e)))
  end.

(** ** Grids *)

Definition no_rows : bytes := str "(0 rows)".

Definition TryParseSelectTable (result : bytes) : option (list bytes * list (list bytes)) :=
  match pieces newline result with
  | [] => None
  | header_line :: lines =>
    if decide (header_line = []) then None
    else match pieces tab header_line with
    | [] => None
    | headers => Some (headers, map (pieces tab) (filter (fun line => line <> no_rows) lines))
    end
  end.

(** Without [elapsed_ms], which is 0 in a new entry. *)
Record HistoryEntry := {
  he_kind : ResultKind; he_text : bytes; he_headers : list bytes; he_rows : list (list bytes); has_timing : bool;
}.

Definition MakeHistoryEntry (kind : ResultKind) (text : bytes) : HistoryEntry :=
  let parsed := if decide (kind = kTable) then TryParseSelectTable text else None in
  {| he_kind := match parsed with
                | Some _ => kTable
                | None => if decide (kind = kTable) then kTextResult else kind
                end;
     he_text := text;
     he_headers := from_option fst [] parsed;
     he_rows := from_option snd [] parsed;
     has_timing := false |}.
