(* ===== verification/UiApp.v ===== *)
(** * The window loop of the desktop client ([WinMain] of [src/ui/main.cpp])

    The state of the client -- its text fields, the peers it uses, the databases to pick from and
    the history -- and what one turn of the loop does with it.  Dear ImGui is third-party code: what
    its widgets report in a turn (edits, clicks) is the [Input], and what is drawn in the output
    panel is a list of [Widget]s. *)

From Stdlib Require Import NArith Lia.
From S2P Require Export Ui.

(** ** Text fields

    A field is a [char] array that holds a text and the null character after it. *)

Definition nul : ascii := "000"%char.

(** The text in an array, up to its first null character. *)
Definition c_str (buffer : bytes) : bytes :=
  match break_at nul buffer with Some (text, _) => text | None => buffer end.

(** [n = s.copy(buffer, sizeof(buffer) - 1); buffer[n] = '\0'], read back as a text. *)
Definition copy_to (size : nat) (s : bytes) : bytes := c_str (take (size - 1) s).

Definition kSeedSize : nat := 128.
Definition kPeersSize : nat := 256.
Definition kDatabaseSize : nat := 128.
Definition kCommandSize : nat := 512.

(** ** The output panel *)

(** What is drawn, in order: a table with its columns, the texts, and the time a statement took
    (without its digits). *)
Inductive Widget :=
| TableWidget (id : bytes) (columns : nat) (headers : list bytes) (cells : list (list bytes))
| ErrorWidget (text : bytes)
| TextWidget (text : bytes)
| DisabledWidget (text : bytes)
| TimeWidget.

Definition draw_entry (i : nat) (e : HistoryEntry) : list Widget :=
  match he_kind e with
  | kTable =>
    TableWidget (str "##table" ++ to_string (N.of_nat i)) (length (he_headers e)) (he_headers e) (he_rows e) ::
    match he_rows e with [] => [DisabledWidget no_rows] | _ => [] end
  | kError => [ErrorWidget (he_text e)]
  | kTextResult => [TextWidget (he_text e)]
  end ++ (if has_timing e then [TimeWidget] else []).

Definition draw_output (history : list HistoryEntry) : list Widget := concat (imap draw_entry history).

Section app.
Context {W : Type} `{!Network W}.

Record App := {
  seed_buf : bytes;
  peers_buf : bytes;
  database_buf : bytes;
  command_buf : bytes;
  known_databases : list bytes;
  history : list HistoryEntry;
  scroll_to_bottom : bool;
  peers : peer_map;
  screen : list Widget;  (** what the output panel shows *)
  network : client W;
}.

Definition with_seed (s : bytes) (a : App) : App :=
  {| seed_buf := s; peers_buf := peers_buf a; database_buf := database_buf a; command_buf := command_buf a;
     known_databases := known_databases a; history := history a; scroll_to_bottom := scroll_to_bottom a; peers := peers a; screen := screen a; network := network a |}.
Definition with_peers_buf (s : bytes) (a : App) : App :=
  {| seed_buf := seed_buf a; peers_buf := s; database_buf := database_buf a; command_buf := command_buf a;
     known_databases := known_databases a; history := history a; scroll_to_bottom := scroll_to_bottom a; peers := peers a; screen := screen a; network := network a |}.
Definition with_database (s : bytes) (a : App) : App :=
  {| seed_buf := seed_buf a; peers_buf := peers_buf a; database_buf := s; command_buf := command_buf a;
     known_databases := known_databases a; history := history a; scroll_to_bottom := scroll_to_bottom a; peers := peers a; screen := screen a; network := network a |}.
Definition with_command (s : bytes) (a : App) : App :=
  {| seed_buf := seed_buf a; peers_buf := peers_buf a; database_buf := database_buf a; command_buf := s;
     known_databases := known_databases a; history := history a; scroll_to_bottom := scroll_to_bottom a; peers := peers a; screen := screen a; network := network a |}.
Definition with_databases (l : list bytes) (a : App) : App :=
  {| seed_buf := seed_buf a; peers_buf := peers_buf a; database_buf := database_buf a; command_buf := command_buf a;
     known_databases := l; history := history a; scroll_to_bottom := scroll_to_bottom a; peers := peers a; screen := screen a; network := network a |}.
Definition push_history (e : HistoryEntry) (a : App) : App :=
  {| seed_buf := seed_buf a; peers_buf := peers_buf a; database_buf := database_buf a; command_buf := command_buf a;
     known_databases := known_databases a; history := history a ++ [e]; scroll_to_bottom := scroll_to_bottom a; peers := peers a; screen := screen a; network := network a |}.
Definition with_scroll (b : bool) (a : App) : App :=
  {| seed_buf := seed_buf a; peers_buf := peers_buf a; database_buf := database_buf a; command_buf := command_buf a;
     known_databases := known_databases a; history := history a; scroll_to_bottom := b; peers := peers a; screen := screen a; network := network a |}.
Definition with_peers (p : peer_map) (a : App) : App :=
  {| seed_buf := seed_buf a; peers_buf := peers_buf a; database_buf := database_buf a; command_buf := command_buf a;
     known_databases := known_databases a; history := history a; scroll_to_bottom := scroll_to_bottom a; peers := p; screen := screen a; network := network a |}.
Definition with_network (c : client W) (a : App) : App :=
  {| seed_buf := seed_buf a; peers_buf := peers_buf a; database_buf := database_buf a; command_buf := command_buf a;
     known_databases := known_databases a; history := history a; scroll_to_bottom := scroll_to_bottom a; peers := peers a; screen := screen a; network := c |}.

Definition with_screen (l : list Widget) (a : App) : App :=
  {| seed_buf := seed_buf a; peers_buf := peers_buf a; database_buf := database_buf a; command_buf := command_buf a;
     known_databases := known_databases a; history := history a; scroll_to_bottom := scroll_to_bottom a; peers := peers a; screen := l; network := network a |}.

(** A call of the client library. *)
Definition on_client {A} (m : ST (client W) A) : ST App A := fun a =>
  let '(r, c) := m (network a) in (r, with_network c a).

(** The fields as they are when the window opens. *)
Definition new_app (c : client W) : App := {|
  seed_buf := str "127.0.0.1:9001"; peers_buf := str "1=127.0.0.1:9001,2=127.0.0.1:9002"; database_buf := []; command_buf := [];
  known_databases := []; history := []; scroll_to_bottom := false; peers := ∅; screen := []; network := c |}.

Definition push_text (text : bytes) : App -> App := push_history (MakeHistoryEntry kTextResult text).
Definition push_error (text : bytes) : App -> App := push_history (MakeHistoryEntry kError text).

(** ** The handlers of the buttons *)

(** The first cell of every row that has one. *)
Definition refresh_known_databases (result : StatementResult) (a : App) : App :=
  match sr_kind result, TryParseSelectTable (sr_text result) with
  | kTable, Some (_, rows) => with_databases (omap head rows) a
  | _, _ => a
  end.

Definition show_databases_text : bytes := str "SHOW DATABASES".

Definition discover : ST App unit :=
  a ← st_get;
  match ParseHostPort (seed_buf a) with
  | None => st_modify (push_error (str "ERROR: seed must be host:port"))
  | Some (host, port) =>
    _ ← st_catch
      (discovered ← on_client (DiscoverCluster host port kUiTimeoutMs);
       let formatted := FormatUiPeerSpec discovered in
       _ ← st_modify (with_peers_buf (copy_to kPeersSize formatted));
       _ ← st_modify (push_text (str "Discovered " ++ to_string (N.of_nat (size discovered)) ++ str " peer(s) from " ++
                        seed_buf a ++ str ": " ++ formatted));
       result ← on_client (SendStatement discovered show_databases_text);
       st_modify (refresh_known_databases result))
      (fun e => st_modify (push_error (str "ERROR: " ++ what e)));
    st_modify (with_scroll true)
  end.

(** The entry with the time the statement took, which is left out. *)
Definition timed (e : HistoryEntry) : HistoryEntry :=
  {| he_kind := he_kind e; he_text := he_text e; he_headers := he_headers e; he_rows := he_rows e; has_timing := true |}.

Definition run_statement (line : bytes) : ST App StatementResult :=
  _ ← st_modify (push_text (str "> " ++ line));
  a ← st_get;
  result ← on_client (SendStatement (peers a) line);
  _ ← st_modify (push_history (timed (MakeHistoryEntry (sr_kind result) (sr_text result))));
  _ ← st_modify (with_scroll true);
  mret result.

(** A click on the [i]-th database of the list. *)
Definition select_database (i : nat) (a : App) : App :=
  match known_databases a !! i with
  | Some db => with_database (copy_to kDatabaseSize db) a
  | None => a
  end.

Definition databases_button : ST App unit :=
  result ← run_statement show_databases_text; st_modify (refresh_known_databases result).

Definition tables_button : ST App unit :=
  a ← st_get;
  if decide (database_buf a = []) then
    _ ← st_modify (push_error (str "ERROR: enter a database name above first")); st_modify (with_scroll true)
  else _ ← run_statement (str "SHOW TABLES FROM " ++ database_buf a); mret tt.

(** Whether the line is a CREATE DATABASE statement; a line that does not parse is not. *)
Definition is_create_database (line : bytes) : outcome bool :=
  match Parse line with
  | Ret (CreateDatabase _) => Ret true
  | Undef => Undef
  | _ => Ret false
  end.

Definition send_command : ST App unit :=
  a ← st_get;
  if decide (command_buf a = []) then mret tt
  else
    let line := QualifyIfBare (command_buf a) (database_buf a) in
    was_create_database ← st_lift (is_create_database line);
    result ← run_statement line;
    _ ← (if was_create_database && negb (bool_decide (sr_kind result = kError)) then
           a ← st_get;
           shown ← on_client (SendStatement (peers a) show_databases_text);
           st_modify (refresh_known_databases shown)
         else mret tt);
    st_modify (with_command []).

(** ** One turn of the loop *)

(** What the widgets report: the new text of a field that was edited, the buttons that were
    clicked, the database that was picked, and Enter in the command field. *)
Record Input := {
  in_seed : option bytes;
  in_discover : bool;
  in_peers : option bytes;
  in_pick : option nat;
  in_databases : bool;
  in_tables : bool;
  in_command : option bytes;
  in_enter : bool;
  in_send : bool;
}.

Definition edit {A} (f : bytes -> A -> A) (typed : option bytes) (a : A) : A :=
  match typed with Some s => f s a | None => a end.

Definition when (b : bool) (m : ST App unit) : ST App unit := if b then m else mret tt.

Definition frame (i : Input) : ST App unit :=
  _ ← st_modify (edit with_seed (in_seed i));
  _ ← when (in_discover i) discover;
  _ ← st_modify (edit with_peers_buf (in_peers i));
  _ ← st_modify (fun a => with_peers (ParseUiPeerSpec (peers_buf a)) a);
  _ ← st_modify (fun a => with_screen (draw_output (history a)) a);
  _ ← st_modify (with_scroll false);
  _ ← st_modify (fun a => match in_pick i with Some k => select_database k a | None => a end);
  _ ← when (in_databases i) databases_button;
  _ ← when (in_tables i) tables_button;
  _ ← st_modify (edit with_command (in_command i));
  when (in_enter i || in_send i) send_command.

Definition frames (l : list Input) : ST App unit := st_for l frame.
End app.

Arguments App : clear implicits.
