(* ===== verification/UiSpec.v ===== *)
(** * What the desktop client adds to a statement, and what it makes of an answer *)

From Stdlib Require Import NArith Lia.
From S2P Require Export Ui Scatter.

(** ** Lexing a prefix *)

Lemma bind_ret_ret {A B C} (m : outcome A) (f : A -> B) (g : B -> C) :
  ((m ≫= fun a => Ret (f a)) ≫= fun b => Ret (g b)) = m ≫= fun a => Ret (g (f a)).
Proof. by destruct m. Qed.

(** The tokens of a printed prefix, and then those of the rest. *)
Lemma lex_prefix ts rest fuel i :
  forallb token_ok ts = true -> (length (show_tokens ts ++ rest) < fuel)%nat ->
  exists toks fuel', map view toks = ts /\ (length rest < fuel')%nat /\
    lex fuel i (show_tokens ts ++ rest) =
      (r ← lex fuel' (i + length (show_tokens ts)) rest; Ret (toks ++ r)).
Proof.
  revert fuel i. induction ts as [|t ts IH]; intros fuel i Hok Hf.
  - exists [], fuel. rewrite Nat.add_0_r. split_and!; [done|done|]. change (show_tokens [] ++ rest) with rest. by destruct (lex fuel i rest).
  - cbn [forallb] in Hok. apply andb_true_iff in Hok as [Ht Hok].
    change (show_tokens (t :: ts)) with ((show_token t ++ [space]) ++ show_tokens ts) in *.
    rewrite <- !app_assoc in *. cbn [app] in *.
    destruct (show_token_nonempty t Ht) as (c & s & Es & Hsp). rewrite !length_app in Hf. cbn [length] in Hf.
    destruct fuel as [|[|fuel]]; [lia..|]. pose proof (lex_token_show t (show_tokens ts ++ rest) Ht) as E.
    rewrite Es in E, Hf |- *. cbn [app] in E |- *. cbn [length] in Hf.
    destruct (IH fuel (i + length (c :: s ++ [space]))%nat) as (toks & fuel' & Hv & Hf' & E2); [done|lia|].
    exists ({| type := t.1; text := t.2; offset := i |} :: toks), fuel'. split_and!; [|done|].
    + cbn [map]. rewrite Hv. unfold view. cbn [type text]. by rewrite <- surjective_pairing.
    + cbn [lex]. rewrite Hsp, E. cbn [mbind outcome_bind]. change (isspace space) with true. cbv iota.
      replace (S (i + (length (c :: s ++ space :: show_tokens ts ++ rest) - length (space :: show_tokens ts ++ rest))))%nat
        with (i + length (c :: s ++ [space]))%nat by (cbn [length]; rewrite !length_app; cbn [length]; rewrite ?length_app; lia).
      rewrite E2. cbn [length]. rewrite !length_app. cbn [length].
      replace (i + S (length s + 1) + length (show_tokens ts))%nat with (i + S (length s + S (length (show_tokens ts))))%nat by lia.
      etrans; [apply bind_ret_ret|reflexivity].
Qed.

(** The tokens of a printed text, with the end. *)
Lemma lex_all ts fuel i : forallb token_ok ts = true -> (length (show_tokens ts) < fuel)%nat ->
  exists toks e, lex fuel i (show_tokens ts) = Ret (toks ++ [e]) /\ map view toks = ts /\ type e = kEnd.
Proof.
  intros Hok Hf. destruct (lex_prefix ts [] fuel i Hok) as (toks & fuel' & Hv & Hf' & E); [by rewrite app_nil_r|].
  rewrite app_nil_r in E. destruct fuel' as [|fuel']; [cbn in Hf'; lia|]. cbn [lex mbind outcome_bind] in E.
  by do 2 eexists.
Qed.

(** A name followed by a dot, as the client writes them. *)
Lemma lex_qualified db rest fuel i : is_identifier db = true -> (length (db ++ str "." ++ rest) < fuel)%nat ->
  exists t1 t2 fuel' j, view t1 = kw db /\ view t2 = sym (str ".") /\ (length rest < fuel')%nat /\
    lex fuel i (db ++ str "." ++ rest) = (r ← lex fuel' j rest; Ret (t1 :: t2 :: r)).
Proof.
  intros Hdb Hf. destruct db as [|c db]; [done|]. pose proof Hdb as Hdb'. cbn in Hdb'.
  apply andb_true_iff in Hdb' as [Hc Hs].
  assert (Hall : forallb IsIdentChar (c :: db) = true) by (cbn; by rewrite IsIdentStart_char, Hs).
  destruct (take_while_app IsIdentChar (c :: db) "."%char rest Hall eq_refl) as [E1 E2].
  assert (Hsp : isspace c = false) by (clear - Hc; destruct c as [[] [] [] [] [] [] [] []]; by vm_compute in Hc |- *).
  rewrite !length_app in Hf. cbn [length str String.list_ascii_of_string] in Hf.
  destruct fuel as [|[|fuel]]; [lia..|]. change (str "." ++ rest) with ("."%char :: rest).
  assert (Et : lex_token (c :: db ++ "."%char :: rest) = Ret (kIdentifier, c :: db, "."%char :: rest))
    by (unfold lex_token; cbn [app] in E1, E2; by rewrite Hc, E1, E2).
  cbn [app lex]. rewrite Hsp, Et. cbn [mbind outcome_bind lex].
  change (isspace ".") with false. cbv iota.
  change (lex_token ("."%char :: rest)) with (Ret (kSymbol, str ".", rest)). cbn [mbind outcome_bind].
  exists {| type := kIdentifier; text := c :: db; offset := i |}. eexists {| type := kSymbol; text := str "."; offset := _ |}, fuel.
  eexists. split_and!; [done|done|cbn in Hf; lia|].
  etrans; [apply bind_ret_ret|reflexivity].
Qed.

(** ** Finding the table *)

Definition table_words : list bytes := [str "TABLE"; str "INTO"; str "FROM"].
Definition word_in (l : list bytes) (v : TokenType * bytes) : Prop := v.1 = kIdentifier /\ ToUpperCopy v.2 ∈ l.

Lemma is_word_view w t : is_word w t = true <-> (view t).1 = kIdentifier /\ ToUpperCopy (view t).2 = w.
Proof. unfold is_word, view. cbn [fst snd]. by rewrite andb_true_iff, !bool_decide_eq_true. Qed.

Lemma is_table_word t :
  is_word (str "TABLE") t || is_word (str "INTO") t || is_word (str "FROM") t = true <-> word_in table_words (view t).
Proof.
  rewrite !orb_true_iff, !is_word_view. unfold word_in, table_words. rewrite !elem_of_cons, elem_of_nil. tauto.
Qed.

Lemma after_keyword_run i toks tk name rest :
  Forall (fun t => ~ word_in table_words (view t)) toks -> word_in table_words (view tk) ->
  after_keyword i (toks ++ tk :: name :: rest) = Some (i + S (length toks))%nat.
Proof.
  intros Hn Hw. revert i. induction Hn as [|t toks Ht Hn IH]; intros i; cbn [app after_keyword].
  - rewrite (proj2 (is_table_word tk) Hw). cbn. f_equal. lia.
  - destruct (toks ++ tk :: name :: rest) as [|x l] eqn:E; [by destruct toks|].
    rewrite <- is_table_word in Ht. apply not_true_is_false in Ht. rewrite Ht, IH. cbn. f_equal. lia.
Qed.

(** The tokens before a table reference, as the client recognizes them. *)
Definition leads_to_table (pre : list (TokenType * bytes)) : Prop :=
  pre = [kw (str "UPDATE")] \/
  exists first pre0 word, pre = first :: pre0 ++ [kw word] /\ ~ word_in [str "UPDATE"; str "SHOW"] first /\
    Forall (fun v => ~ word_in table_words v) (first :: pre0) /\ word_in table_words (kw word).

Lemma table_token_run toks name rest : leads_to_table (map view toks) ->
  match toks with t :: _ => is_word (str "SHOW") t | [] => false end = false /\
  table_token (toks ++ name :: rest) = Some (length toks).
Proof.
  intros [E|(first & pre0 & word & E & Hf & Hn & Hw)].
  - destruct toks as [|t [|]]; [done| |done]. injection E as E1 E2. unfold table_token, is_word. cbn [app]. by rewrite E1, E2.
  - destruct toks as [|t toks]; [done|]. injection E as Et E. apply map_eq_app in E as (toks0 & l & -> & E0 & El).
    destruct l as [|tk [|]]; [done| |done]. injection El as Ek1 Ek2. subst pre0.
    assert (Hno : is_word (str "UPDATE") t = false /\ is_word (str "SHOW") t = false).
    { rewrite <- !not_true_iff_false, !is_word_view. unfold view. cbn [fst snd]. subst first.
      unfold word_in in Hf. cbn [fst snd] in Hf. rewrite !elem_of_cons, elem_of_nil in Hf. unfold view in Hf. cbn [fst snd] in Hf. tauto. }
    destruct Hno as [Hu Hs]. split; [done|]. unfold table_token. cbn [app]. rewrite Hu.
    change (t :: (toks0 ++ [tk]) ++ name :: rest) with ((t :: toks0 ++ [tk]) ++ name :: rest).
    replace ((t :: toks0 ++ [tk]) ++ name :: rest) with ((t :: toks0) ++ tk :: name :: rest) by (cbn; by rewrite <- app_assoc).
    rewrite after_keyword_run.
    + f_equal. cbn [length]. rewrite length_app. cbn. lia.
    + subst first. exact (proj1 (List.Forall_map view _ (t :: toks0)) Hn).
    + unfold view. by rewrite Ek1, Ek2.
Qed.

Definition starts_with_dot (post : list (TokenType * bytes)) : bool :=
  match post with v :: _ => bool_decide (v = sym (str ".")) | [] => false end.

(** The client adds the database in front of the bare name. *)
Lemma qualify_run pre t post db :
  tokens_ok (pre ++ kw t :: post) -> db <> [] -> leads_to_table pre -> starts_with_dot post = false ->
  QualifyIfBare (show_tokens (pre ++ kw t :: post)) db =
    show_tokens pre ++ db ++ str "." ++ show_tokens (kw t :: post).
Proof.
  intros Hok Hdb Hpre Hdot. unfold QualifyIfBare. rewrite decide_False by done.
  apply tokens_ok_forallb in Hok. rewrite forallb_app in Hok. apply andb_true_iff in Hok as [Hp Hn].
  assert (Es : show_tokens (pre ++ kw t :: post) = show_tokens pre ++ show_tokens (kw t :: post))
    by (unfold show_tokens; by rewrite map_app, concat_app).
  rewrite Es. unfold Tokenize.
  destruct (lex_prefix pre (show_tokens (kw t :: post)) (S (length (show_tokens pre ++ show_tokens (kw t :: post)))) 0 Hp ltac:(lia))
    as (toks & fuel & Hv & Hf & ->).
  destruct (lex_all (kw t :: post) fuel (0 + length (show_tokens pre)) Hn Hf) as (toks' & e & E' & Hv' & He).
  rewrite E'. cbn [mbind outcome_bind]. destruct toks' as [|name toks']; [done|].
  assert (Ho : offset name = length (show_tokens pre)).
  { cbn [forallb] in Hn. apply andb_true_iff in Hn as [Hn _]. destruct (show_token_nonempty (kw t) Hn) as (c & s & Ec & Hsp).
    destruct fuel as [|fuel]; [lia|]. revert E'. change (show_tokens (kw t :: post)) with ((show_token (kw t) ++ [space]) ++ show_tokens post).
    rewrite <- app_assoc. cbn [app]. pose proof (lex_token_show (kw t) (show_tokens post) Hn) as Et. rewrite Ec in *. cbn [app] in *.
    cbn [lex]. rewrite Hsp, Et. cbn [mbind outcome_bind]. destruct (lex fuel _ _); [|done..]. cbn. by intros [= <- _]. }
  injection Hv' as Hty Htx Hv'. rewrite <- Hv in Hpre. destruct (table_token_run toks name (toks' ++ [e]) Hpre) as [Hs Ht].
  assert (Hsh : match toks ++ (name :: toks') ++ [e] with t :: _ => is_word (str "SHOW") t | [] => false end = false).
  { destruct toks as [|x toks]; [|exact Hs]. destruct Hpre as [?|(? & ? & ? & ? & _)]; done. }
  rewrite Hsh. cbn [app]. rewrite Ht. rewrite list_lookup_middle by done. cbn [negb].
  rewrite bool_decide_true by done. cbn [negb].
  replace ((toks ++ name :: toks' ++ [e]) !! S (length toks)) with ((toks' ++ [e]) !! 0%nat)
    by (rewrite (lookup_app_r toks (name :: toks' ++ [e])) by lia; by replace (S (length toks) - length toks)%nat with 1%nat by lia).
  assert (Hd : match (toks' ++ [e]) !! 0%nat with Some x => is_dot x | None => false end = false).
  { destruct toks' as [|x toks']; cbn [app lookup list_lookup].
    - unfold is_dot. by rewrite He.
    - subst post. cbn in Hdot. apply bool_decide_eq_false in Hdot. apply not_true_is_false. unfold is_dot.
      rewrite andb_true_iff, !bool_decide_eq_true. intros [H1 H2]. apply Hdot. unfold view, sym. by rewrite H1, H2. }
  rewrite Hd, Ho, take_app_length, drop_app_length. done.
Qed.

(** The tokens of the completed text. *)
Lemma qualified_tokens pre t post db :
  tokens_ok (pre ++ table_tokens db t ++ post) ->
  exists toks e, Tokenize (show_tokens pre ++ db ++ str "." ++ show_tokens (kw t :: post)) = Ret (toks ++ [e]) /\
    map view toks = pre ++ table_tokens db t ++ post /\ type e = kEnd.
Proof.
  intros Hok. apply tokens_ok_forallb in Hok. unfold table_tokens in Hok. rewrite forallb_app in Hok.
  apply andb_true_iff in Hok as [Hp Hok]. cbn [app forallb] in Hok. apply andb_true_iff in Hok as [Hdb Hn].
  unfold Tokenize. set (fuel := S (length _)).
  destruct (lex_prefix pre (db ++ str "." ++ show_tokens (kw t :: post)) fuel 0 Hp) as (toks & f1 & Hv & Hf1 & ->); [unfold fuel; lia|].
  destruct (lex_qualified db (show_tokens (kw t :: post)) f1 (0 + length (show_tokens pre)) Hdb Hf1) as (t1 & t2 & f2 & j & H1 & H2 & Hf2 & ->).
  destruct (lex_all (kw t :: post) f2 j Hn Hf2) as (toks' & e & -> & Hv' & He). cbn [mbind outcome_bind].
  exists (toks ++ t1 :: t2 :: toks'), e. split_and!; [by rewrite <- app_assoc| |done].
  rewrite map_app, Hv. cbn [map]. by rewrite H1, H2, Hv'.
Qed.

(** ** Statements with a bare table *)

(** The tokens before the table, its database and name, and the tokens after it. *)
Definition split_table (s : Statement) : option (list (TokenType * bytes) * bytes * bytes * list (TokenType * bytes)) :=
  match s with
  | CreateTable s =>
    Some ([kw (str "CREATE"); kw (str "TABLE")], ct_db_name s, ct_table_name s,
      [sym (str "(")] ++ comma_tokens column_tokens (ct_columns s) ++ [sym (str ")")])
  | AlterTableAddColumn s =>
    Some ([kw (str "ALTER"); kw (str "TABLE")], at_db_name s, at_table_name s,
      [kw (str "ADD"); kw (str "COLUMN"); kw (col_name (at_column s)); kw (type_word (col_type (at_column s)));
       kw (str "DEFAULT"); lit (default [] (default_value (at_column s)))])
  | InsertInto s =>
    Some ([kw (str "INSERT"); kw (str "INTO")], in_db_name s, in_table_name s,
      [sym (str "(")] ++ comma_tokens (fun c => [kw c]) (in_columns s) ++ [sym (str ")"); kw (str "VALUES"); sym (str "(")] ++
      comma_tokens (fun v => [lit v]) (in_values s) ++ [sym (str ")")])
  | Select s =>
    Some ([kw (str "SELECT")] ++ select_tokens (se_columns s) ++ [kw (str "FROM")], se_db_name s, se_table_name s,
      where_tokens (se_where s))
  | Update s =>
    Some ([kw (str "UPDATE")], up_db_name s, up_table_name s,
      [kw (str "SET")] ++ comma_tokens assignment_tokens (up_assignments s) ++ where_tokens (up_where s))
  | DeleteFrom s => Some ([kw (str "DELETE"); kw (str "FROM")], de_db_name s, de_table_name s, where_tokens (de_where s))
  | CreateDatabase _ | ShowTables _ | ShowDatabases => None
  end.

(** The statement as it is typed without its database. *)
Definition show_bare (s : Statement) : bytes :=
  match split_table s with
  | Some (pre, _, t, post) => show_tokens (pre ++ kw t :: post)
  | None => show_statement s
  end.

(** No selected column is called TABLE, INTO or FROM. *)
Definition plain_columns (s : Statement) : Prop :=
  match s with Select s => Forall (fun c => ToUpperCopy c ∉ table_words) (se_columns s) | _ => True end.

Lemma split_tokens s pre db t post : split_table s = Some (pre, db, t, post) ->
  stmt_tokens s = pre ++ table_tokens db t ++ post /\ starts_with_dot post = false.
Proof.
  destruct s as [s|s|s|s|s|s| | |]; intros [= <- <- <- <-]; (split; [|try done]).
  all: try reflexivity.
  - cbn [stmt_tokens app]. by rewrite <- app_assoc.
  - by destruct (se_where s).
  - by destruct (de_where s).
Qed.

Lemma select_tokens_plain l : Forall (fun c => ToUpperCopy c ∉ table_words) l ->
  Forall (fun v => ~ word_in table_words v) (select_tokens l).
Proof.
  intros H. destruct l as [|c l]; [repeat constructor; by intros [? _]|]. unfold select_tokens, comma_tokens.
  induction H as [|c' l' Hc Hl IH]; [constructor|]. cbn [sep_by app]. constructor; [by intros [_ ?]|].
  destruct l'; [constructor|]. constructor; [by intros [? _]|exact IH].
Qed.

Lemma split_leads s pre db t post : split_table s = Some (pre, db, t, post) -> plain_columns s -> leads_to_table pre.
Proof.
  assert (Hpair : forall first word : bytes, ToUpperCopy word ∈ table_words ->
      ToUpperCopy first ∉ table_words -> ToUpperCopy first ∉ [str "UPDATE"; str "SHOW"] ->
      leads_to_table [kw first; kw word]).
  { intros first word Hw Hf Hu. right. exists (kw first), [], word. split_and!; [done|by intros [_ ?]| |done].
    constructor; [by intros [_ ?]|constructor]. }
  destruct s as [s|s|s|s|s|s| | |]; intros [= <- <- <- <-] Hplain.
  1, 2, 5, 6: apply Hpair; apply (bool_decide_unpack _); vm_compute; exact I.
  - right. exists (kw (str "SELECT")), (select_tokens (se_columns s)), (str "FROM"). split_and!; [done| | |].
    + intros [_ H]. revert H. apply (bool_decide_unpack _). vm_compute. exact I.
    + constructor; [|by apply select_tokens_plain]. intros [_ H]. revert H. apply (bool_decide_unpack _). vm_compute. exact I.
    + split; [done|]. apply (bool_decide_unpack _). vm_compute. exact I.
  - by left.
Qed.

(** The client completes a statement that names its table without a database: what it sends is
    parsed as the statement with the database of the field, whatever bytes the literals hold. *)
Theorem QualifyIfBare_completes (s : Statement) (pre post : list (TokenType * bytes)) (db t : bytes) :
  stmt_ok s -> names_ok s -> split_table s = Some (pre, db, t, post) -> plain_columns s ->
  Parse (QualifyIfBare (show_bare s) db) = Ret s.
Proof.
  intros Hok Hn Hs Hplain. destruct (split_tokens _ _ _ _ _ Hs) as [Et Hdot].
  pose proof (names_tokens_ok s Hn) as Ht. rewrite Et in Ht. unfold show_bare. rewrite Hs.
  assert (Hbare : tokens_ok (pre ++ kw t :: post)).
  { unfold tokens_ok, table_tokens in *. rewrite !Forall_app, ?Forall_cons in *. tauto. }
  assert (Hdb : db <> []).
  { unfold tokens_ok, table_tokens in Ht. rewrite !Forall_app, ?Forall_cons in Ht. destruct Ht as (_ & (Hd & _) & _). by intros ->. }
  rewrite qualify_run by (done || by eapply split_leads).
  destruct (qualified_tokens pre t post db Ht) as (toks & e & E & Hv & He).
  unfold Parse. rewrite E. cbn [mbind outcome_bind]. rewrite <- Et in Hv.
  rewrite (eats_statement s Hok toks e [] Hv); [done|]. unfold the_end, view. cbn. by rewrite He.
Qed.

(** A column called [table] is taken for the keyword: the database lands in front of FROM, and a
    statement that the server would accept with its table qualified is refused. *)
Theorem column_named_table :
  QualifyIfBare (str "SELECT table FROM items") (str "shop") = str "SELECT table shop.FROM items" /\
  (exists s, Parse (str "SELECT table FROM shop.items") = Ret s) /\
  (exists e, Parse (str "SELECT table shop.FROM items") = Throw e).
Proof. split_and!; [vm_compute; reflexivity|eexists; vm_compute; reflexivity..]. Qed.

Lemma QualifyIfBare_completes_witness :
  let s := Update {| up_db_name := str "shop"; up_table_name := str "users";
                     up_assignments := [(str "name", str "it's FROM here")];
                     up_where := [{| cond_column := str "id"; cond_op := kEq; cond_literal := str "3" |}] |} in
  show_bare s = str "UPDATE users SET name = 'it''s FROM here' WHERE id = '3' " /\
  Parse (QualifyIfBare (show_bare s) (str "shop")) = Ret s.
Proof.
  split; [by vm_compute|]. eapply QualifyIfBare_completes; [done|by repeat constructor|reflexivity|done].
Defined.

(** ** Grids *)

(** Fields that do not break the text format of a result. *)
Definition plain_field (f : bytes) : Prop := (tab ∉ f) /\ (newline ∉ f).
Definition plain_line (l : list bytes) : Prop := l <> [] /\ Forall plain_field l /\ last l <> Some [].

#[export] Instance plain_line_dec l : Decision (plain_line l).
Proof. unfold plain_line, plain_field. apply _. Defined.

Lemma pieces_tabs l : plain_line l -> pieces tab (tab_separated l) = l.
Proof.
  intros (Hne & Hf & Hlast). induction Hf as [|f l [Ht _] Hf IH]; [done|].
  destruct l as [|g l]; [apply pieces_last; [done|by intros ->]|].
  cbn [tab_separated]. cbn [app]. rewrite pieces_step by done. f_equal. by apply IH.
Qed.

Lemma tab_separated_plain l : plain_line l -> (newline ∉ tab_separated l) /\ tab_separated l <> [].
Proof.
  intros (Hne & Hf & Hlast). induction Hf as [|f l [_ Hn] Hf IH]; [done|].
  destruct l as [|g l]; [split; [done|]; cbn; by intros ->|]. destruct IH as [H1 H2]; [done|done|].
  change (tab_separated (f :: g :: l)) with (f ++ [tab] ++ tab_separated (g :: l)). split; [|by destruct f].
  rewrite !not_elem_of_app. split_and!; [done|by apply (bool_decide_unpack _)|done].
Qed.

(** The rows that a SELECT shows. *)
Fixpoint shown_rows (cols : TableSchema) (proj : list nat) (conditions : list Condition)
    (l : list (bytes * list bytes)) : outcome (list (list bytes)) :=
  match l with
  | [] => Ret []
  | (_, row) :: l =>
    b ← MatchesWhere cols row conditions;
    if b : bool then fields ← pick row proj; rest ← shown_rows cols proj conditions l; Ret (fields :: rest)
    else shown_rows cols proj conditions l
  end.

Lemma row_lines_shown cols proj conds l :
  row_lines cols proj conds l = (rs ← shown_rows cols proj conds l; Ret (map tab_separated rs)).
Proof.
  induction l as [|[pk row] l IH]; [done|]. cbn [row_lines shown_rows].
  destruct (MatchesWhere cols row conds) as [[]|e|]; cbn [mbind outcome_bind]; [|exact IH|done..].
  destruct (pick row proj) as [fields|e|]; cbn [mbind outcome_bind]; [|done..].
  rewrite IH. by destruct (shown_rows cols proj conds l).
Qed.

Lemma grid_of_text hs rs : plain_line hs -> Forall plain_line rs -> [no_rows] ∉ rs ->
  TryParseSelectTable (result_text (tab_separated hs) (map tab_separated rs)) = Some (hs, rs).
Proof.
  intros Hh Hr Hno. destruct (tab_separated_plain hs Hh) as [Hn Hne]. unfold TryParseSelectTable.
  assert (Hclean : Forall clean (map tab_separated rs)).
  { rewrite List.Forall_map. rewrite Forall_forall in *. intros r Hin. specialize (Hr r Hin).
    destruct (tab_separated_plain r Hr). split_and!; [done|done|]. intros E.
    assert (Er : r = [no_rows]); [|by subst r]. rewrite <- (pieces_tabs r Hr), E. reflexivity. }
  assert (E : filter (fun line => line <> no_rows) (drop 1 (pieces newline (result_text (tab_separated hs) (map tab_separated rs)))) =
      map tab_separated rs /\ head (pieces newline (result_text (tab_separated hs) (map tab_separated rs))) = Some (tab_separated hs)).
  { unfold result_text. destruct rs as [|r rs].
    - cbn [map concat app]. unfold zero_rows. change lf with newline. cbn [app]. rewrite pieces_step by done.
      rewrite pieces_last; [|by apply (bool_decide_unpack _)|done]. by split.
    - rewrite app_nil_r, pieces_lines by (done || by right). cbn [drop head]. split; [|done].
      apply filter_keep_all. eapply Forall_impl; [exact Hclean|]. by intros x (_ & _ & ?). }
  destruct E as [E1 E2]. destruct (pieces newline _) as [|h lines]; [done|]. injection E2 as ->. cbn [drop] in E1.
  rewrite decide_False, pieces_tabs by done. rewrite drop_0 in E1. destruct hs as [|c hs]; [by destruct Hh|].
  rewrite E1, map_map. do 2 f_equal. rewrite <- (map_id rs) at 2. apply map_ext_in. intros r Hin.
  apply pieces_tabs. rewrite Forall_forall in Hr. apply Hr. by apply list_elem_of_In.
Qed.

(** The grid of the desktop client shows the answer of the executor cell by cell: when a SELECT
    on a table answers and no shown field holds a tab or a newline, no shown line ends in an
    empty field, and no row is the single field "(0 rows)", the entry is a table with exactly the
    selected columns and the selected fields of the rows that match. *)
Theorem grid_shows_select (s : SelectStatement) (tab : table) (result : bytes) (ph : list nat * list bytes) (rs : list (list bytes)) :
  select_on s tab = Ret result -> projection (columns tab) (se_columns s) = Ret ph ->
  shown_rows (columns tab) ph.1 (se_where s) (map_entries (rows tab)) = Ret rs ->
  plain_line ph.2 -> Forall plain_line rs -> [no_rows] ∉ rs ->
  MakeHistoryEntry kTable result =
    {| he_kind := kTable; he_text := result; he_headers := ph.2; he_rows := rs; has_timing := false |}.
Proof.
  intros E Ep Es Hh Hr Hno. rewrite select_on_text, Ep in E. cbn [mbind outcome_bind] in E.
  rewrite row_lines_shown, Es in E. cbn [mbind outcome_bind] in E. injection E as <-.
  unfold MakeHistoryEntry. rewrite decide_True by done. by rewrite grid_of_text.
Qed.

Definition demo_users : table :=
  Table [{| col_name := str "id"; col_type := kText; primary_key := true; default_value := None |};
         {| col_name := str "age"; col_type := kInt; primary_key := false; default_value := None |}]
    {[ str "u1" := [str "u1"; str "30"]; str "u2" := [str "u2"; str "-4"] ]}.

Lemma grid_shows_select_witness :
  exists result, select_on {| se_db_name := str "d"; se_table_name := str "t"; se_columns := [str "age"]; se_where := [] |} demo_users = Ret result /\
  MakeHistoryEntry kTable result =
    {| he_kind := kTable; he_text := result; he_headers := [str "age"]; he_rows := [[str "30"]; [str "-4"]]; has_timing := false |}.
Proof.
  eexists. split; [vm_compute; reflexivity|].
  eapply (grid_shows_select {| se_db_name := str "d"; se_table_name := str "t"; se_columns := [str "age"]; se_where := [] |} demo_users
    _ ([1%nat], [str "age"]) [[str "30"]; [str "-4"]]).
  1-3: vm_compute; reflexivity.
  - apply (bool_decide_unpack _). vm_compute. exact I.
  - repeat constructor; apply (bool_decide_unpack _); vm_compute; exact I.
  - apply (bool_decide_unpack _). vm_compute. exact I.
Defined.
