(* ===== verification/UiAppSpec.v ===== *)
(** * The window of the desktop client keeps its promises

    Whatever the user does and the network answers, no exception leaves the window loop, and what
    is on the screen stays there; Discover fills in the peers and the databases of the cluster. *)

From Stdlib Require Import NArith Lia.
From S2P Require Export UiApp UiSpec ClientSpec.

(** ** Text fields *)

(** A text that a field of the given size holds. *)
Definition fits_field (size : nat) (s : bytes) : Prop := (length s < size)%nat /\ nul ∉ s.

Lemma c_str_plain s : nul ∉ s -> c_str s = s.
Proof. intros H. unfold c_str. by rewrite break_at_None. Qed.

Lemma c_str_clean s : (nul ∉ c_str s) /\ (length (c_str s) <= length s)%nat.
Proof.
  unfold c_str. destruct (break_at nul s) as [[l r]|] eqn:E.
  - revert l r E. induction s as [|a s IH]; intros l r E; [done|]. cbn in E. destruct (Ascii.eqb_spec a nul) as [->|Hne].
    + injection E as <- _. split; [by intros ?%not_elem_of_nil|cbn; lia].
    + destruct (break_at nul s) as [[l' r']|]; [|done]. injection E as <- <-. destruct (IH l' r' eq_refl) as [H1 H2].
      split; [|cbn; lia]. rewrite not_elem_of_cons. by split.
  - split; [|done]. induction s as [|a s IH]; [by intros ?%not_elem_of_nil|]. cbn in E. destruct (Ascii.eqb_spec a nul); [done|].
    rewrite not_elem_of_cons. split; [done|]. apply IH. by destruct (break_at nul s) as [[]|].
Qed.

Lemma copy_to_fits size s : (0 < size)%nat -> fits_field size (copy_to size s).
Proof.
  intros Hs. destruct (c_str_clean (take (size - 1) s)) as [H1 H2]. split; [|done]. rewrite length_take in H2. unfold copy_to. lia.
Qed.

Lemma copy_to_short size s : fits_field size s -> copy_to size s = s.
Proof. intros [Hl Hn]. unfold copy_to. rewrite take_ge by lia. by apply c_str_plain. Qed.

(** ** The loop *)

(** A table has columns, as ImGui asks. *)
Definition widget_ok (w : Widget) : Prop := match w with TableWidget _ n _ _ => n <> 0%nat | _ => True end.

Lemma draw_entry_ok i e : (he_kind e = kTable -> he_headers e <> []) -> Forall widget_ok (draw_entry i e).
Proof.
  intros He. unfold draw_entry. apply Forall_app. split; [|by destruct (has_timing e); repeat constructor].
  destruct (he_kind e); try by repeat constructor. constructor; [|by destruct (he_rows e); repeat constructor].
  cbn. by destruct (he_headers e); [destruct He|].
Qed.

Lemma draw_output_ok l : Forall (fun e => he_kind e = kTable -> he_headers e <> []) l -> Forall widget_ok (draw_output l).
Proof.
  intros Hl. unfold draw_output. apply Forall_concat, Forall_lookup. intros i ws. rewrite list_lookup_imap, fmap_Some.
  intros (e & He & ->). rewrite Forall_lookup in Hl. by apply draw_entry_ok, (Hl i).
Qed.

Section loop.
Context {W : Type} `{!Network W}.
Implicit Types (a : App W).

(** The fields hold texts, and a table that is drawn has a column. *)
Record app_ok a : Prop := {
  ok_seed : fits_field kSeedSize (seed_buf a);
  ok_peers : fits_field kPeersSize (peers_buf a);
  ok_database : fits_field kDatabaseSize (database_buf a);
  ok_command : fits_field kCommandSize (command_buf a);
  ok_history : Forall (fun e => he_kind e = kTable -> he_headers e <> []) (history a);
  ok_screen : Forall widget_ok (screen a);
}.

Definition input_ok (i : Input) : Prop :=
  (forall s, in_seed i = Some s -> fits_field kSeedSize s) /\
  (forall s, in_peers i = Some s -> fits_field kPeersSize s) /\
  (forall s, in_command i = Some s -> fits_field kCommandSize s).

(** The window stays in order, nothing is taken from the history, and there is an exception only
    where one may be. *)
Definition turns (may_throw : bool) {A} (m : ST (App W) A) : Prop := forall a, app_ok a ->
  match (m a).1 with Ret _ => True | Throw _ => may_throw = true | Undef => False end /\
  app_ok (m a).2 /\ history a `prefix_of` history (m a).2.

Lemma turns_bind b {A B} (m : ST (App W) A) (f : A -> ST (App W) B) : turns b m -> (forall x, turns b (f x)) -> turns b (m ≫= f).
Proof.
  intros Hm Hf a Ha. specialize (Hm a Ha). unfold mbind, ST_bind. destruct (m a) as [[x|e|] a1]; cbn in *; [|done..].
  destruct Hm as (_ & Ha1 & Hp). destruct (Hf x a1 Ha1) as (H1 & H2 & H3). split_and!; [done|done|by etrans].
Qed.

Lemma turns_ret b {A} (x : A) : turns b (mret x).
Proof. by intros a Ha. Qed.
Lemma turns_get b : turns b st_get.
Proof. by intros a Ha. Qed.
Lemma turns_modify b f : (forall a, app_ok a -> app_ok (f a) /\ history a `prefix_of` history (f a)) -> turns b (st_modify f).
Proof. intros Hf a Ha. by destruct (Hf a Ha). Qed.
Lemma turns_when b c m : turns b m -> turns b (when c m).
Proof. intros Hm. destruct c; [done|apply turns_ret]. Qed.
Lemma turns_lift {A} (o : outcome A) : (exists x, o = Ret x) -> turns false (st_lift o).
Proof. by intros [x ->] a Ha. Qed.

Lemma turns_catch {A} (m : ST (App W) A) h : turns true m -> (forall e, turns false (h e)) -> turns false (st_catch m h).
Proof.
  intros Hm Hh a Ha. specialize (Hm a Ha). unfold st_catch. destruct (m a) as [[x|e|] a1]; cbn in *; [done| |by destruct Hm].
  destruct Hm as (_ & Ha1 & Hp). destruct (Hh e a1 Ha1) as (H1 & H2 & H3). split_and!; [done|done|by etrans].
Qed.

Lemma turns_throwing {A} (m : ST (App W) A) : turns false m -> turns true m.
Proof. intros Hm a Ha. destruct (Hm a Ha) as (H1 & H2 & H3). split_and!; [|done..]. by destruct (m a).1. Qed.

Lemma turns_client {A} (m : ST (client W) A) : (forall c, (m c).1 <> Undef) -> turns true (on_client m).
Proof.
  intros Hm a Ha. specialize (Hm (network a)). unfold on_client. destruct (m (network a)) as [r c]; cbn in *.
  split_and!; [by destruct r|by destruct Ha|done].
Qed.

Lemma SendStatement_returns ps line c : exists result, (SendStatement ps line c).1 = Ret result.
Proof.
  unfold SendStatement. case_decide; [by eexists|]. pose proof (Parse_good line) as Hp. destruct (Parse line) as [s|e|]; [|by eexists|done].
  assert (Hcaught : forall m : ST (client W) StatementResult, (m c).1 <> Undef ->
    exists result, (st_catch m (fun e => mret (ui_error (what e))) c).1 = Ret result).
  { intros m Hm. unfold st_catch. destruct (m c) as [[r|e|] c']; [by eexists..|done]. }
  assert (Hdef : forall A (m : ST (client W) A) f, (m c).1 <> Undef -> ((x ← m; mret (f x)) c : _ * client W).1 <> @Undef StatementResult).
  { intros A m f Hm. unfold mbind, ST_bind. by destruct (m c) as [[r|e|] c']. }
  destruct (client_defined ps line kUiTimeoutMs c) as [H1 H2]. destruct (is_read s); apply Hcaught, Hdef; done.
Qed.

Lemma turns_send ps line : turns false (on_client (SendStatement ps line)).
Proof.
  intros a Ha. destruct (SendStatement_returns ps line (network a)) as [r Hr]. unfold on_client.
  destruct (SendStatement ps line (network a)) as [o c]; cbn in *. subst o. split_and!; [done|by destruct Ha|done].
Qed.

(** *** The handlers *)

Lemma grid_has_columns text hs rs : TryParseSelectTable text = Some (hs, rs) -> hs <> [].
Proof.
  unfold TryParseSelectTable. destruct (pieces newline text) as [|h lines]; [done|]. case_decide; [done|].
  destruct (pieces tab h); [done|]. by intros [= <- _].
Qed.

Lemma entry_has_columns kind text : he_kind (MakeHistoryEntry kind text) = kTable -> he_headers (MakeHistoryEntry kind text) <> [].
Proof.
  unfold MakeHistoryEntry. cbn. destruct (decide (kind = kTable)) as [->|Hne]; [|done].
  destruct (TryParseSelectTable text) as [[hs rs]|] eqn:E; [|done]. intros _. cbn. by eapply grid_has_columns.
Qed.

Lemma push_ok e a : (he_kind e = kTable -> he_headers e <> []) -> app_ok a ->
  app_ok (push_history e a) /\ history a `prefix_of` history (push_history e a).
Proof.
  intros He [H1 H2 H3 H4 H5 H6]. split; [|by eexists]. split; try done. apply Forall_app. split; [done|by constructor].
Qed.

Lemma turns_push b kind text : turns b (st_modify (push_history (MakeHistoryEntry kind text)) : ST (App W) unit).
Proof. apply turns_modify. intros a. apply push_ok. apply entry_has_columns. Qed.

Lemma turns_scroll b v : turns b (st_modify (with_scroll v) : ST (App W) unit).
Proof. apply turns_modify. by intros a []. Qed.

Lemma turns_refresh b r : turns b (st_modify (refresh_known_databases r) : ST (App W) unit).
Proof.
  apply turns_modify. intros a Ha. unfold refresh_known_databases. destruct (sr_kind r); try done.
  destruct (TryParseSelectTable (sr_text r)) as [[hs rs]|]; [|done]. by destruct Ha.
Qed.

Lemma turns_discover : turns false (discover : ST (App W) unit).
Proof.
  apply turns_bind; [apply turns_get|]. intros a. destruct (ParseHostPort (seed_buf a)) as [[h p]|]; [|apply turns_push].
  apply turns_bind; [|intros []; apply turns_scroll]. apply turns_catch; [|intros e; apply turns_push].
  apply turns_bind; [apply turns_client, DiscoverCluster_defined|]. intros found. cbv zeta.
  apply turns_bind. { apply turns_modify. intros a' []. split; [|done]. split; try done. apply copy_to_fits; unfold kPeersSize, kDatabaseSize; lia. }
  intros []. apply turns_bind; [apply turns_push|]. intros []. apply turns_bind; [apply turns_throwing, turns_send|]. intros r. apply turns_refresh.
Qed.

Lemma turns_run line : turns false (UiApp.run_statement line : ST (App W) _).
Proof.
  apply turns_bind; [apply turns_push|]. intros []. apply turns_bind; [apply turns_get|]. intros a.
  apply turns_bind; [apply turns_send|]. intros r. apply turns_bind.
  { apply turns_modify. intros a'. apply push_ok. apply (entry_has_columns (sr_kind r) (sr_text r)). }
  intros []. apply turns_bind; [apply turns_scroll|]. intros []. apply turns_ret.
Qed.

Lemma turns_tables : turns false (tables_button : ST (App W) unit).
Proof.
  apply turns_bind; [apply turns_get|]. intros a. case_decide.
  - apply turns_bind; [apply turns_push|]. intros []. apply turns_scroll.
  - apply turns_bind; [apply turns_run|]. intros r. apply turns_ret.
Qed.

Lemma is_create_database_defined line : exists b, is_create_database line = Ret b.
Proof.
  unfold is_create_database. pose proof (Parse_good line) as Hp. destruct (Parse line) as [s|e|]; [|by eexists|done].
  destruct s; by eexists.
Qed.

Lemma turns_command : turns false (send_command : ST (App W) unit).
Proof.
  apply turns_bind; [apply turns_get|]. intros a. case_decide; [apply turns_ret|]. cbv zeta.
  apply turns_bind; [apply turns_lift, is_create_database_defined|]. intros created.
  apply turns_bind; [apply turns_run|]. intros r. apply turns_bind.
  - destruct (created && _); [|apply turns_ret]. apply turns_bind; [apply turns_get|]. intros a'.
    apply turns_bind; [apply turns_send|]. intros r'. apply turns_refresh.
  - intros []. apply turns_modify. intros a' []. split; [|done]. split; try done. split; [cbn; unfold kCommandSize; lia|by intros ?%not_elem_of_nil].
Qed.

Lemma turns_frame i : input_ok i -> turns false (frame i : ST (App W) unit).
Proof.
  intros (Hs & Hp & Hc).
  assert (Hedit : forall (set : bytes -> App W -> App W) typed,
    (forall s a, typed = Some s -> app_ok a -> app_ok (set s a) /\ history a `prefix_of` history (set s a)) ->
    turns false (st_modify (edit set typed) : ST (App W) unit)).
  { intros set [s|] H; apply turns_modify; intros a Ha; [by apply H|done]. }
  apply turns_bind. { apply Hedit. intros s a E []. split; [|done]. split; try done. by apply Hs. }
  intros []. apply turns_bind; [apply turns_when, turns_discover|].
  intros []. apply turns_bind. { apply Hedit. intros s a E []. split; [|done]. split; try done. by apply Hp. }
  intros []. apply turns_bind; [apply turns_modify; by intros a []|]. intros []. apply turns_bind.
  { apply turns_modify. intros a []. split; [|done]. split; try done. by apply draw_output_ok. }
  intros []. apply turns_bind; [apply turns_scroll|].
  intros []. apply turns_bind.
  { apply turns_modify. intros a Ha. destruct (in_pick i) as [k|]; [|done]. unfold select_database.
    destruct (known_databases a !! k) as [db|]; [|done]. destruct Ha. split; [|done]. split; try done. apply copy_to_fits; unfold kPeersSize, kDatabaseSize; lia. }
  intros []. apply turns_bind. { apply turns_when, turns_bind; [apply turns_run|]. intros r. apply turns_refresh. }
  intros []. apply turns_bind; [apply turns_when, turns_tables|]. intros []. apply turns_bind.
  { apply Hedit. intros s a E []. split; [|done]. split; try done. by apply Hc. }
  intros []. apply turns_when, turns_command.
Qed.

Lemma turns_frames l : Forall input_ok l -> turns false (frames l : ST (App W) unit).
Proof.
  induction 1 as [|i l Hi _ IH]; [apply turns_ret|]. apply turns_bind; [by apply turns_frame|]. by intros [].
Qed.
End loop.

(** ** Peer lists and lists of databases *)

(** The client's peer list is read as the other programs read theirs, when they accept it. *)
Lemma add_ui_peer_parsed m entry p : entry <> [] -> ParsePeer entry = Ret p -> add_ui_peer m entry = <[p.1 := p.2]> m.
Proof.
  unfold ParsePeer, add_ui_peer. intros Hne. rewrite decide_False by done. destruct (break_at equals entry) as [[ids rest]|]; [|done].
  destruct (break_at colon rest) as [[h ports]|]; [|done]. by intros ->.
Qed.

Lemma ParseUiPeerSpec_agrees spec peers : ParsePeerSpec spec = Ret peers -> ParseUiPeerSpec spec = peers.
Proof.
  unfold ParsePeerSpec, ParseUiPeerSpec. generalize (∅ : peer_map). induction (pieces comma spec) as [|e l IH]; intros m; cbn [parse_peers foldl].
  - by intros [= ->].
  - unfold add_ui_peer at 2. destruct (decide (e = [])) as [->|Hne]; [apply IH|]. destruct (ParsePeer e) as [p|x|] eqn:E; [|done..].
    intros Hp. rewrite <- (IH _ Hp). f_equal. rewrite <- (add_ui_peer_parsed m e p Hne E). unfold add_ui_peer. by rewrite decide_False by done.
Qed.

Lemma single_cells (names : list bytes) : omap head (map (fun x => [x]) names) = names.
Proof. induction names as [|x names IH]; [done|]. cbn. by f_equal. Qed.

(** The names of databases that can be told apart in a text. *)
Definition plain_name (d : bytes) : Prop := plain_line [d] /\ d <> no_rows.

Lemma databases_of_text {W : Type} {V : Type} (d : gmap (list ascii) V) (a : App W) : (forall n, is_Some (d !! n) -> plain_name n) ->
  refresh_known_databases {| sr_kind := kTable; sr_text := list_names (str "database") d |} a = with_databases (map fst (map_entries d)) a.
Proof.
  intros Hd. unfold refresh_known_databases. cbn [sr_kind sr_text]. set (names := map fst (map_entries d)).
  assert (Hall : Forall plain_name names).
  { apply List.Forall_map, Forall_forall. intros [n v] Hn. apply elem_of_map_entries in Hn. apply Hd. by exists v. }
  assert (E : list_names (str "database") d = result_text (tab_separated [str "database"]) (map tab_separated (map (fun x => [x]) names))).
  { unfold list_names, result_text, names. rewrite !map_map. cbn [tab_separated]. by destruct (map_entries d). }
  rewrite E, grid_of_text; [by rewrite single_cells|by apply (bool_decide_unpack _)| |].
  - apply List.Forall_map. eapply Forall_impl; [exact Hall|]. by intros x [? _].
  - rewrite list_elem_of_fmap. intros (x & [= <-] & Hx). rewrite Forall_forall in Hall. by destruct (Hall _ Hx).
Qed.

(** ** Properties *)

(** C39: the window survives everything. Whatever the user types, picks and clicks in any number of
    turns of the loop, and whatever the cluster answers or fails to answer, no exception leaves
    the loop, nothing is removed from the history, every text field holds a text that fits it,
    and every table that is drawn has a column. *)
Theorem frames_never_throw {W} `{!Network W} (l : list Input) (a : App W) :
  app_ok a -> Forall input_ok l ->
  exists a', frames l a = (Ret tt, a') /\ app_ok a' /\ history a `prefix_of` history a'.
Proof.
  intros Ha Hl. destruct (turns_frames l Hl a Ha) as (Hr & Ha' & Hp). destruct (frames l a) as [[[]|e|] a']; [|done..]. by exists a'.
Qed.

(** Discover fills in the cluster. If the seed node describes a cluster whose peer list fits the
    field and a node of it lists the databases, then after a click on Discover the peer field is
    read as exactly the discovered peers and the databases to pick from are those of the cluster,
    in order. *)
Theorem discover_fills_in {W : Type} `{!Network W} {V : Type} (a : App W) (host : bytes) (port : N) (discovered : peer_map) (d : gmap (list ascii) V) (c c' : client W) :
  ParseHostPort (seed_buf a) = Some (host, port) ->
  DiscoverCluster host port kUiTimeoutMs (network a) = (Ret discovered, c) ->
  (forall id p, discovered !! id = Some p -> spec_ok (id, p)) -> fits_field kPeersSize (FormatUiPeerSpec discovered) ->
  SendReadRequest discovered show_databases_text kUiTimeoutMs c = (Ret (list_names (str "database") d), c') ->
  (forall n, is_Some (d !! n) -> plain_name n) ->
  exists a', discover a = (Ret tt, a') /\ ParseUiPeerSpec (peers_buf a') = discovered /\
    known_databases a' = map fst (map_entries d) /\ network a' = c'.
Proof.
  intros Hseed Hdisc Hok Hfit Hread Hd. unfold discover. rewrite run_get, Hseed.
  assert (Hne : discovered <> ∅).
  { unfold DiscoverCluster, mbind, ST_bind in Hdisc. destruct (on_network _ _) as [[r|e|] w]; [|done..]. unfold st_lift in Hdisc.
    destruct (DecodeDescribeClusterResponse r); [|done..]. injection Hdisc as <- _. apply insert_non_empty. }
  assert (Hsend : SendStatement discovered show_databases_text c = (Ret {| sr_kind := kTable; sr_text := list_names (str "database") d |}, c')).
  { unfold SendStatement. rewrite decide_False by done.
    assert (Parse show_databases_text = Ret ShowDatabases) as -> by (vm_compute; reflexivity). cbn [is_read].
    unfold st_catch, mbind, ST_bind. by rewrite Hread. }
  eexists. split; [|split; [|split]].
  - unfold mbind at 1, ST_bind at 1, st_catch at 1, on_client. unfold mbind at 1, ST_bind at 1. rewrite Hdisc. cbv zeta.
    rewrite !run_modify. unfold mbind at 1, ST_bind at 1. cbn [network with_network with_peers_buf push_text push_history]. rewrite Hsend.
    unfold st_modify at 1. rewrite databases_of_text by done. reflexivity.
  - cbn. rewrite copy_to_short by done. apply ParseUiPeerSpec_agrees. by apply peer_spec_parses.
  - done.
  - done.
Qed.

(** ** Examples *)

(** Every node describes the cluster of the nodes [ids], all at one host, and lists one database. *)
Definition big_address (id : N) : PeerAddress := {| host := str "10.0.0.100"; port := 9000 + id |}.
Definition big_cluster (ids : list N) : peer_map := list_to_map (map (fun id => (id, big_address id)) ids).
Definition some_databases : gmap (list ascii) unit := {[ str "shop" := tt; str "hr" := tt ]}.

Definition described (ids : list N) (_ : endpoint) (b : bytes) : option bytes :=
  Some (if decide (b = EncodeDescribeClusterRequest describe_cluster)
        then EncodeDescribeClusterResponse {| dc_id := 1; dc_own_address := big_address 1; dc_peers := big_cluster ids |}
        else EncodeReadResponse {| rdr_error := false; rdr_result := list_names (str "database") some_databases |}).

Definition ui_network (ids : list N) : Network demo_world := demo_network (described ids).
Definition opened : App demo_world := new_app (demo_client ∅).
Definition discovered_from (ids : list N) : outcome unit * App demo_world := discover (Network0 := ui_network ids) opened.

(** The peer field holds 255 characters: the list of a larger cluster is cut where the field ends,
    and what is left of the last address can be another address. Here node 14 listens on port
    9014, and the client will talk to port 901. *)
Lemma discover_cuts_peer_list (ids := map N.of_nat (seq 1 14)) :
  (DiscoverCluster (Network0 := ui_network ids) (str "127.0.0.1") 9001 kUiTimeoutMs (demo_client ∅)).1 = Ret (big_cluster ids) /\
  big_cluster ids !! 14%N = Some (big_address 14) /\
  (discovered_from ids).1 = Ret tt /\
  ParseUiPeerSpec (peers_buf (discovered_from ids).2) !! 14%N = Some {| host := str "10.0.0.100"; port := 901 |}.
Proof. split_and!; vm_compute; reflexivity. Qed.

Lemma opened_ok : app_ok opened.
Proof. split; [split; [by apply Nat.ltb_lt; vm_compute|by apply (bool_decide_unpack _)]..|constructor|constructor]. Qed.

(** A turn in which everything is clicked. *)
Definition busy : Input := {| in_seed := None; in_discover := true; in_peers := None; in_pick := Some 0%nat; in_databases := true;
  in_tables := true; in_command := Some (str "CREATE DATABASE shop"); in_enter := true; in_send := false |}.

Lemma frames_never_throw_witness :
  exists a', frames (Network0 := ui_network [1; 2]%N) [busy; busy] opened = (Ret tt, a') /\ app_ok a' /\ history opened `prefix_of` history a'.
Proof.
  apply (frames_never_throw (Network0 := ui_network [1; 2]%N)); [exact opened_ok|].
  assert (Hb : input_ok busy) by (split_and!; intros s; cbn; try discriminate; intros [= <-]; by apply (bool_decide_unpack _)).
  apply Forall_cons; split; [exact Hb|apply Forall_cons; split; [exact Hb|apply Forall_nil; exact I]].
Defined.

Lemma discover_fills_in_witness :
  exists a', discovered_from [1; 2]%N = (Ret tt, a') /\ ParseUiPeerSpec (peers_buf a') = big_cluster [1; 2]%N /\
    known_databases a' = [str "hr"; str "shop"] /\
    network a' = (SendReadRequest (Network0 := ui_network [1; 2]%N) (big_cluster [1; 2]%N) show_databases_text kUiTimeoutMs
                    (DiscoverCluster (Network0 := ui_network [1; 2]%N) (str "127.0.0.1") 9001 kUiTimeoutMs (demo_client ∅)).2).2.
Proof.
  apply (discover_fills_in (Network0 := ui_network [1; 2]%N) opened (str "127.0.0.1") 9001 (big_cluster [1; 2]%N) some_databases
    (DiscoverCluster (Network0 := ui_network [1; 2]%N) (str "127.0.0.1") 9001 kUiTimeoutMs (demo_client ∅)).2).
  - vm_compute. reflexivity.
  - vm_compute. reflexivity.
  - intros id p Hp. apply elem_of_list_to_map_2 in Hp. cbn [map] in Hp. rewrite !elem_of_cons, elem_of_nil in Hp.
    destruct Hp as [[= -> ->]|[[= -> ->]|[]]]; by apply (bool_decide_unpack _).
  - split; [by apply Nat.ltb_lt; vm_compute|by apply (bool_decide_unpack _)].
  - vm_compute. reflexivity.
  - intros n [v Hn]. unfold some_databases in Hn. apply lookup_insert_Some in Hn as [[<- _]|[_ [<- _]%lookup_singleton_Some]]; split; by apply (bool_decide_unpack _).
Defined.
